(* ===== verification/_CoqProject ===== *)
-Q . S2P
Prelude.v
Codec.v
Budget.v
Reader.v
Varint.v
Utf8.v
Float.v
Parse.v
Sketch.v
SketchStore.v
SketchOps.v
Hll.v
Model.v
Instances.v
AttrMap.v
Wire.v
Account.v
Dict.v
Tlv.v
ValueCodec.v
MetricKindCodec.v
Fields.v
RecordCodec.v
SpanCodec.v
EventCodec.v
Batch.v
Frame.v
NativeCodec.v
Control.v
Senders.v
Buffer.v
Queue.v
SinkQueue.v
Receiver.v
Delivery.v
Handshake.v
Acks.v
Output.v
Sender.v
Transcript.v
Hop.v
WriteLoop.v
LoopInvariant.v
LoopProperties.v
StreamFraming.v
FramingProperties.v
StreamSenders.v
PooledStream.v
StreamDelivery.v
StreamSink.v
