(* ===== verification/Prelude.v ===== *)
(** * A verification of logit's hops: the native protocol end to end, and the text streams' framing and sending

    logit (crates/) is a telemetry router: inputs decode logs, metrics and spans into event batches,
    a pipeline of transforms routes them through queues, and outputs encode them again. Between two
    logit processes, and in logit's own files and disk queue, batches travel in the native format of
    crates/logit-proto/src/native and crates/logit-proto/src/frame.rs. This development models that
    format from the event model down to the bytes, in both directions; the receiver, from the
    handshake to its acknowledgements, with the state it keeps to recognize resent frames; the
    sender, with its window of frames in flight; the queues batches wait in; and the loop that takes
    batches from a queue to a sink. The text protocols (syslog, statsd, graphite) travel over streams:
    it models the driver their sinks write frames through and the framer their listeners read them
    with. It proves them correct, each and together.

    ** Parts and files

    The data model, crates/logit-core/src:
    - [Model] has the record types (value.rs, event.rs, lib.rs, metric.rs, span.rs, trace.rs,
      resource.rs, provenance.rs) and the interface [Interner];
    - [Float] is the language's [f64]: bit patterns, with comparison, rounding and arithmetic by
      exact integers, and the interface [Libm] of the mathematical functions;
    - [Sketch] is sketch.rs, the quantile sketch, from its mappings and bin stores to its byte form;
      [SketchStore] proves its stores and byte form, [SketchOps] its operations;
    - [Hll] is the byte form of metric.rs's cardinality estimator; [Parse] is the small parser monad
      of both byte forms;
    - [AttrMap] is attrs.rs: a sorted vector of interned keys, with a finite map as specification;
    - [Instances] has two concrete interners and estimators, for closed examples.

    The machinery of decoding:
    - [Codec] and [Budget] are [CodecError] and native/budget.rs;
    - [Reader] is the shape of every decoder, [fn(&mut Bytes) -> Result<T, CodecError>] under a
      shared budget, as a state and error monad, with the logic the proofs use: what a reader makes
      of written bytes ([reads_back], [reads_all]), that it stays within its budget
      ([budget_safe]), that more input changes nothing ([stable]);
    - [Wire] is the length-prefixed slice, [Account] the logic of what a successful read was charged
      for, [Utf8] the standard library's UTF-8 functions, [Varint] native/varint.rs.

    The payload, crates/logit-proto/src/native, each file with its writers, its readers and their
    round trips:
    - [Dict] is dict.rs, the dictionary that carries a batch's symbols as strings;
    - [ValueCodec] is value.rs;
    - [Tlv], [Fields], [MetricKindCodec], [RecordCodec], [SpanCodec] and [EventCodec] are record.rs,
      from the field framing up to events, resources and scopes;
    - [Batch] is the batch and hop payloads of mod.rs, [NativeCodec] its file encoder and decoder.

    Around the payload:
    - [Frame] is crates/logit-proto/src/frame.rs;
    - [Control] is native/control.rs, the handshake and acknowledgement messages;
    - [Senders] is crates/logit-inputs/src/logit/senders.rs, the receiver's table of the highest
      sequence taken from each sender;
    - [Receiver] and [Handshake] are one connection of crates/logit-inputs/src/logit.rs: the frame
      loop ([serve_frames], a [frame_turn] per frame) with the runs of frames it acknowledges, and
      [handshake];
    - [Acks] is what such a connection writes, in order, for the frames it reads;
    - [Delivery] composes them: the frames of a sender that reconnects, through [Frame], [Batch],
      [Senders] and [Receiver].

    The sending side:
    - [Output] is the sink interface of crates/logit-pipeline/src/output.rs: the trait as a class,
      its documented contract as a class of laws ([OutputOk]), and the states a caller that keeps its
      own side, and gives only the batches it says it gives, can bring a sink to ([used]);
    - [Sender] is crates/logit-outputs/src/logit.rs, the native sink, as an instance of both;
    - [Transcript] is what the sink's answers prove of the bytes on its connections, whatever its
      peer; [Hop] puts the listener of [Handshake], [Receiver] and [Acks] at the other end;
    - [WriteLoop] is the delivery loop of crates/logit-pipeline/src/runtime.rs ([write_loop],
      [deliver_with_retry], [deliver_window], [window_round]) over any sink of [Output] and the store
      of [Buffer] and [SinkQueue], as a machine whose events are what ends each of its waits;
      [LoopInvariant] is its invariant, proved against [OutputOk] alone; [LoopProperties] has what
      follows from it, and the loop over the native sink.

    The queues:
    - [Buffer] is crates/logit-proto/src/buffer.rs, the buffer bounded by length and weight;
    - [Queue] is [BoundedQueue] of crates/logit-pipeline/src/queue.rs, the asynchronous queue around
      it, as the steps of a producer, a consumer and a closer in any interleaving; [SinkQueue] is the
      numbering of a sink's batches on top of it.

    The text streams:
    - [StreamFraming] is crates/logit-proto/src/framing.rs, the framer of one connection under its
      four modes, with the loop of crates/logit-inputs/src/tcp.rs over the frames of a read, and a
      reference that reads a whole stream at once, which the framer is proved to implement;
      [FramingProperties] has what follows;
    - [StreamSenders] is [MessageBuf] (crates/logit-proto/src/msgbuf.rs) and the frames syslog_out,
      statsd_out and graphite_out make of it, and what a listener reads of them;
    - [PooledStream] is crates/logit-outputs/src/stream.rs, the driver those sinks share: the pooled
      connection and its probe, the tail of a stalled frame, the retry, the faults, and the count of
      bytes lost; [StreamDelivery] is what its connections carry over a run and what their receivers
      deliver;
    - [StreamSink] is syslog_out on that driver (crates/logit-outputs/src/syslog.rs) as an instance of
      [Output] and [OutputOk], and the delivery loop over it.

    ** How the code is translated

    Integers are [Z] with the wrap-around of their width written out ([uwrap], [swrap]); the
    well-formedness predicates ([event_ok] and the like) state the ranges the Rust types guarantee.
    A byte is a Standard Library byte, a buffer a list of them. An [f64] is its bit pattern, and its
    operations round the exact result, an integer count of the least subnormal, to nearest even; the
    bits of a NaN an operation makes are one fixed NaN, and no theorem depends on them. A Rust
    function that mutates its arguments returns their new values; the decode budget, which the code
    shares through a [Cell], is threaded through every reader, on errors too. A writer returns the
    bytes it appends and the dictionary builder it leaves. A decoding error keeps the fixed part of
    its message and drops the numbers formatted into it.

    Asynchronous code is split at its suspension points. A connection runs in turns, one per frame;
    what the surroundings decide in a turn (a read that has to wait, a shutdown, an idle timeout, a
    consumer that takes nothing, a write that fails, other connections' work on the shared table) is
    the turn's input, so a theorem about all turns is about all of that. A queue's tasks move one
    shared access at a time. A call of the sink takes what its sockets and timers do during it as an
    argument, and a call dropped at an await is an operation of its own; the delivery loop may see a
    batch arrive, or the shutdown grace, at any of its waits. The stream driver's calls are a state
    monad over a world that keeps every connection's bytes; each probe, dial, write, flush and kernel
    read is answered by a function of the step ([Env]), and a future dropped at an await ends the call
    there. Ledgers beside the code's state (the
    bytes on a connection, the pairs answered, the outcomes of batches) record what happened, and no
    operation reads them.

    Symbols are indices into one process's interner, so encoder and decoder have an interner each,
    and a round trip gives back the batch with every symbol renamed ([translate_batch]), which keeps
    every attribute map's entries by name.

    Loops whose recursion is not structural take fuel: [for_each_field] and the control messages'
    field walk take the body's length, since each field consumes a byte; [lz4_prefix] takes one turn
    per byte of the block and one more; [next_frame] and the loop around it take one turn per byte
    buffered and one more, since each turn but the last takes a byte; [write_chunks] takes one per byte
    to write and one for the flush. Each is proved never to run out. The driver's own loop runs at most
    twice, and is written as its two turns. Value decoding recurses on
    the nesting levels left, which the code bounds by [MAX_VALUE_DEPTH].

    ** What the theorems show

    - Round trips: values, metric, log and span records, events, batches, hop payloads, frames,
      files and control messages decode to what was encoded, between processes with different
      interners, consuming exactly what was written and charging exactly the batch's cost.
    - Summaries: a sketch built by any additions and merges keeps its stores sorted, positive, finite
      and within the bin limit, its quantiles lie between its minimum and maximum, a store is a
      finite map under merging, and the byte forms of sketches and estimators decode to what was
      encoded and only to well-formed values, whatever the mathematical library returns.
    - Untrusted input: on any bytes at all the payload decoder stays within its budget, returns only
      well-formed batches, and has charged at least what they weigh; control messages are accepted
      only when every field is there once; the prefix decoder of a compressed block always stops,
      within the bytes asked for; no proper prefix of a payload decodes; a cut frame is reported as
      truncated, never as malformed.
    - Equivalence with a reference: the attribute map implements a finite map, the merge-join is
      clone-and-insert, omitting attributes while encoding is removing them first, the bounded
      frame reads agree with the full read.
    - The receiver: the sender table is bounded, evicts the identity seen longest ago, reports a
      resend only for a frame that was taken, and recognizes one while its identity is remembered;
      a connection acknowledges only what it settled, answers every frame it handled, refuses an
      oversize frame by name and goes on; a [Hello] is answered with a message its client can read;
      and a sender that reconnects however often delivers each batch once and in order.
    - The sender: it keeps the sink contract, its handshake accepts what a listener replies and
      resumes exactly what the listener's marks cover, and each answer it gives is what the listener
      at the other end did, wherever the connection is cut.
    - The delivery loop, over any sink: every batch is committed, shed or held once and in order,
      delivered is what the sink answered for, drops are what the posture allows, at-most-once resends
      nothing whose outcome is unknown, each batch is announced once, and a head is delivered once
      the sink answers; with the native sink, what is committed as delivered was settled by the
      listener. The backoff doubles up to its maximum.
    - Queues: items are conserved and stay in order under every overflow policy and interleaving, a
      reserved item is the one committed, no wakeup is lost, so a run always stops with each side
      done or truly blocked, and a sink's batches carry ascending numbers.

    - Text streams: how a stream is cut into reads never matters; every framing mode's framer reads
      what its reference reads, in a bounded buffer, and its two endings agree. A stream attempt's
      answer says what left, whatever the peer and the kernel do; a connection carries whole frames in
      order, cut only where it ended; so a syslog listener delivers exactly the messages whole in what
      it read, and a line listener every line of a batch answered [Ok]; and the lost bytes counted are
      the unacknowledged ones no other batch accounts for. What the delivery loop commits as delivered
      over syslog_out is on a connection whose listener delivers it.

    ** What is assumed

    Code outside the repository is a parameter with its documented behaviour as a class of laws:
    [lasso]'s interner ([InternerOk]), the [crc32c] and [lz4_flex] crates ([FrameDepsOk]), the
    [serde] form of the [cardinality-estimator] crate ([EstimatorsOk]), and the platform's logarithm,
    exponential and power ([LibmOk]: no negative exponential or power, a finite logarithm of a positive
    number, and two logarithms of constants within an ulp); [SummariesOk] is the last two together;
    [tokio]'s [Notify] is [NotifyOk], and the weights of queued items fit their type ([QueuedOk]).
    A stream's [write] accepts no more than it is given, and on plaintext nothing when it fails
    ([EnvOk]). [OutputOk] is no assumption: it is the contract
    [Sender] and [StreamSink] are proved to keep and the loop relies on.
    Each class has a concrete instance, with which every theorem is applied to an example.

    ** What is not modelled

    The disk queue (file I/O around [Frame]), the pipeline's graph, routing and transforms, the codecs
    and clients of the other protocols, the datagram sinks, configuration, scripting, telemetry and
    diagnostics, and the sockets, TLS, files and processes around them: they are I/O, or grammars and
    float arithmetic of their own that the parts above only carry. Of the text streams, the encoders
    that fill a [MessageBuf], the decoders and accumulator behind a listener's frames, its idle timeout
    and limits, and TLS sessions. The contract [OutputOk] is proved for the native sink and for syslog_out
    over TCP; the other sinks' [send] are clients of those protocols. Of the delivery loop's runtime,
    start-up and supervision; of the sink interface, [bind] and the duration reports. *)

From Stdlib Require Export ZArith Lia.
From Stdlib Require Import Strings.Byte.
From stdpp Require Export base tactics list list_numbers numbers gmap option strings.

#[global] Open Scope Z_scope.
#[global] Open Scope list_scope.
#[global] Set Default Proof Using "Type".

Declare Scope wire_scope.
Delimit Scope wire_scope with wire.

(** ** Bytes

    A Rust [u8] inside a buffer is a Standard Library byte, so that every value of the type is a
    valid octet; [b2z] reads it as a number and [z2b] is the cast [as u8], which wraps. *)

Abbreviation byte := Byte.byte.
Abbreviation bytes := (list byte).

Definition b2z (b : byte) : Z := Z.of_N (Byte.to_N b).

Definition z2b (z : Z) : byte :=
  match Byte.of_N (Z.to_N (z mod 256)) with
  | Some b => b
  | None => Byte.x00
  end.

(** The number of bytes of a buffer, as the [usize] the code compares. *)
Definition blen (bs : bytes) : Z := Z.of_nat (length bs).

#[global] Instance byte_eq_dec : EqDecision byte := Byte.byte_eq_dec.

Lemma b2z_range b : 0 <= b2z b < 256.
Proof.
  unfold b2z. pose proof (Byte.to_N_bounded b) as Hb. lia.
Qed.

Lemma b2z_z2b z : b2z (z2b z) = z mod 256.
Proof.
  unfold b2z, z2b. pose proof (Z.mod_pos_bound z 256 ltac:(lia)) as Hm.
  destruct (Byte.of_N (Z.to_N (z mod 256))) as [b|] eqn:E.
  - apply Byte.to_of_N in E. rewrite E. lia.
  - apply Byte.of_N_None_iff in E. lia.
Qed.

Lemma z2b_b2z b : z2b (b2z b) = b.
Proof.
  unfold z2b, b2z. pose proof (Byte.to_N_bounded b) as Hb.
  rewrite Z.mod_small by lia. rewrite N2Z.id, Byte.of_to_N. done.
Qed.

Lemma b2z_z2b_small z : 0 <= z < 256 -> b2z (z2b z) = z.
Proof. intros Hz. rewrite b2z_z2b. apply Z.mod_small. lia. Qed.

Lemma b2z_inj a b : b2z a = b2z b -> a = b.
Proof. intros H. rewrite <- (z2b_b2z a), <- (z2b_b2z b), H. done. Qed.

#[global] Instance byte_countable : Countable byte.
Proof.
  refine (inj_countable' (fun b => Byte.to_N b)
            (fun n => default Byte.x00 (Byte.of_N n)) _).
  intros b. rewrite Byte.of_to_N. done.
Defined.

Lemma blen_nonneg bs : 0 <= blen bs.
Proof. unfold blen. lia. Qed.

Lemma blen_app a b : blen (a ++ b) = blen a + blen b.
Proof. unfold blen. rewrite length_app. lia. Qed.

Lemma blen_cons x a : blen (x :: a) = 1 + blen a.
Proof. unfold blen. rewrite length_cons. lia. Qed.

Lemma blen_nil : blen [] = 0.
Proof. done. Qed.

Lemma blen_zero bs : blen bs = 0 -> bs = [].
Proof. destruct bs; [done|]. rewrite blen_cons. pose proof (blen_nonneg bs). lia. Qed.

Lemma take_blen_app a b : take (Z.to_nat (blen a)) (a ++ b) = a.
Proof. unfold blen. by rewrite Nat2Z.id, take_app_length. Qed.

(** ** Machine integers

    A [w]-bit unsigned integer is a [Z] in [unsigned w]; a signed one is in [signed w]. [uwrap] and
    [swrap] are the wrapping casts [as uN] and [as iN]. *)

Definition unsigned (w : Z) (v : Z) : Prop := 0 <= v < 2 ^ w.
Definition signed (w : Z) (v : Z) : Prop := - 2 ^ (w - 1) <= v < 2 ^ (w - 1).

Abbreviation u8 := (unsigned 8).
Abbreviation u16 := (unsigned 16).
Abbreviation u32 := (unsigned 32).
Abbreviation u64 := (unsigned 64).
Abbreviation i32 := (signed 32).
Abbreviation i64 := (signed 64).

#[global] Instance unsigned_dec w v : Decision (unsigned w v).
Proof. unfold unsigned. apply _. Defined.

#[global] Instance signed_dec w v : Decision (signed w v).
Proof. unfold signed. apply _. Defined.

Definition uwrap (w : Z) (v : Z) : Z := v mod 2 ^ w.

Definition swrap (w : Z) (v : Z) : Z :=
  let u := v mod 2 ^ w in
  if u <? 2 ^ (w - 1) then u else u - 2 ^ w.

(** The largest [u64]. *)
Definition U64_MAX : Z := 2 ^ 64 - 1.

Lemma uwrap_small w v : unsigned w v -> uwrap w v = v.
Proof. intros H. apply Z.mod_small. exact H. Qed.

Lemma uwrap_unsigned w v : 0 <= w -> unsigned w (uwrap w v).
Proof. intros Hw. apply Z.mod_pos_bound. apply Z.pow_pos_nonneg; lia. Qed.

Lemma pow2_split w : 0 < w -> 2 ^ w = 2 * 2 ^ (w - 1).
Proof. intros Hw. rewrite <- Z.pow_succ_r by lia. f_equal. lia. Qed.

Lemma swrap_signed w v : 0 < w -> signed w (swrap w v).
Proof.
  intros Hw. unfold signed, swrap. pose proof (pow2_split w Hw) as Hp.
  pose proof (Z.mod_pos_bound v (2 ^ w) ltac:(apply Z.pow_pos_nonneg; lia)) as Hm.
  destruct (Z.ltb_spec (v mod 2 ^ w) (2 ^ (w - 1))); lia.
Qed.

Lemma swrap_uwrap w v : 0 < w -> signed w v -> swrap w (uwrap w v) = v.
Proof.
  intros Hw [Hlo Hhi]. unfold swrap, uwrap. pose proof (pow2_split w Hw) as Hp.
  assert (Hpos : 0 < 2 ^ (w - 1)) by (apply Z.pow_pos_nonneg; lia).
  rewrite Z.mod_mod by lia.
  destruct (Z.le_gt_cases 0 v).
  - rewrite Z.mod_small by lia. destruct (Z.ltb_spec v (2 ^ (w - 1))); lia.
  - rewrite <- (Z.mod_unique v (2 ^ w) (-1) (v + 2 ^ w)) by lia.
    destruct (Z.ltb_spec (v + 2 ^ w) (2 ^ (w - 1))); lia.
Qed.

Lemma swrap_id w v : 0 < w -> signed w v -> swrap w v = v.
Proof.
  intros Hw Hv. rewrite <- (swrap_uwrap w v) at 2 by done. unfold swrap, uwrap.
  by rewrite Z.mod_mod by (apply Z.pow_nonzero; lia).
Qed.

(** ** Byte orders: [to_le_bytes], [from_le_bytes] and the big-endian pair *)

Fixpoint to_le_bytes (n : nat) (v : Z) : bytes :=
  match n with
  | O => []
  | S n => z2b v :: to_le_bytes n (Z.shiftr v 8)
  end.

Fixpoint from_le_bytes (bs : bytes) : Z :=
  match bs with
  | [] => 0
  | b :: bs => Z.lor (b2z b) (Z.shiftl (from_le_bytes bs) 8)
  end.

Definition to_be_bytes (n : nat) (v : Z) : bytes := reverse (to_le_bytes n v).
Definition from_be_bytes (bs : bytes) : Z := from_le_bytes (reverse bs).

(** [lor] of a small number and a shifted one is their sum. *)
Lemma lor_shiftl_add a b n : 0 <= n -> 0 <= a < 2 ^ n -> Z.lor a (Z.shiftl b n) = a + 2 ^ n * b.
Proof.
  intros Hn Ha. rewrite Z.shiftl_mul_pow2 by lia.
  rewrite <- Z.lxor_lor.
  - rewrite <- Z.add_nocarry_lxor; [lia|].
    apply Z.bits_inj'. intros i Hi. rewrite Z.land_spec, Z.bits_0.
    rewrite <- Z.shiftl_mul_pow2 by lia.
    destruct (Z.lt_ge_cases i n).
    + rewrite Z.shiftl_spec_low by lia. apply andb_false_r.
    + rewrite <- (Z.mod_small a (2 ^ n)) by lia.
      rewrite Z.mod_pow2_bits_high by lia. done.
  - apply Z.bits_inj'. intros i Hi. rewrite Z.land_spec, Z.bits_0.
    rewrite <- Z.shiftl_mul_pow2 by lia.
    destruct (Z.lt_ge_cases i n).
    + rewrite Z.shiftl_spec_low by lia. apply andb_false_r.
    + rewrite <- (Z.mod_small a (2 ^ n)) by lia.
      rewrite Z.mod_pow2_bits_high by lia. done.
Qed.

Lemma length_to_le_bytes n v : length (to_le_bytes n v) = n.
Proof. revert v. induction n; intros v; simpl; [done|]. by rewrite IHn. Qed.

Lemma blen_to_le_bytes n v : blen (to_le_bytes n v) = Z.of_nat n.
Proof. unfold blen. by rewrite length_to_le_bytes. Qed.

Lemma from_to_le_bytes n v : from_le_bytes (to_le_bytes n v) = v mod 2 ^ (8 * Z.of_nat n).
Proof.
  revert v. induction n as [|n IH]; intros v.
  - simpl. by rewrite Z.mod_1_r.
  - cbn [to_le_bytes from_le_bytes]. rewrite IH, b2z_z2b.
    pose proof (Z.mod_pos_bound v 256 ltac:(lia)) as Hm.
    rewrite lor_shiftl_add by (change (2 ^ 8) with 256; lia).
    rewrite Z.shiftr_div_pow2 by lia.
    replace (8 * Z.of_nat (S n)) with (8 + 8 * Z.of_nat n) by lia.
    rewrite Z.pow_add_r by lia.
    change (2 ^ 8) with 256.
    pose proof (Z.pow_pos_nonneg 2 (8 * Z.of_nat n) ltac:(lia) ltac:(lia)).
    rewrite Z.rem_mul_r by lia. lia.
Qed.

Lemma from_le_bytes_range bs : 0 <= from_le_bytes bs < 2 ^ (8 * blen bs).
Proof.
  induction bs as [|b bs IH]; [done|].
  cbn [from_le_bytes]. pose proof (b2z_range b) as Hb.
  rewrite lor_shiftl_add by (change (2 ^ 8) with 256; lia).
  rewrite blen_cons.
  replace (8 * (1 + blen bs)) with (8 + 8 * blen bs) by lia.
  rewrite Z.pow_add_r by (pose proof (blen_nonneg bs); lia).
  change (2 ^ 8) with 256 in *. nia.
Qed.

Lemma to_from_le_bytes bs : to_le_bytes (length bs) (from_le_bytes bs) = bs.
Proof.
  induction bs as [|b bs IH]; [done|].
  cbn [from_le_bytes length to_le_bytes]. pose proof (b2z_range b) as Hb.
  rewrite lor_shiftl_add by (change (2 ^ 8) with 256; lia).
  change (2 ^ 8) with 256. f_equal.
  - rewrite <- (z2b_b2z b) at 2. apply b2z_inj. rewrite !b2z_z2b.
    rewrite (Z.mul_comm 256), Z.mod_add by lia. done.
  - rewrite Z.shiftr_div_pow2 by lia. change (2 ^ 8) with 256.
    rewrite (Z.mul_comm 256), Z.div_add by lia.
    rewrite Z.div_small by lia. rewrite Z.add_0_l. exact IH.
Qed.

Lemma from_to_le_unsigned n v :
  unsigned (8 * Z.of_nat n) v -> from_le_bytes (to_le_bytes n v) = v.
Proof. intros H. rewrite from_to_le_bytes. by apply Z.mod_small. Qed.

Lemma length_to_be_bytes n v : length (to_be_bytes n v) = n.
Proof. unfold to_be_bytes. by rewrite length_reverse, length_to_le_bytes. Qed.

Lemma from_to_be_unsigned n v :
  unsigned (8 * Z.of_nat n) v -> from_be_bytes (to_be_bytes n v) = v.
Proof.
  intros H. unfold from_be_bytes, to_be_bytes. rewrite reverse_involutive.
  by apply from_to_le_unsigned.
Qed.

(** A signed integer is written as its two's complement. *)
Lemma from_to_le_signed n v :
  (0 < n)%nat -> signed (8 * Z.of_nat n) v ->
  swrap (8 * Z.of_nat n) (from_le_bytes (to_le_bytes n v)) = v.
Proof.
  intros Hn H. rewrite from_to_le_bytes. change (v mod _) with (uwrap (8 * Z.of_nat n) v).
  apply swrap_uwrap; [lia|done].
Qed.

(** [u64::saturating_add] and [u64::saturating_sub]. *)
Definition saturating_add (a b : Z) : Z := Z.min (a + b) U64_MAX.
Definition saturating_sub (a b : Z) : Z := Z.max (a - b) 0.

(** The sum of a measure over a list. *)
Definition total {T} (cost : T -> Z) (l : list T) : Z := foldr Z.add 0 (map cost l).

Lemma total_nonneg {T} (cost : T -> Z) l : (forall x, 0 <= cost x) -> 0 <= total cost l.
Proof. intros H. unfold total. induction l as [|x l IH]; simpl; [done|]. specialize (H x). lia. Qed.

Lemma total_app {T} (cost : T -> Z) l1 l2 : total cost (l1 ++ l2) = total cost l1 + total cost l2.
Proof. unfold total. induction l1; simpl; lia. Qed.

Lemma total_perm {T} (cost : T -> Z) l1 l2 : l1 ≡ₚ l2 -> total cost l1 = total cost l2.
Proof. unfold total. induction 1; simpl; lia. Qed.

#[global] Arguments to_le_bytes : simpl never.
#[global] Arguments from_le_bytes : simpl never.

(** ** Tactics *)

(** A conjunction of booleans into its parts. *)
Ltac split_bools :=
  repeat match goal with
  | H : (_ && _) = true |- _ => apply andb_true_iff in H as [? ?]
  end.
