(* ===== verification/Codec.v ===== *)
(** * Codec errors and results

    [CodecError] of crates/logit-proto/src/lib.rs, the error of every decoder of the native format,
    and Rust's [Result] over it. A [Malformed] or [Unsupported] error carries the fixed part of the
    code's message; the numbers the code formats into it are left out. *)

From S2P Require Import Prelude.

Inductive CodecError :=
| Malformed (msg : string)
| Io (msg : string)
| Unsupported (msg : string)
| Truncated (needed : Z)
| BudgetExceeded (limit : Z).

#[global] Instance CodecError_eq_dec : EqDecision CodecError.
Proof. solve_decision. Defined.

Inductive result (A : Type) :=
| Ok (a : A)
| Err (e : CodecError).
Arguments Ok {A} a.
Arguments Err {A} e.

#[global] Instance result_eq_dec {A} `{EqDecision A} : EqDecision (result A).
Proof. solve_decision. Defined.

Definition is_ok {A} (r : result A) : bool :=
  match r with Ok _ => true | Err _ => false end.

(** The [?] operator on a plain result. *)
Definition res_bind {A B} (r : result A) (k : A -> result B) : result B :=
  match r with
  | Ok a => k a
  | Err e => Err e
  end.

Definition res_map {A B} (f : A -> B) (r : result A) : result B :=
  res_bind r (fun a => Ok (f a)).

Notation "'let?' x ':=' r 'in' k" := (res_bind r (fun x => k))
  (at level 10, x pattern, r at level 100, k at level 200, only parsing) : wire_scope.

Lemma res_bind_Ok {A B} (r : result A) (k : A -> result B) b :
  res_bind r k = Ok b <-> exists a, r = Ok a /\ k a = Ok b.
Proof. destruct r as [a|e]; simpl; split; [eauto|intros (? & [= ->] & H); done|done|intros (? & [=] & _)]. Qed.
