(* ===== verification/Budget.v ===== *)
(** * The per-frame decode budget

    crates/logit-proto/src/native/budget.rs. A budget is a counter shared by every reader of one
    payload: [remaining] is the [Cell] the code mutates, so an operation returns the budget it
    leaves whether it succeeds or fails. *)

From S2P Require Import Prelude Codec.

Definition MAX_SANE_UNCOMPRESSED_LEN : Z := 64 * 1024 * 1024.

Abbreviation DECODE_BUDGET_PER_FRAME_BYTE := (4)%Z.

Abbreviation DEFAULT_DECODE_BUDGET := (DECODE_BUDGET_PER_FRAME_BYTE * MAX_SANE_UNCOMPRESSED_LEN)%Z.

Record DecodeBudget := mkBudget { limit : Z; remaining : Z }.

Definition budget_new (limit : Z) : DecodeBudget := mkBudget limit limit.

Definition for_frame_cap (max_frame_bytes : Z) : DecodeBudget :=
  budget_new (DECODE_BUDGET_PER_FRAME_BYTE * Z.min max_frame_bytes MAX_SANE_UNCOMPRESSED_LEN).

Definition unlimited : DecodeBudget := budget_new U64_MAX.

Definition default_budget : DecodeBudget := budget_new DEFAULT_DECODE_BUDGET.

Definition charged (b : DecodeBudget) : Z := limit b - remaining b.

(** What a successful charge of [c] leaves. *)
Definition spend (c : Z) (b : DecodeBudget) : DecodeBudget := mkBudget (limit b) (remaining b - c).

Definition charge (n : Z) (b : DecodeBudget) : result unit * DecodeBudget :=
  if remaining b <? n then (Err (BudgetExceeded (limit b)), b)
  else (Ok tt, spend n b).

(** [u64::saturating_mul]. *)
Definition saturating_mul (a b : Z) : Z := Z.min (a * b) U64_MAX.

Definition charge_list (what : string) (count min_wire available size : Z) (b : DecodeBudget)
  : result unit * DecodeBudget :=
  if available / min_wire <? count then (Err (Malformed what), b)
  else charge (saturating_mul count size) b.

(** ** The invariant every budget operation keeps *)

Definition budget_wf (b : DecodeBudget) : Prop := 0 <= remaining b <= limit b.

(** [b'] is what some charges of [b] leave. *)
Definition budget_le (b' b : DecodeBudget) : Prop :=
  limit b' = limit b /\ 0 <= remaining b' <= remaining b.

#[global] Instance budget_le_trans : Transitive budget_le.
Proof. intros x y z [H1 H2] [H3 H4]. split; [congruence|lia]. Qed.

Lemma budget_le_refl b : 0 <= remaining b -> budget_le b b.
Proof. intros. split; [done|lia]. Qed.

Lemma spend_0 b : spend 0 b = b.
Proof. destruct b. unfold spend. simpl. f_equal. lia. Qed.

Lemma spend_spend c1 c2 b : spend c2 (spend c1 b) = spend (c1 + c2) b.
Proof. unfold spend. simpl. f_equal. lia. Qed.

Lemma remaining_spend c b : remaining (spend c b) = remaining b - c.
Proof. done. Qed.

Lemma charge_ok n b : n <= remaining b -> charge n b = (Ok tt, spend n b).
Proof. intros H. unfold charge. destruct (Z.ltb_spec (remaining b) n); [lia|done]. Qed.

Lemma charge_budget_le n b :
  0 <= n -> 0 <= remaining b -> budget_le (snd (charge n b)) b.
Proof.
  intros Hn Hb. unfold charge. destruct (Z.ltb_spec (remaining b) n); simpl.
  - by apply budget_le_refl.
  - split; simpl; [done|lia].
Qed.

Lemma saturating_mul_nonneg a b : 0 <= a -> 0 <= b -> 0 <= saturating_mul a b.
Proof. intros. unfold saturating_mul, U64_MAX. nia. Qed.

Lemma saturating_mul_small a b : a * b <= U64_MAX -> saturating_mul a b = a * b.
Proof. unfold saturating_mul. lia. Qed.

Lemma charge_list_budget_le what count min_wire available size b :
  0 <= count -> 0 <= size -> 0 <= remaining b ->
  budget_le (snd (charge_list what count min_wire available size b)) b.
Proof.
  intros Hc Hs Hb. unfold charge_list.
  destruct (available / min_wire <? count); simpl.
  - by apply budget_le_refl.
  - apply charge_budget_le; [|done]. by apply saturating_mul_nonneg.
Qed.

Lemma charge_list_ok what count min_wire available size b :
  0 < min_wire -> 0 <= count -> 0 <= size ->
  count * min_wire <= available -> count * size <= remaining b -> remaining b <= U64_MAX ->
  charge_list what count min_wire available size b = (Ok tt, spend (count * size) b).
Proof.
  intros Hm Hc Hs Hav Hrem Hmax. unfold charge_list.
  assert (count <= available / min_wire) by (apply Z.div_le_lower_bound; lia).
  destruct (Z.ltb_spec (available / min_wire) count); [lia|].
  rewrite saturating_mul_small by lia. by apply charge_ok.
Qed.
