(* ===== verification/Reader.v ===== *)
(** * Readers: fallible, budgeted consumption of a buffer

    The native decoders all have the shape [fn(&mut Bytes, &Dict) -> Result<T, CodecError>]. A
    [reader] takes the bytes left and the payload's budget and returns the value with the bytes
    left, or an error, together with the budget as charged so far. An error drops the cursor, as
    every caller in the source does with [?]; the budget is shared by reference, so it survives.

    The second half is the logic the codec's theorems are proved in: what a reader does on bytes a
    writer produced ([reads_back], [reads_all]), that it never charges past the budget
    ([budget_safe]), and that more input does not change what it read ([stable]). *)

From S2P Require Import Prelude Codec Budget.

Definition reader (A : Type) : Type := bytes -> DecodeBudget -> result (A * bytes) * DecodeBudget.

Definition rret {A} (a : A) : reader A := fun bs b => (Ok (a, bs), b).

Definition rfail {A} (e : CodecError) : reader A := fun _ b => (Err e, b).

Definition rbind {A B} (r : reader A) (k : A -> reader B) : reader B := fun bs b =>
  match r bs b with
  | (Ok (a, bs'), b') => k a bs' b'
  | (Err e, b') => (Err e, b')
  end.

Notation "'let!' x ':=' r 'in' k" := (rbind r (fun x => k))
  (at level 10, x pattern, r at level 100, k at level 200) : wire_scope.
Notation "r1 ';!' r2" := (rbind r1 (fun _ : unit => r2))
  (at level 90, r2 at level 200, right associativity) : wire_scope.

Open Scope wire_scope.

(** [Bytes::len] of what is left. *)
Definition rlen : reader Z := fun bs b => (Ok (blen bs, bs), b).

(** [Bytes::split_to], called only after the length was checked. *)
Definition split_to (n : Z) : reader bytes := fun bs b =>
  (Ok (take (Z.to_nat n) bs, drop (Z.to_nat n) bs), b).

(** [if bytes.len() < len { return Err(..) }]. *)
Definition need (n : Z) (e : CodecError) : reader unit := fun bs b =>
  if blen bs <? n then (Err e, b) else (Ok (tt, bs), b).

(** Charging the budget a payload's readers share. *)
Definition rcharge (n : Z) : reader unit := fun bs b =>
  match charge n b with
  | (Ok _, b') => (Ok (tt, bs), b')
  | (Err e, b') => (Err e, b')
  end.

Definition rcharge_list (what : string) (count min_wire size : Z) : reader unit := fun bs b =>
  match charge_list what count min_wire (blen bs) size b with
  | (Ok _, b') => (Ok (tt, bs), b')
  | (Err e, b') => (Err e, b')
  end.

Definition rguard (c : bool) (e : CodecError) : reader unit :=
  if c then rret tt else rfail e.

Definition rlift {A} (r : result A) : reader A :=
  match r with
  | Ok a => rret a
  | Err e => rfail e
  end.

(** Runs [r] on a carved-out slice and leaves the outer cursor where it is. *)
Definition on_slice {A} (slice : bytes) (r : reader A) : reader (A * bytes) := fun bs b =>
  match r slice b with
  | (Ok (a, extra), b') => (Ok ((a, extra), bs), b')
  | (Err e, b') => (Err e, b')
  end.

(** [for _ in 0..count { items.push(read(..)?) }]. *)
Fixpoint rrepeat {A} (n : nat) (r : reader A) : reader (list A) :=
  match n with
  | O => rret []
  | S n => let! x := r in let! xs := rrepeat n r in rret (x :: xs)
  end.

(** Takes the whole buffer ([std::mem::take], or a field the code moves out). *)
Definition take_all : reader bytes := fun bs b => (Ok (bs, []), b).

(** [field.clear()]. *)
Definition clear_all : reader unit := fun bs b => (Ok (tt, []), b).

(** ** What a reader makes of written bytes *)

(** [r] reads [a] off the front of [w], whatever follows, and charges exactly [c]. The two bounds
    are the machine's: a buffer's length and the budget are [u64]. *)
Definition reads_back {A} (r : reader A) (w : bytes) (a : A) (c : Z) : Prop :=
  0 <= c /\
  (blen w < 2 ^ 64 -> forall rest b, c <= remaining b -> remaining b <= U64_MAX ->
   r (w ++ rest) b = (Ok (a, rest), spend c b)).

(** [r] reads [a] off exactly [w], and charges exactly [c]. *)
Definition reads_all {A} (r : reader A) (w : bytes) (a : A) (c : Z) : Prop :=
  0 <= c /\
  (blen w < 2 ^ 64 -> forall b, c <= remaining b -> remaining b <= U64_MAX ->
   r w b = (Ok (a, []), spend c b)).

Lemma reads_back_all {A} (r : reader A) w a c : reads_back r w a c -> reads_all r w a c.
Proof.
  intros [Hc H]. split; [done|]. intros Hw b Hb Hm.
  rewrite <- (app_nil_r w). by apply H.
Qed.

Lemma reads_back_cost {A} (r : reader A) w a c c' : reads_back r w a c -> c = c' -> reads_back r w a c'.
Proof. by intros ? ->. Qed.

Lemma reads_back_ret {A} (a : A) : reads_back (rret a) [] a 0.
Proof. split; [done|]. intros _ rest b _ _. unfold rret. by rewrite spend_0. Qed.

Lemma reads_back_bind {A B} (r : reader A) (k : A -> reader B) w1 w2 a b c1 c2 :
  reads_back r w1 a c1 -> reads_back (k a) w2 b c2 ->
  reads_back (rbind r k) (w1 ++ w2) b (c1 + c2).
Proof.
  intros [Hc1 H1] [Hc2 H2]. split; [lia|]. intros Hw rest bud Hb Hm.
  rewrite blen_app in Hw. pose proof (blen_nonneg w1). pose proof (blen_nonneg w2).
  unfold rbind. rewrite <- app_assoc, H1 by lia.
  rewrite H2 by (rewrite ?remaining_spend; lia). by rewrite spend_spend.
Qed.

(** Reading nothing off the buffer after [r]. *)
Lemma reads_back_bind_r {A B} (r : reader A) (k : A -> reader B) w a b c :
  reads_back r w a c -> reads_back (k a) [] b 0 -> reads_back (rbind r k) w b c.
Proof.
  intros H1 H2. rewrite <- (app_nil_r w), <- (Z.add_0_r c). by eapply reads_back_bind.
Qed.

Lemma reads_back_bind_l {A B} (r : reader A) (k : A -> reader B) w a b c :
  reads_back r [] a 0 -> reads_back (k a) w b c -> reads_back (rbind r k) w b c.
Proof.
  intros H1 H2. rewrite <- (app_nil_l w), <- (Z.add_0_l c). by eapply reads_back_bind.
Qed.

Lemma reads_all_bind {A B} (r : reader A) (k : A -> reader B) w1 w2 a b c1 c2 :
  reads_back r w1 a c1 -> reads_all (k a) w2 b c2 ->
  reads_all (rbind r k) (w1 ++ w2) b (c1 + c2).
Proof.
  intros [Hc1 H1] [Hc2 H2]. split; [lia|]. intros Hw bud Hb Hm.
  rewrite blen_app in Hw. pose proof (blen_nonneg w1). pose proof (blen_nonneg w2).
  unfold rbind. rewrite H1 by lia.
  rewrite H2 by (rewrite ?remaining_spend; lia). by rewrite spend_spend.
Qed.

Lemma reads_all_bind_r {A B} (r : reader A) (k : A -> reader B) w a b c :
  reads_all r w a c -> reads_all (k a) [] b 0 -> reads_all (rbind r k) w b c.
Proof.
  intros [Hc1 H1] [Hc2 H2]. split; [lia|]. intros Hw bud Hb Hm.
  unfold rbind. rewrite H1 by lia.
  rewrite H2 by (rewrite ?remaining_spend, ?blen_nil; lia). by rewrite spend_spend, Z.add_0_r.
Qed.

Lemma reads_back_guard (c : bool) e : c = true -> reads_back (rguard c e) [] tt 0.
Proof. intros ->. apply (reads_back_ret tt). Qed.

Lemma reads_back_charge n : 0 <= n -> reads_back (rcharge n) [] tt n.
Proof.
  intros Hn. split; [done|]. intros _ rest b Hb _. unfold rcharge. by rewrite charge_ok.
Qed.

Lemma reads_back_split w : reads_back (split_to (blen w)) w w 0.
Proof.
  split; [done|]. intros _ rest b _ _. unfold split_to, blen.
  rewrite Nat2Z.id, take_app_length, drop_app_length. by rewrite spend_0.
Qed.

(** A length check before the bytes it is about. *)
Lemma reads_back_need {A} n e (r : reader A) w a c :
  n <= blen w -> reads_back r w a c -> reads_back (need n e ;! r) w a c.
Proof.
  intros Hn [Hc H]. split; [done|]. intros Hw rest b Hb Hm. unfold rbind, need.
  rewrite blen_app. pose proof (blen_nonneg rest).
  destruct (Z.ltb_spec (blen w + blen rest) n); [lia|]. by apply H.
Qed.

(** A count checked and charged before its items. *)
Lemma reads_back_charge_list {A} what count mw size (r : reader A) w a c :
  0 < mw -> 0 <= count -> 0 <= size -> count * mw <= blen w -> reads_back r w a c ->
  reads_back (rcharge_list what count mw size ;! r) w a (count * size + c).
Proof.
  intros Hmw Hct Hs Hle [Hc H]. split; [nia|]. intros Hw rest b Hb Hm. unfold rbind, rcharge_list.
  pose proof (blen_nonneg rest).
  rewrite charge_list_ok by (rewrite ?blen_app; nia).
  rewrite H by (rewrite ?remaining_spend; nia). by rewrite spend_spend.
Qed.

Lemma reads_back_repeat {A} (r : reader A) (ws : list bytes) (xs : list A) (cs : list Z) :
  Forall2 (fun w '(x, c) => reads_back r w x c) ws (zip xs cs) -> length xs = length cs ->
  reads_back (rrepeat (length xs) r) (concat ws) xs (foldr Z.add 0 cs).
Proof.
  revert ws cs. induction xs as [|x xs IH]; intros ws cs HF Hlen.
  - destruct cs; [|done]. simpl in HF. apply Forall2_nil_inv_r in HF as ->.
    apply (reads_back_ret []).
  - destruct cs as [|c cs]; [done|]. simpl in HF.
    apply Forall2_cons_inv_r in HF as (w & ws' & Hw & HF & ->). simpl.
    eapply reads_back_bind; [exact Hw|].
    eapply reads_back_bind_r; [apply IH; [exact HF|by simpl in Hlen; lia]|].
    apply reads_back_ret.
Qed.

Lemma reads_all_take_all w : reads_all take_all w w 0.
Proof. split; [done|]. intros _ b _ _. unfold take_all. by rewrite spend_0. Qed.

(** Running a reader on exactly the slice written for it. *)
Lemma reads_back_on_slice {A} (r : reader A) w a c :
  blen w < 2 ^ 64 -> reads_all r w a c -> reads_back (on_slice w r) [] (a, []) c.
Proof.
  intros Hw [Hc H]. split; [done|]. intros _ rest b Hb Hm. unfold on_slice.
  by rewrite H by lia.
Qed.

(** ** What holds of a reader on any input *)

(** Whether it succeeds or fails, [r] leaves the budget within what it was given. *)
Definition budget_safe {A} (r : reader A) : Prop :=
  forall bs b, 0 <= remaining b -> budget_le (snd (r bs b)) b.

(** Every value [r] returns satisfies [P]. *)
Definition returns {A} (r : reader A) (P : A -> Prop) : Prop :=
  forall bs b a rest b', r bs b = (Ok (a, rest), b') -> P a.

(** What [r] reads does not depend on the bytes after it. *)
Definition stable {A} (r : reader A) : Prop :=
  forall bs b a rest b' ext,
    r bs b = (Ok (a, rest), b') -> r (bs ++ ext) b = (Ok (a, rest ++ ext), b').

(** [r] only moves the cursor forward. *)
Definition consumes {A} (r : reader A) : Prop :=
  forall bs b a rest b', r bs b = (Ok (a, rest), b') -> exists used, bs = used ++ rest.

Create HintDb reader discriminated.
#[export] Hint Extern 10 (_ <= _) => lia : reader.

Lemma rbind_ok {A B} (r : reader A) (k : A -> reader B) bs b c rest b' :
  rbind r k bs b = (Ok (c, rest), b') ->
  exists a bs1 b1, r bs b = (Ok (a, bs1), b1) /\ k a bs1 b1 = (Ok (c, rest), b').
Proof.
  unfold rbind. destruct (r bs b) as [[[a bs1]|e] b1]; [eauto 6|done].
Qed.

Lemma budget_safe_bind {A B} (r : reader A) (k : A -> reader B) (P : A -> Prop) :
  budget_safe r -> returns r P -> (forall a, P a -> budget_safe (k a)) -> budget_safe (rbind r k).
Proof.
  intros Hr HP Hk bs b Hb. unfold rbind. specialize (Hr bs b Hb).
  destruct (r bs b) as [[[a bs']|e] b'] eqn:E; simpl in *; [|done].
  etrans; [|exact Hr]. apply Hk; [by eapply HP|apply Hr].
Qed.

Lemma budget_safe_bind' {A B} (r : reader A) (k : A -> reader B) :
  budget_safe r -> (forall a, budget_safe (k a)) -> budget_safe (rbind r k).
Proof. intros Hr Hk. eapply (budget_safe_bind _ _ (fun _ => True)); [done|by intros ?|auto]. Qed.

Lemma budget_safe_pure {A} (r : reader A) :
  (forall bs b, snd (r bs b) = b) -> budget_safe r.
Proof. intros H bs b Hb. rewrite H. by apply budget_le_refl. Qed.

Lemma budget_safe_ret {A} (a : A) : budget_safe (rret a).
Proof. by apply budget_safe_pure. Qed.

Lemma budget_safe_fail {A} e : budget_safe (@rfail A e).
Proof. by apply budget_safe_pure. Qed.

Lemma budget_safe_need n e : budget_safe (need n e).
Proof. apply budget_safe_pure. intros bs b. unfold need. by case_match. Qed.

Lemma budget_safe_split n : budget_safe (split_to n).
Proof. by apply budget_safe_pure. Qed.

Lemma budget_safe_take_all : budget_safe take_all.
Proof. by apply budget_safe_pure. Qed.

Lemma budget_safe_clear_all : budget_safe clear_all.
Proof. by apply budget_safe_pure. Qed.

Lemma budget_safe_guard c e : budget_safe (rguard c e).
Proof. destruct c; [apply budget_safe_ret|apply budget_safe_fail]. Qed.

Lemma budget_safe_lift {A} (r : result A) : budget_safe (rlift r).
Proof. destruct r; [apply budget_safe_ret|apply budget_safe_fail]. Qed.

Lemma budget_safe_charge n : 0 <= n -> budget_safe (rcharge n).
Proof.
  intros Hn bs b Hb. unfold rcharge. pose proof (charge_budget_le n b Hn Hb) as H.
  destruct (charge n b) as [[|] b']; exact H.
Qed.

Lemma budget_safe_charge_list what count mw size :
  0 <= count -> 0 <= size -> budget_safe (rcharge_list what count mw size).
Proof.
  intros Hc Hs bs b Hb. unfold rcharge_list.
  pose proof (charge_list_budget_le what count mw (blen bs) size b Hc Hs Hb) as H.
  destruct (charge_list _ _ _ _ _ b) as [[|] b']; exact H.
Qed.

Lemma budget_safe_on_slice {A} s (r : reader A) : budget_safe r -> budget_safe (on_slice s r).
Proof.
  intros Hr bs b Hb. unfold on_slice. specialize (Hr s b Hb).
  destruct (r s b) as [[[a ?]|e] b']; exact Hr.
Qed.

Lemma budget_safe_repeat {A} n (r : reader A) : budget_safe r -> budget_safe (rrepeat n r).
Proof.
  intros Hr. induction n as [|n IH]; simpl; [apply budget_safe_ret|].
  apply budget_safe_bind'; [done|]. intros a. apply budget_safe_bind'; [done|].
  intros l. apply budget_safe_ret.
Qed.

#[export] Hint Resolve budget_safe_ret budget_safe_fail budget_safe_need budget_safe_split
  budget_safe_take_all budget_safe_clear_all budget_safe_guard budget_safe_lift
  budget_safe_charge budget_safe_charge_list budget_safe_on_slice budget_safe_repeat : reader.

Lemma stable_bind {A B} (r : reader A) (k : A -> reader B) :
  stable r -> (forall a, stable (k a)) -> stable (rbind r k).
Proof.
  intros Hr Hk bs b c rest b' ext H. apply rbind_ok in H as (a & bs1 & b1 & E1 & E2).
  unfold rbind. rewrite (Hr _ _ _ _ _ ext E1). by apply Hk.
Qed.

Lemma stable_ret {A} (a : A) : stable (rret a).
Proof. intros bs b a' rest b' ext [= -> -> ->]. done. Qed.

Lemma stable_fail {A} e : stable (@rfail A e).
Proof. intros bs b a rest b' ext [=]. Qed.

Lemma stable_guard c e : stable (rguard c e).
Proof. destruct c; [apply stable_ret|apply stable_fail]. Qed.

Lemma stable_lift {A} (r : result A) : stable (rlift r).
Proof. destruct r; [apply stable_ret|apply stable_fail]. Qed.

Lemma stable_charge n : stable (rcharge n).
Proof.
  intros bs b a rest b' ext. unfold rcharge.
  destruct (charge n b) as [[|] b1]; intros [= -> -> ->]; done.
Qed.

Lemma stable_charge_list what count mw size :
  0 < mw -> stable (rcharge_list what count mw size).
Proof.
  intros Hmw bs b a rest b' ext. unfold rcharge_list, charge_list.
  destruct (Z.ltb_spec (blen bs / mw) count); [done|].
  assert (blen bs / mw <= blen (bs ++ ext) / mw).
  { apply Z.div_le_mono; [done|]. rewrite blen_app. pose proof (blen_nonneg ext). lia. }
  destruct (Z.ltb_spec (blen (bs ++ ext) / mw) count); [lia|].
  destruct (charge _ b) as [[|] b1]; intros [= -> -> ->]; done.
Qed.

(** [stable] on buffers of at least [n] bytes: what a length check leaves to show. *)
Definition stable_from {A} (n : Z) (r : reader A) : Prop :=
  forall bs b a rest b' ext, n <= blen bs ->
    r bs b = (Ok (a, rest), b') -> r (bs ++ ext) b = (Ok (a, rest ++ ext), b').

Lemma stable_need {A} n e (r : reader A) : stable_from n r -> stable (need n e ;! r).
Proof.
  intros Hr bs b a rest b' ext. unfold rbind, need. rewrite blen_app. pose proof (blen_nonneg ext).
  destruct (Z.ltb_spec (blen bs) n) as [|Hn]; [done|].
  destruct (Z.ltb_spec (blen bs + blen ext) n); [lia|]. by apply Hr.
Qed.

Lemma stable_from_split {A} n (k : bytes -> reader A) :
  (forall p, stable (k p)) -> stable_from n (let! p := split_to n in k p).
Proof.
  intros Hk bs b a rest b' ext Hn. unfold rbind, split_to. intros H1.
  rewrite take_app_le, drop_app_le by (unfold blen in Hn; lia). by apply Hk.
Qed.

Lemma stable_from_charge {A} n c (r : reader A) :
  stable_from n r -> stable_from n (rcharge c ;! r).
Proof.
  intros Hr bs b a rest b' ext Hn. unfold rbind, rcharge.
  destruct (charge c b) as [[|] b1]; [by apply Hr|done].
Qed.

(** A length check makes the carve after it stable. *)
Lemma stable_need_split {A} n e (k : bytes -> reader A) :
  (forall p, stable (k p)) -> stable (need n e ;! let! p := split_to n in k p).
Proof. intros Hk. by apply stable_need, stable_from_split. Qed.

Lemma stable_on_slice {A} s (r : reader A) : stable (on_slice s r).
Proof.
  intros bs b [a x] rest b' ext. unfold on_slice.
  destruct (r s b) as [[[? ?]|] ?]; intros [= -> -> -> ->]; done.
Qed.

Lemma stable_repeat {A} n (r : reader A) : stable r -> stable (rrepeat n r).
Proof.
  intros Hr. induction n as [|n IH]; simpl; [apply stable_ret|].
  apply stable_bind; [done|]. intros a. apply stable_bind; [done|]. intros l. apply stable_ret.
Qed.

#[export] Hint Resolve stable_ret stable_fail stable_guard stable_lift stable_charge
  stable_charge_list stable_on_slice stable_repeat : reader.

(** A stable reader that reads [w] to its end reads no proper prefix of [w] to its end. *)
Lemma stable_no_prefix {A} (r : reader A) w a c p ext bud :
  stable r -> reads_back r w a c -> blen w < 2 ^ 64 -> c <= remaining bud ->
  remaining bud <= U64_MAX -> w = p ++ ext -> ext <> [] ->
  forall a' bud', r p bud <> (Ok (a', []), bud').
Proof.
  intros Hs [_ Hw] Hl Hc Hm -> Hne a' bud' Hp.
  apply (Hs _ _ _ _ _ ext) in Hp. specialize (Hw Hl [] bud Hc Hm).
  rewrite app_nil_r in Hw. rewrite Hp in Hw. simpl in Hw. congruence.
Qed.

Lemma consumes_bind {A B} (r : reader A) (k : A -> reader B) :
  consumes r -> (forall a, consumes (k a)) -> consumes (rbind r k).
Proof.
  intros Hr Hk bs b c rest b' H. apply rbind_ok in H as (a & bs1 & b1 & E1 & E2).
  apply Hr in E1 as [u1 ->]. apply Hk in E2 as [u2 ->]. exists (u1 ++ u2). by rewrite app_assoc.
Qed.

Lemma consumes_ret {A} (a : A) : consumes (rret a).
Proof. intros bs b a' rest b' [= -> -> ->]. by exists []. Qed.

Lemma consumes_need n e : consumes (need n e).
Proof. intros bs b a rest b'. unfold need. case_match; [done|]. intros [= <- <- <-]. by exists []. Qed.

Lemma consumes_split n : consumes (split_to n).
Proof.
  intros bs b a rest b' [= <- <- <-]. exists (take (Z.to_nat n) bs). by rewrite take_drop.
Qed.

#[export] Hint Resolve consumes_ret consumes_need consumes_split : reader.
