(* ===== verification/Varint.v ===== *)
(** * LEB128 varints

    crates/logit-proto/src/native/varint.rs: unsigned varints, zigzag-encoded signed ones, and the
    byte and end-of-slice checks every native reader uses. *)

From S2P Require Import Prelude Codec Budget Reader.

(** The [loop] of [write_uvarint]; [fuel] bounds its iterations and [write_uvarint_unfold] shows
    that ten are enough for every [u64]. *)
Fixpoint write_uvarint_loop (fuel : nat) (v : Z) : bytes :=
  match fuel with
  | O => []
  | S fuel =>
      let byte := z2b (Z.land v 0x7f) in
      let v := Z.shiftr v 7 in
      if negb (v =? 0) then z2b (Z.lor (b2z byte) 0x80) :: write_uvarint_loop fuel v
      else [byte]
  end.

Definition write_uvarint (v : Z) : bytes := write_uvarint_loop 10 v.

(** [u64::leading_zeros]. *)
Definition leading_zeros (v : Z) : Z := if v =? 0 then 64 else 63 - Z.log2 v.

(** [div_ceil] on unsigned integers. *)
Definition div_ceil (a b : Z) : Z := (a + b - 1) / b.

Definition uvarint_len (v : Z) : Z := div_ceil (64 - leading_zeros (Z.lor v 1)) 7.

(** The [for i in 0..10] loop with [n] iterations left, at index [i]. *)
Fixpoint read_uvarint_loop (n : nat) (i : Z) (result : Z) : reader Z :=
  match n with
  | O => rfail (Malformed "varint longer than 10 bytes")
  | S n => fun bs b =>
      match bs with
      | [] => (Err (Malformed "truncated varint"), b)
      | byte :: bs =>
          let result := Z.lor result (uwrap 64 (Z.shiftl (Z.land (b2z byte) 0x7f) (i * 7))) in
          if Z.land (b2z byte) 0x80 =? 0 then
            if (i =? 9) && (1 <? b2z byte)
            then (Err (Malformed "varint's 10th byte overflows a u64"), b)
            else (Ok (result, bs), b)
          else read_uvarint_loop n (i + 1) result bs b
      end
  end.

Definition read_uvarint : reader Z := read_uvarint_loop 10 0 0.

Definition zigzag_encode (v : Z) : Z :=
  uwrap 64 (Z.lxor (swrap 64 (Z.shiftl v 1)) (Z.shiftr v 63)).

Definition zigzag_decode (v : Z) : Z :=
  Z.lxor (swrap 64 (Z.shiftr v 1)) (- swrap 64 (Z.land v 1)).

Definition write_ivarint (v : Z) : bytes := write_uvarint (zigzag_encode v).

Definition read_ivarint : reader Z := let! v := read_uvarint in rret (zigzag_decode v).

Definition trailing_bytes (what : string) : CodecError :=
  Malformed (what +:+ " had trailing bytes").

Definition ensure_consumed (bs : bytes) (what : string) : result unit :=
  match bs with
  | [] => Ok tt
  | _ :: _ => Err (trailing_bytes what)
  end.

Definition read_u8 : reader Z := fun bs b =>
  match bs with
  | [] => (Err (Malformed "unexpected end of input reading a byte"), b)
  | x :: bs => (Ok (b2z x, bs), b)
  end.

(** ** Writing *)

Lemma land_7f v : Z.land v 0x7f = v mod 128.
Proof. change 0x7f with (Z.ones 7). apply Z.land_ones. lia. Qed.

Lemma shiftr_7 v : Z.shiftr v 7 = v / 128.
Proof. rewrite Z.shiftr_div_pow2 by lia. done. Qed.

(** The continuation byte of a seven-bit group. *)
Lemma lor_80 g : 0 <= g < 128 -> Z.lor g 0x80 = g + 128.
Proof.
  intros Hg. change (Z.lor g 0x80) with (Z.lor g (Z.shiftl 1 7)).
  rewrite lor_shiftl_add by (change (2 ^ 7) with 128; lia). lia.
Qed.

Lemma write_uvarint_loop_S n v :
  write_uvarint_loop (S n) v =
  if v / 128 =? 0 then [z2b (v mod 128)]
  else z2b (v mod 128 + 128) :: write_uvarint_loop n (v / 128).
Proof.
  cbn [write_uvarint_loop]. rewrite land_7f, shiftr_7.
  pose proof (Z.mod_pos_bound v 128 ltac:(lia)).
  rewrite b2z_z2b_small, lor_80 by lia. by destruct (v / 128 =? 0).
Qed.

(** Enough iterations give the same bytes as more. *)
Lemma write_uvarint_loop_fuel n m v :
  0 <= v < 2 ^ (7 * Z.of_nat n) -> (0 < n <= m)%nat ->
  write_uvarint_loop n v = write_uvarint_loop m v.
Proof.
  revert m v. induction n as [|n IH]; intros m v Hv Hm; [lia|].
  destruct m as [|m]; [lia|]. rewrite !write_uvarint_loop_S.
  destruct (Z.eqb_spec (v / 128) 0) as [|Hne]; [done|]. f_equal.
  assert (0 <= v / 128 < 2 ^ (7 * Z.of_nat n)) as Hd.
  { split; [apply Z.div_pos; lia|]. apply Z.div_lt_upper_bound; [lia|].
    replace (7 * Z.of_nat (S n)) with (7 + 7 * Z.of_nat n) in Hv by lia.
    rewrite Z.pow_add_r in Hv by lia. lia. }
  destruct n as [|n].
  - simpl in Hd. lia.
  - apply IH; [done|lia].
Qed.

(** The code's loop as its own recursion equation: the fuel never runs out on a [u64]. *)
Lemma write_uvarint_unfold v :
  u64 v ->
  write_uvarint v =
  if v / 128 =? 0 then [z2b (v mod 128)]
  else z2b (v mod 128 + 128) :: write_uvarint (v / 128).
Proof.
  intros Hv. unfold write_uvarint at 1. rewrite write_uvarint_loop_S.
  destruct (v / 128 =? 0); [done|]. f_equal.
  apply write_uvarint_loop_fuel; [|lia].
  unfold unsigned in Hv. change (7 * Z.of_nat 9) with 63.
  pose proof (Z.div_pos v 128). split; [lia|]. apply Z.div_lt_upper_bound; lia.
Qed.

Lemma write_uvarint_nonempty v : 1 <= blen (write_uvarint v).
Proof.
  unfold write_uvarint. rewrite write_uvarint_loop_S. case_match; rewrite blen_cons.
  - rewrite blen_nil. lia.
  - pose proof (blen_nonneg (write_uvarint_loop 9 (v / 128))). lia.
Qed.

(** ** Reading back *)

Lemma b2z_cont g : 0 <= g < 128 -> (Z.land (b2z (z2b (g + 128))) 0x80 =? 0) = false.
Proof.
  intros Hg. rewrite b2z_z2b_small by lia. rewrite <- lor_80 by lia.
  apply Z.eqb_neq. intros H. apply (f_equal (fun x => Z.testbit x 7)) in H.
  rewrite Z.land_spec, Z.lor_spec in H. simpl in H.
  rewrite orb_true_r in H. done.
Qed.

Lemma b2z_last g : 0 <= g < 128 -> (Z.land (b2z (z2b g)) 0x80 =? 0) = true.
Proof.
  intros Hg. rewrite b2z_z2b_small by lia. apply Z.eqb_eq.
  apply Z.bits_inj'. intros i Hi. rewrite Z.land_spec, Z.bits_0.
  destruct (decide (i = 7)) as [->|Hne].
  - rewrite <- (Z.mod_small g (2 ^ 7)) by (change (2 ^ 7) with 128; lia).
    rewrite Z.mod_pow2_bits_high by lia. done.
  - change 0x80 with (2 ^ 7). rewrite Z.pow2_bits_false by lia. apply andb_false_r.
Qed.

Lemma cont_low g : 0 <= g < 128 -> Z.land (b2z (z2b (g + 128))) 0x7f = g.
Proof.
  intros Hg. rewrite land_7f, b2z_z2b_small by lia.
  replace (g + 128) with (g + 1 * 128) by lia. rewrite Z.mod_add by lia. apply Z.mod_small. lia.
Qed.

Lemma last_low g : 0 <= g < 128 -> Z.land (b2z (z2b g)) 0x7f = g.
Proof. intros Hg. rewrite land_7f, b2z_z2b_small by lia. apply Z.mod_small. lia. Qed.

(** Adding a seven-bit group at its position. *)
Lemma acc_group acc g i :
  0 <= i -> 0 <= acc < 2 ^ (7 * i) -> 0 <= g -> 2 ^ (7 * i) * g < 2 ^ 64 ->
  Z.lor acc (uwrap 64 (Z.shiftl g (i * 7))) = acc + 2 ^ (7 * i) * g.
Proof.
  intros Hi Hacc Hg Hlt. rewrite (Z.mul_comm i 7).
  rewrite uwrap_small.
  - apply lor_shiftl_add; lia.
  - unfold unsigned. rewrite Z.shiftl_mul_pow2 by lia. nia.
Qed.

Lemma read_uvarint_loop_written n : forall i acc v rest b,
  Z.of_nat n + i = 10 -> 0 <= i <= 9 ->
  0 <= acc < 2 ^ (7 * i) -> 0 <= v -> acc + 2 ^ (7 * i) * v < 2 ^ 64 ->
  read_uvarint_loop n i acc (write_uvarint_loop n v ++ rest) b =
  (Ok (acc + 2 ^ (7 * i) * v, rest), b).
Proof.
  induction n as [|n IH]; intros i acc v rest b Hn Hi Hacc Hv Hlt; [lia|].
  rewrite write_uvarint_loop_S.
  assert (0 < 2 ^ (7 * i)) as Hp by (apply Z.pow_pos_nonneg; lia).
  pose proof (Z.mod_pos_bound v 128 ltac:(lia)) as Hm.
  pose proof (Z.div_mod v 128 ltac:(lia)) as Hdm.
  pose proof (Z.div_pos v 128 Hv ltac:(lia)) as Hd.
  destruct (Z.eqb_spec (v / 128) 0) as [E|E]; cbn [app read_uvarint_loop].
  - rewrite b2z_last, last_low by lia.
    assert (v mod 128 = v) as -> by lia.
    rewrite acc_group by nia.
    destruct (Z.eqb_spec i 9) as [->|]; [|done].
    change (2 ^ (7 * 9)) with (2 ^ 63) in *.
    rewrite b2z_z2b_small by lia. assert (v < 2) by lia.
    destruct (Z.ltb_spec 1 v); [lia|done].
  - rewrite b2z_cont, cont_low by lia. rewrite acc_group by nia.
    assert (2 ^ (7 * (i + 1)) = 128 * 2 ^ (7 * i)) as E2.
    { replace (7 * (i + 1)) with (7 + 7 * i) by lia. rewrite Z.pow_add_r by lia. done. }
    assert (i <> 9).
    { intros ->. change (2 ^ (7 * 9)) with (2 ^ 63) in *. lia. }
    rewrite IH; [f_equal; f_equal; f_equal; nia|lia|lia|nia|lia|nia].
Qed.

Lemma reads_uvarint v : u64 v -> reads_back read_uvarint (write_uvarint v) v 0.
Proof.
  intros [H1 H2]. split; [lia|]. intros _ rest b _ _. unfold read_uvarint, write_uvarint.
  rewrite read_uvarint_loop_written by (simpl; lia). rewrite spend_0. f_equal. f_equal. f_equal. lia.
Qed.

Lemma reads_u8 v : u8 v -> reads_back read_u8 [z2b v] v 0.
Proof.
  intros [H1 H2]. split; [lia|]. intros _ rest b _ _. simpl.
  rewrite b2z_z2b_small by lia. by rewrite spend_0.
Qed.

Lemma reads_u8_byte x : reads_back read_u8 [x] (b2z x) 0.
Proof. rewrite <- (z2b_b2z x) at 1. apply reads_u8. apply b2z_range. Qed.

(** ** The length function *)

Lemma uvarint_len_small v : 0 <= v < 128 -> uvarint_len v = 1.
Proof.
  intros Hv. unfold uvarint_len, leading_zeros, div_ceil.
  assert (1 <= Z.lor v 1 < 128) as Hl.
  { rewrite (Z.lor_comm v 1). destruct (Z.eq_dec v 0) as [->|]; [done|].
    assert (0 <= Z.lor 1 v) by (apply Z.lor_nonneg; lia).
    assert (Z.lor 1 v <> 0) by (rewrite Z.lor_eq_0_iff; lia).
    split; [lia|]. destruct (Z.lt_ge_cases (Z.lor 1 v) 128); [done|].
    pose proof (Z.log2_lor 1 v ltac:(lia) ltac:(lia)) as Hlog.
    assert (Z.log2 v < 7) by (apply Z.log2_lt_pow2; lia).
    assert (7 <= Z.log2 (Z.lor 1 v)) by (apply Z.log2_le_pow2; lia).
    change (Z.log2 1) with 0 in Hlog. lia. }
  destruct (Z.eqb_spec (Z.lor v 1) 0); [lia|].
  assert (0 <= Z.log2 (Z.lor v 1) <= 6).
  { split; [apply Z.log2_nonneg|].
    assert (Z.log2 (Z.lor v 1) < 7) by (apply Z.log2_lt_pow2; lia). lia. }
  symmetry. apply Z.div_unique with (r := Z.log2 (Z.lor v 1)); lia.
Qed.

Lemma log2_lor_1 v : 1 <= v -> Z.log2 (Z.lor v 1) = Z.log2 v.
Proof.
  intros Hv. rewrite Z.log2_lor by lia. change (Z.log2 1) with 0.
  pose proof (Z.log2_nonneg v). lia.
Qed.

Lemma uvarint_len_large v : 128 <= v -> uvarint_len v = 1 + uvarint_len (v / 128).
Proof.
  intros Hv. unfold uvarint_len, leading_zeros, div_ceil.
  assert (1 <= v / 128) as Hd by (apply Z.div_le_lower_bound; lia).
  assert (forall x, 1 <= x -> Z.lor x 1 <> 0) as Hnz by (intros x Hx; rewrite Z.lor_eq_0_iff; lia).
  rewrite !(proj2 (Z.eqb_neq _ 0)) by (apply Hnz; lia).
  rewrite !log2_lor_1 by lia.
  assert (Z.log2 v = Z.log2 (v / 128) + 7) as ->.
  { change 128 with (2 ^ 7). rewrite <- Z.shiftr_div_pow2 by lia.
    rewrite Z.log2_shiftr by lia.
    assert (7 <= Z.log2 v) by (apply Z.log2_le_pow2; lia). lia. }
  set (l := Z.log2 (v / 128)).
  replace (64 - (63 - (l + 7)) + 7 - 1) with ((64 - (63 - l) + 7 - 1) + 1 * 7) by lia.
  rewrite Z.div_add by lia. lia.
Qed.

Lemma uvarint_len_loop n v :
  0 <= v < 2 ^ (7 * Z.of_nat n) -> (0 < n)%nat ->
  uvarint_len v = blen (write_uvarint_loop n v).
Proof.
  revert v. induction n as [|n IH]; intros v Hv Hn; [lia|].
  rewrite write_uvarint_loop_S. pose proof (Z.div_mod v 128 ltac:(lia)) as Hdm.
  pose proof (Z.mod_pos_bound v 128 ltac:(lia)) as Hm.
  pose proof (Z.div_pos v 128 ltac:(lia) ltac:(lia)) as Hd.
  destruct (Z.eqb_spec (v / 128) 0) as [E|E].
  - rewrite uvarint_len_small by lia. done.
  - rewrite uvarint_len_large by lia. rewrite blen_cons. f_equal.
    assert (v / 128 < 2 ^ (7 * Z.of_nat n)).
    { apply Z.div_lt_upper_bound; [lia|].
      replace (7 * Z.of_nat (S n)) with (7 + 7 * Z.of_nat n) in Hv by lia.
      rewrite Z.pow_add_r in Hv by lia. lia. }
    destruct n as [|n]; [simpl in *; lia|]. apply IH; lia.
Qed.

Lemma blen_write_uvarint v : u64 v -> blen (write_uvarint v) = uvarint_len v.
Proof.
  intros [H1 H2]. symmetry. apply uvarint_len_loop; [|lia].
  change (7 * Z.of_nat 10) with 70. lia.
Qed.

(** ** Zigzag *)

Lemma swrap_mod w v : 0 < w -> swrap w v mod 2 ^ w = v mod 2 ^ w.
Proof.
  intros Hw. unfold swrap. assert (0 < 2 ^ w) by (apply Z.pow_pos_nonneg; lia).
  case_match.
  - by rewrite Z.mod_mod by lia.
  - replace (v mod 2 ^ w - 2 ^ w) with (v mod 2 ^ w + (-1) * 2 ^ w) by lia.
    rewrite Z.mod_add by lia. by rewrite Z.mod_mod by lia.
Qed.

Lemma lxor_m1 x : Z.lxor x (-1) = - x - 1.
Proof. rewrite Z.lxor_m1_r. unfold Z.lnot. lia. Qed.

Lemma zigzag_encode_eq v :
  i64 v -> zigzag_encode v = if 0 <=? v then 2 * v else - 2 * v - 1.
Proof.
  intros [Hlo Hhi]. simpl in Hlo, Hhi. unfold zigzag_encode, uwrap.
  rewrite (Z.shiftl_mul_pow2 v 1), (Z.shiftr_div_pow2 v 63) by lia.
  destruct (Z.leb_spec 0 v).
  - rewrite (Z.div_small v) by lia. rewrite Z.lxor_0_r, swrap_mod by lia.
    rewrite Z.mod_small; lia.
  - assert (v / 2 ^ 63 = -1) as ->.
    { symmetry. apply Z.div_unique with (r := v + 2 ^ 63); lia. }
    rewrite lxor_m1.
    replace (- swrap 64 (v * 2 ^ 1) - 1) with (-1 - swrap 64 (v * 2 ^ 1)) by lia.
    rewrite Zminus_mod, swrap_mod by lia. rewrite <- Zminus_mod.
    rewrite Z.mod_small; lia.
Qed.

Lemma zigzag_decode_eq u :
  u64 u -> zigzag_decode u = if u mod 2 =? 0 then u / 2 else - (u / 2) - 1.
Proof.
  intros [Hlo Hhi]. unfold zigzag_decode.
  change 1 with (Z.ones 1) at 2. rewrite Z.land_ones, Z.shiftr_div_pow2 by lia.
  change (2 ^ 1) with 2. pose proof (Z.mod_pos_bound u 2 ltac:(lia)).
  assert (u / 2 < 2 ^ 63) by (apply Z.div_lt_upper_bound; lia).
  pose proof (Z.div_pos u 2 Hlo ltac:(lia)).
  assert (swrap 64 (u / 2) = u / 2) as ->.
  { unfold swrap. rewrite (Z.mod_small (u / 2)) by lia.
    destruct (Z.ltb_spec (u / 2) (2 ^ (64 - 1))); lia. }
  destruct (Z.eqb_spec (u mod 2) 0) as [->|].
  - change (- swrap 64 0) with 0. apply Z.lxor_0_r.
  - assert (u mod 2 = 1) as -> by lia. change (- swrap 64 1) with (-1). apply lxor_m1.
Qed.

Lemma zigzag_encode_u64 v : i64 v -> u64 (zigzag_encode v).
Proof.
  intros H. rewrite zigzag_encode_eq by done. destruct H as [Hlo Hhi]. simpl in Hlo, Hhi.
  unfold unsigned. destruct (Z.leb_spec 0 v); lia.
Qed.

Lemma zigzag_decode_encode v : i64 v -> zigzag_decode (zigzag_encode v) = v.
Proof.
  intros H. rewrite zigzag_decode_eq by by apply zigzag_encode_u64.
  rewrite zigzag_encode_eq by done. destruct (Z.leb_spec 0 v).
  - rewrite Z.mul_comm, Z.mod_mul, Z.div_mul by lia. done.
  - replace (- 2 * v - 1) with (1 + (- v - 1) * 2) by lia.
    rewrite Z.mod_add, Z.div_add by lia. change (1 mod 2 =? 0) with false. change (1 / 2) with 0. cbv iota. lia.
Qed.

Lemma zigzag_encode_decode u : u64 u -> i64 (zigzag_decode u) /\ zigzag_encode (zigzag_decode u) = u.
Proof.
  intros H. rewrite zigzag_decode_eq by done. destruct H as [Hlo Hhi].
  pose proof (Z.div_mod u 2 ltac:(lia)). pose proof (Z.mod_pos_bound u 2 ltac:(lia)).
  assert (u / 2 < 2 ^ 63) by (apply Z.div_lt_upper_bound; lia).
  pose proof (Z.div_pos u 2 Hlo ltac:(lia)).
  destruct (Z.eqb_spec (u mod 2) 0).
  - assert (i64 (u / 2)) by (unfold signed; simpl; lia). split; [done|].
    rewrite zigzag_encode_eq by done. destruct (Z.leb_spec 0 (u / 2)); lia.
  - assert (i64 (- (u / 2) - 1)) by (unfold signed; simpl; lia). split; [done|].
    rewrite zigzag_encode_eq by done. destruct (Z.leb_spec 0 (- (u / 2) - 1)); lia.
Qed.

Lemma reads_ivarint v : i64 v -> reads_back read_ivarint (write_ivarint v) v 0.
Proof.
  intros Hv. unfold read_ivarint, write_ivarint.
  eapply reads_back_bind_r; [apply reads_uvarint, zigzag_encode_u64, Hv|].
  rewrite zigzag_decode_encode by done. apply reads_back_ret.
Qed.

(** ** Reading arbitrary bytes *)

Lemma lor_u64 a b : u64 a -> u64 b -> u64 (Z.lor a b).
Proof.
  intros [Ha1 Ha2] [Hb1 Hb2]. split; [apply Z.lor_nonneg; lia|].
  destruct (Z.eq_dec (Z.lor a b) 0) as [->|Hne]; [lia|].
  assert (0 <= Z.lor a b) by (apply Z.lor_nonneg; lia).
  apply Z.log2_lt_pow2; [lia|]. rewrite Z.log2_lor by lia.
  apply Z.max_lub_lt.
  - destruct (Z.eq_dec a 0) as [->|]; [done|]. apply Z.log2_lt_pow2; lia.
  - destruct (Z.eq_dec b 0) as [->|]; [done|]. apply Z.log2_lt_pow2; lia.
Qed.

(** What the loop returns on any bytes: a [u64], from at least one and at most [n] of them. *)
Lemma read_uvarint_loop_inv n : forall i acc bs b v rest b',
  u64 acc -> read_uvarint_loop n i acc bs b = (Ok (v, rest), b') ->
  u64 v /\ b' = b /\ exists used, bs = used ++ rest /\ (1 <= length used <= n)%nat.
Proof.
  induction n as [|n IH]; intros i acc bs b v rest b' Hacc H; [done|].
  cbn [read_uvarint_loop] in H. destruct bs as [|x bs]; [done|].
  set (acc' := Z.lor _ _) in H.
  assert (u64 acc') as Hacc' by (apply lor_u64; [done|apply uwrap_unsigned; lia]).
  destruct (_ =? 0); [destruct (_ && _); [done|]; injection H as <- <- <-|].
  - split; [done|]. split; [done|]. exists [x]. split; [done|]. simpl. lia.
  - apply IH in H as (Hv & -> & used & -> & Hu); [|done].
    split; [done|]. split; [done|]. exists (x :: used). split; [done|]. simpl. lia.
Qed.

Lemma returns_uvarint : returns read_uvarint u64.
Proof. intros bs b v rest b' H. by apply read_uvarint_loop_inv in H as [? _]. Qed.

Lemma read_uvarint_loop_budget n i acc bs b : snd (read_uvarint_loop n i acc bs b) = b.
Proof.
  revert i acc bs. induction n as [|n IH]; intros i acc bs; [done|].
  cbn [read_uvarint_loop]. destruct bs; [done|]. repeat case_match; [done..|apply IH].
Qed.

Lemma budget_safe_uvarint : budget_safe read_uvarint.
Proof. apply budget_safe_pure. intros. apply read_uvarint_loop_budget. Qed.

Lemma read_uvarint_loop_stable n i acc : stable (read_uvarint_loop n i acc).
Proof.
  revert i acc. induction n as [|n IH]; intros i acc bs b v rest b' ext H; [done|].
  cbn [read_uvarint_loop] in *. destruct bs as [|x bs]; [done|]. cbn [app].
  destruct (_ =? 0); [destruct (_ && _); [done|]; by injection H as <- <- <-|]. by apply IH.
Qed.

Lemma stable_uvarint : stable read_uvarint.
Proof. apply read_uvarint_loop_stable. Qed.

Lemma consumes_uvarint : consumes read_uvarint.
Proof.
  intros bs b v rest b' H. apply read_uvarint_loop_inv in H as (_ & _ & used & -> & _); [eauto|done].
Qed.

Lemma budget_safe_ivarint : budget_safe read_ivarint.
Proof. apply budget_safe_bind'; [apply budget_safe_uvarint|intros ?; apply budget_safe_ret]. Qed.

Lemma stable_ivarint : stable read_ivarint.
Proof. apply stable_bind; [apply stable_uvarint|intros ?; apply stable_ret]. Qed.

Lemma budget_safe_u8 : budget_safe read_u8.
Proof. apply budget_safe_pure. by intros [|x bs] b. Qed.

Lemma stable_u8 : stable read_u8.
Proof. intros [|x bs] b v rest b' ext [= <- <- <-]. done. Qed.

Lemma consumes_u8 : consumes read_u8.
Proof. intros [|x bs] b v rest b' [= <- <- <-]. by exists [x]. Qed.

Lemma returns_u8 : returns read_u8 u8.
Proof. intros [|x bs] b v rest b' [= <- <- <-]. apply b2z_range. Qed.

#[export] Hint Resolve budget_safe_uvarint stable_uvarint consumes_uvarint budget_safe_ivarint
  stable_ivarint budget_safe_u8 stable_u8 consumes_u8 : reader.

(** ** The reference reading of a varint

    [uvarint_value] is the number seven-bit groups spell, least significant first, and [is_uvarint]
    the shape of one varint: every byte but the last has its high bit set. *)

Fixpoint uvarint_value (bs : bytes) : Z :=
  match bs with
  | [] => 0
  | x :: bs => b2z x mod 128 + 128 * uvarint_value bs
  end.

Fixpoint is_uvarint (bs : bytes) : bool :=
  match bs with
  | [] => false
  | [x] => b2z x <? 128
  | x :: bs => (128 <=? b2z x) && is_uvarint bs
  end.

Lemma uvarint_value_nonneg bs : 0 <= uvarint_value bs.
Proof.
  induction bs as [|x bs IH]; simpl; [lia|].
  pose proof (Z.mod_pos_bound (b2z x) 128 ltac:(lia)). lia.
Qed.

Lemma high_bit_byte x : (Z.land (b2z x) 0x80 =? 0) = (b2z x <? 128).
Proof.
  pose proof (b2z_range x). destruct (Z.ltb_spec (b2z x) 128).
  - rewrite <- (z2b_b2z x) at 1. apply b2z_last. lia.
  - replace (b2z x) with (b2z (z2b ((b2z x - 128) + 128))).
    + apply b2z_cont. lia.
    + rewrite b2z_z2b_small by lia. lia.
Qed.

(** One turn of the loop, in arithmetic. *)
Lemma read_uvarint_loop_cons n i acc x bs b :
  Z.of_nat (S n) + i = 10 -> 0 <= i <= 9 -> 0 <= acc < 2 ^ (7 * i) ->
  read_uvarint_loop (S n) i acc (x :: bs) b =
  if b2z x <? 128 then
    if acc + 2 ^ (7 * i) * b2z x <? 2 ^ 64
    then (Ok (acc + 2 ^ (7 * i) * b2z x, bs), b)
    else (Err (Malformed "varint's 10th byte overflows a u64"), b)
  else if i =? 9 then (Err (Malformed "varint longer than 10 bytes"), b)
  else read_uvarint_loop n (i + 1) (acc + 2 ^ (7 * i) * (b2z x mod 128)) bs b.
Proof.
  intros Hn Hi Hacc. cbn [read_uvarint_loop]. rewrite high_bit_byte, land_7f.
  pose proof (b2z_range x) as Hx. pose proof (Z.mod_pos_bound (b2z x) 128 ltac:(lia)) as Hm.
  assert (i < 9 -> 2 ^ (7 * i) * 128 <= 2 ^ 63) as Hsmall.
  { intros. change 128 with (2 ^ 7). rewrite <- Z.pow_add_r by lia. apply Z.pow_le_mono_r; lia. }
  assert (0 < 2 ^ (7 * i)) as Hpos by (apply Z.pow_pos_nonneg; lia).
  destruct (Z.ltb_spec (b2z x) 128).
  - rewrite (Z.mod_small (b2z x)) by lia.
    destruct (Z.eqb_spec i 9) as [->|]; simpl.
    + change (2 ^ (7 * 9)) with (2 ^ 63) in *.
      destruct (Z.ltb_spec 1 (b2z x)), (Z.ltb_spec (acc + 2 ^ 63 * b2z x) (2 ^ 64)); try lia; [done|].
      f_equal. f_equal. f_equal. apply (acc_group acc (b2z x) 9); change (7 * 9) with 63; lia.
    + rewrite acc_group by nia.
      destruct (Z.ltb_spec (acc + 2 ^ (7 * i) * b2z x) (2 ^ 64)); [done|nia].
  - destruct (Z.eqb_spec i 9) as [->|].
    + assert (n = 0%nat) as -> by lia. done.
    + by rewrite acc_group by nia.
Qed.

Lemma pow7_succ i : 0 <= i -> 2 ^ (7 * (i + 1)) = 2 ^ (7 * i) * 128.
Proof. intros. replace (7 * (i + 1)) with (7 * i + 7) by lia. by rewrite Z.pow_add_r by lia. Qed.

Lemma read_uvarint_loop_spec n : forall i acc bs b v rest,
  Z.of_nat n + i = 10 -> 0 <= i <= 10 -> 0 <= acc < 2 ^ (7 * i) ->
  read_uvarint_loop n i acc bs b = (Ok (v, rest), b) <->
  exists used, bs = used ++ rest /\ is_uvarint used = true /\ (length used <= n)%nat /\
    v = acc + 2 ^ (7 * i) * uvarint_value used /\ v < 2 ^ 64.
Proof.
  induction n as [|n IH]; intros i acc bs b v rest Hn Hi Hacc.
  { split; [done|]. intros (used & _ & Hu & Hl & _). destruct used; [done|simpl in Hl; lia]. }
  destruct bs as [|x bs].
  { split; [done|]. intros (used & E & Hu & _). by destruct used. }
  rewrite read_uvarint_loop_cons by lia. pose proof (b2z_range x) as Hx.
  pose proof (Z.mod_pos_bound (b2z x) 128 ltac:(lia)) as Hm.
  assert (0 < 2 ^ (7 * i)) as Hpos by (apply Z.pow_pos_nonneg; lia).
  destruct (Z.ltb_spec (b2z x) 128) as [Hlt|Hge].
  - split.
    + destruct (Z.ltb_spec (acc + 2 ^ (7 * i) * b2z x) (2 ^ 64)); [|done].
      intros [= <- <-]. exists [x]. simpl. rewrite Z.mod_small, (proj2 (Z.ltb_lt _ _)) by lia.
      repeat split; lia.
    + intros (used & E & Hu & Hl & -> & Hv). destruct used as [|y [|z used]]; [done| |].
      * injection E as -> ->. simpl in Hv |- *. rewrite Z.mod_small in * by lia.
        rewrite Z.add_0_r in *. by rewrite (proj2 (Z.ltb_lt _ _)).
      * injection E as -> ->. cbn [is_uvarint] in Hu. apply andb_true_iff in Hu as [Hu _].
        apply Z.leb_le in Hu. lia.
  - destruct (Z.eqb_spec i 9) as [->|Hi9].
    { split; [done|]. intros (used & E & Hu & Hl & _). assert (n = 0%nat) as -> by lia.
      destruct used as [|y [|z used]]; [done| |simpl in Hl; lia].
      injection E as -> ->. simpl in Hu. apply Z.ltb_lt in Hu. lia. }
    rewrite IH; [|lia|lia|rewrite pow7_succ by lia; nia].
    rewrite pow7_succ by lia. split.
    + intros (used & -> & Hu & Hl & -> & Hv). exists (x :: used).
      split; [done|]. split; [destruct used; [done|]; cbn [is_uvarint];
        by rewrite (proj2 (Z.leb_le _ _) Hge)|].
      split; [simpl; lia|]. cbn [uvarint_value]. split; [nia|lia].
    + intros (used & E & Hu & Hl & -> & Hv). destruct used as [|y [|z used]]; [done| |].
      { injection E as -> ->. simpl in Hu. apply Z.ltb_lt in Hu. lia. }
      injection E as -> ->. exists (z :: used). split; [done|].
      cbn [is_uvarint] in Hu. apply andb_true_iff in Hu as [_ Hu]. split; [exact Hu|].
      split; [simpl in *; lia|]. cbn [uvarint_value] in *. split; [nia|lia].
Qed.

Lemma uvarint_len_bounds v : u64 v -> 1 <= uvarint_len v <= 10.
Proof.
  intros Hv. split.
  - rewrite <- blen_write_uvarint by done. apply write_uvarint_nonempty.
  - unfold uvarint_len, div_ceil, leading_zeros.
    assert (Z.log2 (Z.lor v 1) <= 63).
    { assert (Z.lor v 1 < 2 ^ 64) by (apply lor_u64; [done|by compute]).
      destruct (Z.le_gt_cases (Z.lor v 1) 0); [rewrite Z.log2_nonpos by lia; lia|].
      assert (Z.log2 (Z.lor v 1) < 64) by (apply Z.log2_lt_pow2; lia). lia. }
    destruct (Z.lor v 1 =? 0); [done|].
    apply Z.div_le_upper_bound; lia.
Qed.

(** ** Properties *)

(** Every [u64] is read back from its varint, off the front of whatever follows and at no
    charge; the varint has exactly the length [uvarint_len] predicts, between 1 and 10 bytes. *)
Theorem uvarint_round_trip (v : Z) (rest : bytes) (b : DecodeBudget) (Hv : u64 v)
    (Hb : 0 <= remaining b <= U64_MAX) :
  read_uvarint (write_uvarint v ++ rest) b = (Ok (v, rest), b) /\
  blen (write_uvarint v) = uvarint_len v /\ 1 <= uvarint_len v <= 10.
Proof.
  split; [|split; [by apply blen_write_uvarint|by apply uvarint_len_bounds]].
  destruct (reads_uvarint v Hv) as [_ H]. rewrite H; [by rewrite spend_0| |lia|lia].
  rewrite blen_write_uvarint by done. pose proof (uvarint_len_bounds v Hv). lia.
Qed.

Lemma uvarint_round_trip_witness :
  read_uvarint (write_uvarint 300 ++ [z2b 7]) (mkBudget 10 10) = (Ok (300, [z2b 7]), mkBudget 10 10) /\
  blen (write_uvarint 300) = uvarint_len 300 /\ 1 <= uvarint_len 300 <= 10.
Proof. apply (uvarint_round_trip 300 [z2b 7] (mkBudget 10 10)); by compute. Defined.

(** [read_uvarint] accepts exactly a run of at most ten bytes whose last alone has its high bit
    clear and whose seven-bit groups spell a number below [2^64], and returns that number: nothing
    else is accepted, and no accepted number is truncated. *)
Theorem read_uvarint_accepts_exactly (bs : bytes) (b : DecodeBudget) (v : Z) (rest : bytes) :
  read_uvarint bs b = (Ok (v, rest), b) <->
  exists used, bs = used ++ rest /\ is_uvarint used = true /\ (length used <= 10)%nat /\
    v = uvarint_value used /\ v < 2 ^ 64.
Proof.
  unfold read_uvarint. rewrite (read_uvarint_loop_spec 10 0 0 bs b v rest) by (simpl; lia).
  change (2 ^ (7 * 0)) with 1. setoid_rewrite Z.mul_1_l. setoid_rewrite Z.add_0_l. done.
Qed.

(** Zigzag is a bijection between [i64] and [u64], and the signed varint built on it is read
    back exactly. *)
Theorem zigzag_bijection (v u : Z) (rest : bytes) (b : DecodeBudget) (Hv : i64 v) (Hu : u64 u)
    (Hb : 0 <= remaining b <= U64_MAX) :
  u64 (zigzag_encode v) /\ zigzag_decode (zigzag_encode v) = v /\
  i64 (zigzag_decode u) /\ zigzag_encode (zigzag_decode u) = u /\
  read_ivarint (write_ivarint v ++ rest) b = (Ok (v, rest), b).
Proof.
  split; [by apply zigzag_encode_u64|]. split; [by apply zigzag_decode_encode|].
  destruct (zigzag_encode_decode u Hu) as [H1 H2]. split; [done|]. split; [done|].
  destruct (reads_ivarint v Hv) as [_ H]. rewrite H; [by rewrite spend_0| |lia|lia].
  unfold write_ivarint. pose proof (zigzag_encode_u64 v Hv) as Hz.
  rewrite blen_write_uvarint by done. pose proof (uvarint_len_bounds _ Hz). lia.
Qed.

Lemma zigzag_bijection_witness :
  u64 (zigzag_encode (-64)) /\ zigzag_decode (zigzag_encode (-64)) = -64 /\
  i64 (zigzag_decode 301) /\ zigzag_encode (zigzag_decode 301) = 301 /\
  read_ivarint (write_ivarint (-64) ++ []) (mkBudget 1 1) = (Ok (-64, []), mkBudget 1 1).
Proof. apply (zigzag_bijection (-64) 301 [] (mkBudget 1 1)); by compute. Defined.
