(* ===== verification/Utf8.v ===== *)
(** * UTF-8 well-formedness

    [std::str::from_utf8], which the native decoders call on every dictionary entry, [Str] value
    and provenance string: the byte sequences of Unicode's table of well-formed UTF-8 (no overlong
    form, no surrogate, nothing past U+10FFFF). *)

From S2P Require Import Prelude.

Definition in_range (lo hi : Z) (x : byte) : bool := (lo <=? b2z x) && (b2z x <=? hi).

(** A continuation byte, [10xxxxxx]. *)
Definition utf8_cont (x : byte) : bool := in_range 0x80 0xbf x.

(** The range of the second byte after lead byte [x], for the three- and four-byte forms. *)
Definition utf8_second3 (x y : byte) : bool :=
  if b2z x =? 0xe0 then in_range 0xa0 0xbf y
  else if b2z x =? 0xed then in_range 0x80 0x9f y
  else utf8_cont y.

Definition utf8_second4 (x y : byte) : bool :=
  if b2z x =? 0xf0 then in_range 0x90 0xbf y
  else if b2z x =? 0xf4 then in_range 0x80 0x8f y
  else utf8_cont y.

Fixpoint utf8_valid (bs : bytes) : bool :=
  match bs with
  | [] => true
  | x :: r =>
      if b2z x <? 0x80 then utf8_valid r
      else if in_range 0xc2 0xdf x then
        match r with
        | y :: r => utf8_cont y && utf8_valid r
        | _ => false
        end
      else if in_range 0xe0 0xef x then
        match r with
        | y :: z :: r => utf8_second3 x y && utf8_cont z && utf8_valid r
        | _ => false
        end
      else if in_range 0xf0 0xf4 x then
        match r with
        | y :: z :: w :: r => utf8_second4 x y && utf8_cont z && utf8_cont w && utf8_valid r
        | _ => false
        end
      else false
  end.

(** U+FFFD, the replacement character. *)
Definition REPLACEMENT : bytes := [z2b 0xef; z2b 0xbf; z2b 0xbd].

(** [String::from_utf8_lossy]: each maximal prefix of a well-formed sequence that the next byte does
    not continue, and each byte that starts none, becomes one U+FFFD. *)
Fixpoint from_utf8_lossy (bs : bytes) : bytes :=
  match bs with
  | [] => []
  | x :: r =>
      if b2z x <? 0x80 then x :: from_utf8_lossy r
      else if in_range 0xc2 0xdf x then
        match r with
        | y :: r1 =>
            if utf8_cont y then x :: y :: from_utf8_lossy r1 else REPLACEMENT ++ from_utf8_lossy r
        | [] => REPLACEMENT
        end
      else if in_range 0xe0 0xef x then
        match r with
        | y :: r1 =>
            if utf8_second3 x y then
              match r1 with
              | z :: r2 =>
                  if utf8_cont z then x :: y :: z :: from_utf8_lossy r2
                  else REPLACEMENT ++ from_utf8_lossy r1
              | [] => REPLACEMENT
              end
            else REPLACEMENT ++ from_utf8_lossy r
        | [] => REPLACEMENT
        end
      else if in_range 0xf0 0xf4 x then
        match r with
        | y :: r1 =>
            if utf8_second4 x y then
              match r1 with
              | z :: r2 =>
                  if utf8_cont z then
                    match r2 with
                    | w :: r3 =>
                        if utf8_cont w then x :: y :: z :: w :: from_utf8_lossy r3
                        else REPLACEMENT ++ from_utf8_lossy r2
                    | [] => REPLACEMENT
                    end
                  else REPLACEMENT ++ from_utf8_lossy r1
              | [] => REPLACEMENT
              end
            else REPLACEMENT ++ from_utf8_lossy r
        | [] => REPLACEMENT
        end
      else REPLACEMENT ++ from_utf8_lossy r
  end.

(** [str::is_char_boundary]: an end of the text, or a byte that continues no sequence. *)
Definition is_char_boundary (bs : bytes) (i : nat) : bool :=
  (i =? 0)%nat || match bs !! i with Some x => negb (utf8_cont x) | None => (i =? length bs)%nat end.

(** ASCII text, from a string literal. *)
Fixpoint str (s : string) : bytes :=
  match s with
  | EmptyString => []
  | String c s => Ascii.byte_of_ascii c :: str s
  end.

Example utf8_ascii : utf8_valid (str "host.name") = true.
Proof. done. Qed.

(** An overlong encoding of '/', a surrogate and a truncated sequence are refused. *)
Example utf8_refuses :
  map utf8_valid [[z2b 0xc0; z2b 0xaf]; [z2b 0xed; z2b 0xa0; z2b 0x80]; [z2b 0xe2; z2b 0x82]]
  = [false; false; false].
Proof. done. Qed.

(** ** Texts as runs of characters *)

Inductive utf8_char : bytes -> Prop :=
| utf8_char1 x : (b2z x <? 0x80) = true -> utf8_char [x]
| utf8_char2 x y : in_range 0xc2 0xdf x = true -> utf8_cont y = true -> utf8_char [x; y]
| utf8_char3 x y z : in_range 0xe0 0xef x = true -> utf8_second3 x y = true -> utf8_cont z = true ->
    utf8_char [x; y; z]
| utf8_char4 x y z w : in_range 0xf0 0xf4 x = true -> utf8_second4 x y = true -> utf8_cont z = true ->
    utf8_cont w = true -> utf8_char [x; y; z; w].

Inductive utf8_text : bytes -> Prop :=
| utf8_text_nil : utf8_text []
| utf8_text_cons c r : utf8_char c -> utf8_text r -> utf8_text (c ++ r).

(** The lead bytes' ranges exclude each other. *)
Lemma in_range_false lo hi lo' hi' x :
  in_range lo hi x = true -> hi < lo' \/ hi' < lo -> in_range lo' hi' x = false.
Proof.
  unfold in_range. intros [H1 H2]%andb_true_iff Hd. apply andb_false_iff.
  rewrite Z.leb_gt, Z.leb_gt. apply Z.leb_le in H1, H2. lia.
Qed.

Lemma in_range_not_ascii lo hi x : in_range lo hi x = true -> 0x80 <= lo -> (b2z x <? 0x80) = false.
Proof. unfold in_range. intros [H1 H2]%andb_true_iff Hd. apply Z.leb_le in H1. apply Z.ltb_ge. lia. Qed.

Ltac lead_byte H :=
  rewrite ?(in_range_not_ascii _ _ _ H), ?(in_range_false _ _ 0xc2 0xdf _ H),
    ?(in_range_false _ _ 0xe0 0xef _ H), ?H by lia.

Lemma utf8_valid_char c r : utf8_char c -> utf8_valid (c ++ r) = utf8_valid r.
Proof.
  intros [x H|x y H H1|x y z H H1 H2|x y z w H H1 H2 H3]; cbn [app utf8_valid]; [by rewrite H| | |];
    lead_byte H; by rewrite ?H1, ?H2, ?H3.
Qed.

Lemma from_utf8_lossy_char c r : utf8_char c -> from_utf8_lossy (c ++ r) = c ++ from_utf8_lossy r.
Proof.
  intros [x H|x y H H1|x y z H H1 H2|x y z w H H1 H2 H3]; cbn [app from_utf8_lossy]; [by rewrite H| | |];
    lead_byte H; by rewrite ?H1, ?H2, ?H3.
Qed.

Lemma utf8_text_valid bs : utf8_text bs -> utf8_valid bs = true.
Proof. induction 1 as [|c r Hc _ IH]; [done|]. by rewrite utf8_valid_char. Qed.

Lemma utf8_text_char c r bs : utf8_char c -> bs = c ++ r -> utf8_text r -> utf8_text bs.
Proof. intros Hc -> Hr. by constructor. Qed.

#[local] Hint Constructors utf8_char : core.

Lemma utf8_valid_text bs : utf8_valid bs = true -> utf8_text bs.
Proof.
  remember (length bs) as n eqn:Hn. revert bs Hn. induction n as [n IH] using lt_wf_ind.
  intros [|x r] -> Hv; [constructor|]. revert Hv. cbn [utf8_valid].
  destruct (b2z x <? 0x80) eqn:E1.
  { intros Hv. eapply (utf8_text_char [x]); [by auto|done|]. by apply (IH (length r)); simpl; [lia|..]. }
  destruct (in_range 0xc2 0xdf x) eqn:E2.
  { destruct r as [|y r]; [done|]. intros [H1 Hv]%andb_true_iff.
    eapply (utf8_text_char [x; y]); [by auto|done|]. by apply (IH (length r)); simpl; [lia|..]. }
  destruct (in_range 0xe0 0xef x) eqn:E3.
  { destruct r as [|y [|z r]]; [done..|]. intros [[H1 H2]%andb_true_iff Hv]%andb_true_iff.
    eapply (utf8_text_char [x; y; z]); [by auto|done|]. by apply (IH (length r)); simpl; [lia|..]. }
  destruct (in_range 0xf0 0xf4 x) eqn:E4; [|done].
  destruct r as [|y [|z [|w r]]]; [done..|].
  intros [[[H1 H2]%andb_true_iff H3]%andb_true_iff Hv]%andb_true_iff.
  eapply (utf8_text_char [x; y; z; w]); [by auto|done|]. by apply (IH (length r)); simpl; [lia|..].
Qed.

(** A well-formed text is left as it is. *)
Lemma from_utf8_lossy_id bs : utf8_valid bs = true -> from_utf8_lossy bs = bs.
Proof.
  intros H%utf8_valid_text. induction H as [|c r Hc _ IH]; [done|]. by rewrite from_utf8_lossy_char, IH.
Qed.

Lemma utf8_text_replacement r : utf8_text r -> utf8_text (REPLACEMENT ++ r).
Proof. apply utf8_text_cons. by apply utf8_char3. Qed.

(** Whatever the bytes, the conversion is a well-formed text. *)
Lemma from_utf8_lossy_text bs : utf8_text (from_utf8_lossy bs).
Proof.
  assert (utf8_text REPLACEMENT) as HR.
  { rewrite <- (app_nil_r REPLACEMENT). apply utf8_text_replacement. constructor. }
  remember (length bs) as n eqn:Hn. revert bs Hn. induction n as [n IH] using lt_wf_ind.
  assert (forall r, (length r < n)%nat -> utf8_text (from_utf8_lossy r)) as IH' by eauto. clear IH.
  intros [|x r] ->; [constructor|]. cbn [from_utf8_lossy].
  repeat match goal with
  | |- context [if ?b then _ else _] => destruct b eqn:?
  | |- context [match ?r with [] => _ | _ :: _ => _ end] => is_var r; destruct r
  end; try done; try (apply utf8_text_replacement, IH'; simpl; lia).
  all: match goal with
  | |- utf8_text (?x :: ?a :: ?b :: ?c :: _) => eapply (utf8_text_char [x; a; b; c]); [by eauto|done|]
  | |- utf8_text (?x :: ?a :: ?b :: _) => eapply (utf8_text_char [x; a; b]); [by eauto|done|]
  | |- utf8_text (?x :: ?a :: _) => eapply (utf8_text_char [x; a]); [by eauto|done|]
  | |- utf8_text (?x :: _) => eapply (utf8_text_char [x]); [by eauto|done|]
  end; apply IH'; simpl; lia.
Qed.

(** Past its first byte a character holds continuation bytes only. *)
Lemma utf8_char_cont c i x : utf8_char c -> (0 < i)%nat -> c !! i = Some x -> utf8_cont x = true.
Proof.
  intros Hc Hi. destruct Hc as [x1 H|x1 y H H1|x1 y z H H1 H2|x1 y z w H H1 H2 H3];
    destruct i as [|[|[|[|i]]]]; try lia; intros [= <-]; try done.
  - revert H1. unfold utf8_second3, utf8_cont, in_range.
    repeat case_match; rewrite !andb_true_iff, !Z.leb_le; lia.
  - revert H1. unfold utf8_second4, utf8_cont, in_range.
    repeat case_match; rewrite !andb_true_iff, !Z.leb_le; lia.
Qed.

(** A text cut at a boundary is a text. *)
Lemma utf8_valid_take bs n : utf8_valid bs = true -> is_char_boundary bs n = true -> utf8_valid (take n bs) = true.
Proof.
  intros H%utf8_valid_text. revert n. induction H as [|c r Hc Hr IH]; intros n Hb; [by rewrite take_nil|].
  apply utf8_text_valid. destruct (Nat.le_gt_cases (length c) n) as [Hge|Hlt].
  - rewrite take_app_ge by done. constructor; [done|]. apply utf8_valid_text, IH. revert Hb.
    unfold is_char_boundary. rewrite lookup_app_r, length_app by done.
    assert (0 < length c)%nat by (destruct Hc; simpl; lia).
    rewrite !orb_true_iff, !Nat.eqb_eq. intros [->|Hb]; [lia|].
    destruct (decide (n = length c)) as [->|]; [left; lia|]. right. case_match; [done|].
    apply Nat.eqb_eq. apply Nat.eqb_eq in Hb. lia.
  - destruct n as [|n]; [rewrite take_0; constructor|]. exfalso. revert Hb. unfold is_char_boundary.
    rewrite lookup_app_l by done. destruct (lookup_lt_is_Some_2 c (S n) Hlt) as [x Hx]. rewrite Hx.
    rewrite (utf8_char_cont c (S n) x) by (done || lia). done.
Qed.
