(* ===== verification/Float.v ===== *)
(** * Binary64 arithmetic

    Rust's [f64] as its 64-bit pattern, with the operations the quantile sketch uses. Every finite
    double is an integer multiple of [2^-1074], so a finite operand is an exact integer
    ([f64_int]), an operation is exact on integers or rationals, and [round_mag] rounds the result
    to the nearest double, ties to even. A [NaN] an operation makes is the quiet one.

    [ln], [ln_1p], [exp] and [powf] come from the platform's mathematical library, whose precision
    Rust leaves open: they are parameters, the class [Libm]. *)

From S2P Require Import Prelude.

Abbreviation f64 := Z.

Definition F64_INF : f64 := 0x7ff0000000000000.
Definition F64_NEG_INF : f64 := 0xfff0000000000000.
Definition F64_NAN : f64 := 0x7ff8000000000000.
Definition F64_MAX : f64 := 0x7fefffffffffffff.
Definition F64_ONE : f64 := 0x3ff0000000000000.
Definition F64_NEG_ZERO : f64 := 0x8000000000000000.

Definition f64_sign (x : f64) : bool := Z.testbit x 63.

(** The bits without the sign: the order of the magnitudes is the order of these integers. *)
Definition f64_mag (x : f64) : Z := Z.land x 0x7fffffffffffffff.

Definition f64_with_sign (neg : bool) (mag : Z) : f64 :=
  if neg then mag + 0x8000000000000000 else mag.

Definition f64_is_nan (x : f64) : bool := 0x7ff0000000000000 <? Z.land x 0x7fffffffffffffff.
Definition f64_is_zero (x : f64) : bool := Z.land x 0x7fffffffffffffff =? 0.
Definition f64_is_inf (x : f64) : bool := f64_mag x =? F64_INF.
Definition f64_is_finite (x : f64) : bool := f64_mag x <? F64_INF.

(** ** Comparison *)

(** [==] on [f64]: [NaN] equals nothing, and the two zeros are equal. *)
Definition f64_eqb (x y : f64) : bool :=
  negb (f64_is_nan x) && negb (f64_is_nan y) &&
  ((x =? y) || (f64_is_zero x && f64_is_zero y)).

(** Where a number that is not [NaN] lies: the zeros in the same place. *)
Definition f64_rank (x : f64) : Z := if f64_sign x then - f64_mag x else f64_mag x.

Definition f64_ltb (x y : f64) : bool :=
  negb (f64_is_nan x) && negb (f64_is_nan y) && (f64_rank x <? f64_rank y).

Definition f64_leb (x y : f64) : bool :=
  negb (f64_is_nan x) && negb (f64_is_nan y) && (f64_rank x <=? f64_rank y).

(** [f64::min] and [f64::max]: a [NaN] operand is ignored. *)
Definition f64_min (x y : f64) : f64 :=
  if f64_is_nan x then y else if f64_is_nan y then x else if f64_ltb y x then y else x.

Definition f64_max (x y : f64) : f64 :=
  if f64_is_nan x then y else if f64_is_nan y then x else if f64_ltb x y then y else x.

(** [f64::clamp] with bounds that are not [NaN]. *)
Definition f64_clamp (x lo hi : f64) : f64 :=
  let x := if f64_ltb x lo then lo else x in
  if f64_ltb hi x then hi else x.

(** ** Exact values and rounding *)

(** The magnitude of a finite double, in units of [2^-1074]. *)
Definition mag_int (m : Z) : Z :=
  let e := Z.shiftr m 52 in
  let frac := Z.land m 0xfffffffffffff in
  if e =? 0 then frac else Z.shiftl (0x10000000000000 + frac) (e - 1).

Definition f64_int (x : f64) : Z :=
  if f64_sign x then - mag_int (f64_mag x) else mag_int (f64_mag x).

Definition F64_UNIT : Z := 2 ^ 1074.

Lemma F64_UNIT_pos : 0 < F64_UNIT.
Proof. by apply Z.pow_pos_nonneg. Qed.

#[global] Opaque F64_UNIT.

(** The quotient [n / d] of non-negative integers rounded to the nearest integer, ties to even. *)
Definition div_nearest (n d : Z) : Z :=
  let q := n / d in
  match 2 * (n mod d) ?= d with
  | Lt => q
  | Gt => q + 1
  | Eq => if Z.even q then q else q + 1
  end.

(** The magnitude nearest to [n / d] units. The significand keeps 53 bits, so [s] bits below them
    are rounded off; the bit pattern counts on across binades, so a carry needs no case of its
    own, and a pattern past the largest finite one is infinity. *)
Definition round_mag (n d : Z) : Z :=
  let s := Z.max 0 (Z.log2 (n / d) - 52) in
  Z.min F64_INF (Z.shiftl s 52 + div_nearest n (Z.shiftl d s)).

(** A signed quotient; [zero_neg] is the sign an exact zero has. *)
Definition f64_round (zero_neg : bool) (n d : Z) : f64 :=
  if n =? 0 then f64_with_sign zero_neg 0
  else f64_with_sign (n <? 0) (round_mag (Z.abs n) d).

(** [as f64] on an integer. *)
Definition f64_of_Z (n : Z) : f64 := f64_round false (n * F64_UNIT) 1.

(** ** Arithmetic *)

Definition f64_neg (x : f64) : f64 := Z.lxor x 0x8000000000000000.
Definition f64_abs (x : f64) : f64 := f64_mag x.

Definition f64_add (x y : f64) : f64 :=
  if f64_is_nan x || f64_is_nan y then F64_NAN
  else if f64_is_inf x then
    if f64_is_inf y && xorb (f64_sign x) (f64_sign y) then F64_NAN else x
  else if f64_is_inf y then y
  else f64_round (f64_sign x && f64_sign y) (f64_int x + f64_int y) 1.

Definition f64_sub (x y : f64) : f64 := f64_add x (f64_neg y).

Definition f64_mul (x y : f64) : f64 :=
  let neg := xorb (f64_sign x) (f64_sign y) in
  if f64_is_nan x || f64_is_nan y then F64_NAN
  else if f64_is_inf x || f64_is_inf y then
    if f64_is_zero x || f64_is_zero y then F64_NAN else f64_with_sign neg F64_INF
  else f64_round neg (f64_int x * f64_int y) F64_UNIT.

Definition f64_div (x y : f64) : f64 :=
  let neg := xorb (f64_sign x) (f64_sign y) in
  if f64_is_nan x || f64_is_nan y then F64_NAN
  else if f64_is_inf x then
    if f64_is_inf y then F64_NAN else f64_with_sign neg F64_INF
  else if f64_is_inf y then f64_with_sign neg 0
  else if f64_is_zero y then
    if f64_is_zero x then F64_NAN else f64_with_sign neg F64_INF
  else f64_round neg (f64_int x * Z.sgn (f64_int y) * F64_UNIT) (Z.abs (f64_int y)).

(** A rounding of the integer part, the sign kept: [pick neg n] is the integer chosen for the
    magnitude [n] units. *)
Definition f64_to_integral (pick : bool -> Z -> Z) (x : f64) : f64 :=
  if f64_is_finite x then
    f64_with_sign (f64_sign x) (round_mag (pick (f64_sign x) (mag_int (f64_mag x)) * F64_UNIT) 1)
  else x.

Definition f64_round_ties_even : f64 -> f64 := f64_to_integral (fun _ n => div_nearest n F64_UNIT).

Definition f64_floor : f64 -> f64 :=
  f64_to_integral (fun neg n => if neg then - (- n / F64_UNIT) else n / F64_UNIT).

(** [f64::round]: ties away from zero. *)
Definition f64_round_half_away : f64 -> f64 :=
  f64_to_integral (fun _ n => (2 * n + F64_UNIT) / (2 * F64_UNIT)).

(** A float-to-integer [as] cast: truncates, saturates at the bounds, and sends [NaN] to 0. *)
Definition f64_as_int (lo hi : Z) (x : f64) : Z :=
  if f64_is_nan x then 0
  else if f64_is_inf x then if f64_sign x then lo else hi
  else Z.max lo (Z.min hi (Z.quot (f64_int x) F64_UNIT)).

Definition f64_as_i32 : f64 -> Z := f64_as_int (- 2 ^ 31) (2 ^ 31 - 1).
Definition f64_as_usize : f64 -> Z := f64_as_int 0 U64_MAX.

(** ** The mathematical library *)

Class Libm := {
  ln : f64 -> f64;
  ln_1p : f64 -> f64;
  exp : f64 -> f64;
  powf : f64 -> f64 -> f64
}.

(** ** Patterns without a sign *)

Lemma f64_mag_range x : 0 <= f64_mag x < 2 ^ 63.
Proof.
  unfold f64_mag. change 0x7fffffffffffffff with (Z.ones 63).
  rewrite Z.land_ones by lia. apply Z.mod_pos_bound. lia.
Qed.

Lemma f64_mag_id x : 0 <= x < 2 ^ 63 -> f64_mag x = x.
Proof.
  intros Hx. unfold f64_mag. change 0x7fffffffffffffff with (Z.ones 63).
  rewrite Z.land_ones by lia. by apply Z.mod_small.
Qed.

Lemma f64_sign_false x : 0 <= x < 2 ^ 63 -> f64_sign x = false.
Proof.
  intros Hx. unfold f64_sign. destruct (Z.eq_dec x 0) as [->|Hne]; [done|].
  apply Z.bits_above_log2; [lia|]. apply Z.log2_lt_pow2; lia.
Qed.

(** A pattern up to infinity's is a number that is not negative, and is its own rank. *)
Lemma f64_plain x :
  0 <= x <= F64_INF ->
  f64_mag x = x /\ f64_sign x = false /\ f64_is_nan x = false /\ f64_rank x = x.
Proof.
  intros Hx. assert (0 <= x < 2 ^ 63) as H63 by (unfold F64_INF in Hx; lia).
  pose proof (f64_mag_id x H63) as Hm. pose proof (f64_sign_false x H63) as Hs.
  split_and!; [done|done| |by unfold f64_rank; rewrite Hs].
  unfold f64_is_nan, f64_mag in *. rewrite Hm. apply Z.ltb_ge. unfold F64_INF in Hx. lia.
Qed.

Lemma f64_is_finite_plain x : 0 <= x < F64_INF -> f64_is_finite x = true.
Proof.
  intros Hx. unfold f64_is_finite. destruct (f64_plain x) as [-> _]; [lia|]. apply Z.ltb_lt. lia.
Qed.

(** A number is not [NaN] by its magnitude. *)
Lemma f64_is_nan_mag x : f64_is_nan x = (F64_INF <? f64_mag x).
Proof. done. Qed.

Lemma f64_finite_not_nan x : f64_is_finite x = true -> f64_is_nan x = false.
Proof. unfold f64_is_finite. rewrite f64_is_nan_mag, Z.ltb_lt. intros H. apply Z.ltb_ge. lia. Qed.

Lemma f64_ltb_rank x y :
  f64_is_nan x = false -> f64_is_nan y = false -> f64_ltb x y = (f64_rank x <? f64_rank y).
Proof. intros Hx Hy. unfold f64_ltb. by rewrite Hx, Hy. Qed.

Lemma f64_leb_rank x y :
  f64_is_nan x = false -> f64_is_nan y = false -> f64_leb x y = (f64_rank x <=? f64_rank y).
Proof. intros Hx Hy. unfold f64_leb. by rewrite Hx, Hy. Qed.

Lemma f64_ltb_plain x y :
  0 <= x <= F64_INF -> 0 <= y <= F64_INF -> f64_ltb x y = (x <? y).
Proof.
  intros Hx Hy. destruct (f64_plain x Hx) as (_ & _ & Hnx & Hrx), (f64_plain y Hy) as (_ & _ & Hny & Hry).
  by rewrite f64_ltb_rank, Hrx, Hry.
Qed.

Lemma f64_min_plain x y :
  0 <= x <= F64_INF -> 0 <= y <= F64_INF -> f64_min x y = Z.min x y.
Proof.
  intros Hx Hy. unfold f64_min. rewrite f64_ltb_plain by done.
  destruct (f64_plain x Hx) as (_ & _ & -> & _), (f64_plain y Hy) as (_ & _ & -> & _).
  destruct (Z.ltb_spec y x); lia.
Qed.

(** ** Rounding *)

Lemma div_nearest_ge n d : 0 < d -> n / d <= div_nearest n d.
Proof. intros Hd. unfold div_nearest. repeat case_match; lia. Qed.

Lemma round_mag_bounds n d : 0 <= n -> 0 < d -> 0 <= round_mag n d <= F64_INF.
Proof.
  intros Hn Hd. unfold round_mag. set (s := Z.max 0 _).
  assert (0 <= s) by lia.
  assert (0 < Z.shiftl d s) as Hu by (rewrite Z.shiftl_mul_pow2 by lia; nia).
  pose proof (div_nearest_ge n _ Hu). pose proof (Z.div_pos n _ Hn Hu).
  assert (0 <= Z.shiftl s 52) by (apply Z.shiftl_nonneg; lia).
  split; [|lia]. apply Z.min_glb; [unfold F64_INF|]; lia.
Qed.

(** A positive number of units never rounds to zero. *)
Lemma round_mag_pos n : 0 < n -> 0 < round_mag n 1.
Proof.
  intros Hn. unfold round_mag. rewrite Z.div_1_r. set (s := Z.max 0 _).
  assert (0 <= Z.shiftl s 52) by (apply Z.shiftl_nonneg; lia).
  assert (0 < n / Z.shiftl 1 s) as Hq.
  { rewrite Z.shiftl_1_l. apply Z.div_str_pos. split; [apply Z.pow_pos_nonneg; lia|].
    transitivity (2 ^ Z.log2 n); [|by apply Z.log2_spec].
    apply Z.pow_le_mono_r; [lia|]. pose proof (Z.log2_nonneg n). lia. }
  assert (0 < Z.shiftl 1 s) as Hu by (rewrite Z.shiftl_1_l; apply Z.pow_pos_nonneg; lia).
  pose proof (div_nearest_ge n _ Hu).
  apply Z.min_glb_lt; [unfold F64_INF|]; lia.
Qed.

Lemma mag_int_nonneg m : 0 <= m -> 0 <= mag_int m.
Proof.
  intros Hm. unfold mag_int. case_match; [apply Z.land_nonneg; lia|].
  apply Z.shiftl_nonneg. pose proof (proj2 (Z.land_nonneg m 0xfffffffffffff) ltac:(lia)). lia.
Qed.

Lemma mag_int_pos m : 0 < m -> 0 < mag_int m.
Proof.
  intros Hm. unfold mag_int. pose proof (proj2 (Z.land_nonneg m 0xfffffffffffff) ltac:(lia)).
  destruct (Z.eqb_spec (Z.shiftr m 52) 0) as [He|He].
  - change 0xfffffffffffff with (Z.ones 52) in *. rewrite Z.land_ones by lia.
    rewrite Z.shiftr_div_pow2 in He by lia.
    pose proof (Z.div_mod m (2 ^ 52) ltac:(lia)). lia.
  - pose proof (proj2 (Z.shiftr_nonneg m 52) ltac:(lia)).
    rewrite Z.shiftl_mul_pow2 by lia. pose proof (Z.pow_pos_nonneg 2 (Z.shiftr m 52 - 1)). nia.
Qed.

(** ** Sums of weights *)

Lemma f64_int_plain x : 0 <= x < F64_INF -> f64_int x = mag_int x.
Proof. intros Hx. unfold f64_int. by destruct (f64_plain x) as (-> & -> & _); [lia|]. Qed.

(** The sum of two finite numbers without a sign. *)
Lemma f64_add_plain x y :
  0 <= x < F64_INF -> 0 <= y < F64_INF -> f64_add x y = f64_round false (mag_int x + mag_int y) 1.
Proof.
  intros Hx Hy. unfold f64_add, f64_is_inf. rewrite !f64_int_plain by done.
  destruct (f64_plain x ltac:(lia)) as (-> & -> & -> & _), (f64_plain y ltac:(lia)) as (-> & -> & -> & _).
  cbn [orb andb negb xorb].
  by rewrite !(proj2 (Z.eqb_neq _ _)) by lia.
Qed.

Lemma f64_add_plain_bounds x y :
  0 <= x < F64_INF -> 0 <= y < F64_INF ->
  0 <= f64_add x y <= F64_INF /\ (0 < x \/ 0 < y -> 0 < f64_add x y).
Proof.
  intros Hx Hy. rewrite f64_add_plain by done.
  pose proof (mag_int_nonneg x) as Hx0. pose proof (mag_int_nonneg y) as Hy0.
  unfold f64_round. rewrite Z.abs_eq by lia. rewrite (proj2 (Z.ltb_ge _ 0)) by lia. unfold f64_with_sign.
  destruct (Z.eqb_spec (mag_int x + mag_int y) 0) as [H0|H0].
  - split; [unfold F64_INF; lia|]. intros [H|H]; apply mag_int_pos in H; lia.
  - split; [apply round_mag_bounds; lia|]. intros _. apply round_mag_pos. lia.
Qed.

Lemma f64_add_plain_comm x y :
  0 <= x < F64_INF -> 0 <= y < F64_INF -> f64_add x y = f64_add y x.
Proof. intros Hx Hy. rewrite !f64_add_plain by done. by rewrite Z.add_comm. Qed.

(** ** Any pattern of 64 bits *)

Lemma f64_sign_low x : u64 x -> f64_sign x = false -> f64_mag x = x.
Proof.
  intros Hx Hs. apply f64_mag_id. unfold unsigned in Hx. split; [lia|].
  unfold f64_sign in Hs. rewrite Z.testbit_odd, Z.shiftr_div_pow2 in Hs by lia.
  pose proof (Z.div_mod x (2 ^ 63) ltac:(lia)). pose proof (Z.mod_pos_bound x (2 ^ 63) ltac:(lia)).
  assert (x / 2 ^ 63 = 0 \/ x / 2 ^ 63 = 1) as [H2|H2] by (destruct Hx; lia).
  - lia.
  - by rewrite H2 in Hs.
Qed.

(** A finite number above zero, by its pattern. *)
Lemma f64_positive_bits x :
  u64 x -> f64_is_finite x = true -> f64_ltb 0 x = true -> 0 < x < F64_INF.
Proof.
  intros Hx Hf Hp. pose proof (f64_finite_not_nan x Hf) as Hn.
  rewrite f64_ltb_rank in Hp by done. change (f64_rank 0) with 0 in Hp.
  apply Z.ltb_lt in Hp. unfold f64_is_finite in Hf. apply Z.ltb_lt in Hf.
  unfold f64_rank in Hp. pose proof (f64_mag_range x).
  destruct (f64_sign x) eqn:Hs; [lia|]. rewrite (f64_sign_low x Hx Hs) in *. lia.
Qed.

Lemma f64_positive_plain x : 0 < x < F64_INF -> f64_ltb 0 x = true.
Proof. intros Hx. rewrite f64_ltb_plain; [apply Z.ltb_lt; lia|unfold F64_INF; lia|lia]. Qed.

Lemma f64_with_sign_u64 neg m : 0 <= m <= F64_INF -> u64 (f64_with_sign neg m).
Proof. unfold unsigned, f64_with_sign, F64_INF. destruct neg; lia. Qed.

Lemma f64_round_u64 z n d : 0 < d -> u64 (f64_round z n d).
Proof.
  intros Hd. unfold f64_round. case_match; apply f64_with_sign_u64.
  - unfold F64_INF. lia.
  - apply round_mag_bounds; lia.
Qed.

Lemma f64_nan_u64 : u64 F64_NAN.
Proof. by compute. Qed.

Lemma f64_add_u64 x y : u64 x -> u64 y -> u64 (f64_add x y).
Proof.
  intros Hx Hy. unfold f64_add. repeat case_match; eauto using f64_nan_u64.
  apply f64_round_u64. lia.
Qed.

Lemma f64_mul_u64 x y : u64 (f64_mul x y).
Proof.
  unfold f64_mul. repeat case_match; eauto using f64_nan_u64.
  - apply f64_with_sign_u64. unfold F64_INF. lia.
  - apply f64_round_u64, F64_UNIT_pos.
Qed.

Lemma f64_int_nonzero x : f64_is_zero x = false -> f64_int x <> 0.
Proof.
  intros Hz. unfold f64_is_zero in Hz. fold (f64_mag x) in Hz. apply Z.eqb_neq in Hz.
  pose proof (f64_mag_range x). pose proof (mag_int_pos (f64_mag x)). unfold f64_int. case_match; lia.
Qed.

Lemma f64_div_u64 x y : u64 (f64_div x y).
Proof.
  assert (forall m, 0 <= m <= F64_INF -> forall neg, u64 (f64_with_sign neg m)) as Hs
    by (intros; by apply f64_with_sign_u64).
  unfold f64_div. repeat case_match; eauto using f64_nan_u64; try (apply Hs; unfold F64_INF; lia).
  apply f64_round_u64, Z.abs_pos, f64_int_nonzero. done.
Qed.

Lemma f64_to_integral_u64 pick x :
  (forall neg n, 0 <= n -> 0 <= pick neg n) -> u64 x -> u64 (f64_to_integral pick x).
Proof.
  intros Hp Hx. unfold f64_to_integral. case_match; [|done].
  apply f64_with_sign_u64, round_mag_bounds; [|lia]. apply Z.mul_nonneg_nonneg; [|pose proof F64_UNIT_pos; lia].
  apply Hp, mag_int_nonneg, f64_mag_range.
Qed.

Lemma f64_neg_u64 x : u64 x -> u64 (f64_neg x).
Proof.
  unfold unsigned, f64_neg. intros Hx. split; [apply Z.lxor_nonneg; lia|].
  destruct (Z.eq_dec (Z.lxor x 0x8000000000000000) 0) as [->|Hne]; [lia|].
  assert (0 <= Z.lxor x 0x8000000000000000) by (apply Z.lxor_nonneg; lia).
  apply Z.log2_lt_pow2; [lia|]. eapply Z.le_lt_trans; [apply Z.log2_lxor; lia|].
  apply Z.max_lub_lt; [|by compute]. destruct (Z.eq_dec x 0) as [->|]; [by compute|].
  apply Z.log2_lt_pow2; lia.
Qed.

Lemma f64_min_u64 x y : u64 x -> u64 y -> u64 (f64_min x y).
Proof. intros Hx Hy. unfold f64_min. by repeat case_match. Qed.

Lemma f64_max_u64 x y : u64 x -> u64 y -> u64 (f64_max x y).
Proof. intros Hx Hy. unfold f64_max. by repeat case_match. Qed.

(** A value that is not below zero, [NaN] included. *)
Definition unsigned_or_nan (x : f64) : Prop := f64_is_nan x = true \/ 0 <= x <= F64_INF.

(** What the sketch relies on: a result is a double; an exponential, or a power of a positive base,
    is not negative; the logarithm of a positive number is finite and that of zero not [NaN]; and
    the two logarithms behind the Agent's key bias are within an ulp of the correctly rounded ones,
    [ln_1p(1/64)] and [ln(1e-9)]. *)
Class LibmOk (M : Libm) : Prop := {
  exp_unsigned : forall x, unsigned_or_nan (exp x);
  powf_unsigned : forall b x, 0 < b < F64_INF -> unsigned_or_nan (powf b x);
  exp_u64 : forall x, u64 (exp x);
  powf_u64 : forall b x, u64 (powf b x);
  ln_u64 : forall x, u64 (ln x);
  ln_zero : f64_is_nan (ln 0) = false;
  ln_finite : forall x, 0 < x < F64_INF -> f64_is_finite (ln x) = true;
  ln_1p_64th : 0x3f8fc0a8b0fc03e3 <= ln_1p 0x3f90000000000000 <= 0x3f8fc0a8b0fc03e5;
  ln_1e_9 : 0xc034b927f32bffb7 <= ln 0x3e112e0be826d695 <= 0xc034b927f32bffb9
}.

(** ** Numbers that are not [NaN] *)

Lemma f64_mag_with_sign neg m : 0 <= m <= F64_INF -> f64_mag (f64_with_sign neg m) = m.
Proof.
  unfold F64_INF. intros Hm. unfold f64_with_sign. destruct neg; [|apply f64_mag_id; lia].
  unfold f64_mag. change 0x7fffffffffffffff with (Z.ones 63). rewrite Z.land_ones by lia.
  replace (m + 0x8000000000000000) with (m + 1 * 2 ^ 63) by lia. rewrite Z.mod_add by lia.
  apply Z.mod_small. lia.
Qed.

Lemma f64_with_sign_number neg m : 0 <= m <= F64_INF -> f64_is_nan (f64_with_sign neg m) = false.
Proof. intros Hm. rewrite f64_is_nan_mag, f64_mag_with_sign by done. apply Z.ltb_ge. lia. Qed.

Lemma f64_round_number z n d : 0 < d -> f64_is_nan (f64_round z n d) = false.
Proof.
  intros Hd. unfold f64_round. case_match; apply f64_with_sign_number.
  - unfold F64_INF. lia.
  - apply round_mag_bounds; lia.
Qed.

Lemma f64_inf_plain : 0 <= F64_INF <= F64_INF.
Proof. unfold F64_INF. lia. Qed.

Lemma f64_zero_plain : 0 <= 0 <= F64_INF.
Proof. unfold F64_INF. lia. Qed.

Lemma f64_div_number x y :
  f64_is_nan x = false -> 0 < y < F64_INF -> f64_is_nan (f64_div x y) = false.
Proof.
  intros Hx Hy. unfold f64_div, f64_is_inf.
  destruct (f64_plain y ltac:(lia)) as (Hm & _ & -> & _).
  assert (f64_is_zero y = false) as -> by (unfold f64_is_zero, f64_mag in *; rewrite Hm; apply Z.eqb_neq; lia).
  rewrite Hx, (f64_int_plain y), Hm, (proj2 (Z.eqb_neq y F64_INF)) by lia. cbn [orb andb negb xorb].
  pose proof (mag_int_pos y). case_match; [apply f64_with_sign_number, f64_inf_plain|].
  apply f64_round_number. lia.
Qed.

Lemma f64_to_integral_number pick x :
  (forall neg n, 0 <= n -> 0 <= pick neg n) -> f64_is_nan x = false ->
  f64_is_nan (f64_to_integral pick x) = false.
Proof.
  intros Hp Hx. unfold f64_to_integral. case_match; [|done].
  apply f64_with_sign_number, round_mag_bounds; [|lia]. apply Z.mul_nonneg_nonneg; [|pose proof F64_UNIT_pos; lia].
  apply Hp, mag_int_nonneg, f64_mag_range.
Qed.

Lemma div_nearest_nonneg n d : 0 <= n -> 0 < d -> 0 <= div_nearest n d.
Proof. intros Hn Hd. pose proof (div_nearest_ge n d Hd). pose proof (Z.div_pos n d Hn Hd). lia. Qed.

Lemma f64_round_ties_even_number x : f64_is_nan x = false -> f64_is_nan (f64_round_ties_even x) = false.
Proof. apply f64_to_integral_number. intros _ n Hn. by apply div_nearest_nonneg, F64_UNIT_pos. Qed.

Lemma f64_round_ties_even_u64 x : u64 x -> u64 (f64_round_ties_even x).
Proof. apply f64_to_integral_u64. intros _ n Hn. by apply div_nearest_nonneg, F64_UNIT_pos. Qed.

(** Only opposite infinities add up to [NaN]. *)
Lemma f64_add_number x y :
  f64_is_nan x = false -> f64_is_finite y = true -> f64_is_nan (f64_add x y) = false.
Proof.
  intros Hx Hy. unfold f64_add. rewrite Hx, (f64_finite_not_nan y Hy). cbn [orb andb negb xorb].
  assert (f64_is_inf y = false) as ->.
  { unfold f64_is_finite, f64_is_inf in *. apply Z.ltb_lt in Hy. apply Z.eqb_neq. lia. }
  cbn [orb andb negb xorb]. case_match; [done|]. by apply f64_round_number.
Qed.

Lemma f64_mul_number x y :
  f64_is_finite x = true -> f64_is_finite y = true -> f64_is_nan (f64_mul x y) = false.
Proof.
  intros Hx Hy. unfold f64_mul. rewrite (f64_finite_not_nan x Hx), (f64_finite_not_nan y Hy). cbn [orb andb negb xorb].
  unfold f64_is_finite, f64_is_inf in *. apply Z.ltb_lt in Hx, Hy.
  rewrite !(proj2 (Z.eqb_neq _ F64_INF)) by lia. cbn [orb andb negb xorb]. apply f64_round_number, F64_UNIT_pos.
Qed.

Lemma f64_mag_neg x : f64_mag (f64_neg x) = f64_mag x.
Proof.
  unfold f64_mag, f64_neg. change 0x8000000000000000 with (2 ^ 63). change 0x7fffffffffffffff with (Z.ones 63).
  apply Z.bits_inj'. intros n Hn.
  rewrite !Z.land_spec, Z.lxor_spec, Z.testbit_ones_nonneg, Z.pow2_bits_eqb by lia.
  destruct (Z.ltb_spec n 63); [|by rewrite !andb_false_r].
  rewrite (proj2 (Z.eqb_neq 63 n)) by lia. by rewrite xorb_false_r.
Qed.

Lemma f64_is_finite_neg x : f64_is_finite (f64_neg x) = f64_is_finite x.
Proof. unfold f64_is_finite. by rewrite f64_mag_neg. Qed.

(** ** Ranks *)

Lemma f64_finite_rank x :
  f64_is_finite x = true <-> f64_is_nan x = false /\ - F64_INF < f64_rank x < F64_INF.
Proof.
  rewrite f64_is_nan_mag. unfold f64_is_finite, f64_rank. rewrite Z.ltb_lt, Z.ltb_ge.
  pose proof (f64_mag_range x). destruct (f64_sign x); lia.
Qed.

(** Clamping to bounds that are numbers, whatever is clamped. *)
Lemma f64_max_min_between x lo hi :
  f64_is_nan lo = false -> f64_is_nan hi = false -> f64_leb lo hi = true ->
  let y := f64_min (f64_max x lo) hi in
  f64_is_nan y = false /\ f64_rank lo <= f64_rank y <= f64_rank hi.
Proof.
  intros Hlo Hhi Hle. rewrite f64_leb_rank in Hle by done. apply Z.leb_le in Hle. cbv zeta.
  assert (f64_is_nan (f64_max x lo) = false /\ f64_rank lo <= f64_rank (f64_max x lo)) as [Hm Hr].
  { unfold f64_max. destruct (f64_is_nan x) eqn:Hx; [split; [done|lia]|]. rewrite Hlo.
    rewrite f64_ltb_rank by done. destruct (Z.ltb_spec (f64_rank x) (f64_rank lo)); split; done || lia. }
  unfold f64_min. rewrite Hm, Hhi, f64_ltb_rank by done.
  destruct (Z.ltb_spec (f64_rank hi) (f64_rank (f64_max x lo))); split; done || lia.
Qed.

(** ** Integer casts *)

Lemma f64_as_int_range lo hi x : lo <= 0 <= hi -> lo <= f64_as_int lo hi x <= hi.
Proof. intros H. unfold f64_as_int. repeat case_match; lia. Qed.

Lemma mag_int_bounds m :
  0 <= m ->
  let e := Z.max 1 (m / 2 ^ 52) in
  mag_int m < 2 ^ (52 + e) /\ (m / 2 ^ 52 <> 0 -> 2 ^ (51 + e) <= mag_int m).
Proof.
  intros Hm. cbv zeta. unfold mag_int. change 0xfffffffffffff with (Z.ones 52).
  rewrite Z.land_ones, Z.shiftr_div_pow2 by lia.
  pose proof (Z.mod_pos_bound m (2 ^ 52) ltac:(lia)) as Hf. pose proof (Z.div_pos m (2 ^ 52) Hm ltac:(lia)).
  destruct (Z.eqb_spec (m / 2 ^ 52) 0) as [He|He].
  - rewrite He. split; [|done]. change (2 ^ (52 + Z.max 1 0)) with (2 ^ 53). lia.
  - rewrite Z.max_r by lia. set (e := m / 2 ^ 52) in *.
    rewrite Z.shiftl_mul_pow2 by lia.
    replace (52 + e) with (53 + (e - 1)) by lia. replace (51 + e) with (52 + (e - 1)) by lia.
    rewrite !Z.pow_add_r by lia. pose proof (Z.pow_pos_nonneg 2 (e - 1)). split; [nia|intros _; nia].
Qed.

(** The order of the patterns is the order of the values. *)
Lemma mag_int_mono a b : 0 <= a <= b -> mag_int a <= mag_int b.
Proof.
  intros Hab. pose proof (Z.div_le_mono a b (2 ^ 52) ltac:(lia) ltac:(lia)) as He.
  destruct (Z.eq_dec (a / 2 ^ 52) (b / 2 ^ 52)) as [Heq|Hne].
  - unfold mag_int. change 0xfffffffffffff with (Z.ones 52).
    rewrite !Z.land_ones, !Z.shiftr_div_pow2, Heq by lia.
    pose proof (Z.div_mod a (2 ^ 52) ltac:(lia)). pose proof (Z.div_mod b (2 ^ 52) ltac:(lia)).
    pose proof (Z.div_pos b (2 ^ 52) ltac:(lia) ltac:(lia)).
    destruct (Z.eqb_spec (b / 2 ^ 52) 0); [lia|]. rewrite !Z.shiftl_mul_pow2 by lia.
    apply Z.mul_le_mono_nonneg_r; [apply Z.pow_nonneg; lia|lia].
  - destruct (mag_int_bounds a ltac:(lia)) as [Ha _]. destruct (mag_int_bounds b ltac:(lia)) as [_ Hb].
    pose proof (Z.div_pos a (2 ^ 52) ltac:(lia) ltac:(lia)). specialize (Hb ltac:(lia)).
    pose proof (Z.pow_le_mono_r 2 (52 + Z.max 1 (a / 2 ^ 52)) (51 + Z.max 1 (b / 2 ^ 52)) ltac:(lia)).
    destruct (Z.eq_dec (a / 2 ^ 52) 0) as [Hea|]; [|lia].
    destruct (Z.eq_dec (b / 2 ^ 52) 1) as [Heb|]; [|lia].
    unfold mag_int at 1. change 0xfffffffffffff with (Z.ones 52).
    rewrite Z.land_ones, Z.shiftr_div_pow2, Hea by lia. rewrite Z.eqb_refl.
    pose proof (Z.mod_pos_bound a (2 ^ 52) ltac:(lia)). rewrite Heb in Hb. change (2 ^ (51 + Z.max 1 1)) with (2 ^ 52) in Hb. lia.
Qed.

(** The cast of a number between two plain ones. *)
Lemma f64_as_int_between lo hi x a b :
  0 <= a < F64_INF -> 0 <= b < F64_INF -> lo <= 0 -> mag_int b / F64_UNIT <= hi ->
  u64 x -> f64_is_nan x = false -> 0 < f64_rank x -> f64_rank a <= f64_rank x <= f64_rank b ->
  mag_int a / F64_UNIT <= f64_as_int lo hi x <= mag_int b / F64_UNIT.
Proof.
  intros Ha Hb Hlo Hhi Hu Hx Hpos Hr. pose proof F64_UNIT_pos as HU.
  destruct (f64_plain a ltac:(lia)) as (_ & _ & _ & Hra), (f64_plain b ltac:(lia)) as (_ & _ & _ & Hrb).
  assert (f64_sign x = false) as Hs.
  { unfold f64_rank in Hpos. destruct (f64_sign x); [|done]. pose proof (f64_mag_range x). lia. }
  assert (f64_rank x = x) as Hrx by (unfold f64_rank; by rewrite Hs, f64_sign_low).
  rewrite Hra, Hrb, Hrx in Hr. unfold f64_as_int, f64_is_inf. rewrite Hx.
  rewrite f64_sign_low, (proj2 (Z.eqb_neq x F64_INF)), f64_int_plain by (done || lia).
  pose proof (mag_int_nonneg x ltac:(lia)). rewrite Z.quot_div_nonneg by lia.
  pose proof (mag_int_mono a x ltac:(lia)). pose proof (mag_int_mono x b ltac:(lia)).
  pose proof (Z.div_le_mono (mag_int a) (mag_int x) F64_UNIT HU ltac:(lia)).
  pose proof (Z.div_le_mono (mag_int x) (mag_int b) F64_UNIT HU ltac:(lia)).
  pose proof (Z.div_pos (mag_int x) F64_UNIT ltac:(lia) HU). lia.
Qed.

(** ** Values without a sign, [NaN] included *)

Lemma f64_round_plain n d : 0 <= n -> 0 < d -> 0 <= f64_round false n d <= F64_INF.
Proof.
  intros Hn Hd. unfold f64_round, f64_with_sign. case_match; [unfold F64_INF; lia|].
  rewrite (proj2 (Z.ltb_ge n 0)), Z.abs_eq by lia. by apply round_mag_bounds.
Qed.

Lemma f64_int_nonneg x : 0 <= x <= F64_INF -> 0 <= f64_int x.
Proof.
  intros Hx. unfold f64_int. destruct (f64_plain x Hx) as (-> & -> & _). apply mag_int_nonneg. lia.
Qed.

Lemma unsigned_add x y : unsigned_or_nan x -> unsigned_or_nan y -> unsigned_or_nan (f64_add x y).
Proof.
  unfold f64_add. intros [Hx|Hx] [Hy|Hy]; rewrite ?Hx, ?Hy, ?orb_true_r; cbn [orb andb negb xorb]; try by left.
  pose proof (f64_int_nonneg x Hx). pose proof (f64_int_nonneg y Hy).
  destruct (f64_plain x Hx) as (_ & -> & -> & _), (f64_plain y Hy) as (_ & -> & -> & _). cbn [orb andb negb xorb].
  rewrite andb_false_r. right. case_match; [done|]. case_match; [done|]. apply f64_round_plain; lia.
Qed.

Lemma unsigned_mul x y : unsigned_or_nan x -> unsigned_or_nan y -> unsigned_or_nan (f64_mul x y).
Proof.
  unfold f64_mul. intros [Hx|Hx] [Hy|Hy]; rewrite ?Hx, ?Hy, ?orb_true_r; cbn [orb andb negb xorb]; try by left.
  pose proof (f64_int_nonneg x Hx). pose proof (f64_int_nonneg y Hy).
  destruct (f64_plain x Hx) as (_ & -> & -> & _), (f64_plain y Hy) as (_ & -> & -> & _). cbn [orb andb negb xorb].
  case_match; [case_match; [by left|right; apply f64_inf_plain]|].
  right. apply f64_round_plain; [nia|apply F64_UNIT_pos].
Qed.

Lemma unsigned_div x y : unsigned_or_nan x -> unsigned_or_nan y -> unsigned_or_nan (f64_div x y).
Proof.
  unfold f64_div. intros [Hx|Hx] [Hy|Hy]; rewrite ?Hx, ?Hy, ?orb_true_r; cbn [orb andb negb xorb]; try by left.
  pose proof (f64_int_nonneg x Hx). pose proof (f64_int_nonneg y Hy).
  destruct (f64_plain x Hx) as (_ & -> & -> & _). destruct (f64_plain y Hy) as (Hm & Hs & -> & _). rewrite Hs. cbn [orb andb negb xorb].
  case_match; [case_match; [by left|right; apply f64_inf_plain]|].
  case_match; [right; apply f64_zero_plain|].
  destruct (f64_is_zero y) eqn:Hz; [case_match; [by left|right; apply f64_inf_plain]|].
  assert (0 < f64_int y).
  { unfold f64_int. rewrite Hm, Hs. apply mag_int_pos. unfold f64_is_zero, f64_mag in *.
    rewrite Hm in Hz. apply Z.eqb_neq in Hz. lia. }
  pose proof F64_UNIT_pos. right. apply f64_round_plain; [|lia]. rewrite Z.sgn_pos by lia. nia.
Qed.

Lemma unsigned_finite x : unsigned_or_nan x -> f64_is_finite x = true -> 0 <= x < F64_INF.
Proof.
  intros [Hx|Hx] Hf; [by rewrite (f64_finite_not_nan x Hf) in Hx|].
  unfold f64_is_finite in Hf. destruct (f64_plain x Hx) as (Hm & _). rewrite Hm in Hf. apply Z.ltb_lt in Hf. lia.
Qed.

(** An unbounded running count: infinity stays infinity. *)
Lemma f64_add_count x y :
  0 <= x <= F64_INF -> 0 <= y <= F64_INF ->
  0 <= f64_add x y <= F64_INF /\ (0 < x \/ 0 < y -> 0 < f64_add x y).
Proof.
  intros Hx Hy. destruct (Z.eq_dec x F64_INF) as [->|Hxi]; [|destruct (Z.eq_dec y F64_INF) as [->|Hyi]].
  - assert (f64_add F64_INF y = F64_INF) as ->.
    { unfold f64_add. destruct (f64_plain y Hy) as (_ & -> & -> & _).
      change (f64_is_nan F64_INF) with false. change (f64_is_inf F64_INF) with true.
      change (f64_sign F64_INF) with false. cbn [orb xorb]. by rewrite andb_false_r. }
    unfold F64_INF. lia.
  - assert (f64_add x F64_INF = F64_INF) as ->.
    { unfold f64_add, f64_is_inf at 1. destruct (f64_plain x Hx) as (-> & -> & -> & _).
      rewrite (proj2 (Z.eqb_neq x F64_INF)) by done. done. }
    unfold F64_INF. lia.
  - apply f64_add_plain_bounds; lia.
Qed.
