(* ===== verification/Parse.v ===== *)
(** * Parsers with an error type of their own

    A decoder that walks a byte slice and stops at the first error, as the summaries' byte forms
    do: it takes the bytes left and returns an error, or a value and the bytes it leaves.
    [preads] is what one makes of written bytes, [pgives] what is true of anything it returns. *)

From S2P Require Import Prelude.

Definition parser (E A : Type) : Type := bytes -> E + (A * bytes).

Section Parser.
Context {E : Type}.

Definition pret {A} (a : A) : parser E A := fun bs => inr (a, bs).
Definition pfail {A} (e : E) : parser E A := fun _ => inl e.

Definition pbind {A B} (r : parser E A) (k : A -> parser E B) : parser E B := fun bs =>
  match r bs with
  | inl e => inl e
  | inr (a, bs) => k a bs
  end.

Definition pguard (b : bool) (e : E) : parser E unit := if b then pret tt else pfail e.

(** The next [n] bytes, or [e] when fewer are left. *)
Definition ptake (e : E) (n : nat) : parser E bytes := fun bs =>
  if (n <=? length bs)%nat then inr (take n bs, drop n bs) else inl e.

(** The next [n] bytes as a little-endian number. *)
Definition ple (e : E) (n : nat) : parser E Z := pbind (ptake e n) (fun b => pret (from_le_bytes b)).

(** ** Reading back what was written *)

(** [r] reads exactly [w], whatever follows, as [a]. *)
Definition preads {A} (r : parser E A) (w : bytes) (a : A) : Prop :=
  forall rest, r (w ++ rest) = inr (a, rest).

Lemma preads_bind {A B} (r : parser E A) (k : A -> parser E B) w w' a b :
  preads r w a -> preads (k a) w' b -> preads (pbind r k) (w ++ w') b.
Proof. intros Hr Hk rest. unfold pbind. by rewrite <- app_assoc, Hr. Qed.

Lemma preads_ret {A} (a : A) : preads (pret a) [] a.
Proof. done. Qed.

Lemma preads_guard {B} (c : bool) e (r : parser E B) w b :
  c = true -> preads r w b -> preads (pbind (pguard c e) (fun _ => r)) w b.
Proof. by intros ->. Qed.

Lemma preads_take e w : preads (ptake e (length w)) w w.
Proof.
  intros rest. unfold ptake. rewrite (proj2 (Nat.leb_le _ _)) by (rewrite length_app; lia).
  by rewrite take_app_length, drop_app_length.
Qed.

Lemma preads_le e n v : unsigned (8 * Z.of_nat n) v -> preads (ple e n) (to_le_bytes n v) v.
Proof.
  intros Hv rest. unfold ple, pbind. rewrite <- (length_to_le_bytes n v) at 1. rewrite preads_take.
  unfold pret. by rewrite from_to_le_unsigned.
Qed.

Lemma preads_byte e v : u8 v -> preads (ple e 1) [z2b v] v.
Proof. apply (preads_le e 1). Qed.

Lemma ple_cons e x bs : ple e 1 (x :: bs) = inr (b2z x, bs).
Proof.
  unfold ple, pbind, ptake, pret. cbn [length Nat.leb take drop].
  rewrite take_0, drop_0. change (from_le_bytes [x]) with (Z.lor (b2z x) 0). by rewrite Z.lor_0_r.
Qed.

(** ** What a successful read returned *)

Definition pgives {A} (r : parser E A) (P : A -> Prop) : Prop :=
  forall bs a rest, r bs = inr (a, rest) -> P a.

Lemma pgives_bind {A B} (r : parser E A) (k : A -> parser E B) (P : A -> Prop) (Q : B -> Prop) :
  pgives r P -> (forall a, P a -> pgives (k a) Q) -> pgives (pbind r k) Q.
Proof.
  intros Hr Hk bs b rest. unfold pbind. destruct (r bs) as [e|[a bs']] eqn:He; [done|].
  apply Hk. by eapply Hr.
Qed.

Lemma pgives_ret {A} (a : A) (P : A -> Prop) : P a -> pgives (pret a) P.
Proof. intros H bs a' rest [= <- _]. done. Qed.

Lemma pgives_fail {A} e (P : A -> Prop) : pgives (pfail e) P.
Proof. by intros bs a rest. Qed.

Lemma pgives_any {A} (r : parser E A) : pgives r (fun _ => True).
Proof. done. Qed.

Lemma pgives_guard {B} (c : bool) e (r : parser E B) (Q : B -> Prop) :
  (c = true -> pgives r Q) -> pgives (pbind (pguard c e) (fun _ => r)) Q.
Proof. intros H. destruct c; [by apply H|]. apply pgives_fail. Qed.

Lemma pgives_le e n : pgives (ple e n) (unsigned (8 * Z.of_nat n)).
Proof.
  intros bs v rest. unfold ple, pbind, ptake. destruct (Nat.leb_spec n (length bs)) as [Hn|]; [|done].
  intros [= <- _]. pose proof (from_le_bytes_range (take n bs)) as Hr.
  unfold blen in Hr. by rewrite length_take, Nat.min_l in Hr.
Qed.
End Parser.

Notation "'let*' x ':=' r 'in' k" := (pbind r (fun x => k))
  (at level 10, x pattern, r at level 100, k at level 200, only parsing) : wire_scope.
