(* ===== verification/Sketch.v ===== *)
(** * The quantile sketch

    [DdSketch] of crates/logit-core/src/sketch.rs: bins of values by logarithmic key under one of
    two mappings, a store for the positive and one for the negative values, a summary, and the byte
    form a [Distribution] metric carries on the native wire.

    A store is a vector of bins ascending by key; its abstract value is the finite map from keys to
    counts. *)

From stdpp Require Import sorting.
From S2P Require Import Prelude Codec Budget Reader Varint Float Parse.

(** ** Mappings *)

Inductive MappingKind := Agent | Logarithmic.

#[global] Instance MappingKind_eq_dec : EqDecision MappingKind.
Proof. solve_decision. Defined.

Record Mapping := mkMapping {
  kind : MappingKind;
  gamma : f64;
  gamma_ln : f64;
  offset : f64;
  bin_limit : Z
}.

Abbreviation AGENT_GAMMA := (0x3ff0400000000000)%Z.
Abbreviation AGENT_BIN_LIMIT := (4096)%Z.
Abbreviation AGENT_MIN := (0x3e112e0be826d695)%Z.
Abbreviation AGENT_MAX_KEY := (32766)%Z.
Abbreviation AGENT_INF_KEY := (32767)%Z.
Abbreviation MAX_BIN_LIMIT := (AGENT_BIN_LIMIT)%Z.

(** The derived [PartialEq]. *)
Definition Mapping_eqb (a b : Mapping) : bool :=
  bool_decide (kind a = kind b) && f64_eqb (gamma a) (gamma b) && f64_eqb (gamma_ln a) (gamma_ln b) &&
  f64_eqb (offset a) (offset b) && (bin_limit a =? bin_limit b).

Section Mapping.
Context `{Libm}.

Definition agent : Mapping :=
  let gamma_ln := ln_1p (f64_div F64_ONE (f64_of_Z 64)) in
  let emin := f64_floor (f64_div (ln AGENT_MIN) gamma_ln) in
  mkMapping Agent AGENT_GAMMA gamma_ln (f64_sub F64_ONE emin) AGENT_BIN_LIMIT.

Definition try_logarithmic (gamma index_offset : f64) (bin_limit : Z) : option Mapping :=
  if negb (f64_is_finite gamma && f64_ltb F64_ONE gamma && f64_is_finite index_offset &&
           ((2 <=? bin_limit) && (bin_limit <=? MAX_BIN_LIMIT)))
  then None
  else Some (mkMapping Logarithmic gamma (ln gamma) index_offset bin_limit).

Definition logarithmic (gamma index_offset : f64) (bin_limit : Z) : Mapping :=
  default agent
    (try_logarithmic gamma index_offset (Z.max 2 (Z.min bin_limit MAX_BIN_LIMIT))).

Definition agent_min (m : Mapping) : f64 := powf (gamma m) (f64_sub F64_ONE (offset m)).

Definition is_zero (m : Mapping) (magnitude : f64) : bool :=
  match kind m with
  | Agent => f64_ltb magnitude (agent_min m)
  | Logarithmic => f64_ltb magnitude AGENT_MIN
  end.

(** [key_range]'s [contains]. *)
Definition key_range (m : Mapping) (key : Z) : bool :=
  match kind m with
  | Agent => (1 <=? key) && (key <=? AGENT_INF_KEY)
  | Logarithmic => (- 2 ^ 31 <=? key) && (key <=? 2 ^ 31 - 1)
  end.

Definition key (m : Mapping) (magnitude : f64) : Z :=
  let log_gamma := f64_div (ln magnitude) (gamma_ln m) in
  match kind m with
  | Agent =>
      let i := f64_add (f64_round_ties_even log_gamma) (offset m) in
      if f64_ltb (f64_of_Z AGENT_MAX_KEY) i then AGENT_INF_KEY
      else if f64_ltb i F64_ONE then 1
      else f64_as_i32 i
  | Logarithmic =>
      let index := f64_add log_gamma (offset m) in
      if f64_leb 0 index then f64_as_i32 index
      else Z.max (- 2 ^ 31) (f64_as_i32 index - 1)
  end.

Definition lower_bound (m : Mapping) (key : Z) : f64 :=
  match kind m with
  | Agent =>
      if AGENT_INF_KEY <=? key then F64_INF
      else powf (gamma m) (f64_sub (f64_of_Z key) (offset m))
  | Logarithmic => exp (f64_mul (f64_sub (f64_of_Z key) (offset m)) (gamma_ln m))
  end.

Definition representative (m : Mapping) (key : Z) : f64 :=
  match kind m with
  | Agent => lower_bound m key
  | Logarithmic =>
      f64_mul (lower_bound m key)
        (f64_div (f64_mul (f64_of_Z 2) (gamma m)) (f64_add F64_ONE (gamma m)))
  end.
End Mapping.

(** ** Stores *)

Record Bin := mkBin { bin_key : Z; bin_count : f64 }.

Abbreviation store := (list Bin).

Definition add_counts (a b : f64) : f64 := f64_min (f64_add a b) F64_MAX.

(** [slice::binary_search_by] on the keys: [inl i] where the key is, [inr i] where it would go. *)
Fixpoint search_bins (s : store) (key : Z) : nat + nat :=
  match s with
  | [] => inr 0%nat
  | b :: s =>
      match bin_key b ?= key with
      | Lt => match search_bins s key with inl i => inl (S i) | inr i => inr (S i) end
      | Eq => inl 0%nat
      | Gt => inr 0%nat
      end
  end.

(** [store[remove]] exists whenever the limit is positive, which every mapping's is. *)
Definition collapse (s : store) (bin_limit : Z) : store :=
  let limit := Z.to_nat bin_limit in
  if (length s <=? limit)%nat then s
  else
    let remove := (length s - limit)%nat in
    let folded := fold_left (fun sum b => add_counts sum (bin_count b)) (take remove s) 0 in
    match drop remove s with
    | b :: kept => mkBin (bin_key b) (add_counts (bin_count b) folded) :: kept
    | [] => []
    end.

Definition insert_bin (s : store) (key : Z) (count : f64) (bin_limit : Z) : store :=
  match search_bins s key with
  | inl i =>
      match s !! i with
      | Some b => <[i := mkBin (bin_key b) (add_counts (bin_count b) count)]> s
      | None => s
      end
  | inr i => collapse (take i s ++ mkBin key count :: drop i s) bin_limit
  end.

(** The [while] loop of [merge_bins] and the two [extend]s after it. *)
Fixpoint merge_sorted (a : store) : store -> store :=
  fix go (b : store) : store :=
    match a, b with
    | x :: a', y :: b' =>
        match bin_key x ?= bin_key y with
        | Lt => x :: merge_sorted a' b
        | Gt => y :: go b'
        | Eq => mkBin (bin_key x) (add_counts (bin_count x) (bin_count y)) :: merge_sorted a' b'
        end
    | _, [] => a
    | [], _ => b
    end.

Definition merge_bins (a b : store) (bin_limit : Z) : store :=
  match b with
  | [] => a
  | _ :: _ => collapse (merge_sorted a b) bin_limit
  end.

(** [sort_by_key], which is stable. *)
Fixpoint sort_insert (x : Bin) (s : store) : store :=
  match s with
  | [] => [x]
  | y :: s' => if bin_key x <=? bin_key y then x :: s else y :: sort_insert x s'
  end.

Definition sort_by_key (s : store) : store := foldr sort_insert [] s.

(** One turn of [normalize_bins]'s loop; the vector it fills is held last element first. *)
Definition fold_repeated (out : store) (bin : Bin) : store :=
  match out with
  | last :: out' =>
      if bin_key last =? bin_key bin
      then mkBin (bin_key last) (add_counts (bin_count last) (bin_count bin)) :: out'
      else bin :: out
  | [] => [bin]
  end.

Definition retained (b : Bin) : bool := f64_is_finite (bin_count b) && f64_ltb 0 (bin_count b).

Definition normalize_bins (bins : store) (bin_limit : Z) : store :=
  let bins := sort_by_key (List.filter retained bins) in
  collapse (rev (fold_left fold_repeated bins [])) bin_limit.

(** [rank] and [seen] are floats; [last] is the last key walked, 0 for an empty store. *)
Fixpoint key_at_rank_loop (s : store) (rank seen : f64) (last : Z) : Z :=
  match s with
  | [] => last
  | b :: s =>
      let seen := f64_add seen (bin_count b) in
      if f64_ltb rank seen then bin_key b else key_at_rank_loop s rank seen (bin_key b)
  end.

Definition key_at_rank (s : store) (rank : f64) : Z := key_at_rank_loop s rank 0 0.

(** ** The sketch *)

Record DdSketch := mkDdSketch {
  sk_mapping : Mapping;
  sk_positive : store;
  sk_negative : store;
  sk_zero_count : f64;
  sk_count : f64;
  sk_min : f64;
  sk_max : f64;
  sk_sum : f64;
  sk_exact_stats : bool
}.

Record SketchStats := mkSketchStats { st_count : f64; st_min : f64; st_max : f64; st_sum : f64 }.

#[global] Instance SketchStats_eq_dec : EqDecision SketchStats.
Proof. solve_decision. Defined.

Definition with_mapping (mapping : Mapping) : DdSketch :=
  mkDdSketch mapping [] [] 0 0 F64_INF F64_NEG_INF 0 true.

Definition stored_stats (s : DdSketch) : SketchStats :=
  mkSketchStats (sk_count s) (sk_min s) (sk_max s) (sk_sum s).

Section Sketch.
Context `{Libm}.

Definition sketch_new : DdSketch := with_mapping agent.

(** One bin of [derive_stats]'s loops: the running count, sum, minimum and maximum. *)
Definition derive_bin (value : Z -> f64) (acc : SketchStats) (bin : Bin) : SketchStats :=
  let v := value (bin_key bin) in
  mkSketchStats (f64_add (st_count acc) (bin_count bin)) (f64_min (st_min acc) v)
    (f64_max (st_max acc) v) (f64_add (st_sum acc) (f64_mul v (bin_count bin))).

Definition derive_stats (s : DdSketch) : DdSketch :=
  let m := sk_mapping s in
  let some_zero := f64_ltb 0 (sk_zero_count s) in
  let start := mkSketchStats (sk_zero_count s) (if some_zero then 0 else F64_INF)
                 (if some_zero then 0 else F64_NEG_INF) 0 in
  let st := fold_left (derive_bin (representative m)) (sk_positive s) start in
  let st := fold_left (derive_bin (fun k => f64_neg (representative m k))) (sk_negative s) st in
  mkDdSketch m (sk_positive s) (sk_negative s) (sk_zero_count s)
    (st_count st) (st_min st) (st_max st) (st_sum st) false.

Definition from_parts (mapping : Mapping) (positive negative : store) (zero_count : f64)
    (stats : option SketchStats) : DdSketch :=
  let positive := normalize_bins positive (bin_limit mapping) in
  let negative := normalize_bins negative (bin_limit mapping) in
  let zero_count := if f64_is_finite zero_count && f64_ltb 0 zero_count then zero_count else 0 in
  let derived := derive_stats (mkDdSketch mapping positive negative zero_count 0 F64_INF F64_NEG_INF 0 true) in
  match stats with
  | Some s =>
      if f64_is_finite (st_count s) && f64_leb 0 (st_count s)
      then mkDdSketch mapping positive negative zero_count
             (st_count s) (st_min s) (st_max s) (st_sum s) true
      else derived
  | None => derived
  end.

Definition set_exact_stats (s : DdSketch) (exact : bool) : DdSketch :=
  mkDdSketch (sk_mapping s) (sk_positive s) (sk_negative s) (sk_zero_count s)
    (sk_count s) (sk_min s) (sk_max s) (sk_sum s) exact.

Definition from_stored (mapping : Mapping) (positive negative : store) (zero_count : f64)
    (stats : SketchStats) (stats_exact : bool) : DdSketch :=
  set_exact_stats (from_parts mapping positive negative zero_count (Some stats)) stats_exact.

Definition sketch_insert (s : DdSketch) (value count : f64) : DdSketch :=
  let m := sk_mapping s in
  let magnitude := f64_abs value in
  let with_stores positive negative zero_count :=
    mkDdSketch m positive negative zero_count
      (sk_count s) (sk_min s) (sk_max s) (sk_sum s) (sk_exact_stats s) in
  if is_zero m magnitude
  then with_stores (sk_positive s) (sk_negative s) (add_counts (sk_zero_count s) count)
  else
    let k := key m magnitude in
    if f64_ltb 0 value
    then with_stores (insert_bin (sk_positive s) k count (bin_limit m)) (sk_negative s) (sk_zero_count s)
    else with_stores (sk_positive s) (insert_bin (sk_negative s) k count (bin_limit m)) (sk_zero_count s).

Definition add_count (s : DdSketch) (value count : f64) : DdSketch :=
  if negb (f64_is_finite value) || negb (f64_is_finite count && f64_ltb 0 count) then s
  else
    let s := sketch_insert s value count in
    mkDdSketch (sk_mapping s) (sk_positive s) (sk_negative s) (sk_zero_count s)
      (f64_add (sk_count s) count)
      (if f64_ltb value (sk_min s) then value else sk_min s)
      (if f64_ltb (sk_max s) value then value else sk_max s)
      (f64_add (sk_sum s) (f64_mul value count))
      (sk_exact_stats s).

Definition sketch_add (s : DdSketch) (value : f64) : DdSketch := add_count s value F64_ONE.

Definition add_weighted (s : DdSketch) (value : f64) (count : Z) : DdSketch :=
  add_count s value (f64_of_Z count).

(** Where [merge] puts a bin of [other] whose mapping is another one. *)
Definition rebin (self other : Mapping) (k : Z) : Z :=
  let v := representative other k in
  key self (if f64_is_finite v then v else F64_MAX).

Definition rebin_all (self other : Mapping) (s bins : store) : store :=
  fold_left (fun s bin => insert_bin s (rebin self other (bin_key bin)) (bin_count bin) (bin_limit self))
    bins s.

(** The mapping [merge] keeps: an empty sketch adopts the other's. *)
Definition merge_mapping (self other : DdSketch) : Mapping :=
  if negb (Mapping_eqb (sk_mapping self) (sk_mapping other)) && f64_eqb (sk_count self) 0 &&
     f64_eqb (sk_zero_count self) 0 &&
     match sk_positive self, sk_negative self with [], [] => true | _, _ => false end
  then sk_mapping other
  else sk_mapping self.

Definition sketch_merge (self other : DdSketch) : DdSketch :=
  if f64_eqb (sk_count other) 0 && f64_eqb (sk_zero_count other) 0 then self
  else
    let m := merge_mapping self other in
    let merge_stores a b :=
      if Mapping_eqb m (sk_mapping other) then merge_bins a b (bin_limit m)
      else rebin_all m (sk_mapping other) a b in
    mkDdSketch m
      (merge_stores (sk_positive self) (sk_positive other))
      (merge_stores (sk_negative self) (sk_negative other))
      (add_counts (sk_zero_count self) (sk_zero_count other))
      (f64_add (sk_count self) (sk_count other))
      (if f64_ltb (sk_min other) (sk_min self) then sk_min other else sk_min self)
      (if f64_ltb (sk_max self) (sk_max other) then sk_max other else sk_max self)
      (f64_add (sk_sum self) (sk_sum other))
      (sk_exact_stats self && sk_exact_stats other).

Definition sketch_count (s : DdSketch) : Z := f64_as_usize (f64_round_half_away (sk_count s)).

Definition sketch_min (s : DdSketch) : option f64 :=
  if f64_ltb 0 (sk_count s) then Some (sk_min s) else None.

Definition sketch_max (s : DdSketch) : option f64 :=
  if f64_ltb 0 (sk_count s) then Some (sk_max s) else None.

(** [Iterator::sum] of floats starts from [-0.0]. *)
Definition sum_counts (s : store) : f64 :=
  fold_left (fun sum b => f64_add sum (bin_count b)) s F64_NEG_ZERO.

Definition quantile (s : DdSketch) (q : f64) : option f64 :=
  if f64_leb (sk_count s) 0 || f64_is_nan q then None
  else
    let q := f64_clamp q 0 F64_ONE in
    if f64_leb q 0 then Some (sk_min s)
    else if f64_leb F64_ONE q then Some (sk_max s)
    else
      let m := sk_mapping s in
      let rank := f64_max (f64_mul q (f64_sub (sk_count s) F64_ONE)) 0 in
      let rank := match kind m with Agent => f64_round_ties_even rank | Logarithmic => rank end in
      let negative_count := sum_counts (sk_negative s) in
      let estimate :=
        if f64_ltb rank negative_count then
          f64_neg (representative m
            (key_at_rank (sk_negative s) (f64_sub (f64_sub negative_count F64_ONE) rank)))
        else if f64_ltb rank (f64_add negative_count (sk_zero_count s)) then 0
        else
          representative m
            (key_at_rank (sk_positive s) (f64_sub (f64_sub rank negative_count) (sk_zero_count s))) in
      Some (f64_min (f64_max estimate (sk_min s)) (sk_max s)).
End Sketch.

(** ** The byte form *)

Abbreviation BYTES_VERSION := (1)%Z.

(** The file's own varint writer; ten turns cover a [u64]. *)
Fixpoint write_uvarint_while (fuel : nat) (v : Z) : bytes :=
  match fuel with
  | O => []
  | S fuel =>
      if 0x80 <=? v then z2b (Z.lor (v mod 256) 0x80) :: write_uvarint_while fuel (Z.shiftr v 7)
      else [z2b v]
  end.

Definition sketch_write_uvarint (v : Z) : bytes := write_uvarint_while 10 v.

Fixpoint write_bins_loop (previous : Z) (bins : store) : bytes :=
  match bins with
  | [] => []
  | bin :: bins =>
      let delta := bin_key bin - previous in
      sketch_write_uvarint (uwrap 64 (Z.lxor (swrap 64 (Z.shiftl delta 1)) (Z.shiftr delta 63))) ++
      to_le_bytes 8 (bin_count bin) ++
      write_bins_loop (bin_key bin) bins
  end.

Definition write_bins (bins : store) : bytes :=
  sketch_write_uvarint (Z.of_nat (length bins)) ++ write_bins_loop 0 bins.

Definition sketch_to_bytes (s : DdSketch) : bytes :=
  let m := sk_mapping s in
  [z2b BYTES_VERSION] ++
  match kind m with
  | Agent => [z2b 0]
  | Logarithmic =>
      [z2b 1] ++ to_le_bytes 8 (gamma m) ++ to_le_bytes 8 (offset m) ++ to_le_bytes 4 (bin_limit m)
  end ++
  [z2b (Z.b2z (sk_exact_stats s))] ++
  concat (map (to_le_bytes 8)
    [sk_count s; sk_min s; sk_max s; sk_sum s; sk_zero_count s]) ++
  write_bins (sk_positive s) ++
  write_bins (sk_negative s).

Inductive SketchDecodeError := SkVersion | SkTruncated | SkMalformed.

#[global] Instance SketchDecodeError_eq_dec : EqDecision SketchDecodeError.
Proof. solve_decision. Defined.

(** A method of [Reader]: the blob from [pos] on, and what it leaves. *)
Definition blob : Type -> Type := parser SketchDecodeError.

#[local] Open Scope wire_scope.

Definition blob_u8 : blob Z := ple SkTruncated 1.
Definition blob_u32 : blob Z := ple SkTruncated 4.
Definition blob_f64 : blob f64 := ple SkTruncated 8.

(** [for shift in (0..64).step_by(7)]: ten turns. The last byte's bits past 63 are shifted out. *)
Fixpoint blob_uvarint_loop (n : nat) (shift value : Z) : blob Z :=
  match n with
  | O => pfail SkMalformed
  | S n =>
      let* byte := blob_u8 in
      let value := Z.lor value (uwrap 64 (Z.shiftl (Z.land byte 0x7f) shift)) in
      if Z.land byte 0x80 =? 0 then pret value else blob_uvarint_loop n (shift + 7) value
  end.

Definition blob_uvarint : blob Z := blob_uvarint_loop 10 0 0.

Fixpoint read_bins_loop (keys : Z -> bool) (n : nat) (previous : Z) : blob store :=
  match n with
  | O => pret []
  | S n =>
      let* zigzag := blob_uvarint in
      let delta := Z.lxor (swrap 64 (Z.shiftr zigzag 1)) (- swrap 64 (Z.land zigzag 1)) in
      let key := previous + delta in
      let* _ := pguard ((- 2 ^ 63 <=? key) && (key <=? 2 ^ 63 - 1)) SkMalformed in
      let* _ := pguard ((- 2 ^ 31 <=? key) && (key <=? 2 ^ 31 - 1) && keys key) SkMalformed in
      let* count := blob_f64 in
      let* bins := read_bins_loop keys n key in
      pret (mkBin key count :: bins)
  end.

(** [len] is the whole blob's length. *)
Definition read_bins (len : Z) (keys : Z -> bool) : blob store :=
  let* n := blob_uvarint in
  let* _ := pguard (n <=? len / 9) SkMalformed in
  read_bins_loop keys (Z.to_nat n) 0.

Section FromBytes.
Context `{Libm}.

Definition read_mapping : blob Mapping :=
  let* tag := blob_u8 in
  if tag =? 0 then pret agent
  else if tag =? 1 then
    let* gamma := blob_f64 in
    let* offset := blob_f64 in
    let* bin_limit := blob_u32 in
    match try_logarithmic gamma offset bin_limit with
    | Some mapping => pret mapping
    | None => pfail SkMalformed
    end
  else pfail SkMalformed.

Definition read_sketch (len : Z) : blob DdSketch :=
  let* version := blob_u8 in
  let* _ := pguard (version =? BYTES_VERSION) SkVersion in
  let* mapping := read_mapping in
  let* exact_stats := blob_u8 in
  let* count := blob_f64 in
  let* min := blob_f64 in
  let* max := blob_f64 in
  let* sum := blob_f64 in
  let* zero_count := blob_f64 in
  let keys := key_range mapping in
  let* positive := read_bins len keys in
  let* negative := read_bins len keys in
  pret (from_stored mapping positive negative zero_count (mkSketchStats count min max sum)
    (negb (exact_stats =? 0))).

Definition sketch_from_bytes (bs : bytes) : SketchDecodeError + DdSketch :=
  match read_sketch (blen bs) bs with
  | inl e => inl e
  | inr (s, []) => inr s
  | inr (_, _ :: _) => inl SkMalformed
  end.
End FromBytes.
