(* ===== verification/SketchStore.v ===== *)
(** * The quantile sketch: its stores and its byte form

    The invariant of a store (ascending keys of the mapping's range, positive finite counts, no more
    bins than the limit), kept by inserting, merging, collapsing and normalizing; and the byte form
    read back. *)

From stdpp Require Import sorting.
From S2P Require Import Prelude Codec Budget Reader Varint Float Parse Sketch.

#[local] Open Scope wire_scope.

(** ** Stores and their counts *)

(** Strictly ascending keys. *)
Definition ascending (s : store) : Prop := StronglySorted Z.lt (map bin_key s).

(** A count a store may hold: the pattern of a positive finite number. *)
Definition weight (x : f64) : Prop := 0 < x < F64_INF.

(** A count that may also be zero: [zero_count], and the start of a fold. *)
Definition weight0 (x : f64) : Prop := 0 <= x < F64_INF.

Definition bin_ok (keys : Z -> bool) (b : Bin) : Prop := keys (bin_key b) = true /\ weight (bin_count b).

Record store_ok (keys : Z -> bool) (limit : Z) (s : store) : Prop := mkStoreOk {
  store_ascending : ascending s;
  store_bins : Forall (bin_ok keys) s;
  store_limit : Z.of_nat (length s) <= limit
}.

Lemma add_counts_weight0 a b : weight0 a -> weight0 b -> weight0 (add_counts a b).
Proof.
  intros Ha Hb. destruct (f64_add_plain_bounds a b Ha Hb) as [H1 _].
  unfold add_counts. rewrite f64_min_plain by (done || (unfold F64_MAX, F64_INF; lia)).
  unfold weight0, F64_MAX, F64_INF in *. lia.
Qed.

Lemma add_counts_weight a b : weight0 a -> weight0 b -> 0 < a \/ 0 < b -> weight (add_counts a b).
Proof.
  intros Ha Hb Hab. destruct (f64_add_plain_bounds a b Ha Hb) as [H1 H2]. specialize (H2 Hab).
  unfold add_counts. rewrite f64_min_plain by (done || (unfold F64_MAX, F64_INF; lia)).
  unfold weight, F64_MAX, F64_INF in *. lia.
Qed.

Lemma add_counts_comm a b : weight0 a -> weight0 b -> add_counts a b = add_counts b a.
Proof. intros Ha Hb. unfold add_counts. by rewrite f64_add_plain_comm. Qed.

Lemma weight_weight0 x : weight x -> weight0 x.
Proof. unfold weight, weight0. lia. Qed.

Lemma weight0_0 : weight0 0.
Proof. by compute. Qed.

#[local] Hint Resolve weight_weight0 weight0_0 add_counts_weight0 : core.

Lemma ascending_cons b s :
  ascending (b :: s) <-> ascending s /\ Forall (fun c => bin_key b < bin_key c) s.
Proof.
  unfold ascending. simpl. split.
  - intros H. apply StronglySorted_inv in H as [H1 H2]. by rewrite Forall_map in H2.
  - intros [H1 H2]. constructor; [done|]. by rewrite Forall_map.
Qed.

Lemma ascending_app s1 s2 :
  ascending (s1 ++ s2) <->
  ascending s1 /\ ascending s2 /\ Forall (fun b => Forall (fun c => bin_key b < bin_key c) s2) s1.
Proof.
  induction s1 as [|b s1 IH]; simpl.
  - split; [intros H; split_and!; [constructor|done|constructor]|by intros (_ & H & _)].
  - rewrite !ascending_cons, IH, Forall_app, Forall_cons. tauto.
Qed.

Lemma ascending_drop n s : ascending s -> ascending (drop n s).
Proof. intros H. rewrite <- (take_drop n s) in H. by apply ascending_app in H as (_ & H & _). Qed.

Lemma ascending_replace b c s : bin_key c = bin_key b -> ascending (b :: s) -> ascending (c :: s).
Proof. intros Hk. rewrite !ascending_cons, Hk. done. Qed.

Lemma fold_counts_weight0 keys s acc :
  Forall (bin_ok keys) s -> weight0 acc ->
  weight0 (fold_left (fun sum b => add_counts sum (bin_count b)) s acc).
Proof.
  intros Hs. revert acc. induction Hs as [|b s [_ Hb] _ IH]; intros acc Hacc; simpl; auto.
Qed.

Lemma collapse_id s limit : Z.of_nat (length s) <= limit -> collapse s limit = s.
Proof. intros H. unfold collapse. by rewrite (proj2 (Nat.leb_le _ _)) by lia. Qed.

(** Collapsing makes a store of any ascending bins. *)
Lemma collapse_ok keys limit s :
  0 < limit -> ascending s -> Forall (bin_ok keys) s -> store_ok keys limit (collapse s limit).
Proof.
  intros Hl Ha Hs. unfold collapse. destruct (Nat.leb_spec (length s) (Z.to_nat limit)) as [H|H].
  { constructor; [done|done|lia]. }
  set (n := (length s - Z.to_nat limit)%nat).
  pose proof (ascending_drop n s Ha) as Had. pose proof (Forall_drop _ n s Hs) as Hsd.
  pose proof (length_drop s n) as Hlen. pose proof (Forall_take _ n s Hs) as Hst.
  destruct (drop n s) as [|b kept]; [simpl in Hlen; lia|].
  apply Forall_cons in Hsd as [[Hk Hc] Hkept].
  constructor.
  - by apply (ascending_replace b).
  - constructor; [|done]. split; [done|]. simpl. unfold weight in Hc.
    apply add_counts_weight; [by apply weight_weight0|by eapply fold_counts_weight0|lia].
  - simpl in Hlen |- *. lia.
Qed.

(** ** Merging and inserting *)

Lemma merge_sorted_nil_l b : merge_sorted [] b = b.
Proof. by destruct b. Qed.

Lemma merge_sorted_nil_r a : merge_sorted a [] = a.
Proof. by destruct a. Qed.

Lemma merge_sorted_cons x a y b :
  merge_sorted (x :: a) (y :: b) =
  match bin_key x ?= bin_key y with
  | Lt => x :: merge_sorted a (y :: b)
  | Gt => y :: merge_sorted (x :: a) b
  | Eq => mkBin (bin_key x) (add_counts (bin_count x) (bin_count y)) :: merge_sorted a b
  end.
Proof. done. Qed.

#[local] Arguments merge_sorted : simpl never.

(** Induction over the two vectors the loop walks. *)
Lemma merge_ind (P : store -> store -> Prop) :
  (forall b, P [] b) -> (forall a, P a []) ->
  (forall x a y b, P a (y :: b) -> P (x :: a) b -> P a b -> P (x :: a) (y :: b)) ->
  forall a b, P a b.
Proof.
  intros H1 H2 H3. induction a as [|x a IHa]; [done|].
  induction b as [|y b IHb]; auto.
Qed.

(** A bound below both vectors is below their merge. *)
Lemma merge_sorted_above k a b :
  Forall (fun c => k < bin_key c) a -> Forall (fun c => k < bin_key c) b ->
  Forall (fun c => k < bin_key c) (merge_sorted a b).
Proof.
  revert a b. apply (merge_ind (fun a b => _ -> _ -> _)).
  - intros b _ Hb. by rewrite merge_sorted_nil_l.
  - intros a Ha _. by rewrite merge_sorted_nil_r.
  - intros x a y b IH1 IH2 IH3 Ha Hb. rewrite merge_sorted_cons.
    apply Forall_cons in Ha as Ha'. apply Forall_cons in Hb as Hb'. destruct Ha', Hb'.
    case_match; constructor; auto.
Qed.

Lemma merge_sorted_ok keys a b :
  ascending a -> ascending b -> Forall (bin_ok keys) a -> Forall (bin_ok keys) b ->
  ascending (merge_sorted a b) /\ Forall (bin_ok keys) (merge_sorted a b).
Proof.
  revert a b. apply (merge_ind (fun a b => _ -> _ -> _ -> _ -> _)).
  - intros b _ Hb _ Hb'. by rewrite merge_sorted_nil_l.
  - intros a Ha _ Ha' _. by rewrite merge_sorted_nil_r.
  - intros x a y b IH1 IH2 IH3 Ha Hb Hax Hbx.
    apply ascending_cons in Ha as Ha1. apply ascending_cons in Hb as Hb1.
    apply Forall_cons in Hax as Hax1. apply Forall_cons in Hbx as Hbx1.
    destruct Ha1 as [Ha1 Ha2], Hb1 as [Hb1 Hb2], Hax1 as [[Hx1 Hx2] Hax1], Hbx1 as [[Hy1 Hy2] Hbx1].
    assert (forall s, Forall (fun c => bin_key y < bin_key c) s -> bin_key x <= bin_key y ->
              Forall (fun c => bin_key x < bin_key c) s) as Htr.
    { intros s Hs Hle. eapply Forall_impl; [exact Hs|]. simpl. lia. }
    assert (forall s, Forall (fun c => bin_key x < bin_key c) s -> bin_key y <= bin_key x ->
              Forall (fun c => bin_key y < bin_key c) s) as Htr'.
    { intros s Hs Hle. eapply Forall_impl; [exact Hs|]. simpl. lia. }
    rewrite merge_sorted_cons. destruct (Z.compare_spec (bin_key x) (bin_key y)) as [He|He|He].
    + destruct IH3 as [I1 I2]; [done..|]. split; [|constructor; [split; [done|]|done]].
      * apply ascending_cons. split; [done|]. apply merge_sorted_above; [done|]. apply Htr; [done|lia].
      * simpl. unfold weight in *. apply add_counts_weight; [by apply weight_weight0..|lia].
    + destruct IH1 as [I1 I2]; [done..|]. split; [|constructor; [by split|done]].
      apply ascending_cons. split; [done|]. apply merge_sorted_above; [done|].
      constructor; [done|]. apply Htr; [done|lia].
    + destruct IH2 as [I1 I2]; [done..|]. split; [|constructor; [by split|done]].
      apply ascending_cons. split; [done|]. apply merge_sorted_above; [|done].
      constructor; [done|]. apply Htr'; [done|lia].
Qed.

Lemma merge_bins_ok keys limit a b :
  0 < limit -> store_ok keys limit a -> store_ok keys limit b ->
  store_ok keys limit (merge_bins a b limit).
Proof.
  intros Hl [Ha1 Ha2 Ha3] [Hb1 Hb2 _]. unfold merge_bins. destruct b as [|y b]; [done|].
  destruct (merge_sorted_ok keys a (y :: b)) as [H1 H2]; [done..|]. by apply collapse_ok.
Qed.

(** Putting one bin in is merging a store of that bin. *)
Lemma search_merge s k c :
  ascending s ->
  match search_bins s k with
  | inl i => exists b, s !! i = Some b /\
      merge_sorted s [mkBin k c] = <[i := mkBin (bin_key b) (add_counts (bin_count b) c)]> s
  | inr i => merge_sorted s [mkBin k c] = take i s ++ mkBin k c :: drop i s
  end.
Proof.
  induction s as [|b s IH]; intros Ha; [done|].
  apply ascending_cons in Ha as [Ha Hb]. specialize (IH Ha). cbn [search_bins].
  rewrite merge_sorted_cons. cbn [bin_key bin_count].
  destruct (Z.compare_spec (bin_key b) k) as [He|He|He].
  - exists b. split; [done|]. by rewrite merge_sorted_nil_r.
  - destruct (search_bins s k) as [i|i].
    + destruct IH as (b' & Hi & Hm). exists b'. split; [done|]. by rewrite Hm.
    + by rewrite IH.
  - by rewrite merge_sorted_nil_r.
Qed.

Lemma insert_bin_merge s k c limit :
  ascending s -> Z.of_nat (length s) <= limit ->
  insert_bin s k c limit = merge_bins s [mkBin k c] limit.
Proof.
  intros Ha Hl. unfold insert_bin, merge_bins. pose proof (search_merge s k c Ha) as Hs.
  destruct (search_bins s k) as [i|i].
  - destruct Hs as (b & Hi & ->). rewrite Hi, collapse_id; [done|]. by rewrite length_insert.
  - by rewrite Hs.
Qed.

Lemma insert_bin_ok keys limit s k c :
  1 < limit -> store_ok keys limit s -> keys k = true -> weight c ->
  store_ok keys limit (insert_bin s k c limit).
Proof.
  intros Hl Hs Hk Hc. rewrite insert_bin_merge by apply Hs. apply merge_bins_ok; [lia|done|].
  constructor; [|by constructor|simpl; lia]. apply ascending_cons. split; constructor.
Qed.

(** ** Normalizing decoded bins *)

Lemma retained_weight b : u64 (bin_count b) -> retained b = true -> weight (bin_count b).
Proof. intros Hu Hr. apply andb_true_iff in Hr as [H1 H2]. by apply f64_positive_bits. Qed.

Lemma weight_retained b : weight (bin_count b) -> retained b = true.
Proof.
  intros Hw. unfold retained, weight in *.
  by rewrite f64_is_finite_plain, f64_positive_plain by lia.
Qed.

Lemma sort_insert_Forall P x s : P x -> Forall P s -> Forall P (sort_insert x s).
Proof.
  intros Hx Hs. induction Hs as [|y s Hy Hs IH]; simpl; [by constructor|].
  case_match; by repeat constructor.
Qed.

Lemma sort_insert_sorted x s :
  StronglySorted Z.le (map bin_key s) -> StronglySorted Z.le (map bin_key (sort_insert x s)).
Proof.
  induction s as [|y s IH]; simpl; intros Hs; [by repeat constructor|].
  apply StronglySorted_inv in Hs as Hs'. destruct Hs' as [Hs1 Hs2].
  destruct (Z.leb_spec (bin_key x) (bin_key y)); simpl.
  - constructor; [done|]. constructor; [done|]. eapply Forall_impl; [exact Hs2|]. simpl. lia.
  - constructor; [by apply IH|]. rewrite Forall_map in *.
    apply sort_insert_Forall; simpl; [lia|done].
Qed.

Lemma sort_by_key_ok P s :
  Forall P s -> StronglySorted Z.le (map bin_key (sort_by_key s)) /\ Forall P (sort_by_key s).
Proof.
  induction 1 as [|x s Hx Hs IH]; simpl; [by repeat constructor|]. destruct IH as [IH1 IH2].
  split; [by apply sort_insert_sorted|by apply sort_insert_Forall].
Qed.

Lemma ascending_snoc s b :
  ascending (s ++ [b]) <-> ascending s /\ Forall (fun c => bin_key c < bin_key b) s.
Proof.
  rewrite ascending_app. split.
  - intros (H1 & _ & H3). split; [done|]. eapply Forall_impl; [exact H3|].
    intros c Hc. by apply Forall_cons in Hc as [Hc _].
  - intros [H1 H2]. split_and!; [done|apply ascending_cons; by repeat constructor|].
    eapply Forall_impl; [exact H2|]. intros c Hc. by repeat constructor.
Qed.

(** The loop keeps the vector ascending and below the bins to come. *)
Lemma fold_repeated_ok keys bins out :
  StronglySorted Z.le (map bin_key bins) -> Forall (bin_ok keys) bins ->
  ascending (rev out) -> Forall (bin_ok keys) out ->
  (forall last out', out = last :: out' -> Forall (fun b => bin_key last <= bin_key b) bins) ->
  ascending (rev (fold_left fold_repeated bins out)) /\
  Forall (bin_ok keys) (fold_left fold_repeated bins out).
Proof.
  revert out. induction bins as [|bin bins IH]; intros out Hs Hb Ha Ho Hlast; [done|]. simpl.
  simpl in Hs. apply StronglySorted_inv in Hs as [Hs1 Hs2]. rewrite Forall_map in Hs2.
  apply Forall_cons in Hb as [Hb1 Hb2].
  destruct out as [|last out']; simpl.
  { apply IH; [done|done|by apply ascending_cons|by constructor|]. by intros ? ? [= <- <-]. }
  specialize (Hlast _ _ eq_refl). apply Forall_cons in Hlast as [Hl1 Hl2].
  apply Forall_cons in Ho as Ho'. destruct Ho' as [[Hk1 Hk2] Ho'].
  pose proof Ha as Ha'. simpl in Ha'. apply ascending_snoc in Ha' as [Ha1 Ha2].
  destruct (Z.eqb_spec (bin_key last) (bin_key bin)) as [He|He]; (apply IH; [done|done| | |]).
  - simpl. by apply ascending_snoc.
  - constructor; [|done]. split; [done|]. destruct Hb1 as [_ Hb1]. simpl. unfold weight in *.
    apply add_counts_weight; [by apply weight_weight0..|lia].
  - by intros ? ? [= <- <-].
  - change (rev (bin :: last :: out')) with (rev (last :: out') ++ [bin]).
    apply ascending_snoc. split; [done|]. simpl. apply Forall_app. split.
    + eapply Forall_impl; [exact Ha2|]. simpl. lia.
    + repeat constructor. lia.
  - by constructor.
  - by intros ? ? [= <- <-].
Qed.

(** Whatever bins arrive, what is kept is a store. *)
Lemma normalize_bins_ok keys limit bins :
  0 < limit -> Forall (fun b => keys (bin_key b) = true /\ u64 (bin_count b)) bins ->
  store_ok keys limit (normalize_bins bins limit).
Proof.
  intros Hl Hb. unfold normalize_bins.
  destruct (sort_by_key_ok (bin_ok keys) (List.filter retained bins)) as [H1 H2].
  { apply Forall_forall. intros b Hin. apply list_elem_of_In, List.filter_In in Hin as [Hin Hr].
    rewrite Forall_forall in Hb. destruct (Hb b) as [Hk Hu]; [by apply list_elem_of_In|].
    split; [done|]. by apply retained_weight. }
  destruct (fold_repeated_ok keys _ [] H1 H2) as [H3 H4]; [constructor|constructor|done|].
  apply collapse_ok; [done..|]. by apply Forall_rev.
Qed.

Lemma fold_repeated_id bins out :
  ascending (rev out ++ bins) -> fold_left fold_repeated bins out = rev bins ++ out.
Proof.
  revert out. induction bins as [|bin bins IH]; intros out Ha; [done|]. simpl.
  assert (fold_repeated out bin = bin :: out) as ->.
  { destruct out as [|last out']; [done|]. simpl in *. apply ascending_app in Ha as (_ & _ & Ha).
    apply Forall_app in Ha as [_ Ha]. apply Forall_cons in Ha as [Ha _].
    apply Forall_cons in Ha as [Ha _]. by rewrite (proj2 (Z.eqb_neq _ _)) by lia. }
  rewrite IH; [by rewrite <- app_assoc|]. simpl. by rewrite <- app_assoc.
Qed.

Lemma sort_by_key_id s : ascending s -> sort_by_key s = s.
Proof.
  induction s as [|b s IH]; [done|]. rewrite ascending_cons. intros [Ha Hb]. simpl. rewrite IH by done.
  destruct Hb as [|c s Hc _]; [done|]. simpl. by rewrite (proj2 (Z.leb_le _ _)) by lia.
Qed.

(** A store is normal already. *)
Lemma normalize_bins_id keys limit s : store_ok keys limit s -> normalize_bins s limit = s.
Proof.
  intros [Ha Hb Hl]. unfold normalize_bins.
  assert (List.filter retained s = s) as ->.
  { clear Ha Hl. induction Hb as [|b s [_ Hw] _ IH]; [done|]. simpl. by rewrite weight_retained, IH. }
  rewrite sort_by_key_id, fold_repeated_id, app_nil_r, rev_involutive by done. by apply collapse_id.
Qed.

(** ** Reading back what was written *)

Lemma preads_f64 v : u64 v -> preads blob_f64 (to_le_bytes 8 v) v.
Proof. apply (preads_le SkTruncated 8). Qed.

Lemma preads_u32 v : u32 v -> preads blob_u32 (to_le_bytes 4 v) v.
Proof. apply (preads_le SkTruncated 4). Qed.

Lemma preads_u8 v : u8 v -> preads blob_u8 [z2b v] v.
Proof. apply preads_byte. Qed.

(** The continuation byte, as this file writes it. *)
Lemma lor_mod_256 v : Z.lor (v mod 256) 0x80 = v mod 128 + 128.
Proof.
  rewrite <- lor_80 by (apply Z.mod_pos_bound; lia).
  change 256 with (2 ^ 8). change 128 with (2 ^ 7) at 1. change 0x80 with (2 ^ 7).
  rewrite <- !Z.land_ones by lia. apply Z.bits_inj'. intros n Hn.
  rewrite !Z.lor_spec, !Z.land_spec, !Z.testbit_ones_nonneg, Z.pow2_bits_eqb by lia.
  destruct (Z.eqb_spec 7 n); [by rewrite !orb_true_r|]. f_equal. f_equal.
  destruct (Z.ltb_spec n 8), (Z.ltb_spec n 7); lia.
Qed.

(** The two varint writers write the same bytes. *)
Lemma write_uvarint_while_eq n v : 0 <= v -> write_uvarint_while n v = write_uvarint_loop n v.
Proof.
  revert v. induction n as [|n IH]; intros v Hv; [done|].
  rewrite write_uvarint_loop_S. cbn [write_uvarint_while].
  pose proof (Z.div_mod v 128 ltac:(lia)). pose proof (Z.mod_pos_bound v 128 ltac:(lia)).
  pose proof (Z.div_pos v 128 ltac:(lia) ltac:(lia)).
  rewrite lor_mod_256, shiftr_7, IH by lia.
  destruct (Z.leb_spec 0x80 v), (Z.eqb_spec (v / 128) 0); try lia; [done|].
  do 2 f_equal. lia.
Qed.

(** What the payload's varint reader accepts, this one reads the same way. *)
Lemma blob_uvarint_loop_reads n i acc bs b v rest b' :
  read_uvarint_loop n i acc bs b = (Ok (v, rest), b') ->
  blob_uvarint_loop n (i * 7) acc bs = inr (v, rest).
Proof.
  revert i acc bs. induction n as [|n IH]; intros i acc bs H; [done|].
  cbn [read_uvarint_loop] in H. destruct bs as [|x bs]; [done|].
  cbn [blob_uvarint_loop]. unfold pbind at 1. unfold blob_u8. rewrite ple_cons.
  destruct (Z.land (b2z x) 0x80 =? 0).
  - case_match; [done|]. by injection H as -> -> _.
  - replace (i * 7 + 7) with ((i + 1) * 7) by lia. by apply IH.
Qed.

Lemma preads_uvarint v : u64 v -> preads blob_uvarint (sketch_write_uvarint v) v.
Proof.
  intros Hv rest. unfold sketch_write_uvarint, blob_uvarint.
  rewrite write_uvarint_while_eq by (destruct Hv; lia).
  eapply (blob_uvarint_loop_reads 10 0 0 _ default_budget).
  rewrite read_uvarint_loop_written by (destruct Hv; simpl in *; lia). do 3 f_equal. lia.
Qed.

Definition i32_key (k : Z) : Prop := - 2 ^ 31 <= k <= 2 ^ 31 - 1.

Lemma key_range_i32 m k : key_range m k = true -> i32_key k.
Proof.
  unfold key_range, i32_key. case_match; rewrite andb_true_iff, !Z.leb_le; lia.
Qed.

Lemma preads_bins_loop keys previous bins :
  (forall k, keys k = true -> i32_key k) ->
  i32_key previous -> Forall (bin_ok keys) bins ->
  preads (read_bins_loop keys (length bins) previous) (write_bins_loop previous bins) bins.
Proof.
  intros Hkeys. revert previous. induction bins as [|bin bins IH]; intros previous Hp Hb; [done|].
  apply Forall_cons in Hb as [[Hk Hw] Hb]. pose proof (Hkeys _ Hk) as Hi.
  cbn [length read_bins_loop write_bins_loop].
  assert (i64 (bin_key bin - previous)) as Hd by (unfold i32_key, signed in *; lia).
  eapply preads_bind; [apply preads_uvarint, (zigzag_encode_u64 _ Hd)|]. cbv zeta.
  change (Z.lxor (swrap 64 (Z.shiftr ?u 1)) (- swrap 64 (Z.land ?u 1))) with (zigzag_decode u).
  change (uwrap 64 (Z.lxor (swrap 64 (Z.shiftl ?d 1)) (Z.shiftr ?d 63))) with (zigzag_encode d).
  rewrite zigzag_decode_encode by done.
  replace (previous + (bin_key bin - previous)) with (bin_key bin) by lia.
  apply preads_guard; [unfold i32_key in Hi; rewrite andb_true_iff, !Z.leb_le; lia|].
  apply preads_guard; [unfold i32_key in Hi; rewrite !andb_true_iff, !Z.leb_le; split; [lia|done]|].
  eapply preads_bind; [apply preads_f64; unfold weight, F64_INF, unsigned in *; lia|].
  rewrite <- (app_nil_r (write_bins_loop _ _)).
  eapply preads_bind; [by apply IH|]. destruct bin. apply preads_ret.
Qed.

Lemma preads_bins len keys bins :
  (forall k, keys k = true -> i32_key k) -> Forall (bin_ok keys) bins ->
  Z.of_nat (length bins) < 2 ^ 64 -> 9 * Z.of_nat (length bins) <= len ->
  preads (read_bins len keys) (write_bins bins) bins.
Proof.
  intros Hkeys Hb Hn Hlen. unfold read_bins, write_bins.
  eapply preads_bind; [apply preads_uvarint; unfold unsigned; lia|].
  apply preads_guard; [apply Z.leb_le, Z.div_le_lower_bound; lia|].
  rewrite Nat2Z.id. apply preads_bins_loop; [done|unfold i32_key; lia|done].
Qed.

(** A bin takes at least nine bytes. *)
Lemma blen_sketch_write_uvarint v : 1 <= blen (sketch_write_uvarint v).
Proof.
  unfold sketch_write_uvarint. cbn [write_uvarint_while]. pose proof blen_nonneg.
  case_match; rewrite blen_cons; [|rewrite blen_nil; lia]. match goal with |- _ <= 1 + blen ?l => specialize (H l) end. lia.
Qed.

Lemma blen_write_bins bins : 1 + 9 * Z.of_nat (length bins) <= blen (write_bins bins).
Proof.
  unfold write_bins. rewrite blen_app. pose proof (blen_sketch_write_uvarint (Z.of_nat (length bins))).
  enough (forall p, 9 * Z.of_nat (length bins) <= blen (write_bins_loop p bins)) as Hl by (specialize (Hl 0); lia).
  clear. induction bins as [|bin bins IH]; intros p; [done|]. cbn [write_bins_loop length].
  rewrite !blen_app, blen_to_le_bytes. specialize (IH (bin_key bin)).
  match goal with |- context [blen (sketch_write_uvarint ?v)] => pose proof (blen_sketch_write_uvarint v) end. lia.
Qed.

(** ** What a successful read returned *)

Lemma pgives_f64 : pgives blob_f64 (fun v => u64 v).
Proof. apply (pgives_le SkTruncated 8). Qed.

Lemma pgives_u32 : pgives blob_u32 (fun v => u32 v).
Proof. apply (pgives_le SkTruncated 4). Qed.

Lemma pgives_bins_loop keys n previous :
  pgives (read_bins_loop keys n previous)
    (fun bins => length bins = n /\ Forall (fun b => keys (bin_key b) = true /\ u64 (bin_count b)) bins).
Proof.
  revert previous. induction n as [|n IH]; intros previous; [by apply pgives_ret|].
  cbn [read_bins_loop]. eapply pgives_bind; [apply pgives_any|]. intros zz _. cbv zeta.
  apply pgives_guard. intros _. apply pgives_guard. intros Hk.
  apply andb_true_iff in Hk as [_ Hk].
  eapply pgives_bind; [apply pgives_f64|]. intros c Hc.
  eapply pgives_bind; [apply IH|]. intros bins [Hl Hb]. apply pgives_ret.
  split; [by simpl; rewrite Hl|by constructor].
Qed.

Lemma pgives_bins len keys :
  pgives (read_bins len keys)
    (fun bins => Z.of_nat (length bins) <= Z.max 0 (len / 9) /\
                 Forall (fun b => keys (bin_key b) = true /\ u64 (bin_count b)) bins).
Proof.
  unfold read_bins. eapply pgives_bind; [apply pgives_any|]. intros n _.
  apply pgives_guard. intros Hn%Z.leb_le. intros bs bins rest H.
  apply pgives_bins_loop in H as [Hl Hb]. split; [lia|done].
Qed.

(** ** Well-formed sketches *)

#[global] Instance Mapping_eq_dec : EqDecision Mapping.
Proof. solve_decision. Defined.

Fixpoint ascendingb (s : store) : bool :=
  match s with
  | [] => true
  | b :: s => forallb (fun c => bin_key b <? bin_key c) s && ascendingb s
  end.

Definition weightb (x : f64) : bool := (0 <? x) && (x <? F64_INF).

Definition store_okb (keys : Z -> bool) (limit : Z) (s : store) : bool :=
  ascendingb s && forallb (fun b => keys (bin_key b) && weightb (bin_count b)) s &&
  (Z.of_nat (length s) <=? limit).

Definition u64b (x : Z) : bool := (0 <=? x) && (x <? 2 ^ 64).

Lemma u64b_spec x : u64b x = true <-> u64 x.
Proof. unfold u64b, unsigned. rewrite andb_true_iff, Z.leb_le, Z.ltb_lt. done. Qed.

Lemma store_okb_spec keys limit s : store_okb keys limit s = true <-> store_ok keys limit s.
Proof.
  unfold store_okb. rewrite !andb_true_iff, Z.leb_le.
  assert (ascendingb s = true <-> ascending s) as ->.
  { induction s as [|b s IH]; [split; [constructor|done]|]. simpl.
    rewrite ascending_cons, andb_true_iff, IH, List.forallb_forall, Forall_forall.
    setoid_rewrite Z.ltb_lt. setoid_rewrite list_elem_of_In. tauto. }
  assert (forallb (fun b => keys (bin_key b) && weightb (bin_count b)) s = true <->
          Forall (bin_ok keys) s) as ->.
  { rewrite List.forallb_forall, Forall_forall. setoid_rewrite list_elem_of_In.
    unfold bin_ok, weight, weightb. setoid_rewrite andb_true_iff. setoid_rewrite andb_true_iff.
    setoid_rewrite Z.ltb_lt. done. }
  split; [intros [[H1 H2] H3]; by constructor|intros [H1 H2 H3]; by repeat split].
Qed.

Section WellFormed.
Context `{M : Libm}.

(** A mapping one of the constructors made. *)
Definition mapping_ok (m : Mapping) : bool :=
  bool_decide (m = agent) ||
  (bool_decide (try_logarithmic (gamma m) (offset m) (bin_limit m) = Some m) &&
   u64b (gamma m) && u64b (offset m)).

(** The summary is one [from_parts] takes as written, or the one it would derive. *)
Definition stats_settled (s : DdSketch) : bool :=
  (f64_is_finite (sk_count s) && f64_leb 0 (sk_count s)) ||
  bool_decide (stored_stats s = stored_stats (derive_stats s)).

(** The mapping, the two stores and the zero count: what every operation keeps. *)
Definition bins_wf (s : DdSketch) : bool :=
  let m := sk_mapping s in
  mapping_ok m && store_okb (key_range m) (bin_limit m) (sk_positive s) &&
  store_okb (key_range m) (bin_limit m) (sk_negative s) &&
  ((0 <=? sk_zero_count s) && (sk_zero_count s <? F64_INF)).

Definition sketch_wf (s : DdSketch) : bool :=
  bins_wf s && (u64b (sk_count s) && u64b (sk_min s) && u64b (sk_max s) && u64b (sk_sum s)) &&
  stats_settled s.

Lemma mapping_limit m : mapping_ok m = true -> 2 <= bin_limit m <= MAX_BIN_LIMIT.
Proof.
  unfold mapping_ok. rewrite orb_true_iff, !andb_true_iff, !bool_decide_eq_true.
  intros [->|[[Hm _] _]]; [done|]. unfold try_logarithmic in Hm.
  case_match eqn:Hc; [done|]. apply negb_false_iff in Hc.
  rewrite !andb_true_iff, !Z.leb_le in Hc. tauto.
Qed.

Lemma try_logarithmic_ok g o l m :
  u64 g -> u64 o -> try_logarithmic g o l = Some m -> mapping_ok m = true.
Proof.
  intros Hg Ho Hm. unfold mapping_ok. rewrite orb_true_iff. right.
  pose proof Hm as Hm'. unfold try_logarithmic in Hm. case_match; [done|]. injection Hm as <-. simpl.
  rewrite !andb_true_iff, bool_decide_eq_true, !u64b_spec. done.
Qed.

Lemma bins_wf_spec s :
  bins_wf s = true <->
  mapping_ok (sk_mapping s) = true /\
  store_ok (key_range (sk_mapping s)) (bin_limit (sk_mapping s)) (sk_positive s) /\
  store_ok (key_range (sk_mapping s)) (bin_limit (sk_mapping s)) (sk_negative s) /\
  weight0 (sk_zero_count s).
Proof.
  unfold bins_wf, weight0. rewrite !andb_true_iff, !store_okb_spec, Z.leb_le, Z.ltb_lt. tauto.
Qed.
End WellFormed.

(** ** The byte form is an inverse *)

Section ByteForm.
Context `{M : Libm}.

Lemma preads_mapping m :
  mapping_ok m = true ->
  preads read_mapping
    match kind m with
    | Agent => [z2b 0]
    | Logarithmic =>
        [z2b 1] ++ to_le_bytes 8 (gamma m) ++ to_le_bytes 8 (offset m) ++ to_le_bytes 4 (bin_limit m)
    end m.
Proof.
  intros Hm. pose proof (mapping_limit m Hm) as Hl. unfold mapping_ok in Hm.
  rewrite orb_true_iff, !andb_true_iff, !bool_decide_eq_true, !u64b_spec in Hm.
  destruct Hm as [->|[[Hm Hg] Ho]].
  - rewrite <- (app_nil_r [_]). by eapply preads_bind; [by apply preads_u8|].
  - assert (kind m = Logarithmic) as ->.
    { unfold try_logarithmic in Hm. case_match; [done|]. by injection Hm as <-. }
    eapply preads_bind; [by apply preads_u8|]. cbn [Z.eqb Pos.eqb].
    eapply preads_bind; [by apply preads_f64|]. eapply preads_bind; [by apply preads_f64|].
    rewrite <- (app_nil_r (to_le_bytes 4 _)).
    eapply preads_bind; [apply preads_u32; unfold unsigned in *; lia|].
    rewrite Hm. apply preads_ret.
Qed.

(** [from_stored] on the parts of a well-formed sketch. *)
Lemma from_stored_id s :
  sketch_wf s = true ->
  from_stored (sk_mapping s) (sk_positive s) (sk_negative s) (sk_zero_count s) (stored_stats s)
    (sk_exact_stats s) = s.
Proof.
  unfold sketch_wf. rewrite !andb_true_iff. intros [[Hb _] Hst].
  apply bins_wf_spec in Hb as (_ & Hp & Hn & Hz).
  unfold from_stored, from_parts. rewrite (normalize_bins_id _ _ _ Hp), (normalize_bins_id _ _ _ Hn).
  assert ((if f64_is_finite (sk_zero_count s) && f64_ltb 0 (sk_zero_count s) then sk_zero_count s else 0) =
          sk_zero_count s) as ->.
  { unfold weight0 in Hz. rewrite f64_is_finite_plain by done. simpl.
    destruct (Z.eq_dec (sk_zero_count s) 0) as [->|]; [done|]. by rewrite f64_positive_plain by lia. }
  unfold stats_settled in Hst. apply orb_true_iff in Hst. simpl.
  destruct (f64_is_finite (sk_count s) && f64_leb 0 (sk_count s)); [by destruct s|].
  destruct Hst as [Hst|Hst%bool_decide_eq_true]; [done|].
  unfold stored_stats in Hst. injection Hst as H1 H2 H3 H4. unfold set_exact_stats.
  destruct s as [m p n z c mi ma su ex]. simpl in *. by rewrite <- H1, <- H2, <- H3, <- H4.
Qed.

(** The parts a decoder makes a sketch of are the ones that were written. *)
Lemma preads_sketch len s :
  bins_wf s = true -> u64 (sk_count s) -> u64 (sk_min s) -> u64 (sk_max s) -> u64 (sk_sum s) ->
  blen (sketch_to_bytes s) <= len ->
  preads (read_sketch len) (sketch_to_bytes s)
    (from_stored (sk_mapping s) (sk_positive s) (sk_negative s) (sk_zero_count s) (stored_stats s)
      (sk_exact_stats s)).
Proof.
  intros Hb Hc Hmi Hma Hsu Hlen. apply bins_wf_spec in Hb as (Hm & [_ Hp Hpl] & [_ Hn Hnl] & Hz).
  assert (u64 (sk_zero_count s)) as Hzu by (unfold weight0, unsigned, F64_INF in *; lia).
  pose proof (mapping_limit _ Hm) as Hl.
  assert (9 * Z.of_nat (length (sk_positive s)) <= len /\ 9 * Z.of_nat (length (sk_negative s)) <= len) as [H1 H2].
  { unfold sketch_to_bytes in Hlen. rewrite !blen_app in Hlen.
    pose proof (blen_write_bins (sk_positive s)). pose proof (blen_write_bins (sk_negative s)).
    repeat match type of Hlen with
    | context [blen ?l] =>
        lazymatch goal with H : 0 <= blen l |- _ => fail | _ => pose proof (blen_nonneg l) end
    end.
    lia. }
  unfold read_sketch, sketch_to_bytes.
  eapply preads_bind; [by apply preads_u8|]. apply preads_guard; [done|].
  eapply preads_bind; [by apply preads_mapping|].
  eapply preads_bind; [apply preads_u8; by destruct (sk_exact_stats s)|].
  cbn [map concat]. rewrite app_nil_r, <- !app_assoc.
  do 5 (eapply preads_bind; [by apply preads_f64|]). cbv zeta.
  eapply preads_bind; [apply preads_bins; [apply key_range_i32|done|lia|done]|].
  rewrite <- (app_nil_r (write_bins (sk_negative s))).
  eapply preads_bind; [apply preads_bins; [apply key_range_i32|done|lia|done]|].
  replace (negb (Z.b2z (sk_exact_stats s) =? 0)) with (sk_exact_stats s) by by destruct (sk_exact_stats s).
  apply preads_ret.
Qed.

Lemma sketch_from_to_parts s :
  bins_wf s = true -> u64 (sk_count s) -> u64 (sk_min s) -> u64 (sk_max s) -> u64 (sk_sum s) ->
  sketch_from_bytes (sketch_to_bytes s) =
  inr (from_stored (sk_mapping s) (sk_positive s) (sk_negative s) (sk_zero_count s) (stored_stats s)
    (sk_exact_stats s)).
Proof.
  intros Hb Hc Hmi Hma Hsu.
  pose proof (preads_sketch (blen (sketch_to_bytes s)) s Hb Hc Hmi Hma Hsu ltac:(lia) []) as Hr.
  rewrite app_nil_r in Hr. unfold sketch_from_bytes. by rewrite Hr.
Qed.

Lemma sketch_from_to s : sketch_wf s = true -> sketch_from_bytes (sketch_to_bytes s) = inr s.
Proof.
  intros Hwf. rewrite <- (from_stored_id s Hwf) at 2. unfold sketch_wf in Hwf.
  rewrite !andb_true_iff, !u64b_spec in Hwf. apply sketch_from_to_parts; tauto.
Qed.
End ByteForm.

(** ** Decoding any blob *)

Section Decoded.
Context {M : Libm} {MO : LibmOk M}.
#[local] Set Default Proof Using "Type*".

Lemma representative_u64 m k : u64 (representative m k).
Proof.
  unfold representative, lower_bound. destruct (kind m); [|apply f64_mul_u64].
  case_match; [by compute|apply powf_u64].
Qed.

Definition stats_u64 (st : SketchStats) : Prop :=
  u64 (st_count st) /\ u64 (st_min st) /\ u64 (st_max st) /\ u64 (st_sum st).

Lemma derive_bins_u64 value bins st :
  (forall k, u64 (value k)) -> Forall (fun b => u64 (bin_count b)) bins -> stats_u64 st ->
  stats_u64 (fold_left (derive_bin value) bins st).
Proof.
  intros Hv Hb. revert st. induction Hb as [|b bins Hb _ IH]; intros st (H1 & H2 & H3 & H4); [done|].
  simpl. apply IH. unfold stats_u64, derive_bin. simpl.
  split_and!; auto using f64_add_u64, f64_min_u64, f64_max_u64, f64_mul_u64.
Qed.

Lemma store_counts_u64 keys limit s : store_ok keys limit s -> Forall (fun b => u64 (bin_count b)) s.
Proof.
  intros [_ Hb _]. eapply Forall_impl; [exact Hb|]. intros b [_ Hw].
  unfold weight, unsigned, F64_INF in *. lia.
Qed.

Lemma derive_stats_u64 s : bins_wf s = true -> stats_u64 (stored_stats (derive_stats s)).
Proof.
  intros (_ & Hp & Hn & Hz)%bins_wf_spec. unfold derive_stats, stored_stats. simpl.
  match goal with |- stats_u64 {| st_count := st_count ?x; st_min := _; st_max := _; st_sum := _ |} =>
    enough (stats_u64 x) by done end.
  apply derive_bins_u64; [intros; by apply f64_neg_u64, representative_u64|by eapply store_counts_u64|].
  apply derive_bins_u64; [apply representative_u64|by eapply store_counts_u64|].
  unfold stats_u64, weight0, unsigned, F64_INF in *. simpl. split; [lia|]. by case_match.
Qed.

(** [from_stored] makes a well-formed sketch of any decoded parts. *)
Lemma from_stored_wf m p n z st ex :
  mapping_ok m = true ->
  Forall (fun b => key_range m (bin_key b) = true /\ u64 (bin_count b)) p ->
  Forall (fun b => key_range m (bin_key b) = true /\ u64 (bin_count b)) n ->
  u64 z -> stats_u64 st -> sketch_wf (from_stored m p n z st ex) = true.
Proof.
  intros Hm Hp Hn Hz Hst. pose proof (mapping_limit m Hm) as Hl.
  set (p' := normalize_bins p (bin_limit m)). set (n' := normalize_bins n (bin_limit m)).
  set (z' := if f64_is_finite z && f64_ltb 0 z then z else 0).
  assert (forall c mi ma su e, bins_wf (mkDdSketch m p' n' z' c mi ma su e) = true) as Hb.
  { intros. apply bins_wf_spec. simpl. split_and!; [done|apply normalize_bins_ok; [lia|done]..|].
    unfold z'. destruct (f64_is_finite z && f64_ltb 0 z) eqn:Hc; [|by compute].
    apply andb_true_iff in Hc as [Hc1 Hc2]. apply weight_weight0. by apply f64_positive_bits. }
  unfold from_stored, from_parts. fold p' n' z'. destruct Hst as (H1 & H2 & H3 & H4).
  unfold sketch_wf. rewrite !andb_true_iff, !u64b_spec.
  destruct (f64_is_finite (st_count st) && f64_leb 0 (st_count st)) eqn:Hc.
  - split; [by split; [apply Hb|]|]. unfold stats_settled. simpl. by rewrite Hc.
  - set (s0 := mkDdSketch m p' n' z' 0 F64_INF F64_NEG_INF 0 true).
    pose proof (derive_stats_u64 s0 (Hb _ _ _ _ _)) as (D1 & D2 & D3 & D4).
    split; [split; [apply Hb|by split_and!]|]. unfold stats_settled. apply orb_true_iff. right.
    by apply bool_decide_eq_true.
Qed.

Lemma pgives_mapping : pgives read_mapping (fun m => mapping_ok m = true).
Proof.
  eapply pgives_bind; [apply pgives_any|]. intros tag _.
  case_match; [apply pgives_ret; by unfold mapping_ok; rewrite bool_decide_true|].
  case_match; [|apply pgives_fail].
  eapply pgives_bind; [apply pgives_f64|]. intros g Hg.
  eapply pgives_bind; [apply pgives_f64|]. intros o Ho.
  eapply pgives_bind; [apply pgives_any|]. intros l _.
  destruct (try_logarithmic g o l) eqn:Hm; [|apply pgives_fail].
  apply pgives_ret. simpl in Hg, Ho. exact (try_logarithmic_ok g o l m Hg Ho Hm).
Qed.

Lemma pgives_sketch len : pgives (read_sketch len) (fun s => sketch_wf s = true).
Proof.
  eapply pgives_bind; [apply pgives_any|]. intros v _. apply pgives_guard. intros _.
  eapply pgives_bind; [apply pgives_mapping|]. intros m Hm.
  eapply pgives_bind; [apply pgives_any|]. intros ex _.
  do 5 (eapply pgives_bind; [apply pgives_f64|]; intros ? ?). cbv zeta.
  do 2 (eapply pgives_bind; [apply pgives_bins|]; intros ? [_ ?]).
  apply pgives_ret. by apply from_stored_wf.
Qed.

Lemma sketch_from_bytes_wf bs s : sketch_from_bytes bs = inr s -> sketch_wf s = true.
Proof.
  unfold sketch_from_bytes. destruct (read_sketch (blen bs) bs) as [e|[s' [|x rest]]] eqn:Hr; [done| |done].
  intros [= <-]. by eapply pgives_sketch.
Qed.
End Decoded.
