(* ===== verification/SketchOps.v ===== *)
(** * The quantile sketch: what its operations keep

    Every sketch built by adding values and merging ([built]) keeps its stores well formed and its
    summary in order, whatever the mathematical library returns within its contract; so it goes
    over the wire unchanged, and its quantiles lie between its minimum and its maximum. *)

From S2P Require Import Prelude Codec Budget Reader Varint Float Parse Sketch SketchStore.

Section Ops.
Context {M : Libm} {MO : LibmOk M}.
#[local] Set Default Proof Using "Type*".

(** ** Keys stay in the mapping's range *)

(** The Agent's bias is 1338, whichever way the library rounds the two logarithms. *)
Lemma agent_offset : offset agent = 0x4094e80000000000 /\ 0 < gamma_ln agent < F64_INF.
Proof.
  unfold agent. cbn [offset gamma_ln].
  assert (f64_div F64_ONE (f64_of_Z 64) = 0x3f90000000000000) as -> by by vm_compute.
  pose proof ln_1p_64th as H1. pose proof ln_1e_9 as H2.
  generalize dependent (ln_1p 0x3f90000000000000). generalize dependent (ln 0x3e112e0be826d695).
  intros l Hl g Hg. split; [|unfold F64_INF; lia].
  assert (l = 0xc034b927f32bffb7 \/ l = 0xc034b927f32bffb8 \/ l = 0xc034b927f32bffb9) as Hl' by lia.
  assert (g = 0x3f8fc0a8b0fc03e3 \/ g = 0x3f8fc0a8b0fc03e4 \/ g = 0x3f8fc0a8b0fc03e5) as Hg' by lia.
  clear Hl Hg. destruct Hl' as [->|[->| ->]], Hg' as [->|[->| ->]]; by vm_compute.
Qed.

Lemma ln_number x : 0 <= x < F64_INF -> f64_is_nan (ln x) = false.
Proof.
  intros Hx. destruct (Z.eq_dec x 0) as [->|]; [apply ln_zero|]. apply f64_finite_not_nan, ln_finite. lia.
Qed.

Lemma key_ok m x : mapping_ok m = true -> 0 <= x < F64_INF -> key_range m (key m x) = true.
Proof.
  intros Hm Hx. unfold key_range, key. destruct (kind m) eqn:Hk.
  - assert (m = agent) as ->.
    { unfold mapping_ok in Hm. apply orb_true_iff in Hm as [Hm|Hm]; [by apply bool_decide_eq_true in Hm|].
      rewrite !andb_true_iff, bool_decide_eq_true in Hm. destruct Hm as [[Hm _] _].
      unfold try_logarithmic in Hm. case_match; [done|]. assert (kind m = Logarithmic) by (by injection Hm as <-). congruence. }
    destruct agent_offset as [-> Hg].
    set (i := f64_add _ _).
    assert (f64_is_nan i = false) as Hi.
    { apply f64_add_number; [|by vm_compute]. apply f64_round_ties_even_number.
      apply f64_div_number; [by apply ln_number|done]. }
    assert (u64 i) as Hu.
    { apply f64_add_u64; [apply f64_round_ties_even_u64, f64_div_u64|by vm_compute]. }
    clearbody i. replace (f64_of_Z AGENT_MAX_KEY) with 0x40dfff8000000000 by by vm_compute.
    rewrite !f64_ltb_rank by done. change (f64_rank 0x40dfff8000000000) with 0x40dfff8000000000. change (f64_rank F64_ONE) with F64_ONE.
    case_match eqn:H1; [done|]. case_match eqn:H2; [done|]. apply Z.ltb_ge in H1, H2.
    pose proof (f64_as_int_between (- 2 ^ 31) (2 ^ 31 - 1) i F64_ONE 0x40dfff8000000000) as Hb.
    replace (mag_int F64_ONE / F64_UNIT) with 1 in Hb by by vm_compute.
    replace (mag_int 0x40dfff8000000000 / F64_UNIT) with 32766 in Hb by by vm_compute.
    change (f64_rank 0x40dfff8000000000) with 0x40dfff8000000000 in Hb. change (f64_rank F64_ONE) with F64_ONE in Hb.
    unfold f64_as_i32. rewrite andb_true_iff, !Z.leb_le.
    unfold F64_ONE, F64_INF in *. destruct Hb; [lia..|done|done|lia|lia|lia].
  - rewrite andb_true_iff, !Z.leb_le.
    pose proof (f64_as_int_range (- 2 ^ 31) (2 ^ 31 - 1) (f64_add (f64_div (ln x) (gamma_ln m)) (offset m)) ltac:(lia)).
    unfold f64_as_i32. case_match; lia.
Qed.

(** ** Representatives are not negative *)

Lemma mapping_gamma m : mapping_ok m = true -> 0 < gamma m < F64_INF.
Proof.
  unfold mapping_ok. rewrite orb_true_iff, !andb_true_iff, !bool_decide_eq_true, !u64b_spec.
  intros [->|[[Hm Hg] _]]; [by compute|]. unfold try_logarithmic in Hm.
  case_match eqn:Hc; [done|]. apply negb_false_iff in Hc. rewrite !andb_true_iff in Hc.
  destruct Hc as [[[Hf Hl] _] _]. apply f64_positive_bits; [done..|].
  pose proof (f64_finite_not_nan _ Hf). rewrite f64_ltb_rank in Hl |- * by (done || by compute).
  apply Z.ltb_lt in Hl. apply Z.ltb_lt. change (f64_rank F64_ONE) with F64_ONE in Hl. change (f64_rank 0) with 0.
  unfold F64_ONE in Hl. lia.
Qed.

Lemma representative_unsigned m k : mapping_ok m = true -> unsigned_or_nan (representative m k).
Proof.
  intros Hm. pose proof (mapping_gamma m Hm) as Hg.
  assert (unsigned_or_nan (gamma m)) by (right; lia).
  unfold representative, lower_bound. destruct (kind m).
  - case_match; [right; by compute|by apply powf_unsigned].
  - apply unsigned_mul; [apply exp_unsigned|].
    apply unsigned_div; [apply unsigned_mul; [right; by vm_compute|done]|].
    apply unsigned_add; [right; by vm_compute|done].
Qed.

Lemma rebin_ok self other k :
  mapping_ok self = true -> mapping_ok other = true -> key_range self (rebin self other k) = true.
Proof.
  intros Hs Ho. unfold rebin. apply key_ok; [done|].
  case_match eqn:Hf; [|by compute]. apply unsigned_finite; [by apply representative_unsigned|done].
Qed.

(** ** The operations keep the bins *)

Lemma sketch_insert_bins s value count :
  bins_wf s = true -> f64_is_finite value = true -> weight count ->
  bins_wf (sketch_insert s value count) = true.
Proof.
  rewrite !bins_wf_spec. intros (Hm & Hp & Hn & Hz) Hv Hc. unfold sketch_insert.
  pose proof (mapping_limit _ Hm) as Hl.
  assert (key_range (sk_mapping s) (key (sk_mapping s) (f64_abs value)) = true) as Hk.
  { apply key_ok; [done|]. unfold f64_abs. unfold f64_is_finite in Hv. apply Z.ltb_lt in Hv.
    pose proof (f64_mag_range value). lia. }
  case_match; [|case_match]; simpl; split_and!; auto.
  - apply add_counts_weight0; [done|by apply weight_weight0].
  - apply insert_bin_ok; [lia|done..].
  - apply insert_bin_ok; [lia|done..].
Qed.

Lemma rebin_all_ok self other s bins :
  mapping_ok self = true -> mapping_ok other = true ->
  store_ok (key_range self) (bin_limit self) s -> Forall (fun b => weight (bin_count b)) bins ->
  store_ok (key_range self) (bin_limit self) (rebin_all self other s bins).
Proof.
  intros Hs Ho Hst Hb. unfold rebin_all. revert s Hst. induction Hb as [|b bins Hb _ IH]; intros s Hst; [done|].
  simpl. apply IH. pose proof (mapping_limit _ Hs).
  apply insert_bin_ok; [lia|done|by apply rebin_ok|done].
Qed.

Lemma store_weights keys limit s : store_ok keys limit s -> Forall (fun b => weight (bin_count b)) s.
Proof. intros [_ Hb _]. eapply Forall_impl; [exact Hb|]. by intros b [_ Hw]. Qed.

(** Equal mappings have the same keys and the same limit. *)
Lemma Mapping_eqb_range a b :
  Mapping_eqb a b = true -> key_range a = key_range b /\ bin_limit a = bin_limit b.
Proof.
  unfold Mapping_eqb, key_range. rewrite !andb_true_iff, bool_decide_eq_true, Z.eqb_eq.
  intros [[[[-> _] _] _] ->]. done.
Qed.

Lemma merge_mapping_cases self other :
  merge_mapping self other = sk_mapping self \/
  (merge_mapping self other = sk_mapping other /\ sk_positive self = [] /\ sk_negative self = []).
Proof.
  unfold merge_mapping. case_match eqn:Hc; [|by left]. right. rewrite !andb_true_iff in Hc.
  destruct Hc as [_ Hc]. by destruct (sk_positive self), (sk_negative self).
Qed.

Lemma store_ok_nil keys limit : 0 <= limit -> store_ok keys limit [].
Proof. intros Hl. constructor; [constructor|constructor|done]. Qed.

Lemma sketch_merge_bins self other :
  bins_wf self = true -> bins_wf other = true -> bins_wf (sketch_merge self other) = true.
Proof.
  rewrite !bins_wf_spec. intros (Hm & Hp & Hn & Hz) (Hm' & Hp' & Hn' & Hz'). unfold sketch_merge.
  case_match; [done|]. simpl. set (m := merge_mapping self other).
  assert (mapping_ok m = true /\ store_ok (key_range m) (bin_limit m) (sk_positive self) /\
          store_ok (key_range m) (bin_limit m) (sk_negative self)) as (Hmm & Hmp & Hmn).
  { pose proof (mapping_limit _ Hm'). destruct (merge_mapping_cases self other) as [He|(He & -> & ->)];
      unfold m; rewrite He; split_and!; try done; apply store_ok_nil; lia. }
  pose proof (mapping_limit _ Hmm). split_and!; [done| | |by apply add_counts_weight0].
  - case_match eqn:Heq.
    + apply Mapping_eqb_range in Heq as [Hr Hl']. apply merge_bins_ok; [lia|done|]. by rewrite Hr, Hl'.
    + apply rebin_all_ok; [done..|]. by eapply store_weights.
  - case_match eqn:Heq.
    + apply Mapping_eqb_range in Heq as [Hr Hl']. apply merge_bins_ok; [lia|done|]. by rewrite Hr, Hl'.
    + apply rebin_all_ok; [done..|]. by eapply store_weights.
Qed.

(** ** Built sketches *)

(** The sketches a process makes: empty ones, values added with a weight, merges. *)
Inductive built : DdSketch -> Prop :=
| built_empty m : mapping_ok m = true -> built (with_mapping m)
| built_add s value count : u64 value -> u64 count -> built s -> built (add_count s value count)
| built_merge s other : built s -> built other -> built (sketch_merge s other).

(** The summary of an empty sketch, or of one with observations: a positive count and finite
    bounds in order. *)
Definition tracked (s : DdSketch) : Prop :=
  (sk_count s = 0 /\ sk_positive s = [] /\ sk_negative s = [] /\ sk_zero_count s = 0 /\
   sk_min s = F64_INF /\ sk_max s = F64_NEG_INF) \/
  (0 < sk_count s <= F64_INF /\ f64_is_finite (sk_min s) = true /\ f64_is_finite (sk_max s) = true /\
   f64_leb (sk_min s) (sk_max s) = true).

Definition summary_u64 (s : DdSketch) : Prop :=
  u64 (sk_count s) /\ u64 (sk_min s) /\ u64 (sk_max s) /\ u64 (sk_sum s).

(** Widening a range of finite bounds by finite bounds. *)
Lemma bounds_widen min max min' max' :
  f64_is_finite min = true \/ (min = F64_INF /\ max = F64_NEG_INF) ->
  f64_is_finite max = true \/ (min = F64_INF /\ max = F64_NEG_INF) ->
  (f64_leb min max = true \/ (min = F64_INF /\ max = F64_NEG_INF)) ->
  f64_is_finite min' = true -> f64_is_finite max' = true -> f64_leb min' max' = true ->
  let lo := if f64_ltb min' min then min' else min in
  let hi := if f64_ltb max max' then max' else max in
  f64_is_finite lo = true /\ f64_is_finite hi = true /\ f64_leb lo hi = true.
Proof.
  intros H1 H2 H3 Hmin' Hmax' Hle'. cbv zeta.
  pose proof (proj1 (f64_finite_rank _) Hmin') as [Hn1 Hr1].
  pose proof (proj1 (f64_finite_rank _) Hmax') as [Hn2 Hr2].
  rewrite f64_leb_rank in Hle' by done. apply Z.leb_le in Hle'.
  destruct H3 as [H3|[-> ->]].
  - assert (f64_is_nan min = false /\ f64_is_nan max = false) as [Hn3 Hn4].
    { unfold f64_leb in H3. by destruct (f64_is_nan min), (f64_is_nan max). }
    rewrite f64_leb_rank in H3 by done. apply Z.leb_le in H3. rewrite !f64_ltb_rank by done.
    assert (f64_is_finite min = true) as Hf1 by (destruct H1 as [|[-> ->]]; done).
    assert (f64_is_finite max = true) as Hf2 by (destruct H2 as [|[-> ->]]; done).
    destruct (Z.ltb_spec (f64_rank min') (f64_rank min)), (Z.ltb_spec (f64_rank max) (f64_rank max'));
      split_and!; try done; rewrite f64_leb_rank by done; apply Z.leb_le; lia.
  - rewrite !f64_ltb_rank by (done || by compute).
    change (f64_rank F64_INF) with F64_INF. change (f64_rank F64_NEG_INF) with (- F64_INF).
    rewrite !(proj2 (Z.ltb_lt _ _)) by lia. split_and!; [done..|].
    rewrite f64_leb_rank by done. by apply Z.leb_le.
Qed.

Lemma tracked_bounds s :
  tracked s ->
  (f64_is_finite (sk_min s) = true \/ (sk_min s = F64_INF /\ sk_max s = F64_NEG_INF)) /\
  (f64_is_finite (sk_max s) = true \/ (sk_min s = F64_INF /\ sk_max s = F64_NEG_INF)) /\
  (f64_leb (sk_min s) (sk_max s) = true \/ (sk_min s = F64_INF /\ sk_max s = F64_NEG_INF)) /\
  0 <= sk_count s <= F64_INF.
Proof.
  intros [(-> & _ & _ & _ & -> & ->)|(H1 & H2 & H3 & H4)].
  - split_and!; try (by right); by compute.
  - split_and!; try (by left); lia.
Qed.

Lemma add_count_tracked s value count :
  u64 value -> u64 count -> tracked s -> tracked (add_count s value count).
Proof.
  intros Hu Hc Ht. unfold add_count. case_match eqn:Hg; [done|].
  apply orb_false_iff in Hg as [Hv Hg]. apply negb_false_iff in Hv, Hg. apply andb_true_iff in Hg as [Hf Hp].
  pose proof (f64_positive_bits count Hc Hf Hp) as Hw.
  destruct (tracked_bounds s Ht) as (H1 & H2 & H3 & H4). right.
  assert (sk_count (sketch_insert s value count) = sk_count s /\
          sk_min (sketch_insert s value count) = sk_min s /\
          sk_max (sketch_insert s value count) = sk_max s) as (He1 & He2 & He3)
    by (unfold sketch_insert; repeat case_match; done).
  simpl. rewrite He1, He2, He3.
  destruct (f64_add_count (sk_count s) count) as [Ha1 Ha2]; [lia..|].
  split; [split; [apply Ha2|]; lia|].
  apply bounds_widen; [done..|]. rewrite f64_leb_rank by by apply f64_finite_not_nan. apply Z.leb_refl.
Qed.

(** A count that is not zero, by [==]. *)
Lemma f64_eqb_zero x : 0 <= x <= F64_INF -> f64_eqb x 0 = (x =? 0).
Proof.
  intros Hx. destruct (f64_plain x Hx) as (Hm & _ & Hn & _). unfold f64_eqb, f64_is_zero.
  fold (f64_mag x). rewrite Hm, Hn. simpl. rewrite andb_true_r. by destruct (x =? 0).
Qed.

Lemma sketch_merge_tracked s other : tracked s -> tracked other -> tracked (sketch_merge s other).
Proof.
  intros Ht Ho. unfold sketch_merge. case_match eqn:Hg; [done|].
  destruct (tracked_bounds s Ht) as (H1 & H2 & H3 & H4).
  destruct Ho as [(Hc & _ & _ & Hz & _)|(Hc & Ho2 & Ho3 & Ho4)]; [by rewrite Hc, Hz in Hg|]. right. simpl.
  destruct (f64_add_count (sk_count s) (sk_count other)) as [Ha1 Ha2]; [lia..|].
  split; [split; [apply Ha2|]; lia|]. by apply bounds_widen.
Qed.

Lemma add_count_u64 s value count :
  u64 value -> u64 count -> summary_u64 s -> summary_u64 (add_count s value count).
Proof.
  intros Hv Hc Hs. unfold add_count. case_match; [done|].
  assert (summary_u64 (sketch_insert s value count)) as (H1 & H2 & H3 & H4)
    by (unfold sketch_insert; repeat case_match; done).
  unfold summary_u64. simpl. split_and!; [by apply f64_add_u64|by case_match..|].
  apply f64_add_u64; [done|apply f64_mul_u64].
Qed.

Lemma sketch_merge_u64 s other : summary_u64 s -> summary_u64 other -> summary_u64 (sketch_merge s other).
Proof.
  intros (H1 & H2 & H3 & H4) (G1 & G2 & G3 & G4). unfold sketch_merge. case_match; [done|].
  unfold summary_u64. simpl. split_and!; try (by apply f64_add_u64); by case_match.
Qed.

Lemma add_count_bins s value count :
  u64 count -> bins_wf s = true -> bins_wf (add_count s value count) = true.
Proof.
  intros Hc Hs. unfold add_count. case_match eqn:Hg; [done|].
  apply orb_false_iff in Hg as [Hv Hg]. apply negb_false_iff in Hv, Hg. apply andb_true_iff in Hg as [Hf Hp].
  exact (sketch_insert_bins s value count Hs Hv (f64_positive_bits count Hc Hf Hp)).
Qed.

(** What every built sketch is, by induction on how it was built. *)
Lemma built_ok s : built s -> bins_wf s = true /\ tracked s /\ summary_u64 s.
Proof.
  induction 1 as [m Hm|s value count Hv Hc _ (IH1 & IH2 & IH3)|s other _ (IH1 & IH2 & IH3) _ (G1 & G2 & G3)].
  - split_and!; [|by left|by compute]. apply bins_wf_spec. pose proof (mapping_limit _ Hm).
    split_and!; [done|apply store_ok_nil; simpl; lia..|by compute].
  - split_and!; [by apply add_count_bins|by apply add_count_tracked|by apply add_count_u64].
  - split_and!; [by apply sketch_merge_bins|by apply sketch_merge_tracked|by apply sketch_merge_u64].
Qed.

(** A built sketch whose count has not overflowed has a byte form that is read back. *)
Lemma built_wf s : built s -> f64_is_finite (sk_count s) = true -> sketch_wf s = true.
Proof.
  intros (Hb & Ht & H1 & H2 & H3 & H4)%built_ok Hf. unfold sketch_wf, stats_settled.
  rewrite Hb, Hf, !(proj2 (u64b_spec _)) by done. simpl.
  destruct (tracked_bounds s Ht) as (_ & _ & _ & Hc).
  destruct (f64_plain _ Hc) as (_ & _ & Hn & Hr). rewrite f64_leb_rank, Hr by done.
  change (f64_rank 0) with 0. by rewrite (proj2 (Z.leb_le 0 _)) by lia.
Qed.
End Ops.

(** ** A library for closed examples

    Its logarithm is the sign of the exponent, its powers and exponentials are one; the two
    logarithms behind the Agent's bias are the correctly rounded ones. *)

Definition sign_libm : Libm := {|
  ln := fun x => if x =? AGENT_MIN then 0xc034b927f32bffb8
                 else if x =? 0 then F64_NEG_INF
                 else if x <? F64_ONE then 0xbff0000000000000 else F64_ONE;
  ln_1p := fun _ => 0x3f8fc0a8b0fc03e4;
  exp := fun _ => F64_ONE;
  powf := fun _ _ => F64_ONE
|}.

#[global] Instance sign_libm_ok : LibmOk sign_libm.
Proof.
  split; cbn [exp powf ln ln_1p sign_libm].
  - intros x. right. by vm_compute.
  - intros b x _. right. by vm_compute.
  - intros x. by vm_compute.
  - intros b x. by vm_compute.
  - intros x. repeat case_match; by vm_compute.
  - by vm_compute.
  - intros x Hx. repeat case_match; try (by vm_compute). lia.
  - by vm_compute.
  - by vm_compute.
Qed.

(** ** Stores as finite maps *)

Definition bins_map (s : store) : gmap Z f64 := list_to_map (map (fun b => (bin_key b, bin_count b)) s).

Lemma bins_map_cons b s : bins_map (b :: s) = <[bin_key b := bin_count b]> (bins_map s).
Proof. done. Qed.

Lemma bins_map_above k s : Forall (fun c => k < bin_key c) s -> bins_map s !! k = None.
Proof.
  induction 1 as [|b s Hb _ IH]; [done|]. rewrite bins_map_cons, lookup_insert_ne by lia. done.
Qed.

Lemma bins_map_merge a b :
  ascending a -> ascending b ->
  bins_map (merge_sorted a b) =
  union_with (fun x y => Some (add_counts x y)) (bins_map a) (bins_map b).
Proof.
  revert a b. apply (merge_ind (fun a b => _ -> _ -> _)).
  - intros b _ _. rewrite merge_sorted_nil_l. change (bins_map []) with (∅ : gmap Z f64).
    by rewrite (left_id_L ∅ (union_with _)).
  - intros a _ _. rewrite merge_sorted_nil_r. change (bins_map []) with (∅ : gmap Z f64).
    by rewrite (right_id_L ∅ (union_with _)).
  - intros x a y b IH1 IH2 IH3 Ha Hb.
    pose proof Ha as [Ha1 Ha2]%ascending_cons. pose proof Hb as [Hb1 Hb2]%ascending_cons.
    rewrite merge_sorted_cons. destruct (Z.compare_spec (bin_key x) (bin_key y)) as [He|He|He].
    + rewrite !bins_map_cons, IH3 by done. simpl. rewrite He.
      by apply insert_union_with.
    + rewrite bins_map_cons, IH1 by done. rewrite (bins_map_cons x a).
      apply insert_union_with_l, bins_map_above.
      constructor; [done|]. eapply Forall_impl; [exact Hb2|]. simpl. lia.
    + rewrite bins_map_cons, IH2 by done. rewrite (bins_map_cons y b).
      apply insert_union_with_r, bins_map_above.
      constructor; [done|]. eapply Forall_impl; [exact Ha2|]. simpl. lia.
Qed.

Lemma merge_sorted_comm keys a b :
  Forall (bin_ok keys) a -> Forall (bin_ok keys) b -> merge_sorted a b = merge_sorted b a.
Proof.
  revert a b. apply (merge_ind (fun a b => _ -> _ -> _)).
  - intros b _ _. by rewrite merge_sorted_nil_l, merge_sorted_nil_r.
  - intros a _ _. by rewrite merge_sorted_nil_l, merge_sorted_nil_r.
  - intros x a y b IH1 IH2 IH3 Ha Hb.
    pose proof Ha as [[_ Hx] Ha1]%Forall_cons. pose proof Hb as [[_ Hy] Hb1]%Forall_cons.
    rewrite !merge_sorted_cons, (Z.compare_antisym (bin_key x) (bin_key y)).
    destruct (Z.compare_spec (bin_key x) (bin_key y)) as [He|He|He]; cbn [CompOpp].
    + by rewrite IH3, He, add_counts_comm by (done || by apply weight_weight0).
    + by rewrite IH1.
    + by rewrite IH2.
Qed.

Lemma merge_bins_comm keys limit a b :
  store_ok keys limit a -> store_ok keys limit b -> merge_bins a b limit = merge_bins b a limit.
Proof.
  intros [Ha1 Ha2 Ha3] [Hb1 Hb2 Hb3]. unfold merge_bins. destruct a as [|x a], b as [|y b]; [done| | |].
  - by rewrite merge_sorted_nil_l, collapse_id.
  - by rewrite merge_sorted_nil_l, collapse_id.
  - by rewrite (merge_sorted_comm keys).
Qed.

(** ** The properties *)

(** C37: a store is a finite map from keys to counts. Merging two stores whose keys fit the limit is
    the union that adds the counts of a shared key, inserting is merging one bin, merging commutes,
    and past the limit the result is still a store: ascending, positive finite counts, no more bins
    than the limit. *)
Theorem merge_bins_refines_union keys limit a b :
  0 < limit -> store_ok keys limit a -> store_ok keys limit b ->
  store_ok keys limit (merge_bins a b limit) /\
  merge_bins a b limit = merge_bins b a limit /\
  (Z.of_nat (length (merge_sorted a b)) <= limit ->
   bins_map (merge_bins a b limit) =
   union_with (fun x y => Some (add_counts x y)) (bins_map a) (bins_map b)) /\
  (forall k c, insert_bin a k c limit = merge_bins a [mkBin k c] limit).
Proof.
  intros Hl Ha Hb. split_and!.
  - by apply merge_bins_ok.
  - by eapply merge_bins_comm.
  - intros Hlen. rewrite <- bins_map_merge by (apply Ha || apply Hb). f_equal.
    unfold merge_bins. destruct b; [by rewrite merge_sorted_nil_r|]. by apply collapse_id.
  - intros k c. apply insert_bin_merge; apply Ha.
Qed.

Lemma merge_bins_refines_union_witness :
  let a := [mkBin 3 F64_ONE; mkBin 7 F64_ONE] in
  let b := [mkBin 7 F64_ONE] in
  bins_map (merge_bins a b 4096) =
  union_with (fun x y => Some (add_counts x y)) (bins_map a) (bins_map b).
Proof.
  assert (store_ok (fun _ => true) 4096 [mkBin 3 F64_ONE; mkBin 7 F64_ONE]) as Ha
    by (apply store_okb_spec; vm_compute; reflexivity).
  assert (store_ok (fun _ => true) 4096 [mkBin 7 F64_ONE]) as Hb
    by (apply store_okb_spec; vm_compute; reflexivity).
  apply (merge_bins_refines_union (fun _ => true) 4096 _ _ eq_refl Ha Hb). vm_compute. discriminate.
Defined.

(** C34: a sketch built by adding values and merging sketches, under any mapping, keeps its stores
    well formed, and as long as its count has not overflowed to infinity its byte form decodes to
    the very same sketch. *)
Theorem built_sketch_round_trip {M : Libm} {MO : LibmOk M} s :
  built s ->
  bins_wf s = true /\
  (f64_is_finite (sk_count s) = true -> sketch_from_bytes (sketch_to_bytes s) = inr s).
Proof.
  intros Hs. split; [by apply built_ok|]. intros Hf. by apply sketch_from_to, built_wf.
Qed.

(** Two values under the Agent mapping, merged with a logarithmic sketch of one. *)
Definition sample_sketch {M : Libm} : DdSketch :=
  sketch_merge
    (add_count (add_count sketch_new 0x4008000000000000 F64_ONE) 0xc000000000000000 F64_ONE)
    (add_count (with_mapping (logarithmic 0x3ff8000000000000 0 2048)) 0x4014000000000000 F64_ONE).

Lemma sample_sketch_built : @built sign_libm (@sample_sketch sign_libm).
Proof.
  unfold sample_sketch, sketch_new.
  apply built_merge; [apply built_add; [| |apply built_add; [| |apply built_empty]]|apply built_add; [| |apply built_empty]].
  all: by vm_compute.
Qed.

Lemma built_sketch_round_trip_witness :
  @sketch_from_bytes sign_libm (sketch_to_bytes (@sample_sketch sign_libm)) = inr (@sample_sketch sign_libm).
Proof.
  apply (@built_sketch_round_trip sign_libm sign_libm_ok _ sample_sketch_built). vm_compute. reflexivity.
Defined.

Lemma length_normalize_bins bins limit : (length (normalize_bins bins limit) <= length bins)%nat.
Proof.
  unfold normalize_bins.
  assert (forall s, length (collapse s limit) <= length s)%nat as Hc.
  { intros s. unfold collapse. case_match; [done|].
    pose proof (length_drop s (length s - Z.to_nat limit)) as Hd.
    destruct (drop _ s); simpl in *; lia. }
  assert (forall s out, length (fold_left fold_repeated s out) <= length s + length out)%nat as Hf.
  { induction s as [|b s IH]; intros out; [done|]. simpl. specialize (IH (fold_repeated out b)).
    assert (length (fold_repeated out b) <= S (length out))%nat
      by (destruct out; simpl; [done|case_match; simpl; lia]). lia. }
  assert (forall s, length (sort_by_key s) = length s) as Hs.
  { assert (forall x s, length (sort_insert x s) = S (length s)) as Hi
      by (intros x; induction s; simpl; [done|case_match; simpl; congruence]).
    induction s as [|b s IH]; [done|]. simpl. by rewrite Hi, IH. }
  etransitivity; [apply Hc|]. rewrite length_rev. etransitivity; [apply Hf|].
  rewrite Hs, Nat.add_0_r. apply List.filter_length_le.
Qed.

Lemma sketch_from_bytes_length `{M : Libm} bs s :
  sketch_from_bytes bs = inr s ->
  9 * Z.of_nat (length (sk_positive s)) <= blen bs /\ 9 * Z.of_nat (length (sk_negative s)) <= blen bs.
Proof.
  unfold sketch_from_bytes. pose proof (blen_nonneg bs) as Hb0. pose proof (Z.div_mod (blen bs) 9 ltac:(lia)).
  pose proof (Z.mod_pos_bound (blen bs) 9 ltac:(lia)). pose proof (Z.div_pos (blen bs) 9 Hb0 ltac:(lia)).
  assert (pgives (read_sketch (blen bs)) (fun s => Z.of_nat (length (sk_positive s)) <= blen bs / 9 /\
    Z.of_nat (length (sk_negative s)) <= blen bs / 9)) as Hg.
  { unfold read_sketch. eapply pgives_bind; [apply pgives_any|]. intros v _. apply pgives_guard. intros _.
    do 7 (eapply pgives_bind; [apply pgives_any|]; intros ? _). cbv zeta.
    eapply pgives_bind; [apply pgives_bins|]. intros p [Hp _].
    eapply pgives_bind; [apply pgives_bins|]. intros n [Hn _]. apply pgives_ret.
    unfold from_stored, from_parts.
    case_match; simpl;
      pose proof (length_normalize_bins p (bin_limit a)); pose proof (length_normalize_bins n (bin_limit a)); lia. }
  destruct (read_sketch (blen bs) bs) as [e|[s' [|x rest]]] eqn:Hr; [done| |done].
  intros [= <-]. apply Hg in Hr. lia.
Qed.


(** A blob no encoder writes: a key twice, and a bin with no count. *)
Definition untidy_blob : bytes :=
  sketch_to_bytes (mkDdSketch (mkMapping Agent 0 0 0 0)
    [mkBin 5 F64_ONE; mkBin 5 F64_ONE; mkBin 2 0] [] F64_ONE F64_ONE F64_ONE F64_ONE F64_ONE true).


(** Clamping to the unit interval keeps which side of it a number is on. *)
Lemma f64_clamp_unit q :
  f64_is_nan q = false ->
  f64_leb (f64_clamp q 0 F64_ONE) 0 = f64_leb q 0 /\
  f64_leb F64_ONE (f64_clamp q 0 F64_ONE) = f64_leb F64_ONE q.
Proof.
  intros Hq. unfold f64_clamp.
  assert (f64_rank 0 = 0 /\ f64_rank F64_ONE = F64_ONE) as [H0 H1] by done.
  assert (f64_is_nan 0 = false /\ f64_is_nan F64_ONE = false) as [N0 N1] by done.
  rewrite (f64_ltb_rank q 0), H0 by done. destruct (Z.ltb_spec (f64_rank q) 0) as [Hl|Hl].
  - change (f64_ltb F64_ONE 0) with false. cbv iota. rewrite !f64_leb_rank, H0, H1 by done.
    unfold F64_ONE. split; [symmetry; apply Z.leb_le; lia|].
    rewrite (proj2 (Z.leb_gt _ (f64_rank q))) by lia. done.
  - rewrite f64_ltb_rank, H1 by done. destruct (Z.ltb_spec F64_ONE (f64_rank q)) as [Hg|Hg]; [|done].
    rewrite !f64_leb_rank, H0, H1 by done. unfold F64_ONE in *.
    rewrite (proj2 (Z.leb_gt (f64_rank q) 0)), (proj2 (Z.leb_le _ (f64_rank q))) by lia. done.
Qed.

(** C36: a quantile of a built sketch with observations is a finite number between its minimum and
    its maximum, whatever the mathematical library returns; at 0 and below it is the minimum, at 1
    and above the maximum, and only [NaN] has none. *)
Theorem quantile_between {M : Libm} {MO : LibmOk M} s q :
  built s -> 0 < sk_count s -> u64 q ->
  (f64_is_nan q = true -> quantile s q = None) /\
  (f64_is_nan q = false ->
   exists v, quantile s q = Some v /\ f64_is_finite v = true /\
     f64_leb (sk_min s) v = true /\ f64_leb v (sk_max s) = true /\
     (f64_leb q 0 = true -> v = sk_min s) /\ (f64_leb F64_ONE q = true -> v = sk_max s)).
Proof.
  intros (_ & Ht & _)%built_ok Hc Hq.
  destruct Ht as [(H0 & _)|(Hcc & Hmin & Hmax & Hle)]; [lia|].
  pose proof (proj1 (f64_finite_rank _) Hmin) as [Hn1 Hr1].
  pose proof (proj1 (f64_finite_rank _) Hmax) as [Hn2 Hr2].
  pose proof Hle as Hle'. rewrite f64_leb_rank in Hle' by done. apply Z.leb_le in Hle'.
  assert (f64_leb (sk_count s) 0 = false) as Hc0.
  { destruct (f64_plain (sk_count s) ltac:(lia)) as (_ & _ & Hn & Hr).
    rewrite f64_leb_rank, Hr by (done || by compute). apply Z.leb_gt. change (f64_rank 0) with 0. lia. }
  unfold quantile. rewrite Hc0. cbn [orb]. split; intros Hnan; rewrite Hnan; [done|].
  destruct (f64_clamp_unit q Hnan) as [-> ->].
  assert (f64_leb q 0 = true -> f64_leb F64_ONE q = true -> False) as Hx.
  { rewrite !f64_leb_rank by (done || by compute). rewrite !Z.leb_le.
    change (f64_rank 0) with 0. change (f64_rank F64_ONE) with F64_ONE. unfold F64_ONE. lia. }
  assert (forall x, f64_is_nan x = false -> f64_leb x x = true) as Hrefl
    by (intros x Hx'; rewrite f64_leb_rank by done; apply Z.leb_refl).
  case_match eqn:Hq0; [eexists; split; [done|]; split_and!; auto; by intros; exfalso; auto|].
  case_match eqn:Hq1; [eexists; split; [done|]; by split_and!; auto|]. cbv zeta.
  match goal with |- context [f64_min (f64_max ?e (sk_min s)) _] => set (est := e) end.
  destruct (f64_max_min_between est (sk_min s) (sk_max s)) as [Hn Hb]; [done..|].
  eexists. split; [done|]. split_and!; [|rewrite f64_leb_rank by done; apply Z.leb_le; lia..|done|done].
  apply f64_finite_rank. split; [done|lia].
Qed.

Lemma quantile_between_witness :
  exists v, @quantile sign_libm (@sample_sketch sign_libm) 0x3fe0000000000000 = Some v /\
    f64_leb (sk_min (@sample_sketch sign_libm)) v = true /\ f64_leb v (sk_max (@sample_sketch sign_libm)) = true.
Proof.
  destruct (@quantile_between sign_libm sign_libm_ok _ 0x3fe0000000000000 sample_sketch_built) as [_ H].
  - vm_compute. reflexivity.
  - split; vm_compute; [discriminate|reflexivity].
  - destruct H as (v & H1 & _ & H2 & H3 & _); [vm_compute; reflexivity|]. exists v. auto.
Defined.

Lemma Mapping_eqb_agent {M : Libm} {MO : LibmOk M} : Mapping_eqb agent agent = true.
Proof.
  destruct agent_offset as [Ho Hg]. unfold Mapping_eqb. rewrite bool_decide_true by done.
  assert (forall x, f64_is_nan x = false -> f64_eqb x x = true) as Hr
    by (intros x Hx; unfold f64_eqb; by rewrite Hx, Z.eqb_refl).
  destruct (f64_plain (gamma_ln agent)) as (_ & _ & Hn & _).
  { destruct Hg. split; by apply Z.lt_le_incl. }
  by rewrite (Hr (gamma_ln agent)), Ho by done.
Qed.

(** The byte form does not keep every sketch a process can build. Two sketches, each with a
    count of the largest double, merge into one whose count is infinite; decoding its bytes derives
    another summary, whose count is the largest double again, whatever the mathematical library. *)
Theorem overflowed_count_is_not_kept {M : Libm} {MO : LibmOk M} :
  let s := mkDdSketch agent [mkBin 1338 F64_MAX] [] 0 F64_MAX F64_ONE F64_ONE F64_MAX true in
  sketch_wf s = true /\ sk_count (sketch_merge s s) = F64_INF /\
  exists decoded, sketch_from_bytes (sketch_to_bytes (sketch_merge s s)) = inr decoded /\
    sk_count decoded = F64_MAX.
Proof.
  cbv zeta.
  assert (forall c su, bins_wf (mkDdSketch agent [mkBin 1338 F64_MAX] [] 0 c F64_ONE F64_ONE su true) = true) as Hb.
  { intros c su. apply bins_wf_spec. cbn [sk_mapping sk_positive sk_negative sk_zero_count].
    assert (mapping_ok agent = true) as Hm by (unfold mapping_ok; by rewrite bool_decide_true).
    split_and!; [done|apply store_okb_spec; by vm_compute..|by compute]. }
  split; [|split].
  - unfold sketch_wf. rewrite Hb. by vm_compute.
  - by vm_compute.
  - assert (sketch_merge
              (mkDdSketch agent [mkBin 1338 F64_MAX] [] 0 F64_MAX F64_ONE F64_ONE F64_MAX true)
              (mkDdSketch agent [mkBin 1338 F64_MAX] [] 0 F64_MAX F64_ONE F64_ONE F64_MAX true) =
            mkDdSketch agent [mkBin 1338 F64_MAX] [] 0 F64_INF F64_ONE F64_ONE F64_INF true) as ->.
    { unfold sketch_merge, merge_mapping. cbn [sk_mapping sk_count sk_zero_count]. rewrite Mapping_eqb_agent.
      cbn [negb andb]. rewrite Mapping_eqb_agent. change (f64_eqb F64_MAX 0) with false. cbv iota.
      change (bin_limit agent) with AGENT_BIN_LIMIT.
      cbn [sk_positive sk_negative sk_min sk_max sk_sum sk_exact_stats].
      assert (merge_bins [mkBin 1338 F64_MAX] [mkBin 1338 F64_MAX] AGENT_BIN_LIMIT = [mkBin 1338 F64_MAX] /\
              add_counts 0 0 = 0 /\ f64_add F64_MAX F64_MAX = F64_INF /\ f64_ltb F64_ONE F64_ONE = false)
        as (-> & -> & -> & ->) by by vm_compute. done. }
    eexists. split; [apply sketch_from_to_parts; [apply Hb|by compute..]|].
    unfold from_stored, from_parts. cbn [stored_stats sk_count st_count].
    change (f64_is_finite F64_INF) with false. cbv iota zeta.
    cbn [set_exact_stats sk_count derive_stats sk_positive sk_negative sk_zero_count sk_mapping].
    change (bin_limit agent) with AGENT_BIN_LIMIT.
    replace (normalize_bins [mkBin 1338 F64_MAX] AGENT_BIN_LIMIT) with [mkBin 1338 F64_MAX] by by vm_compute.
    replace (normalize_bins [] AGENT_BIN_LIMIT) with ([] : store) by by vm_compute.
    cbn [fold_left derive_bin st_count bin_count]. by vm_compute.
Qed.

Lemma overflowed_count_is_not_kept_witness :
  let s := mkDdSketch (@agent sign_libm) [mkBin 1338 F64_MAX] [] 0 F64_MAX F64_ONE F64_ONE F64_MAX true in
  sk_count (@sketch_merge sign_libm s s) = F64_INF.
Proof. apply (@overflowed_count_is_not_kept sign_libm sign_libm_ok). Defined.

Lemma sketch_insert_sum {M : Libm} s value count : sk_sum (sketch_insert s value count) = sk_sum s.
Proof. unfold sketch_insert. by repeat case_match. Qed.

Lemma sketch_add_sum {M : Libm} s value :
  f64_is_finite value = true -> sk_sum (sketch_add s value) = f64_add (sk_sum s) (f64_mul value F64_ONE).
Proof.
  intros Hv. unfold sketch_add, add_count. rewrite Hv. change (f64_is_finite F64_ONE && f64_ltb 0 F64_ONE) with true.
  cbn [negb orb sk_sum]. by rewrite sketch_insert_sum.
Qed.

(** The order of the values is seen: the same three values, one of them small beside the other
    two, give sums that differ by it, whatever the mathematical library, so the two sketches are
    not equal. *)
Theorem sketch_order_matters {M : Libm} :
  let big := 0x4341c37937e08000 in
  let small := F64_ONE in
  sk_sum (sketch_add (sketch_add (sketch_add sketch_new big) small) (f64_neg big)) = 0 /\
  sk_sum (sketch_add (sketch_add (sketch_add sketch_new big) (f64_neg big)) small) = F64_ONE.
Proof.
  cbv zeta. rewrite !sketch_add_sum by by compute. by vm_compute.
Qed.
