(* ===== verification/Hll.v ===== *)
(** * The cardinality estimator's byte form

    [HyperLogLog] of crates/logit-core/src/metric.rs wraps an estimator of another crate and drives
    that crate's [serde] form, a pair of a word and an optional list of [u32]s, through its own byte
    codec. The estimator is a parameter, the class [Estimators]; the codec is modelled in full:
    writing, the erasure of the heap address in the word, and reading with its length checks. *)

From S2P Require Import Prelude Parse.

#[local] Open Scope wire_scope.

(** What crosses the [serde] boundary: [data], and [members] for the representations on the heap. *)
Abbreviation Representation := (Z * option (list Z))%type.

Class Estimators := {
  Estimator : Type;
  ce_serialize : Estimator -> Representation;
  ce_deserialize : Representation -> option Estimator
}.

Abbreviation CE_REPRESENTATION_ARRAY := (1)%Z.
Abbreviation CE_REPRESENTATION_HLL := (3)%Z.
Abbreviation CE_ARRAY_MAX_CAPACITY := (128)%Z.
Abbreviation CE_HLL_P := (12)%Z.
Abbreviation CE_HLL_W := (6)%Z.
Abbreviation CE_HLL_REGISTERS := (Z.shiftl 1 CE_HLL_P)%Z.
Abbreviation CE_HLL_SLICE_LEN := (CE_HLL_REGISTERS * CE_HLL_W / 32 + 3)%Z.
Definition HLL_MEMBERS_OFFSET : nat := 8 + 1 + 4.

Inductive HllDecodeError := mkHllDecodeError (msg : string).

(** ** Writing *)

(** [HllBytesWriter] driven by the estimator's [Serialize]: the word as a [u64], then the option. *)
Definition hll_write (r : Representation) : bytes :=
  to_le_bytes 8 r.1 ++
  match r.2 with
  | None => [z2b 0]
  | Some members =>
      [z2b 1] ++ to_le_bytes 4 (uwrap 32 (Z.of_nat (length members))) ++ concat (map (to_le_bytes 4) members)
  end.

(** With members on the wire the word's upper 62 bits are a heap address: they are zeroed. *)
Definition erase_address (bs : bytes) : bytes :=
  match bs !! 8%nat, bs with
  | Some b, b0 :: _ =>
      if b2z b =? 1 then z2b (Z.land (b2z b0) 0x3) :: repeat (z2b 0) 7 ++ drop 8 bs else bs
  | _, _ => bs
  end.

(** [usize::next_power_of_two]. *)
Definition next_power_of_two (n : Z) : Z := if n <=? 1 then 1 else 2 ^ Z.log2_up n.

Section Hll.
Context `{Estimators}.

Definition hll_to_bytes (h : Estimator) : bytes := erase_address (hll_write (ce_serialize h)).

(** ** Reading *)

Definition hll_reader : Type -> Type := parser HllDecodeError.

Definition hll_take (n : nat) : hll_reader Z := ple (mkHllDecodeError "expected more bytes than remain") n.

Definition take_u8 : hll_reader Z := hll_take 1.
Definition take_u32 : hll_reader Z := hll_take 4.
Definition take_u64 : hll_reader Z := hll_take 8.

(** The members' length check; [Ok] is the capacity to allocate. *)
Definition validate_members_len (tag : Z) (len : Z) : HllDecodeError + Z :=
  if tag =? CE_REPRESENTATION_ARRAY then
    if (len <=? 2) || (CE_ARRAY_MAX_CAPACITY <? len)
    then inl (mkHllDecodeError "array representation member count out of range")
    else inr (next_power_of_two len)
  else if tag =? CE_REPRESENTATION_HLL then
    if negb (len =? CE_HLL_SLICE_LEN) then inl (mkHllDecodeError "HLL representation member count")
    else inr len
  else inl (mkHllDecodeError "a members list is only valid for the array or HLL representation").

(** [HllSeqAccess] over the members. *)
Fixpoint take_members (n : nat) : hll_reader (list Z) :=
  match n with
  | O => pret []
  | S n =>
      let* m := take_u32 in
      let* ms := take_members n in
      pret (m :: ms)
  end.

(** [deserialize_seq], with the tag [deserialize_u64] stashed; the capacity is only a hint. *)
Definition deserialize_members (tag : Z) : hll_reader (list Z) :=
  let* len := take_u32 in
  match validate_members_len tag len with
  | inl e => pfail e
  | inr _ => take_members (Z.to_nat len)
  end.

(** The pair, as the estimator's [Deserialize] drives [HllBytesReader]. *)
Definition deserialize_representation : hll_reader Representation :=
  let* data := take_u64 in
  let tag := Z.land data 0x3 in
  let* presence := take_u8 in
  if presence =? 0 then pret (data, None)
  else if presence =? 1 then
    let* members := deserialize_members tag in
    pret (data, Some members)
  else pfail (mkHllDecodeError "bad Option presence byte").

Definition hll_zero_register_count (bs : bytes) : option Z :=
  match bs !! 0%nat, bs !! 8%nat with
  | Some b0, Some b8 =>
      if negb (Z.land (b2z b0) 0x3 =? CE_REPRESENTATION_HLL) || negb (b2z b8 =? 1) then None
      else
        let word := take 4 (drop HLL_MEMBERS_OFFSET bs) in
        if (length word =? 4)%nat then Some (from_le_bytes word) else None
  | _, _ => None
  end.

Definition hll_from_bytes (bs : bytes) : HllDecodeError + Estimator :=
  match deserialize_representation bs with
  | inl e => inl e
  | inr (r, rest) =>
      match ce_deserialize r with
      | None => inl (mkHllDecodeError "estimator representation")
      | Some hll =>
          match rest with
          | _ :: _ => inl (mkHllDecodeError "trailing bytes after the blob")
          | [] =>
              match hll_zero_register_count bs with
              | Some zeros =>
                  if CE_HLL_REGISTERS <? zeros
                  then inl (mkHllDecodeError "HLL zero-register count exceeds the registers")
                  else inr hll
              | None => inr hll
              end
          end
      end
  end.
End Hll.

(** What the estimator's crate promises. A small estimator is its word. An array or HLL estimator's
    word is a heap address with the tag in the two low bits, of which only the tag is read back;
    its members are [u32]s, three to 128 of them for an array, one slice for an HLL, whose first
    word counts zero registers. *)
Class EstimatorsOk (E : Estimators) : Prop := {
  ce_small : forall e data,
    ce_serialize e = (data, None) -> u64 data /\ ce_deserialize (data, None) = Some e;
  ce_members : forall e data members,
    ce_serialize e = (data, Some members) ->
    u64 data /\ Forall (fun m => u32 m) members /\
    let tag := Z.land data 0x3 in
    ((tag = CE_REPRESENTATION_ARRAY /\ 2 < Z.of_nat (length members) <= CE_ARRAY_MAX_CAPACITY) \/
     (tag = CE_REPRESENTATION_HLL /\ Z.of_nat (length members) = CE_HLL_SLICE_LEN /\
      forall zeros, members !! 0%nat = Some zeros -> zeros <= CE_HLL_REGISTERS)) /\
    ce_deserialize (tag, Some members) = Some e
}.

(** ** The byte form is an inverse *)

Lemma preads_member v : u32 v -> preads take_u32 (to_le_bytes 4 v) v.
Proof. apply (preads_le _ 4). Qed.

Lemma preads_members members :
  Forall (fun m => u32 m) members ->
  preads (take_members (length members)) (concat (map (to_le_bytes 4) members)) members.
Proof.
  induction 1 as [|m members Hm _ IH]; [apply preads_ret|]. cbn [length take_members map concat].
  eapply preads_bind; [by apply preads_member|].
  rewrite <- (app_nil_r (concat _)). eapply preads_bind; [exact IH|]. apply preads_ret.
Qed.

(** The length a writer of a valid estimator declares is one the reader takes. *)
Lemma validate_members_len_ok tag len :
  (tag = CE_REPRESENTATION_ARRAY /\ 2 < len <= CE_ARRAY_MAX_CAPACITY) \/
  (tag = CE_REPRESENTATION_HLL /\ len = CE_HLL_SLICE_LEN) <->
  exists cap, validate_members_len tag len = inr cap.
Proof.
  unfold validate_members_len.
  destruct (Z.eqb_spec tag 1) as [->|Hn1].
  - destruct (Z.leb_spec len 2), (Z.ltb_spec 128 len); cbn [orb];
      (split; [intros [?|?]; try lia; eauto|intros [cap Hc]; try done; lia]).
  - destruct (Z.eqb_spec tag 3) as [->|Hn3]; [|split; [lia|by intros [cap Hc]]].
    destruct (Z.eqb_spec len CE_HLL_SLICE_LEN); cbn [negb];
      (split; [intros [?|?]; try lia; eauto|intros [cap Hc]; try done; lia]).
Qed.

(** The capacity to allocate holds the members, and is bounded whatever the blob declares. *)
Lemma validate_members_len_cap tag len cap :
  validate_members_len tag len = inr cap -> len <= cap <= CE_HLL_SLICE_LEN.
Proof.
  unfold validate_members_len. case_match.
  - case_match eqn:Hr; [done|]. intros [= <-]. apply orb_false_iff in Hr as [H1%Z.leb_gt H2%Z.ltb_ge].
    unfold next_power_of_two in *. rewrite (proj2 (Z.leb_gt len 1)) by lia.
    pose proof (Z.log2_up_spec len ltac:(lia)) as [_ Hs]. split; [done|].
    pose proof (Z.log2_up_le_mono len 128 ltac:(lia)) as Hm. change (Z.log2_up 128) with 7 in Hm.
    pose proof (Z.log2_up_nonneg len).
    pose proof (Z.pow_le_mono_r 2 (Z.log2_up len) 7 ltac:(lia) Hm). change CE_HLL_SLICE_LEN with 771. lia.
  - case_match; [|done]. case_match eqn:Hr; [done|]. intros [= <-].
    apply negb_false_iff, Z.eqb_eq in Hr. lia.
Qed.

(** What the writer leaves of a representation: the word's tag, and the members. *)
Definition erased (r : Representation) : Representation :=
  match r with
  | (data, None) => (data, None)
  | (data, Some members) => (Z.land data 0x3, Some members)
  end.

Lemma to_le_bytes_tag tag : 0 <= tag <= 3 -> to_le_bytes 8 tag = z2b tag :: repeat (z2b 0) 7.
Proof. intros H. assert (tag = 0 \/ tag = 1 \/ tag = 2 \/ tag = 3) as [->|[->|[->| ->]]] by lia; done. Qed.

Lemma land_3_range d : 0 <= Z.land d 0x3 <= 3.
Proof.
  change 0x3 with (Z.ones 2). rewrite Z.land_ones by lia. change (2 ^ 2) with 4.
  pose proof (Z.mod_pos_bound d 4 ltac:(lia)). change (Z.ones 2) with 3. lia.
Qed.

Lemma land_3_byte d : 0 <= d -> Z.land (b2z (z2b d)) 0x3 = Z.land d 0x3.
Proof.
  intros Hd. rewrite b2z_z2b. change 0x3 with (Z.ones 2). rewrite !Z.land_ones by lia.
  apply Z.mod_mod_divide. by exists 64.
Qed.

(** Erasing the address is writing the erased representation. *)
Lemma erase_address_write r : u64 r.1 -> erase_address (hll_write r) = hll_write (erased r).
Proof.
  destruct r as [data [members|]]; intros [Hd _]; cbn [fst] in Hd; [|done].
  unfold hll_write, erased. cbn [fst snd].
  rewrite (to_le_bytes_tag (Z.land data 3)) by apply land_3_range.
  unfold erase_address. rewrite lookup_app_r by by rewrite length_to_le_bytes.
  rewrite length_to_le_bytes. cbn [to_le_bytes app lookup list_lookup Nat.sub].
  change (b2z (z2b 1) =? 1) with true. cbv iota. rewrite drop_app_length' by by rewrite length_to_le_bytes.
  match goal with |- context [to_le_bytes 8 data ++ ?t] =>
    change (to_le_bytes 8 data ++ t) with (z2b data :: to_le_bytes 7 (Z.shiftr data 8) ++ t) end.
  cbv beta iota. by rewrite land_3_byte.
Qed.

Lemma preads_representation r :
  u64 r.1 ->
  (forall members, r.2 = Some members ->
    Forall (fun m => u32 m) members /\ Z.of_nat (length members) < 2 ^ 32 /\
    exists cap, validate_members_len (Z.land r.1 0x3) (Z.of_nat (length members)) = inr cap) ->
  preads deserialize_representation (hll_write r) r.
Proof.
  destruct r as [data members]. cbn [fst snd]. intros Hd Hm. unfold hll_write, deserialize_representation.
  cbn [fst snd]. eapply preads_bind; [by apply (preads_le _ 8)|]. cbv zeta.
  destruct members as [members|].
  - destruct (Hm _ eq_refl) as (Hu & Hl & cap & Hv).
    eapply preads_bind; [by apply (preads_byte _ 1)|]. cbn [Z.eqb Pos.eqb].
    rewrite <- (app_nil_r (_ ++ _)). eapply preads_bind; [|apply preads_ret].
    unfold deserialize_members. rewrite uwrap_small by (split; lia).
    eapply preads_bind; [by apply preads_member; split; [lia|]|].
    rewrite Hv, Nat2Z.id. by apply preads_members.
  - rewrite <- (app_nil_r [_]). eapply preads_bind; [by apply (preads_byte _ 0)|]. apply preads_ret.
Qed.

(** The zero-register count of a written representation: the first member of an HLL. *)
Lemma zero_count_write data members zeros :
  hll_zero_register_count (hll_write (data, members)) = Some zeros -> u64 data ->
  exists ms, members = Some ms /\ Z.land data 0x3 = CE_REPRESENTATION_HLL /\
    (Forall (fun m => u32 m) ms -> ms !! 0%nat = Some zeros).
Proof.
  intros H [Hd _]. unfold hll_zero_register_count, hll_write in H. cbn [fst snd] in H.
  rewrite (lookup_app_l (to_le_bytes 8 data)), (lookup_app_r (to_le_bytes 8 data)) in H
    by (rewrite length_to_le_bytes; lia).
  rewrite length_to_le_bytes in H. change (to_le_bytes 8 data !! 0%nat) with (Some (z2b data)) in H.
  destruct members as [ms|]; cbn [app lookup list_lookup Nat.sub] in H; [|by rewrite orb_true_r in H].
  rewrite land_3_byte in H by done. change (b2z (z2b 1) =? 1) with true in H. rewrite orb_false_r in H.
  exists ms. split; [done|]. destruct (Z.eqb_spec (Z.land data 3) CE_REPRESENTATION_HLL); [|done].
  split; [done|]. intros Hu. cbn [negb] in H.
  change HLL_MEMBERS_OFFSET with (8 + 5)%nat in H. rewrite drop_app_add' in H by by rewrite length_to_le_bytes.
  change (z2b 1 :: ?t) with ([z2b 1] ++ t) in H.
  change 5%nat with (1 + 4)%nat in H. rewrite (drop_app_add' [z2b 1]) in H by done.
  rewrite drop_app_length' in H by by rewrite length_to_le_bytes.
  destruct Hu as [|m ms Hm _]; [done|]. cbn [map concat] in H.
  rewrite take_app_length' in H by by rewrite length_to_le_bytes.
  rewrite length_to_le_bytes in H. cbn [Nat.eqb] in H.
  by rewrite (from_to_le_unsigned 4) in H.
Qed.

Section HllOk.
Context {E : Estimators} {EO : EstimatorsOk E}.
#[local] Set Default Proof Using "Type*".

Lemma ce_word_u64 e : u64 (ce_serialize e).1.
Proof.
  destruct (ce_serialize e) as [data [members|]] eqn:He; [by apply ce_members in He as [? _]|].
  by apply ce_small in He as [? _].
Qed.

Lemma hll_to_bytes_erased e : hll_to_bytes e = hll_write (erased (ce_serialize e)).
Proof. apply erase_address_write, ce_word_u64. Qed.

Lemma hll_from_to e : hll_from_bytes (hll_to_bytes e) = inr e.
Proof.
  rewrite hll_to_bytes_erased. unfold hll_from_bytes.
  destruct (ce_serialize e) as [data [members|]] eqn:He; cbn [erased].
  - apply ce_members in He as (Hd & Hu & Hl & Hde). cbv zeta in Hl.
    pose proof (land_3_range data) as Ht.
    assert (Z.land (Z.land data 3) 3 = Z.land data 3) as Htt by (rewrite <- Z.land_assoc; done).
    rewrite <- (app_nil_r (hll_write _)) at 1. rewrite preads_representation; cbn [fst snd].
    + rewrite Hde. destruct (hll_zero_register_count _) as [zeros|] eqn:Hz; [|done].
      apply zero_count_write in Hz as (ms & [= <-] & Htag & Hz0); [|split; lia].
      specialize (Hz0 Hu). rewrite Htt in Htag.
      destruct Hl as [[Ha _]|(_ & _ & Hzr)]; [by rewrite Ha in Htag|].
      specialize (Hzr _ Hz0). by rewrite (proj2 (Z.ltb_ge _ _)) by lia.
    + split; lia.
    + intros ms [= <-]. split; [done|]. rewrite Htt.
      change CE_HLL_SLICE_LEN with 771 in Hl.
      split; [lia|]. apply validate_members_len_ok. change CE_HLL_SLICE_LEN with 771.
      tauto.
  - apply ce_small in He as [Hd Hde].
    rewrite <- (app_nil_r (hll_write _)) at 1. rewrite preads_representation by done. rewrite Hde.
    destruct (hll_zero_register_count _) as [zeros|] eqn:Hz; [|done].
    by apply zero_count_write in Hz as (ms & [=] & _).
Qed.
End HllOk.

(** ** What a blob can make the reader take *)

Lemma ple_length {E} (e : E) n bs v rest :
  ple e n bs = inr (v, rest) -> length bs = (n + length rest)%nat.
Proof.
  unfold ple, pbind, ptake. destruct (Nat.leb_spec n (length bs)); [|done].
  intros [= _ <-]. rewrite length_drop. lia.
Qed.

Lemma take_members_length n bs ms rest :
  take_members n bs = inr (ms, rest) -> length ms = n /\ length bs = (4 * n + length rest)%nat.
Proof.
  revert bs ms. induction n as [|n IH]; intros bs ms; [by intros [= <- <-]|].
  cbn [take_members]. unfold pbind. destruct (take_u32 bs) as [|[m bs1]] eqn:H1; [done|].
  destruct (take_members n bs1) as [|[ms1 bs2]] eqn:H2; [done|]. intros [= <- <-].
  apply ple_length in H1. apply IH in H2 as [<- H2]. simpl. lia.
Qed.

(** ** An estimator for closed examples: empty, or three one-byte members at some address. *)

Definition triple_estimators : Estimators := {|
  Estimator := option (byte * byte * byte);
  ce_serialize := fun e =>
    match e with
    | None => (0, None)
    | Some (a, b, c) => (0x7f0012345671, Some [b2z a; b2z b; b2z c])
    end;
  ce_deserialize := fun r =>
    match r with
    | (0, None) => Some None
    | (1, Some [a; b; c]) => Some (Some (z2b a, z2b b, z2b c))
    | _ => None
    end
|}.

#[global] Instance triple_estimators_ok : EstimatorsOk triple_estimators.
Proof.
  split; cbn [ce_serialize ce_deserialize triple_estimators].
  - intros [[[a b] c]|] data [= <-]. done.
  - intros [[[a b] c]|] data members [= <- <-]. split; [done|]. split.
    { repeat constructor; match goal with |- context [b2z ?x] => pose proof (b2z_range x) end; lia. }
    change (Z.land 0x7f0012345671 3) with 1. split; [left; done|]. by rewrite !z2b_b2z.
Qed.



(** Whatever a blob declares, the members a decoder takes number at most one HLL slice, the
    capacity it asks for holds them and is no larger than that slice, and the whole blob is
    exactly the word, the presence byte, the length and those members. *)
Theorem hll_blob_bounded bs data members rest :
  deserialize_representation bs = inr ((data, Some members), rest) ->
  exists cap,
    validate_members_len (Z.land data 0x3) (Z.of_nat (length members)) = inr cap /\
    Z.of_nat (length members) <= cap <= CE_HLL_SLICE_LEN /\
    blen bs = 13 + 4 * Z.of_nat (length members) + blen rest.
Proof.
  unfold deserialize_representation, deserialize_members, pbind.
  destruct (take_u64 bs) as [|[d bs1]] eqn:H1; [done|].
  destruct (take_u8 bs1) as [|[p bs2]] eqn:H2; [done|].
  case_match; [done|]. case_match; [|done].
  destruct (take_u32 bs2) as [|[len bs3]] eqn:H3; [done|].
  destruct (validate_members_len (Z.land d 3) len) as [|cap] eqn:Hv; [done|].
  destruct (take_members (Z.to_nat len) bs3) as [|[ms bs4]] eqn:H4; [done|]. intros [= <- <- <-].
  apply ple_length in H1, H2. pose proof (pgives_le _ 4 _ _ _ H3) as [Hl0 _].
  apply ple_length in H3. apply take_members_length in H4 as [Hl H4].
  rewrite Hl, Z2Nat.id by lia. exists cap. split; [done|].
  split; [by eapply validate_members_len_cap|]. unfold blen. lia.
Qed.

Lemma hll_blob_bounded_witness :
  exists cap, validate_members_len 1 3 = inr cap /\ 3 <= cap <= CE_HLL_SLICE_LEN.
Proof.
  destruct (hll_blob_bounded (hll_write (1, Some [7; 8; 9])) 1 [7; 8; 9] []) as (cap & H1 & H2 & _).
  - vm_compute. reflexivity.
  - exists cap. split; [exact H1|exact H2].
Defined.
