(* ===== verification/Model.v ===== *)
(** * The event model

    The types of crates/logit-core/src: values, attribute maps, log, metric and span records,
    events, and the batches that carry them. An [f64] is its 64-bit pattern, a [u32] or [i64] a [Z]
    whose range the well-formedness predicates state, [Bytes] and [String] a byte list, and an
    array [[u8; N]] a byte list of length [N]. [Arc] and [Box] are transparent.

    A metric can carry a quantile sketch ([Sketch]) or a cardinality estimator ([Hll]); the code
    outside the repository they rest on, the mathematical library and the estimator's crate, is the
    class [Summaries]. *)

From S2P Require Import Prelude Codec Utf8 Float Sketch Hll.

#[local] Set Warnings "-register-all".

(** ** The interner

    [Symbol] is [lasso::Spur], a nonzero index whose order is interning order. [intern] and
    [resolve] are [lasso]'s table, the same for the whole process; the table only grows, so the
    model fixes the symbol each string has or will get. *)

Abbreviation Symbol := positive.

Class Interner := {
  intern : bytes -> Symbol;
  resolve : Symbol -> bytes
}.

(** What [lasso] documents: resolving an interned string gives the string back. *)
Class InternerOk (I : Interner) : Prop := {
  resolve_intern : forall s, utf8_valid s = true -> resolve (intern s) = s
}.

(** A symbol [intern] handed out: the only ones [resolve] accepts. *)
Definition live `{Interner} (sym : Symbol) : Prop :=
  utf8_valid (resolve sym) = true /\ intern (resolve sym) = sym.

(** ** Values and attribute maps *)

Inductive Value :=
| VNull
| VBool (b : bool)
| VI64 (v : Z)
| VU64 (v : Z)
| VF64 (v : f64)
| VBytes (bs : bytes)
| VStr (bs : bytes)
| VTimestamp (v : Z)
| VArray (items : list Value)
| VMap (m : list (Symbol * Value)).

(** The sorted vector of pairs behind [AttrMap]. *)
Abbreviation AttrMap := (list (Symbol * Value)).

(** ** Enumerations *)

Inductive Severity := SevTrace | SevDebug | SevInfo | SevWarn | SevError | SevFatal.

Inductive BodyFormat := BodyRaw | BodyJson | BodyStructured.

Inductive Temporality := Delta | Cumulative.

Inductive SpanKind := SpanInternal | SpanServer | SpanClient | SpanProducer | SpanConsumer.

Inductive SpanStatus := StatusUnset | StatusOk | StatusError.

#[global] Instance Severity_eq_dec : EqDecision Severity.
Proof. solve_decision. Defined.
#[global] Instance BodyFormat_eq_dec : EqDecision BodyFormat.
Proof. solve_decision. Defined.
#[global] Instance Temporality_eq_dec : EqDecision Temporality.
Proof. solve_decision. Defined.
#[global] Instance SpanKind_eq_dec : EqDecision SpanKind.
Proof. solve_decision. Defined.
#[global] Instance SpanStatus_eq_dec : EqDecision SpanStatus.
Proof. solve_decision. Defined.

(** ** Records *)

Record TraceRef := mkTraceRef {
  tr_trace_id : bytes;
  tr_span_id : option bytes;
  tr_flags : Z
}.

Inductive MetricValue :=
| MvF64 (v : f64)
| MvI64 (v : Z)
| MvU64 (v : Z)
| MvBool (b : bool).

(** The derived [PartialEq]: same variant and, for floats, IEEE equality. *)
Definition MetricValue_eqb (x y : MetricValue) : bool :=
  match x, y with
  | MvF64 a, MvF64 b => f64_eqb a b
  | MvI64 a, MvI64 b => a =? b
  | MvU64 a, MvU64 b => a =? b
  | MvBool a, MvBool b => eqb a b
  | _, _ => false
  end.

Record Sum := mkSum { sum_value : MetricValue; sum_temporality : Temporality; sum_monotonic : bool }.

Record Samples := mkSamples { samples_values : list f64; samples_rate : f64 }.

Record Histogram := mkHistogram {
  h_buckets : list (f64 * Z);
  h_temporality : Temporality;
  h_sum : option f64;
  h_min : option f64;
  h_max : option f64
}.

Record ExpHistogram := mkExpHistogram {
  eh_scale : Z;
  eh_zero_count : Z;
  eh_zero_threshold : f64;
  eh_positive : Z * list Z;
  eh_negative : Z * list Z;
  eh_temporality : Temporality;
  eh_count : Z;
  eh_sum : option f64;
  eh_min : option f64;
  eh_max : option f64
}.

Record Summary := mkSummary {
  sm_quantiles : list (f64 * f64);
  sm_count : Z;
  sm_sum : f64;
  sm_temporality : Temporality
}.

(** What the two summaries rest on. *)
Class Summaries := {
  summaries_libm :: Libm;
  summaries_estimators :: Estimators
}.

Class SummariesOk (S : Summaries) : Prop := {
  summaries_libm_ok :: LibmOk summaries_libm;
  summaries_estimators_ok :: EstimatorsOk summaries_estimators
}.

Abbreviation HyperLogLog := Estimator.

Inductive MetricKind `{Summaries} :=
| MkSum (s : Sum)
| MkGauge (v : MetricValue)
| MkGaugeDelta (v : MetricValue)
| MkSamples (s : Samples)
| MkDistribution (sketch : DdSketch)
| MkSetMembers (members : list bytes)
| MkSet (hll : HyperLogLog)
| MkHistogram (h : Histogram)
| MkExponentialHistogram (e : ExpHistogram)
| MkSummary (s : Summary).

Record Exemplar := mkExemplar {
  ex_timestamp : Z;
  ex_value : MetricValue;
  ex_trace : option TraceRef;
  ex_filtered_attributes : AttrMap
}.

Record MetricRecord `{Summaries} := mkMetricRecord {
  mr_name : Symbol;
  mr_unit : option Symbol;
  mr_description : option Symbol;
  mr_start_timestamp : Z;
  mr_exemplars : list Exemplar;
  mr_flags : Z;
  mr_kind : MetricKind
}.

#[global] Arguments mkMetricRecord {_}.

Record LogRecord := mkLogRecord {
  lr_message : Value;
  lr_severity : option Severity;
  lr_body_format : BodyFormat;
  lr_trace : option TraceRef;
  lr_event_name : option Symbol;
  lr_observed_timestamp : Z;
  lr_dropped_attributes_count : Z
}.

Record SpanEvent := mkSpanEvent {
  se_timestamp : Z;
  se_name : Value;
  se_attributes : AttrMap;
  se_dropped_attributes_count : Z
}.

Record SpanLink := mkSpanLink {
  sl_trace_id : bytes;
  sl_span_id : bytes;
  sl_attributes : AttrMap;
  sl_flags : Z;
  sl_trace_state : option bytes;
  sl_dropped_attributes_count : Z
}.

Record SpanExt := mkSpanExt {
  sx_status_message : option bytes;
  sx_trace_state : option bytes;
  sx_dropped_attributes_count : Z;
  sx_dropped_events_count : Z;
  sx_dropped_links_count : Z
}.

Record SpanRecord := mkSpanRecord {
  sr_trace_id : bytes;
  sr_span_id : bytes;
  sr_parent_span_id : option bytes;
  sr_name : Value;
  sr_kind : SpanKind;
  sr_status : SpanStatus;
  sr_events : list SpanEvent;
  sr_links : list SpanLink;
  sr_end_timestamp : Z;
  sr_flags : Z;
  sr_ext : option SpanExt
}.

Record Event `{Summaries} := mkEvent {
  ev_timestamp : Z;
  ev_attributes : AttrMap;
  ev_log : option LogRecord;
  ev_metrics : list MetricRecord;
  ev_span : option SpanRecord
}.

#[global] Arguments mkEvent {_}.

Record Resource := mkResource {
  res_attributes : AttrMap;
  res_dropped_attributes_count : Z;
  res_schema_url : option bytes
}.

Record Scope := mkScope {
  scope_name : bytes;
  scope_version : bytes;
  scope_attributes : AttrMap;
  scope_dropped_attributes_count : Z;
  scope_schema_url : option bytes
}.

Record EventBatch `{Summaries} := mkEventBatch {
  batch_resource : Resource;
  batch_scope : option Scope;
  batch_events : list Event
}.

#[global] Arguments mkEventBatch {_}.

Record Provenance := mkProvenance { origin : option Symbol; previous : option Symbol }.

(** ** Induction over nested values *)

Section ValueInd.
Variable P : Value -> Prop.
Hypothesis Hnull : P VNull.
Hypothesis Hbool : forall b, P (VBool b).
Hypothesis Hi64 : forall v, P (VI64 v).
Hypothesis Hu64 : forall v, P (VU64 v).
Hypothesis Hf64 : forall v, P (VF64 v).
Hypothesis Hbytes : forall b, P (VBytes b).
Hypothesis Hstr : forall b, P (VStr b).
Hypothesis Hts : forall v, P (VTimestamp v).
Hypothesis Harr : forall l, Forall P l -> P (VArray l).
Hypothesis Hmap : forall m, Forall (fun kv => P kv.2) m -> P (VMap m).

Fixpoint Value_nested_ind (v : Value) : P v :=
  match v with
  | VNull => Hnull
  | VBool b => Hbool b
  | VI64 v => Hi64 v
  | VU64 v => Hu64 v
  | VF64 v => Hf64 v
  | VBytes b => Hbytes b
  | VStr b => Hstr b
  | VTimestamp v => Hts v
  | VArray l => Harr l ((fix go l : Forall P l :=
      match l with
      | [] => Forall_nil_2 P
      | x :: l => Forall_cons_2 P x l (Value_nested_ind x) (go l)
      end) l)
  | VMap m => Hmap m ((fix go m : Forall (fun kv => P kv.2) m :=
      match m with
      | [] => Forall_nil_2 _
      | (k, x) :: m => Forall_cons_2 (fun kv => P kv.2) (k, x) m (Value_nested_ind x) (go m)
      end) m)
  end.
End ValueInd.

(** The depth of the deepest value inside a value, the value itself being at depth 0. *)
Fixpoint value_depth (v : Value) : nat :=
  match v with
  | VArray items => foldr (fun x acc => Nat.max (S (value_depth x)) acc) 0%nat items
  | VMap m => foldr (fun kv acc => Nat.max (S (value_depth kv.2)) acc) 0%nat m
  | _ => 0%nat
  end.

Definition map_depth (m : AttrMap) : nat :=
  foldr (fun kv acc => Nat.max (value_depth kv.2) acc) 0%nat m.
