(* ===== verification/Instances.v ===== *)
(** * Concrete interners and summaries

    Two interners that obey [lasso]'s contract and name the same strings by different symbols, as
    two processes do, and the example summaries. Closed examples are evaluated with them. *)

From S2P Require Import Prelude Codec Utf8 Float Sketch SketchOps Hll Model.

(** A symbol is an encoding of its string. *)
Definition sender_interner : Interner := {|
  intern := fun s => encode s;
  resolve := fun sym => default [] (decode sym)
|}.

(** A symbol is an encoding of its string reversed: another order on the same names. *)
Definition receiver_interner : Interner := {|
  intern := fun s => encode (reverse s);
  resolve := fun sym => reverse (default [] (decode sym))
|}.

#[global] Instance sender_interner_ok : InternerOk sender_interner.
Proof. split. intros s _. simpl. by rewrite decode_encode. Qed.

#[global] Instance receiver_interner_ok : InternerOk receiver_interner.
Proof. split. intros s _. simpl. rewrite decode_encode. simpl. by rewrite reverse_involutive. Qed.

Definition sample_summaries : Summaries := {|
  summaries_libm := sign_libm;
  summaries_estimators := triple_estimators
|}.

#[global] Instance sample_summaries_ok : SummariesOk sample_summaries.
Proof. split; [exact sign_libm_ok|exact triple_estimators_ok]. Qed.
