(* ===== verification/AttrMap.v ===== *)
(** * The attribute map

    [AttrMap] of crates/logit-core/src/attrs.rs: a vector of pairs sorted by interned key, searched
    by bisection, and [merged], the merge-join of a resource's and an event's attributes.

    The abstract specification is a finite map: [to_map] reads a sorted vector as one, every
    operation refines the finite-map operation, and a map has one sorted vector. *)

From stdpp Require Import sorting.
From S2P Require Import Prelude Model.

Section AttrMap.
Context {V : Type}.
Implicit Types (m : list (Symbol * V)) (k : Symbol) (v : V).

(** [slice::partition_point]: the length of the prefix on which [p] holds. *)
Fixpoint partition_point (p : Symbol * V -> bool) (m : list (Symbol * V)) : nat :=
  match m with
  | [] => 0
  | e :: m => if p e then S (partition_point p m) else 0
  end.

(** [slice::binary_search_by_key] on a sorted slice: [inl i] where the key is, [inr i] where it
    would go. *)
Definition binary_search_by_key (m : list (Symbol * V)) (k : Symbol) : nat + nat :=
  let i := partition_point (fun e => (e.1 <? k)%positive) m in
  match m !! i with
  | Some e => if (e.1 =? k)%positive then inl i else inr i
  | None => inr i
  end.

Definition get_sym (m : list (Symbol * V)) (key : Symbol) : option V :=
  match binary_search_by_key m key with
  | inl i => snd <$> m !! i
  | inr _ => None
  end.

(** [Vec::insert] shifts the tail; an in-place assignment keeps the key. *)
Definition insert_sym (m : list (Symbol * V)) (key : Symbol) (value : V) : list (Symbol * V) :=
  match binary_search_by_key m key with
  | inl i => <[i := (key, value)]> m
  | inr i => take i m ++ (key, value) :: drop i m
  end.

Definition remove_sym (m : list (Symbol * V)) (key : Symbol) : option V * list (Symbol * V) :=
  match binary_search_by_key m key with
  | inl i => (snd <$> m !! i, take i m ++ drop (S i) m)
  | inr _ => (None, m)
  end.

Definition entry_after (m : list (Symbol * V)) (after : option Symbol) : option (Symbol * V) :=
  let i := match after with
           | None => 0%nat
           | Some after => partition_point (fun e => (e.1 <=? after)%positive) m
           end in
  m !! i.

Definition last_key (m : list (Symbol * V)) : option Symbol := fst <$> last m.

(** The merge-join of [merged]: both sides in key order, the event's value winning on a tie. *)
Fixpoint merged (resource : list (Symbol * V)) : list (Symbol * V) -> list (Symbol * V) :=
  fix go (event : list (Symbol * V)) : list (Symbol * V) :=
    match resource, event with
    | (r, rv) :: resource', (e, ev) :: event' =>
        match (r ?= e)%positive with
        | Lt => (r, rv) :: merged resource' event
        | Gt => (e, ev) :: go event'
        | Eq => (e, ev) :: merged resource' event'
        end
    | _ :: _, [] => resource
    | [], _ => event
    end.

(** ** The invariant *)

(** Strictly ascending keys. *)
Definition attrs_wf (m : list (Symbol * V)) : Prop := StronglySorted Pos.lt m.*1.

(** The finite map a vector stands for. *)
Definition to_map (m : list (Symbol * V)) : gmap Symbol V := list_to_map m.

Lemma attrs_wf_nil : attrs_wf [].
Proof. constructor. Qed.

Lemma attrs_wf_cons k v m :
  attrs_wf ((k, v) :: m) <-> attrs_wf m /\ Forall (fun e => (k < e.1)%positive) m.
Proof.
  unfold attrs_wf. simpl. split.
  - intros H. apply StronglySorted_inv in H as [H1 H2]. by rewrite Forall_map in H2.
  - intros [H1 H2]. constructor; [done|]. by rewrite Forall_map.
Qed.

(** The three shapes a search can have in a sorted vector. *)
Lemma partition_point_split p m :
  m = take (partition_point p m) m ++ drop (partition_point p m) m.
Proof. by rewrite take_drop. Qed.

Lemma search_cons_lt k v m key :
  (k < key)%positive ->
  binary_search_by_key ((k, v) :: m) key =
  match binary_search_by_key m key with inl i => inl (S i) | inr i => inr (S i) end.
Proof.
  intros Hlt. unfold binary_search_by_key. simpl.
  rewrite (proj2 (Pos.ltb_lt k key)) by done. simpl. by repeat case_match.
Qed.

Lemma search_cons_eq key v m : binary_search_by_key ((key, v) :: m) key = inl 0%nat.
Proof. unfold binary_search_by_key. simpl. rewrite Pos.ltb_irrefl. simpl. by rewrite Pos.eqb_refl. Qed.

Lemma search_cons_gt k v m key :
  (key < k)%positive -> binary_search_by_key ((k, v) :: m) key = inr 0%nat.
Proof.
  intros Hgt. unfold binary_search_by_key. simpl.
  destruct (Pos.ltb_spec k key); [lia|]. simpl. by destruct (Pos.eqb_spec k key); [lia|].
Qed.

(** The operations by recursion on the vector: what the index arithmetic computes. *)
Lemma get_sym_cons k v m key :
  get_sym ((k, v) :: m) key =
  match (k ?= key)%positive with Lt => get_sym m key | Eq => Some v | Gt => None end.
Proof.
  unfold get_sym. destruct (Pos.compare_spec k key) as [->|H|H].
  - by rewrite search_cons_eq.
  - rewrite search_cons_lt by done. by destruct (binary_search_by_key m key).
  - by rewrite search_cons_gt.
Qed.

Lemma insert_sym_cons k v m key v' :
  insert_sym ((k, v) :: m) key v' =
  match (k ?= key)%positive with
  | Lt => (k, v) :: insert_sym m key v'
  | Eq => (key, v') :: m
  | Gt => (key, v') :: (k, v) :: m
  end.
Proof.
  unfold insert_sym. destruct (Pos.compare_spec k key) as [->|H|H].
  - by rewrite search_cons_eq.
  - rewrite search_cons_lt by done. by destruct (binary_search_by_key m key).
  - by rewrite search_cons_gt.
Qed.

Lemma remove_sym_cons k v m key :
  remove_sym ((k, v) :: m) key =
  match (k ?= key)%positive with
  | Lt => (fst (remove_sym m key), (k, v) :: snd (remove_sym m key))
  | Eq => (Some v, m)
  | Gt => (None, (k, v) :: m)
  end.
Proof.
  unfold remove_sym. destruct (Pos.compare_spec k key) as [->|H|H].
  - rewrite search_cons_eq. simpl. by rewrite drop_0.
  - rewrite search_cons_lt by done. by destruct (binary_search_by_key m key).
  - by rewrite search_cons_gt.
Qed.

Lemma get_sym_nil key : get_sym [] key = None.
Proof. done. Qed.

Lemma insert_sym_nil key v : insert_sym [] key v = [(key, v)].
Proof. done. Qed.

Lemma remove_sym_nil key : remove_sym [] key = (None, []).
Proof. done. Qed.

Lemma insert_sym_forall (P : Symbol -> Prop) m key v :
  Forall (fun e => P e.1) m -> P key -> Forall (fun e => P e.1) (insert_sym m key v).
Proof.
  intros HF Hk. induction HF as [|[k' v'] m Hk' HF IH].
  - by repeat constructor.
  - rewrite insert_sym_cons. case_match; repeat (constructor; try done).
Qed.

Lemma insert_sym_wf m key v : attrs_wf m -> attrs_wf (insert_sym m key v).
Proof.
  induction m as [|[k v'] m IH]; intros Hwf; [by repeat constructor|].
  apply attrs_wf_cons in Hwf as [Hwf HF]. rewrite insert_sym_cons.
  destruct (Pos.compare_spec k key) as [->|H|H].
  - by apply attrs_wf_cons.
  - apply attrs_wf_cons. split; [by apply IH|].
    apply (insert_sym_forall (fun x => (k < x)%positive)); done.
  - apply attrs_wf_cons. split; [by apply attrs_wf_cons|].
    constructor; [done|]. eapply Forall_impl; [exact HF|]. simpl. lia.
Qed.

Lemma remove_sym_sublist m key : sublist (snd (remove_sym m key)) m.
Proof.
  induction m as [|[k v] m IH]; [done|]. rewrite remove_sym_cons.
  case_match; simpl; [by constructor|by constructor|done].
Qed.

Lemma remove_sym_wf m key : attrs_wf m -> attrs_wf (snd (remove_sym m key)).
Proof.
  induction m as [|[k v] m IH]; intros Hwf; [constructor|].
  apply attrs_wf_cons in Hwf as [Hwf HF]. rewrite remove_sym_cons.
  destruct (k ?= key)%positive; simpl; [done| |by apply attrs_wf_cons].
  apply attrs_wf_cons. split; [by apply IH|].
  rewrite Forall_forall in HF |- *. intros e He. apply HF.
  eapply elem_of_sublist; [exact He|apply remove_sym_sublist].
Qed.

(** ** Refinement of the finite map *)

Lemma to_map_lookup_lt m k : Forall (fun e => (k < e.1)%positive) m -> to_map m !! k = None.
Proof.
  intros HF. apply not_elem_of_list_to_map_1. intros Hin.
  apply list_elem_of_fmap in Hin as ([k' v'] & -> & Hin).
  rewrite Forall_forall in HF. specialize (HF _ Hin). simpl in HF. lia.
Qed.

Lemma get_sym_spec m key : attrs_wf m -> get_sym m key = to_map m !! key.
Proof.
  induction m as [|[k v] m IH]; intros Hwf; [done|].
  apply attrs_wf_cons in Hwf as [Hwf HF]. rewrite get_sym_cons. unfold to_map. simpl.
  destruct (Pos.compare_spec k key) as [->|H|H].
  - by rewrite lookup_insert_eq.
  - rewrite lookup_insert_ne by lia. by apply IH.
  - rewrite lookup_insert_ne by lia. symmetry. apply to_map_lookup_lt.
    eapply Forall_impl; [exact HF|]. simpl. lia.
Qed.

Lemma insert_sym_spec m key v : attrs_wf m -> to_map (insert_sym m key v) = <[key := v]> (to_map m).
Proof.
  induction m as [|[k v'] m IH]; intros Hwf; [done|].
  apply attrs_wf_cons in Hwf as [Hwf HF]. rewrite insert_sym_cons. unfold to_map. simpl.
  destruct (Pos.compare_spec k key) as [->|H|H]; simpl.
  - by rewrite insert_insert_eq.
  - fold (to_map m). rewrite insert_insert_ne by lia. f_equal. by apply IH.
  - done.
Qed.

Lemma remove_sym_spec m key :
  attrs_wf m ->
  fst (remove_sym m key) = to_map m !! key /\
  to_map (snd (remove_sym m key)) = delete key (to_map m).
Proof.
  induction m as [|[k v] m IH]; intros Hwf; [unfold to_map; simpl; by rewrite delete_empty|].
  apply attrs_wf_cons in Hwf as [Hwf HF]. rewrite remove_sym_cons. unfold to_map. simpl.
  destruct (Pos.compare_spec k key) as [->|H|H]; simpl.
  - rewrite lookup_insert_eq. split; [done|]. rewrite delete_insert_eq.
    fold (to_map m). rewrite delete_id; [done|]. by apply to_map_lookup_lt.
  - rewrite lookup_insert_ne, delete_insert_ne by lia.
    destruct (IH Hwf) as [H1 H2]. split; [done|]. f_equal. exact H2.
  - assert (to_map m !! key = None) as Hn.
    { apply to_map_lookup_lt. eapply Forall_impl; [exact HF|]. simpl. lia. }
    fold (to_map m). rewrite lookup_insert_ne, delete_insert_ne by lia.
    split; [done|]. by rewrite delete_id.
Qed.

(** A finite map has one sorted vector: [PartialEq] on the vectors is map equality. *)
Lemma to_map_inj m1 m2 : attrs_wf m1 -> attrs_wf m2 -> to_map m1 = to_map m2 -> m1 = m2.
Proof.
  revert m2. induction m1 as [|[k1 v1] m1 IH]; intros [|[k2 v2] m2] W1 W2 E; [done| | |].
  - apply (f_equal (lookup k2)) in E. unfold to_map in E. simpl in E.
    by rewrite lookup_empty, lookup_insert_eq in E.
  - apply (f_equal (lookup k1)) in E. unfold to_map in E. simpl in E.
    by rewrite lookup_empty, lookup_insert_eq in E.
  - apply attrs_wf_cons in W1 as [W1 F1]. apply attrs_wf_cons in W2 as [W2 F2].
    unfold to_map in E. simpl in E. fold (to_map m1) (to_map m2) in E.
    assert (k1 = k2) as <-.
    { destruct (Pos.lt_total k1 k2) as [H|[H|H]]; [|done|].
      - apply (f_equal (lookup k1)) in E. rewrite lookup_insert_eq, lookup_insert_ne in E by lia.
        rewrite to_map_lookup_lt in E; [done|]. eapply Forall_impl; [exact F2|]. simpl. lia.
      - apply (f_equal (lookup k2)) in E. rewrite lookup_insert_eq, lookup_insert_ne in E by lia.
        rewrite to_map_lookup_lt in E; [done|]. eapply Forall_impl; [exact F1|]. simpl. lia. }
    assert (v1 = v2) as <-.
    { apply (f_equal (lookup k1)) in E. rewrite !lookup_insert_eq in E. congruence. }
    f_equal. apply IH; [done..|].
    apply (f_equal (delete k1)) in E. rewrite !delete_insert_eq in E.
    by rewrite !delete_id in E by by apply to_map_lookup_lt.
Qed.

(** ** Inserting many entries *)

(** The loop [for (k, v) in es { map.insert_sym(k, v) }]. *)
Definition insert_all (m es : list (Symbol * V)) : list (Symbol * V) :=
  foldl (fun m e => insert_sym m e.1 e.2) m es.

Lemma insert_all_wf m es : attrs_wf m -> attrs_wf (insert_all m es).
Proof.
  revert m. induction es as [|e es IH]; intros m Hm; [done|]. apply IH. by apply insert_sym_wf.
Qed.

(** Inserting past the last key appends. *)
Lemma insert_sym_last m key v :
  Forall (fun e => (e.1 < key)%positive) m -> insert_sym m key v = m ++ [(key, v)].
Proof.
  induction 1 as [|[k v'] m Hk HF IH]; [done|]. rewrite insert_sym_cons.
  simpl in Hk. rewrite (proj2 (Pos.compare_lt_iff k key)) by done. by rewrite IH.
Qed.

(** Re-inserting a sorted vector's entries in order rebuilds the vector. *)
Lemma insert_all_sorted m1 m2 : attrs_wf (m1 ++ m2) -> insert_all m1 m2 = m1 ++ m2.
Proof.
  revert m1. induction m2 as [|[k v] m2 IH]; intros m1 Hwf; [by rewrite app_nil_r|].
  unfold insert_all. simpl. fold (insert_all (insert_sym m1 k v) m2).
  rewrite insert_sym_last.
  - rewrite IH; by rewrite <- app_assoc.
  - clear IH. induction m1 as [|[k1 v1] m1 IH]; [done|].
    simpl in Hwf. apply attrs_wf_cons in Hwf as [Hwf HF].
    apply Forall_app in HF as [_ HF]. apply Forall_cons in HF as [Hk _].
    constructor; [done|by apply IH].
Qed.

(** ** The merge-join *)

Lemma merged_nil_l e : merged [] e = e.
Proof. by destruct e. Qed.

Lemma merged_nil_r r : merged r [] = r.
Proof. by destruct r as [|[k v] r]. Qed.

Lemma merged_cons r rv rs e ev es :
  merged ((r, rv) :: rs) ((e, ev) :: es) =
  match (r ?= e)%positive with
  | Lt => (r, rv) :: merged rs ((e, ev) :: es)
  | Gt => (e, ev) :: merged ((r, rv) :: rs) es
  | Eq => (e, ev) :: merged rs es
  end.
Proof. done. Qed.

Lemma merged_forall (P : Symbol * V -> Prop) r e :
  Forall P r -> Forall P e -> Forall P (merged r e).
Proof.
  intros Hr. revert e. induction Hr as [|[k v] r Hk Hr IHr]; intros e He; [by rewrite merged_nil_l|].
  induction He as [|[k' v'] e Hk' He IHe]; [by rewrite merged_nil_r; constructor|].
  rewrite merged_cons. case_match; constructor; auto.
Qed.

Lemma merged_spec r e :
  attrs_wf r -> attrs_wf e ->
  attrs_wf (merged r e) /\ to_map (merged r e) = to_map e ∪ to_map r.
Proof.
  revert e. induction r as [|[k v] r IHr]; intros e Wr We.
  { rewrite merged_nil_l. split; [done|]. unfold to_map at 3. simpl. by rewrite (right_id_L ∅ (∪)). }
  induction e as [|[k' v'] e IHe].
  { rewrite merged_nil_r. split; [done|]. unfold to_map at 2. simpl. by rewrite (left_id_L ∅ (∪)). }
  pose proof (proj1 (attrs_wf_cons _ _ _) Wr) as [Wr' Fr].
  pose proof (proj1 (attrs_wf_cons _ _ _) We) as [We' Fe].
  rewrite merged_cons. destruct (Pos.compare_spec k k') as [->|H|H].
  - destruct (IHr e Wr' We') as [W E]. split.
    + apply attrs_wf_cons. split; [done|]. by apply merged_forall.
    + unfold to_map in *. simpl. rewrite E. apply map_eq. intros i.
      rewrite lookup_union. destruct (decide (i = k')) as [->|Hne].
      * by rewrite !lookup_insert_eq.
      * rewrite !lookup_insert_ne by done. by rewrite lookup_union.
  - destruct (IHr ((k', v') :: e) Wr' We) as [W E]. split.
    + apply attrs_wf_cons. split; [done|]. apply merged_forall; [done|].
      constructor; [done|]. eapply Forall_impl; [exact Fe|]. simpl. lia.
    + unfold to_map in *. cbn [list_to_map foldr fst snd] in *. rewrite E.
      rewrite <- insert_union_r; [done|].
      fold (to_map e). rewrite lookup_insert_ne by lia. apply to_map_lookup_lt.
      eapply Forall_impl; [exact Fe|]. simpl. lia.
  - destruct (IHe We') as [W E]. split.
    + apply attrs_wf_cons. split; [done|]. apply merged_forall; [|done].
      constructor; [done|]. eapply Forall_impl; [exact Fr|]. simpl. lia.
    + unfold to_map in *. cbn [list_to_map foldr fst snd] in *. rewrite E. by rewrite insert_union_l.
Qed.

Lemma insert_all_spec m es :
  attrs_wf m -> NoDup es.*1 -> to_map (insert_all m es) = to_map es ∪ to_map m.
Proof.
  revert m. induction es as [|[k v] es IH]; intros m Hm Hnd.
  { unfold to_map at 2. simpl. by rewrite (left_id_L ∅ (∪)). }
  simpl in Hnd. apply NoDup_cons in Hnd as [Hk Hnd].
  unfold insert_all. simpl. fold (insert_all (insert_sym m k v) es).
  rewrite IH by (done || by apply insert_sym_wf). rewrite insert_sym_spec by done.
  unfold to_map. simpl. rewrite <- insert_union_l, <- insert_union_r; [done|].
  by apply not_elem_of_list_to_map_1.
Qed.

Lemma attrs_wf_NoDup m : attrs_wf m -> NoDup m.*1.
Proof.
  induction m as [|[k v] m IH]; intros Hwf; [constructor|].
  apply attrs_wf_cons in Hwf as [Hwf HF]. simpl. constructor; [|by apply IH].
  intros Hin. apply list_elem_of_fmap in Hin as ([k' v'] & -> & Hin).
  rewrite Forall_forall in HF. specialize (HF _ Hin). simpl in HF. lia.
Qed.

(** ** Stepping by key *)

Lemma entry_after_cons k v m after :
  entry_after ((k, v) :: m) (Some after) =
  if (k <=? after)%positive then entry_after m (Some after) else Some (k, v).
Proof. unfold entry_after. simpl. by destruct (k <=? after)%positive. Qed.

Lemma entry_after_spec m after k v :
  attrs_wf m ->
  entry_after m (Some after) = Some (k, v) <->
  to_map m !! k = Some v /\ (after < k)%positive /\
  forall k', (after < k' < k)%positive -> to_map m !! k' = None.
Proof.
  induction m as [|[k0 v0] m IH]; intros Hwf.
  { split; [done|]. intros (H & _). unfold to_map in H. simpl in H. by rewrite lookup_empty in H. }
  apply attrs_wf_cons in Hwf as [Hwf HF]. rewrite entry_after_cons.
  unfold to_map. simpl. fold (to_map m). destruct (Pos.leb_spec k0 after) as [Hle|Hgt].
  - rewrite IH by done. split.
    + intros (H1 & H2 & H3). rewrite lookup_insert_ne by lia. split; [done|]. split; [done|].
      intros k' Hk'. rewrite lookup_insert_ne by lia. by apply H3.
    + intros (H1 & H2 & H3). rewrite lookup_insert_ne in H1 by lia. split; [done|]. split; [done|].
      intros k' Hk'. specialize (H3 k' Hk'). by rewrite lookup_insert_ne in H3 by lia.
  - split.
    + intros [= <- <-]. rewrite lookup_insert_eq. split; [done|]. split; [done|].
      intros k' Hk'. rewrite lookup_insert_ne by lia. apply to_map_lookup_lt.
      eapply Forall_impl; [exact HF|]. simpl. lia.
    + intros (H1 & H2 & H3). destruct (decide (k0 = k)) as [->|Hne].
      { rewrite lookup_insert_eq in H1. by injection H1 as ->. }
      rewrite lookup_insert_ne in H1 by done. exfalso.
      destruct (Pos.lt_total k0 k) as [Hlt|[->|Hlt]]; [|done|].
      * specialize (H3 k0 ltac:(lia)). by rewrite lookup_insert_eq in H3.
      * rewrite to_map_lookup_lt in H1; [done|]. eapply Forall_impl; [exact HF|]. simpl. lia.
Qed.
End AttrMap.

(** C40: an attribute map is a finite map kept as its one sorted vector. From any sorted vector,
    lookup, insertion (overwriting included) and removal keep the vector sorted and do what the
    finite-map operations do, and two sorted vectors of the same finite map are equal, so the
    derived equality of two maps is equality of their contents. *)
Theorem attr_map_refines_finite_map {V} (m m' : list (Symbol * V)) (k : Symbol) (v : V)
  (Hm : attrs_wf m) (Hm' : attrs_wf m') :
  get_sym m k = to_map m !! k /\
  attrs_wf (insert_sym m k v) /\ to_map (insert_sym m k v) = <[k := v]> (to_map m) /\
  attrs_wf (snd (remove_sym m k)) /\ fst (remove_sym m k) = to_map m !! k /\
  to_map (snd (remove_sym m k)) = delete k (to_map m) /\
  (to_map m = to_map m' -> m = m').
Proof.
  destruct (remove_sym_spec m k Hm). repeat split;
    eauto using get_sym_spec, insert_sym_wf, insert_sym_spec, remove_sym_wf, to_map_inj.
Qed.

Lemma attr_map_refines_finite_map_witness :
  to_map (insert_sym [(2, 10); (5, 20)] 3 7)%positive =
  <[3%positive := 7%positive]> (to_map [(2, 10); (5, 20)]%positive).
Proof.
  refine (proj1 (proj2 (proj2 (attr_map_refines_finite_map
    [(2, 10); (5, 20)]%positive [] 3%positive 7%positive _ _))));
    unfold attrs_wf; simpl; repeat constructor; lia.
Defined.

(** The merge-join of a resource's and an event's attributes is, entry for entry, what cloning
    the resource's map and inserting the event's attributes into it would give: sorted, every key
    once, and the event's value on a key both have. *)
Theorem merged_is_clone_and_insert {V} (resource event : list (Symbol * V))
  (Hr : attrs_wf resource) (He : attrs_wf event) :
  merged resource event = insert_all resource event.
Proof.
  destruct (merged_spec _ _ Hr He) as [W E]. apply to_map_inj; [done|by apply insert_all_wf|].
  rewrite E, insert_all_spec; [done|done|by apply attrs_wf_NoDup].
Qed.

Lemma merged_is_clone_and_insert_witness :
  merged [(2, 10); (5, 20)]%positive [(1, 3); (5, 9)]%positive =
  insert_all [(2, 10); (5, 20)]%positive [(1, 3); (5, 9)]%positive.
Proof.
  apply merged_is_clone_and_insert; unfold attrs_wf; simpl; repeat constructor; lia.
Defined.

(** A caller that steps through a map by its last key keeps its place when that key is removed
    between steps: [entry_after] answers the entry with the least key past the given one, so
    removing any key up to it changes nothing. *)
Theorem entry_after_survives_removal {V} (m : list (Symbol * V)) (removed after : Symbol)
  (Hm : attrs_wf m) (Hle : (removed <= after)%positive) :
  entry_after (snd (remove_sym m removed)) (Some after) = entry_after m (Some after).
Proof.
  destruct (remove_sym_spec m removed Hm) as [_ E]. pose proof (remove_sym_wf m removed Hm) as W.
  assert (forall e, entry_after (snd (remove_sym m removed)) (Some after) = Some e <->
                    entry_after m (Some after) = Some e) as Hiff.
  { intros [k v]. rewrite !entry_after_spec by done. rewrite E. split.
    - intros (H1 & H2 & H3). rewrite lookup_delete_ne in H1 by lia. split; [done|]. split; [done|].
      intros k' Hk'. specialize (H3 k' Hk'). by rewrite lookup_delete_ne in H3 by lia.
    - intros (H1 & H2 & H3). rewrite lookup_delete_ne by lia. split; [done|]. split; [done|].
      intros k' Hk'. rewrite lookup_delete_ne by lia. by apply H3. }
  destruct (entry_after m (Some after)) as [e|]; [by apply Hiff|].
  destruct (entry_after (snd _) (Some after)) as [e|] eqn:E2; [|done].
  symmetry. by apply Hiff.
Qed.

Lemma entry_after_survives_removal_witness :
  entry_after (snd (remove_sym [(2, 10); (5, 20); (9, 1)]%positive 5%positive)) (Some 5%positive) =
  Some (9, 1)%positive.
Proof.
  rewrite entry_after_survives_removal; [done|unfold attrs_wf; simpl; repeat constructor; lia|lia].
Defined.
