(* ===== verification/Wire.v ===== *)
(** * Length-prefixed slices

    The shape every native section, field, list entry and value has: a varint length checked
    against the bytes left, a slice carved off the buffer, and a reader that must consume it. *)

From S2P Require Import Prelude Codec Budget Reader Varint.

(** [let len = read_uvarint(bytes)?; if bytes.len() < len { Err } ; bytes.split_to(len)]. *)
Definition take_declared (what : string) : reader bytes :=
  let! len := read_uvarint in
  need len (Malformed what) ;!
  split_to len.

(** Runs [r] on [slice]; bytes it leaves are the error [e]. *)
Definition consumed_slice {A} (e : CodecError) (slice : bytes) (r : reader A) : reader A :=
  let! (a, extra) := on_slice slice r in
  match extra with
  | [] => rret a
  | _ :: _ => rfail e
  end.

(** Runs [r] on [slice] and ignores what it leaves. *)
Definition slice_prefix {A} (slice : bytes) (r : reader A) : reader A :=
  let! (a, _) := on_slice slice r in rret a.

(** [if bytes.len() < n { Err }; bytes.copy_to_slice(&mut buf)] into an [n]-byte array. *)
Definition read_fixed (n : Z) (e : CodecError) : reader bytes := need n e ;! split_to n.

(** [if field.len() != n { Err }; field.copy_to_slice(&mut buf)]. *)
Definition take_exact (n : Z) (e : CodecError) : reader bytes := fun bs b =>
  if blen bs =? n then (Ok (bs, []), b) else (Err e, b).

Definition len_prefixed (w : bytes) : bytes := write_uvarint (blen w) ++ w.

Lemma blen_len_prefixed w : blen w < blen (len_prefixed w).
Proof.
  unfold len_prefixed. rewrite blen_app. pose proof (write_uvarint_nonempty (blen w)). lia.
Qed.

(** [reads_back_bind] with the bytes and the cost given up to an equation. *)
Lemma reads_back_bind_eq {A B} (r : reader A) (k : A -> reader B) w w1 w2 a b c c1 c2 :
  w = w1 ++ w2 -> c = c1 + c2 ->
  reads_back r w1 a c1 -> reads_back (k a) w2 b c2 -> reads_back (rbind r k) w b c.
Proof. intros -> ->. apply reads_back_bind. Qed.

Lemma reads_all_bind_eq {A B} (r : reader A) (k : A -> reader B) w w1 w2 a b c c1 c2 :
  w = w1 ++ w2 -> c = c1 + c2 ->
  reads_back r w1 a c1 -> reads_all (k a) w2 b c2 -> reads_all (rbind r k) w b c.
Proof. intros -> ->. apply reads_all_bind. Qed.

(** A fact about [w] may assume that [w] fits a machine length. *)
Lemma reads_back_bounded {A} (r : reader A) w a c :
  0 <= c -> (blen w < 2 ^ 64 -> reads_back r w a c) -> reads_back r w a c.
Proof. intros Hc H. split; [done|]. intros Hw. by apply H. Qed.

Lemma reads_all_bounded {A} (r : reader A) w a c :
  0 <= c -> (blen w < 2 ^ 64 -> reads_all r w a c) -> reads_all r w a c.
Proof. intros Hc H. split; [done|]. intros Hw. by apply H. Qed.

Lemma reads_take_declared what w : reads_back (take_declared what) (len_prefixed w) w 0.
Proof.
  apply reads_back_bounded; [done|]. intros Hw. pose proof (blen_len_prefixed w).
  eapply (reads_back_bind _ _ _ _ _ _ 0 0).
  - apply reads_uvarint. split; [apply blen_nonneg|lia].
  - apply reads_back_need; [lia|]. apply reads_back_split.
Qed.

Lemma reads_consumed_slice {A} e (r : reader A) w a c :
  blen w < 2 ^ 64 -> reads_all r w a c -> reads_back (consumed_slice e w r) [] a c.
Proof.
  intros Hw H. unfold consumed_slice.
  eapply reads_back_bind_r; [by apply reads_back_on_slice|]. simpl. apply reads_back_ret.
Qed.

Lemma reads_slice_prefix {A} (r : reader A) w a c :
  blen w < 2 ^ 64 -> reads_all r w a c -> reads_back (slice_prefix w r) [] a c.
Proof.
  intros Hw H. unfold slice_prefix.
  eapply reads_back_bind_r; [by apply reads_back_on_slice|]. simpl. apply reads_back_ret.
Qed.

(** A carved slice handed to its reader. *)
Lemma reads_declared_consumed {A} what e (r : reader A) w a c :
  reads_all r w a c ->
  reads_back (let! p := take_declared what in consumed_slice e p r) (len_prefixed w) a c.
Proof.
  intros H. pose proof (proj1 H) as Hc. apply reads_back_bounded; [done|]. intros Hw.
  pose proof (blen_len_prefixed w). rewrite <- (app_nil_r (len_prefixed w)), <- (Z.add_0_l c).
  eapply reads_back_bind; [apply reads_take_declared|]. apply reads_consumed_slice; [lia|done].
Qed.

Lemma reads_declared_prefix {A} what (r : reader A) w a c :
  reads_all r w a c ->
  reads_back (let! p := take_declared what in slice_prefix p r) (len_prefixed w) a c.
Proof.
  intros H. pose proof (proj1 H) as Hc. apply reads_back_bounded; [done|]. intros Hw.
  pose proof (blen_len_prefixed w). rewrite <- (app_nil_r (len_prefixed w)), <- (Z.add_0_l c).
  eapply reads_back_bind; [apply reads_take_declared|]. apply reads_slice_prefix; [lia|done].
Qed.

Lemma reads_fixed n e w : blen w = n -> reads_back (read_fixed n e) w w 0.
Proof. intros <-. apply reads_back_need; [lia|]. apply reads_back_split. Qed.

Lemma reads_take_exact n e w : blen w = n -> reads_all (take_exact n e) w w 0.
Proof.
  intros <-. split; [done|]. intros _ b _ _. unfold take_exact. by rewrite Z.eqb_refl, spend_0.
Qed.

Lemma reads_all_map {A B} (r : reader A) (f : A -> B) w a c :
  reads_all r w a c -> reads_all (let! x := r in rret (f x)) w (f a) c.
Proof. intros H. eapply reads_all_bind_r; [exact H|]. apply reads_back_all, reads_back_ret. Qed.

Lemma reads_back_map {A B} (r : reader A) (f : A -> B) w a c :
  reads_back r w a c -> reads_back (let! x := r in rret (f x)) w (f a) c.
Proof. intros H. eapply reads_back_bind_r; [exact H|]. apply reads_back_ret. Qed.

(** ** On any input *)

Lemma budget_safe_fixed n e : budget_safe (read_fixed n e).
Proof. apply budget_safe_bind'; auto with reader. Qed.

Lemma budget_safe_take_exact n e : budget_safe (take_exact n e).
Proof. apply budget_safe_pure. intros bs b. unfold take_exact. by case_match. Qed.

Lemma budget_safe_map {A B} (r : reader A) (f : A -> B) :
  budget_safe r -> budget_safe (let! x := r in rret (f x)).
Proof. intros H. apply budget_safe_bind'; auto with reader. Qed.

Lemma budget_safe_take_declared what : budget_safe (take_declared what).
Proof.
  apply budget_safe_bind'; [auto with reader|]. intros len.
  apply budget_safe_bind'; auto with reader.
Qed.

Lemma budget_safe_consumed {A} e s (r : reader A) : budget_safe r -> budget_safe (consumed_slice e s r).
Proof.
  intros H. apply budget_safe_bind'; [auto with reader|]. intros [a [|]]; auto with reader.
Qed.

Lemma budget_safe_slice_prefix {A} s (r : reader A) : budget_safe r -> budget_safe (slice_prefix s r).
Proof. intros H. apply budget_safe_bind'; [auto with reader|]. intros [a ?]; auto with reader. Qed.

Lemma stable_take_declared what : stable (take_declared what).
Proof.
  apply stable_bind; [auto with reader|]. intros len. apply stable_need.
  intros bs b p rest b' ext Hn [= <- <- <-]. unfold split_to.
  by rewrite take_app_le, drop_app_le by (unfold blen in Hn; lia).
Qed.

Lemma stable_consumed {A} e s (r : reader A) : stable (consumed_slice e s r).
Proof. apply stable_bind; [auto with reader|]. intros [a [|]]; auto with reader. Qed.

Lemma stable_slice_prefix {A} s (r : reader A) : stable (slice_prefix s r).
Proof. apply stable_bind; [auto with reader|]. intros [a ?]; auto with reader. Qed.

Lemma consumes_take_declared what : consumes (take_declared what).
Proof.
  apply consumes_bind; [auto with reader|]. intros len. apply consumes_bind; auto with reader.
Qed.

#[export] Hint Resolve budget_safe_fixed budget_safe_take_exact budget_safe_map : reader.
#[export] Hint Resolve budget_safe_take_declared budget_safe_consumed budget_safe_slice_prefix
  stable_take_declared stable_consumed stable_slice_prefix consumes_take_declared : reader.
