(* ===== verification/Account.v ===== *)
(** * Accounting: what a successful read returned and what it was charged

    [yields r Q] says that whenever [r] succeeds, on any bytes at all, the value [a] it returns and
    the amount [s] it took from the budget satisfy [Q a s]. It is how the decoders are shown to
    return only well-formed values, and to charge at least what the value they return weighs. *)

From S2P Require Import Prelude Codec Budget Reader Varint Wire.

(** Far above any buffer (a frame is at most 64 MiB) and far enough below [u64] that a count that
    fits the buffer times an element's size does not saturate. *)
Definition INPUT_BOUND : Z := 2 ^ 54.

Definition yields {A} (r : reader A) (Q : A -> Z -> Prop) : Prop :=
  forall bs b a rest b',
    blen bs < INPUT_BOUND -> 0 <= remaining b -> r bs b = (Ok (a, rest), b') ->
    blen rest <= blen bs /\ 0 <= remaining b' <= remaining b /\ Q a (remaining b - remaining b').

Lemma yields_mono {A} (r : reader A) (Q1 Q2 : A -> Z -> Prop) :
  yields r Q1 -> (forall a s, 0 <= s -> Q1 a s -> Q2 a s) -> yields r Q2.
Proof.
  intros H HQ bs b a rest b' Hl Hb E. destruct (H _ _ _ _ _ Hl Hb E) as (H1 & H2 & H3).
  split; [done|]. split; [done|]. apply HQ; [lia|done].
Qed.

Lemma yields_ext {A} (r1 r2 : reader A) Q :
  (forall bs b, r1 bs b = r2 bs b) -> yields r2 Q -> yields r1 Q.
Proof. intros E H bs b a rest b' Hl Hb. rewrite E. by apply H. Qed.

Lemma yields_bind {A B} (r : reader A) (k : A -> reader B) Q1 (Q2 : B -> Z -> Prop) :
  yields r Q1 ->
  (forall a s, 0 <= s -> Q1 a s -> yields (k a) (fun c s' => Q2 c (s + s'))) ->
  yields (rbind r k) Q2.
Proof.
  intros Hr Hk bs b c rest b' Hl Hb E. apply rbind_ok in E as (a & bs1 & b1 & E1 & E2).
  destruct (Hr _ _ _ _ _ Hl Hb E1) as (L1 & R1 & H1).
  assert (0 <= remaining b - remaining b1) as Hs by lia.
  destruct (Hk a _ Hs H1 bs1 b1 c rest b') as (L2 & R2 & H2); [lia|lia|done|].
  split; [lia|]. split; [lia|].
  by replace (remaining b - remaining b') with (remaining b - remaining b1 + (remaining b1 - remaining b')) by lia.
Qed.

Lemma yields_ret {A} (a : A) (Q : A -> Z -> Prop) : Q a 0 -> yields (rret a) Q.
Proof. intros HQ bs b a' rest b' Hl Hb [= <- <- <-]. by rewrite Z.sub_diag. Qed.

Lemma yields_fail {A} e (Q : A -> Z -> Prop) : yields (rfail e) Q.
Proof. by intros bs b a rest b' Hl Hb [=]. Qed.

Lemma yields_guard c e : yields (rguard c e) (fun _ s => c = true /\ s = 0).
Proof. destruct c; [by apply yields_ret|apply yields_fail]. Qed.

Lemma yields_lift {A} (r : result A) : yields (rlift r) (fun a s => r = Ok a /\ s = 0).
Proof. destruct r; [by apply yields_ret|apply yields_fail]. Qed.

(** A length check hands the rest of the reader a buffer at least that long. *)
Lemma yields_need n e : yields (need n e) (fun _ s => n < INPUT_BOUND /\ s = 0).
Proof.
  intros bs b a rest b' Hl Hb. unfold need. destruct (Z.ltb_spec (blen bs) n); [done|].
  intros [= <- <- <-]. rewrite Z.sub_diag. lia.
Qed.

Lemma yields_split n : n < INPUT_BOUND -> yields (split_to n) (fun p s => blen p < INPUT_BOUND /\ s = 0).
Proof.
  intros Hn bs b p rest b' Hl Hb [= <- <- <-]. rewrite Z.sub_diag. unfold blen in *.
  rewrite length_take, length_drop. lia.
Qed.

Lemma yields_charge n : 0 <= n -> yields (rcharge n) (fun _ s => s = n).
Proof.
  intros Hn bs b a rest b' Hl Hb. unfold rcharge, charge.
  destruct (Z.ltb_spec (remaining b) n); [done|].
  intros [= <- <- <-]. simpl. lia.
Qed.

Lemma yields_charge_list what count mw size :
  0 < mw -> 0 <= count -> 0 <= size <= 1024 ->
  yields (rcharge_list what count mw size) (fun _ s => s = count * size).
Proof.
  intros Hmw Hc Hs bs b a rest b' Hl Hb. unfold rcharge_list, charge_list.
  destruct (Z.ltb_spec (blen bs / mw) count); [done|].
  assert (count <= blen bs).
  { etrans; [exact H|]. pose proof (blen_nonneg bs).
    etrans; [apply Z.div_le_compat_l; [lia|]|by rewrite Z.div_1_r]. lia. }
  unfold INPUT_BOUND in Hl. unfold saturating_mul. rewrite Z.min_l by (unfold U64_MAX; nia).
  assert (yields (rcharge (count * size)) (fun _ s => s = count * size)) as Hy.
  { apply yields_charge. nia. }
  specialize (Hy bs b a rest b' Hl Hb). unfold rcharge in Hy. exact Hy.
Qed.

Lemma yields_uvarint : yields read_uvarint (fun v s => u64 v /\ s = 0).
Proof.
  intros bs b v rest b' Hl Hb E. pose proof (returns_uvarint _ _ _ _ _ E) as Hv.
  pose proof (consumes_uvarint _ _ _ _ _ E) as [u ->].
  pose proof (read_uvarint_loop_budget 10 0 0 (u ++ rest) b) as Hb'.
  unfold read_uvarint in E. rewrite E in Hb'. simpl in Hb'. subst b'.
  rewrite blen_app, Z.sub_diag. pose proof (blen_nonneg u). split; [lia|]. split; [lia|done].
Qed.

Lemma yields_ivarint : yields read_ivarint (fun v s => i64 v /\ s = 0).
Proof.
  eapply yields_bind; [apply yields_uvarint|]. intros v s _ [Hv ->].
  apply yields_ret. split; [|done]. by apply zigzag_encode_decode.
Qed.

Lemma yields_u8 : yields read_u8 (fun v s => u8 v /\ s = 0).
Proof.
  intros bs b v rest b' Hl Hb E. pose proof (returns_u8 _ _ _ _ _ E) as Hv.
  unfold read_u8 in E. destruct bs as [|x bs]; [done|]. injection E as <- <- <-.
  rewrite Z.sub_diag, blen_cons. split; [lia|]. split; [lia|done].
Qed.

Lemma yields_take_declared what :
  yields (take_declared what) (fun p s => blen p < INPUT_BOUND /\ s = 0).
Proof.
  eapply yields_bind; [apply yields_uvarint|]. intros len s _ [_ ->].
  eapply yields_bind; [apply yields_need|]. intros _ s _ [Hlen ->]. by apply yields_split.
Qed.

Lemma yields_on_slice {A} slice (r : reader A) Q :
  blen slice < INPUT_BOUND -> yields r Q -> yields (on_slice slice r) (fun ax s => Q ax.1 s).
Proof.
  intros Hs Hr bs b [a x] rest b' Hl Hb. unfold on_slice.
  destruct (r slice b) as [[[a' extra]|e] b1] eqn:E; [|done]. intros [= -> -> <- <-].
  destruct (Hr _ _ _ _ _ Hs Hb E) as (_ & H2 & H3). split; [lia|]. by split.
Qed.

Lemma yields_consumed {A} e slice (r : reader A) Q :
  blen slice < INPUT_BOUND -> yields r Q -> yields (consumed_slice e slice r) Q.
Proof.
  intros Hs Hr. eapply yields_bind; [by apply (yields_on_slice _ _ Q)|].
  intros [a [|]] s _ H; [|apply yields_fail]. apply yields_ret. by rewrite Z.add_0_r.
Qed.

Lemma yields_slice_prefix {A} slice (r : reader A) Q :
  blen slice < INPUT_BOUND -> yields r Q -> yields (slice_prefix slice r) Q.
Proof.
  intros Hs Hr. eapply yields_bind; [by apply (yields_on_slice _ _ Q)|].
  intros [a ?] s _ H. apply yields_ret. by rewrite Z.add_0_r.
Qed.

Lemma yields_take_all : yields take_all (fun p s => s = 0).
Proof.
  intros bs b p rest b' Hl Hb [= <- <- <-]. rewrite Z.sub_diag, blen_nil.
  pose proof (blen_nonneg bs). lia.
Qed.

Lemma yields_clear_all : yields clear_all (fun _ s => s = 0).
Proof.
  intros bs b p rest b' Hl Hb [= <- <- <-]. rewrite Z.sub_diag, blen_nil.
  pose proof (blen_nonneg bs). lia.
Qed.

(** A counted loop: each item satisfies [P] and was charged at least its [cost]. *)
Lemma yields_repeat {A} n (r : reader A) (P : A -> Prop) (cost : A -> Z) :
  yields r (fun a s => P a /\ cost a <= s) ->
  yields (rrepeat n r) (fun l s => length l = n /\ Forall P l /\ total cost l <= s).
Proof.
  intros Hr. induction n as [|n IH]; simpl.
  - apply yields_ret. split; [done|]. split; [constructor|done].
  - eapply yields_bind; [exact Hr|]. intros a s _ [Pa Ca].
    eapply yields_bind; [exact IH|]. intros l s' _ (Hl & Pl & Cl). apply yields_ret.
    split; [by rewrite <- Hl|]. split; [by constructor|]. unfold total in *. simpl. lia.
Qed.

Lemma yields_fixed n e : 0 <= n -> yields (read_fixed n e) (fun p s => blen p = n /\ s = 0).
Proof.
  intros Hn bs b p rest b' Hl Hb. unfold read_fixed, rbind, need.
  destruct (Z.ltb_spec (blen bs) n); [done|]. intros [= <- <- <-]. rewrite Z.sub_diag.
  unfold blen in *. rewrite length_take, length_drop. lia.
Qed.

Lemma yields_take_exact n e : 0 <= n -> yields (take_exact n e) (fun p s => blen p = n /\ s = 0).
Proof.
  intros Hn bs b p rest b' Hl Hb. unfold take_exact. destruct (Z.eqb_spec (blen bs) n); [|done].
  intros [= <- <- <-]. rewrite Z.sub_diag, blen_nil. lia.
Qed.

Lemma yields_map {A B} (r : reader A) (f : A -> B) (Q : A -> Z -> Prop) (Q' : B -> Z -> Prop) :
  yields r Q -> (forall a s, 0 <= s -> Q a s -> Q' (f a) s) -> yields (let! x := r in rret (f x)) Q'.
Proof.
  intros Hr HQ. eapply yields_bind; [exact Hr|]. intros a s Hs H. apply yields_ret.
  rewrite Z.add_0_r. auto.
Qed.
