(* ===== verification/Dict.v ===== *)
(** * The wire dictionary, and writers

    crates/logit-proto/src/native/dict.rs. A batch's symbols cross the wire once, as strings in
    first-use order: [DictBuilder] collects them while the rest of the batch is written, [Dict] is
    the table the decoder re-interned. A symbol is an index into one process's table, so the
    encoding and decoding processes have an interner each.

    A [writer] is a Rust function that appends to an output buffer and may add symbols to the
    builder: it returns the bytes it appends and the builder it leaves. [writes] is the logic for
    them: what is true of the bytes once the dictionary is complete. *)

From S2P Require Import Prelude Codec Budget Reader Varint Utf8 Model Wire Account.

Record DictBuilder := mkDictBuilder { db_symbols : list Symbol; db_index : gmap Symbol Z }.

Definition dict_empty : DictBuilder := mkDictBuilder [] ∅.

(** [DictBuilder::intern]; the [usize] length is cast to [u32]. *)
Definition dict_intern (d : DictBuilder) (sym : Symbol) : Z * DictBuilder :=
  match db_index d !! sym with
  | Some i => (i, d)
  | None =>
      let i := uwrap 32 (Z.of_nat (length (db_symbols d))) in
      (i, mkDictBuilder (db_symbols d ++ [sym]) (<[sym := i]> (db_index d)))
  end.

Definition dict_write `{Interner} (d : DictBuilder) : bytes :=
  write_uvarint (Z.of_nat (length (db_symbols d))) ++
  concat (map (fun sym => len_prefixed (resolve sym)) (db_symbols d)).

(** The decoder's dictionary; the budget it carries in the code is the reader's. *)
Abbreviation Dict := (list Symbol).

Definition MAX_SANE_DICT_ENTRIES : Z := 16 * 1024 * 1024.

(** [std::mem::size_of::<Symbol>()]. *)
Definition size_of_Symbol : Z := 4.

(** One turn of [Dict::read]'s loop. *)
Definition dict_read_entry `{Interner} : reader Symbol :=
  let! len := read_uvarint in
  need len (Malformed "dictionary entry declares more bytes than remain") ;!
  rcharge (len + size_of_Symbol) ;!
  let! raw := split_to len in
  rguard (utf8_valid raw) (Malformed "dictionary entry not utf-8") ;!
  rret (intern raw).

Definition dict_read `{Interner} : reader Dict :=
  let! count := read_uvarint in
  rguard (count <=? MAX_SANE_DICT_ENTRIES) (Malformed "dictionary over the sanity cap") ;!
  rrepeat (Z.to_nat count) dict_read_entry.

Definition dict_get (dict : Dict) (idx : Z) : result Symbol :=
  match dict !! Z.to_nat idx with
  | Some sym => Ok sym
  | None => Err (Malformed "dictionary index out of range")
  end.

(** ** Writers *)

Definition writer : Type := DictBuilder -> bytes * DictBuilder.

Definition wnil : writer := fun d => ([], d).

Definition wbytes (bs : bytes) : writer := fun d => (bs, d).

Definition wapp (w1 w2 : writer) : writer := fun d =>
  let '(b1, d1) := w1 d in
  let '(b2, d2) := w2 d1 in
  (b1 ++ b2, d2).

Notation "w1 +++ w2" := (wapp w1 w2) (at level 60, right associativity) : wire_scope.

Definition wconcat (ws : list writer) : writer := foldr wapp wnil ws.

Definition wwhen (c : bool) (w : writer) : writer := if c then w else wnil.

Definition wopt {A} (o : option A) (w : A -> writer) : writer :=
  match o with
  | Some a => w a
  | None => wnil
  end.

(** Building a payload in a temporary buffer and appending it behind its length. *)
Definition wprefixed (w : writer) : writer := fun d =>
  let '(tmp, d') := w d in (len_prefixed tmp, d').

(** ** The builder's invariant *)

Section Writes.
Context (I1 : Interner).

Definition db_wf (d : DictBuilder) : Prop :=
  Forall (@live I1) (db_symbols d) /\
  NoDup (db_symbols d) /\
  forall sym i, db_index d !! sym = Some i <->
    exists n, db_symbols d !! n = Some sym /\ i = uwrap 32 (Z.of_nat n).

Lemma db_wf_empty : db_wf dict_empty.
Proof.
  split; [constructor|]. split; [constructor|]. intros sym i. simpl. rewrite lookup_empty. split; [done|].
  intros (n & H & _). by rewrite lookup_nil in H.
Qed.

Lemma dict_intern_wf d sym i d' :
  db_wf d -> @live I1 sym -> dict_intern d sym = (i, d') ->
  db_wf d' /\ db_symbols d `prefix_of` db_symbols d' /\
  exists n, db_symbols d' !! n = Some sym /\ i = uwrap 32 (Z.of_nat n).
Proof.
  intros (HL & Hnd & Hwf) Hlive. unfold dict_intern. destruct (db_index d !! sym) as [j|] eqn:E.
  - intros [= <- <-]. split; [done|]. split; [done|]. by apply Hwf.
  - intros [= <- <-]. simpl.
    assert (sym ∉ db_symbols d) as Hnin.
    { intros Hin. apply list_elem_of_lookup in Hin as [n Hn].
      assert (db_index d !! sym = Some (uwrap 32 (Z.of_nat n))) as E2 by (apply Hwf; eauto).
      congruence. }
    split; [split; [|split]|split].
    + simpl. apply Forall_app. split; [done|]. by constructor.
    + simpl. apply NoDup_app. split; [done|]. split; [|by apply NoDup_singleton].
      intros x Hx Hx2. apply list_elem_of_singleton in Hx2 as ->. done.
    + intros s k. simpl. destruct (decide (s = sym)) as [->|Hne].
      * rewrite lookup_insert_eq. split.
        -- intros [= <-]. exists (length (db_symbols d)). split; [|done].
           rewrite lookup_app_r by lia. by rewrite Nat.sub_diag.
        -- intros (n & Hn & ->). apply lookup_app_Some in Hn as [Hn|[Hle Hn]].
           { exfalso. apply Hnin. by eapply list_elem_of_lookup_2. }
           apply list_lookup_singleton_Some in Hn as [Hz _].
           assert (n = length (db_symbols d)) as -> by lia. done.
      * rewrite lookup_insert_ne by done. rewrite Hwf. split.
        -- intros (n & Hn & ->). exists n. split; [|done]. by apply lookup_app_l_Some.
        -- intros (n & Hn & ->). exists n. split; [|done].
           apply lookup_app_Some in Hn as [Hn|[Hle Hn]]; [done|].
           apply list_lookup_singleton_Some in Hn as [_ Hs]. congruence.
    + by apply prefix_app_r.
    + exists (length (db_symbols d)). split; [|done].
      rewrite lookup_app_r by lia. by rewrite Nat.sub_diag.
Qed.

(** ** The writer logic

    [D] is the finished dictionary: whatever is written after [w] only adds to what [w] left. *)
Definition writes (w : writer) (P : list Symbol -> bytes -> Prop) : Prop :=
  forall d bs d', db_wf d -> w d = (bs, d') ->
    db_wf d' /\ db_symbols d `prefix_of` db_symbols d' /\
    forall D, db_symbols d' `prefix_of` D -> Z.of_nat (length D) <= 2 ^ 32 -> P D bs.

Lemma writes_mono w (P Q : list Symbol -> bytes -> Prop) :
  writes w P -> (forall D bs, P D bs -> Q D bs) -> writes w Q.
Proof.
  intros Hw HPQ d bs d' Hd E. destruct (Hw d bs d' Hd E) as (H1 & H2 & H3).
  split; [done|]. split; [done|]. eauto.
Qed.

Lemma writes_bytes bs (P : list Symbol -> bytes -> Prop) :
  (forall D, P D bs) -> writes (wbytes bs) P.
Proof. intros HP d bs' d' Hd [= <- <-]. eauto. Qed.

Lemma writes_nil (P : list Symbol -> bytes -> Prop) : (forall D, P D []) -> writes wnil P.
Proof. intros HP d bs' d' Hd [= <- <-]. eauto. Qed.

Lemma writes_app w1 w2 (P1 P2 Q : list Symbol -> bytes -> Prop) :
  writes w1 P1 -> writes w2 P2 ->
  (forall D b1 b2, P1 D b1 -> P2 D b2 -> Q D (b1 ++ b2)) ->
  writes (w1 +++ w2) Q.
Proof.
  intros H1 H2 HQ d bs d' Hd E. unfold wapp in E.
  destruct (w1 d) as [b1 d1] eqn:E1. destruct (w2 d1) as [b2 d2] eqn:E2.
  injection E as <- <-. destruct (H1 _ _ _ Hd E1) as (W1 & X1 & Y1).
  destruct (H2 _ _ _ W1 E2) as (W2 & X2 & Y2). split; [done|]. split; [by etrans|].
  intros D HD HL. apply HQ; [apply Y1; [by etrans|done]|by apply Y2].
Qed.

Lemma writes_prefixed w (P : list Symbol -> bytes -> Prop) :
  writes w P -> writes (wprefixed w) (fun D bs => exists p, bs = len_prefixed p /\ P D p).
Proof.
  intros H d bs d' Hd E. unfold wprefixed in E. destruct (w d) as [tmp d1] eqn:E1.
  injection E as <- <-. destruct (H _ _ _ Hd E1) as (W & X & Y). eauto 10.
Qed.

(** Writing a list with one writer per element. *)
Lemma writes_concat {A} (w : A -> writer) (P : A -> list Symbol -> bytes -> Prop) (l : list A) :
  Forall (fun a => writes (w a) (P a)) l ->
  writes (wconcat (map w l))
    (fun D bs => exists bss, bs = concat bss /\ Forall2 (fun a b => P a D b) l bss).
Proof.
  induction 1 as [|a l Ha HF IH]; simpl.
  - apply writes_nil. intros D. exists []. split; [done|constructor].
  - eapply writes_app; [exact Ha|exact IH|].
    intros D b1 b2 H1 (bss & -> & H2). exists (b1 :: bss). split; [done|]. by constructor.
Qed.

End Writes.

(** ** Reading the dictionary back *)

Section RoundTrip.
Context (I1 I2 : Interner).

(** The decoding process's symbol for a string the encoding process named [sym]. *)
Definition translate (sym : Symbol) : Symbol := @intern I2 (@resolve I1 sym).

Definition dict_entry_cost (sym : Symbol) : Z := blen (@resolve I1 sym) + size_of_Symbol.

Definition dict_cost (D : list Symbol) : Z := foldr Z.add 0 (map dict_entry_cost D).

Lemma reads_dict_entry sym :
  @live I1 sym ->
  reads_back (@dict_read_entry I2) (len_prefixed (@resolve I1 sym)) (translate sym)
    (dict_entry_cost sym).
Proof.
  intros [Hu _]. unfold dict_entry_cost, size_of_Symbol.
  pose proof (blen_nonneg (@resolve I1 sym)).
  apply reads_back_bounded; [lia|]. intros Hw. pose proof (blen_len_prefixed (@resolve I1 sym)).
  unfold len_prefixed, dict_read_entry. rewrite <- (Z.add_0_l (_ + 4)).
  eapply reads_back_bind; [apply reads_uvarint; split; lia|].
  apply reads_back_need; [lia|].
  eapply (reads_back_bind_eq _ _ _ [] _ _ _ _ _ 0); [done|by rewrite Z.add_0_r| |].
  { apply reads_back_charge. unfold size_of_Symbol. lia. }
  eapply reads_back_bind_r; [apply reads_back_split|].
  eapply reads_back_bind_l; [by apply reads_back_guard|]. apply reads_back_ret.
Qed.

Lemma reads_dict d :
  db_wf I1 d ->
  Z.of_nat (length (db_symbols d)) <= MAX_SANE_DICT_ENTRIES ->
  reads_back (@dict_read I2) (@dict_write I1 d) (map translate (db_symbols d))
    (dict_cost (db_symbols d)).
Proof.
  intros [Hlive _] Hlen. unfold dict_read, dict_write. rewrite <- (Z.add_0_l (dict_cost _)).
  eapply reads_back_bind; [apply reads_uvarint; unfold MAX_SANE_DICT_ENTRIES in *; split; lia|].
  eapply reads_back_bind_l; [apply reads_back_guard; by apply Z.leb_le|].
  rewrite Nat2Z.id.
  rewrite <- (length_map translate). apply reads_back_repeat; [|by rewrite !length_map].
  clear Hlen. induction Hlive as [|s l Hs HF IH]; simpl; constructor; [|done].
  by apply reads_dict_entry.
Qed.
End RoundTrip.

Lemma dict_get_prefix (D : list Symbol) (f : Symbol -> Symbol) n sym :
  D !! n = Some sym -> Z.of_nat (length D) <= 2 ^ 32 ->
  dict_get (map f D) (uwrap 32 (Z.of_nat n)) = Ok (f sym).
Proof.
  intros Hn HD. apply lookup_lt_Some in Hn as Hlt. unfold dict_get.
  rewrite uwrap_small by (unfold unsigned; lia). rewrite Nat2Z.id.
  rewrite list_lookup_fmap, Hn. done.
Qed.

Lemma budget_safe_dict_read `{Interner} : budget_safe dict_read.
Proof.
  apply budget_safe_bind'; [auto with reader|]. intros count.
  apply budget_safe_bind'; [auto with reader|]. intros _. apply budget_safe_repeat.
  eapply budget_safe_bind; [auto with reader|apply returns_uvarint|]. intros len [Hlen _].
  apply budget_safe_bind'; [auto with reader|]. intros _.
  apply budget_safe_bind'; [apply budget_safe_charge; unfold size_of_Symbol; lia|]. intros _.
  apply budget_safe_bind'; [auto with reader|]. intros raw.
  apply budget_safe_bind'; auto with reader.
Qed.

Lemma stable_dict_read `{Interner} : stable dict_read.
Proof.
  apply stable_bind; [auto with reader|]. intros count.
  apply stable_bind; [auto with reader|]. intros _. apply stable_repeat.
  apply stable_bind; [auto with reader|]. intros len.
  apply stable_need, stable_from_charge, stable_from_split. intros raw.
  apply stable_bind; auto with reader.
Qed.

(** Whatever the bytes, a decoded dictionary holds live symbols, and was charged for its strings. *)
Lemma yields_dict_read (I : Interner) `{!InternerOk I} :
  yields dict_read (fun dict s => Forall live dict /\ dict_cost I dict <= s).
Proof.
  eapply yields_bind; [apply yields_uvarint|]. intros count s _ [_ ->].
  eapply yields_bind; [apply yields_guard|]. intros _ s _ [_ ->].
  eapply yields_mono; [apply (yields_repeat _ _ live (dict_entry_cost I))|]; cbn; [|intros l s _ (_ & ? & ?); done].
  eapply yields_bind; [apply yields_uvarint|]. intros len s _ [[Hlen _] ->].
  eapply yields_bind; [apply yields_need|]. intros _ s _ [Hlt ->].
  eapply yields_bind; [apply yields_charge; unfold size_of_Symbol; lia|]. intros _ s _ ->.
  assert (yields (split_to len) (fun p s => blen p <= len /\ s = 0)) as Hs.
  { intros bs b p rest b' Hl Hb [= <- <- <-]. rewrite Z.sub_diag. unfold blen in *.
    rewrite length_take, length_drop. lia. }
  eapply yields_bind; [exact Hs|]. intros raw s _ [Hraw ->].
  eapply yields_bind; [apply yields_guard|]. intros _ s _ [Hu ->]. apply yields_ret.
  unfold live, dict_entry_cost. rewrite resolve_intern by done. split; [done|lia].
Qed.

Lemma dict_get_live `{Interner} (dict : Dict) idx sym :
  Forall live dict -> dict_get dict idx = Ok sym -> live sym.
Proof.
  intros HF. unfold dict_get. destruct (dict !! Z.to_nat idx) eqn:E; [|done]. intros [= <-].
  by eapply Forall_lookup_1.
Qed.

#[export] Hint Resolve budget_safe_dict_read stable_dict_read : reader.
