(* ===== verification/Tlv.v ===== *)
(** * Tagged fields and record lists

    The shared framing helpers at the top of crates/logit-proto/src/native/record.rs: a record is
    a run of [tag(1) + len(varint) + payload] fields walked by [for_each_field], a list is a count
    and length-prefixed entries. The visitor closure's captured variables are the state [St]; the
    loop's fuel is the body's length, and [while_nonempty_unfold] shows it never runs out. *)

From S2P Require Import Prelude Codec Budget Reader Varint Model Wire Account Dict.

Definition write_field (tag : Z) (build : writer) : writer := fun d =>
  let '(tmp, d') := build d in
  ([z2b tag] ++ write_uvarint (blen tmp) ++ tmp, d').

Definition write_scalar_field (tag len : Z) (payload : bytes) : writer :=
  wbytes ([z2b tag] ++ write_uvarint len ++ payload).

(** One turn of the loop: the field is carved before [visit] sees it and must be consumed. *)
Definition visit_field {St} (visit : Z -> St -> reader St) (st : St) : reader St :=
  let! tag := read_u8 in
  let! field := take_declared "field declares more bytes than remain" in
  consumed_slice (trailing_bytes "field") field (visit tag st).

(** [while !body.is_empty() { step }], with the body's length as fuel. *)
Fixpoint while_loop {St} (fuel : nat) (step : St -> reader St) (st : St) : reader St :=
  fun body b =>
  match body with
  | [] => (Ok (st, []), b)
  | _ :: _ =>
      match fuel with
      | O => (Err (Malformed "out of fuel"), b)
      | S fuel => (let! st' := step st in while_loop fuel step st') body b
      end
  end.

Definition while_nonempty {St} (step : St -> reader St) (st : St) : reader St :=
  fun body b => while_loop (length body) step st body b.

Definition for_each_field {St} (visit : Z -> St -> reader St) (st : St) : reader St :=
  while_nonempty (visit_field visit) st.

Definition write_record_list {T} (items : list T) (write_one : T -> writer) : writer :=
  wbytes (write_uvarint (Z.of_nat (length items))) +++
  wconcat (map (fun item => wprefixed (write_one item)) items).

Definition read_list_entry {T} (read_one : reader T) : reader T :=
  let! item := take_declared "list entry declares more bytes than remain" in
  consumed_slice (Malformed "list entry had trailing bytes") item read_one.

(** [size] is [std::mem::size_of::<T>()]; [out] is the sink the items are pushed to. *)
Definition read_record_list_into {T} (size : Z) (read_one : reader T) (out : list T) : reader (list T) :=
  let! count := read_uvarint in
  rcharge_list "record list" count 1 size ;!
  let! items := rrepeat (Z.to_nat count) (read_list_entry read_one) in
  rret (out ++ items).

Definition read_record_list {T} (size : Z) (read_one : reader T) : reader (list T) :=
  read_record_list_into size read_one [].

Definition read_exact_u32 : reader Z := fun bs b =>
  if blen bs =? 4 then (Ok (from_le_bytes bs, []), b)
  else (Err (Malformed "expected 4 bytes for a u32"), b).

Definition read_exact_i64 : reader Z := fun bs b =>
  if blen bs =? 8 then (Ok (swrap 64 (from_le_bytes bs), []), b)
  else (Err (Malformed "expected 8 bytes for an i64"), b).

Definition write_symbol_field (tag : Z) (sym : Symbol) : writer := fun d =>
  let '(idx, d') := dict_intern d sym in
  write_scalar_field tag 4 (to_le_bytes 4 idx) d'.

Definition read_symbol_field (dict : Dict) : reader Symbol :=
  let! idx := read_exact_u32 in rlift (dict_get dict idx).

Definition write_bytes_field (tag : Z) (bs : bytes) : writer :=
  write_scalar_field tag (blen bs) bs.

(** ** The loop always has the fuel it needs *)

(** Every turn consumes something. *)
Definition shrinks {St} (step : St -> reader St) : Prop :=
  forall st bs b st' rest b', step st bs b = (Ok (st', rest), b') -> (length rest < length bs)%nat.

Section While.
Context {St : Type} (step : St -> reader St) (Hstep : shrinks step).
#[local] Set Default Proof Using "Type*".

Lemma while_loop_fuel fuel st bs b :
  (length bs <= fuel)%nat -> while_loop fuel step st bs b = while_nonempty step st bs b.
Proof.
  unfold while_nonempty.
  assert (forall n m st bs b, (length bs <= n)%nat -> (length bs <= m)%nat ->
    while_loop n step st bs b = while_loop m step st bs b) as H; [|by intros; apply H].
  clear st bs b. induction n as [|n IH]; intros m st bs b Hn Hm.
  - destruct bs; [|simpl in Hn; lia]. by destruct m.
  - destruct bs as [|x bs]; [by destruct m|]. destruct m as [|m]; [simpl in Hm; lia|].
    cbn [while_loop]. unfold rbind.
    destruct (step st (x :: bs) b) as [[[st' rest]|e] b'] eqn:E; [|done].
    apply Hstep in E. cbn [length] in *. apply IH; lia.
Qed.

(** The source's [while] loop: an empty body ends it, any other takes one turn and goes round. *)
Lemma while_nonempty_unfold st body b :
  while_nonempty step st body b =
  match body with
  | [] => (Ok (st, []), b)
  | _ :: _ => (let! st' := step st in while_nonempty step st') body b
  end.
Proof.
  destruct body as [|x body]; [done|]. unfold while_nonempty at 1. cbn [while_loop length].
  unfold rbind. destruct (step st (x :: body) b) as [[[st' rest]|e] b'] eqn:E; [|done].
  apply Hstep in E. cbn [length] in E. apply while_loop_fuel. lia.
Qed.

Lemma budget_safe_while st : (forall st, budget_safe (step st)) -> budget_safe (while_nonempty step st).
Proof.
  intros Hv body. remember (length body) as n eqn:Hn. revert st body Hn.
  induction n as [n IH] using lt_wf_ind. intros st body -> b Hb.
  rewrite while_nonempty_unfold. destruct body as [|x body]; [by apply budget_le_refl|].
  specialize (Hv st (x :: body) b Hb). unfold rbind.
  destruct (step st (x :: body) b) as [[[st' rest]|e] b'] eqn:E; [|done].
  apply Hstep in E. simpl in Hv. etrans; [|exact Hv]. apply (IH _ E); [done|apply Hv].
Qed.

(** Reading back one turn's bytes, then the rest. *)
Lemma reads_while_nil st : reads_all (while_nonempty step st) [] st 0.
Proof. split; [done|]. intros _ b _ _. rewrite while_nonempty_unfold. by rewrite spend_0. Qed.

Lemma reads_while_cons w1 w2 st st1 st2 c1 c2 :
  1 <= blen w1 -> reads_back (step st) w1 st1 c1 -> reads_all (while_nonempty step st1) w2 st2 c2 ->
  reads_all (while_nonempty step st) (w1 ++ w2) st2 (c1 + c2).
Proof.
  intros Hne H1 H2. destruct (reads_all_bind (step st) (while_nonempty step) w1 w2 st1 st2 c1 c2 H1 H2)
    as [Hc H]. split; [done|]. intros Hw b Hb Hm. rewrite while_nonempty_unfold.
  destruct w1 as [|x w1]; [by rewrite blen_nil in Hne|]. simpl. by apply H.
Qed.

(** An invariant [J] of the state and the amount charged so far holds at the end. *)
Lemma yields_while (J : St -> Z -> Prop) st s :
  (forall st s, 0 <= s -> J st s -> yields (step st) (fun st' s' => J st' (s + s'))) ->
  0 <= s -> J st s -> yields (while_nonempty step st) (fun st' s' => J st' (s + s')).
Proof.
  intros Hv Hs HJ bs. remember (length bs) as n eqn:Hn. revert st s bs Hs HJ Hn.
  induction n as [n IH] using lt_wf_ind. intros st s bs Hs HJ -> b st2 rest b2 Hl Hb.
  rewrite while_nonempty_unfold. destruct bs as [|x bs].
  { intros [= <- <- <-]. rewrite Z.sub_diag, Z.add_0_r. split; [lia|]. by split. }
  intros E. apply rbind_ok in E as (st1 & bs1 & b1 & E1 & E2).
  destruct (Hv st s Hs HJ _ _ _ _ _ Hl Hb E1) as (L1 & R1 & J1). apply Hstep in E1.
  destruct (IH _ E1 st1 (s + (remaining b - remaining b1)) bs1 ltac:(lia) J1 eq_refl b1 st2 rest b2)
    as (L2 & R2 & J2); [lia|lia|done|].
  split; [lia|]. split; [lia|].
  by replace (s + (remaining b - remaining b2))
    with (s + (remaining b - remaining b1) + (remaining b1 - remaining b2)) by lia.
Qed.
End While.

Lemma shrinks_then {St A} (k : A -> St -> reader St) :
  (forall a st, consumes (k a st)) -> forall (r : St -> reader A),
  (forall st bs b a rest b', r st bs b = (Ok (a, rest), b') -> (length rest < length bs)%nat) ->
  shrinks (fun st => let! a := r st in k a st).
Proof.
  intros Hk r Hr st bs b st' rest b' H. apply rbind_ok in H as (a & bs1 & b1 & E1 & E2).
  apply Hr in E1. apply Hk in E2 as [u ->]. rewrite length_app in E1. lia.
Qed.

Lemma read_u8_shrinks bs b a rest b' : read_u8 bs b = (Ok (a, rest), b') -> (length rest < length bs)%nat.
Proof. unfold read_u8. destruct bs; [done|]. intros [= <- <- <-]. simpl. lia. Qed.

Lemma consumes_on_slice {A} p (r : reader A) : consumes (on_slice p r).
Proof.
  intros bs b [a x] rest b'. unfold on_slice. destruct (r p b) as [[[? ?]|] ?]; [|done].
  intros [= <- <- <- <-]. by exists [].
Qed.

Lemma consumes_fail {A} e : consumes (@rfail A e).
Proof. by intros bs b a rest b' [=]. Qed.

Lemma consumes_consumed {A} e p (r : reader A) : consumes (consumed_slice e p r).
Proof.
  apply consumes_bind; [apply consumes_on_slice|]. intros [a [|]]; [apply consumes_ret|apply consumes_fail].
Qed.

#[export] Hint Resolve consumes_on_slice consumes_fail consumes_consumed : reader.

Lemma visit_field_shrinks {St} (visit : Z -> St -> reader St) : shrinks (visit_field visit).
Proof.
  apply (shrinks_then (fun tag st => let! field := take_declared _ in consumed_slice _ field (visit tag st))).
  - intros tag st. apply consumes_bind; auto with reader.
  - intros _. apply read_u8_shrinks.
Qed.

Lemma for_each_field_unfold {St} (visit : Z -> St -> reader St) st body b :
  for_each_field visit st body b =
  match body with
  | [] => (Ok (st, []), b)
  | _ :: _ => (let! st' := visit_field visit st in for_each_field visit st') body b
  end.
Proof. apply (while_nonempty_unfold _ (visit_field_shrinks visit)). Qed.

Lemma budget_safe_for_each_field {St} (visit : Z -> St -> reader St) st :
  (forall tag st, budget_safe (visit tag st)) -> budget_safe (for_each_field visit st).
Proof.
  intros Hv. apply budget_safe_while; [apply visit_field_shrinks|]. clear st. intros st.
  apply budget_safe_bind'; [auto with reader|]. intros tag.
  apply budget_safe_bind'; [auto with reader|]. intros field. by apply budget_safe_consumed.
Qed.

Lemma budget_safe_record_list_into {T} size (read_one : reader T) out :
  0 <= size -> budget_safe read_one -> budget_safe (read_record_list_into size read_one out).
Proof.
  intros Hs Hr. eapply budget_safe_bind; [auto with reader|apply returns_uvarint|]. intros count [Hc _].
  apply budget_safe_bind'; [auto with reader|]. intros _.
  apply budget_safe_bind'; [|auto with reader]. apply budget_safe_repeat.
  apply budget_safe_bind'; auto with reader.
Qed.

Lemma budget_safe_record_list {T} size (read_one : reader T) :
  0 <= size -> budget_safe read_one -> budget_safe (read_record_list size read_one).
Proof. apply budget_safe_record_list_into. Qed.

Lemma budget_safe_exact_u32 : budget_safe read_exact_u32.
Proof. apply budget_safe_pure. intros bs b. unfold read_exact_u32. by case_match. Qed.

Lemma budget_safe_exact_i64 : budget_safe read_exact_i64.
Proof. apply budget_safe_pure. intros bs b. unfold read_exact_i64. by case_match. Qed.

Lemma budget_safe_symbol_field dict : budget_safe (read_symbol_field dict).
Proof. apply budget_safe_bind'; [apply budget_safe_exact_u32|]. auto with reader. Qed.

#[export] Hint Resolve budget_safe_for_each_field budget_safe_record_list budget_safe_record_list_into
  budget_safe_exact_u32 budget_safe_exact_i64 budget_safe_symbol_field : reader.

(** ** Accounting *)

(** An invariant [J] of the visitor's state and the amount charged so far holds at the end. *)
Lemma yields_for_each_field {St} (visit : Z -> St -> reader St) (J : St -> Z -> Prop) st s :
  (forall tag st s, u8 tag -> 0 <= s -> J st s -> yields (visit tag st) (fun st' s' => J st' (s + s'))) ->
  0 <= s -> J st s -> yields (for_each_field visit st) (fun st' s' => J st' (s + s')).
Proof.
  intros Hv. apply yields_while; [apply visit_field_shrinks|]. clear st s. intros st s Hs HJ.
  eapply yields_bind; [apply yields_u8|]. intros tag s1 _ [Ht ->].
  eapply yields_bind; [apply yields_take_declared|]. intros p s2 _ [Hp ->].
  apply yields_consumed; [done|]. by apply Hv.
Qed.

Lemma yields_record_list_into {T} size (read_one : reader T) out (P : T -> Prop) (cost : T -> Z) :
  0 <= size <= 1024 -> yields read_one (fun a s => P a /\ cost a <= s) ->
  yields (read_record_list_into size read_one out)
    (fun l s => exists items, l = out ++ items /\ Forall P items /\
       Z.of_nat (length items) * size + total cost items <= s).
Proof.
  intros Hs Hr. eapply yields_bind; [apply yields_uvarint|]. intros count s _ [[Hc _] ->].
  eapply yields_bind; [by apply yields_charge_list|]. intros _ s _ ->.
  eapply yields_bind; [apply (yields_repeat _ _ P cost)|].
  - eapply yields_bind; [apply yields_take_declared|]. intros p s _ [Hp ->].
    by apply yields_consumed.
  - intros items s _ (Hl & HP & HC). apply yields_ret. exists items. rewrite Hl, Z2Nat.id by lia.
    split; [done|]. split; [done|lia].
Qed.

Lemma yields_record_list {T} size (read_one : reader T) (P : T -> Prop) (cost : T -> Z) :
  0 <= size <= 1024 -> yields read_one (fun a s => P a /\ cost a <= s) ->
  yields (read_record_list size read_one)
    (fun l s => Forall P l /\ Z.of_nat (length l) * size + total cost l <= s).
Proof.
  intros Hs Hr. eapply yields_mono; [by apply (yields_record_list_into _ _ [] P cost)|].
  by intros l s _ (items & -> & H).
Qed.

Lemma yields_exact_u32 : yields read_exact_u32 (fun v s => u32 v /\ s = 0).
Proof.
  intros bs b v rest b' Hl Hb. unfold read_exact_u32. destruct (Z.eqb_spec (blen bs) 4) as [E|]; [|done].
  intros [= <- <- <-]. rewrite Z.sub_diag, blen_nil. split; [lia|]. split; [lia|]. split; [|done].
  pose proof (from_le_bytes_range bs) as Hr. rewrite E in Hr. exact Hr.
Qed.

Lemma yields_exact_i64 : yields read_exact_i64 (fun v s => i64 v /\ s = 0).
Proof.
  intros bs b v rest b' Hl Hb. unfold read_exact_i64. destruct (Z.eqb_spec (blen bs) 8) as [E|]; [|done].
  intros [= <- <- <-]. rewrite Z.sub_diag, blen_nil. split; [lia|]. split; [lia|]. split; [|done].
  apply swrap_signed. lia.
Qed.

Lemma yields_symbol_field `{Interner} (dict : Dict) :
  Forall live dict -> yields (read_symbol_field dict) (fun sym s => live sym /\ s = 0).
Proof.
  intros HF. eapply yields_bind; [apply yields_exact_u32|]. intros idx s _ [_ ->].
  eapply yields_mono; [apply yields_lift|]. intros sym s _ [E ->].
  split; [by eapply dict_get_live|done].
Qed.

(** ** Fields, one at a time *)

(** Walking the fields [bs] takes the visitor's state from [st] to [st'] at cost [c], whatever
    fields follow. *)
Definition fields_to {St} (visit : Z -> St -> reader St) (bs : bytes) (st st' : St) (c : Z) : Prop :=
  0 <= c /\
  (blen bs < 2 ^ 64 -> forall rest b, c <= remaining b -> remaining b <= U64_MAX ->
   for_each_field visit st (bs ++ rest) b = for_each_field visit st' rest (spend c b)).

Lemma fields_to_nil {St} (visit : Z -> St -> reader St) st : fields_to visit [] st st 0.
Proof. split; [done|]. intros _ rest b _ _. by rewrite spend_0. Qed.

Lemma fields_to_app {St} (visit : Z -> St -> reader St) b1 b2 st st1 st2 c1 c2 :
  fields_to visit b1 st st1 c1 -> fields_to visit b2 st1 st2 c2 ->
  fields_to visit (b1 ++ b2) st st2 (c1 + c2).
Proof.
  intros [Hc1 H1] [Hc2 H2]. split; [lia|]. intros Hw rest b Hb Hm.
  rewrite blen_app in Hw. pose proof (blen_nonneg b1). pose proof (blen_nonneg b2).
  rewrite <- app_assoc, H1, H2 by (rewrite ?remaining_spend; lia). by rewrite spend_spend.
Qed.

Lemma fields_to_one {St} (visit : Z -> St -> reader St) tag p st st' c :
  u8 tag -> reads_all (visit tag st) p st' c ->
  fields_to visit ([z2b tag] ++ len_prefixed p) st st' c.
Proof.
  intros Ht Hv. split; [apply Hv|]. intros Hw rest b Hb Hm.
  rewrite for_each_field_unfold. cbn [app].
  assert (reads_back (visit_field visit st) ([z2b tag] ++ len_prefixed p) st' c) as [_ H].
  { eapply reads_back_bind_eq; [done|symmetry; apply Z.add_0_l|by apply reads_u8|].
    by apply (reads_declared_consumed _ _ (visit tag st)). }
  unfold rbind. specialize (H Hw rest b Hb Hm). cbn [app] in H. by rewrite H.
Qed.

Lemma fields_to_all {St} (visit : Z -> St -> reader St) bs st st' c :
  fields_to visit bs st st' c -> reads_all (for_each_field visit st) bs st' c.
Proof.
  intros [Hc H]. split; [done|]. intros Hw b Hb Hm. specialize (H Hw [] b Hb Hm).
  rewrite app_nil_r in H. rewrite H. by rewrite for_each_field_unfold.
Qed.

Lemma write_scalar_field_eq tag len payload :
  len = blen payload -> write_scalar_field tag len payload = wbytes ([z2b tag] ++ len_prefixed payload).
Proof. by intros ->. Qed.

Lemma write_field_eq tag w d :
  write_field tag w d = (let '(tmp, d') := w d in ([z2b tag] ++ len_prefixed tmp, d')).
Proof. done. Qed.

Lemma reads_exact_u32 v : u32 v -> reads_all read_exact_u32 (to_le_bytes 4 v) v 0.
Proof.
  intros Hv. split; [done|]. intros _ b _ _. unfold read_exact_u32.
  rewrite blen_to_le_bytes. change (Z.of_nat 4 =? 4) with true. cbv iota.
  rewrite from_to_le_unsigned by done. by rewrite spend_0.
Qed.

Lemma reads_exact_i64 v : i64 v -> reads_all read_exact_i64 (to_le_bytes 8 v) v 0.
Proof.
  intros Hv. split; [done|]. intros _ b _ _. unfold read_exact_i64.
  rewrite blen_to_le_bytes. change (Z.of_nat 8 =? 8) with true. cbv iota.
  rewrite (from_to_le_signed 8) by (lia || done). by rewrite spend_0.
Qed.

(** ** Reading back what was written *)

Section RoundTrip.
Context (I1 I2 : Interner).

(** [w] writes bytes that [r], given the decoded dictionary, reads back as [a] at cost [c]. *)
Definition wreads {A} (r : Dict -> reader A) (w : writer) (a : A) (c : Z) : Prop :=
  writes I1 w (fun D bs => reads_back (r (map (translate I1 I2) D)) bs a c).

Definition wreads_all {A} (r : Dict -> reader A) (w : writer) (a : A) (c : Z) : Prop :=
  writes I1 w (fun D bs => reads_all (r (map (translate I1 I2) D)) bs a c).

Lemma wreads_wreads_all {A} (r : Dict -> reader A) w a c : wreads r w a c -> wreads_all r w a c.
Proof. intros H. eapply writes_mono; [exact H|]. intros D bs. apply reads_back_all. Qed.

Lemma wreads_bytes {A} (r : reader A) bs a c :
  reads_back r bs a c -> wreads (fun _ => r) (wbytes bs) a c.
Proof. intros H. by apply writes_bytes. Qed.

Lemma wreads_all_bytes {A} (r : reader A) bs a c :
  reads_all r bs a c -> wreads_all (fun _ => r) (wbytes bs) a c.
Proof. intros H. by apply writes_bytes. Qed.

Lemma wreads_bind {A B} (r : Dict -> reader A) (k : A -> Dict -> reader B) w1 w2 a b c c1 c2 :
  c = c1 + c2 -> wreads r w1 a c1 -> wreads (k a) w2 b c2 ->
  wreads (fun dict => rbind (r dict) (fun x => k x dict)) (w1 +++ w2) b c.
Proof.
  intros -> H1 H2. eapply writes_app; [exact H1|exact H2|]. intros D b1 b2 X Y.
  exact (reads_back_bind _ (fun x => k x _) _ _ _ _ _ _ X Y).
Qed.

Lemma wreads_all_bind {A B} (r : Dict -> reader A) (k : A -> Dict -> reader B) w1 w2 a b c c1 c2 :
  c = c1 + c2 -> wreads r w1 a c1 -> wreads_all (k a) w2 b c2 ->
  wreads_all (fun dict => rbind (r dict) (fun x => k x dict)) (w1 +++ w2) b c.
Proof.
  intros -> H1 H2. eapply writes_app; [exact H1|exact H2|]. intros D b1 b2 X Y.
  exact (reads_all_bind _ (fun x => k x _) _ _ _ _ _ _ X Y).
Qed.

(** Post-processing a value without touching the buffer. *)
Lemma wreads_map {A B} (r : Dict -> reader A) (k : A -> Dict -> reader B) w a b c :
  wreads r w a c -> (forall dict, reads_back (k a dict) [] b 0) ->
  wreads (fun dict => rbind (r dict) (fun x => k x dict)) w b c.
Proof.
  intros H1 H2. eapply writes_mono; [exact H1|]. intros D bs H.
  exact (reads_back_bind_r _ (fun x => k x _) _ _ _ _ H (H2 _)).
Qed.

Lemma wreads_all_map {A B} (r : Dict -> reader A) (k : A -> Dict -> reader B) w a b c :
  wreads_all r w a c -> (forall dict, reads_back (k a dict) [] b 0) ->
  wreads_all (fun dict => rbind (r dict) (fun x => k x dict)) w b c.
Proof.
  intros H1 H2. eapply writes_mono; [exact H1|]. intros D bs H.
  exact (reads_all_bind_r _ (fun x => k x _) _ _ _ _ H (reads_back_all _ _ _ _ (H2 _))).
Qed.

Lemma wreads_prefixed {A} what e (r : Dict -> reader A) w a c :
  wreads_all r w a c ->
  wreads (fun dict => let! p := take_declared what in consumed_slice e p (r dict)) (wprefixed w) a c.
Proof.
  intros H. eapply writes_mono; [by apply writes_prefixed|].
  intros D bs (p & -> & Hp). by apply reads_declared_consumed.
Qed.

(** The index written for a symbol is the position of its translation in the decoded dictionary. *)
Lemma wreads_symbol (enc : Z -> bytes) (r : reader Z) sym :
  (forall idx, u32 idx -> reads_back r (enc idx) idx 0) ->
  @live I1 sym ->
  wreads (fun dict => let! idx := r in rlift (dict_get dict idx))
    (fun d => let '(idx, d') := dict_intern d sym in (enc idx, d')) (translate I1 I2 sym) 0.
Proof.
  intros Hr Hl d bs d' Hd E. destruct (dict_intern d sym) as [idx d1] eqn:E1. injection E as <- <-.
  apply (dict_intern_wf I1) in E1 as (W & X & n & Hn & ->); [|done..]. split; [done|]. split; [done|].
  intros D HD HL. eapply reads_back_bind_r; [apply Hr, uwrap_unsigned; lia|].
  rewrite (dict_get_prefix D _ n sym); [apply reads_back_ret| |done].
  by eapply prefix_lookup_Some.
Qed.

(** A writer whose bytes are fields that take the visitor from [st] to [st']. *)
Definition wfields {St} (visit : Dict -> Z -> St -> reader St) (w : writer) (st st' : St) (c : Z) : Prop :=
  writes I1 w (fun D bs => fields_to (visit (map (translate I1 I2) D)) bs st st' c).

Section Fields.
Context {St : Type} (visit : Dict -> Z -> St -> reader St).

Lemma wfields_nil st : wfields visit wnil st st 0.
Proof. apply writes_nil. intros D. apply fields_to_nil. Qed.

Lemma wfields_app w1 w2 st st1 st2 c c1 c2 :
  c = c1 + c2 -> wfields visit w1 st st1 c1 -> wfields visit w2 st1 st2 c2 ->
  wfields visit (w1 +++ w2) st st2 c.
Proof.
  intros -> H1 H2. eapply writes_app; [exact H1|exact H2|]. intros D b1 b2. apply fields_to_app.
Qed.

Lemma wfields_field tag w st st' c :
  u8 tag -> wreads_all (fun dict => visit dict tag st) w st' c ->
  wfields visit (write_field tag w) st st' c.
Proof.
  intros Ht H d bs d' Hd E. rewrite write_field_eq in E. destruct (w d) as [tmp d1] eqn:E1.
  injection E as <- <-. destruct (H _ _ _ Hd E1) as (W & X & Y). split; [done|]. split; [done|].
  intros D HD HL. apply fields_to_one; [done|]. by apply Y.
Qed.

Lemma wfields_scalar tag len payload st st' c :
  u8 tag -> len = blen payload -> (forall dict, reads_all (visit dict tag st) payload st' c) ->
  wfields visit (write_scalar_field tag len payload) st st' c.
Proof.
  intros Ht Hl H. rewrite write_scalar_field_eq by done. apply writes_bytes. intros D.
  by apply fields_to_one.
Qed.

Lemma wfields_symbol tag sym (f : Symbol -> St) st :
  u8 tag -> @live I1 sym -> (forall dict, visit dict tag st = (let! s := read_symbol_field dict in rret (f s))) ->
  wfields visit (write_symbol_field tag sym) st (f (translate I1 I2 sym)) 0.
Proof.
  intros Ht Hlive Hv d bs d' Hd E. unfold write_symbol_field in E.
  destruct (dict_intern d sym) as [idx d1] eqn:E1. rewrite write_scalar_field_eq in E.
  2: by rewrite blen_to_le_bytes.
  injection E as <- <-. apply (dict_intern_wf I1) in E1 as (W & X & n & Hn & ->); [|done..].
  split; [done|]. split; [done|]. intros D HD HL. apply fields_to_one; [done|]. rewrite Hv.
  assert (u32 (uwrap 32 (Z.of_nat n))) by (apply uwrap_unsigned; lia).
  eapply reads_all_bind_r; [eapply reads_all_bind_r; [by apply reads_exact_u32|]|].
  - rewrite (dict_get_prefix D _ n sym); [|by eapply prefix_lookup_Some|done].
    apply reads_back_all, reads_back_ret.
  - apply reads_back_all, (reads_back_ret (f _)).
Qed.

(** A field whose reader's result is stored by [f]. *)
Lemma wfields_field_map {A} tag w st (r : Dict -> reader A) (f : A -> St) a c :
  u8 tag -> (forall dict, visit dict tag st = (let! x := r dict in rret (f x))) ->
  wreads_all r w a c -> wfields visit (write_field tag w) st (f a) c.
Proof.
  intros Ht Hv H. apply wfields_field; [done|]. eapply writes_mono; [exact H|]. intros D bs HD.
  rewrite Hv. by apply reads_all_map.
Qed.

Lemma wfields_scalar_map {A} tag len payload st (r : reader A) (f : A -> St) a c :
  u8 tag -> len = blen payload -> (forall dict, visit dict tag st = (let! x := r in rret (f x))) ->
  reads_all r payload a c -> wfields visit (write_scalar_field tag len payload) st (f a) c.
Proof.
  intros Ht Hl Hv H. apply wfields_scalar; [done|done|]. intros dict. rewrite Hv. by apply reads_all_map.
Qed.

Lemma wfields_bytes tag payload st (f : bytes -> St) :
  u8 tag -> (forall dict, visit dict tag st = (let! x := take_all in rret (f x))) ->
  wfields visit (write_bytes_field tag payload) st (f payload) 0.
Proof. intros Ht Hv. by eapply wfields_scalar_map, reads_all_take_all. Qed.

Lemma wfields_cost w st st' c c' : wfields visit w st st' c -> c = c' -> wfields visit w st st' c'.
Proof. by intros ? <-. Qed.

(** A field written only under a condition, whose absence leaves the default in place. *)
Lemma wfields_when (b : bool) w st st' c :
  (b = true -> wfields visit w st st' c) -> (b = false -> st = st' /\ c = 0) ->
  wfields visit (wwhen b w) st st' c.
Proof.
  destruct b; intros Ht Hf; [by apply Ht|]. destruct (Hf eq_refl) as [-> ->]. apply wfields_nil.
Qed.

Lemma wfields_opt {A} (o : option A) (w : A -> writer) st st' c :
  (forall a, o = Some a -> wfields visit (w a) st st' c) -> (o = None -> st = st' /\ c = 0) ->
  wfields visit (wopt o w) st st' c.
Proof.
  destruct o; intros Ht Hf; [by apply Ht|]. destruct (Hf eq_refl) as [-> ->]. apply wfields_nil.
Qed.

Lemma wfields_all w st st' c :
  wfields visit w st st' c -> wreads_all (fun dict => for_each_field (visit dict) st) w st' c.
Proof. intros H. eapply writes_mono; [exact H|]. intros D bs. apply fields_to_all. Qed.
End Fields.

(** ** Lists *)

Lemma reads_rrepeat_map {T T'} (r : reader T') (f : T -> T') (cost : T -> Z) items bss :
  Forall2 (fun x b => reads_back r b (f x) (cost x)) items bss ->
  reads_back (rrepeat (length items) r) (concat bss) (map f items) (total cost items).
Proof.
  intros HF. rewrite <- (length_map f). apply reads_back_repeat; [|by rewrite !length_map].
  induction HF; simpl; constructor; done.
Qed.

Lemma concat_nonempty_length (l : list bytes) :
  Forall (fun b => 1 <= blen b) l -> Z.of_nat (length l) <= blen (concat l).
Proof. induction 1; simpl; [done|]. rewrite blen_app. lia. Qed.

Lemma wreads_record_list_into {T T'} size (read_one : Dict -> reader T') (write_one : T -> writer)
    (f : T -> T') (cost : T -> Z) (items : list T) (out : list T') :
  0 <= size ->
  Forall (fun x => wreads_all read_one (write_one x) (f x) (cost x)) items ->
  wreads (fun dict => read_record_list_into size (read_one dict) out)
    (write_record_list items write_one) (out ++ map f items)
    (Z.of_nat (length items) * size + total cost items).
Proof.
  intros Hsize HF. eapply writes_app;
    [apply (writes_bytes I1 _ (fun _ bs => bs = write_uvarint (Z.of_nat (length items)))); done| |].
  - apply (writes_concat I1 _ (fun x D b => exists p, b = len_prefixed p /\
      reads_all (read_one (map (translate I1 I2) D)) p (f x) (cost x))).
    eapply Forall_impl; [exact HF|]. intros x Hx. by apply writes_prefixed.
  - intros D b1 b2 -> (bss & -> & H2).
    assert (reads_back (rrepeat (length items)
      (read_list_entry (read_one (map (translate I1 I2) D)))) (concat bss) (map f items)
      (total cost items)) as Hrep.
    { apply reads_rrepeat_map. eapply Forall2_impl; [exact H2|].
      intros x b (p & -> & Hp). by apply reads_declared_consumed. }
    assert (Z.of_nat (length items) <= blen (concat bss)) as Hlen.
    { rewrite (Forall2_length _ _ _ H2). apply concat_nonempty_length.
      eapply Forall2_Forall_r; [exact H2|]. apply Forall_forall. intros x _ b (p & -> & _).
      pose proof (blen_len_prefixed p). pose proof (blen_nonneg p). lia. }
    pose proof (proj1 Hrep).
    apply reads_back_bounded; [nia|]. rewrite blen_app. intros Hw.
    eapply reads_back_bind_eq; [done|symmetry; apply Z.add_0_l|apply reads_uvarint|].
    { pose proof (blen_nonneg (write_uvarint (Z.of_nat (length items)))). split; lia. }
    apply reads_back_charge_list; [done|lia|done|lia|].
    rewrite Nat2Z.id. eapply reads_back_bind_r; [exact Hrep|]. apply reads_back_ret.
Qed.

Lemma wreads_record_list {T T'} size (read_one : Dict -> reader T') (write_one : T -> writer)
    (f : T -> T') (cost : T -> Z) (items : list T) :
  0 <= size ->
  Forall (fun x => wreads_all read_one (write_one x) (f x) (cost x)) items ->
  wreads (fun dict => read_record_list size (read_one dict))
    (write_record_list items write_one) (map f items)
    (Z.of_nat (length items) * size + total cost items).
Proof. intros. by apply (wreads_record_list_into _ _ _ _ _ _ []). Qed.
End RoundTrip.
