(* ===== verification/ValueCodec.v ===== *)
(** * Values and attribute maps on the wire

    crates/logit-proto/src/native/value.rs: every value is [tag(1) + len(varint) + payload]. The
    decoder recurses on the nesting levels it may still enter, [MAX_VALUE_DEPTH + 1 - depth], which
    is zero exactly when the source's depth check fails, so no fuel is involved. *)

From S2P Require Import Prelude Codec Budget Reader Varint Utf8 Model Instances AttrMap Wire Account Dict Tlv.

Abbreviation TAG_NULL := 0%Z.
Abbreviation TAG_BOOL := 1%Z.
Abbreviation TAG_I64 := 2%Z.
Abbreviation TAG_U64 := 3%Z.
Abbreviation TAG_F64 := 4%Z.
Abbreviation TAG_BYTES := 5%Z.
Abbreviation TAG_STR := 6%Z.
Abbreviation TAG_TIMESTAMP := 7%Z.
Abbreviation TAG_ARRAY := 8%Z.
Abbreviation TAG_MAP := 9%Z.

Definition MAX_VALUE_DEPTH : nat := 128.

(** [std::mem::size_of] of [Value], [(Symbol, Value)] and [AttrMap]. *)
Definition size_of_Value : Z := 40.
Definition size_of_entry : Z := 48.
Definition size_of_AttrMap : Z := 392.

(** ** Writing *)

Definition write_varint_payload (tag : Z) (payload : bytes) : writer :=
  wbytes ([z2b tag] ++ write_uvarint (blen payload) ++ payload).

(** A payload built in a temporary buffer, then tagged and length-prefixed. *)
Definition write_nested (tag : Z) (build : writer) : writer := fun d =>
  let '(tmp, d') := build d in
  ([z2b tag] ++ write_uvarint (blen tmp) ++ tmp, d').

(** [write_uvarint(out, dict.intern(key) as u64)]. *)
Definition write_key (key : Symbol) : writer := fun d =>
  let '(idx, d') := dict_intern d key in (write_uvarint idx, d').

(** [write_attr_map] over a writer for the values. *)
Definition write_entries (wv : Value -> writer) (m : AttrMap) : writer :=
  wbytes (write_uvarint (Z.of_nat (length m))) +++
  wconcat (map (fun kv => write_key kv.1 +++ wv kv.2) m).

Fixpoint write_value (value : Value) : writer :=
  match value with
  | VNull => wbytes ([z2b TAG_NULL] ++ write_uvarint 0)
  | VBool b => wbytes ([z2b TAG_BOOL] ++ write_uvarint 1 ++ [z2b (Z.b2z b)])
  | VI64 v => write_varint_payload TAG_I64 (write_ivarint v)
  | VU64 v => write_varint_payload TAG_U64 (write_uvarint v)
  | VF64 v => wbytes ([z2b TAG_F64] ++ write_uvarint 8 ++ to_le_bytes 8 v)
  | VBytes b => wbytes ([z2b TAG_BYTES] ++ write_uvarint (blen b) ++ b)
  | VStr b => wbytes ([z2b TAG_STR] ++ write_uvarint (blen b) ++ b)
  | VTimestamp v => write_varint_payload TAG_TIMESTAMP (write_ivarint v)
  | VArray items =>
      write_nested TAG_ARRAY
        (wbytes (write_uvarint (Z.of_nat (length items))) +++ wconcat (map write_value items))
  | VMap m => write_nested TAG_MAP (write_entries write_value m)
  end.

Definition write_attr_map (m : AttrMap) : writer := write_entries write_value m.

(** [str::starts_with]. *)
Fixpoint starts_with (s prefix : bytes) : bool :=
  match prefix, s with
  | [], _ => true
  | p :: prefix, x :: s => bool_decide (p = x) && starts_with s prefix
  | _ :: _, [] => false
  end.

Definition write_attr_map_omitting `{Interner} (m : AttrMap) (omit : bytes) : writer :=
  let kept (kv : Symbol * Value) := negb (starts_with (resolve kv.1) omit) in
  wbytes (write_uvarint (Z.of_nat (length (List.filter kept m)))) +++
  wconcat (map (fun kv => write_key kv.1 +++ write_value kv.2) (List.filter kept m)).

(** ** Reading *)

(** The loop of [read_attr_map_at], over a reader for the values. *)
Fixpoint read_entries (n : nat) (rv : reader Value) (dict : Dict) (m : AttrMap) : reader AttrMap :=
  match n with
  | O => rret m
  | S n =>
      let! idx := read_uvarint in
      let! key := rlift (dict_get dict (uwrap 32 idx)) in
      let! value := rv in
      read_entries n rv dict (insert_sym m key value)
  end.

Definition read_attr_map_with (rv : reader Value) (dict : Dict) : reader AttrMap :=
  let! count := read_uvarint in
  rcharge_list "attribute map" count 3 size_of_entry ;!
  read_entries (Z.to_nat count) rv dict [].

Definition read_f64_payload : reader Z := fun payload b =>
  if blen payload =? 8 then (Ok (from_le_bytes payload, []), b)
  else (Err (Malformed "F64 value not 8 bytes"), b).

Definition read_bool_payload : reader Z :=
  need 1 (Malformed "Bool value has no payload byte") ;! read_u8.

Definition read_array_payload (rv : reader Value) : reader (list Value) :=
  let! count := read_uvarint in
  rcharge_list "array value" count 2 size_of_Value ;!
  rrepeat (Z.to_nat count) rv.

Definition read_map_payload (rv : reader Value) (dict : Dict) : reader AttrMap :=
  rcharge size_of_AttrMap ;! read_attr_map_with rv dict.

(** The [match tag] of [read_value_at]; [rv] reads a value one level down. *)
Definition read_payload (rv : reader Value) (dict : Dict) (tag : Z) (payload : bytes) : reader Value :=
  let consumed := consumed_slice (trailing_bytes "value") payload in
  if tag =? TAG_NULL then consumed (rret VNull)
  else if tag =? TAG_BOOL then
    consumed (let! b := read_bool_payload in rret (VBool (negb (b =? 0))))
  else if tag =? TAG_I64 then consumed (let! v := read_ivarint in rret (VI64 v))
  else if tag =? TAG_U64 then consumed (let! v := read_uvarint in rret (VU64 v))
  else if tag =? TAG_F64 then consumed (let! v := read_f64_payload in rret (VF64 v))
  else if tag =? TAG_BYTES then rret (VBytes payload)
  else if tag =? TAG_STR then
    rguard (utf8_valid payload) (Malformed "Str value not utf-8") ;! rret (VStr payload)
  else if tag =? TAG_TIMESTAMP then consumed (let! v := read_ivarint in rret (VTimestamp v))
  else if tag =? TAG_ARRAY then consumed (let! items := read_array_payload rv in rret (VArray items))
  else if tag =? TAG_MAP then
    consumed (let! m := read_map_payload rv dict in rret (VMap m))
  else rret VNull.

(** [levels] is how many more levels of nesting may be entered. *)
Fixpoint read_value_levels (levels : nat) (dict : Dict) : reader Value :=
  match levels with
  | O => rfail (Malformed "value nesting deeper than the 128-level cap")
  | S levels =>
      let! tag := read_u8 in
      let! payload := take_declared "value declares more bytes than remain" in
      read_payload (read_value_levels levels dict) dict tag payload
  end.

Definition read_value_at (depth : nat) (dict : Dict) : reader Value :=
  read_value_levels (S MAX_VALUE_DEPTH - depth) dict.

Definition read_value (dict : Dict) : reader Value := read_value_at 0 dict.

Definition read_attr_map_at (depth : nat) (dict : Dict) : reader AttrMap :=
  read_attr_map_with (read_value_at depth dict) dict.

Definition read_attr_map (dict : Dict) : reader AttrMap := read_attr_map_at 0 dict.

(** ** What is charged, what is well formed, and what the other process sees *)

Definition entries_cost (vc : Value -> Z) (m : AttrMap) : Z :=
  Z.of_nat (length m) * size_of_entry + total (fun kv => vc kv.2) m.

Fixpoint value_cost (v : Value) : Z :=
  match v with
  | VArray items => Z.of_nat (length items) * size_of_Value + total value_cost items
  | VMap m => size_of_AttrMap + entries_cost value_cost m
  | _ => 0
  end.

Definition attrs_cost (m : AttrMap) : Z := entries_cost value_cost m.

Definition live_sym `{Interner} (sym : Symbol) : bool :=
  utf8_valid (resolve sym) && bool_decide (intern (resolve sym) = sym).

Fixpoint sorted_keys {V} (m : list (Symbol * V)) : bool :=
  match m with
  | [] => true
  | (k, _) :: m' =>
      match m' with
      | [] => true
      | (k', _) :: _ => (k <? k')%positive
      end && sorted_keys m'
  end.

Definition option_ok {A} (p : A -> bool) (o : option A) : bool :=
  match o with
  | Some a => p a
  | None => true
  end.

Definition unsigned_ok (w v : Z) : bool := (0 <=? v) && (v <? 2 ^ w).

Definition signed_ok (w v : Z) : bool := (- 2 ^ (w - 1) <=? v) && (v <? 2 ^ (w - 1)).

(** The invariants of the Rust types: integer ranges, UTF-8 strings, sorted maps over live keys. *)
Fixpoint value_ok `{Interner} (v : Value) : bool :=
  match v with
  | VNull | VBool _ | VBytes _ => true
  | VI64 v | VTimestamp v => signed_ok 64 v
  | VU64 v | VF64 v => unsigned_ok 64 v
  | VStr bs => utf8_valid bs
  | VArray items => forallb value_ok items
  | VMap m => sorted_keys m && forallb (fun kv => live_sym kv.1 && value_ok kv.2) m
  end.

Definition attrs_ok `{Interner} (m : AttrMap) : bool :=
  sorted_keys m && forallb (fun kv => live_sym kv.1 && value_ok kv.2) m.

(** Keys renamed to the receiver's symbols and re-inserted in its order. *)
Fixpoint translate_value (I1 I2 : Interner) (v : Value) : Value :=
  match v with
  | VArray items => VArray (map (translate_value I1 I2) items)
  | VMap m =>
      VMap (insert_all [] (map (fun kv => (translate I1 I2 kv.1, translate_value I1 I2 kv.2)) m))
  | v => v
  end.

Definition translate_attrs (I1 I2 : Interner) (m : AttrMap) : AttrMap :=
  insert_all [] (map (fun kv => (translate I1 I2 kv.1, translate_value I1 I2 kv.2)) m).

(** ** Well-formedness, reflected *)

Lemma live_sym_spec `{Interner} sym : live_sym sym = true <-> live sym.
Proof. unfold live_sym, live. rewrite andb_true_iff, bool_decide_eq_true. done. Qed.

Lemma unsigned_ok_spec w v : unsigned_ok w v = true <-> unsigned w v.
Proof. unfold unsigned_ok, unsigned. rewrite andb_true_iff, Z.leb_le, Z.ltb_lt. done. Qed.

Lemma signed_ok_spec w v : signed_ok w v = true <-> signed w v.
Proof. unfold signed_ok, signed. rewrite andb_true_iff, Z.leb_le, Z.ltb_lt. done. Qed.

Lemma sorted_keys_spec {V} (m : list (Symbol * V)) : sorted_keys m = true <-> attrs_wf m.
Proof.
  induction m as [|[k v] m IH]; [split; [constructor|done]|].
  rewrite attrs_wf_cons. cbn [sorted_keys]. rewrite andb_true_iff, IH. split.
  - intros [Hk Hwf]. split; [done|]. destruct m as [|[k' v'] m]; [constructor|].
    apply attrs_wf_cons in Hwf as [_ HF]. apply Pos.ltb_lt in Hk. constructor; [done|].
    eapply Forall_impl; [exact HF|]. simpl. intros e He. lia.
  - intros [Hwf HF]. split; [|done]. destruct m as [|[k' v'] m]; [done|].
    apply Forall_cons in HF as [Hk _]. by apply Pos.ltb_lt.
Qed.

Lemma forallb_Forall {A} (p : A -> bool) l : forallb p l = true <-> Forall (fun x => p x = true) l.
Proof. rewrite forallb_forall, Forall_forall. by setoid_rewrite list_elem_of_In. Qed.

Lemma attrs_ok_spec `{Interner} m :
  attrs_ok m = true <->
  attrs_wf m /\ Forall (fun kv => live kv.1 /\ value_ok kv.2 = true) m.
Proof.
  unfold attrs_ok. rewrite andb_true_iff, sorted_keys_spec, forallb_Forall.
  f_equiv. apply Forall_proper; [|done]. intros kv. by rewrite andb_true_iff, live_sym_spec.
Qed.

(** ** The entry loop is a counted read followed by the inserts *)

Definition read_entry (rv : reader Value) (dict : Dict) : reader (Symbol * Value) :=
  let! idx := read_uvarint in
  let! key := rlift (dict_get dict (uwrap 32 idx)) in
  let! value := rv in
  rret (key, value).

Lemma read_entries_eq n rv dict : forall m bs b,
  read_entries n rv dict m bs b =
  (let! es := rrepeat n (read_entry rv dict) in rret (insert_all m es)) bs b.
Proof.
  induction n as [|n IH]; intros m bs b; [done|]. cbn [read_entries rrepeat].
  unfold read_entry at 1, rbind, rret.
  destruct (read_uvarint bs b) as [[[idx bs1]|e] b1]; [|done].
  destruct (rlift (dict_get dict (uwrap 32 idx)) bs1 b1) as [[[key bs2]|e] b2]; [|done].
  destruct (rv bs2 b2) as [[[value bs3]|e] b3]; [|done].
  rewrite IH. unfold rbind, rret.
  by destruct (rrepeat n (read_entry rv dict) bs3 b3) as [[[es bs4]|e] b4].
Qed.

(** ** Depth *)

Lemma value_depth_array n items :
  (value_depth (VArray items) < S n)%nat <-> Forall (fun x => (value_depth x < n)%nat) items.
Proof.
  cbn [value_depth]. induction items as [|x l IH]; cbn [foldr]; [split; [constructor|lia]|].
  rewrite Forall_cons, <- IH. lia.
Qed.

Lemma value_depth_map n m :
  (value_depth (VMap m) < S n)%nat <-> Forall (fun kv => (value_depth kv.2 < n)%nat) m.
Proof.
  cbn [value_depth]. induction m as [|x l IH]; cbn [foldr]; [split; [constructor|lia]|].
  rewrite Forall_cons, <- IH. lia.
Qed.

Lemma map_depth_spec n m :
  (map_depth m <= n)%nat <-> Forall (fun kv => (value_depth kv.2 < S n)%nat) m.
Proof.
  unfold map_depth. induction m as [|x l IH]; cbn [foldr]; [split; [constructor|lia]|].
  rewrite Forall_cons, <- IH. lia.
Qed.

(** ** Round trip *)

Lemma write_value_blen v d : 2 <= blen (fst (write_value v d)).
Proof.
  assert (forall t w, 2 <= blen ([t] ++ len_prefixed w)) as Hp.
  { intros t w. rewrite blen_app. pose proof (blen_len_prefixed w). pose proof (blen_nonneg w).
    change (blen [t]) with 1. lia. }
  assert (forall t n w, 2 <= blen ([t] ++ write_uvarint n ++ w)) as Hq.
  { intros t n w. rewrite !blen_app. pose proof (write_uvarint_nonempty n). pose proof (blen_nonneg w).
    change (blen [t]) with 1. lia. }
  destruct v; cbn [write_value fst wbytes]; try apply Hq.
  - rewrite <- (app_nil_r (write_uvarint 0)). apply Hq.
  - unfold write_nested. destruct (wapp _ _ d). apply Hq.
  - unfold write_nested. destruct (write_entries _ _ d). apply Hq.
Qed.

Lemma write_key_blen k d : 1 <= blen (fst (write_key k d)).
Proof. unfold write_key. destruct (dict_intern d k). apply write_uvarint_nonempty. Qed.

Lemma writes_blen I w P n :
  writes I w P -> (forall d, n <= blen (fst (w d))) -> writes I w (fun D bs => P D bs /\ n <= blen bs).
Proof.
  intros Hw Hn d bs d' Hd E. destruct (Hw _ _ _ Hd E) as (W & X & Y).
  specialize (Hn d). rewrite E in Hn. split; [done|]. split; [done|]. auto.
Qed.

Lemma concat_blen (l : list bytes) n :
  Forall (fun b => n <= blen b) l -> Z.of_nat (length l) * n <= blen (concat l).
Proof. induction 1; cbn [length concat]; [done|]. rewrite blen_app. lia. Qed.

Lemma reads_f64_payload v : u64 v -> reads_all read_f64_payload (to_le_bytes 8 v) v 0.
Proof.
  intros Hv. split; [done|]. intros _ b _ _. unfold read_f64_payload.
  rewrite blen_to_le_bytes. change (Z.of_nat 8 =? 8) with true. cbv iota.
  rewrite from_to_le_unsigned by done. by rewrite spend_0.
Qed.

Section RoundTrip.
Context (I1 I2 : Interner).

(** A counted list whose items take at least [mw] bytes each, its count checked by [pre]. *)
Lemma wreads_counted_checked {T T'} (pre : Z -> reader unit) what mw size (r : Dict -> reader T')
    (w : T -> writer) (f : T -> T') (cost : T -> Z) (items : list T) :
  0 < mw -> 0 <= size -> (forall x d, mw <= blen (fst (w x d))) ->
  reads_back (pre (Z.of_nat (length items))) [] tt 0 ->
  Forall (fun x => wreads I1 I2 r (w x) (f x) (cost x)) items ->
  wreads I1 I2 (fun dict => let! count := read_uvarint in
      pre count ;! rcharge_list what count mw size ;! rrepeat (Z.to_nat count) (r dict))
    (wbytes (write_uvarint (Z.of_nat (length items))) +++ wconcat (map w items))
    (map f items) (Z.of_nat (length items) * size + total cost items).
Proof.
  intros Hmw Hsize Hblen Hpre HF. eapply writes_app;
    [apply (writes_bytes I1 _ (fun _ bs => bs = write_uvarint (Z.of_nat (length items)))); done| |].
  - apply (writes_concat I1 _ (fun x D b =>
      reads_back (r (map (translate I1 I2) D)) b (f x) (cost x) /\ mw <= blen b)).
    eapply Forall_impl; [exact HF|]. intros x Hx. by apply writes_blen.
  - intros D b1 b2 -> (bss & -> & H2).
    assert (reads_back (rrepeat (length items) (r (map (translate I1 I2) D))) (concat bss)
      (map f items) (total cost items)) as Hrep.
    { apply reads_rrepeat_map. eapply Forall2_impl; [exact H2|]. by intros x b [H _]. }
    assert (Z.of_nat (length items) * mw <= blen (concat bss)) as Hlen.
    { rewrite (Forall2_length _ _ _ H2). apply concat_blen.
      eapply Forall2_Forall_r; [exact H2|]. apply Forall_forall. by intros x _ b [_ H]. }
    pose proof (proj1 Hrep). apply reads_back_bounded; [nia|]. rewrite blen_app. intros Hw.
    eapply reads_back_bind_eq; [done|symmetry; apply Z.add_0_l|apply reads_uvarint|].
    { pose proof (blen_nonneg (write_uvarint (Z.of_nat (length items)))). split; nia. }
    eapply reads_back_bind_l; [exact Hpre|].
    apply reads_back_charge_list; [done|lia|done|lia|]. by rewrite Nat2Z.id.
Qed.

Lemma wreads_counted {T T'} what mw size (r : Dict -> reader T') (w : T -> writer) (f : T -> T')
    (cost : T -> Z) (items : list T) :
  0 < mw -> 0 <= size -> (forall x d, mw <= blen (fst (w x d))) ->
  Forall (fun x => wreads I1 I2 r (w x) (f x) (cost x)) items ->
  wreads I1 I2 (fun dict => let! count := read_uvarint in
      rcharge_list what count mw size ;! rrepeat (Z.to_nat count) (r dict))
    (wbytes (write_uvarint (Z.of_nat (length items))) +++ wconcat (map w items))
    (map f items) (Z.of_nat (length items) * size + total cost items).
Proof.
  intros Hmw Hsize Hblen HF.
  exact (wreads_counted_checked (fun _ => rret tt) what mw size r w f cost items Hmw Hsize Hblen
    (reads_back_ret tt) HF).
Qed.

Lemma wreads_key sym :
  @live I1 sym ->
  wreads I1 I2 (fun dict => let! idx := read_uvarint in rlift (dict_get dict (uwrap 32 idx)))
    (write_key sym) (translate I1 I2 sym) 0.
Proof.
  intros Hl. apply (writes_mono I1 _ (fun D bs => reads_back
    (let! idx := (let! idx := read_uvarint in rret (uwrap 32 idx)) in
     rlift (dict_get (map (translate I1 I2) D) idx)) bs (translate I1 I2 sym) 0)).
  - apply wreads_symbol; [|done]. intros idx Hidx. eapply reads_back_bind_r.
    + apply reads_uvarint. unfold unsigned in *. lia.
    + rewrite uwrap_small by done. apply reads_back_ret.
  - intros D bs [Hc H]. split; [done|]. intros Hw rest b Hb Hm. specialize (H Hw rest b Hb Hm).
    unfold rbind, rret in *. by destruct (read_uvarint (bs ++ rest) b) as [[[? ?]|] ?].
Qed.

Lemma wreads_entry (rv : Dict -> reader Value) k v :
  @live I1 k -> wreads I1 I2 rv (write_value v) (translate_value I1 I2 v) (value_cost v) ->
  wreads I1 I2 (fun dict => read_entry (rv dict) dict) (write_key k +++ write_value v)
    (translate I1 I2 k, translate_value I1 I2 v) (value_cost v).
Proof.
  intros Hk Hv. eapply writes_app; [by apply wreads_key|exact Hv|]. cbn beta.
  intros D b1 b2 H1 H2. split; [apply H2|]. intros Hw rest b Hb Hm.
  assert (reads_back (let! key := (let! idx := read_uvarint in
      rlift (dict_get (map (translate I1 I2) D) (uwrap 32 idx))) in
    let! value := rv (map (translate I1 I2) D) in rret (key, value)) (b1 ++ b2)
    (translate I1 I2 k, translate_value I1 I2 v) (value_cost v)) as [_ H].
  { eapply reads_back_bind_eq; [done|symmetry; apply Z.add_0_l|exact H1|].
    eapply reads_back_bind_r; [exact H2|]. apply reads_back_ret. }
  specialize (H Hw rest b Hb Hm). unfold read_entry. unfold rbind in *.
  by destruct (read_uvarint ((b1 ++ b2) ++ rest) b) as [[[? ?]|] ?].
Qed.

Lemma wreads_entries (rv : Dict -> reader Value) (m : AttrMap) :
  Forall (fun kv => @live I1 kv.1 /\
    wreads I1 I2 rv (write_value kv.2) (translate_value I1 I2 kv.2) (value_cost kv.2)) m ->
  wreads I1 I2 (fun dict => read_attr_map_with (rv dict) dict) (write_attr_map m)
    (translate_attrs I1 I2 m) (attrs_cost m).
Proof.
  intros HF. unfold write_attr_map, write_entries, attrs_cost, entries_cost.
  eapply writes_mono.
  - apply (wreads_counted "attribute map" 3 size_of_entry (fun dict => read_entry (rv dict) dict)
      _ (fun kv => (translate I1 I2 kv.1, translate_value I1 I2 kv.2)) (fun kv => value_cost kv.2));
      [lia|unfold size_of_entry; lia| |].
    + intros kv d. unfold wapp. pose proof (write_key_blen kv.1 d). destruct (write_key kv.1 d) as [b1 d1].
      pose proof (write_value_blen kv.2 d1). destruct (write_value kv.2 d1). cbn [fst] in *.
      rewrite blen_app. lia.
    + eapply Forall_impl; [exact HF|]. intros [k v] [Hk Hv]. by apply wreads_entry.
  - intros D bs [Hc H]. split; [done|]. intros Hw rest b Hb Hm. specialize (H Hw rest b Hb Hm).
    unfold read_attr_map_with. unfold rbind at 1 2 in H. unfold rbind at 1 2.
    destruct (read_uvarint (bs ++ rest) b) as [[[count bs1]|e] b1]; [|done].
    destruct (rcharge_list _ _ _ _ bs1 b1) as [[[[] bs2]|e] b2]; [|done].
    rewrite read_entries_eq. unfold rbind. by rewrite H.
Qed.

Lemma reads_tagged n dict tag p a c :
  u8 tag -> 0 <= c ->
  (blen p < 2 ^ 64 -> reads_back (read_payload (read_value_levels n dict) dict tag p) [] a c) ->
  reads_back (read_value_levels (S n) dict) ([z2b tag] ++ len_prefixed p) a c.
Proof.
  intros Ht Hc Hp. apply reads_back_bounded; [done|]. rewrite blen_app. intros Hw.
  pose proof (blen_len_prefixed p). pose proof (blen_nonneg [z2b tag]).
  eapply reads_back_bind_eq; [done|symmetry; apply Z.add_0_l|by apply reads_u8|].
  eapply reads_back_bind_eq; [symmetry; apply app_nil_r|symmetry; apply Z.add_0_l|apply reads_take_declared|].
  apply Hp. lia.
Qed.

(** A tagged payload its own reader consumes. *)
Lemma reads_tagged_consumed {A} n dict tag p (r : reader A) (f : A -> Value) a c :
  u8 tag -> reads_all r p a c ->
  read_payload (read_value_levels n dict) dict tag p =
    consumed_slice (trailing_bytes "value") p (let! x := r in rret (f x)) ->
  reads_back (read_value_levels (S n) dict) ([z2b tag] ++ len_prefixed p) (f a) c.
Proof.
  intros Ht Hr E. apply reads_tagged; [done|apply Hr|]. intros Hp. rewrite E.
  apply reads_consumed_slice; [done|]. eapply reads_all_bind_r; [exact Hr|].
  apply reads_back_all, reads_back_ret.
Qed.

Lemma wreads_nested {A} n tag w (r : Dict -> reader A) (f : A -> Value) a c :
  u8 tag -> wreads_all I1 I2 r w a c ->
  (forall dict p, read_payload (read_value_levels n dict) dict tag p =
    consumed_slice (trailing_bytes "value") p (let! x := r dict in rret (f x))) ->
  wreads I1 I2 (read_value_levels (S n)) (write_nested tag w) (f a) c.
Proof.
  intros Ht Hr E d bs d' Hd Ew. unfold write_nested in Ew. destruct (w d) as [tmp d1] eqn:E1.
  injection Ew as <- <-. destruct (Hr _ _ _ Hd E1) as (W & X & Y). split; [done|]. split; [done|].
  intros D HD HL. eapply reads_tagged_consumed; [done|by apply Y|]. apply E.
Qed.

(** A value is read back, with its keys translated, when the levels left admit its nesting. *)
Lemma wreads_value v : forall n,
  @value_ok I1 v = true -> (value_depth v < n)%nat ->
  wreads I1 I2 (read_value_levels n) (write_value v) (translate_value I1 I2 v) (value_cost v).
Proof.
  induction v as [|b|v|v|v|bs|bs|v|l IH|m IH] using Value_nested_ind; intros [|n] Hok Hd; try lia;
    cbn [value_ok] in Hok.
  - apply writes_bytes. intros D. apply (reads_tagged_consumed _ _ TAG_NULL [] (rret tt) (fun _ => VNull) tt);
      [done|apply reads_back_all, reads_back_ret|done].
  - apply writes_bytes. intros D. replace (VBool b) with (VBool (negb (Z.b2z b =? 0))) by by destruct b.
    apply (reads_tagged_consumed _ _ TAG_BOOL [z2b (Z.b2z b)] read_bool_payload
      (fun x => VBool (negb (x =? 0)))); [done| |done].
    apply reads_back_all, reads_back_need; [by rewrite blen_cons, blen_nil|].
    apply reads_u8. by destruct b.
  - apply signed_ok_spec in Hok. apply writes_bytes. intros D.
    apply (reads_tagged_consumed _ _ TAG_I64 _ read_ivarint VI64); [done|by apply reads_back_all, reads_ivarint|done].
  - apply unsigned_ok_spec in Hok. apply writes_bytes. intros D.
    apply (reads_tagged_consumed _ _ TAG_U64 _ read_uvarint VU64); [done|by apply reads_back_all, reads_uvarint|done].
  - apply unsigned_ok_spec in Hok. apply writes_bytes. intros D.
    apply (reads_tagged_consumed _ _ TAG_F64 (to_le_bytes 8 v) read_f64_payload VF64); [done|by apply reads_f64_payload|done].
  - apply writes_bytes. intros D. apply (reads_tagged _ _ TAG_BYTES); [done|done|]. intros _.
    apply (reads_back_ret (VBytes bs)).
  - apply writes_bytes. intros D. apply (reads_tagged _ _ TAG_STR); [done|done|]. intros _.
    eapply (reads_back_bind_l (rguard (utf8_valid bs) _)); [by apply reads_back_guard|].
    apply (reads_back_ret (VStr bs)).
  - apply signed_ok_spec in Hok. apply writes_bytes. intros D.
    apply (reads_tagged_consumed _ _ TAG_TIMESTAMP _ read_ivarint VTimestamp); [done|by apply reads_back_all, reads_ivarint|done].
  - apply value_depth_array in Hd. apply forallb_Forall in Hok.
    apply (wreads_nested _ TAG_ARRAY _ (fun dict => read_array_payload (read_value_levels n dict)) VArray);
      [done| |done].
    apply wreads_wreads_all, wreads_counted; [lia|unfold size_of_Value; lia|apply write_value_blen|].
    apply Forall_forall. intros x Hx. rewrite Forall_forall in IH, Hok, Hd. auto.
  - apply value_depth_map in Hd. apply attrs_ok_spec in Hok as [_ Hok].
    apply (wreads_nested _ TAG_MAP _ (fun dict => read_map_payload (read_value_levels n dict) dict) VMap);
      [done| |done].
    eapply writes_mono; [apply (wreads_entries (read_value_levels n) m)|].
    + apply Forall_forall. intros x Hx. rewrite Forall_forall in IH, Hok, Hd.
      destruct (Hok x Hx). auto.
    + intros D bs H. apply reads_back_all.
      eapply (reads_back_bind_eq _ _ _ []); [done|done| |exact H].
      apply reads_back_charge. unfold size_of_AttrMap; lia.
Qed.
End RoundTrip.

(** ** Within one process the translation is the identity *)

Lemma translate_live (I : Interner) sym : live sym -> translate I I sym = sym.
Proof. by intros [_ H]. Qed.

Lemma map_id_Forall {A} (f : A -> A) l : Forall (fun x => f x = x) l -> map f l = l.
Proof. induction 1; simpl; congruence. Qed.

Lemma translate_value_id (I : Interner) v : value_ok v = true -> translate_value I I v = v.
Proof.
  induction v as [|b|v|v|v|bs|bs|v|l IH|m IH] using Value_nested_ind; intros Hok; try done;
    cbn [value_ok translate_value] in *; f_equal.
  - apply forallb_Forall in Hok. apply map_id_Forall. apply Forall_forall. intros x Hx.
    rewrite Forall_forall in IH, Hok. auto.
  - apply attrs_ok_spec in Hok as [Hwf Hok].
    rewrite map_id_Forall; [by apply (insert_all_sorted [])|]. apply Forall_forall. intros [k x] Hx.
    rewrite Forall_forall in IH, Hok. destruct (Hok _ Hx) as [Hk Hv]. simpl in *.
    rewrite translate_live by done. f_equal. by apply (IH (k, x)).
Qed.

Lemma translate_attrs_id (I : Interner) m : attrs_ok m = true -> translate_attrs I I m = m.
Proof.
  intros H. assert (translate_value I I (VMap m) = VMap m) as E by by apply translate_value_id.
  by injection E.
Qed.

Lemma wreads_attr_map (I1 I2 : Interner) m :
  @attrs_ok I1 m = true -> (map_depth m <= MAX_VALUE_DEPTH)%nat ->
  wreads I1 I2 read_attr_map (write_attr_map m) (translate_attrs I1 I2 m) (attrs_cost m).
Proof.
  intros Hok Hd. apply attrs_ok_spec in Hok as [_ Hok].
  apply (wreads_entries I1 I2 (fun dict => read_value_at 0 dict)).
  apply map_depth_spec in Hd as HD.
  apply Forall_forall. intros x Hx. rewrite Forall_forall in Hok, HD. destruct (Hok x Hx) as [Hk Hv].
  split; [done|]. apply wreads_value; [done|]. by apply HD.
Qed.

(** ** On any input *)

Lemma budget_safe_entries n rv dict m : budget_safe rv -> budget_safe (read_entries n rv dict m).
Proof.
  intros Hr. revert m. induction n as [|n IH]; intros m; cbn [read_entries]; [auto with reader|].
  apply budget_safe_bind'; [auto with reader|]. intros idx.
  apply budget_safe_bind'; [auto with reader|]. intros key. by apply budget_safe_bind'.
Qed.

Lemma budget_safe_attr_map_with rv dict : budget_safe rv -> budget_safe (read_attr_map_with rv dict).
Proof.
  intros Hr. eapply budget_safe_bind; [auto with reader|apply returns_uvarint|]. intros count [Hc _].
  apply budget_safe_bind'; [apply budget_safe_charge_list; [done|unfold size_of_entry; lia]|].
  intros _. by apply budget_safe_entries.
Qed.

Lemma budget_safe_array_payload rv : budget_safe rv -> budget_safe (read_array_payload rv).
Proof.
  intros Hr. eapply budget_safe_bind; [auto with reader|apply returns_uvarint|]. intros count [Hc _].
  apply budget_safe_bind'; [apply budget_safe_charge_list; [done|unfold size_of_Value; lia]|].
  auto with reader.
Qed.

Lemma budget_safe_bool_payload : budget_safe read_bool_payload.
Proof. apply budget_safe_bind'; auto with reader. Qed.

Lemma budget_safe_f64_payload : budget_safe read_f64_payload.
Proof. apply budget_safe_pure. intros bs b. unfold read_f64_payload. by case_match. Qed.

Lemma budget_safe_map_payload rv dict : budget_safe rv -> budget_safe (read_map_payload rv dict).
Proof.
  intros Hr. apply budget_safe_bind'; [apply budget_safe_charge; unfold size_of_AttrMap; lia|].
  intros _. by apply budget_safe_attr_map_with.
Qed.

#[local] Hint Resolve budget_safe_array_payload budget_safe_bool_payload budget_safe_f64_payload
  budget_safe_map_payload : reader.

Lemma budget_safe_payload rv dict tag p : budget_safe rv -> budget_safe (read_payload rv dict tag p).
Proof.
  intros Hr. unfold read_payload.
  repeat case_match; try apply budget_safe_consumed; try apply budget_safe_map; auto with reader.
Qed.

Lemma budget_safe_value_levels n dict : budget_safe (read_value_levels n dict).
Proof.
  induction n as [|n IH]; cbn [read_value_levels]; [auto with reader|].
  apply budget_safe_bind'; [auto with reader|]. intros tag.
  apply budget_safe_bind'; [auto with reader|]. intros p. by apply budget_safe_payload.
Qed.

Lemma budget_safe_value dict : budget_safe (read_value dict).
Proof. apply budget_safe_value_levels. Qed.

Lemma budget_safe_attr_map dict : budget_safe (read_attr_map dict).
Proof. apply budget_safe_attr_map_with, budget_safe_value_levels. Qed.

#[export] Hint Resolve budget_safe_value budget_safe_attr_map : reader.

(** ** Accounting: what is returned is well formed, and was charged for *)

Lemma value_cost_nonneg v : 0 <= value_cost v.
Proof.
  assert (forall (A : Type) (f : A -> Z) l, Forall (fun x => 0 <= f x) l -> 0 <= total f l) as Ht.
  { intros A f l. unfold total. induction 1; simpl; lia. }
  induction v as [|b|v|v|v|bs|bs|v|l IH|m IH] using Value_nested_ind; cbn [value_cost]; try lia.
  - apply Ht in IH. unfold size_of_Value. lia.
  - apply (Ht _ (fun kv => value_cost kv.2)) in IH.
    unfold entries_cost, size_of_AttrMap, size_of_entry. lia.
Qed.

Lemma insert_sym_total (f : Symbol * Value -> Z) m k v :
  (forall kv, 0 <= f kv) -> total f (insert_sym m k v) <= total f m + f (k, v).
Proof.
  intros Hf. unfold total. induction m as [|[k' v'] m IH]; [simpl; lia|].
  rewrite insert_sym_cons. repeat case_match; simpl in *; pose proof (Hf (k', v')); try lia.
Qed.

Lemma insert_all_total (f : Symbol * Value -> Z) m es :
  (forall kv, 0 <= f kv) -> total f (insert_all m es) <= total f m + total f es.
Proof.
  intros Hf. revert m. induction es as [|[k v] es IH]; intros m; [unfold total; simpl; lia|].
  unfold insert_all. cbn [foldl fst snd]. fold (insert_all (insert_sym m k v) es).
  pose proof (insert_sym_total f m k v Hf). specialize (IH (insert_sym m k v)).
  unfold total in *. simpl. lia.
Qed.

Lemma insert_all_Forall (P : Symbol * Value -> Prop) m es :
  Forall P m -> Forall P es -> Forall P (insert_all m es).
Proof.
  intros Hm He. revert m Hm. induction He as [|[k v] es Hp HF IH]; intros m Hm; [done|].
  apply IH. clear IH HF. induction m as [|[k' v'] m IHm]; [by constructor|].
  apply Forall_cons in Hm as [Hk' Hm]. cbn [fst snd]. rewrite insert_sym_cons.
  repeat case_match; constructor; auto.
Qed.

Lemma entries_cost_total m :
  attrs_cost m = total (fun kv => size_of_entry + value_cost kv.2) m.
Proof.
  unfold attrs_cost, entries_cost, total. induction m as [|kv m IH]; [done|]. simpl. lia.
Qed.

Lemma yields_f64_payload : yields read_f64_payload (fun v s => u64 v /\ s = 0).
Proof.
  intros bs b v rest b' Hl Hb. unfold read_f64_payload.
  destruct (Z.eqb_spec (blen bs) 8) as [E|]; [|done].
  intros [= <- <- <-]. rewrite Z.sub_diag, blen_nil. split; [lia|]. split; [lia|]. split; [|done].
  pose proof (from_le_bytes_range bs) as Hr. rewrite E in Hr. exact Hr.
Qed.

Section Account.
#[local] Set Default Proof Using "Type*".
Context `{Interner} (dict : Dict) (Hdict : Forall live dict).

(** What the decoders guarantee of a value entered with [n] levels left. *)
Definition value_result (n : nat) (v : Value) : Prop := value_ok v = true /\ (value_depth v < n)%nat.

Lemma yields_attr_map_with n rv :
  yields rv (fun v s => value_result n v /\ value_cost v <= s) ->
  yields (read_attr_map_with rv dict)
    (fun m s => attrs_ok m = true /\ Forall (fun kv => (value_depth kv.2 < n)%nat) m /\ attrs_cost m <= s).
Proof.
  intros Hr. eapply yields_bind; [apply yields_uvarint|]. intros count s _ [[Hc _] ->].
  eapply yields_bind; [apply yields_charge_list; unfold size_of_entry; lia|]. intros _ s _ ->.
  eapply yields_ext; [apply read_entries_eq|].
  eapply yields_bind; [apply (yields_repeat _ _
    (fun kv => live kv.1 /\ value_result n kv.2) (fun kv => value_cost kv.2))|].
  - eapply yields_bind; [apply yields_uvarint|]. intros idx s _ [_ ->].
    eapply yields_bind; [apply yields_lift|]. intros key s _ [Hkey ->].
    apply (dict_get_live dict) in Hkey; [|done].
    eapply yields_bind; [exact Hr|]. intros v s _ [Hv Hcost]. apply yields_ret. simpl. split; [done|lia].
  - intros es s _ (Hlen & HP & HC). apply yields_ret.
    assert (Forall (fun kv => live kv.1 /\ value_result n kv.2) (insert_all [] es)) as HF.
    { by apply insert_all_Forall. }
    split; [|split].
    + apply attrs_ok_spec. split; [apply insert_all_wf, attrs_wf_nil|].
      eapply Forall_impl; [exact HF|]. intros kv (? & ? & ?). done.
    + eapply Forall_impl; [exact HF|]. by intros kv (? & ? & ?).
    + rewrite entries_cost_total. etrans; [apply insert_all_total|].
      { intros kv. pose proof (value_cost_nonneg kv.2). unfold size_of_entry. lia. }
      rewrite <- (entries_cost_total es). unfold attrs_cost, entries_cost.
      rewrite Hlen, Z2Nat.id by lia. change (total _ []) with 0. lia.
Qed.

Lemma yields_array_payload n rv :
  yields rv (fun v s => value_result n v /\ value_cost v <= s) ->
  yields (read_array_payload rv)
    (fun l s => Forall (value_result n) l /\ value_cost (VArray l) <= s).
Proof.
  intros Hr. eapply yields_bind; [apply yields_uvarint|]. intros count s _ [[Hc _] ->].
  eapply yields_bind; [apply yields_charge_list; unfold size_of_Value; lia|]. intros _ s _ ->.
  eapply yields_mono; [apply (yields_repeat _ _ (value_result n) value_cost); exact Hr|].
  intros l s _ (Hl & HP & HC). split; [done|]. cbn [value_cost]. rewrite Hl, Z2Nat.id by lia. lia.
Qed.

Lemma yields_payload n rv tag p :
  blen p < INPUT_BOUND -> yields rv (fun v s => value_result n v /\ value_cost v <= s) ->
  yields (read_payload rv dict tag p) (fun v s => value_result (S n) v /\ value_cost v <= s).
Proof.
  intros Hp Hr. unfold read_payload.
  assert (forall s v, value_ok v = true -> value_depth v = 0%nat -> value_cost v = 0 -> 0 <= s ->
    value_result (S n) v /\ value_cost v <= s) as Hleaf.
  { intros s v Hok Hd Hc Hs. unfold value_result. rewrite Hd, Hc. split; [split; [done|lia]|lia]. }
  repeat case_match; try (apply yields_consumed; [done|]).
  - apply yields_ret. by apply Hleaf.
  - eapply (yields_map _ _ (fun _ _ => True)); [|intros; by apply Hleaf].
    eapply yields_bind; [apply yields_need|]. intros _ s _ _. by eapply yields_mono; [apply yields_u8|].
  - eapply yields_map; [apply yields_ivarint|]. intros v s Hs [Hv _].
    apply Hleaf; try done. by apply signed_ok_spec.
  - eapply yields_map; [apply yields_uvarint|]. intros v s Hs [Hv _].
    apply Hleaf; try done. by apply unsigned_ok_spec.
  - eapply yields_map; [apply yields_f64_payload|]. intros v s Hs [Hv _].
    apply Hleaf; try done. by apply unsigned_ok_spec.
  - apply yields_ret. by apply Hleaf.
  - eapply yields_bind; [apply yields_guard|]. intros _ s Hs [Hu ->]. apply yields_ret. by apply Hleaf.
  - eapply yields_map; [apply yields_ivarint|]. intros v s Hs [Hv _].
    apply Hleaf; try done. by apply signed_ok_spec.
  - eapply yields_map; [by apply (yields_array_payload n)|]. intros l s Hs [HF Hc]. split; [|done].
    split; [|apply value_depth_array; by eapply Forall_impl; [exact HF|intros x [_ ?]]].
    cbn [value_ok]. apply forallb_Forall. by eapply Forall_impl; [exact HF|intros x [? _]].
  - eapply yields_map; [|intros m s Hs HQ; exact HQ].
    eapply yields_bind; [apply yields_charge; unfold size_of_AttrMap; lia|]. intros _ s _ ->.
    eapply yields_mono; [by apply (yields_attr_map_with n)|]. intros m s Hs (Hok & Hd & Hc).
    split; [split; [done|by apply value_depth_map]|]. cbn [value_cost]. unfold attrs_cost in Hc. lia.
  - apply yields_ret. by apply Hleaf.
Qed.

(** Any value the decoder returns is well formed, nests no deeper than the cap, and was charged for. *)
Lemma yields_value_levels n :
  yields (read_value_levels n dict) (fun v s => value_result n v /\ value_cost v <= s).
Proof.
  induction n as [|n IH]; cbn [read_value_levels]; [apply yields_fail|].
  eapply yields_bind; [apply yields_u8|]. intros tag s _ [Ht ->].
  eapply yields_bind; [apply yields_take_declared|]. intros p s _ [Hp ->].
  eapply yields_mono; [by apply (yields_payload n)|]. intros v s _ [Hv Hc]. split; [done|lia].
Qed.

Definition value_wire_ok (v : Value) : bool := value_ok v && (value_depth v <=? MAX_VALUE_DEPTH)%nat.

Definition attrs_wire_ok (m : AttrMap) : bool := attrs_ok m && (map_depth m <=? MAX_VALUE_DEPTH)%nat.

Lemma yields_value : yields (read_value dict) (fun v s => value_wire_ok v = true /\ value_cost v <= s).
Proof.
  eapply yields_mono; [apply yields_value_levels|]. intros v s _ [[Hok Hd] Hc]. split; [|done].
  unfold value_wire_ok. rewrite Hok. apply Nat.leb_le. lia.
Qed.

Lemma yields_attr_map : yields (read_attr_map dict) (fun m s => attrs_wire_ok m = true /\ attrs_cost m <= s).
Proof.
  eapply yields_mono; [apply (yields_attr_map_with (S MAX_VALUE_DEPTH)); apply yields_value_levels|].
  intros m s _ (Hok & Hd & Hc). split; [|done].
  unfold attrs_wire_ok. rewrite Hok. apply Nat.leb_le. by apply map_depth_spec.
Qed.
End Account.

(** ** Translation keeps every entry *)

Lemma translate_inj (I1 I2 : Interner) `{!InternerOk I2} k1 k2 :
  @live I1 k1 -> @live I1 k2 -> translate I1 I2 k1 = translate I1 I2 k2 -> k1 = k2.
Proof.
  intros [U1 L1] [U2 L2] E. apply (f_equal (@resolve I2)) in E. unfold translate in E.
  rewrite !resolve_intern in E by done. rewrite <- L1, <- L2. by rewrite E.
Qed.

Lemma translate_keys_NoDup (I1 I2 : Interner) `{!InternerOk I2} m :
  @attrs_ok I1 m = true ->
  NoDup (map (fun kv => (translate I1 I2 kv.1, translate_value I1 I2 kv.2)) m).*1.
Proof.
  intros Hok. apply attrs_ok_spec in Hok as [Hwf HF]. apply attrs_wf_NoDup in Hwf.
  induction m as [|[k v] m IH]; [constructor|]. simpl in *.
  apply NoDup_cons in Hwf as [Hk Hwf]. apply Forall_cons in HF as [[Hl _] HF]. constructor; [|by apply IH].
  intros Hin. apply Hk. apply list_elem_of_fmap in Hin as ([k' v'] & E & Hin).
  apply list_elem_of_fmap in Hin as ([k2 v2] & E2 & Hin). injection E2 as -> ->. simpl in *.
  rewrite Forall_forall in HF. destruct (HF _ Hin) as [Hl2 _].
  apply (translate_inj I1 I2) in E as ->; [|done|done]. by apply (list_elem_of_fmap_2 fst _ (k2, v2)).
Qed.

(** ** Properties *)

(** A value written with the encoder's dictionary and read with the decoded one comes back
    exactly, its map keys renamed to the reading process's symbols; the reader stops at the value's
    last byte and charges exactly its cost. It holds for every value nesting at most
    [MAX_VALUE_DEPTH] deep. *)
Theorem value_round_trip (I1 I2 : Interner) (v : Value) (d : DictBuilder) (bs : bytes) (d' : DictBuilder)
    (rest : bytes) (b : DecodeBudget) (Hok : @value_wire_ok I1 v = true) (Hd : db_wf I1 d)
    (Hw : write_value v d = (bs, d')) (Hdict : Z.of_nat (length (db_symbols d')) <= 2 ^ 32)
    (Hlen : blen bs < 2 ^ 64) (Hb : value_cost v <= remaining b <= U64_MAX) :
  read_value (map (translate I1 I2) (db_symbols d')) (bs ++ rest) b =
  (Ok (translate_value I1 I2 v, rest), spend (value_cost v) b).
Proof.
  apply andb_true_iff in Hok as [Hok Hdepth]. apply Nat.leb_le in Hdepth.
  destruct (wreads_value I1 I2 v (S MAX_VALUE_DEPTH) Hok ltac:(lia) d bs d' Hd Hw) as (_ & _ & H).
  apply H; [done|done|done|lia|lia].
Qed.

(** A map under an array, with two keys whose order the two interners disagree on. *)
Definition sample_value : Value :=
  let k1 := @intern sender_interner (str "ab") in
  let k2 := @intern sender_interner (str "ba") in
  VArray [VMap (insert_all [] [(k1, VI64 (-3)); (k2, VStr (str "x"))]); VBool true].

Lemma value_round_trip_witness :
  read_value (map (translate sender_interner receiver_interner)
      (db_symbols (snd (write_value sample_value dict_empty))))
    (fst (write_value sample_value dict_empty) ++ [z2b 9]) (mkBudget 1000 1000) =
  (Ok (translate_value sender_interner receiver_interner sample_value, [z2b 9]),
   spend (value_cost sample_value) (mkBudget 1000 1000)).
Proof.
  apply (value_round_trip sender_interner receiver_interner sample_value dict_empty _
    (snd (write_value sample_value dict_empty))).
  - by vm_compute.
  - apply db_wf_empty.
  - by vm_compute.
  - by vm_compute.
  - by vm_compute.
  - by vm_compute.
Defined.

(** An attribute map crossing to another process keeps exactly its entries: looking a string up
    through the receiver's symbols finds the translated value, and nothing else is there. *)
Theorem translated_attrs_same_entries (I1 I2 : Interner) `{!InternerOk I2} (m : AttrMap)
    (Hok : @attrs_ok I1 m = true) (k' : Symbol) (v' : Value) :
  attrs_wf (translate_attrs I1 I2 m) /\
  (get_sym (translate_attrs I1 I2 m) k' = Some v' <->
   exists k v, get_sym m k = Some v /\ k' = translate I1 I2 k /\ v' = translate_value I1 I2 v).
Proof.
  pose proof (translate_keys_NoDup I1 I2 m Hok) as Hnd. apply attrs_ok_spec in Hok as [Hwf HF].
  split; [apply insert_all_wf, attrs_wf_nil|].
  rewrite get_sym_spec by apply insert_all_wf, attrs_wf_nil. unfold translate_attrs.
  rewrite insert_all_spec by (done || apply attrs_wf_nil). unfold to_map at 2. simpl.
  rewrite (right_id_L ∅ (∪)). unfold to_map. rewrite <- elem_of_list_to_map by done.
  rewrite list_elem_of_fmap. split.
  - intros ([k v] & [= -> ->] & Hin). exists k, v. split; [|done].
    rewrite get_sym_spec by done. apply elem_of_list_to_map_1; [by apply attrs_wf_NoDup|done].
  - intros (k & v & Hget & -> & ->). exists (k, v). split; [done|].
    rewrite get_sym_spec in Hget by done. by apply elem_of_list_to_map_2.
Qed.

Lemma translated_attrs_same_entries_witness :
  let k := @intern sender_interner (str "ab") in
  let m := [(k, VU64 5)] in
  attrs_wf (translate_attrs sender_interner receiver_interner m) /\
  (get_sym (translate_attrs sender_interner receiver_interner m) 1%positive = Some VNull <->
   exists k v, get_sym m k = Some v /\ 1%positive = translate sender_interner receiver_interner k /\
     VNull = translate_value sender_interner receiver_interner v).
Proof.
  apply (translated_attrs_same_entries sender_interner receiver_interner
    [(@intern sender_interner (str "ab"), VU64 5)]); by vm_compute.
Defined.
