(* ===== verification/MetricKindCodec.v ===== *)
(** * Metric kinds on the wire

    The first half of crates/logit-proto/src/native/record.rs's metric section: scalars, optional
    floats, exponential buckets, and the ten [MetricKind] layouts, each a kind tag, a length and a
    fixed sequential body. No symbol appears inside a kind, so its writer is a plain byte string. *)

From S2P Require Import Prelude Codec Budget Reader Varint Utf8 Model AttrMap Wire Account Dict Tlv ValueCodec Float Sketch SketchStore Hll.

Abbreviation METRIC_SUM := 0%Z.
Abbreviation METRIC_GAUGE := 1%Z.
Abbreviation METRIC_GAUGE_DELTA := 2%Z.
Abbreviation METRIC_SAMPLES := 3%Z.
Abbreviation METRIC_DISTRIBUTION := 4%Z.
Abbreviation METRIC_SET_MEMBERS := 5%Z.
Abbreviation METRIC_SET := 6%Z.
Abbreviation METRIC_HISTOGRAM := 7%Z.
Abbreviation METRIC_EXPONENTIAL_HISTOGRAM := 8%Z.
Abbreviation METRIC_SUMMARY := 9%Z.

Definition temporality_tag (t : Temporality) : Z :=
  match t with
  | Delta => 0
  | Cumulative => 1
  end.

Definition temporality_from_tag (tag : Z) : result Temporality :=
  match tag with
  | 0 => Ok Delta
  | 1 => Ok Cumulative
  | _ => Err (Malformed "unknown temporality tag")
  end.

Abbreviation SCALAR_F64 := 0%Z.
Abbreviation SCALAR_I64 := 1%Z.
Abbreviation SCALAR_U64 := 2%Z.
Abbreviation SCALAR_BOOL := 3%Z.
Abbreviation SCALAR_LEN := 9%Z.

Definition write_scalar (v : MetricValue) : bytes :=
  let '(tag, bs) :=
    match v with
    | MvF64 v => (SCALAR_F64, to_le_bytes 8 v)
    | MvI64 v => (SCALAR_I64, to_le_bytes 8 v)
    | MvU64 v => (SCALAR_U64, to_le_bytes 8 v)
    | MvBool b => (SCALAR_BOOL, to_le_bytes 8 (Z.b2z b))
    end in
  [z2b tag] ++ bs.

(** The [match tag] of [read_scalar] on the eight value bytes. *)
Definition scalar_from (tag : Z) (buf : bytes) : result MetricValue :=
  if tag =? SCALAR_F64 then Ok (MvF64 (from_le_bytes buf))
  else if tag =? SCALAR_I64 then Ok (MvI64 (swrap 64 (from_le_bytes buf)))
  else if tag =? SCALAR_U64 then Ok (MvU64 (from_le_bytes buf))
  else if tag =? SCALAR_BOOL then
    match from_le_bytes buf with
    | 0 => Ok (MvBool false)
    | 1 => Ok (MvBool true)
    | _ => Err (Malformed "metric value bool not 0 or 1")
    end
  else Err (Malformed "unknown metric value type").

Definition read_scalar : reader MetricValue :=
  let! tag := read_u8 in
  let! buf := read_fixed 8 (Malformed "expected 8 bytes for a metric value") in
  rlift (scalar_from tag buf).

Definition write_scalar_kind (tag : Z) (v : MetricValue) : bytes :=
  [z2b tag] ++ write_uvarint SCALAR_LEN ++ write_scalar v.

Definition read_f64 : reader f64 :=
  let! buf := read_fixed 8 (Malformed "expected 8 bytes for an f64") in
  rret (from_le_bytes buf).

Definition write_option_f64 (v : option f64) : bytes :=
  match v with
  | Some x => [z2b 1] ++ to_le_bytes 8 x
  | None => [z2b 0]
  end.

Definition read_option_f64 : reader (option f64) :=
  let! present := read_u8 in
  match present with
  | 0 => rret None
  | 1 => let! x := read_f64 in rret (Some x)
  | _ => rfail (Malformed "bad Option<f64> presence byte")
  end.

Definition write_exponential_buckets (b : Z * list Z) : bytes :=
  write_ivarint b.1 ++ write_uvarint (Z.of_nat (length b.2)) ++ concat (map write_uvarint b.2).

(** [read_ivarint(bytes)? as i32]. *)
Definition read_i32 : reader Z := let! v := read_ivarint in rret (swrap 32 v).

Definition size_of_u64 : Z := 8.

Definition read_exponential_buckets : reader (Z * list Z) :=
  let! offset := read_i32 in
  let! count := read_uvarint in
  rcharge_list "exponential buckets" count 1 size_of_u64 ;!
  let! counts := rrepeat (Z.to_nat count) read_uvarint in
  rret (offset, counts).

Definition read_temporality : reader Temporality :=
  let! tag := read_u8 in rlift (temporality_from_tag tag).

(** [std::mem::size_of] of [f64], [Bytes], [(f64, u64)] and [(f64, f64)]. *)
Definition size_of_f64 : Z := 8.
Definition size_of_Bytes : Z := 32.
Definition size_of_bucket : Z := 16.
Definition size_of_quantile : Z := 16.

Section Kind.
Context `{Summaries}.

Definition write_metric_kind (kind : MetricKind) : bytes :=
  let framed (tag : Z) (tmp : bytes) := [z2b tag] ++ write_uvarint (blen tmp) ++ tmp in
  match kind with
  | MkSum s =>
      [z2b METRIC_SUM] ++ write_uvarint (SCALAR_LEN + 2) ++ write_scalar (sum_value s) ++
      [z2b (temporality_tag (sum_temporality s)); z2b (Z.b2z (sum_monotonic s))]
  | MkGauge v => write_scalar_kind METRIC_GAUGE v
  | MkGaugeDelta v => write_scalar_kind METRIC_GAUGE_DELTA v
  | MkSamples s =>
      framed METRIC_SAMPLES
        (write_uvarint (Z.of_nat (length (samples_values s))) ++
         concat (map (to_le_bytes 8) (samples_values s)) ++ to_le_bytes 8 (samples_rate s))
  | MkDistribution sketch => framed METRIC_DISTRIBUTION (sketch_to_bytes sketch)
  | MkSetMembers members =>
      framed METRIC_SET_MEMBERS
        (write_uvarint (Z.of_nat (length members)) ++ concat (map len_prefixed members))
  | MkSet hll => framed METRIC_SET (hll_to_bytes hll)
  | MkHistogram h =>
      framed METRIC_HISTOGRAM
        (write_uvarint (Z.of_nat (length (h_buckets h))) ++
         concat (map (fun bc => to_le_bytes 8 bc.1 ++ write_uvarint bc.2) (h_buckets h)) ++
         [z2b (temporality_tag (h_temporality h))] ++
         write_option_f64 (h_sum h) ++ write_option_f64 (h_min h) ++ write_option_f64 (h_max h))
  | MkExponentialHistogram e =>
      framed METRIC_EXPONENTIAL_HISTOGRAM
        (write_ivarint (eh_scale e) ++ write_uvarint (eh_zero_count e) ++
         to_le_bytes 8 (eh_zero_threshold e) ++
         write_exponential_buckets (eh_positive e) ++ write_exponential_buckets (eh_negative e) ++
         [z2b (temporality_tag (eh_temporality e))] ++ write_uvarint (eh_count e) ++
         write_option_f64 (eh_sum e) ++ write_option_f64 (eh_min e) ++ write_option_f64 (eh_max e))
  | MkSummary s =>
      framed METRIC_SUMMARY
        (write_uvarint (Z.of_nat (length (sm_quantiles s))) ++
         concat (map (fun qv => to_le_bytes 8 qv.1 ++ to_le_bytes 8 qv.2) (sm_quantiles s)) ++
         write_uvarint (sm_count s) ++ to_le_bytes 8 (sm_sum s) ++
         [z2b (temporality_tag (sm_temporality s))])
  end.

(** The arms of [read_metric_kind]'s [match kind_tag]. *)
Definition read_sum : reader MetricKind :=
  let! value := read_scalar in
  let! temporality := read_temporality in
  let! monotonic := read_u8 in
  rret (MkSum (mkSum value temporality (negb (monotonic =? 0)))).

Definition read_samples : reader MetricKind :=
  let! count := read_uvarint in
  rcharge_list "samples" count 8 size_of_f64 ;!
  let! values := rrepeat (Z.to_nat count) read_f64 in
  let! sample_rate := read_f64 in
  rret (MkSamples (mkSamples values sample_rate)).

Definition read_distribution : reader MetricKind :=
  let! blob := take_all in
  match sketch_from_bytes blob with
  | inr sketch => rret (MkDistribution sketch)
  | inl _ => rfail (Malformed "bad distribution blob")
  end.

Definition read_set_members : reader MetricKind :=
  let! count := read_uvarint in
  rcharge_list "set members" count 1 size_of_Bytes ;!
  let! members := rrepeat (Z.to_nat count) (take_declared "set member blob truncated") in
  rret (MkSetMembers members).

Definition read_set : reader MetricKind :=
  let! blob := take_all in
  match hll_from_bytes blob with
  | inr hll => rret (MkSet hll)
  | inl _ => rfail (Malformed "bad set blob")
  end.

Definition read_bucket : reader (f64 * Z) :=
  let! bound := read_f64 in
  let! n := read_uvarint in
  rret (bound, n).

Definition read_histogram : reader MetricKind :=
  let! count := read_uvarint in
  rcharge_list "histogram buckets" count 9 size_of_bucket ;!
  let! buckets := rrepeat (Z.to_nat count) read_bucket in
  let! temporality := read_temporality in
  let! sum := read_option_f64 in
  let! min := read_option_f64 in
  let! max := read_option_f64 in
  rret (MkHistogram (mkHistogram buckets temporality sum min max)).

Definition read_exponential_histogram : reader MetricKind :=
  let! scale := read_i32 in
  let! zero_count := read_uvarint in
  let! zero_threshold := read_f64 in
  let! positive := read_exponential_buckets in
  let! negative := read_exponential_buckets in
  let! temporality := read_temporality in
  let! count := read_uvarint in
  let! sum := read_option_f64 in
  let! min := read_option_f64 in
  let! max := read_option_f64 in
  rret (MkExponentialHistogram (mkExpHistogram scale zero_count zero_threshold positive negative
    temporality count sum min max)).

Definition read_quantile : reader (f64 * f64) :=
  let! q := read_f64 in
  let! v := read_f64 in
  rret (q, v).

Definition read_summary : reader MetricKind :=
  let! count := read_uvarint in
  rcharge_list "summary quantiles" count 16 size_of_quantile ;!
  let! quantiles := rrepeat (Z.to_nat count) read_quantile in
  let! record_count := read_uvarint in
  let! sum := read_f64 in
  let! temporality := read_temporality in
  rret (MkSummary (mkSummary quantiles record_count sum temporality)).

Definition read_kind_body (kind_tag : Z) : reader MetricKind :=
  if kind_tag =? METRIC_SUM then read_sum
  else if kind_tag =? METRIC_GAUGE then let! v := read_scalar in rret (MkGauge v)
  else if kind_tag =? METRIC_GAUGE_DELTA then let! v := read_scalar in rret (MkGaugeDelta v)
  else if kind_tag =? METRIC_SAMPLES then read_samples
  else if kind_tag =? METRIC_DISTRIBUTION then read_distribution
  else if kind_tag =? METRIC_SET_MEMBERS then read_set_members
  else if kind_tag =? METRIC_SET then read_set
  else if kind_tag =? METRIC_HISTOGRAM then read_histogram
  else if kind_tag =? METRIC_EXPONENTIAL_HISTOGRAM then read_exponential_histogram
  else if kind_tag =? METRIC_SUMMARY then read_summary
  else rfail (Malformed "unknown metric kind tag").

Definition read_metric_kind : reader MetricKind :=
  let! kind_tag := read_u8 in
  let! body := take_declared "metric kind declares more bytes than remain" in
  consumed_slice (trailing_bytes "metric kind") body (read_kind_body kind_tag).

(** ** Well-formedness and cost *)

Definition metric_value_ok (v : MetricValue) : bool :=
  match v with
  | MvF64 v | MvU64 v => unsigned_ok 64 v
  | MvI64 v => signed_ok 64 v
  | MvBool _ => true
  end.

Definition exp_buckets_ok (b : Z * list Z) : bool :=
  signed_ok 32 b.1 && forallb (unsigned_ok 64) b.2.

Definition kind_ok (k : MetricKind) : bool :=
  match k with
  | MkSum s => metric_value_ok (sum_value s)
  | MkGauge v | MkGaugeDelta v => metric_value_ok v
  | MkSamples s => forallb (unsigned_ok 64) (samples_values s) && unsigned_ok 64 (samples_rate s)
  | MkDistribution sketch => sketch_wf sketch
  | MkSetMembers _ | MkSet _ => true
  | MkHistogram h =>
      forallb (fun bc => unsigned_ok 64 bc.1 && unsigned_ok 64 bc.2) (h_buckets h) &&
      option_ok (unsigned_ok 64) (h_sum h) && option_ok (unsigned_ok 64) (h_min h) &&
      option_ok (unsigned_ok 64) (h_max h)
  | MkExponentialHistogram e =>
      signed_ok 32 (eh_scale e) && unsigned_ok 64 (eh_zero_count e) &&
      unsigned_ok 64 (eh_zero_threshold e) && exp_buckets_ok (eh_positive e) &&
      exp_buckets_ok (eh_negative e) && unsigned_ok 64 (eh_count e) &&
      option_ok (unsigned_ok 64) (eh_sum e) && option_ok (unsigned_ok 64) (eh_min e) &&
      option_ok (unsigned_ok 64) (eh_max e)
  | MkSummary s =>
      forallb (fun qv => unsigned_ok 64 qv.1 && unsigned_ok 64 qv.2) (sm_quantiles s) &&
      unsigned_ok 64 (sm_count s) && unsigned_ok 64 (sm_sum s)
  end.

Definition kind_cost (k : MetricKind) : Z :=
  match k with
  | MkSamples s => Z.of_nat (length (samples_values s)) * size_of_f64
  | MkSetMembers members => Z.of_nat (length members) * size_of_Bytes
  | MkHistogram h => Z.of_nat (length (h_buckets h)) * size_of_bucket
  | MkExponentialHistogram e =>
      Z.of_nat (length (eh_positive e).2) * size_of_u64 + Z.of_nat (length (eh_negative e).2) * size_of_u64
  | MkSummary s => Z.of_nat (length (sm_quantiles s)) * size_of_quantile
  | _ => 0
  end.
End Kind.

(** ** Round trip *)

Lemma reads_temporality t : reads_back read_temporality [z2b (temporality_tag t)] t 0.
Proof.
  eapply reads_back_bind_r; [apply reads_u8; by destruct t|].
  destruct t; apply reads_back_ret.
Qed.

Lemma reads_f64 v : unsigned_ok 64 v = true -> reads_back read_f64 (to_le_bytes 8 v) v 0.
Proof.
  intros Hv. apply unsigned_ok_spec in Hv.
  replace v with (from_le_bytes (to_le_bytes 8 v)) at 2 by by apply from_to_le_unsigned.
  apply reads_back_map, reads_fixed. by rewrite blen_to_le_bytes.
Qed.

Lemma reads_option_f64 v :
  option_ok (unsigned_ok 64) v = true -> reads_back read_option_f64 (write_option_f64 v) v 0.
Proof.
  destruct v as [x|]; intros Hv; simpl in Hv; cbn [write_option_f64].
  - eapply (reads_back_bind _ _ _ _ _ _ 0 0); [by apply reads_u8|]. cbv iota. apply (reads_back_map _ Some).
    by apply reads_f64.
  - eapply reads_back_bind_r; [by apply reads_u8|]. apply reads_back_ret.
Qed.

Lemma scalar_from_le tag v :
  match tag with
  | 0 => scalar_from 0 (to_le_bytes 8 v) = Ok (MvF64 (uwrap 64 v))
  | 1 => scalar_from 1 (to_le_bytes 8 v) = Ok (MvI64 (swrap 64 (uwrap 64 v)))
  | 2 => scalar_from 2 (to_le_bytes 8 v) = Ok (MvU64 (uwrap 64 v))
  | _ => True
  end.
Proof.
  unfold scalar_from. rewrite !from_to_le_bytes.
  destruct tag as [|[[|p|]|[p|p|]|]|]; done.
Qed.

Lemma reads_scalar v : metric_value_ok v = true -> reads_back read_scalar (write_scalar v) v 0.
Proof.
  assert (forall tag x, u8 tag -> scalar_from tag (to_le_bytes 8 x) = Ok v ->
    reads_back read_scalar ([z2b tag] ++ to_le_bytes 8 x) v 0) as H.
  { intros tag x Ht E. eapply (reads_back_bind _ _ _ _ _ _ 0 0); [by apply reads_u8|].
    eapply reads_back_bind_r; [apply reads_fixed; by rewrite blen_to_le_bytes|].
    rewrite E. apply reads_back_ret. }
  destruct v as [x|x|x|b]; intros Hv; simpl in Hv; apply H; try done.
  - rewrite (scalar_from_le 0). by rewrite uwrap_small by by apply unsigned_ok_spec.
  - apply signed_ok_spec in Hv. rewrite (scalar_from_le 1). by rewrite swrap_uwrap by (lia || done).
  - rewrite (scalar_from_le 2). by rewrite uwrap_small by by apply unsigned_ok_spec.
  - by destruct b.
Qed.

Lemma reads_i32 v : signed_ok 32 v = true -> reads_back read_i32 (write_ivarint v) v 0.
Proof.
  intros Hv. apply signed_ok_spec in Hv. rewrite <- (swrap_id 32 v) at 2 by (lia || done).
  apply (reads_back_map _ (swrap 32)), reads_ivarint. unfold signed in *. simpl in *. lia.
Qed.

(** A counted run of fixed encodings, checked and charged up front, then the rest of the body. *)
Lemma reads_counted {A B} what mw size (r : reader A) (enc : A -> bytes) (xs : list A)
    (k : list A -> reader B) w y c :
  0 < mw -> 0 <= size -> (forall x, mw <= blen (enc x)) ->
  Forall (fun x => reads_back r (enc x) x 0) xs -> reads_back (k xs) w y c ->
  reads_back (let! count := read_uvarint in
      rcharge_list what count mw size ;!
      let! items := rrepeat (Z.to_nat count) r in k items)
    (write_uvarint (Z.of_nat (length xs)) ++ concat (map enc xs) ++ w) y
    (Z.of_nat (length xs) * size + c).
Proof.
  intros Hmw Hsize Hblen HF Hk.
  assert (reads_back (rrepeat (length xs) r) (concat (map enc xs)) (map id xs) (total (fun _ => 0) xs)) as Hrep.
  { apply reads_rrepeat_map. clear Hk. induction HF; simpl; constructor; done. }
  assert (total (fun _ : A => 0) xs = 0) as Ht by (clear; unfold total; by induction xs).
  rewrite Ht, map_id in Hrep.
  assert (Z.of_nat (length xs) * mw <= blen (concat (map enc xs))) as Hlen.
  { rewrite <- (length_map enc). apply concat_blen. apply Forall_map, Forall_true. intros x. apply Hblen. }
  pose proof (proj1 Hk). apply reads_back_bounded; [nia|]. rewrite !blen_app. intros Hw.
  pose proof (blen_nonneg w). pose proof (blen_nonneg (write_uvarint (Z.of_nat (length xs)))).
  eapply reads_back_bind_eq; [done|symmetry; apply Z.add_0_l|apply reads_uvarint; split; nia|].
  apply reads_back_charge_list; [done|lia|done|rewrite blen_app; lia|]. rewrite Nat2Z.id.
  eapply reads_back_bind_eq; [done|symmetry; apply Z.add_0_l|exact Hrep|exact Hk].
Qed.

Lemma reads_exponential_buckets b :
  exp_buckets_ok b = true ->
  reads_back read_exponential_buckets (write_exponential_buckets b) b
    (Z.of_nat (length b.2) * size_of_u64).
Proof.
  destruct b as [offset counts]. intros Hok. apply andb_true_iff in Hok as [Ho Hc].
  apply forallb_Forall in Hc. simpl in *. unfold write_exponential_buckets. simpl.
  eapply reads_back_bind_eq; [done|symmetry; apply Z.add_0_l|by apply reads_i32|].
  rewrite <- (app_nil_r (concat _)), <- (Z.add_0_r (_ * _)).
  apply reads_counted; [lia|unfold size_of_u64; lia|apply write_uvarint_nonempty| |apply reads_back_ret].
  eapply Forall_impl; [exact Hc|]. intros x Hx. by apply reads_uvarint, unsigned_ok_spec.
Qed.

Create HintDb reads discriminated.
#[export] Hint Resolve reads_temporality reads_f64 reads_option_f64 reads_scalar reads_i32
  reads_exponential_buckets reads_uvarint reads_ivarint reads_back_ret : reads.
#[export] Hint Extern 2 (unsigned _ _) => apply unsigned_ok_spec : reads.

(** Walks a sequential body: one reader per encoded component. *)
Ltac read_seq :=
  repeat (first
    [ eapply reads_back_bind; [solve [eauto with reads]|]
    | eapply reads_back_bind_r; [solve [eauto with reads]|apply reads_back_ret] ]).

Ltac split_ok :=
  repeat match goal with
  | H : (_ && _) = true |- _ => apply andb_true_iff in H as [? ?]
  | H : forallb _ _ = true |- _ => apply forallb_Forall in H
  end.

Section KindRoundTrip.
Context {Sm : Summaries} `{!SummariesOk Sm}.

(** One framed kind: its body read to the end. *)
Lemma reads_kind tag body kind c :
  u8 tag -> reads_back (read_kind_body tag) body kind c ->
  reads_back read_metric_kind ([z2b tag] ++ len_prefixed body) kind c.
Proof.
  intros Ht Hb. eapply reads_back_bind_eq; [done|symmetry; apply Z.add_0_l|by apply reads_u8|].
  by apply reads_declared_consumed, reads_back_all.
Qed.

Lemma reads_kind_all tag body kind c :
  u8 tag -> reads_all (read_kind_body tag) body kind c ->
  reads_back read_metric_kind ([z2b tag] ++ len_prefixed body) kind c.
Proof.
  intros Ht Hb. eapply reads_back_bind_eq; [done|symmetry; apply Z.add_0_l|by apply reads_u8|].
  by apply reads_declared_consumed.
Qed.

Lemma blen_write_scalar v : blen (write_scalar v) = SCALAR_LEN.
Proof. destruct v; unfold write_scalar; by rewrite blen_app, blen_to_le_bytes. Qed.

Lemma reads_sum s :
  metric_value_ok (sum_value s) = true ->
  reads_back read_sum (write_scalar (sum_value s) ++
    [z2b (temporality_tag (sum_temporality s)); z2b (Z.b2z (sum_monotonic s))]) (MkSum s) 0.
Proof.
  destruct s as [v t m]. simpl. intros Hv.
  replace (mkSum v t m) with (mkSum v t (negb (Z.b2z m =? 0))) by by destruct m.
  eapply (reads_back_bind _ _ _ _ _ _ 0 0); [by apply reads_scalar|].
  change [z2b (temporality_tag t); z2b (Z.b2z m)] with ([z2b (temporality_tag t)] ++ [z2b (Z.b2z m)]).
  eapply (reads_back_bind _ _ _ _ _ _ 0 0); [apply reads_temporality|].
  eapply reads_back_bind_r; [apply reads_u8; by destruct m|]. apply reads_back_ret.
Qed.

Lemma reads_histogram h :
  kind_ok (MkHistogram h) = true ->
  reads_back read_histogram
    (write_uvarint (Z.of_nat (length (h_buckets h))) ++
     concat (map (fun bc => to_le_bytes 8 bc.1 ++ write_uvarint bc.2) (h_buckets h)) ++
     [z2b (temporality_tag (h_temporality h))] ++
     write_option_f64 (h_sum h) ++ write_option_f64 (h_min h) ++ write_option_f64 (h_max h))
    (MkHistogram h) (kind_cost (MkHistogram h)).
Proof.
  destruct h as [buckets t sum mn mx]. cbn [kind_ok kind_cost h_buckets h_sum h_min h_max h_temporality].
  intros Hok. split_ok. rewrite <- (Z.add_0_r (_ * _)). apply reads_counted.
  - lia.
  - unfold size_of_bucket; lia.
  - intros [b n]. rewrite blen_app, blen_to_le_bytes. pose proof (write_uvarint_nonempty n). simpl. lia.
  - eapply Forall_impl; [eassumption|]. intros [b n] Hb. split_ok. cbn [fst snd] in *.
    eapply (reads_back_bind _ _ _ _ _ _ 0 0); [by apply reads_f64|].
    apply (reads_back_map _ (pair b)). eauto with reads.
  - eapply reads_back_cost; [read_seq|lia].
Qed.

Lemma reads_exponential_histogram e :
  kind_ok (MkExponentialHistogram e) = true ->
  reads_back read_exponential_histogram
    (write_ivarint (eh_scale e) ++ write_uvarint (eh_zero_count e) ++
     to_le_bytes 8 (eh_zero_threshold e) ++
     write_exponential_buckets (eh_positive e) ++ write_exponential_buckets (eh_negative e) ++
     [z2b (temporality_tag (eh_temporality e))] ++ write_uvarint (eh_count e) ++
     write_option_f64 (eh_sum e) ++ write_option_f64 (eh_min e) ++ write_option_f64 (eh_max e))
    (MkExponentialHistogram e) (kind_cost (MkExponentialHistogram e)).
Proof.
  destruct e as [sc zc zt pos neg t n sum mn mx].
  cbn [kind_ok kind_cost eh_scale eh_zero_count eh_zero_threshold eh_positive eh_negative
    eh_temporality eh_count eh_sum eh_min eh_max].
  intros Hok. split_ok. eapply reads_back_cost; [read_seq|lia].
Qed.

Lemma reads_samples s :
  kind_ok (MkSamples s) = true ->
  reads_back read_samples
    (write_uvarint (Z.of_nat (length (samples_values s))) ++
     concat (map (to_le_bytes 8) (samples_values s)) ++ to_le_bytes 8 (samples_rate s))
    (MkSamples s) (kind_cost (MkSamples s)).
Proof.
  destruct s as [values rate]. cbn [kind_ok kind_cost samples_values samples_rate].
  intros Hok. split_ok. rewrite <- (Z.add_0_r (_ * _)). apply reads_counted.
  - lia.
  - unfold size_of_f64; lia.
  - intros v. by rewrite blen_to_le_bytes.
  - eapply Forall_impl; [eassumption|]. eauto with reads.
  - eapply (reads_back_map _ (fun x => MkSamples (mkSamples values x))). eauto with reads.
Qed.

Lemma reads_set_members members :
  reads_back read_set_members
    (write_uvarint (Z.of_nat (length members)) ++ concat (map len_prefixed members))
    (MkSetMembers members) (kind_cost (MkSetMembers members)).
Proof.
  cbn [kind_cost]. rewrite <- (Z.add_0_r (_ * _)), <- (app_nil_r (concat _)). apply reads_counted.
  - lia.
  - unfold size_of_Bytes; lia.
  - intros w. pose proof (blen_len_prefixed w). pose proof (blen_nonneg w). lia.
  - apply Forall_true. intros w. apply reads_take_declared.
  - apply (reads_back_ret (MkSetMembers members)).
Qed.

Lemma reads_summary s :
  kind_ok (MkSummary s) = true ->
  reads_back read_summary
    (write_uvarint (Z.of_nat (length (sm_quantiles s))) ++
     concat (map (fun qv => to_le_bytes 8 qv.1 ++ to_le_bytes 8 qv.2) (sm_quantiles s)) ++
     write_uvarint (sm_count s) ++ to_le_bytes 8 (sm_sum s) ++
     [z2b (temporality_tag (sm_temporality s))])
    (MkSummary s) (kind_cost (MkSummary s)).
Proof.
  destruct s as [quantiles count sum t]. cbn [kind_ok kind_cost sm_quantiles sm_count sm_sum sm_temporality].
  intros Hok. split_ok. rewrite <- (Z.add_0_r (_ * _)). apply reads_counted.
  - lia.
  - unfold size_of_quantile; lia.
  - intros [q v]. by rewrite blen_app, !blen_to_le_bytes.
  - eapply Forall_impl; [eassumption|]. intros [q v] Hb. split_ok. cbn [fst snd] in *.
    eapply (reads_back_bind _ _ _ _ _ _ 0 0); [by apply reads_f64|].
    apply (reads_back_map _ (pair q)). eauto with reads.
  - eapply reads_back_cost; [read_seq|lia].
Qed.

Lemma reads_metric_kind k :
  kind_ok k = true ->
  reads_back read_metric_kind (write_metric_kind k) k (kind_cost k).
Proof using Type*.
  intros Hok. destruct k as [s|v|v|s|sketch|members|hll|h|e|s].
  - unfold write_metric_kind. change (SCALAR_LEN + 2) with (SCALAR_LEN + 2 * 1).
    replace (SCALAR_LEN + 2 * 1) with (blen (write_scalar (sum_value s) ++
      [z2b (temporality_tag (sum_temporality s)); z2b (Z.b2z (sum_monotonic s))]))
      by by rewrite blen_app, blen_write_scalar.
    apply (reads_kind METRIC_SUM); [done|]. by apply reads_sum.
  - cbn [write_metric_kind]. unfold write_scalar_kind. rewrite <- (blen_write_scalar v).
    apply (reads_kind METRIC_GAUGE); [done|]. apply (reads_back_map _ MkGauge). by apply reads_scalar.
  - cbn [write_metric_kind]. unfold write_scalar_kind. rewrite <- (blen_write_scalar v).
    apply (reads_kind METRIC_GAUGE_DELTA); [done|]. apply (reads_back_map _ MkGaugeDelta).
    by apply reads_scalar.
  - apply (reads_kind METRIC_SAMPLES); [done|]. by apply reads_samples.
  - apply (reads_kind_all METRIC_DISTRIBUTION); [done|].
    eapply reads_all_bind_r; [apply reads_all_take_all|]. rewrite sketch_from_to by done.
    apply reads_back_all, reads_back_ret.
  - apply (reads_kind METRIC_SET_MEMBERS); [done|]. apply reads_set_members.
  - apply (reads_kind_all METRIC_SET); [done|].
    eapply reads_all_bind_r; [apply reads_all_take_all|]. rewrite hll_from_to.
    apply reads_back_all, reads_back_ret.
  - apply (reads_kind METRIC_HISTOGRAM); [done|]. by apply reads_histogram.
  - apply (reads_kind METRIC_EXPONENTIAL_HISTOGRAM); [done|]. by apply reads_exponential_histogram.
  - apply (reads_kind METRIC_SUMMARY); [done|]. by apply reads_summary.
Qed.
End KindRoundTrip.

(** ** On any input *)

Lemma budget_safe_f64 : budget_safe read_f64.
Proof. apply budget_safe_map, budget_safe_fixed. Qed.

Lemma budget_safe_option_f64 : budget_safe read_option_f64.
Proof.
  apply budget_safe_bind'; [auto with reader|]. intros v.
  repeat case_match; auto using budget_safe_f64 with reader.
Qed.

Lemma budget_safe_temporality : budget_safe read_temporality.
Proof. apply budget_safe_bind'; auto with reader. Qed.

Lemma budget_safe_scalar : budget_safe read_scalar.
Proof. repeat (apply budget_safe_bind'; [auto with reader|intros ?]). auto with reader. Qed.

Lemma budget_safe_i32 : budget_safe read_i32.
Proof. apply budget_safe_map. auto with reader. Qed.

#[export] Hint Resolve budget_safe_f64 budget_safe_option_f64 budget_safe_temporality
  budget_safe_scalar budget_safe_i32 : reader.

Lemma budget_safe_counted {A B} what mw size (r : reader A) (k : list A -> reader B) :
  0 <= size -> budget_safe r -> (forall xs, budget_safe (k xs)) ->
  budget_safe (let! count := read_uvarint in
      rcharge_list what count mw size ;!
      let! items := rrepeat (Z.to_nat count) r in k items).
Proof.
  intros Hs Hr Hk. eapply budget_safe_bind; [auto with reader|apply returns_uvarint|]. intros n [Hn _].
  apply budget_safe_bind'; [by apply budget_safe_charge_list|]. intros _.
  apply budget_safe_bind'; auto with reader.
Qed.

Lemma budget_safe_exponential_buckets : budget_safe read_exponential_buckets.
Proof.
  apply budget_safe_bind'; [auto with reader|]. intros offset.
  apply budget_safe_counted; [unfold size_of_u64; lia|auto with reader..].
Qed.

#[export] Hint Resolve budget_safe_exponential_buckets : reader.

Ltac safe_seq := repeat (apply budget_safe_bind'; [solve [auto with reader]|intros ?]); auto with reader.

Section KindSafe.
Context `{Summaries}.

Lemma budget_safe_kind_body tag : budget_safe (read_kind_body tag).
Proof.
  unfold read_kind_body. repeat case_match; try solve [auto with reader].
  - safe_seq.
  - apply budget_safe_counted; [by compute|auto with reader|intros; safe_seq].
  - apply budget_safe_bind'; [auto with reader|]. intros blob. case_match; auto with reader.
  - apply budget_safe_counted; [by compute|auto with reader..].
  - apply budget_safe_bind'; [auto with reader|]. intros blob. case_match; auto with reader.
  - apply budget_safe_counted; [by compute|unfold read_bucket; safe_seq|intros; safe_seq].
  - unfold read_exponential_histogram. safe_seq.
  - apply budget_safe_counted; [by compute|unfold read_quantile; safe_seq|intros; safe_seq].
Qed.

Lemma budget_safe_metric_kind : budget_safe read_metric_kind.
Proof.
  apply budget_safe_bind'; [auto with reader|]. intros tag.
  apply budget_safe_bind'; [auto with reader|]. intros body.
  apply budget_safe_consumed, budget_safe_kind_body.
Qed.
End KindSafe.

#[export] Hint Resolve budget_safe_metric_kind : reader.

(** ** Accounting *)

Lemma yields_uvarint_ok : yields read_uvarint (fun v s => unsigned_ok 64 v = true /\ s = 0).
Proof.
  eapply yields_mono; [apply yields_uvarint|]. intros v s _ [Hv ->]. split; [by apply unsigned_ok_spec|done].
Qed.

Lemma le_bytes_u64 p : blen p = 8 -> u64 (from_le_bytes p).
Proof. intros E. pose proof (from_le_bytes_range p) as Hr. rewrite E in Hr. exact Hr. Qed.

Lemma yields_f64 : yields read_f64 (fun v s => unsigned_ok 64 v = true /\ s = 0).
Proof.
  eapply yields_map; [by apply yields_fixed|]. intros p s _ [Hp ->]. split; [|done].
  by apply unsigned_ok_spec, le_bytes_u64.
Qed.

Lemma yields_option_f64 : yields read_option_f64 (fun v s => option_ok (unsigned_ok 64) v = true /\ s = 0).
Proof.
  eapply yields_bind; [apply yields_u8|]. intros v s _ [_ ->].
  repeat case_match; try apply yields_fail; [by apply yields_ret|].
  eapply yields_map; [apply yields_f64|]. naive_solver.
Qed.

Lemma yields_temporality : yields read_temporality (fun _ s => s = 0).
Proof.
  eapply yields_bind; [apply yields_u8|]. intros v s _ [_ ->].
  eapply yields_mono; [apply yields_lift|]. by intros t s _ [_ ->].
Qed.

Lemma yields_scalar : yields read_scalar (fun v s => metric_value_ok v = true /\ s = 0).
Proof.
  eapply yields_bind; [apply yields_u8|]. intros tag s _ [_ ->].
  eapply yields_bind; [by apply yields_fixed|]. intros p s _ [Hp ->].
  eapply yields_mono; [apply yields_lift|]. intros v s _ [E ->]. split; [|done]. revert E.
  pose proof (le_bytes_u64 p Hp) as Hu. unfold scalar_from.
  repeat case_match; intros [= <-]; try done; try by apply unsigned_ok_spec.
  apply signed_ok_spec. apply swrap_signed. lia.
Qed.

Lemma yields_i32 : yields read_i32 (fun v s => signed_ok 32 v = true /\ s = 0).
Proof.
  eapply yields_map; [apply yields_ivarint|]. intros v s _ [_ ->]. split; [|done].
  apply signed_ok_spec, swrap_signed. lia.
Qed.

(** A counted run: the items satisfy [P] and their number was charged for. *)
Lemma yields_counted {A B} what mw size (r : reader A) (P : A -> bool) (k : list A -> reader B) Q :
  0 < mw -> 0 <= size <= 1024 -> yields r (fun a s => P a = true /\ s = 0) ->
  (forall xs s, forallb P xs = true -> Z.of_nat (length xs) * size <= s ->
     yields (k xs) (fun c s' => Q c (s + s'))) ->
  yields (let! count := read_uvarint in
      rcharge_list what count mw size ;!
      let! items := rrepeat (Z.to_nat count) r in k items) Q.
Proof.
  intros Hmw Hs Hr Hk. eapply yields_bind; [apply yields_uvarint|]. intros n s _ [[Hn _] ->].
  eapply yields_bind; [by apply yields_charge_list|]. intros _ s _ ->.
  eapply yields_bind; [apply (yields_repeat _ _ (fun a => P a = true) (fun _ => 0))|].
  - eapply yields_mono; [exact Hr|]. intros a s _ [? ->]. done.
  - intros xs s Hs0 (Hl & HF & _).
    eapply yields_mono; [apply (Hk xs (n * size + s))|].
    + by apply forallb_Forall.
    + rewrite Hl, Z2Nat.id by lia. lia.
    + intros c s' _ HQ. by rewrite !Z.add_assoc, Z.add_0_l in *.
Qed.

Lemma yields_exponential_buckets :
  yields read_exponential_buckets
    (fun b s => exp_buckets_ok b = true /\ Z.of_nat (length b.2) * size_of_u64 <= s).
Proof.
  eapply yields_bind; [apply yields_i32|]. intros offset s _ [Ho ->].
  apply (yields_counted _ _ _ _ (unsigned_ok 64)); [done|by compute|apply yields_uvarint_ok|].
  intros xs s Hx Hs. apply yields_ret. unfold exp_buckets_ok. simpl. rewrite Ho, Hx. split; [done|lia].
Qed.

Create HintDb yields discriminated.
#[export] Hint Resolve yields_uvarint_ok yields_f64 yields_option_f64 yields_temporality yields_scalar
  yields_i32 yields_exponential_buckets yields_u8 yields_take_all : yields.

(** Walks a sequential body, collecting what each component guarantees. *)
Ltac yield_seq :=
  repeat (eapply yields_bind; [solve [eauto with yields]|intros ? ? ? ?; cbv beta in *; destruct_and?; subst]);
  try apply yields_ret.

(** Decides a conjunction of boolean checks from hypotheses. *)
Ltac solve_ok :=
  repeat match goal with
  | H : ?b = true |- context [?b] => rewrite H
  end; try done.

Section KindYields.
Context {Sm : Summaries} {SO : SummariesOk Sm}.
#[local] Set Default Proof Using "Type*".

Lemma yields_histogram : yields read_histogram (fun k s => kind_ok k = true /\ kind_cost k <= s).
Proof.
  apply (yields_counted _ _ _ _ (fun bc => unsigned_ok 64 bc.1 && unsigned_ok 64 bc.2)); [done|by compute| |].
  - yield_seq. simpl. solve_ok.
  - intros xs s Hx Hs. yield_seq. cbn [kind_ok kind_cost h_buckets h_sum h_min h_max]. solve_ok.
    split; [done|lia].
Qed.

Lemma yields_summary : yields read_summary (fun k s => kind_ok k = true /\ kind_cost k <= s).
Proof.
  apply (yields_counted _ _ _ _ (fun qv => unsigned_ok 64 qv.1 && unsigned_ok 64 qv.2)); [done|by compute| |].
  - yield_seq. simpl. solve_ok.
  - intros xs s Hx Hs. yield_seq. cbn [kind_ok kind_cost sm_quantiles sm_count sm_sum]. solve_ok.
    split; [done|lia].
Qed.

Lemma yields_exponential_histogram :
  yields read_exponential_histogram (fun k s => kind_ok k = true /\ kind_cost k <= s).
Proof.
  yield_seq. cbn [kind_ok kind_cost eh_scale eh_zero_count eh_zero_threshold eh_positive eh_negative
    eh_count eh_sum eh_min eh_max]. solve_ok. split; [done|lia].
Qed.

Lemma yields_kind_body tag : yields (read_kind_body tag) (fun k s => kind_ok k = true /\ kind_cost k <= s).
Proof.
  unfold read_kind_body. repeat case_match.
  - yield_seq. cbn. solve_ok.
  - yield_seq. cbn. solve_ok.
  - yield_seq. cbn. solve_ok.
  - apply (yields_counted _ _ _ _ (unsigned_ok 64)); [done|by compute|apply yields_f64|].
    intros xs s Hx Hs. yield_seq. cbn [kind_ok kind_cost samples_values samples_rate]. solve_ok.
    split; [done|lia].
  - eapply yields_bind; [apply yields_take_all|]. intros blob s _ ->.
    case_match eqn:Hs; [apply yields_fail|]. apply yields_ret. by apply sketch_from_bytes_wf in Hs.
  - apply (yields_counted _ _ _ _ (fun _ => true)); [done|by compute| |].
    + eapply yields_mono; [apply yields_take_declared|]. by intros p s _ [_ ->].
    + intros xs s Hx Hs. apply yields_ret. cbn [kind_ok kind_cost]. split; [done|lia].
  - eapply yields_bind; [apply yields_take_all|]. intros blob s _ ->.
    case_match; [apply yields_fail|by apply yields_ret].
  - apply yields_histogram.
  - apply yields_exponential_histogram.
  - apply yields_summary.
  - apply yields_fail.
Qed.

Lemma yields_metric_kind : yields read_metric_kind (fun k s => kind_ok k = true /\ kind_cost k <= s).
Proof.
  eapply yields_bind; [apply yields_u8|]. intros tag s _ [_ ->].
  eapply yields_bind; [apply yields_take_declared|]. intros p s _ [Hp ->].
  apply yields_consumed; [done|]. apply yields_kind_body.
Qed.

Lemma kind_cost_nonneg k : 0 <= kind_cost k.
Proof. destruct k; cbn [kind_cost]; unfold size_of_f64, size_of_Bytes, size_of_bucket, size_of_u64, size_of_quantile; lia. Qed.
End KindYields.
