(* ===== verification/Fields.v ===== *)
(** * The field shapes records are made of

    Every record of crates/logit-proto/src/native/record.rs writes the same few shapes of field: a
    required one, one skipped at its default (a zero integer, an empty list, an empty attribute
    map), and one present only for [Some]. One lemma per shape says what its reader makes of it. *)

From S2P Require Import Prelude Codec Budget Reader Varint Utf8 Model AttrMap Wire Account Dict Tlv ValueCodec.

(** [!list.is_empty()]. *)
Definition nonempty {A} (l : list A) : bool :=
  match l with
  | [] => false
  | _ :: _ => true
  end.

(** The [_unknown] arm: [field.clear()]. *)
Definition skip_field {St} (st : St) : reader St := clear_all ;! rret st.

Definition write_i64_field (tag v : Z) : writer := write_scalar_field tag 8 (to_le_bytes 8 v).

Definition write_u32_field (tag v : Z) : writer := write_scalar_field tag 4 (to_le_bytes 4 v).

(** [if !field.is_empty() { return Err(..) }]. *)
Definition ensure_empty (e : CodecError) : reader unit := fun bs b =>
  match bs with
  | [] => (Ok (tt, []), b)
  | _ :: _ => (Err e, b)
  end.


Lemma reads_ensure_empty e : reads_all (ensure_empty e) [] tt 0.
Proof. split; [done|]. intros _ b _ _. simpl. by rewrite spend_0. Qed.

Lemma budget_safe_ensure_empty e : budget_safe (ensure_empty e).
Proof. apply budget_safe_pure. by intros [|x bs] b. Qed.

Lemma yields_ensure_empty e : yields (ensure_empty e) (fun _ s => s = 0).
Proof. intros [|x bs] b a rest b' Hl Hb; [|done]. intros [= <- <- <-]. rewrite Z.sub_diag. lia. Qed.

Lemma budget_safe_skip {St} (st : St) : budget_safe (skip_field st).
Proof. apply budget_safe_bind'; auto with reader. Qed.

Lemma yields_skip {St} (st : St) (Q : St -> Z -> Prop) : Q st 0 -> yields (skip_field st) Q.
Proof.
  intros HQ. eapply yields_bind; [apply yields_clear_all|]. intros _ s _ ->. by apply yields_ret.
Qed.

#[export] Hint Resolve budget_safe_ensure_empty budget_safe_skip : reader.

Definition option_cost {A} (cost : A -> Z) (o : option A) : Z :=
  match o with
  | Some a => cost a
  | None => 0
  end.

Section Shapes.
Context (I1 I2 : Interner) {St : Type} (visit : Dict -> Z -> St -> reader St).

Abbreviation wfields := (wfields I1 I2 visit).

Lemma wfields_eq w st st1 st' c1 c' :
  wfields w st st1 c1 -> st1 = st' -> c1 = c' -> wfields w st st' c'.
Proof. by intros ? <- <-. Qed.

Lemma wfields_i64 tag v st (f : Z -> St) :
  u8 tag -> signed_ok 64 v = true ->
  (forall dict, visit dict tag st = (let! x := read_exact_i64 in rret (f x))) ->
  wfields (write_i64_field tag v) st (f v) 0.
Proof.
  intros Ht Hv E. apply signed_ok_spec in Hv.
  eapply wfields_scalar_map; [done|by rewrite blen_to_le_bytes|done|by apply reads_exact_i64].
Qed.

Lemma wfields_u32 tag v st (f : Z -> St) :
  u8 tag -> unsigned_ok 32 v = true ->
  (forall dict, visit dict tag st = (let! x := read_exact_u32 in rret (f x))) ->
  wfields (write_u32_field tag v) st (f v) 0.
Proof.
  intros Ht Hv E. apply unsigned_ok_spec in Hv.
  eapply wfields_scalar_map; [done|by rewrite blen_to_le_bytes|done|by apply reads_exact_u32].
Qed.

(** Skipped when zero, the variable's initial value. *)
Lemma wfields_i64_nz tag v st (f : Z -> St) :
  u8 tag -> signed_ok 64 v = true ->
  (forall dict, visit dict tag st = (let! x := read_exact_i64 in rret (f x))) -> st = f 0 ->
  wfields (wwhen (negb (v =? 0)) (write_i64_field tag v)) st (f v) 0.
Proof.
  intros Ht Hv E Hst. apply wfields_when; [by intros _; apply wfields_i64|].
  intros Hz. apply negb_false_iff, Z.eqb_eq in Hz as ->. done.
Qed.

Lemma wfields_u32_nz tag v st (f : Z -> St) :
  u8 tag -> unsigned_ok 32 v = true ->
  (forall dict, visit dict tag st = (let! x := read_exact_u32 in rret (f x))) -> st = f 0 ->
  wfields (wwhen (negb (v =? 0)) (write_u32_field tag v)) st (f v) 0.
Proof.
  intros Ht Hv E Hst. apply wfields_when; [by intros _; apply wfields_u32|].
  intros Hz. apply negb_false_iff, Z.eqb_eq in Hz as ->. done.
Qed.

Lemma wfields_attrs tag m st (f : AttrMap -> St) :
  u8 tag -> @attrs_wire_ok I1 m = true ->
  (forall dict, visit dict tag st = (let! x := read_attr_map dict in rret (f x))) -> st = f [] ->
  wfields (wwhen (nonempty m) (write_field tag (write_attr_map m))) st
    (f (translate_attrs I1 I2 m)) (attrs_cost m).
Proof.
  intros Ht Hm E Hst. apply andb_true_iff in Hm as [Hok Hd]. apply Nat.leb_le in Hd.
  apply wfields_when.
  - intros _. eapply wfields_field_map; [done|exact E|]. by apply wreads_wreads_all, wreads_attr_map.
  - intros Hz. destruct m; [|done]. done.
Qed.

Lemma wfields_list {T T'} tag size (read_one : Dict -> reader T') (write_one : T -> writer)
    (g : T -> T') (cost : T -> Z) (l : list T) st (f : list T' -> St) :
  u8 tag -> 0 <= size ->
  Forall (fun x => wreads_all I1 I2 read_one (write_one x) (g x) (cost x)) l ->
  (forall dict, visit dict tag st = (let! x := read_record_list size (read_one dict) in rret (f x))) ->
  st = f [] ->
  wfields (wwhen (nonempty l) (write_field tag (write_record_list l write_one))) st
    (f (map g l)) (Z.of_nat (length l) * size + total cost l).
Proof.
  intros Ht Hs HF E Hst. apply wfields_when.
  - intros _. eapply wfields_field_map; [done|exact E|]. by apply wreads_wreads_all, wreads_record_list.
  - intros Hz. destruct l; [|done]. done.
Qed.

Lemma wfields_value tag v st (f : Value -> St) :
  u8 tag -> @value_wire_ok I1 v = true ->
  (forall dict, visit dict tag st = (let! x := read_value dict in rret (f x))) ->
  wfields (write_field tag (write_value v)) st (f (translate_value I1 I2 v)) (value_cost v).
Proof.
  intros Ht Hm E. apply andb_true_iff in Hm as [Hok Hd]. apply Nat.leb_le in Hd.
  eapply wfields_field_map; [done|exact E|].
  apply wreads_wreads_all, (wreads_value I1 I2 v (Datatypes.S MAX_VALUE_DEPTH)); [done|lia].
Qed.

(** Present for [Some]. *)
Lemma wfields_symbol_opt tag o (f : option Symbol -> St) :
  u8 tag -> option_ok (@live_sym I1) o = true ->
  (forall dict, visit dict tag (f None) = (let! s := read_symbol_field dict in rret (f (Some s)))) ->
  wfields (wopt o (write_symbol_field tag)) (f None) (f (translate I1 I2 <$> o)) 0.
Proof.
  intros Ht Ho E. destruct o as [s|]; [|apply wfields_nil].
  apply (wfields_symbol I1 I2 visit tag s (fun s => f (Some s))); [done|by apply live_sym_spec|done].
Qed.

Lemma wfields_scalar_opt {A} tag len (enc : A -> bytes) (r : reader A) o (f : option A -> St) :
  u8 tag -> (forall a, o = Some a -> len = blen (enc a)) ->
  (forall a, o = Some a -> reads_all r (enc a) a 0) ->
  (forall dict, visit dict tag (f None) = (let! x := r in rret (f (Some x)))) ->
  wfields (wopt o (fun a => write_scalar_field tag len (enc a))) (f None) (f o) 0.
Proof.
  intros Ht Hl Hr E. destruct o as [a|]; [|apply wfields_nil].
  apply (wfields_scalar_map I1 I2 visit _ _ _ _ r (fun x => f (Some x))); auto.
Qed.

Lemma wfields_bytes_opt tag o (f : option bytes -> St) :
  u8 tag -> (forall dict, visit dict tag (f None) = (let! x := take_all in rret (f (Some x)))) ->
  wfields (wopt o (write_bytes_field tag)) (f None) (f o) 0.
Proof.
  intros Ht E. destruct o as [a|]; [|apply wfields_nil].
  by apply (wfields_bytes I1 I2 visit tag a _ (fun x => f (Some x))).
Qed.

Lemma wfields_field_opt {A A'} tag (r : Dict -> reader A') (w : A -> writer) (g : A -> A')
    (cost : A -> Z) o (f : option A' -> St) :
  u8 tag -> (forall a, o = Some a -> wreads_all I1 I2 r (w a) (g a) (cost a)) ->
  (forall dict, visit dict tag (f None) = (let! x := r dict in rret (f (Some x)))) ->
  wfields (wopt o (fun a => write_field tag (w a))) (f None) (f (g <$> o)) (option_cost cost o).
Proof.
  intros Ht Hw E. destruct o as [a|]; [|apply wfields_nil].
  apply (wfields_field_map I1 I2 visit tag _ _ r (fun x => f (Some x))); auto.
Qed.
(** A whole record: its fields walked, then its required variables checked. *)
Lemma wreads_fields {A} (finish : St -> reader A) w st0 st a c :
  wfields w st0 st c -> reads_back (finish st) [] a 0 ->
  wreads_all I1 I2 (fun dict => let! vars := for_each_field (visit dict) st0 in finish vars) w a c.
Proof.
  intros Hw Hf. apply (wreads_all_map I1 I2 (fun dict => for_each_field (visit dict) st0)
    (fun vars _ => finish vars) w st); [by apply wfields_all|done].
Qed.
End Shapes.
