(* ===== verification/RecordCodec.v ===== *)
(** * Metric and log records on the wire

    crates/logit-proto/src/native/record.rs: trace references, exemplars, metric records and log
    records. A reader's local variables are the visitor's state, a tuple in the order the source
    declares them; a field's absence leaves the variable's initial value, which is why a writer may
    skip a default. *)

From S2P Require Import Prelude Codec Budget Reader Varint Utf8 Model AttrMap Wire Account Dict Tlv ValueCodec.
From S2P Require Import Float MetricKindCodec Fields.

(** ** Trace references *)

Definition write_trace_ref (trace : TraceRef) : bytes :=
  tr_trace_id trace ++
  match tr_span_id trace with
  | Some span_id => [z2b 1] ++ span_id
  | None => [z2b 0]
  end ++
  [z2b (tr_flags trace)].

Definition read_trace_ref : reader TraceRef :=
  let! trace_id := read_fixed 16 (Malformed "truncated trace_id") in
  let! has_span := read_u8 in
  let! span_id :=
    match has_span with
    | 0 => rret None
    | 1 => let! span_id := read_fixed 8 (Malformed "truncated span_id") in rret (Some span_id)
    | _ => rfail (Malformed "bad span_id presence byte")
    end in
  let! flags := read_u8 in
  rret (mkTraceRef trace_id span_id flags).

(** ** Exemplars *)

Abbreviation EX_TIMESTAMP := 1%Z.
Abbreviation EX_VALUE := 2%Z.
Abbreviation EX_TRACE := 3%Z.
Abbreviation EX_FILTERED_ATTRIBUTES := 4%Z.

Definition write_exemplar (exemplar : Exemplar) : writer :=
  wwhen (negb (ex_timestamp exemplar =? 0)) (write_i64_field EX_TIMESTAMP (ex_timestamp exemplar)) +++
  wwhen (negb (MetricValue_eqb (ex_value exemplar) (MvF64 0)))
    (write_scalar_field EX_VALUE SCALAR_LEN (write_scalar (ex_value exemplar))) +++
  wopt (ex_trace exemplar) (fun trace => write_field EX_TRACE (wbytes (write_trace_ref trace))) +++
  wwhen (nonempty (ex_filtered_attributes exemplar))
    (write_field EX_FILTERED_ATTRIBUTES (write_attr_map (ex_filtered_attributes exemplar))).

Definition read_exemplar_value : reader MetricValue :=
  let! value := read_scalar in
  ensure_empty (trailing_bytes "exemplar value") ;!
  rret value.

Definition visit_exemplar (dict : Dict) (tag : Z) (st : Z * MetricValue * option TraceRef * AttrMap) :
    reader (Z * MetricValue * option TraceRef * AttrMap) :=
  let '(timestamp, value, trace, filtered_attributes) := st in
  if tag =? EX_TIMESTAMP then
    let! timestamp := read_exact_i64 in rret (timestamp, value, trace, filtered_attributes)
  else if tag =? EX_VALUE then
    let! value := read_exemplar_value in rret (timestamp, value, trace, filtered_attributes)
  else if tag =? EX_TRACE then
    let! t := read_trace_ref in rret (timestamp, value, Some t, filtered_attributes)
  else if tag =? EX_FILTERED_ATTRIBUTES then
    let! m := read_attr_map dict in rret (timestamp, value, trace, m)
  else skip_field st.

Definition finish_exemplar (st : Z * MetricValue * option TraceRef * AttrMap) : reader Exemplar :=
  let '(timestamp, value, trace, filtered_attributes) := st in
  rret (mkExemplar timestamp value trace filtered_attributes).

Definition read_exemplar (dict : Dict) : reader Exemplar :=
  let! vars := for_each_field (visit_exemplar dict) (0, MvF64 0, None, []) in
  finish_exemplar vars.

(** [std::mem::size_of::<Exemplar>()]. *)
Definition size_of_Exemplar : Z := 448.

(** ** Metric records *)

Abbreviation MR_NAME := 1%Z.
Abbreviation MR_UNIT := 2%Z.
Abbreviation MR_DESCRIPTION := 3%Z.
Abbreviation MR_START_TIMESTAMP := 4%Z.
Abbreviation MR_EXEMPLARS := 5%Z.
Abbreviation MR_KIND := 6%Z.
Abbreviation MR_FLAGS := 7%Z.

Definition write_metric_record `{Summaries} (record : MetricRecord) : writer :=
  write_symbol_field MR_NAME (mr_name record) +++
  wopt (mr_unit record) (write_symbol_field MR_UNIT) +++
  wopt (mr_description record) (write_symbol_field MR_DESCRIPTION) +++
  wwhen (negb (mr_start_timestamp record =? 0))
    (write_i64_field MR_START_TIMESTAMP (mr_start_timestamp record)) +++
  wwhen (nonempty (mr_exemplars record))
    (write_field MR_EXEMPLARS (write_record_list (mr_exemplars record) write_exemplar)) +++
  wwhen (negb (mr_flags record =? 0)) (write_u32_field MR_FLAGS (mr_flags record)) +++
  write_field MR_KIND (wbytes (write_metric_kind (mr_kind record))).

Definition MetricVars `{Summaries} : Type :=
  option Symbol * option Symbol * option Symbol * Z * list Exemplar * Z * option MetricKind.

Definition visit_metric_record `{Summaries} (dict : Dict) (tag : Z) (st : MetricVars) : reader MetricVars :=
  let '(name, unit, description, start_timestamp, exemplars, flags, kind) := st in
  if tag =? MR_NAME then
    let! s := read_symbol_field dict in
    rret (Some s, unit, description, start_timestamp, exemplars, flags, kind)
  else if tag =? MR_UNIT then
    let! s := read_symbol_field dict in
    rret (name, Some s, description, start_timestamp, exemplars, flags, kind)
  else if tag =? MR_DESCRIPTION then
    let! s := read_symbol_field dict in
    rret (name, unit, Some s, start_timestamp, exemplars, flags, kind)
  else if tag =? MR_START_TIMESTAMP then
    let! t := read_exact_i64 in
    rret (name, unit, description, t, exemplars, flags, kind)
  else if tag =? MR_EXEMPLARS then
    let! l := read_record_list size_of_Exemplar (read_exemplar dict) in
    rret (name, unit, description, start_timestamp, l, flags, kind)
  else if tag =? MR_FLAGS then
    let! f := read_exact_u32 in
    rret (name, unit, description, start_timestamp, exemplars, f, kind)
  else if tag =? MR_KIND then
    let! k := read_metric_kind in
    rret (name, unit, description, start_timestamp, exemplars, flags, Some k)
  else skip_field st.

(** The required variables, checked after the walk. *)
Definition finish_metric_record `{Summaries} (st : MetricVars) : reader MetricRecord :=
  let '(name, unit, description, start_timestamp, exemplars, flags, kind) := st in
  match name with
  | None => rfail (Malformed "metric record missing name")
  | Some name =>
      match kind with
      | None => rfail (Malformed "metric record missing kind")
      | Some kind =>
          rret (mkMetricRecord name unit description start_timestamp exemplars flags kind)
      end
  end.

Definition read_metric_record `{Summaries} (dict : Dict) : reader MetricRecord :=
  let! vars := for_each_field (visit_metric_record dict) (None, None, None, 0, [], 0, None) in
  finish_metric_record vars.

(** [std::mem::size_of::<MetricRecord>()]. *)
Definition size_of_MetricRecord : Z := 224.

(** ** Log records *)

Definition severity_tag (s : Severity) : Z :=
  match s with
  | SevTrace => 0
  | SevDebug => 1
  | SevInfo => 2
  | SevWarn => 3
  | SevError => 4
  | SevFatal => 5
  end.

Definition severity_from_tag (tag : Z) : result Severity :=
  match tag with
  | 0 => Ok SevTrace
  | 1 => Ok SevDebug
  | 2 => Ok SevInfo
  | 3 => Ok SevWarn
  | 4 => Ok SevError
  | 5 => Ok SevFatal
  | _ => Err (Malformed "unknown severity tag")
  end.

Definition body_format_tag (f : BodyFormat) : Z :=
  match f with
  | BodyRaw => 0
  | BodyJson => 1
  | BodyStructured => 2
  end.

Definition body_format_from_tag (tag : Z) : result BodyFormat :=
  match tag with
  | 0 => Ok BodyRaw
  | 1 => Ok BodyJson
  | 2 => Ok BodyStructured
  | _ => Err (Malformed "unknown body_format tag")
  end.

Abbreviation LR_MESSAGE := 1%Z.
Abbreviation LR_SEVERITY := 2%Z.
Abbreviation LR_BODY_FORMAT := 3%Z.
Abbreviation LR_TRACE := 4%Z.
Abbreviation LR_EVENT_NAME := 5%Z.
Abbreviation LR_OBSERVED_TIMESTAMP := 6%Z.
Abbreviation LR_DROPPED_ATTRIBUTES_COUNT := 7%Z.

Definition write_log_record (log : LogRecord) : writer :=
  write_field LR_MESSAGE (write_value (lr_message log)) +++
  wopt (lr_severity log) (fun s => write_scalar_field LR_SEVERITY 1 [z2b (severity_tag s)]) +++
  wwhen (bool_decide (lr_body_format log <> BodyRaw))
    (write_scalar_field LR_BODY_FORMAT 1 [z2b (body_format_tag (lr_body_format log))]) +++
  wopt (lr_trace log) (fun trace => write_field LR_TRACE (wbytes (write_trace_ref trace))) +++
  wopt (lr_event_name log) (write_symbol_field LR_EVENT_NAME) +++
  wwhen (negb (lr_observed_timestamp log =? 0))
    (write_i64_field LR_OBSERVED_TIMESTAMP (lr_observed_timestamp log)) +++
  wwhen (negb (lr_dropped_attributes_count log =? 0))
    (write_u32_field LR_DROPPED_ATTRIBUTES_COUNT (lr_dropped_attributes_count log)).

Definition LogVars : Type :=
  option Value * option Severity * BodyFormat * option TraceRef * option Symbol * Z * Z.

Definition visit_log_record (dict : Dict) (tag : Z) (st : LogVars) : reader LogVars :=
  let '(message, severity, body_format, trace, event_name, observed_timestamp, dropped) := st in
  if tag =? LR_MESSAGE then
    let! v := read_value dict in
    rret (Some v, severity, body_format, trace, event_name, observed_timestamp, dropped)
  else if tag =? LR_SEVERITY then
    let! s := (let! t := read_u8 in rlift (severity_from_tag t)) in
    rret (message, Some s, body_format, trace, event_name, observed_timestamp, dropped)
  else if tag =? LR_BODY_FORMAT then
    let! f := (let! t := read_u8 in rlift (body_format_from_tag t)) in
    rret (message, severity, f, trace, event_name, observed_timestamp, dropped)
  else if tag =? LR_TRACE then
    let! t := read_trace_ref in
    rret (message, severity, body_format, Some t, event_name, observed_timestamp, dropped)
  else if tag =? LR_EVENT_NAME then
    let! s := read_symbol_field dict in
    rret (message, severity, body_format, trace, Some s, observed_timestamp, dropped)
  else if tag =? LR_OBSERVED_TIMESTAMP then
    let! t := read_exact_i64 in
    rret (message, severity, body_format, trace, event_name, t, dropped)
  else if tag =? LR_DROPPED_ATTRIBUTES_COUNT then
    let! n := read_exact_u32 in
    rret (message, severity, body_format, trace, event_name, observed_timestamp, n)
  else skip_field st.

Definition finish_log_record (st : LogVars) : reader LogRecord :=
  let '(message, severity, body_format, trace, event_name, observed_timestamp, dropped) := st in
  match message with
  | None => rfail (Malformed "log record missing message")
  | Some message =>
      rret (mkLogRecord message severity body_format trace event_name observed_timestamp dropped)
  end.

Definition read_log_record (dict : Dict) : reader LogRecord :=
  let! vars := for_each_field (visit_log_record dict) (None, None, BodyRaw, None, None, 0, 0) in
  finish_log_record vars.

(** ** Well-formedness, cost and translation *)

Definition trace_ok (t : TraceRef) : bool :=
  (blen (tr_trace_id t) =? 16) && option_ok (fun s => blen s =? 8) (tr_span_id t) &&
  unsigned_ok 8 (tr_flags t).

Definition exemplar_ok `{Interner} (e : Exemplar) : bool :=
  signed_ok 64 (ex_timestamp e) && metric_value_ok (ex_value e) && option_ok trace_ok (ex_trace e) &&
  attrs_wire_ok (ex_filtered_attributes e).

Definition exemplar_cost (e : Exemplar) : Z := attrs_cost (ex_filtered_attributes e).

(** A value equal to the default [F64(0.0)] is not written, and [-0.0 == 0.0]. *)
Definition default_value (v : MetricValue) : MetricValue :=
  if MetricValue_eqb v (MvF64 0) then MvF64 0 else v.

Definition translate_exemplar (I1 I2 : Interner) (e : Exemplar) : Exemplar :=
  mkExemplar (ex_timestamp e) (default_value (ex_value e)) (ex_trace e)
    (translate_attrs I1 I2 (ex_filtered_attributes e)).

(** The bit pattern of [-0.0]. *)
Definition NEG_ZERO : f64 := 2 ^ 63.

Definition exemplar_exact (e : Exemplar) : bool :=
  match ex_value e with
  | MvF64 v => negb (v =? NEG_ZERO)
  | _ => true
  end.

Definition metric_ok `{Interner} `{Summaries} (m : MetricRecord) : bool :=
  live_sym (mr_name m) && option_ok live_sym (mr_unit m) && option_ok live_sym (mr_description m) &&
  signed_ok 64 (mr_start_timestamp m) && forallb exemplar_ok (mr_exemplars m) &&
  unsigned_ok 32 (mr_flags m) && kind_ok (mr_kind m).


Definition metric_exact `{Summaries} (m : MetricRecord) : bool := forallb exemplar_exact (mr_exemplars m).

Definition metric_cost `{Summaries} (m : MetricRecord) : Z :=
  Z.of_nat (length (mr_exemplars m)) * size_of_Exemplar + total exemplar_cost (mr_exemplars m) +
  kind_cost (mr_kind m).

Definition translate_metric `{Summaries} (I1 I2 : Interner) (m : MetricRecord) : MetricRecord :=
  mkMetricRecord (translate I1 I2 (mr_name m)) (translate I1 I2 <$> mr_unit m)
    (translate I1 I2 <$> mr_description m) (mr_start_timestamp m)
    (map (translate_exemplar I1 I2) (mr_exemplars m)) (mr_flags m) (mr_kind m).

Definition log_ok `{Interner} (l : LogRecord) : bool :=
  value_wire_ok (lr_message l) && option_ok trace_ok (lr_trace l) &&
  option_ok live_sym (lr_event_name l) && signed_ok 64 (lr_observed_timestamp l) &&
  unsigned_ok 32 (lr_dropped_attributes_count l).

Definition log_cost (l : LogRecord) : Z := value_cost (lr_message l).

Definition translate_log (I1 I2 : Interner) (l : LogRecord) : LogRecord :=
  mkLogRecord (translate_value I1 I2 (lr_message l)) (lr_severity l) (lr_body_format l) (lr_trace l)
    (translate I1 I2 <$> lr_event_name l) (lr_observed_timestamp l) (lr_dropped_attributes_count l).

(** ** Round trip *)

Lemma reads_trace_ref t : trace_ok t = true -> reads_back read_trace_ref (write_trace_ref t) t 0.
Proof.
  destruct t as [id span flags]. unfold trace_ok, write_trace_ref. cbn [tr_trace_id tr_span_id tr_flags].
  intros Hok. split_ok. apply unsigned_ok_spec in H0. apply Z.eqb_eq in H.
  eapply (reads_back_bind _ _ _ _ _ _ 0 0); [by apply reads_fixed|].
  destruct span as [s|]; simpl in H1.
  - rewrite <- app_assoc. eapply (reads_back_bind _ _ _ _ _ _ 0 0); [by apply reads_u8|]. cbv iota.
    apply Z.eqb_eq in H1.
    eapply (reads_back_bind _ _ _ _ _ _ 0 0); [by apply (reads_back_map _ Some), reads_fixed|].
    by apply (reads_back_map _ (mkTraceRef id (Some s))), reads_u8.
  - eapply (reads_back_bind _ _ _ _ _ _ 0 0); [by apply reads_u8|]. cbv iota.
    eapply reads_back_bind_l; [apply reads_back_ret|].
    by apply (reads_back_map _ (mkTraceRef id None)), reads_u8.
Qed.

Lemma reads_exemplar_value v :
  metric_value_ok v = true -> reads_all read_exemplar_value (write_scalar v) v 0.
Proof.
  intros Hv. eapply reads_all_bind_eq; [symmetry; apply app_nil_r|symmetry; apply Z.add_0_l|by apply reads_scalar|].
  eapply reads_all_bind_r; [apply reads_ensure_empty|]. apply reads_back_all, reads_back_ret.
Qed.

(** Decides the visitor's dispatch at a given tag. *)
Ltac visit_at := intros; reflexivity.

Section RoundTrip.
Context (I1 I2 : Interner).

Lemma wreads_exemplar e :
  @exemplar_ok I1 e = true ->
  wreads_all I1 I2 read_exemplar (write_exemplar e) (translate_exemplar I1 I2 e) (exemplar_cost e).
Proof.
  destruct e as [ts v tr m]. unfold exemplar_ok. cbn [ex_timestamp ex_value ex_trace ex_filtered_attributes].
  intros Hok. split_ok.
  eapply (wreads_fields I1 I2 visit_exemplar finish_exemplar _ _ (ts, default_value v, tr, translate_attrs I1 I2 m));
    [|apply reads_back_ret].
  eapply wfields_eq.
  - eapply wfields_app; [reflexivity|eapply wfields_i64_nz; [done|done|visit_at|reflexivity]|].
    eapply wfields_app; [reflexivity| |].
    { apply (wfields_when I1 I2 _ _ _ _ (ts, default_value v, None, []) 0); unfold default_value; cbn [ex_value];
        destruct (MetricValue_eqb v (MvF64 0)); try done. intros _.
      apply (wfields_scalar_map I1 I2 _ _ _ _ _ read_exemplar_value (fun x => (ts, x, None, [])));
        [done|by rewrite blen_write_scalar|visit_at|by apply reads_exemplar_value]. }
    eapply wfields_app; [reflexivity| |].
    { apply (wfields_field_opt I1 I2 _ EX_TRACE (fun _ => read_trace_ref) _ id (fun _ => 0) tr
        (fun o => (ts, default_value v, o, []))); [done| |visit_at].
      intros t ->. by apply wreads_all_bytes, reads_back_all, reads_trace_ref. }
    eapply wfields_attrs; [done|done|visit_at|reflexivity].
  - by rewrite option_fmap_id.
  - by destruct tr.
Qed.

Lemma wreads_metric_record {Sm : Summaries} `{!SummariesOk Sm} r :
  @metric_ok I1 Sm r = true ->
  wreads_all I1 I2 read_metric_record (write_metric_record r) (translate_metric I1 I2 r) (metric_cost r).
Proof.
  destruct r as [name unit desc ts exs flags kind]. unfold metric_ok, write_metric_record.
  cbn [mr_name mr_unit mr_description mr_start_timestamp mr_exemplars mr_flags mr_kind].
  intros Hok. split_ok.
  eapply (wreads_fields I1 I2 visit_metric_record finish_metric_record _ _
    (Some (translate I1 I2 name), translate I1 I2 <$> unit, translate I1 I2 <$> desc, ts,
     map (translate_exemplar I1 I2) exs, flags, Some kind)); [|apply reads_back_ret].
  eapply wfields_eq.
  - eapply wfields_app; [reflexivity|eapply wfields_symbol; [done|by apply live_sym_spec|visit_at]|].
    eapply wfields_app; [reflexivity| |].
    { apply (wfields_symbol_opt I1 I2 _ MR_UNIT unit
        (fun o => (Some (translate I1 I2 name), o, None, 0, [], 0, None))); [done|done|visit_at]. }
    eapply wfields_app; [reflexivity| |].
    { apply (wfields_symbol_opt I1 I2 _ MR_DESCRIPTION desc
        (fun o => (Some (translate I1 I2 name), translate I1 I2 <$> unit, o, 0, [], 0, None)));
        [done|done|visit_at]. }
    eapply wfields_app; [reflexivity|eapply wfields_i64_nz; [done|done|visit_at|reflexivity]|].
    eapply wfields_app; [reflexivity| |].
    { eapply (wfields_list I1 I2 _ _ size_of_Exemplar read_exemplar _ (translate_exemplar I1 I2) exemplar_cost);
        [done|by compute| |visit_at|reflexivity].
      eapply Forall_impl; [eassumption|]. intros e He. by apply wreads_exemplar. }
    eapply wfields_app; [reflexivity|eapply wfields_u32_nz; [done|done|visit_at|reflexivity]|].
    eapply (wfields_field_map I1 I2 _ _ _ _ (fun _ => read_metric_kind)); [done|visit_at|].
    by apply wreads_all_bytes, reads_back_all, reads_metric_kind.
  - reflexivity.
  - unfold metric_cost. simpl. lia.
Qed.

Lemma reads_severity s :
  reads_all (let! t := read_u8 in rlift (severity_from_tag t)) [z2b (severity_tag s)] s 0.
Proof.
  eapply reads_all_bind_r; [apply reads_back_all, reads_u8; by destruct s|].
  destruct s; apply reads_back_all, reads_back_ret.
Qed.

Lemma reads_body_format f :
  reads_all (let! t := read_u8 in rlift (body_format_from_tag t)) [z2b (body_format_tag f)] f 0.
Proof.
  eapply reads_all_bind_r; [apply reads_back_all, reads_u8; by destruct f|].
  destruct f; apply reads_back_all, reads_back_ret.
Qed.

Lemma wreads_log_record l :
  @log_ok I1 l = true ->
  wreads_all I1 I2 read_log_record (write_log_record l) (translate_log I1 I2 l) (log_cost l).
Proof.
  destruct l as [msg sev fmt tr name obs drop]. unfold log_ok, write_log_record.
  cbn [lr_message lr_severity lr_body_format lr_trace lr_event_name lr_observed_timestamp
    lr_dropped_attributes_count].
  intros Hok. split_ok. set (v := translate_value I1 I2 msg).
  eapply (wreads_fields I1 I2 visit_log_record finish_log_record _ _
    (Some v, sev, fmt, tr, translate I1 I2 <$> name, obs, drop)); [|apply reads_back_ret].
  eapply wfields_eq.
  - eapply wfields_app; [reflexivity|eapply wfields_value; [done|done|visit_at]|].
    eapply wfields_app; [reflexivity| |].
    { apply (wfields_scalar_opt I1 I2 _ LR_SEVERITY 1 (fun s => [z2b (severity_tag s)])
        (let! t := read_u8 in rlift (severity_from_tag t)) sev
        (fun o => (Some v, o, BodyRaw, None, None, 0, 0))); [done|done| |visit_at].
      intros s _. apply reads_severity. }
    eapply wfields_app; [reflexivity| |].
    { apply (wfields_when I1 I2 _ _ _ _ (Some v, sev, fmt, None, None, 0, 0) 0).
      - intros _. apply (wfields_scalar_map I1 I2 _ _ _ _ _ (let! t := read_u8 in rlift (body_format_from_tag t))
          (fun x => (Some v, sev, x, None, None, 0, 0))); [done|done|visit_at|apply reads_body_format].
      - intros Hf. apply bool_decide_eq_false, dec_stable in Hf as ->. done. }
    eapply wfields_app; [reflexivity| |].
    { apply (wfields_field_opt I1 I2 _ LR_TRACE (fun _ => read_trace_ref) _ id (fun _ => 0) tr
        (fun o => (Some v, sev, fmt, o, None, 0, 0))); [done| |visit_at].
      intros t ->. by apply wreads_all_bytes, reads_back_all, reads_trace_ref. }
    eapply wfields_app; [reflexivity| |].
    { apply (wfields_symbol_opt I1 I2 _ LR_EVENT_NAME name
        (fun o => (Some v, sev, fmt, id <$> tr, o, 0, 0))); [done|done|visit_at]. }
    eapply wfields_app; [reflexivity|eapply wfields_i64_nz; [done|done|visit_at|reflexivity]|].
    eapply wfields_u32_nz; [done|done|visit_at|reflexivity].
  - by rewrite option_fmap_id.
  - unfold log_cost. destruct tr; simpl; lia.
Qed.
End RoundTrip.

(** ** On any input *)

Ltac visitor_safe :=
  repeat case_match; subst; try apply budget_safe_map; try solve [auto with reader].

Lemma budget_safe_trace_ref : budget_safe read_trace_ref.
Proof.
  apply budget_safe_bind'; [auto with reader|]. intros id.
  apply budget_safe_bind'; [auto with reader|]. intros has.
  apply budget_safe_bind'; [repeat case_match; auto with reader|]. auto with reader.
Qed.

#[export] Hint Resolve budget_safe_trace_ref : reader.

Lemma budget_safe_exemplar dict : budget_safe (read_exemplar dict).
Proof.
  apply budget_safe_bind'; [|intros [[[? ?] ?] ?]; unfold finish_exemplar; auto with reader].
  apply budget_safe_for_each_field. intros tag st. unfold visit_exemplar. visitor_safe.
  apply budget_safe_bind'; [auto with reader|]. intros v. apply budget_safe_bind'; auto with reader.
Qed.

Lemma budget_safe_metric_record `{Summaries} dict : budget_safe (read_metric_record dict).
Proof.
  apply budget_safe_bind'.
  - apply budget_safe_for_each_field. intros tag st. unfold visit_metric_record. visitor_safe.
    apply budget_safe_record_list; [by compute|apply budget_safe_exemplar].
  - intros [[[[[[? ?] ?] ?] ?] ?] ?]. unfold finish_metric_record. repeat case_match; auto with reader.
Qed.

Lemma budget_safe_log_record dict : budget_safe (read_log_record dict).
Proof.
  apply budget_safe_bind'.
  - apply budget_safe_for_each_field. intros tag st. unfold visit_log_record. visitor_safe;
      apply budget_safe_bind'; auto with reader.
  - intros [[[[[[? ?] ?] ?] ?] ?] ?]. unfold finish_log_record. case_match; auto with reader.
Qed.

#[export] Hint Resolve budget_safe_exemplar budget_safe_metric_record budget_safe_log_record : reader.

(** ** Accounting *)

Lemma yields_exact_u32_ok : yields read_exact_u32 (fun v s => unsigned_ok 32 v = true /\ s = 0).
Proof.
  eapply yields_mono; [apply yields_exact_u32|]. intros v s _ [Hv ->]. split; [by apply unsigned_ok_spec|done].
Qed.

Lemma yields_exact_i64_ok : yields read_exact_i64 (fun v s => signed_ok 64 v = true /\ s = 0).
Proof.
  eapply yields_mono; [apply yields_exact_i64|]. intros v s _ [Hv ->]. split; [by apply signed_ok_spec|done].
Qed.

Lemma yields_trace_ref : yields read_trace_ref (fun t s => trace_ok t = true /\ s = 0).
Proof.
  eapply yields_bind; [by apply yields_fixed|]. intros id s _ [Hid ->].
  eapply yields_bind; [apply yields_u8|]. intros has s _ [_ ->].
  assert (forall v, yields (match v with
    | 0 => rret None
    | 1 => let! span_id := read_fixed 8 (Malformed "truncated span_id") in rret (Some span_id)
    | _ => rfail (Malformed "bad span_id presence byte")
    end) (fun o s => option_ok (fun s => blen s =? 8) o = true /\ s = 0)) as Hspan.
  { intros v. repeat case_match; try apply yields_fail; [by apply yields_ret|].
    eapply yields_map; [by apply yields_fixed|]. intros q s _ [Hq ->]. simpl. by rewrite Hq. }
  eapply yields_bind; [apply Hspan|]. intros span s _ [Hs ->].
  eapply yields_map; [apply yields_u8|]. intros f s _ [Hf ->].
  unfold trace_ok. cbn [tr_trace_id tr_span_id tr_flags]. rewrite Hs, Hid.
  apply unsigned_ok_spec in Hf. by rewrite Hf.
Qed.

Lemma yields_exemplar_value : yields read_exemplar_value (fun v s => metric_value_ok v = true /\ s = 0).
Proof.
  eapply yields_bind; [apply yields_scalar|]. intros v s _ [Hv ->].
  eapply yields_bind; [apply yields_ensure_empty|]. intros _ s _ ->. by apply yields_ret.
Qed.

Lemma attrs_cost_nonneg m : 0 <= attrs_cost m.
Proof.
  rewrite entries_cost_total. apply total_nonneg. intros kv. pose proof (value_cost_nonneg kv.2).
  unfold size_of_entry. lia.
Qed.

Lemma yields_symbol_ok `{Interner} (dict : Dict) :
  Forall live dict -> yields (read_symbol_field dict) (fun sym s => live_sym sym = true /\ s = 0).
Proof.
  intros HF. eapply yields_mono; [by apply yields_symbol_field|]. intros sym s _ [Hl ->].
  split; [by apply live_sym_spec|done].
Qed.

#[export] Hint Resolve yields_exact_u32_ok yields_exact_i64_ok yields_trace_ref yields_exemplar_value
  yields_symbol_ok yields_value yields_attr_map yields_metric_kind : yields.

(** One visitor arm: a sub-reader's result replaces a variable. *)
Ltac yields_arm :=
  repeat case_match; simplify_eq; destruct_and?;
  (eapply yields_map; [solve [eauto with yields]|intros ? ? ? ?; cbv beta in *; destruct_and?; subst])
  || apply yields_skip.

Section Yields.
Context `{Interner} (dict : Dict) (Hdict : Forall live dict).
#[local] Set Default Proof Using "Type*".

Definition exemplar_vars_ok (st : Z * MetricValue * option TraceRef * AttrMap) (s : Z) : Prop :=
  let '(ts, v, tr, m) := st in exemplar_ok (mkExemplar ts v tr m) = true /\ attrs_cost m <= s.

Lemma yields_exemplar :
  yields (read_exemplar dict) (fun e s => exemplar_ok e = true /\ exemplar_cost e <= s).
Proof.
  eapply yields_bind.
  - apply (yields_for_each_field _ exemplar_vars_ok _ 0); [|done|done].
    intros tag [[[ts v] tr] m] s _ Hs [Hok Hc]. unfold exemplar_ok in Hok.
    cbn [ex_timestamp ex_value ex_trace ex_filtered_attributes] in Hok. split_bools.
    unfold visit_exemplar. pose proof (attrs_cost_nonneg m).
    yields_arm; unfold exemplar_vars_ok, exemplar_ok;
      cbn [ex_timestamp ex_value ex_trace ex_filtered_attributes option_ok]; solve_ok; split; (done || lia).
  - intros [[[ts v] tr] m] s _ [Hok Hc]. apply yields_ret. unfold exemplar_cost. simpl. split; [done|lia].
Qed.

(** The costs a metric reader's variables stand for. *)
Definition exemplars_cost (l : list Exemplar) : Z :=
  Z.of_nat (length l) * size_of_Exemplar + total exemplar_cost l.

Lemma exemplars_cost_nonneg l : 0 <= exemplars_cost l.
Proof.
  assert (0 <= total exemplar_cost l) by (apply total_nonneg; intros e; apply attrs_cost_nonneg).
  unfold exemplars_cost, size_of_Exemplar. lia.
Qed.

Lemma yields_exemplars :
  yields (read_record_list size_of_Exemplar (read_exemplar dict))
    (fun l s => forallb exemplar_ok l = true /\ exemplars_cost l <= s).
Proof.
  eapply yields_mono; [apply (yields_record_list _ _ (fun e => exemplar_ok e = true) exemplar_cost)|].
  - by compute.
  - apply yields_exemplar.
  - intros l s _ [HF Hc]. split; [by apply forallb_Forall|done].
Qed.

#[local] Hint Resolve yields_exemplars : yields.

Context {Sm : Summaries} {SO : SummariesOk Sm}.

Definition metric_vars_ok (st : MetricVars) (s : Z) : Prop :=
  let '(name, unit, desc, ts, exs, flags, kind) := st in
  option_ok live_sym name && option_ok live_sym unit && option_ok live_sym desc && signed_ok 64 ts &&
  forallb exemplar_ok exs && unsigned_ok 32 flags && option_ok kind_ok kind = true /\
  exemplars_cost exs + option_cost kind_cost kind <= s.

Lemma yields_metric_record :
  yields (read_metric_record dict) (fun m s => metric_ok m = true /\ metric_cost m <= s).
Proof.
  eapply yields_bind.
  - apply (yields_for_each_field _ metric_vars_ok _ 0); [|done|done].
    intros tag [[[[[[name unit] desc] ts] exs] flags] kind] s _ Hs [Hok Hc].
    split_bools.
    unfold visit_metric_record. pose proof (exemplars_cost_nonneg exs).
    assert (0 <= option_cost kind_cost kind) by (destruct kind; simpl; [apply kind_cost_nonneg|done]).
    yields_arm; unfold metric_vars_ok; cbn [option_ok option_cost] in *; solve_ok;
      (split; [done|lia]).
  - intros [[[[[[name unit] desc] ts] exs] flags] kind] s _ [Hok Hc]. unfold finish_metric_record.
    destruct name as [name|]; [|apply yields_fail]. destruct kind as [kind|]; [|apply yields_fail].
    apply yields_ret. unfold metric_ok, metric_cost. unfold exemplars_cost in Hc.
    cbn [mr_name mr_unit mr_description mr_start_timestamp mr_exemplars mr_flags mr_kind option_cost] in *.
    split; [done|lia].
Qed.

Definition log_vars_ok (st : LogVars) (s : Z) : Prop :=
  let '(msg, sev, fmt, tr, name, obs, drop) := st in
  option_ok value_wire_ok msg && option_ok trace_ok tr && option_ok live_sym name && signed_ok 64 obs &&
  unsigned_ok 32 drop = true /\ option_cost value_cost msg <= s.

Lemma yields_tag {A} (from : Z -> result A) :
  yields (let! t := read_u8 in rlift (from t)) (fun _ s => s = 0).
Proof.
  eapply yields_bind; [apply yields_u8|]. intros t s _ [_ ->].
  eapply yields_mono; [apply yields_lift|]. by intros a s _ [_ ->].
Qed.

#[local] Hint Resolve yields_tag : yields.

Lemma yields_log_record : yields (read_log_record dict) (fun l s => log_ok l = true /\ log_cost l <= s).
Proof.
  eapply yields_bind.
  - apply (yields_for_each_field _ log_vars_ok _ 0); [|done|done].
    intros tag [[[[[[msg sev] fmt] tr] name] obs] drop] s _ Hs [Hok Hc]. split_bools.
    unfold visit_log_record.
    assert (0 <= option_cost value_cost msg) by (destruct msg; simpl; [apply value_cost_nonneg|done]).
    yields_arm; unfold log_vars_ok; cbn [option_ok option_cost] in *; solve_ok; (split; [done|lia]).
  - intros [[[[[[msg sev] fmt] tr] name] obs] drop] s _ [Hok Hc]. unfold finish_log_record.
    destruct msg as [msg|]; [|apply yields_fail]. apply yields_ret. unfold log_ok, log_cost.
    cbn [lr_message lr_trace lr_event_name lr_observed_timestamp lr_dropped_attributes_count option_cost] in *.
    split; [done|lia].
Qed.
End Yields.

#[export] Hint Resolve yields_metric_record yields_log_record yields_tag : yields.

(** ** Within one process *)

Lemma default_value_id v : metric_value_ok v = true ->
  match v with MvF64 x => negb (x =? NEG_ZERO) | _ => true end = true -> default_value v = v.
Proof.
  unfold default_value. destruct v as [x|x|x|b]; [|done..]. simpl. intros Hx Hn.
  apply unsigned_ok_spec in Hx. destruct (f64_eqb x 0) eqn:E; [|done].
  unfold f64_eqb in E. apply andb_true_iff in E as [_ E]. apply orb_true_iff in E as [E|E].
  { apply Z.eqb_eq in E. by subst. }
  apply andb_true_iff in E as [E _]. unfold f64_is_zero in E. apply Z.eqb_eq in E.
  apply negb_true_iff, Z.eqb_neq in Hn. unfold NEG_ZERO in Hn.
  change 0x7fffffffffffffff with (Z.ones 63) in E. rewrite Z.land_ones in E by lia.
  apply Z.mod_divide in E; [|lia]. destruct E as [k Hk]. unfold unsigned in Hx.
  assert (k = 0 \/ k = 1) as [-> | ->] by lia; [by rewrite Hk|lia].
Qed.

Lemma option_translate_id (I : Interner) o :
  option_ok live_sym o = true -> translate I I <$> o = o.
Proof.
  destruct o as [s|]; [|done]. simpl. intros Hs. f_equal. by apply translate_live, live_sym_spec.
Qed.

Lemma attrs_wire_id (I : Interner) m : attrs_wire_ok m = true -> translate_attrs I I m = m.
Proof. intros Hm. apply andb_true_iff in Hm as [Hm _]. by apply translate_attrs_id. Qed.

Lemma value_wire_id (I : Interner) v : value_wire_ok v = true -> translate_value I I v = v.
Proof. intros Hv. apply andb_true_iff in Hv as [Hv _]. by apply translate_value_id. Qed.

Lemma translate_exemplar_id (I : Interner) e :
  exemplar_ok e = true -> exemplar_exact e = true -> translate_exemplar I I e = e.
Proof.
  destruct e as [ts v tr m]. unfold exemplar_ok, translate_exemplar.
  cbn [ex_timestamp ex_value ex_trace ex_filtered_attributes]. intros Hok Hex. split_bools.
  by rewrite default_value_id, attrs_wire_id.
Qed.

Lemma translate_metric_id (I : Interner) `{Summaries} m :
  metric_ok m = true -> metric_exact m = true -> translate_metric I I m = m.
Proof.
  destruct m as [name unit desc ts exs flags kind]. unfold metric_ok, metric_exact, translate_metric.
  cbn [mr_name mr_unit mr_description mr_start_timestamp mr_exemplars mr_flags mr_kind].
  intros Hok Hex. split_ok. rewrite translate_live by by apply live_sym_spec.
  rewrite !option_translate_id by done. f_equal. apply map_id_Forall, Forall_forall. intros e He.
  rewrite Forall_forall in *. apply translate_exemplar_id; auto.
Qed.

Lemma translate_log_id (I : Interner) l : log_ok l = true -> translate_log I I l = l.
Proof.
  destruct l as [msg sev fmt tr name obs drop]. unfold log_ok, translate_log.
  cbn [lr_message lr_severity lr_body_format lr_trace lr_event_name lr_observed_timestamp
    lr_dropped_attributes_count].
  intros Hok. split_bools. by rewrite value_wire_id, option_translate_id.
Qed.

(** An exemplar whose value is negative zero is written without its value, because the comparison
    with the default is the floats' [==], and is read back as positive zero: the one exemplar value the
    wire does not keep. *)
Theorem negative_zero_exemplar_loses_its_sign (I : Interner) (d : DictBuilder) (dict : Dict) (b : DecodeBudget) :
  let exemplar := mkExemplar 0 (MvF64 NEG_ZERO) None [] in
  fst (read_exemplar dict (fst (write_exemplar exemplar d)) b) = Ok (mkExemplar 0 (MvF64 0) None [], []).
Proof. done. Qed.
