(* ===== verification/SpanCodec.v ===== *)
(** * Span records on the wire

    crates/logit-proto/src/native/record.rs: span events, span links, the optional extension block,
    and the span record that holds them. *)

From S2P Require Import Prelude Codec Budget Reader Varint Utf8 Model AttrMap Wire Account Dict Tlv ValueCodec.
From S2P Require Import MetricKindCodec Fields RecordCodec.

Definition span_kind_tag (k : SpanKind) : Z :=
  match k with
  | SpanInternal => 0
  | SpanServer => 1
  | SpanClient => 2
  | SpanProducer => 3
  | SpanConsumer => 4
  end.

Definition span_kind_from_tag (tag : Z) : result SpanKind :=
  match tag with
  | 0 => Ok SpanInternal
  | 1 => Ok SpanServer
  | 2 => Ok SpanClient
  | 3 => Ok SpanProducer
  | 4 => Ok SpanConsumer
  | _ => Err (Malformed "unknown span kind tag")
  end.

Definition span_status_tag (s : SpanStatus) : Z :=
  match s with
  | StatusUnset => 0
  | StatusOk => 1
  | StatusError => 2
  end.

Definition span_status_from_tag (tag : Z) : result SpanStatus :=
  match tag with
  | 0 => Ok StatusUnset
  | 1 => Ok StatusOk
  | 2 => Ok StatusError
  | _ => Err (Malformed "unknown span status tag")
  end.

(** ** Span events *)

Abbreviation SE_TIMESTAMP := 1%Z.
Abbreviation SE_NAME := 2%Z.
Abbreviation SE_ATTRIBUTES := 3%Z.
Abbreviation SE_DROPPED_ATTRIBUTES_COUNT := 4%Z.

Definition write_span_event (event : SpanEvent) : writer :=
  write_i64_field SE_TIMESTAMP (se_timestamp event) +++
  write_field SE_NAME (write_value (se_name event)) +++
  wwhen (nonempty (se_attributes event)) (write_field SE_ATTRIBUTES (write_attr_map (se_attributes event))) +++
  wwhen (negb (se_dropped_attributes_count event =? 0))
    (write_u32_field SE_DROPPED_ATTRIBUTES_COUNT (se_dropped_attributes_count event)).

Definition SpanEventVars : Type := Z * option Value * AttrMap * Z.

Definition visit_span_event (dict : Dict) (tag : Z) (st : SpanEventVars) : reader SpanEventVars :=
  let '(timestamp, name, attributes, dropped) := st in
  if tag =? SE_TIMESTAMP then let! t := read_exact_i64 in rret (t, name, attributes, dropped)
  else if tag =? SE_NAME then let! v := read_value dict in rret (timestamp, Some v, attributes, dropped)
  else if tag =? SE_ATTRIBUTES then let! m := read_attr_map dict in rret (timestamp, name, m, dropped)
  else if tag =? SE_DROPPED_ATTRIBUTES_COUNT then
    let! n := read_exact_u32 in rret (timestamp, name, attributes, n)
  else skip_field st.

Definition finish_span_event (st : SpanEventVars) : reader SpanEvent :=
  let '(timestamp, name, attributes, dropped) := st in
  match name with
  | None => rfail (Malformed "span event missing name")
  | Some name => rret (mkSpanEvent timestamp name attributes dropped)
  end.

Definition read_span_event (dict : Dict) : reader SpanEvent :=
  let! vars := for_each_field (visit_span_event dict) (0, None, [], 0) in
  finish_span_event vars.

(** ** Span links *)

Abbreviation SL_TRACE_ID := 1%Z.
Abbreviation SL_SPAN_ID := 2%Z.
Abbreviation SL_ATTRIBUTES := 3%Z.
Abbreviation SL_FLAGS := 4%Z.
Abbreviation SL_TRACE_STATE := 5%Z.
Abbreviation SL_DROPPED_ATTRIBUTES_COUNT := 6%Z.

Definition write_span_link (link : SpanLink) : writer :=
  write_scalar_field SL_TRACE_ID 16 (sl_trace_id link) +++
  write_scalar_field SL_SPAN_ID 8 (sl_span_id link) +++
  wwhen (nonempty (sl_attributes link)) (write_field SL_ATTRIBUTES (write_attr_map (sl_attributes link))) +++
  wwhen (negb (sl_flags link =? 0)) (write_u32_field SL_FLAGS (sl_flags link)) +++
  wopt (sl_trace_state link) (write_bytes_field SL_TRACE_STATE) +++
  wwhen (negb (sl_dropped_attributes_count link =? 0))
    (write_u32_field SL_DROPPED_ATTRIBUTES_COUNT (sl_dropped_attributes_count link)).

Definition SpanLinkVars : Type := option bytes * option bytes * AttrMap * Z * option bytes * Z.

Definition visit_span_link (dict : Dict) (tag : Z) (st : SpanLinkVars) : reader SpanLinkVars :=
  let '(trace_id, span_id, attributes, flags, trace_state, dropped) := st in
  if tag =? SL_TRACE_ID then
    let! id := take_exact 16 (Malformed "bad span link trace_id length") in
    rret (Some id, span_id, attributes, flags, trace_state, dropped)
  else if tag =? SL_SPAN_ID then
    let! id := take_exact 8 (Malformed "bad span link span_id length") in
    rret (trace_id, Some id, attributes, flags, trace_state, dropped)
  else if tag =? SL_ATTRIBUTES then
    let! m := read_attr_map dict in rret (trace_id, span_id, m, flags, trace_state, dropped)
  else if tag =? SL_FLAGS then
    let! f := read_exact_u32 in rret (trace_id, span_id, attributes, f, trace_state, dropped)
  else if tag =? SL_TRACE_STATE then
    let! s := take_all in rret (trace_id, span_id, attributes, flags, Some s, dropped)
  else if tag =? SL_DROPPED_ATTRIBUTES_COUNT then
    let! n := read_exact_u32 in rret (trace_id, span_id, attributes, flags, trace_state, n)
  else skip_field st.

Definition finish_span_link (st : SpanLinkVars) : reader SpanLink :=
  let '(trace_id, span_id, attributes, flags, trace_state, dropped) := st in
  match trace_id with
  | None => rfail (Malformed "span link missing trace_id")
  | Some trace_id =>
      match span_id with
      | None => rfail (Malformed "span link missing span_id")
      | Some span_id => rret (mkSpanLink trace_id span_id attributes flags trace_state dropped)
      end
  end.

Definition read_span_link (dict : Dict) : reader SpanLink :=
  let! vars := for_each_field (visit_span_link dict) (None, None, [], 0, None, 0) in
  finish_span_link vars.

(** ** The extension block *)

Abbreviation SX_STATUS_MESSAGE := 1%Z.
Abbreviation SX_TRACE_STATE := 2%Z.
Abbreviation SX_DROPPED_ATTRIBUTES_COUNT := 3%Z.
Abbreviation SX_DROPPED_EVENTS_COUNT := 4%Z.
Abbreviation SX_DROPPED_LINKS_COUNT := 5%Z.

Definition write_span_ext (ext : SpanExt) : writer :=
  wopt (sx_status_message ext) (write_bytes_field SX_STATUS_MESSAGE) +++
  wopt (sx_trace_state ext) (write_bytes_field SX_TRACE_STATE) +++
  wwhen (negb (sx_dropped_attributes_count ext =? 0))
    (write_u32_field SX_DROPPED_ATTRIBUTES_COUNT (sx_dropped_attributes_count ext)) +++
  wwhen (negb (sx_dropped_events_count ext =? 0))
    (write_u32_field SX_DROPPED_EVENTS_COUNT (sx_dropped_events_count ext)) +++
  wwhen (negb (sx_dropped_links_count ext =? 0))
    (write_u32_field SX_DROPPED_LINKS_COUNT (sx_dropped_links_count ext)).

(** [SpanExt::default()]. *)
Definition span_ext_default : SpanExt := mkSpanExt None None 0 0 0.

Definition visit_span_ext (tag : Z) (st : SpanExt) : reader SpanExt :=
  let '(mkSpanExt message trace_state attributes events links) := st in
  if tag =? SX_STATUS_MESSAGE then
    let! s := take_all in rret (mkSpanExt (Some s) trace_state attributes events links)
  else if tag =? SX_TRACE_STATE then
    let! s := take_all in rret (mkSpanExt message (Some s) attributes events links)
  else if tag =? SX_DROPPED_ATTRIBUTES_COUNT then
    let! n := read_exact_u32 in rret (mkSpanExt message trace_state n events links)
  else if tag =? SX_DROPPED_EVENTS_COUNT then
    let! n := read_exact_u32 in rret (mkSpanExt message trace_state attributes n links)
  else if tag =? SX_DROPPED_LINKS_COUNT then
    let! n := read_exact_u32 in rret (mkSpanExt message trace_state attributes events n)
  else skip_field st.

Definition read_span_ext : reader SpanExt :=
  for_each_field visit_span_ext span_ext_default.

(** ** Span records *)

Abbreviation SR_TRACE_ID := 1%Z.
Abbreviation SR_SPAN_ID := 2%Z.
Abbreviation SR_PARENT_SPAN_ID := 3%Z.
Abbreviation SR_NAME := 4%Z.
Abbreviation SR_KIND := 5%Z.
Abbreviation SR_STATUS := 6%Z.
Abbreviation SR_EVENTS := 7%Z.
Abbreviation SR_LINKS := 8%Z.
Abbreviation SR_END_TIMESTAMP := 9%Z.
Abbreviation SR_FLAGS := 10%Z.
Abbreviation SR_EXT := 11%Z.

(** [std::mem::size_of] of [SpanEvent] and [SpanLink]. *)
Definition size_of_SpanEvent : Z := 448.
Definition size_of_SpanLink : Z := 456.

Definition write_span_record (span : SpanRecord) : writer :=
  write_scalar_field SR_TRACE_ID 16 (sr_trace_id span) +++
  write_scalar_field SR_SPAN_ID 8 (sr_span_id span) +++
  wopt (sr_parent_span_id span) (fun parent => write_scalar_field SR_PARENT_SPAN_ID 8 parent) +++
  write_field SR_NAME (write_value (sr_name span)) +++
  wwhen (bool_decide (sr_kind span <> SpanInternal))
    (write_scalar_field SR_KIND 1 [z2b (span_kind_tag (sr_kind span))]) +++
  wwhen (bool_decide (sr_status span <> StatusUnset))
    (write_scalar_field SR_STATUS 1 [z2b (span_status_tag (sr_status span))]) +++
  wwhen (nonempty (sr_events span))
    (write_field SR_EVENTS (write_record_list (sr_events span) write_span_event)) +++
  wwhen (nonempty (sr_links span))
    (write_field SR_LINKS (write_record_list (sr_links span) write_span_link)) +++
  write_i64_field SR_END_TIMESTAMP (sr_end_timestamp span) +++
  wwhen (negb (sr_flags span =? 0)) (write_u32_field SR_FLAGS (sr_flags span)) +++
  wopt (sr_ext span) (fun ext => write_field SR_EXT (write_span_ext ext)).

Definition SpanVars : Type :=
  option bytes * option bytes * option bytes * option Value * SpanKind * SpanStatus *
  list SpanEvent * list SpanLink * Z * Z * option SpanExt.

Definition visit_span_record (dict : Dict) (tag : Z) (st : SpanVars) : reader SpanVars :=
  let '(trace_id, span_id, parent, name, kind, status, events, links, end_timestamp, flags, ext) := st in
  if tag =? SR_TRACE_ID then
    let! id := take_exact 16 (Malformed "bad span record trace_id length") in
    rret (Some id, span_id, parent, name, kind, status, events, links, end_timestamp, flags, ext)
  else if tag =? SR_SPAN_ID then
    let! id := take_exact 8 (Malformed "bad span record span_id length") in
    rret (trace_id, Some id, parent, name, kind, status, events, links, end_timestamp, flags, ext)
  else if tag =? SR_PARENT_SPAN_ID then
    let! id := take_exact 8 (Malformed "bad span record parent_span_id length") in
    rret (trace_id, span_id, Some id, name, kind, status, events, links, end_timestamp, flags, ext)
  else if tag =? SR_NAME then
    let! v := read_value dict in
    rret (trace_id, span_id, parent, Some v, kind, status, events, links, end_timestamp, flags, ext)
  else if tag =? SR_KIND then
    let! k := (let! t := read_u8 in rlift (span_kind_from_tag t)) in
    rret (trace_id, span_id, parent, name, k, status, events, links, end_timestamp, flags, ext)
  else if tag =? SR_STATUS then
    let! s := (let! t := read_u8 in rlift (span_status_from_tag t)) in
    rret (trace_id, span_id, parent, name, kind, s, events, links, end_timestamp, flags, ext)
  else if tag =? SR_EVENTS then
    let! l := read_record_list size_of_SpanEvent (read_span_event dict) in
    rret (trace_id, span_id, parent, name, kind, status, l, links, end_timestamp, flags, ext)
  else if tag =? SR_LINKS then
    let! l := read_record_list size_of_SpanLink (read_span_link dict) in
    rret (trace_id, span_id, parent, name, kind, status, events, l, end_timestamp, flags, ext)
  else if tag =? SR_END_TIMESTAMP then
    let! t := read_exact_i64 in
    rret (trace_id, span_id, parent, name, kind, status, events, links, t, flags, ext)
  else if tag =? SR_FLAGS then
    let! f := read_exact_u32 in
    rret (trace_id, span_id, parent, name, kind, status, events, links, end_timestamp, f, ext)
  else if tag =? SR_EXT then
    let! x := read_span_ext in
    rret (trace_id, span_id, parent, name, kind, status, events, links, end_timestamp, flags, Some x)
  else skip_field st.

Definition finish_span_record (st : SpanVars) : reader SpanRecord :=
  let '(trace_id, span_id, parent, name, kind, status, events, links, end_timestamp, flags, ext) := st in
  match trace_id with
  | None => rfail (Malformed "span record missing trace_id")
  | Some trace_id =>
      match span_id with
      | None => rfail (Malformed "span record missing span_id")
      | Some span_id =>
          match name with
          | None => rfail (Malformed "span record missing name")
          | Some name =>
              rret (mkSpanRecord trace_id span_id parent name kind status events links
                end_timestamp flags ext)
          end
      end
  end.

Definition read_span_record (dict : Dict) : reader SpanRecord :=
  let! vars := for_each_field (visit_span_record dict)
    (None, None, None, None, SpanInternal, StatusUnset, [], [], 0, 0, None) in
  finish_span_record vars.

(** ** Well-formedness, cost and translation *)

Definition id_ok (n : Z) (id : bytes) : bool := blen id =? n.

Definition span_event_ok `{Interner} (e : SpanEvent) : bool :=
  signed_ok 64 (se_timestamp e) && value_wire_ok (se_name e) && attrs_wire_ok (se_attributes e) &&
  unsigned_ok 32 (se_dropped_attributes_count e).

Definition span_event_cost (e : SpanEvent) : Z := value_cost (se_name e) + attrs_cost (se_attributes e).

Definition translate_span_event (I1 I2 : Interner) (e : SpanEvent) : SpanEvent :=
  mkSpanEvent (se_timestamp e) (translate_value I1 I2 (se_name e))
    (translate_attrs I1 I2 (se_attributes e)) (se_dropped_attributes_count e).

Definition span_link_ok `{Interner} (l : SpanLink) : bool :=
  id_ok 16 (sl_trace_id l) && id_ok 8 (sl_span_id l) && attrs_wire_ok (sl_attributes l) &&
  unsigned_ok 32 (sl_flags l) && unsigned_ok 32 (sl_dropped_attributes_count l).

Definition span_link_cost (l : SpanLink) : Z := attrs_cost (sl_attributes l).

Definition translate_span_link (I1 I2 : Interner) (l : SpanLink) : SpanLink :=
  mkSpanLink (sl_trace_id l) (sl_span_id l) (translate_attrs I1 I2 (sl_attributes l)) (sl_flags l)
    (sl_trace_state l) (sl_dropped_attributes_count l).

Definition span_ext_ok (x : SpanExt) : bool :=
  unsigned_ok 32 (sx_dropped_attributes_count x) && unsigned_ok 32 (sx_dropped_events_count x) &&
  unsigned_ok 32 (sx_dropped_links_count x).

Definition span_ok `{Interner} (s : SpanRecord) : bool :=
  id_ok 16 (sr_trace_id s) && id_ok 8 (sr_span_id s) && option_ok (id_ok 8) (sr_parent_span_id s) &&
  value_wire_ok (sr_name s) && forallb span_event_ok (sr_events s) && forallb span_link_ok (sr_links s) &&
  signed_ok 64 (sr_end_timestamp s) && unsigned_ok 32 (sr_flags s) && option_ok span_ext_ok (sr_ext s).

Definition span_events_cost (l : list SpanEvent) : Z :=
  Z.of_nat (length l) * size_of_SpanEvent + total span_event_cost l.

Definition span_links_cost (l : list SpanLink) : Z :=
  Z.of_nat (length l) * size_of_SpanLink + total span_link_cost l.

Definition span_cost (s : SpanRecord) : Z :=
  value_cost (sr_name s) + span_events_cost (sr_events s) + span_links_cost (sr_links s).

Definition translate_span (I1 I2 : Interner) (s : SpanRecord) : SpanRecord :=
  mkSpanRecord (sr_trace_id s) (sr_span_id s) (sr_parent_span_id s) (translate_value I1 I2 (sr_name s))
    (sr_kind s) (sr_status s) (map (translate_span_event I1 I2) (sr_events s))
    (map (translate_span_link I1 I2) (sr_links s)) (sr_end_timestamp s) (sr_flags s) (sr_ext s).

(** ** Round trip *)

Lemma reads_span_kind k :
  reads_all (let! t := read_u8 in rlift (span_kind_from_tag t)) [z2b (span_kind_tag k)] k 0.
Proof.
  eapply reads_all_bind_r; [apply reads_back_all, reads_u8; by destruct k|].
  destruct k; apply reads_back_all, reads_back_ret.
Qed.

Lemma reads_span_status s :
  reads_all (let! t := read_u8 in rlift (span_status_from_tag t)) [z2b (span_status_tag s)] s 0.
Proof.
  eapply reads_all_bind_r; [apply reads_back_all, reads_u8; by destruct s|].
  destruct s; apply reads_back_all, reads_back_ret.
Qed.

Section RoundTrip.
Context (I1 I2 : Interner).

(** An identifier of fixed length. *)
Lemma wfields_id {St} (visit : Dict -> Z -> St -> reader St) tag n id e st (f : bytes -> St) :
  u8 tag -> id_ok n id = true ->
  (forall dict, visit dict tag st = (let! x := take_exact n e in rret (f x))) ->
  wfields I1 I2 visit (write_scalar_field tag n id) st (f id) 0.
Proof.
  intros Ht Hid E. apply Z.eqb_eq in Hid.
  eapply wfields_scalar_map; [done|done|exact E|by apply reads_take_exact].
Qed.

Lemma wreads_span_event e :
  @span_event_ok I1 e = true ->
  wreads_all I1 I2 read_span_event (write_span_event e) (translate_span_event I1 I2 e) (span_event_cost e).
Proof.
  destruct e as [ts name m n]. unfold span_event_ok, write_span_event.
  cbn [se_timestamp se_name se_attributes se_dropped_attributes_count]. intros Hok. split_bools.
  eapply (wreads_fields I1 I2 visit_span_event finish_span_event _ _
    (ts, Some (translate_value I1 I2 name), translate_attrs I1 I2 m, n)); [|apply reads_back_ret].
  eapply wfields_eq.
  - eapply wfields_app; [reflexivity|eapply wfields_i64; [done|done|visit_at]|].
    eapply wfields_app; [reflexivity|eapply wfields_value; [done|done|visit_at]|].
    eapply wfields_app; [reflexivity|eapply wfields_attrs; [done|done|visit_at|reflexivity]|].
    eapply wfields_u32_nz; [done|done|visit_at|reflexivity].
  - reflexivity.
  - unfold span_event_cost. simpl. lia.
Qed.

Lemma wreads_span_link l :
  @span_link_ok I1 l = true ->
  wreads_all I1 I2 read_span_link (write_span_link l) (translate_span_link I1 I2 l) (span_link_cost l).
Proof.
  destruct l as [tid sid m flags ts n]. unfold span_link_ok, write_span_link.
  cbn [sl_trace_id sl_span_id sl_attributes sl_flags sl_trace_state sl_dropped_attributes_count].
  intros Hok. split_bools.
  eapply (wreads_fields I1 I2 visit_span_link finish_span_link _ _
    (Some tid, Some sid, translate_attrs I1 I2 m, flags, ts, n)); [|apply reads_back_ret].
  eapply wfields_eq.
  - eapply wfields_app; [reflexivity|eapply wfields_id; [done|done|visit_at]|].
    eapply wfields_app; [reflexivity|eapply wfields_id; [done|done|visit_at]|].
    eapply wfields_app; [reflexivity|eapply wfields_attrs; [done|done|visit_at|reflexivity]|].
    eapply wfields_app; [reflexivity|eapply wfields_u32_nz; [done|done|visit_at|reflexivity]|].
    eapply wfields_app; [reflexivity| |].
    { apply (wfields_bytes_opt I1 I2 _ SL_TRACE_STATE ts
        (fun o => (Some tid, Some sid, translate_attrs I1 I2 m, flags, o, 0))); [done|visit_at]. }
    eapply wfields_u32_nz; [done|done|visit_at|reflexivity].
  - reflexivity.
  - unfold span_link_cost. simpl. lia.
Qed.

Lemma wreads_span_ext x :
  span_ext_ok x = true ->
  wreads_all I1 I2 (fun _ => read_span_ext) (write_span_ext x) x 0.
Proof.
  destruct x as [msg ts a e l]. unfold span_ext_ok, write_span_ext.
  cbn [sx_status_message sx_trace_state sx_dropped_attributes_count sx_dropped_events_count
    sx_dropped_links_count]. intros Hok. split_bools.
  apply (wfields_all I1 I2 (fun _ => visit_span_ext)). eapply wfields_eq.
  - eapply wfields_app; [reflexivity| |].
    { apply (wfields_bytes_opt I1 I2 _ SX_STATUS_MESSAGE msg (fun o => mkSpanExt o None 0 0 0));
        [done|visit_at]. }
    eapply wfields_app; [reflexivity| |].
    { apply (wfields_bytes_opt I1 I2 _ SX_TRACE_STATE ts (fun o => mkSpanExt msg o 0 0 0));
        [done|visit_at]. }
    eapply wfields_app; [reflexivity|eapply wfields_u32_nz; [done|done|visit_at|reflexivity]|].
    eapply wfields_app; [reflexivity|eapply wfields_u32_nz; [done|done|visit_at|reflexivity]|].
    eapply wfields_u32_nz; [done|done|visit_at|reflexivity].
  - reflexivity.
  - reflexivity.
Qed.

(** A one-byte enumeration skipped at its default. *)
Lemma wfields_enum {St A} `{EqDecision A} (visit : Dict -> Z -> St -> reader St) tag (dflt a : A)
    (to_tag : A -> Z) (from : Z -> result A) st (f : A -> St) :
  u8 tag -> (forall x, reads_all (let! t := read_u8 in rlift (from t)) [z2b (to_tag x)] x 0) ->
  (forall dict, visit dict tag st = (let! x := (let! t := read_u8 in rlift (from t)) in rret (f x))) ->
  st = f dflt ->
  wfields I1 I2 visit (wwhen (bool_decide (a <> dflt)) (write_scalar_field tag 1 [z2b (to_tag a)])) st (f a) 0.
Proof.
  intros Ht Hr E Hst. apply wfields_when.
  - intros _. eapply wfields_scalar_map; [done|done|exact E|apply Hr].
  - intros Hf. apply bool_decide_eq_false, dec_stable in Hf as ->. done.
Qed.

Lemma wreads_span_record s :
  @span_ok I1 s = true ->
  wreads_all I1 I2 read_span_record (write_span_record s) (translate_span I1 I2 s) (span_cost s).
Proof.
  destruct s as [tid sid parent name kind status events links ts flags ext].
  unfold span_ok, write_span_record.
  cbn [sr_trace_id sr_span_id sr_parent_span_id sr_name sr_kind sr_status sr_events sr_links
    sr_end_timestamp sr_flags sr_ext]. intros Hok. split_ok.
  set (v := translate_value I1 I2 name). set (es := map (translate_span_event I1 I2) events).
  set (ls := map (translate_span_link I1 I2) links).
  assert (forall p, parent = Some p -> blen p = 8) as Hp by (intros p ->; by apply Z.eqb_eq).
  eapply (wreads_fields I1 I2 visit_span_record finish_span_record _ _
    (Some tid, Some sid, parent, Some v, kind, status, es, ls, ts, flags, ext)); [|apply reads_back_ret].
  eapply wfields_eq.
  - eapply wfields_app; [reflexivity|eapply wfields_id; [done|done|visit_at]|].
    eapply wfields_app; [reflexivity|eapply wfields_id; [done|done|visit_at]|].
    eapply wfields_app; [reflexivity| |].
    { eapply (wfields_scalar_opt I1 I2 _ SR_PARENT_SPAN_ID 8 id _ parent
        (fun o => (Some tid, Some sid, o, None, SpanInternal, StatusUnset, [], [], 0, 0, None)));
        [done|intros p Hs; symmetry; by apply Hp|intros p Hs; by apply reads_take_exact, Hp|visit_at]. }
    eapply wfields_app; [reflexivity|eapply wfields_value; [done|done|visit_at]|].
    eapply wfields_app; [reflexivity|eapply wfields_enum; [done|apply reads_span_kind|visit_at|reflexivity]|].
    eapply wfields_app; [reflexivity|eapply wfields_enum; [done|apply reads_span_status|visit_at|reflexivity]|].
    eapply wfields_app; [reflexivity| |].
    { eapply (wfields_list I1 I2 _ _ size_of_SpanEvent read_span_event _ (translate_span_event I1 I2));
        [done|by compute| |visit_at|reflexivity].
      eapply Forall_impl; [eassumption|]. apply wreads_span_event. }
    eapply wfields_app; [reflexivity| |].
    { eapply (wfields_list I1 I2 _ _ size_of_SpanLink read_span_link _ (translate_span_link I1 I2));
        [done|by compute| |visit_at|reflexivity].
      eapply Forall_impl; [eassumption|]. apply wreads_span_link. }
    eapply wfields_app; [reflexivity|eapply wfields_i64; [done|done|visit_at]|].
    eapply wfields_app; [reflexivity|eapply wfields_u32_nz; [done|done|visit_at|reflexivity]|].
    apply (wfields_field_opt I1 I2 _ SR_EXT (fun _ => read_span_ext) _ id (fun _ => 0) ext
      (fun o => (Some tid, Some sid, parent, Some v, kind, status, es, ls, ts, flags, o)));
      [done| |visit_at].
    intros x ->. by apply wreads_span_ext.
  - by rewrite option_fmap_id.
  - unfold span_cost, span_events_cost, span_links_cost. destruct ext; simpl; lia.
Qed.
End RoundTrip.

(** ** On any input *)

Lemma budget_safe_span_event dict : budget_safe (read_span_event dict).
Proof.
  apply budget_safe_bind'.
  - apply budget_safe_for_each_field. intros tag st. unfold visit_span_event. visitor_safe.
  - intros [[[? ?] ?] ?]. unfold finish_span_event. case_match; auto with reader.
Qed.

Lemma budget_safe_span_link dict : budget_safe (read_span_link dict).
Proof.
  apply budget_safe_bind'.
  - apply budget_safe_for_each_field. intros tag st. unfold visit_span_link. visitor_safe.
  - intros [[[[[? ?] ?] ?] ?] ?]. unfold finish_span_link. repeat case_match; auto with reader.
Qed.

Lemma budget_safe_span_ext : budget_safe read_span_ext.
Proof. apply budget_safe_for_each_field. intros tag st. unfold visit_span_ext. visitor_safe. Qed.

#[export] Hint Resolve budget_safe_span_event budget_safe_span_link budget_safe_span_ext : reader.

Lemma budget_safe_span_record dict : budget_safe (read_span_record dict).
Proof.
  apply budget_safe_bind'.
  - apply budget_safe_for_each_field. intros tag st. unfold visit_span_record. visitor_safe.
    + apply budget_safe_bind'; auto with reader.
    + apply budget_safe_bind'; auto with reader.
    + apply budget_safe_record_list; [by compute|auto with reader].
    + apply budget_safe_record_list; [by compute|auto with reader].
  - intros [[[[[[[[[[? ?] ?] ?] ?] ?] ?] ?] ?] ?] ?]. unfold finish_span_record.
    repeat case_match; auto with reader.
Qed.

#[export] Hint Resolve budget_safe_span_record : reader.

(** ** Accounting *)

Lemma yields_id n e : 0 <= n -> yields (take_exact n e) (fun p s => id_ok n p = true /\ s = 0).
Proof.
  intros Hn. eapply yields_mono; [by apply yields_take_exact|]. intros p s _ [Hp ->].
  split; [by apply Z.eqb_eq|done].
Qed.

Lemma yields_span_ext : yields read_span_ext (fun x s => span_ext_ok x = true /\ s = 0).
Proof.
  assert (yields read_span_ext (fun x s => span_ext_ok x = true /\ 0 + s = 0)) as Hy.
  { apply (yields_for_each_field _ (fun x s => span_ext_ok x = true /\ s = 0) _ 0); [|done|done].
    intros tag [msg ts a e l] s _ Hs [Hok ->]. unfold span_ext_ok in Hok.
    cbn [sx_dropped_attributes_count sx_dropped_events_count sx_dropped_links_count] in Hok.
    split_bools. unfold visit_span_ext.
    yields_arm; unfold span_ext_ok;
      cbn [sx_dropped_attributes_count sx_dropped_events_count sx_dropped_links_count]; solve_ok. }
  exact Hy.
Qed.

#[export] Hint Resolve yields_span_ext : yields.
#[export] Hint Extern 1 (yields (take_exact _ _) _) => (apply yields_id; lia) : yields.

Section Yields.
Context `{Interner} (dict : Dict) (Hdict : Forall live dict).
#[local] Set Default Proof Using "Type*".

Definition span_event_vars_ok (st : SpanEventVars) (s : Z) : Prop :=
  let '(ts, name, m, n) := st in
  signed_ok 64 ts && option_ok value_wire_ok name && attrs_wire_ok m && unsigned_ok 32 n = true /\
  option_cost value_cost name + attrs_cost m <= s.

Lemma yields_span_event :
  yields (read_span_event dict) (fun e s => span_event_ok e = true /\ span_event_cost e <= s).
Proof.
  eapply yields_bind.
  - apply (yields_for_each_field _ span_event_vars_ok _ 0); [|done|done].
    intros tag [[[ts name] m] n] s _ Hs [Hok Hc]. split_bools. unfold visit_span_event.
    pose proof (attrs_cost_nonneg m).
    assert (0 <= option_cost value_cost name) by (destruct name; simpl; [apply value_cost_nonneg|done]).
    yields_arm; unfold span_event_vars_ok; cbn [option_ok option_cost] in *; solve_ok; (split; [done|lia]).
  - intros [[[ts name] m] n] s _ [Hok Hc]. unfold finish_span_event.
    destruct name as [name|]; [|apply yields_fail]. apply yields_ret.
    unfold span_event_ok, span_event_cost.
    cbn [se_timestamp se_name se_attributes se_dropped_attributes_count option_cost] in *. split; [done|lia].
Qed.

Definition span_link_vars_ok (st : SpanLinkVars) (s : Z) : Prop :=
  let '(tid, sid, m, flags, ts, n) := st in
  option_ok (id_ok 16) tid && option_ok (id_ok 8) sid && attrs_wire_ok m && unsigned_ok 32 flags &&
  unsigned_ok 32 n = true /\ attrs_cost m <= s.

Lemma yields_span_link :
  yields (read_span_link dict) (fun l s => span_link_ok l = true /\ span_link_cost l <= s).
Proof.
  eapply yields_bind.
  - apply (yields_for_each_field _ span_link_vars_ok _ 0); [|done|done].
    intros tag [[[[[tid sid] m] flags] ts] n] s _ Hs [Hok Hc]. split_bools. unfold visit_span_link.
    pose proof (attrs_cost_nonneg m).
    yields_arm; unfold span_link_vars_ok; cbn [option_ok] in *; solve_ok; (split; [done|lia]).
  - intros [[[[[tid sid] m] flags] ts] n] s _ [Hok Hc]. unfold finish_span_link.
    destruct tid as [tid|]; [|apply yields_fail]. destruct sid as [sid|]; [|apply yields_fail].
    apply yields_ret. unfold span_link_ok, span_link_cost.
    cbn [sl_trace_id sl_span_id sl_attributes sl_flags sl_dropped_attributes_count]. split; [done|lia].
Qed.

Lemma span_events_cost_nonneg l : 0 <= span_events_cost l.
Proof.
  assert (0 <= total span_event_cost l).
  { apply total_nonneg. intros e. unfold span_event_cost.
    pose proof (value_cost_nonneg (se_name e)). pose proof (attrs_cost_nonneg (se_attributes e)). lia. }
  unfold span_events_cost, size_of_SpanEvent. lia.
Qed.

Lemma span_links_cost_nonneg l : 0 <= span_links_cost l.
Proof.
  assert (0 <= total span_link_cost l) by (apply total_nonneg; intros e; apply attrs_cost_nonneg).
  unfold span_links_cost, size_of_SpanLink. lia.
Qed.

Lemma yields_span_events :
  yields (read_record_list size_of_SpanEvent (read_span_event dict))
    (fun l s => forallb span_event_ok l = true /\ span_events_cost l <= s).
Proof.
  eapply yields_mono; [apply (yields_record_list _ _ (fun e => span_event_ok e = true) span_event_cost)|].
  - by compute.
  - apply yields_span_event.
  - intros l s _ [HF Hc]. split; [by apply forallb_Forall|done].
Qed.

Lemma yields_span_links :
  yields (read_record_list size_of_SpanLink (read_span_link dict))
    (fun l s => forallb span_link_ok l = true /\ span_links_cost l <= s).
Proof.
  eapply yields_mono; [apply (yields_record_list _ _ (fun e => span_link_ok e = true) span_link_cost)|].
  - by compute.
  - apply yields_span_link.
  - intros l s _ [HF Hc]. split; [by apply forallb_Forall|done].
Qed.

#[local] Hint Resolve yields_span_events yields_span_links : yields.

Definition span_vars_ok (st : SpanVars) (s : Z) : Prop :=
  let '(tid, sid, parent, name, kind, status, events, links, ts, flags, ext) := st in
  option_ok (id_ok 16) tid && option_ok (id_ok 8) sid && option_ok (id_ok 8) parent &&
  option_ok value_wire_ok name && forallb span_event_ok events && forallb span_link_ok links &&
  signed_ok 64 ts && unsigned_ok 32 flags && option_ok span_ext_ok ext = true /\
  option_cost value_cost name + span_events_cost events + span_links_cost links <= s.

Lemma yields_span_record :
  yields (read_span_record dict) (fun r s => span_ok r = true /\ span_cost r <= s).
Proof.
  eapply yields_bind.
  - apply (yields_for_each_field _ span_vars_ok _ 0); [|done|done].
    intros tag [[[[[[[[[[tid sid] parent] name] kind] status] events] links] ts] flags] ext] s _ Hs [Hok Hc].
    split_bools. unfold visit_span_record.
    pose proof (span_events_cost_nonneg events). pose proof (span_links_cost_nonneg links).
    assert (0 <= option_cost value_cost name) by (destruct name; simpl; [apply value_cost_nonneg|done]).
    yields_arm; unfold span_vars_ok; cbn [option_ok option_cost] in *; solve_ok; (split; [done|lia]).
  - intros [[[[[[[[[[tid sid] parent] name] kind] status] events] links] ts] flags] ext] s _ [Hok Hc].
    unfold finish_span_record.
    destruct tid as [tid|]; [|apply yields_fail]. destruct sid as [sid|]; [|apply yields_fail].
    destruct name as [name|]; [|apply yields_fail].
    apply yields_ret. unfold span_ok, span_cost.
    cbn [sr_trace_id sr_span_id sr_parent_span_id sr_name sr_events sr_links sr_end_timestamp sr_flags
      sr_ext option_cost] in *. split; [done|lia].
Qed.
End Yields.

#[export] Hint Resolve yields_span_record : yields.

(** ** Within one process *)

Lemma translate_span_event_id (I : Interner) e :
  span_event_ok e = true -> translate_span_event I I e = e.
Proof.
  destruct e as [ts name m n]. unfold span_event_ok, translate_span_event.
  cbn [se_timestamp se_name se_attributes se_dropped_attributes_count]. intros Hok. split_bools.
  by rewrite value_wire_id, attrs_wire_id.
Qed.

Lemma translate_span_link_id (I : Interner) l :
  span_link_ok l = true -> translate_span_link I I l = l.
Proof.
  destruct l as [tid sid m flags ts n]. unfold span_link_ok, translate_span_link.
  cbn [sl_trace_id sl_span_id sl_attributes sl_flags sl_trace_state sl_dropped_attributes_count].
  intros Hok. split_bools. by rewrite attrs_wire_id.
Qed.

Lemma translate_span_id (I : Interner) s : span_ok s = true -> translate_span I I s = s.
Proof.
  destruct s as [tid sid parent name kind status events links ts flags ext].
  unfold span_ok, translate_span.
  cbn [sr_trace_id sr_span_id sr_parent_span_id sr_name sr_kind sr_status sr_events sr_links
    sr_end_timestamp sr_flags sr_ext]. intros Hok. split_ok.
  rewrite value_wire_id by done. f_equal; apply map_id_Forall.
  - eapply Forall_impl; [eassumption|]. apply translate_span_event_id.
  - eapply Forall_impl; [eassumption|]. apply translate_span_link_id.
Qed.
