(* ===== verification/EventCodec.v ===== *)
(** * Events, resources and scopes on the wire

    crates/logit-proto/src/native/record.rs: [write_event]/[read_event], [write_resource]/
    [read_resource] and [write_scope]/[read_scope]. *)

From S2P Require Import Prelude Codec Budget Reader Varint Utf8 Model AttrMap Wire Account Dict Tlv ValueCodec.
From S2P Require Import MetricKindCodec Fields RecordCodec SpanCodec.

Abbreviation FIELD_TIMESTAMP := 1%Z.
Abbreviation FIELD_ATTRIBUTES := 2%Z.
Abbreviation FIELD_LOG := 3%Z.
Abbreviation FIELD_METRICS := 4%Z.
Abbreviation FIELD_SPAN := 5%Z.

(** Whether a top-level attribute stays under an omitted key prefix. *)
Definition kept `{Interner} (prefix : bytes) (kv : Symbol * Value) : bool :=
  negb (starts_with (resolve kv.1) prefix).

Definition write_event_omitting `{Interner} `{Summaries} (event : Event) (omit : option bytes) : writer :=
  write_field FIELD_TIMESTAMP (wbytes (write_ivarint (ev_timestamp event))) +++
  match omit with
  | None =>
      wwhen (nonempty (ev_attributes event))
        (write_field FIELD_ATTRIBUTES (write_attr_map (ev_attributes event)))
  | Some prefix =>
      wwhen (existsb (kept prefix) (ev_attributes event))
        (write_field FIELD_ATTRIBUTES (write_attr_map_omitting (ev_attributes event) prefix))
  end +++
  wopt (ev_log event) (fun log => write_field FIELD_LOG (write_log_record log)) +++
  wwhen (nonempty (ev_metrics event))
    (write_field FIELD_METRICS (write_record_list (ev_metrics event) write_metric_record)) +++
  wopt (ev_span event) (fun span => write_field FIELD_SPAN (write_span_record span)).

Definition write_event `{Interner} `{Summaries} (event : Event) : writer :=
  write_event_omitting event None.

Definition EventVars `{Summaries} : Type :=
  Z * AttrMap * option LogRecord * list MetricRecord * option SpanRecord.

Definition visit_event `{Summaries} (dict : Dict) (tag : Z) (st : EventVars) : reader EventVars :=
  let '(timestamp, attributes, log, metrics, span) := st in
  if tag =? FIELD_TIMESTAMP then
    let! t := read_ivarint in rret (t, attributes, log, metrics, span)
  else if tag =? FIELD_ATTRIBUTES then
    let! m := read_attr_map dict in rret (timestamp, m, log, metrics, span)
  else if tag =? FIELD_LOG then
    let! l := read_log_record dict in rret (timestamp, attributes, Some l, metrics, span)
  else if tag =? FIELD_METRICS then
    let! ms := read_record_list_into size_of_MetricRecord (read_metric_record dict) metrics in
    rret (timestamp, attributes, log, ms, span)
  else if tag =? FIELD_SPAN then
    let! s := read_span_record dict in rret (timestamp, attributes, log, metrics, Some s)
  else skip_field st.

Definition finish_event `{Summaries} (st : EventVars) : reader Event :=
  let '(timestamp, attributes, log, metrics, span) := st in
  rret (mkEvent timestamp attributes log metrics span).

Definition read_event `{Summaries} (dict : Dict) : reader Event :=
  let! vars := for_each_field (visit_event dict) (0, [], None, [], None) in
  finish_event vars.

(** ** Resources *)

Abbreviation RES_ATTRIBUTES := 1%Z.
Abbreviation RES_DROPPED_ATTRIBUTES_COUNT := 2%Z.
Abbreviation RES_SCHEMA_URL := 3%Z.

Definition write_resource (resource : Resource) : writer :=
  wwhen (nonempty (res_attributes resource))
    (write_field RES_ATTRIBUTES (write_attr_map (res_attributes resource))) +++
  wwhen (negb (res_dropped_attributes_count resource =? 0))
    (write_u32_field RES_DROPPED_ATTRIBUTES_COUNT (res_dropped_attributes_count resource)) +++
  wopt (res_schema_url resource) (write_bytes_field RES_SCHEMA_URL).

Definition ResourceVars : Type := AttrMap * Z * option bytes.

Definition visit_resource (dict : Dict) (tag : Z) (st : ResourceVars) : reader ResourceVars :=
  let '(attributes, dropped, schema_url) := st in
  if tag =? RES_ATTRIBUTES then let! m := read_attr_map dict in rret (m, dropped, schema_url)
  else if tag =? RES_DROPPED_ATTRIBUTES_COUNT then
    let! n := read_exact_u32 in rret (attributes, n, schema_url)
  else if tag =? RES_SCHEMA_URL then let! s := take_all in rret (attributes, dropped, Some s)
  else skip_field st.

Definition finish_resource (st : ResourceVars) : reader Resource :=
  let '(attributes, dropped, schema_url) := st in
  rret (mkResource attributes dropped schema_url).

Definition read_resource (dict : Dict) : reader Resource :=
  let! vars := for_each_field (visit_resource dict) ([], 0, None) in
  finish_resource vars.

(** ** Scopes *)

Abbreviation SCOPE_NAME := 1%Z.
Abbreviation SCOPE_VERSION := 2%Z.
Abbreviation SCOPE_ATTRIBUTES := 3%Z.
Abbreviation SCOPE_DROPPED_ATTRIBUTES_COUNT := 4%Z.
Abbreviation SCOPE_SCHEMA_URL := 5%Z.

Definition write_scope (scope : Scope) : writer :=
  wwhen (nonempty (scope_name scope)) (write_bytes_field SCOPE_NAME (scope_name scope)) +++
  wwhen (nonempty (scope_version scope)) (write_bytes_field SCOPE_VERSION (scope_version scope)) +++
  wwhen (nonempty (scope_attributes scope))
    (write_field SCOPE_ATTRIBUTES (write_attr_map (scope_attributes scope))) +++
  wwhen (negb (scope_dropped_attributes_count scope =? 0))
    (write_u32_field SCOPE_DROPPED_ATTRIBUTES_COUNT (scope_dropped_attributes_count scope)) +++
  wopt (scope_schema_url scope) (write_bytes_field SCOPE_SCHEMA_URL).

Definition ScopeVars : Type := bytes * bytes * AttrMap * Z * option bytes.

Definition visit_scope (dict : Dict) (tag : Z) (st : ScopeVars) : reader ScopeVars :=
  let '(name, version, attributes, dropped, schema_url) := st in
  if tag =? SCOPE_NAME then
    let! s := take_all in rret (s, version, attributes, dropped, schema_url)
  else if tag =? SCOPE_VERSION then
    let! s := take_all in rret (name, s, attributes, dropped, schema_url)
  else if tag =? SCOPE_ATTRIBUTES then
    let! m := read_attr_map dict in rret (name, version, m, dropped, schema_url)
  else if tag =? SCOPE_DROPPED_ATTRIBUTES_COUNT then
    let! n := read_exact_u32 in rret (name, version, attributes, n, schema_url)
  else if tag =? SCOPE_SCHEMA_URL then
    let! s := take_all in rret (name, version, attributes, dropped, Some s)
  else skip_field st.

Definition finish_scope (st : ScopeVars) : reader Scope :=
  let '(name, version, attributes, dropped, schema_url) := st in
  rret (mkScope name version attributes dropped schema_url).

Definition read_scope (dict : Dict) : reader Scope :=
  let! vars := for_each_field (visit_scope dict) ([], [], [], 0, None) in
  finish_scope vars.

(** ** Well-formedness, cost and translation *)

Definition event_ok `{Interner} `{Summaries} (e : Event) : bool :=
  signed_ok 64 (ev_timestamp e) && attrs_wire_ok (ev_attributes e) && option_ok log_ok (ev_log e) &&
  forallb metric_ok (ev_metrics e) && option_ok span_ok (ev_span e).


Definition event_exact `{Summaries} (e : Event) : bool := forallb metric_exact (ev_metrics e).

Definition metrics_cost `{Summaries} (l : list MetricRecord) : Z :=
  Z.of_nat (length l) * size_of_MetricRecord + total metric_cost l.

Definition event_cost `{Summaries} (e : Event) : Z :=
  attrs_cost (ev_attributes e) + option_cost log_cost (ev_log e) + metrics_cost (ev_metrics e) +
  option_cost span_cost (ev_span e).

Definition translate_event `{Summaries} (I1 I2 : Interner) (e : Event) : Event :=
  mkEvent (ev_timestamp e) (translate_attrs I1 I2 (ev_attributes e)) (translate_log I1 I2 <$> ev_log e)
    (map (translate_metric I1 I2) (ev_metrics e)) (translate_span I1 I2 <$> ev_span e).

Definition resource_ok `{Interner} (r : Resource) : bool :=
  attrs_wire_ok (res_attributes r) && unsigned_ok 32 (res_dropped_attributes_count r).

Definition resource_cost (r : Resource) : Z := attrs_cost (res_attributes r).

Definition translate_resource (I1 I2 : Interner) (r : Resource) : Resource :=
  mkResource (translate_attrs I1 I2 (res_attributes r)) (res_dropped_attributes_count r) (res_schema_url r).

Definition scope_ok `{Interner} (s : Scope) : bool :=
  attrs_wire_ok (scope_attributes s) && unsigned_ok 32 (scope_dropped_attributes_count s).

Definition scope_cost (s : Scope) : Z := attrs_cost (scope_attributes s).

Definition translate_scope (I1 I2 : Interner) (s : Scope) : Scope :=
  mkScope (scope_name s) (scope_version s) (translate_attrs I1 I2 (scope_attributes s))
    (scope_dropped_attributes_count s) (scope_schema_url s).

(** ** Omitting attributes is encoding the event without them *)

Definition without_prefix `{Interner} `{Summaries} (prefix : bytes) (e : Event) : Event :=
  mkEvent (ev_timestamp e) (List.filter (kept prefix) (ev_attributes e)) (ev_log e) (ev_metrics e) (ev_span e).

Lemma existsb_filter {A} (p : A -> bool) l : existsb p l = nonempty (List.filter p l).
Proof. induction l as [|x l IH]; [done|]. simpl. by destruct (p x). Qed.

Lemma write_event_omitting_eq `{Interner} `{Summaries} e prefix :
  write_event_omitting e (Some prefix) = write_event (without_prefix prefix e).
Proof. unfold write_event_omitting, write_event. by rewrite existsb_filter. Qed.

(** ** Round trip *)

Section RoundTrip.
Context (I1 I2 : Interner).

Lemma wreads_event {Sm : Summaries} `{!SummariesOk Sm} e :
  @event_ok I1 Sm e = true ->
  wreads_all I1 I2 read_event (@write_event I1 Sm e) (translate_event I1 I2 e) (event_cost e).
Proof.
  destruct e as [ts attrs log metrics span].
  unfold event_ok, write_event, write_event_omitting.
  cbn [ev_timestamp ev_attributes ev_log ev_metrics ev_span]. intros Hok. split_ok.
  set (m := translate_attrs I1 I2 attrs). set (l := translate_log I1 I2 <$> log).
  set (ms := map (translate_metric I1 I2) metrics).
  eapply (wreads_fields I1 I2 visit_event finish_event _ _
    (ts, m, l, ms, translate_span I1 I2 <$> span)); [|apply reads_back_ret].
  eapply wfields_eq.
  - eapply wfields_app; [reflexivity| |].
    { eapply (wfields_field_map I1 I2 _ _ _ _ (fun _ => read_ivarint)); [done|visit_at|].
      apply wreads_all_bytes, reads_back_all, reads_ivarint. by apply signed_ok_spec. }
    eapply wfields_app; [reflexivity|eapply wfields_attrs; [done|done|visit_at|reflexivity]|].
    eapply wfields_app; [reflexivity| |].
    { apply (wfields_field_opt I1 I2 _ FIELD_LOG read_log_record _ (translate_log I1 I2) log_cost log
        (fun o => (ts, m, o, [], None))); [done| |visit_at].
      intros x ->. by apply wreads_log_record. }
    eapply wfields_app; [reflexivity| |].
    { eapply (wfields_list I1 I2 _ _ size_of_MetricRecord read_metric_record _ (translate_metric I1 I2) metric_cost);
        [done|by compute| |visit_at|reflexivity].
      apply Forall_forall. intros r Hr. rewrite Forall_forall in *. apply wreads_metric_record; auto. }
    apply (wfields_field_opt I1 I2 _ FIELD_SPAN read_span_record _ (translate_span I1 I2) span_cost span
      (fun o => (ts, m, l, ms, o))); [done| |visit_at].
    intros x ->. by apply wreads_span_record.
  - reflexivity.
  - unfold event_cost, metrics_cost. cbn [ev_attributes ev_log ev_metrics ev_span]. lia.
Qed.

Lemma wreads_resource r :
  @resource_ok I1 r = true ->
  wreads_all I1 I2 read_resource (write_resource r) (translate_resource I1 I2 r) (resource_cost r).
Proof.
  destruct r as [attrs n url]. unfold resource_ok, write_resource.
  cbn [res_attributes res_dropped_attributes_count res_schema_url]. intros Hok. split_bools.
  eapply (wreads_fields I1 I2 visit_resource finish_resource _ _ (translate_attrs I1 I2 attrs, n, url));
    [|apply reads_back_ret].
  eapply wfields_eq.
  - eapply wfields_app; [reflexivity|eapply wfields_attrs; [done|done|visit_at|reflexivity]|].
    eapply wfields_app; [reflexivity|eapply wfields_u32_nz; [done|done|visit_at|reflexivity]|].
    apply (wfields_bytes_opt I1 I2 _ RES_SCHEMA_URL url (fun o => (translate_attrs I1 I2 attrs, n, o)));
      [done|visit_at].
  - reflexivity.
  - unfold resource_cost. simpl. lia.
Qed.

(** A byte string skipped when empty. *)
Lemma wfields_bytes_ne {St} (visit : Dict -> Z -> St -> reader St) tag bs st (f : bytes -> St) :
  u8 tag -> (forall dict, visit dict tag st = (let! x := take_all in rret (f x))) -> st = f [] ->
  wfields I1 I2 visit (wwhen (nonempty bs) (write_bytes_field tag bs)) st (f bs) 0.
Proof.
  intros Ht E Hst. apply wfields_when.
  - intros _. by eapply wfields_bytes.
  - intros Hz. by destruct bs.
Qed.

Lemma wreads_scope s :
  @scope_ok I1 s = true ->
  wreads_all I1 I2 read_scope (write_scope s) (translate_scope I1 I2 s) (scope_cost s).
Proof.
  destruct s as [name version attrs n url]. unfold scope_ok, write_scope.
  cbn [scope_name scope_version scope_attributes scope_dropped_attributes_count scope_schema_url].
  intros Hok. split_bools.
  eapply (wreads_fields I1 I2 visit_scope finish_scope _ _
    (name, version, translate_attrs I1 I2 attrs, n, url)); [|apply reads_back_ret].
  eapply wfields_eq.
  - eapply wfields_app; [reflexivity|eapply wfields_bytes_ne; [done|visit_at|reflexivity]|].
    eapply wfields_app; [reflexivity|eapply wfields_bytes_ne; [done|visit_at|reflexivity]|].
    eapply wfields_app; [reflexivity|eapply wfields_attrs; [done|done|visit_at|reflexivity]|].
    eapply wfields_app; [reflexivity|eapply wfields_u32_nz; [done|done|visit_at|reflexivity]|].
    apply (wfields_bytes_opt I1 I2 _ SCOPE_SCHEMA_URL url
      (fun o => (name, version, translate_attrs I1 I2 attrs, n, o))); [done|visit_at].
  - reflexivity.
  - unfold scope_cost. simpl. lia.
Qed.
End RoundTrip.

(** ** On any input *)

Lemma budget_safe_event `{Summaries} dict : budget_safe (read_event dict).
Proof.
  apply budget_safe_bind'; [|intros [[[[? ?] ?] ?] ?]; unfold finish_event; auto with reader].
  apply budget_safe_for_each_field. intros tag st. unfold visit_event. visitor_safe.
  apply budget_safe_record_list_into; [by compute|auto with reader].
Qed.

Lemma budget_safe_resource dict : budget_safe (read_resource dict).
Proof.
  apply budget_safe_bind'; [|intros [[? ?] ?]; unfold finish_resource; auto with reader].
  apply budget_safe_for_each_field. intros tag st. unfold visit_resource. visitor_safe.
Qed.

Lemma budget_safe_scope dict : budget_safe (read_scope dict).
Proof.
  apply budget_safe_bind'; [|intros [[[[? ?] ?] ?] ?]; unfold finish_scope; auto with reader].
  apply budget_safe_for_each_field. intros tag st. unfold visit_scope. visitor_safe.
Qed.

#[export] Hint Resolve budget_safe_event budget_safe_resource budget_safe_scope : reader.

(** ** Accounting *)

Section Yields.
Context `{Interner} (dict : Dict) (Hdict : Forall live dict).
#[local] Set Default Proof Using "Type*".

Definition resource_vars_ok (st : ResourceVars) (s : Z) : Prop :=
  let '(m, n, url) := st in attrs_wire_ok m && unsigned_ok 32 n = true /\ attrs_cost m <= s.

Lemma yields_resource :
  yields (read_resource dict) (fun r s => resource_ok r = true /\ resource_cost r <= s).
Proof.
  eapply yields_bind.
  - apply (yields_for_each_field _ resource_vars_ok _ 0); [|done|done].
    intros tag [[m n] url] s _ Hs [Hok Hc]. split_bools. unfold visit_resource.
    pose proof (attrs_cost_nonneg m).
    yields_arm; unfold resource_vars_ok; solve_ok; (split; [done|lia]).
  - intros [[m n] url] s _ [Hok Hc]. apply yields_ret. unfold resource_ok, resource_cost.
    cbn [res_attributes res_dropped_attributes_count]. split; [done|lia].
Qed.

Definition scope_vars_ok (st : ScopeVars) (s : Z) : Prop :=
  let '(name, version, m, n, url) := st in attrs_wire_ok m && unsigned_ok 32 n = true /\ attrs_cost m <= s.

Lemma yields_scope : yields (read_scope dict) (fun r s => scope_ok r = true /\ scope_cost r <= s).
Proof.
  eapply yields_bind.
  - apply (yields_for_each_field _ scope_vars_ok _ 0); [|done|done].
    intros tag [[[[name version] m] n] url] s _ Hs [Hok Hc]. split_bools. unfold visit_scope.
    pose proof (attrs_cost_nonneg m).
    yields_arm; unfold scope_vars_ok; solve_ok; (split; [done|lia]).
  - intros [[[[name version] m] n] url] s _ [Hok Hc]. apply yields_ret. unfold scope_ok, scope_cost.
    cbn [scope_attributes scope_dropped_attributes_count]. split; [done|lia].
Qed.

Context {Sm : Summaries} {SO : SummariesOk Sm}.

Lemma metric_cost_nonneg r : 0 <= metric_cost r.
Proof.
  unfold metric_cost. pose proof (exemplars_cost_nonneg (mr_exemplars r)).
  pose proof (kind_cost_nonneg (mr_kind r)). unfold exemplars_cost in *. lia.
Qed.

Lemma yields_metrics out :
  yields (read_record_list_into size_of_MetricRecord (read_metric_record dict) out)
    (fun l s => exists items, l = out ++ items /\ forallb metric_ok items = true /\ metrics_cost items <= s).
Proof.
  eapply yields_mono; [apply (yields_record_list_into _ _ _ (fun e => metric_ok e = true) metric_cost)|].
  - by compute.
  - by apply yields_metric_record.
  - intros l s _ (items & -> & HF & Hc). exists items. split; [done|]. split; [by apply forallb_Forall|done].
Qed.

Lemma metrics_cost_app l1 l2 : metrics_cost (l1 ++ l2) = metrics_cost l1 + metrics_cost l2.
Proof. unfold metrics_cost. rewrite length_app, total_app. lia. Qed.

Definition event_vars_ok (st : EventVars) (s : Z) : Prop :=
  let '(ts, m, log, ms, span) := st in
  signed_ok 64 ts && attrs_wire_ok m && option_ok log_ok log && forallb metric_ok ms &&
  option_ok span_ok span = true /\
  attrs_cost m + option_cost log_cost log + metrics_cost ms + option_cost span_cost span <= s.

Lemma event_vars_nonneg m log span :
  0 <= attrs_cost m /\ 0 <= option_cost log_cost log /\ 0 <= option_cost span_cost span.
Proof.
  split; [apply attrs_cost_nonneg|]. split.
  - destruct log; simpl; [apply value_cost_nonneg|done].
  - destruct span as [s|]; simpl; [|done]. unfold span_cost.
    pose proof (value_cost_nonneg (sr_name s)). pose proof (span_events_cost_nonneg (sr_events s)).
    pose proof (span_links_cost_nonneg (sr_links s)). lia.
Qed.

Lemma yields_ivarint_ok : yields read_ivarint (fun v s => signed_ok 64 v = true /\ s = 0).
Proof.
  eapply yields_mono; [apply yields_ivarint|]. intros v s _ [Hv ->]. split; [by apply signed_ok_spec|done].
Qed.

#[local] Hint Resolve yields_ivarint_ok : yields.
#[local] Hint Resolve yields_metrics : yields.

Lemma yields_event : yields (read_event dict) (fun e s => event_ok e = true /\ event_cost e <= s).
Proof.
  eapply yields_bind.
  - apply (yields_for_each_field _ event_vars_ok _ 0); [|done|done].
    intros tag [[[[ts m] log] ms] span] s _ Hs [Hok Hc]. split_bools. unfold visit_event.
    pose proof (event_vars_nonneg m log span) as (? & ? & ?).
    yields_arm; unfold event_vars_ok; cbn [option_ok option_cost] in *;
      try (match goal with H : exists _, _ |- _ => destruct H as (items & -> & ? & ?) end;
           rewrite forallb_app, metrics_cost_app);
      solve_ok; (split; [done|lia]).
  - intros [[[[ts m] log] ms] span] s _ [Hok Hc]. apply yields_ret. unfold event_ok, event_cost.
    cbn [ev_timestamp ev_attributes ev_log ev_metrics ev_span]. split; [done|lia].
Qed.
End Yields.

#[export] Hint Resolve yields_resource yields_scope yields_event : yields.

(** ** Within one process *)

Lemma translate_resource_id (I : Interner) r : resource_ok r = true -> translate_resource I I r = r.
Proof.
  destruct r as [m n url]. unfold resource_ok, translate_resource.
  cbn [res_attributes res_dropped_attributes_count res_schema_url]. intros Hok. split_bools.
  by rewrite attrs_wire_id.
Qed.

Lemma translate_scope_id (I : Interner) s : scope_ok s = true -> translate_scope I I s = s.
Proof.
  destruct s as [name version m n url]. unfold scope_ok, translate_scope.
  cbn [scope_name scope_version scope_attributes scope_dropped_attributes_count scope_schema_url].
  intros Hok. split_bools. by rewrite attrs_wire_id.
Qed.

Lemma translate_event_id (I : Interner) `{Summaries} e :
  event_ok e = true -> event_exact e = true -> translate_event I I e = e.
Proof.
  destruct e as [ts m log ms span]. unfold event_ok, event_exact, translate_event.
  cbn [ev_timestamp ev_attributes ev_log ev_metrics ev_span]. intros Hok Hex. split_ok.
  rewrite attrs_wire_id by done. f_equal.
  - destruct log; [|done]. simpl in *. f_equal. by apply translate_log_id.
  - apply map_id_Forall, Forall_forall. intros r Hr. rewrite Forall_forall in *.
    apply translate_metric_id; auto.
  - destruct span; [|done]. simpl in *. f_equal. by apply translate_span_id.
Qed.
