(* ===== verification/Batch.v ===== *)
(** * Batches and hop batches

    crates/logit-proto/src/native/mod.rs: the bare batch payload (dictionary, resource, scope,
    events) and the hop payload around it (the sender pair in front, the provenance trailer
    behind). Encoding walks the batch once, collecting symbols, and writes the dictionary first. *)

From S2P Require Import Prelude Codec Budget Reader Varint Utf8 Model Instances AttrMap Wire Account Dict Tlv ValueCodec.
From S2P Require Import MetricKindCodec Fields RecordCodec SpanCodec EventCodec.

Abbreviation CODEC_BATCH := (1)%Z.
Definition CODEC_HOP_BATCH : Z := 2.
Abbreviation HOP_PREFIX_MAX_LEN := (16 + 10)%Z.
Abbreviation TRAILER_TAG_ORIGIN := 1%Z.
Abbreviation TRAILER_TAG_PREVIOUS := 2%Z.
Abbreviation TRAILER_TAG_TRACE := 5%Z.
Abbreviation HOP_TRACE_LEN := (24)%Z.
Abbreviation MAX_SANE_TRAILER_FIELD_BYTES := (4096)%Z.
Abbreviation MAX_SANE_EVENT_COUNT := (16 * 1024 * 1024)%Z.

(** [std::mem::size_of::<Event>()]. *)
Definition size_of_Event : Z := 864.

Record SeqId := mkSeqId { seq_id : bytes; seq_seq : Z }.

Record HopTrace := mkHopTrace { hop_trace_id : bytes; hop_span_id : bytes }.

(** ** Encoding *)

Section Encode.
Context `{Interner} `{Summaries}.

(** The three sections, each built with the shared dictionary. *)
Definition write_scope_section (scope : option Scope) : writer :=
  match scope with
  | Some scope => wbytes [z2b 1] +++ wprefixed (write_scope scope)
  | None => wbytes [z2b 0]
  end.

Definition write_events_section (events : list Event) (omit : option bytes) : writer :=
  wbytes (write_uvarint (Z.of_nat (length events))) +++
  wconcat (map (fun event => wprefixed (write_event_omitting event omit)) events).

Definition encode_events_inner (resource : Resource) (scope : option Scope) (events : list Event)
    (omit : option bytes) : bytes :=
  let dict := dict_empty in
  let '(resource_buf, dict) := write_resource resource dict in
  let '(scope_buf, dict) := write_scope_section scope dict in
  let '(events_buf, dict) := write_events_section events omit dict in
  dict_write dict ++ write_uvarint (blen resource_buf) ++ resource_buf ++ scope_buf ++ events_buf.

Definition encode_events (resource : Resource) (scope : option Scope) (events : list Event) : bytes :=
  encode_events_inner resource scope events None.

Definition encode_events_omitting (resource : Resource) (scope : option Scope) (events : list Event)
    (omit : bytes) : bytes :=
  encode_events_inner resource scope events (Some omit).

Definition encode_batch (batch : EventBatch) : bytes :=
  encode_events (batch_resource batch) (batch_scope batch) (batch_events batch).

Definition write_trailer_field (tag : Z) (value : bytes) : bytes :=
  [z2b tag] ++ write_uvarint (blen value) ++ value.

(** [1 + uvarint_len(len) + len]. *)
Definition field_len (len : Z) : Z := 1 + uvarint_len len + len.

Definition encode_hop_batch (batch : EventBatch) (provenance : Provenance) (trace : option HopTrace)
    (seq : SeqId) : bytes :=
  let body := encode_batch batch in
  let origin := resolve <$> origin provenance in
  let previous := resolve <$> previous provenance in
  let trailer_len :=
    from_option (fun s => field_len (blen s)) 0 origin +
    from_option (fun s => field_len (blen s)) 0 previous +
    from_option (fun _ => field_len HOP_TRACE_LEN) 0 trace in
  seq_id seq ++ write_uvarint (seq_seq seq) ++ body ++ write_uvarint trailer_len ++
  from_option (write_trailer_field TRAILER_TAG_ORIGIN) [] origin ++
  from_option (write_trailer_field TRAILER_TAG_PREVIOUS) [] previous ++
  from_option (fun trace =>
      [z2b TRAILER_TAG_TRACE] ++ write_uvarint HOP_TRACE_LEN ++ hop_trace_id trace ++ hop_span_id trace)
    [] trace.
End Encode.

(** ** Decoding *)

Section Decode.
Context `{Interner} `{Summaries}.

Definition read_scope_section (dict : Dict) : reader (option Scope) :=
  let! present := read_u8 in
  match present with
  | 0 => rret None
  | 1 =>
      let! scope :=
        (let! scope_body := take_declared "scope section declares more bytes than remain" in
         slice_prefix scope_body (read_scope dict)) in
      rret (Some scope)
  | _ => rfail (Malformed "bad scope presence byte")
  end.

(** One turn of the event loop; the event's own field walk consumes its body. *)
Definition read_event_entry (dict : Dict) : reader Event :=
  let! body := take_declared "event declares more bytes than remain" in
  slice_prefix body (read_event dict).

Definition read_events_section (dict : Dict) : reader (list Event) :=
  let! event_count := read_uvarint in
  rguard (event_count <=? MAX_SANE_EVENT_COUNT) (Malformed "batch over the event sanity cap") ;!
  rcharge_list "batch" event_count 1 size_of_Event ;!
  rrepeat (Z.to_nat event_count) (read_event_entry dict).

Definition decode_sections (dict : Dict) : reader EventBatch :=
  let! resource :=
    (let! resource_body := take_declared "resource section declares more bytes than remain" in
     slice_prefix resource_body (read_resource dict)) in
  let! scope := read_scope_section dict in
  let! events := read_events_section dict in
  rret (mkEventBatch resource scope events).

Definition decode_batch_body : reader EventBatch :=
  let! dict := dict_read in decode_sections dict.

Definition decode_batch : reader EventBatch :=
  let! batch := decode_batch_body in
  ensure_empty (trailing_bytes "batch") ;!
  rret batch.

Definition read_hop_prefix : reader SeqId :=
  need 16 (Malformed "hop prefix needs a 16-byte sender identity") ;!
  let! id := split_to 16 in
  let! seq := read_uvarint in
  rguard (negb (seq =? 0)) (Malformed "hop prefix sequence is 0") ;!
  rret (mkSeqId id seq).

Definition trailer_str (bs : bytes) : result bytes :=
  if utf8_valid bs then Ok bs else Err (Malformed "provenance trailer field not utf-8").

(** The [match tag] of the trailer loop. *)
Definition trailer_field (tag : Z) (field : bytes) (st : Provenance * option HopTrace) :
    result (Provenance * option HopTrace) :=
  let '(provenance, trace) := st in
  if tag =? TRAILER_TAG_ORIGIN then
    let? s := trailer_str field in Ok (mkProvenance (Some (intern s)) (previous provenance), trace)
  else if tag =? TRAILER_TAG_PREVIOUS then
    let? s := trailer_str field in Ok (mkProvenance (origin provenance) (Some (intern s)), trace)
  else if tag =? TRAILER_TAG_TRACE then
    if negb (blen field =? HOP_TRACE_LEN) then
      Err (Malformed "trace context trailer field not 24 bytes")
    else Ok (provenance, Some (mkHopTrace (take 16 field) (drop 16 field)))
  else Ok st.

Definition read_trailer_field (st : Provenance * option HopTrace) : reader (Provenance * option HopTrace) :=
  let! tag := read_u8 in
  let! len := read_uvarint in
  rguard (len <=? MAX_SANE_TRAILER_FIELD_BYTES) (Malformed "provenance trailer field over the sanity cap") ;!
  need len (Malformed "provenance trailer field declares more bytes than remain") ;!
  let! field := split_to len in
  rlift (trailer_field tag field st).

Definition read_trailer : reader (Provenance * option HopTrace) :=
  while_nonempty read_trailer_field (mkProvenance None None, None).

Definition decode_hop_body : reader (EventBatch * Provenance * option HopTrace) :=
  let! batch := decode_batch_body in
  let! (provenance, trace) :=
    (let! trailer := take_declared "provenance trailer declares more bytes than remain" in
     slice_prefix trailer read_trailer) in
  ensure_empty (trailing_bytes "batch") ;!
  rret (batch, provenance, trace).

Definition decode_hop_batch : reader (EventBatch * Provenance * option HopTrace * SeqId) :=
  let! seq := read_hop_prefix in
  let! (batch, provenance, trace) := decode_hop_body in
  rret (batch, provenance, trace, seq).
End Decode.

(** ** Well-formedness, cost and translation *)

Definition batch_ok `{Interner} `{Summaries} (b : EventBatch) : bool :=
  resource_ok (batch_resource b) && option_ok scope_ok (batch_scope b) && forallb event_ok (batch_events b).

Definition batch_exact `{Summaries} (b : EventBatch) : bool := forallb event_exact (batch_events b).

(** What the sections charge, the dictionary aside. *)
Definition sections_cost `{Summaries} (b : EventBatch) : Z :=
  resource_cost (batch_resource b) + option_cost scope_cost (batch_scope b) +
  (Z.of_nat (length (batch_events b)) * size_of_Event + total event_cost (batch_events b)).

Definition translate_batch `{Summaries} (I1 I2 : Interner) (b : EventBatch) : EventBatch :=
  mkEventBatch (translate_resource I1 I2 (batch_resource b)) (translate_scope I1 I2 <$> batch_scope b)
    (map (translate_event I1 I2) (batch_events b)).

(** The sections as one writer, and the dictionary they leave. *)
Definition write_sections `{Interner} `{Summaries} (b : EventBatch) : writer :=
  wprefixed (write_resource (batch_resource b)) +++
  write_scope_section (batch_scope b) +++
  write_events_section (batch_events b) None.

Definition batch_symbols `{Interner} `{Summaries} (b : EventBatch) : list Symbol :=
  db_symbols (snd (write_sections b dict_empty)).

(** What decoding a batch's encoding charges in all. *)
Definition batch_cost `{I : Interner} `{Summaries} (b : EventBatch) : Z :=
  dict_cost I (batch_symbols b) + sections_cost b.

Lemma encode_batch_eq `{Interner} `{Summaries} b :
  encode_batch b = (let '(bs, d) := write_sections b dict_empty in dict_write d ++ bs).
Proof.
  unfold encode_batch, encode_events, encode_events_inner, write_sections, wapp, wprefixed.
  destruct (write_resource (batch_resource b) dict_empty) as [rb d1].
  destruct (write_scope_section (batch_scope b) d1) as [sb d2].
  destruct (write_events_section (batch_events b) None d2) as [eb d3].
  unfold len_prefixed. by rewrite <- !app_assoc.
Qed.

(** ** Round trip *)

Section RoundTrip.
Context (I1 I2 : Interner) {Sm : Summaries} `{!SummariesOk Sm}.
#[local] Set Default Proof Using "Type*".

Lemma wreads_prefixed_slice {A} what (r : Dict -> reader A) w a c :
  wreads_all I1 I2 r w a c ->
  wreads I1 I2 (fun dict => let! p := take_declared what in slice_prefix p (r dict)) (wprefixed w) a c.
Proof.
  intros Hr. eapply writes_mono; [by apply writes_prefixed|].
  intros D bs (p & -> & Hp). by apply reads_declared_prefix.
Qed.

Lemma wprefixed_blen w d : 1 <= blen (fst (wprefixed w d)).
Proof.
  unfold wprefixed. destruct (w d) as [p d']. simpl.
  pose proof (blen_len_prefixed p). pose proof (blen_nonneg p). lia.
Qed.

Lemma wreads_scope_section scope :
  option_ok (@scope_ok I1) scope = true ->
  wreads I1 I2 read_scope_section (write_scope_section scope) (translate_scope I1 I2 <$> scope)
    (option_cost scope_cost scope).
Proof.
  intros Hok. destruct scope as [s|]; simpl in *.
  - apply (wreads_bind I1 I2 (fun _ => read_u8) (fun present dict =>
      match present with
      | 0 => rret None
      | 1 => let! scope := (let! p := take_declared _ in slice_prefix p (read_scope dict)) in rret (Some scope)
      | _ => rfail _
      end) _ _ 1 _ _ 0 (scope_cost s)); [done|by apply wreads_bytes, reads_u8|]. cbv iota.
    apply (wreads_map I1 I2 _ (fun x _ => rret (Some x)) _ (translate_scope I1 I2 s)).
    + by apply wreads_prefixed_slice, wreads_scope.
    + intros _. apply (reads_back_ret (Some _)).
  - apply writes_bytes. intros D. eapply reads_back_bind_r; [by apply reads_u8|]. apply (reads_back_ret None).
Qed.

Lemma wreads_events_section events :
  forallb (@event_ok I1 Sm) events = true ->
  Z.of_nat (length events) <= MAX_SANE_EVENT_COUNT ->
  wreads I1 I2 read_events_section (@write_events_section I1 Sm events None)
    (map (translate_event I1 I2) events) (Z.of_nat (length events) * size_of_Event + total event_cost events).
Proof.
  intros Hok Hlen.
  apply (wreads_counted_checked I1 I2 (fun count => rguard (count <=? MAX_SANE_EVENT_COUNT) _) _ 1 size_of_Event
    read_event_entry (fun e => wprefixed (write_event_omitting e None))).
  - done.
  - by compute.
  - intros e d. apply wprefixed_blen.
  - by apply reads_back_guard, Z.leb_le.
  - split_ok. apply Forall_forall. intros e He. rewrite Forall_forall in *.
    apply wreads_prefixed_slice. apply wreads_event; auto.
Qed.

Lemma wreads_sections b :
  @batch_ok I1 Sm b = true ->
  Z.of_nat (length (batch_events b)) <= MAX_SANE_EVENT_COUNT ->
  wreads I1 I2 decode_sections (@write_sections I1 Sm b) (translate_batch I1 I2 b) (sections_cost b).
Proof.
  destruct b as [resource scope events]. unfold batch_ok, write_sections.
  cbn [batch_resource batch_scope batch_events]. intros Hok Hlen. split_bools.
  unfold translate_batch, sections_cost. cbn [batch_resource batch_scope batch_events].
  eapply (wreads_bind I1 I2 (fun dict => let! p := take_declared _ in slice_prefix p (read_resource dict))
    (fun r dict => let! scope := read_scope_section dict in
       let! events := read_events_section dict in rret (mkEventBatch r scope events)));
    [symmetry; apply Z.add_assoc|by apply wreads_prefixed_slice, wreads_resource|].
  eapply (wreads_bind I1 I2 read_scope_section (fun sc dict =>
       let! events := read_events_section dict in rret (mkEventBatch _ sc events)));
    [reflexivity|by apply wreads_scope_section|].
  eapply (wreads_map I1 I2 read_events_section (fun es _ => rret (mkEventBatch _ _ es)));
    [by apply wreads_events_section|].
  intros _. apply reads_back_ret.
Qed.

(** A batch is read back off the front of its encoding. *)
Lemma reads_batch b :
  @batch_ok I1 Sm b = true ->
  Z.of_nat (length (batch_events b)) <= MAX_SANE_EVENT_COUNT ->
  Z.of_nat (length (@batch_symbols I1 Sm b)) <= MAX_SANE_DICT_ENTRIES ->
  reads_back (@decode_batch_body I2 Sm) (@encode_batch I1 Sm b) (translate_batch I1 I2 b)
    (@batch_cost I1 Sm b).
Proof.
  intros Hok He Hd. rewrite encode_batch_eq. unfold batch_cost, batch_symbols in *.
  destruct (@write_sections I1 Sm b dict_empty) as [bs d] eqn:E. cbn [snd] in *.
  destruct (wreads_sections b Hok He _ _ _ (db_wf_empty I1) E) as (Hwf & _ & Hr).
  eapply reads_back_bind; [by apply reads_dict|]. apply Hr; [done|].
  unfold MAX_SANE_DICT_ENTRIES in Hd. lia.
Qed.

Lemma reads_all_batch b :
  @batch_ok I1 Sm b = true ->
  Z.of_nat (length (batch_events b)) <= MAX_SANE_EVENT_COUNT ->
  Z.of_nat (length (@batch_symbols I1 Sm b)) <= MAX_SANE_DICT_ENTRIES ->
  reads_all (@decode_batch I2 Sm) (@encode_batch I1 Sm b) (translate_batch I1 I2 b) (@batch_cost I1 Sm b).
Proof.
  intros Hok He Hd. eapply reads_all_bind_r; [by apply reads_back_all, reads_batch|].
  eapply reads_all_bind_r; [apply reads_ensure_empty|]. apply reads_back_all, reads_back_ret.
Qed.
End RoundTrip.

(** ** The hop payload *)

Lemma read_trailer_field_shrinks `{Interner} : shrinks read_trailer_field.
Proof.
  apply (shrinks_then (fun tag st => let! len := read_uvarint in
    rguard (len <=? MAX_SANE_TRAILER_FIELD_BYTES) _ ;! need len _ ;!
    let! field := split_to len in rlift (trailer_field tag field st))).
  - intros tag st. assert (forall c e, consumes (rguard c e)) as Hg.
    { intros [] e; [apply consumes_ret|apply consumes_fail]. }
    repeat (apply consumes_bind; [auto with reader|intros ?]).
    unfold rlift. case_match; auto with reader.
  - intros _. apply read_u8_shrinks.
Qed.

Definition provenance_ok `{Interner} (p : Provenance) : bool :=
  option_ok (fun s => live_sym s && (blen (resolve s) <=? MAX_SANE_TRAILER_FIELD_BYTES)) (origin p) &&
  option_ok (fun s => live_sym s && (blen (resolve s) <=? MAX_SANE_TRAILER_FIELD_BYTES)) (previous p).

Definition hop_trace_ok (t : HopTrace) : bool :=
  (blen (hop_trace_id t) =? 16) && (blen (hop_span_id t) =? 8).

Definition seq_ok (s : SeqId) : bool :=
  (blen (seq_id s) =? 16) && (0 <? seq_seq s) && unsigned_ok 64 (seq_seq s).

Definition translate_provenance (I1 I2 : Interner) (p : Provenance) : Provenance :=
  mkProvenance (translate I1 I2 <$> origin p) (translate I1 I2 <$> previous p).

(** The trailer's three optional entries. *)
Definition trailer_bytes `{Interner} (provenance : Provenance) (trace : option HopTrace) : bytes :=
  from_option (write_trailer_field TRAILER_TAG_ORIGIN) [] (resolve <$> origin provenance) ++
  from_option (write_trailer_field TRAILER_TAG_PREVIOUS) [] (resolve <$> previous provenance) ++
  from_option (fun trace => write_trailer_field TRAILER_TAG_TRACE (hop_trace_id trace ++ hop_span_id trace))
    [] trace.

Lemma field_len_spec tag value : u64 (blen value) -> blen (write_trailer_field tag value) = field_len (blen value).
Proof.
  intros Hv. unfold write_trailer_field, field_len. rewrite !blen_app, blen_write_uvarint by done.
  rewrite blen_cons, blen_nil. lia.
Qed.

Lemma encode_hop_batch_eq (I : Interner) `{Summaries} b prov trace seq :
  provenance_ok prov = true -> option_ok hop_trace_ok trace = true ->
  encode_hop_batch b prov trace seq =
  seq_id seq ++ write_uvarint (seq_seq seq) ++ encode_batch b ++ len_prefixed (trailer_bytes prov trace).
Proof.
  intros Hp Ht. unfold encode_hop_batch, len_prefixed, trailer_bytes. do 3 f_equal.
  apply andb_true_iff in Hp as [Ho Hv].
  assert (forall tag o, option_ok (fun s => live_sym s && (blen (resolve s) <=? MAX_SANE_TRAILER_FIELD_BYTES)) o = true ->
    blen (from_option (write_trailer_field tag) [] (resolve <$> o)) =
    from_option (fun s => field_len (blen s)) 0 (resolve <$> o)) as Hlen.
  { intros tag [s|] Hs; [|done]. simpl in *. apply andb_true_iff in Hs as [_ Hs]. apply Z.leb_le in Hs.
    pose proof (blen_nonneg (resolve s)). apply field_len_spec.
    split; lia. }
  rewrite !blen_app, !Hlen by done. destruct trace as [t|]; simpl in *.
  - apply andb_true_iff in Ht as [H1 H2]. apply Z.eqb_eq in H1, H2.
    assert (blen (hop_trace_id t ++ hop_span_id t) = HOP_TRACE_LEN) as E by (rewrite blen_app, H1, H2; done).
    rewrite field_len_spec; rewrite E; [|done]. unfold write_trailer_field. rewrite E.
    by rewrite Z.add_assoc.
  - by rewrite blen_nil, !Z.add_0_r.
Qed.

Lemma reads_trailer_field `{Interner} tag field st st' :
  u8 tag -> blen field <= MAX_SANE_TRAILER_FIELD_BYTES -> trailer_field tag field st = Ok st' ->
  reads_back (read_trailer_field st) (write_trailer_field tag field) st' 0.
Proof.
  intros Ht Hf E. pose proof (blen_nonneg field). unfold write_trailer_field.
  eapply (reads_back_bind_eq _ _ _ _ _ _ _ _ 0 0); [done|done|by apply reads_u8|].
  eapply (reads_back_bind_eq _ _ _ _ _ _ _ _ 0 0); [done|done|apply reads_uvarint|].
  { split; lia. }
  eapply reads_back_bind_l; [by apply reads_back_guard, Z.leb_le|].
  apply reads_back_need; [lia|]. eapply reads_back_bind_r; [apply reads_back_split|].
  rewrite E. apply reads_back_ret.
Qed.

Section HopRoundTrip.
Context (I1 I2 : Interner).

(** An optional trailer entry, then the rest of the trailer. *)
Lemma reads_trailer_opt {A} tag (o : option A) (enc : A -> bytes) st st1 st2 w :
  u8 tag ->
  (forall a, o = Some a -> blen (enc a) <= MAX_SANE_TRAILER_FIELD_BYTES /\
     @trailer_field I2 tag (enc a) st = Ok st1) ->
  (o = None -> st = st1) ->
  reads_all (while_nonempty (@read_trailer_field I2) st1) w st2 0 ->
  reads_all (while_nonempty (@read_trailer_field I2) st)
    (from_option (fun a => write_trailer_field tag (enc a)) [] o ++ w) st2 0.
Proof.
  intros Ht Hs Hn Hw. destruct o as [a|]; cbn [from_option]; [|by rewrite (Hn eq_refl)].
  destruct (Hs a eq_refl) as [Hl E].
  eapply (reads_while_cons _ read_trailer_field_shrinks _ _ _ _ _ 0 0); [|by apply reads_trailer_field|done].
  unfold write_trailer_field. rewrite !blen_app, blen_cons, blen_nil.
  pose proof (blen_nonneg (write_uvarint (blen (enc a)))). pose proof (blen_nonneg (enc a)). lia.
Qed.

Lemma reads_trailer prov trace :
  @provenance_ok I1 prov = true -> option_ok hop_trace_ok trace = true ->
  reads_all (@read_trailer I2) (@trailer_bytes I1 prov trace) (translate_provenance I1 I2 prov, trace) 0.
Proof.
  intros Hp Ht. apply andb_true_iff in Hp as [Ho Hv]. destruct prov as [o v].
  cbn [origin previous] in *. unfold trailer_bytes, translate_provenance. cbn [origin previous].
  assert (forall s : Symbol, @live_sym I1 s && (blen (@resolve I1 s) <=? MAX_SANE_TRAILER_FIELD_BYTES) = true ->
    blen (@resolve I1 s) <= MAX_SANE_TRAILER_FIELD_BYTES /\ utf8_valid (@resolve I1 s) = true) as Hs.
  { intros s Hs. apply andb_true_iff in Hs as [Hl Hs]. apply live_sym_spec in Hl as [Hu _].
    by apply Z.leb_le in Hs. }
  unfold read_trailer.
  eapply (reads_trailer_opt _ _ id _ (mkProvenance (translate I1 I2 <$> o) None, None)); [done| | |].
  { intros s E. destruct o as [x|]; [|done]. injection E as <-. apply (Hs x) in Ho as [Hl Hu].
    split; [done|]. unfold trailer_field, trailer_str. simpl. by rewrite Hu. }
  { by destruct o. }
  eapply (reads_trailer_opt _ _ id _ (mkProvenance (translate I1 I2 <$> o) (translate I1 I2 <$> v), None));
    [done| | |].
  { intros s E. destruct v as [x|]; [|done]. injection E as <-. apply (Hs x) in Hv as [Hl Hu].
    split; [done|]. unfold trailer_field, trailer_str. simpl. by rewrite Hu. }
  { by destruct v. }
  rewrite <- (app_nil_r (from_option _ _ trace)).
  eapply (reads_trailer_opt _ _ (fun t => hop_trace_id t ++ hop_span_id t) _
    (mkProvenance (translate I1 I2 <$> o) (translate I1 I2 <$> v), trace)); [done| |by destruct trace|].
  - intros [ti si] ->. simpl in *. apply andb_true_iff in Ht as [H1 H2]. apply Z.eqb_eq in H1, H2.
    simpl in *. assert (blen (ti ++ si) = HOP_TRACE_LEN) as E by (rewrite blen_app, H1, H2; done).
    split; [by rewrite E|]. transitivity
      (if negb (blen (ti ++ si) =? HOP_TRACE_LEN) then Err (Malformed "trace context trailer field not 24 bytes")
       else Ok (mkProvenance (translate I1 I2 <$> o) (translate I1 I2 <$> v),
                Some (mkHopTrace (take 16 (ti ++ si)) (drop 16 (ti ++ si))))); [done|].
    rewrite E, Z.eqb_refl. unfold blen in H1.
    rewrite take_app_length', drop_app_length' by lia. done.
  - apply reads_while_nil, read_trailer_field_shrinks.
Qed.

Lemma reads_hop_prefix seq :
  seq_ok seq = true -> reads_back read_hop_prefix (seq_id seq ++ write_uvarint (seq_seq seq)) seq 0.
Proof.
  destruct seq as [id n]. unfold seq_ok. cbn [seq_id seq_seq]. intros Hok. split_bools.
  apply Z.eqb_eq in H. apply Z.ltb_lt in H1. apply unsigned_ok_spec in H0.
  apply reads_back_need; [rewrite blen_app; pose proof (blen_nonneg (write_uvarint n)); lia|].
  rewrite <- H. eapply (reads_back_bind _ _ _ _ _ _ 0 0); [apply reads_back_split|].
  eapply reads_back_bind_r; [by apply reads_uvarint|].
  eapply reads_back_bind_l; [apply reads_back_guard; by apply negb_true_iff, Z.eqb_neq; lia|].
  apply reads_back_ret.
Qed.

Context {Sm : Summaries} `{!SummariesOk Sm}.

(** Everything before the end-of-payload check. *)
Definition hop_parts `{Interner} : reader (EventBatch * Provenance * option HopTrace * SeqId) :=
  let! seq := read_hop_prefix in
  let! batch := decode_batch_body in
  let! (provenance, trace) :=
    (let! trailer := take_declared "provenance trailer declares more bytes than remain" in
     slice_prefix trailer read_trailer) in
  rret (batch, provenance, trace, seq).

Lemma decode_hop_batch_eq `{Interner} bs b :
  decode_hop_batch bs b =
  (let! x := hop_parts in ensure_empty (trailing_bytes "batch") ;! rret x) bs b.
Proof.
  unfold decode_hop_batch, decode_hop_body, hop_parts, rbind, rret.
  destruct (read_hop_prefix bs b) as [[[seq bs1]|e] b1]; [|done].
  destruct (decode_batch_body bs1 b1) as [[[batch bs2]|e] b2]; [|done].
  destruct (take_declared _ bs2 b2) as [[[t bs3]|e] b3]; [|done].
  destruct (slice_prefix t read_trailer bs3 b3) as [[[[p tr] bs4]|e] b4]; [|done].
  by destruct (ensure_empty (trailing_bytes "batch") bs4 b4) as [[[[] bs5]|e] b5].
Qed.
End HopRoundTrip.

Section HopBatch.
Context (I1 I2 : Interner) {Sm : Summaries} `{!SummariesOk Sm}.
#[local] Set Default Proof Using "Type*".

Lemma reads_hop_parts b prov trace seq :
  @batch_ok I1 Sm b = true ->
  Z.of_nat (length (batch_events b)) <= MAX_SANE_EVENT_COUNT ->
  Z.of_nat (length (@batch_symbols I1 Sm b)) <= MAX_SANE_DICT_ENTRIES ->
  @provenance_ok I1 prov = true -> option_ok hop_trace_ok trace = true -> seq_ok seq = true ->
  reads_back (@hop_parts Sm I2) (@encode_hop_batch I1 Sm b prov trace seq)
    (translate_batch I1 I2 b, translate_provenance I1 I2 prov, trace, seq) (@batch_cost I1 Sm b).
Proof.
  intros Hok He Hd Hp Ht Hs. rewrite encode_hop_batch_eq by done. rewrite app_assoc.
  eapply reads_back_bind_eq; [done|symmetry; apply Z.add_0_l|by apply reads_hop_prefix|].
  eapply reads_back_bind_eq; [done|symmetry; apply Z.add_0_r|by apply reads_batch|].
  eapply reads_back_bind_r; [by apply reads_declared_prefix, reads_trailer|]. apply reads_back_ret.
Qed.

Lemma reads_all_hop b prov trace seq :
  @batch_ok I1 Sm b = true ->
  Z.of_nat (length (batch_events b)) <= MAX_SANE_EVENT_COUNT ->
  Z.of_nat (length (@batch_symbols I1 Sm b)) <= MAX_SANE_DICT_ENTRIES ->
  @provenance_ok I1 prov = true -> option_ok hop_trace_ok trace = true -> seq_ok seq = true ->
  reads_all (@decode_hop_batch I2 Sm) (@encode_hop_batch I1 Sm b prov trace seq)
    (translate_batch I1 I2 b, translate_provenance I1 I2 prov, trace, seq) (@batch_cost I1 Sm b).
Proof.
  intros Hok He Hd Hp Ht Hs.
  assert (reads_all (let! x := @hop_parts Sm I2 in ensure_empty (trailing_bytes "batch") ;! rret x)
    (@encode_hop_batch I1 Sm b prov trace seq)
    (translate_batch I1 I2 b, translate_provenance I1 I2 prov, trace, seq) (@batch_cost I1 Sm b)) as [Hc H].
  { eapply reads_all_bind_r; [by apply reads_back_all, reads_hop_parts|].
    eapply reads_all_bind_r; [apply reads_ensure_empty|]. apply reads_back_all, reads_back_ret. }
  split; [done|]. intros Hw bud Hb Hm. rewrite decode_hop_batch_eq. by apply H.
Qed.
End HopBatch.

(** ** On any input *)

Section Safe.
Context `{Interner} `{Summaries}.

Lemma stable_read_scope_section dict : stable (read_scope_section dict).
Proof.
  apply stable_bind; [auto with reader|]. intros v. repeat case_match; auto with reader.
  apply stable_bind; [|auto with reader]. apply stable_bind; auto with reader.
Qed.

Lemma stable_decode_batch_body : stable decode_batch_body.
Proof.
  apply stable_bind; [auto with reader|]. intros dict.
  apply stable_bind; [apply stable_bind; auto with reader|]. intros resource.
  apply stable_bind; [apply stable_read_scope_section|]. intros scope.
  apply stable_bind; [|auto with reader].
  apply stable_bind; [auto with reader|]. intros count.
  apply stable_bind; [auto with reader|]. intros _.
  apply stable_bind; [by apply stable_charge_list|]. intros _. apply stable_repeat.
  apply stable_bind; auto with reader.
Qed.

Lemma stable_read_hop_prefix : stable read_hop_prefix.
Proof.
  apply stable_need_split. intros id. apply stable_bind; [auto with reader|]. intros seq.
  apply stable_bind; auto with reader.
Qed.

Lemma stable_hop_parts : stable hop_parts.
Proof.
  apply stable_bind; [apply stable_read_hop_prefix|]. intros seq.
  apply stable_bind; [apply stable_decode_batch_body|]. intros batch.
  apply stable_bind; [apply stable_bind; auto with reader|]. intros [p t]. auto with reader.
Qed.

Lemma budget_safe_decode_batch_body : budget_safe decode_batch_body.
Proof.
  apply budget_safe_bind'; [auto with reader|]. intros dict.
  apply budget_safe_bind'; [apply budget_safe_bind'; auto with reader|]. intros resource.
  apply budget_safe_bind'.
  { apply budget_safe_bind'; [auto with reader|]. intros v. repeat case_match; auto with reader.
    apply budget_safe_map, budget_safe_bind'; auto with reader. }
  intros scope. apply budget_safe_map.
  eapply budget_safe_bind; [auto with reader|apply returns_uvarint|]. intros count [Hc _].
  apply budget_safe_bind'; [auto with reader|]. intros _.
  apply budget_safe_bind'; [apply budget_safe_charge_list; [done|by compute]|]. intros _.
  apply budget_safe_repeat, budget_safe_bind'; auto with reader.
Qed.

Lemma budget_safe_decode_batch : budget_safe decode_batch.
Proof.
  apply budget_safe_bind'; [apply budget_safe_decode_batch_body|]. intros b.
  apply budget_safe_bind'; auto with reader.
Qed.

Lemma budget_safe_read_trailer : budget_safe read_trailer.
Proof.
  apply budget_safe_while; [apply read_trailer_field_shrinks|]. intros st.
  repeat (apply budget_safe_bind'; [auto with reader|intros ?]). auto with reader.
Qed.

Lemma budget_safe_read_hop_prefix : budget_safe read_hop_prefix.
Proof. repeat (apply budget_safe_bind'; [solve [auto with reader]|intros ?]). auto with reader. Qed.

Lemma budget_safe_decode_hop_batch : budget_safe decode_hop_batch.
Proof.
  apply budget_safe_bind'; [apply budget_safe_read_hop_prefix|]. intros seq.
  apply budget_safe_bind'; [|intros [[? ?] ?]; auto with reader].
  apply budget_safe_bind'; [apply budget_safe_decode_batch_body|]. intros batch.
  apply budget_safe_bind'.
  - apply budget_safe_bind'; [auto with reader|]. intros t.
    apply budget_safe_slice_prefix, budget_safe_read_trailer.
  - intros [p t]. apply budget_safe_bind'; auto with reader.
Qed.
End Safe.

(** ** Accounting *)

(** The batches the decoder returns: well formed, within the event cap, and charged for. *)
Definition decoded_batch `{Interner} {Sm : Summaries} (b : EventBatch) (s : Z) : Prop :=
  batch_ok b = true /\ Z.of_nat (length (batch_events b)) <= MAX_SANE_EVENT_COUNT /\ sections_cost b <= s.

Lemma yields_decode_batch_body (I : Interner) `{!InternerOk I} {Sm : Summaries} `{!SummariesOk Sm} :
  yields decode_batch_body decoded_batch.
Proof.
  eapply yields_bind; [by apply yields_dict_read|]. intros dict s Hs0 [Hdict _].
  eapply (yields_bind _ _ (fun r s => resource_ok r = true /\ resource_cost r <= s)).
  { eapply yields_bind; [apply yields_take_declared|]. intros p s1 _ [Hp ->].
    apply yields_slice_prefix; [done|]. by apply yields_resource. }
  intros resource s1 _ [Hr Cr]. eapply (yields_bind _ _
    (fun o s => option_ok scope_ok o = true /\ option_cost scope_cost o <= s)).
  { eapply yields_bind; [apply yields_u8|]. intros v s2 _ [_ ->].
    repeat case_match; try apply yields_fail; [by apply yields_ret|].
    apply (yields_map _ _ (fun r s => scope_ok r = true /\ scope_cost r <= s)); [|done].
    eapply yields_bind; [apply yields_take_declared|]. intros q s3 _ [Hq ->].
    apply yields_slice_prefix; [done|]. by apply yields_scope. }
  intros scope s2 _ [Hs Cs]. eapply (yields_map _ _ (fun l s => forallb event_ok l = true /\
    Z.of_nat (length l) <= MAX_SANE_EVENT_COUNT /\ Z.of_nat (length l) * size_of_Event + total event_cost l <= s)).
  - eapply yields_bind; [apply yields_uvarint|]. intros count s3 _ [[Hc _] ->].
    eapply yields_bind; [apply yields_guard|]. intros _ s3 _ [Hcap%Z.leb_le ->].
    eapply yields_bind; [apply yields_charge_list; by compute|]. intros _ s3 _ ->.
    eapply yields_mono; [apply (yields_repeat _ _ (fun e => event_ok e = true) event_cost)|].
    + eapply yields_bind; [apply yields_take_declared|]. intros p s3 _ [Hp ->].
      apply yields_slice_prefix; [done|]. by apply yields_event.
    + intros l s3 _ (Hl & HF & HC). split; [by apply forallb_Forall|].
      rewrite Hl, Z2Nat.id by lia. split; [done|lia].
  - intros events s3 Hs3 (He & Hn & Ce). unfold decoded_batch, batch_ok, sections_cost.
    cbn [batch_resource batch_scope batch_events]. rewrite Hr, Hs, He. split; [done|]. split; [done|lia].
Qed.

Lemma yields_decode_batch (I : Interner) `{!InternerOk I} {Sm : Summaries} `{!SummariesOk Sm} :
  yields decode_batch decoded_batch.
Proof.
  eapply yields_bind; [by apply yields_decode_batch_body|]. intros b s _ (Hb & Hn & Hc).
  eapply yields_bind; [apply yields_ensure_empty|]. intros _ s' _ ->. apply yields_ret.
  split; [done|]. split; [done|lia].
Qed.

(** ** Reading the prefix alone *)

Lemma read_uvarint_loop_take n : forall m i acc bs b,
  (n <= m)%nat ->
  res_map fst (fst (read_uvarint_loop n i acc (take m bs) b)) =
  res_map fst (fst (read_uvarint_loop n i acc bs b)).
Proof.
  induction n as [|n IH]; intros m i acc bs b Hm; [done|]. destruct m as [|m]; [lia|].
  destruct bs as [|x bs]; [done|]. cbn [take read_uvarint_loop].
  repeat case_match; try done. apply IH. lia.
Qed.

(** ** Round trips *)

(** What the encoder requires of a batch before its encoding can be read back: well-formed parts
    and counts within the decoder's sanity caps. *)
Definition encodable `{Interner} `{Summaries} (b : EventBatch) : bool :=
  batch_ok b && (Z.of_nat (length (batch_events b)) <=? MAX_SANE_EVENT_COUNT) &&
  (Z.of_nat (length (batch_symbols b)) <=? MAX_SANE_DICT_ENTRIES).

Lemma translate_batch_id (I : Interner) `{Summaries} b :
  batch_ok b = true -> batch_exact b = true -> translate_batch I I b = b.
Proof.
  destruct b as [r sc es]. unfold batch_ok, batch_exact, translate_batch.
  cbn [batch_resource batch_scope batch_events]. intros Hok Hex. split_ok.
  rewrite translate_resource_id by done. f_equal.
  - destruct sc; [|done]. simpl in *. f_equal. by apply translate_scope_id.
  - apply map_id_Forall, Forall_forall. intros e He. rewrite Forall_forall in *.
    apply translate_event_id; auto.
Qed.

(** A reader followed by the end-of-payload check fails on every proper prefix of what it reads. *)
Lemma ended_no_prefix {A} (r : reader A) e w a c p ext bud :
  stable r -> reads_back r w a c -> blen w < 2 ^ 64 -> c <= remaining bud <= U64_MAX ->
  w = p ++ ext -> ext <> [] ->
  exists err bud', (let! x := r in ensure_empty e ;! rret x) p bud = (Err err, bud').
Proof.
  intros Hs Hr Hl Hb Hw Hne. pose proof (stable_no_prefix r w a c p ext bud Hs Hr Hl) as Hn.
  unfold rbind, ensure_empty, rret. destruct (r p bud) as [[[x rest]|err] bud'] eqn:E; [|eauto].
  destruct rest as [|y rest]; [|eauto]. exfalso. eapply Hn; [lia|lia|exact Hw|exact Hne|reflexivity].
Qed.

(** A batch with every section: a resource, a scope, a log under a trace and a gauge. *)
Definition sample_batch : @EventBatch sample_summaries :=
  let k s := @intern sender_interner (str s) in
  mkEventBatch
    (mkResource [(k "host", VStr (str "web-1"))] 2 (Some (str "u")))
    (Some (mkScope (str "lib") [] [] 0 None))
    [mkEvent 1700000000 [(k "status", VI64 500)]
       (Some (mkLogRecord (VStr (str "boom")) (Some SevError) BodyRaw
          (Some (mkTraceRef (repeat (z2b 7) 16) (Some (repeat (z2b 1) 8)) 1)) (Some (k "panic")) 0 0))
       [mkMetricRecord (k "latency") (Some (k "ms")) None 0 [] 0 (MkGauge (MvF64 0x3ff0000000000000))] None].

Definition sample_seq : SeqId := mkSeqId (repeat (z2b 9) 16) 7.

Definition sample_provenance : Provenance :=
  mkProvenance (Some (@intern sender_interner (str "edge"))) None.

Section HopBody.
Context (I1 I2 : Interner) {Sm : Summaries} `{!SummariesOk Sm}.
#[local] Set Default Proof Using "Type*".

(** The pair read first, the rest of the payload is the batch and its trailer. *)
Lemma decode_hop_body_written b prov trace seq budget :
  @encodable I1 Sm b = true -> @provenance_ok I1 prov = true -> option_ok hop_trace_ok trace = true -> seq_ok seq = true ->
  blen (@encode_hop_batch I1 Sm b prov trace seq) < 2 ^ 64 -> @batch_cost I1 Sm b <= remaining budget <= U64_MAX ->
  exists body, @encode_hop_batch I1 Sm b prov trace seq = (seq_id seq ++ write_uvarint (seq_seq seq)) ++ body /\
    fst (@decode_hop_body I2 Sm body budget) = Ok (translate_batch I1 I2 b, translate_provenance I1 I2 prov, trace, []).
Proof.
  intros Hok Hp Ht Hs Hlen Hb. unfold encodable in Hok. split_bools. apply Z.leb_le in H0, H1.
  destruct (reads_all_hop I1 I2 b prov trace seq) as [Hc Hr]; [done..|]. specialize (Hr Hlen budget ltac:(lia) ltac:(lia)).
  rewrite encode_hop_batch_eq in * by done. rewrite app_assoc in *. eexists. split; [done|].
  destruct (reads_hop_prefix seq Hs) as [_ Hpre]. rewrite blen_app in Hlen.
  match type of Hlen with _ + blen ?t < _ => pose proof (blen_nonneg t) end.
  unfold decode_hop_batch, rbind in Hr. rewrite Hpre in Hr by lia.
  replace (spend 0 budget) with budget in Hr by (destruct budget; unfold spend; simpl; f_equal; lia).
  destruct (decode_hop_body _ budget) as [[[[[b' p'] t'] rest']|e] bud']; [|done]. unfold rret in Hr. simpl. congruence.
Qed.
End HopBody.

(** ** Properties *)



(** Within one process (the file format, the disk spool) decoding inverts encoding exactly, for
    every batch whose exemplars hold no negative zero. *)
Theorem batch_round_trip_exact (I : Interner) {Sm : Summaries} `{!SummariesOk Sm} (b : EventBatch)
    (budget : DecodeBudget) (Hok : encodable b = true) (Hex : batch_exact b = true)
    (Hlen : blen (encode_batch b) < 2 ^ 64) (Hb : batch_cost b <= remaining budget <= U64_MAX) :
  decode_batch (encode_batch b) budget = (Ok (b, []), spend (batch_cost b) budget).
Proof.
  unfold encodable in Hok. split_bools. apply Z.leb_le in H0, H1.
  destruct (reads_all_batch I I b) as [_ Hr]; [done..|].
  rewrite <- (translate_batch_id I b) at 2 by done. apply Hr; [done|lia|lia].
Qed.

Lemma batch_round_trip_exact_witness :
  @decode_batch sender_interner sample_summaries (@encode_batch sender_interner sample_summaries sample_batch)
    (mkBudget 100000 100000) =
  (Ok (sample_batch, []),
   spend (@batch_cost sender_interner sample_summaries sample_batch) (mkBudget 100000 100000)).
Proof.
  apply (batch_round_trip_exact sender_interner sample_batch (mkBudget 100000 100000)); by vm_compute.
Defined.



(** No proper prefix of a batch's encoding decodes, so a truncated payload is never mistaken for
    a shorter batch; the same holds of a hop payload, cut anywhere, its trailer included. *)
Theorem no_proper_prefix_decodes (I1 I2 : Interner) {Sm : Summaries} `{!SummariesOk Sm} (b : EventBatch)
    (prov : Provenance) (trace : option HopTrace) (seq : SeqId) (budget : DecodeBudget)
    (Hok : @encodable I1 Sm b = true) (Hp : @provenance_ok I1 prov = true)
    (Ht : option_ok hop_trace_ok trace = true) (Hs : seq_ok seq = true)
    (Hlen : blen (@encode_hop_batch I1 Sm b prov trace seq) < 2 ^ 64)
    (Hb : @batch_cost I1 Sm b <= remaining budget <= U64_MAX)
    (p ext : bytes) (Hne : ext <> []) :
  (@encode_batch I1 Sm b = p ++ ext ->
   exists e budget', @decode_batch I2 Sm p budget = (Err e, budget')) /\
  (@encode_hop_batch I1 Sm b prov trace seq = p ++ ext ->
   exists e budget', @decode_hop_batch I2 Sm p budget = (Err e, budget')).
Proof.
  unfold encodable in Hok. split_bools. apply Z.leb_le in H0, H1. split; intros Hw.
  - eapply ended_no_prefix; [apply stable_decode_batch_body|by apply (reads_batch I1 I2 b)| |done|done|done].
    rewrite encode_hop_batch_eq, !blen_app in Hlen by done.
    pose proof (blen_nonneg (seq_id seq)). pose proof (blen_nonneg (write_uvarint (seq_seq seq))).
    pose proof (blen_nonneg (len_prefixed (@trailer_bytes I1 prov trace))). lia.
  - rewrite decode_hop_batch_eq.
    by eapply ended_no_prefix; [apply stable_hop_parts|by apply (reads_hop_parts I1 I2 b prov trace seq)|..].
Qed.

Lemma no_proper_prefix_decodes_witness :
  let payload := @encode_batch sender_interner sample_summaries sample_batch in
  let hop := @encode_hop_batch sender_interner sample_summaries sample_batch sample_provenance None sample_seq in
  (payload = take 20 payload ++ drop 20 payload ->
   exists e budget', @decode_batch receiver_interner sample_summaries (take 20 payload) (mkBudget 100000 100000)
     = (Err e, budget')) /\
  (hop = take 20 payload ++ drop 20 payload ->
   exists e budget', @decode_hop_batch receiver_interner sample_summaries (take 20 payload) (mkBudget 100000 100000)
     = (Err e, budget')).
Proof.
  apply (no_proper_prefix_decodes sender_interner receiver_interner sample_batch sample_provenance None
    sample_seq (mkBudget 100000 100000)); by vm_compute.
Defined.

(** C17: on any bytes whatever, decoding a batch stays within its budget, whether it succeeds or
    fails; and a batch it does return used up the whole payload, satisfies every type invariant
    (integer ranges, UTF-8 strings, sorted attribute maps over live symbols, nesting within the
    cap, well-formed sketches), has no more events than the cap, and weighs no more than the budget
    was charged for it. *)
Theorem decode_batch_accounts (I : Interner) `{!InternerOk I} {Sm : Summaries} `{!SummariesOk Sm} (bs : bytes)
    (budget : DecodeBudget) (Hlen : blen bs < INPUT_BOUND) (Hb : 0 <= remaining budget) :
  let '(result, budget') := @decode_batch I Sm bs budget in
  limit budget' = limit budget /\ 0 <= remaining budget' <= remaining budget /\
  match result with
  | Ok (b, rest) =>
      rest = [] /\ batch_ok b = true /\ Z.of_nat (length (batch_events b)) <= MAX_SANE_EVENT_COUNT /\
      sections_cost b <= remaining budget - remaining budget'
  | Err _ => True
  end.
Proof.
  pose proof (budget_safe_decode_batch bs budget Hb) as [Hl Hr].
  destruct (decode_batch bs budget) as [[[b rest]|e] budget'] eqn:E; simpl in *; [|done].
  destruct (yields_decode_batch I _ _ _ _ _ Hlen Hb E) as (_ & _ & Hq).
  split; [done|]. split; [done|]. split; [|done].
  apply rbind_ok in E as (b1 & bs1 & bud1 & _ & E2). apply rbind_ok in E2 as ([] & bs2 & bud2 & E3 & E4).
  injection E4 as <- <- <-. destruct bs1; [|done]. by injection E3.
Qed.

Lemma decode_batch_accounts_witness :
  let '(result, budget') := @decode_batch receiver_interner sample_summaries
    (@encode_batch sender_interner sample_summaries sample_batch) (mkBudget 100000 100000) in
  limit budget' = 100000 /\ 0 <= remaining budget' <= 100000 /\
  match result with
  | Ok (b, rest) =>
      rest = [] /\ @batch_ok receiver_interner sample_summaries b = true /\
      Z.of_nat (length (batch_events b)) <= MAX_SANE_EVENT_COUNT /\
      sections_cost b <= 100000 - remaining budget'
  | Err _ => True
  end.
Proof.
  apply (decode_batch_accounts receiver_interner (@encode_batch sender_interner sample_summaries sample_batch)
    (mkBudget 100000 100000)); by vm_compute.
Defined.

(** The first [HOP_PREFIX_MAX_LEN] bytes of a hop payload, or all of a shorter one, are enough to
    read its sender pair: the pair, or the error, is what the whole payload gives. *)
Theorem hop_prefix_read_alone (payload : bytes) (b : DecodeBudget) :
  res_map fst (fst (read_hop_prefix (take (Z.to_nat HOP_PREFIX_MAX_LEN) payload) b)) =
  res_map fst (fst (read_hop_prefix payload b)).
Proof.
  unfold read_hop_prefix, rbind at 1 5, need. change (Z.to_nat HOP_PREFIX_MAX_LEN) with 26%nat.
  assert ((blen (take 26 payload) <? 16) = (blen payload <? 16)) as ->.
  { unfold blen. rewrite length_take.
    destruct (Z.ltb_spec (Z.of_nat (length payload)) 16), (Z.ltb_spec (Z.of_nat (26 `min` length payload)) 16); lia. }
  destruct (blen payload <? 16); [done|]. unfold split_to, rbind. change (Z.to_nat 16) with 16%nat.
  rewrite take_take, skipn_firstn_comm. change (16 `min` 26)%nat with 16%nat. change (26 - 16)%nat with 10%nat.
  pose proof (read_uvarint_loop_take 10 10 0 0 (drop 16 payload) b ltac:(lia)) as H.
  unfold read_uvarint. revert H.
  destruct (read_uvarint_loop 10 0 0 (take 10 (drop 16 payload)) b) as [[[v r]|e] b1];
  destruct (read_uvarint_loop 10 0 0 (drop 16 payload) b) as [[[v' r']|e'] b1']; simpl; intros [=]; subst; [|done].
  by destruct (negb (v' =? 0)).
Qed.

(** Leaving a key prefix out of the encoding is encoding the events without those top-level
    attributes: [encode_events_omitting] adds nothing else and loses nothing else. *)
Theorem omitting_is_removing (I : Interner) {Sm : Summaries} (resource : Resource) (scope : option Scope)
    (events : list Event) (omit : bytes) :
  encode_events_omitting resource scope events omit =
  encode_events resource scope (map (without_prefix omit) events).
Proof.
  unfold encode_events_omitting, encode_events, encode_events_inner, write_events_section.
  rewrite length_map, map_map.
  assert (map (fun e => wprefixed (write_event_omitting e (Some omit))) events =
          map (fun e => wprefixed (write_event_omitting (without_prefix omit e) None)) events) as ->; [|done].
  apply map_ext. intros e. by rewrite write_event_omitting_eq.
Qed.

(** Decoding does not determine the bytes: an over-long varint in the dictionary's count is read
    as the same batch as the canonical payload, and encoding that batch again gives other bytes. *)
Theorem decode_accepts_other_bytes (I : Interner) {Sm : Summaries} :
  let empty := mkEventBatch (mkResource [] 0 None) None [] in
  let overlong := [z2b 0x80; z2b 0; z2b 0; z2b 0; z2b 0] in
  fst (decode_batch overlong default_budget) = Ok (empty, []) /\
  encode_batch empty = [z2b 0; z2b 0; z2b 0; z2b 0].
Proof. done. Qed.

(** A relay is faithful: whatever bytes a batch was decoded from, if its symbols fit a dictionary
    and its exemplars hold no negative zero, encoding it again gives a payload that decodes to the
    very same batch. *)
Theorem relayed_batch_round_trip (I : Interner) `{!InternerOk I} {Sm : Summaries} `{!SummariesOk Sm}
    (bs : bytes) (budget budget' : DecodeBudget) (b : EventBatch) (rest : bytes)
    (Hin : blen bs < INPUT_BOUND) (Hb : 0 <= remaining budget)
    (Hdec : fst (decode_batch bs budget) = Ok (b, rest))
    (Hsym : Z.of_nat (length (batch_symbols b)) <= MAX_SANE_DICT_ENTRIES)
    (Hex : batch_exact b = true) (Hlen : blen (encode_batch b) < 2 ^ 64)
    (Hcost : batch_cost b <= remaining budget' <= U64_MAX) :
  decode_batch (encode_batch b) budget' = (Ok (b, []), spend (batch_cost b) budget').
Proof.
  destruct (decode_batch bs budget) as [r bud] eqn:E. simpl in Hdec. subst r.
  destruct (yields_decode_batch I _ _ _ _ _ Hin Hb E) as (_ & _ & Hok & Hn & _).
  destruct (reads_all_batch I I b Hok Hn Hsym) as [_ Hr].
  rewrite <- (translate_batch_id I b Hok Hex) at 2. apply Hr; [done|lia|lia].
Qed.

Lemma relayed_batch_round_trip_witness :
  let empty := mkEventBatch (mkResource [] 0 None) None [] in
  let overlong := [z2b 0x80; z2b 0; z2b 0; z2b 0; z2b 0] in
  fst (@decode_batch sender_interner sample_summaries overlong default_budget) = Ok (empty, []) /\
  @decode_batch sender_interner sample_summaries (@encode_batch sender_interner sample_summaries empty)
    default_budget =
  (Ok (empty, []), spend (@batch_cost sender_interner sample_summaries empty) default_budget).
Proof.
  intros empty overlong. split; [reflexivity|].
  refine (relayed_batch_round_trip sender_interner [z2b 0x80; z2b 0; z2b 0; z2b 0; z2b 0] default_budget
    default_budget (mkEventBatch (mkResource [] 0 None) None []) [] _ _ _ _ _ _ _).
  all: done.
Defined.
