(* ===== verification/Frame.v ===== *)
(** * The native frame

    crates/logit-proto/src/frame.rs: a 24-byte header around one payload, its CRC over the possibly
    compressed bytes. The CRC ([crc32c]) and the block compressor ([lz4_flex]) are other crates:
    parameters, with the behaviour they document as the laws of [FrameDepsOk]. [lz4_prefix], the
    bounded decoder of a block's first bytes, is the repository's own and is modelled in full. *)

From S2P Require Import Prelude Codec Budget Utf8.

#[local] Open Scope wire_scope.

Definition MAGIC : bytes := str "LGIT".
Abbreviation VERSION := (1)%Z.
Abbreviation FLAG_CONTROL := (Z.shiftl 1 0)%Z.

(** [u32::saturating_add]. *)
Definition saturating_add_u32 (a b : Z) : Z := Z.min (a + b) (2 ^ 32 - 1).

Definition compressed_bound (uncompressed_bound : Z) : Z :=
  saturating_add_u32 (saturating_add_u32 uncompressed_bound (uncompressed_bound / 255)) 16.

Definition MAX_SANE_COMPRESSED_LEN : Z := compressed_bound MAX_SANE_UNCOMPRESSED_LEN.

Definition HEADER_LEN : Z := 24.

Inductive Compression := CompNone | CompLz4 | CompZstd.

(** [self.compression as u8]. *)
Definition compression_u8 (c : Compression) : Z :=
  match c with
  | CompNone => 0
  | CompLz4 => 1
  | CompZstd => 2
  end.

Definition compression_from_u8 (b : Z) : result Compression :=
  match b with
  | 0 => Ok CompNone
  | 1 => Ok CompLz4
  | 2 => Ok CompZstd
  | _ => Err (Malformed "unknown compression byte")
  end.

Record FrameHeader := mkFrameHeader {
  fh_version : Z;
  fh_flags : Z;
  fh_codec : Z;
  fh_compression : Compression;
  fh_uncompressed_len : Z;
  fh_compressed_len : Z;
  fh_crc32c : Z
}.

Definition header_write (h : FrameHeader) : bytes :=
  MAGIC ++ to_le_bytes 2 (fh_version h) ++ to_le_bytes 2 (fh_flags h) ++ [z2b (fh_codec h)] ++
  [z2b (compression_u8 (fh_compression h))] ++ to_le_bytes 2 0 ++
  to_le_bytes 4 (fh_uncompressed_len h) ++ to_le_bytes 4 (fh_compressed_len h) ++
  to_le_bytes 4 (fh_crc32c h).

(** [get_u8], [get_u16_le] and [get_u32_le], called after the length was checked. *)
Definition get_le (n : nat) (bs : bytes) : Z * bytes := (from_le_bytes (take n bs), drop n bs).

Definition header_read (bs : bytes) : result (FrameHeader * bytes) :=
  if blen bs <? HEADER_LEN then Err (Truncated (HEADER_LEN - blen bs))
  else
    let '(magic, bs) := (take 4 bs, drop 4 bs) in
    if bool_decide (magic <> MAGIC) then Err (Malformed "bad magic")
    else
      let '(version, bs) := get_le 2 bs in
      if negb (version =? VERSION) then Err (Unsupported "frame version")
      else
        let '(flags, bs) := get_le 2 bs in
        let '(codec, bs) := get_le 1 bs in
        let '(compression, bs) := get_le 1 bs in
        let? compression := compression_from_u8 compression in
        let '(_reserved, bs) := get_le 2 bs in
        let '(uncompressed_len, bs) := get_le 4 bs in
        let '(compressed_len, bs) := get_le 4 bs in
        let '(crc, bs) := get_le 4 bs in
        Ok (mkFrameHeader version flags codec compression uncompressed_len compressed_len crc, bs).

(** ** The two crates underneath *)

Class FrameDeps := {
  crc32c : bytes -> Z;
  get_maximum_output_size : Z -> Z;
  (** The buffer after the call and how many bytes were written to its front; [None] is the error. *)
  compress_into : bytes -> bytes -> option (bytes * Z);
  decompress_into : bytes -> bytes -> option (bytes * Z)
}.

(** ** Frames *)

Section Frames.
Context `{FrameDeps}.

(** [vec![0u8; n]]. *)
Definition zeroed (n : Z) : bytes := repeat (z2b 0) (Z.to_nat n).

(** The [None] branch is the code's [expect]: [compress_into_fits] says the call does not fail. *)
Definition lz4_compress (payload : bytes) : bytes :=
  let max_len := get_maximum_output_size (blen payload) in
  match compress_into payload (zeroed max_len) with
  | Some (out, written) => take (Z.to_nat written) out
  | None => []
  end.

Definition lz4_decompress (compressed : bytes) (uncompressed_len : Z) : option bytes :=
  match decompress_into compressed (zeroed uncompressed_len) with
  | Some (out, written) => Some (take (Z.to_nat written) out)
  | None => None
  end.

Definition write_frame_with_flags (codec : Z) (compression : Compression) (flags : Z) (payload : bytes) :
    result bytes :=
  if MAX_SANE_UNCOMPRESSED_LEN <? blen payload then
    Err (Malformed "frame payload over the uncompressed cap")
  else
    let? compressed :=
      match compression with
      | CompNone => Ok payload
      | CompLz4 => Ok (lz4_compress payload)
      | CompZstd => Err (Unsupported "zstd frames are not encodable yet")
      end in
    let crc := crc32c compressed in
    let header := mkFrameHeader VERSION flags codec compression (uwrap 32 (blen payload))
      (uwrap 32 (blen compressed)) crc in
    Ok (header_write header ++ compressed).

Definition write_frame (codec : Z) (compression : Compression) (payload : bytes) : result bytes :=
  write_frame_with_flags codec compression 0 payload.

(** The compressed body: the length checks, the carve, and the CRC. *)
Definition take_body (header : FrameHeader) (bs : bytes) : result (bytes * bytes) :=
  if MAX_SANE_COMPRESSED_LEN <? fh_compressed_len header then
    Err (Malformed "frame declares compressed bytes over the sanity cap")
  else if blen bs <? fh_compressed_len header then
    Err (Truncated (fh_compressed_len header - blen bs))
  else
    let n := Z.to_nat (fh_compressed_len header) in
    let '(compressed, bs) := (take n bs, drop n bs) in
    if negb (crc32c compressed =? fh_crc32c header) then
      Err (Malformed "crc32c mismatch -- frame is corrupt")
    else Ok (compressed, bs).

Definition read_frame_with_header (bs : bytes) : result (FrameHeader * bytes * bytes) :=
  let? (header, bs) := header_read bs in
  if MAX_SANE_UNCOMPRESSED_LEN <? fh_uncompressed_len header then
    Err (Malformed "frame declares uncompressed bytes over the sanity cap")
  else
    let? (compressed, bs) := take_body header bs in
    let? payload :=
      match fh_compression header with
      | CompNone => Ok compressed
      | CompLz4 =>
          match lz4_decompress compressed (fh_uncompressed_len header) with
          | Some decompressed => Ok decompressed
          | None => Err (Malformed "lz4 decompress")
          end
      | CompZstd => Err (Unsupported "zstd frames are not decodable yet")
      end in
    if negb (blen payload =? fh_uncompressed_len header) then
      Err (Malformed "decompressed to another length than the header declared")
    else Ok (header, payload, bs).

Definition read_frame (bs : bytes) : result (Z * bytes * bytes) :=
  let? (header, payload, bs) := read_frame_with_header bs in
  Ok (fh_codec header, payload, bs).
End Frames.

(** ** The prefix of an lz4 block *)

Definition lz4_malformed (what : string) : CodecError := Malformed what.

(** [block.get(at)]. *)
Definition byte_at (block : bytes) (at_ : Z) : option Z := b2z <$> block !! Z.to_nat at_.

(** [block.get(at..at + n)]. *)
Definition slice_at (block : bytes) (at_ n : Z) : option bytes :=
  if at_ + n <=? blen block then Some (take (Z.to_nat n) (drop (Z.to_nat at_) block)) else None.

(** The extension bytes of [run_len]: one loop turn per byte, so the block's length is fuel enough. *)
Fixpoint run_len_loop (fuel : nat) (block : bytes) (at_ len : Z) : result (Z * Z) :=
  match fuel with
  | O => Err (lz4_malformed "out of fuel")
  | S fuel =>
      match byte_at block at_ with
      | None => Err (lz4_malformed "truncated run length")
      | Some byte =>
          let at_ := at_ + 1 in
          let len := saturating_add len byte in
          if negb (byte =? 255) then Ok (len, at_) else run_len_loop fuel block at_ len
      end
  end.

Definition run_len (block : bytes) (at_ nibble : Z) : result (Z * Z) :=
  if nibble =? 15 then run_len_loop (S (length block)) block at_ nibble else Ok (nibble, at_).

(** [for i in 0..n { out.push(out[start + i]) }]. *)
Fixpoint copy_match (n : nat) (start : nat) (out : bytes) : bytes :=
  match n with
  | O => out
  | S n => copy_match n (S start) (out ++ [nth start out (z2b 0)])
  end.

(** How a turn of the decoding loop ends, short of an error. *)
Inductive turn :=
| Break (out : bytes)
| Continue (at_ : Z) (out : bytes).

(** The loop's body: one sequence of the block. *)
Definition lz4_turn (block : bytes) (want at_ : Z) (out : bytes) : result turn :=
  match byte_at block at_ with
  | None => Err (lz4_malformed "block ends before the prefix")
  | Some token =>
      let at_ := at_ + 1 in
      let? (literals, at_) := run_len block at_ (Z.shiftr token 4) in
      let take_ := Z.min literals (want - blen out) in
      match slice_at block at_ take_ with
      | None => Err (lz4_malformed "truncated literals")
      | Some run =>
          let out := out ++ run in
          if blen out =? want then Ok (Break out)
          else
            let at_ := at_ + literals in
            match slice_at block at_ 2 with
            | None => Err (lz4_malformed "block ends before the prefix")
            | Some lohi =>
                let offset := from_le_bytes lohi in
                let at_ := at_ + 2 in
                if (offset =? 0) || (blen out <? offset) then
                  Err (lz4_malformed "match offset outside the output")
                else
                  let? (extra, at_) := run_len block at_ (Z.land token 0x0f) in
                  let matched := saturating_add extra 4 in
                  let start := blen out - offset in
                  Ok (Continue at_ (copy_match (Z.to_nat (Z.min matched (want - blen out)))
                        (Z.to_nat start) out))
            end
      end
  end.

(** [while out.len() < want]: a turn takes a token at least, so the block's length is fuel enough. *)
Fixpoint lz4_prefix_loop (fuel : nat) (block : bytes) (want at_ : Z) (out : bytes) : result bytes :=
  if blen out <? want then
    match fuel with
    | O => Err (lz4_malformed "out of fuel")
    | S fuel =>
        let? t := lz4_turn block want at_ out in
        match t with
        | Break out => Ok out
        | Continue at_ out => lz4_prefix_loop fuel block want at_ out
        end
    end
  else Ok out.

Definition lz4_prefix (block : bytes) (want : Z) : result bytes :=
  lz4_prefix_loop (S (length block)) block want 0 [].

Definition read_frame_prefix `{FrameDeps} (bs : bytes) (max : Z) : result (FrameHeader * bytes * bytes) :=
  let? (header, bs) := header_read bs in
  let? (compressed, bs) := take_body header bs in
  let want := Z.min max (fh_uncompressed_len header) in
  let? prefix :=
    match fh_compression header with
    | CompNone =>
        if blen compressed <? want then
          Err (Malformed "frame carries fewer payload bytes than its header implies")
        else Ok (take (Z.to_nat want) compressed)
    | CompLz4 => lz4_prefix compressed want
    | CompZstd => Err (Unsupported "zstd frames are not decodable yet")
    end in
  Ok (header, prefix, bs).

Definition frame_extent (bs : bytes) : Z :=
  match slice_at bs 16 4 with
  | None => blen bs
  | Some len_field =>
      let compressed_len := from_le_bytes len_field in
      let body := if MAX_SANE_COMPRESSED_LEN <? compressed_len then 0 else compressed_len in
      Z.min (HEADER_LEN + body) (blen bs)
  end.

(** [bytes.windows(4).position(|w| w == MAGIC)]. *)
Fixpoint resync_at (i : nat) (bs : bytes) : option nat :=
  match bs with
  | [] => None
  | _ :: rest =>
      if blen bs <? blen MAGIC then None
      else if bool_decide (take 4 bs = MAGIC) then Some i
      else resync_at (S i) rest
  end.

Definition resync (bs : bytes) : option nat := resync_at 0 bs.

(** ** What the crates document *)

(** lz4's run lengths: a 4-bit field, extended by bytes that go on while they are 255. *)
Inductive run_ext : Z -> bytes -> Z -> Prop :=
| run_short nibble : 0 <= nibble < 15 -> run_ext nibble [] nibble
| run_long (k : nat) x : 0 <= x < 255 ->
    run_ext 15 (repeat (z2b 255) k ++ [z2b x]) (15 + 255 * Z.of_nat k + x).

(** [n] bytes copied from [offset] back, the source running into the copy when they overlap. *)
Definition match_copy (out1 : bytes) (offset n : Z) (out2 : bytes) : Prop :=
  out1 `prefix_of` out2 /\ blen out2 = blen out1 + n /\
  forall j, blen out1 <= j < blen out2 -> out2 !! Z.to_nat j = out2 !! Z.to_nat (j - offset).

(** The block format: literals and a match per sequence, the last sequence literals alone.
    [lz4_seq out block out'] says that decoding [block] after [out] was produced ends at [out']. *)
Inductive lz4_seq : bytes -> bytes -> bytes -> Prop :=
| lz4_last out token ext lits len :
    u8 token -> run_ext (token / 16) ext len -> blen lits = len ->
    lz4_seq out (z2b token :: ext ++ lits) (out ++ lits)
| lz4_match out token ext lits len offset ext2 mlen rest out2 out' :
    u8 token -> run_ext (token / 16) ext len -> blen lits = len ->
    0 < offset <= blen (out ++ lits) -> offset < 2 ^ 16 ->
    run_ext (token mod 16) ext2 mlen -> match_copy (out ++ lits) offset (mlen + 4) out2 ->
    lz4_seq out2 rest out' ->
    lz4_seq out (z2b token :: ext ++ lits ++ to_le_bytes 2 offset ++ ext2 ++ rest) out'.

Class FrameDepsOk (D : FrameDeps) : Prop := {
  crc32c_u32 : forall bs, u32 (crc32c bs);
  (** A buffer of [get_maximum_output_size] is large enough, and its front receives a block of the
      format that decodes to the payload, within lz4's worst-case expansion. *)
  compress_into_fits : forall p buf, get_maximum_output_size (blen p) <= blen buf ->
    exists block rest, compress_into p buf = Some (block ++ rest, blen block) /\
      blen block <= blen p + blen p / 255 + 16 /\ lz4_seq [] block p;
  get_maximum_output_size_nonneg : forall n, 0 <= n -> 0 <= get_maximum_output_size n;
  (** A buffer of the payload's length receives the payload a compressed block holds. *)
  decompress_into_inverse : forall p buf out written buf',
    compress_into p buf = Some (out, written) -> blen buf' = blen p ->
    decompress_into (take (Z.to_nat written) out) buf' = Some (p, blen p)
}.

(** ** The header *)

Lemma get_le_app n v rest : unsigned (8 * Z.of_nat n) v -> get_le n (to_le_bytes n v ++ rest) = (v, rest).
Proof.
  intros Hv. unfold get_le. rewrite take_app_length', drop_app_length' by by rewrite length_to_le_bytes.
  by rewrite from_to_le_unsigned.
Qed.

Definition header_ok (h : FrameHeader) : Prop :=
  fh_version h = VERSION /\ u16 (fh_flags h) /\ u8 (fh_codec h) /\ u32 (fh_uncompressed_len h) /\
  u32 (fh_compressed_len h) /\ u32 (fh_crc32c h).

Lemma blen_header_write h : blen (header_write h) = HEADER_LEN.
Proof. unfold header_write. by rewrite !blen_app, !blen_to_le_bytes. Qed.

Lemma header_read_write h rest : header_ok h -> header_read (header_write h ++ rest) = Ok (h, rest).
Proof.
  destruct h as [ver flags codec comp ulen clen crc]. intros (Hv & Hf & Hc & Hu & Hl & Hr).
  cbn [fh_version fh_flags fh_codec fh_uncompressed_len fh_compressed_len fh_crc32c] in Hv, Hf, Hc, Hu, Hl, Hr.
  subst ver. unfold header_read. rewrite blen_app, blen_header_write.
  destruct (Z.ltb_spec (HEADER_LEN + blen rest) HEADER_LEN); [pose proof (blen_nonneg rest); lia|].
  unfold header_write. cbn [fh_version fh_flags fh_codec fh_compression fh_uncompressed_len
    fh_compressed_len fh_crc32c]. rewrite <- !app_assoc.
  rewrite (take_app_length' MAGIC), (drop_app_length' MAGIC) by done.
  rewrite bool_decide_eq_false_2 by (intros E; by apply E).
  rewrite (get_le_app 2 VERSION) by done. cbn [negb Z.eqb Pos.eqb].
  rewrite (get_le_app 2 flags) by done.
  change [z2b codec] with (to_le_bytes 1 codec). rewrite (get_le_app 1 codec) by done.
  change [z2b (compression_u8 comp)] with (to_le_bytes 1 (compression_u8 comp)).
  rewrite (get_le_app 1 (compression_u8 comp)) by by destruct comp.
  assert (compression_from_u8 (compression_u8 comp) = Ok comp) as -> by by destruct comp.
  cbn [res_bind]. rewrite (get_le_app 2 0) by done.
  by rewrite (get_le_app 4 ulen), (get_le_app 4 clen), (get_le_app 4 crc).
Qed.

Lemma header_read_short bs : blen bs < HEADER_LEN -> header_read bs = Err (Truncated (HEADER_LEN - blen bs)).
Proof. intros Hs. unfold header_read. by rewrite (proj2 (Z.ltb_lt _ _) Hs). Qed.

(** Bytes past the header do not change how it is read. *)
Lemma header_read_app bs ext :
  HEADER_LEN <= blen bs ->
  header_read (bs ++ ext) = (let? (h, rest) := header_read bs in Ok (h, rest ++ ext)).
Proof.
  intros Hl. unfold header_read, HEADER_LEN in *. rewrite blen_app. pose proof (blen_nonneg ext).
  rewrite !(proj2 (Z.ltb_ge _ _)) by lia. unfold blen in Hl.
  rewrite take_app_le, drop_app_le by lia. case_bool_decide; [done|]. unfold get_le.
  rewrite !drop_drop. repeat (rewrite take_app_le, drop_app_le by (rewrite !length_drop; lia)).
  rewrite !drop_drop. case_match; [done|].
  destruct (compression_from_u8 _); done.
Qed.

(** ** Reading back what was written *)

Section RoundTrip.
Context {D : FrameDeps} `{!FrameDepsOk D}.
#[local] Set Default Proof Using "Type*".

Lemma blen_zeroed n : 0 <= n -> blen (zeroed n) = n.
Proof. intros Hn. unfold blen, zeroed. rewrite repeat_length. lia. Qed.

(** What the two crates promise of the repository's wrappers. *)
Lemma lz4_compress_spec p :
  blen (lz4_compress p) <= blen p + blen p / 255 + 16 /\ lz4_seq [] (lz4_compress p) p /\
  lz4_decompress (lz4_compress p) (blen p) = Some p.
Proof.
  unfold lz4_compress, lz4_decompress. pose proof (blen_nonneg p) as Hp.
  pose proof (get_maximum_output_size_nonneg (blen p) Hp) as Hn.
  destruct (compress_into_fits p (zeroed (get_maximum_output_size (blen p)))) as (block & rest & E & Hb & Hs).
  { rewrite blen_zeroed; lia. }
  pose proof (decompress_into_inverse p _ _ _ (zeroed (blen p)) E (blen_zeroed _ Hp)) as Hd.
  rewrite E, take_blen_app in *. split; [done|]. split; [done|]. rewrite Hd. unfold blen. by rewrite Nat2Z.id, firstn_all.
Qed.

(** The stored form of a payload, and the header written in front of it. *)
Definition stored (compression : Compression) (payload : bytes) : bytes :=
  match compression with
  | CompLz4 => lz4_compress payload
  | _ => payload
  end.

Definition frame_header (codec : Z) (compression : Compression) (flags : Z) (payload : bytes) : FrameHeader :=
  mkFrameHeader VERSION flags codec compression (blen payload) (blen (stored compression payload))
    (crc32c (stored compression payload)).

Lemma stored_bound compression payload :
  blen payload <= MAX_SANE_UNCOMPRESSED_LEN ->
  0 <= blen (stored compression payload) <= MAX_SANE_COMPRESSED_LEN.
Proof.
  intros Hp. split; [apply blen_nonneg|].
  destruct (lz4_compress_spec payload) as [Hb _]. pose proof (blen_nonneg payload).
  assert (blen payload / 255 <= MAX_SANE_UNCOMPRESSED_LEN / 255) by (apply Z.div_le_mono; lia).
  change MAX_SANE_COMPRESSED_LEN with (MAX_SANE_UNCOMPRESSED_LEN + MAX_SANE_UNCOMPRESSED_LEN / 255 + 16).
  assert (0 <= MAX_SANE_UNCOMPRESSED_LEN / 255) by by compute.
  destruct compression; simpl; lia.
Qed.

Lemma write_frame_eq codec compression flags payload :
  blen payload <= MAX_SANE_UNCOMPRESSED_LEN -> compression <> CompZstd ->
  write_frame_with_flags codec compression flags payload =
  Ok (header_write (frame_header codec compression flags payload) ++ stored compression payload).
Proof.
  intros Hp Hc. unfold write_frame_with_flags, frame_header.
  rewrite (proj2 (Z.ltb_ge _ _)) by lia. pose proof (stored_bound compression payload Hp) as Hs.
  assert (MAX_SANE_COMPRESSED_LEN < 2 ^ 32) by by compute.
  assert (MAX_SANE_UNCOMPRESSED_LEN < 2 ^ 32) by by compute. pose proof (blen_nonneg payload).
  destruct compression; [| |done]; cbn [res_bind stored] in *; rewrite !uwrap_small by (split; lia); done.
Qed.

Lemma frame_header_ok codec compression flags payload :
  blen payload <= MAX_SANE_UNCOMPRESSED_LEN -> u8 codec -> u16 flags ->
  header_ok (frame_header codec compression flags payload).
Proof.
  intros Hp Hc Hf. pose proof (stored_bound compression payload Hp). pose proof (blen_nonneg payload).
  assert (MAX_SANE_COMPRESSED_LEN < 2 ^ 32) by by compute.
  assert (MAX_SANE_UNCOMPRESSED_LEN < 2 ^ 32) by by compute.
  unfold header_ok. cbn. repeat split; try done; try lia; try apply Hf; try apply Hc; apply crc32c_u32.
Qed.

Lemma take_body_app header compressed rest :
  0 <= blen compressed <= MAX_SANE_COMPRESSED_LEN -> fh_compressed_len header = blen compressed ->
  fh_crc32c header = crc32c compressed -> take_body header (compressed ++ rest) = Ok (compressed, rest).
Proof.
  intros Hl E1 E2. unfold take_body. rewrite E1, E2, blen_app. pose proof (blen_nonneg rest).
  rewrite !(proj2 (Z.ltb_ge _ _)) by lia. unfold blen. rewrite Nat2Z.id.
  rewrite take_app_length, drop_app_length, Z.eqb_refl. done.
Qed.

Lemma read_written codec compression flags payload rest :
  blen payload <= MAX_SANE_UNCOMPRESSED_LEN -> compression <> CompZstd -> u8 codec -> u16 flags ->
  read_frame_with_header
    ((header_write (frame_header codec compression flags payload) ++ stored compression payload) ++ rest) =
  Ok (frame_header codec compression flags payload, payload, rest).
Proof.
  intros Hp Hc Hcodec Hf. unfold read_frame_with_header.
  rewrite <- app_assoc, header_read_write by by apply frame_header_ok. cbn [res_bind].
  cbn [fh_uncompressed_len frame_header]. rewrite (proj2 (Z.ltb_ge _ _)) by lia.
  rewrite take_body_app by (done || by apply stored_bound).
  unfold frame_header. cbn [res_bind fh_compression fh_uncompressed_len].
  destruct compression; [| |done]; cbn [stored]; rewrite ?(proj2 (proj2 (lz4_compress_spec payload))); cbn [res_bind];
    by rewrite Z.eqb_refl.
Qed.

(** A frame cut short is [Truncated], and says how much is missing at least. *)
Lemma read_truncated codec compression flags payload p ext :
  blen payload <= MAX_SANE_UNCOMPRESSED_LEN -> u8 codec -> u16 flags ->
  header_write (frame_header codec compression flags payload) ++ stored compression payload = p ++ ext ->
  ext <> [] ->
  exists needed, read_frame_with_header p = Err (Truncated needed) /\ 0 < needed <= blen ext.
Proof.
  intros Hp Hcodec Hf E Hne. set (h := frame_header codec compression flags payload) in *.
  assert (1 <= blen ext) as Hext by (destruct ext; [done|rewrite blen_cons; pose proof (blen_nonneg ext); lia]).
  pose proof (f_equal blen E) as El. rewrite !blen_app, blen_header_write in El.
  pose proof (stored_bound compression payload Hp) as Hs. unfold read_frame_with_header.
  destruct (Z.lt_ge_cases (blen p) HEADER_LEN) as [Hshort|Hlong].
  - rewrite header_read_short by done. simpl. eexists. split; [done|]. lia.
  - assert (exists q, p = header_write h ++ q) as [q ->].
    { exists (take (length p - length (header_write h)) (stored compression payload)).
      apply (f_equal (take (length p))) in E. rewrite (take_app_length p ext) in E. symmetry in E.
      rewrite take_app_ge in E; [exact E|]. apply Nat2Z.inj_le.
      by rewrite <- (blen_header_write h) in Hlong. }
    rewrite <- app_assoc in E. apply app_inv_head in E.
    rewrite header_read_write by by apply frame_header_ok. cbn [res_bind].
    unfold take_body, h, frame_header. cbn [fh_uncompressed_len fh_compressed_len].
    rewrite (proj2 (Z.ltb_ge _ _)) by lia. rewrite (proj2 (Z.ltb_ge _ _)) by lia.
    rewrite blen_app, blen_header_write in El. rewrite (proj2 (Z.ltb_lt _ _)) by lia. simpl.
    eexists. split; [done|]. lia.
Qed.
End RoundTrip.

(** ** The extent of a frame *)

Lemma header_read_exact bs :
  blen bs = HEADER_LEN ->
  (exists e, header_read bs = Err e) \/
  (exists h, header_read bs = Ok (h, []) /\ fh_compressed_len h = from_le_bytes (take 4 (drop 16 bs))).
Proof.
  intros Hl. unfold header_read. rewrite Hl. cbn [Z.ltb]. rewrite Z.ltb_irrefl.
  case_bool_decide; [eauto|]. unfold get_le. rewrite !drop_drop. cbn [Nat.add].
  case_match; [eauto|]. destruct (compression_from_u8 _) as [c|e]; simpl; [|eauto]. right. eexists.
  split; [rewrite (drop_ge bs 24); [reflexivity|]; unfold blen, HEADER_LEN in Hl; lia|]. done.
Qed.

Definition frame_parts (r : result (FrameHeader * bytes * bytes)) : result (FrameHeader * bytes) :=
  res_map fst r.

Lemma take_body_prefix `{FrameDeps} h bs n :
  fh_compressed_len h <= n -> 0 <= fh_compressed_len h ->
  res_map fst (take_body h (take (Z.to_nat n) bs)) = res_map fst (take_body h bs) \/ blen bs < n.
Proof.
  intros Hn Hc. destruct (Z.lt_ge_cases (blen bs) n) as [|Hge]; [by right|]. left. unfold take_body.
  case_match; [done|].
  assert (blen (take (Z.to_nat n) bs) = n) as E.
  { unfold blen in *. rewrite length_take. lia. }
  rewrite E, !(proj2 (Z.ltb_ge _ _)) by lia. rewrite take_take, Nat.min_l by lia.
  case_match; done.
Qed.

(** Reading is a function of the header and of the stored bytes taken. *)
Lemma read_frame_parts `{FrameDeps} h bs1 bs2 rest1 rest2 :
  header_read bs1 = Ok (h, rest1) -> header_read bs2 = Ok (h, rest2) ->
  res_map fst (take_body h rest1) = res_map fst (take_body h rest2) ->
  frame_parts (read_frame_with_header bs1) = frame_parts (read_frame_with_header bs2).
Proof.
  intros E1 E2 E. unfold read_frame_with_header, frame_parts. rewrite E1, E2. cbn [res_bind].
  case_match; [done|]. revert E.
  destruct (take_body h rest1) as [[c1 r1]|e1], (take_body h rest2) as [[c2 r2]|e2]; simpl; intros [=]; subst; [|done].
  repeat case_match; simpl; repeat case_match; done.
Qed.

(** A reader that takes only [frame_extent] bytes off a longer buffer reads the same frame, or
    the same error, as one that reads the whole buffer. *)
Theorem frame_extent_suffices `{FrameDeps} bs :
  frame_parts (read_frame_with_header (take (Z.to_nat (frame_extent bs)) bs)) =
  frame_parts (read_frame_with_header bs).
Proof.
  pose proof (blen_nonneg bs) as Hpos.
  assert (forall n, blen bs <= n -> take (Z.to_nat n) bs = bs) as Hall.
  { intros n Hn. apply take_ge. unfold blen in Hn. lia. }
  unfold frame_extent, slice_at. destruct (Z.leb_spec (16 + 4) (blen bs)) as [H20|]; [|by rewrite Hall].
  change (Z.to_nat 16) with 16%nat. change (Z.to_nat 4) with 4%nat.
  set (clen := from_le_bytes (take 4 (drop 16 bs))).
  destruct (Z.lt_ge_cases (blen bs) HEADER_LEN) as [Hs|Hge].
  { rewrite Z.min_r; [by rewrite Hall|]. pose proof (from_le_bytes_range (take 4 (drop 16 bs))) as Hr.
    fold clen in Hr. destruct (MAX_SANE_COMPRESSED_LEN <? clen); unfold HEADER_LEN in *; lia. }
  assert (bs = take 24 bs ++ drop 24 bs) as Hsplit by by rewrite take_drop.
  assert (blen (take 24 bs) = HEADER_LEN) as H24.
  { unfold blen, HEADER_LEN in *. rewrite length_take. lia. }
  set (body := if MAX_SANE_COMPRESSED_LEN <? clen then 0 else clen).
  assert (0 <= clen) as Hclen by apply from_le_bytes_range.
  assert (0 <= body) as Hbody by (unfold body; case_match; lia).
  destruct (Z.le_gt_cases (blen bs) (HEADER_LEN + body)) as [|Hlong]; [by rewrite Z.min_r, Hall by lia|].
  rewrite Z.min_l by lia.
  assert (take (Z.to_nat (HEADER_LEN + body)) bs = take 24 bs ++ take (Z.to_nat body) (drop 24 bs)) as ->.
  { rewrite take_take_drop. f_equal. unfold HEADER_LEN. lia. }
  assert (forall ext, header_read (take 24 bs ++ ext) =
    (let? (h, rest) := header_read (take 24 bs) in Ok (h, rest ++ ext))) as Hread.
  { intros ext. apply header_read_app. by rewrite H24. }
  assert (from_le_bytes (take 4 (drop 16 (take 24 bs))) = clen) as Hfield.
  { rewrite skipn_firstn_comm, take_take. done. }
  destruct (header_read_exact (take 24 bs) H24) as [[e E]|(h & E & Ec)].
  { rewrite Hsplit at 3. unfold read_frame_with_header. by rewrite !Hread, E. }
  rewrite Hfield in Ec. rewrite Hsplit at 3.
  eapply (read_frame_parts h); [by rewrite Hread, E|by rewrite Hread, E|]. cbn [app].
  unfold body in *. destruct (Z.ltb_spec MAX_SANE_COMPRESSED_LEN clen) as [Hcap|].
  - unfold take_body. by rewrite Ec, (proj2 (Z.ltb_lt _ _) Hcap).
  - destruct (take_body_prefix h (drop 24 bs) clen) as [|Hbad]; [lia|lia|done|].
    exfalso. unfold blen, HEADER_LEN in *. rewrite length_drop in Hbad. lia.
Qed.

(** ** The block prefix decoder against the block format *)

Lemma byte_at_app pre x rest : byte_at (pre ++ x :: rest) (blen pre) = Some (b2z x).
Proof.
  unfold byte_at, blen. rewrite Nat2Z.id, lookup_app_r, Nat.sub_diag by lia. done.
Qed.

Lemma slice_at_app pre w rest n :
  0 <= n <= blen w -> slice_at (pre ++ w ++ rest) (blen pre) n = Some (take (Z.to_nat n) w).
Proof.
  intros Hn. unfold slice_at. rewrite !blen_app. pose proof (blen_nonneg rest).
  rewrite (proj2 (Z.leb_le _ _)) by lia. unfold blen in *.
  rewrite Nat2Z.id, drop_app_length, take_app_le by lia. done.
Qed.

Lemma run_len_loop_ext k x pre rest fuel len :
  0 <= x < 255 -> 0 <= len -> len + 255 * Z.of_nat k + x <= U64_MAX -> (k < fuel)%nat ->
  run_len_loop fuel (pre ++ (repeat (z2b 255) k ++ [z2b x]) ++ rest) (blen pre) len =
  Ok (len + 255 * Z.of_nat k + x, blen (pre ++ repeat (z2b 255) k ++ [z2b x])).
Proof.
  revert pre fuel len. induction k as [|k IH]; intros pre fuel len Hx Hlen Hmax Hfuel;
    (destruct fuel as [|fuel]; [lia|]); cbn [run_len_loop repeat app]; rewrite byte_at_app.
  - rewrite b2z_z2b_small by lia. rewrite (proj2 (Z.eqb_neq x 255)) by lia. cbn [negb].
    unfold saturating_add. rewrite Z.min_l by lia. rewrite blen_app, blen_cons, blen_nil. do 2 f_equal. lia.
  - rewrite b2z_z2b_small by lia. cbn [negb Z.eqb Pos.eqb]. unfold saturating_add.
    rewrite Z.min_l by lia.
    replace (pre ++ z2b 255 :: (repeat (z2b 255) k ++ [z2b x]) ++ rest)
      with ((pre ++ [z2b 255]) ++ (repeat (z2b 255) k ++ [z2b x]) ++ rest) by by rewrite <- app_assoc.
    replace (blen pre + 1) with (blen (pre ++ [z2b 255])) by (rewrite blen_app; done).
    rewrite IH by lia. rewrite <- app_assoc. do 2 f_equal. lia.
Qed.

Lemma run_len_ext nibble ext len pre rest :
  run_ext nibble ext len -> len <= U64_MAX ->
  run_len (pre ++ ext ++ rest) (blen pre) nibble = Ok (len, blen (pre ++ ext)).
Proof.
  intros Hr Hmax. unfold run_len. destruct Hr as [n Hn|k x Hx].
  - rewrite (proj2 (Z.eqb_neq n 15)) by lia. by rewrite app_nil_r.
  - change (15 =? 15) with true. cbv iota. apply run_len_loop_ext; [lia|lia|lia|].
    rewrite !length_app, repeat_length. lia.
Qed.

Lemma run_ext_bound nibble ext len : run_ext nibble ext len -> 0 <= len <= 15 + 255 * blen ext.
Proof.
  intros [n Hn|k x Hx]; [rewrite blen_nil; lia|]. unfold blen. rewrite length_app, repeat_length. simpl. lia.
Qed.

(** The copy loop produces the bytes the format describes, as far as it runs. *)
Lemma copy_match_spec k : forall out1 offset n out2,
  match_copy out1 offset n out2 -> 0 < offset <= blen out1 -> Z.of_nat k <= n ->
  copy_match k (Z.to_nat (blen out1 - offset)) out1 = take (length out1 + k) out2.
Proof.
  induction k as [|k IH]; intros out1 offset n out2 (Hpre & Hlen & Hj) Ho Hk; cbn [copy_match].
  { rewrite Nat.add_0_r. destruct Hpre as [q ->]. by rewrite take_app_length. }
  destruct Hpre as [q Hq]. assert (blen q = n) as Hqn by (rewrite Hq, blen_app in Hlen; lia).
  destruct q as [|x q]; [rewrite blen_nil in Hqn; lia|].
  assert (nth (Z.to_nat (blen out1 - offset)) out1 (z2b 0) = x) as Hx.
  { apply (nth_lookup_Some _ _ _ x). specialize (Hj (blen out1)). rewrite Hlen in Hj.
    rewrite Hq in Hj. unfold blen in *. rewrite Nat2Z.id in Hj.
    rewrite lookup_app_r, Nat.sub_diag in Hj by lia. rewrite lookup_app_l in Hj by lia.
    symmetry. apply Hj. lia. }
  rewrite Hx. replace (S (Z.to_nat (blen out1 - offset))) with (Z.to_nat (blen (out1 ++ [x]) - offset))
    by (rewrite blen_app, blen_cons, blen_nil; lia).
  rewrite (IH (out1 ++ [x]) offset (n - 1) out2).
  - rewrite length_app. simpl. f_equal. lia.
  - split; [exists q; by rewrite Hq, <- app_assoc|]. rewrite blen_app, blen_cons, blen_nil.
    split; [lia|]. intros j Hr. apply Hj. lia.
  - rewrite blen_app, blen_cons, blen_nil. lia.
  - lia.
Qed.

Lemma token_nibbles token : u8 token -> Z.shiftr token 4 = token / 16 /\ Z.land token 0x0f = token mod 16.
Proof.
  intros Ht. split; [by rewrite Z.shiftr_div_pow2|]. change 0x0f with (Z.ones 4). by rewrite Z.land_ones.
Qed.

Lemma lz4_seq_prefix out block out' : lz4_seq out block out' -> out `prefix_of` out'.
Proof.
  induction 1 as [|out token ext lits len offset ext2 mlen rest out2 out' _ _ _ _ _ _ Hm _ IH].
  - by apply prefix_app_r.
  - destruct Hm as [Hp _]. etrans; [|exact IH]. etrans; [|exact Hp]. by apply prefix_app_r.
Qed.

Lemma take_prefix (a b : bytes) n : a `prefix_of` b -> n = length a -> take n b = a.
Proof. intros [q ->] ->. apply take_app_length. Qed.

(** Once enough is out, the loop is over. *)
Lemma lz4_loop_done fuel block want at_ out out' :
  out `prefix_of` out' -> blen out = want -> lz4_prefix_loop fuel block want at_ out = Ok (take (Z.to_nat want) out').
Proof.
  intros Hp Hw. assert ((blen out <? want) = false) as E by (apply Z.ltb_ge; lia).
  rewrite (take_prefix out out') by (unfold blen in Hw; done || lia).
  destruct fuel; cbn [lz4_prefix_loop]; by rewrite E.
Qed.

(** One sequence up to the end of its literals. *)
Lemma lz4_literals pre token ext lits len tail want out :
  u8 token -> run_ext (token / 16) ext len -> blen lits = len -> len <= U64_MAX -> blen out < want ->
  lz4_turn (pre ++ z2b token :: ext ++ lits ++ tail) want (blen pre) out =
  (if want <=? blen out + len then Ok (Break (out ++ take (Z.to_nat (want - blen out)) lits))
   else
     let block := pre ++ z2b token :: ext ++ lits ++ tail in
     let out := out ++ lits in
     match slice_at block (blen (pre ++ z2b token :: ext ++ lits)) 2 with
     | None => Err (lz4_malformed "block ends before the prefix")
     | Some lohi =>
         let offset := from_le_bytes lohi in
         let at_ := blen (pre ++ z2b token :: ext ++ lits) + 2 in
         if (offset =? 0) || (blen out <? offset) then Err (lz4_malformed "match offset outside the output")
         else
           let? (extra, at_) := run_len block at_ (token mod 16) in
           Ok (Continue at_ (copy_match (Z.to_nat (Z.min (saturating_add extra 4) (want - blen out)))
                (Z.to_nat (blen out - offset)) out))
     end).
Proof.
  intros Ht Hr Hl Hmax Hw. unfold lz4_turn. rewrite byte_at_app.
  rewrite b2z_z2b_small by (unfold unsigned in Ht; lia).
  destruct (token_nibbles token Ht) as [-> ->].
  replace (blen pre + 1) with (blen (pre ++ [z2b token])) by (rewrite blen_app; done).
  replace (pre ++ z2b token :: ext ++ lits ++ tail) with ((pre ++ [z2b token]) ++ ext ++ lits ++ tail)
    by by rewrite <- app_assoc.
  rewrite (run_len_ext _ _ len) by done. cbn [res_bind].
  pose proof (blen_nonneg lits) as Hpos.
  replace ((pre ++ [z2b token]) ++ ext ++ lits ++ tail) with (((pre ++ [z2b token]) ++ ext) ++ lits ++ tail)
    by by rewrite <- app_assoc.
  rewrite slice_at_app by lia.
  assert (((pre ++ [z2b token]) ++ ext) ++ lits = pre ++ z2b token :: ext ++ lits) as Eb
    by by rewrite <- !app_assoc.
  destruct (Z.leb_spec want (blen out + len)) as [Hle|Hgt].
  - rewrite Z.min_r by lia. rewrite blen_app.
    assert (blen (take (Z.to_nat (want - blen out)) lits) = want - blen out) as ->.
    { unfold blen in *. rewrite length_take. lia. }
    by rewrite (proj2 (Z.eqb_eq _ _)) by lia.
  - rewrite Z.min_l by lia. rewrite (take_ge lits) by (unfold blen in *; lia).
    rewrite blen_app, Hl. rewrite (proj2 (Z.eqb_neq _ _)) by lia.
    rewrite <- Eb, (blen_app _ lits), Hl. rewrite <- !app_assoc. done.
Qed.

(** A whole sequence: the match is cut where the prefix ends. *)
Lemma lz4_sequence pre token ext lits len offset ext2 mlen rest want out out2 :
  u8 token -> run_ext (token / 16) ext len -> blen lits = len -> 0 < offset <= blen (out ++ lits) ->
  offset < 2 ^ 16 -> run_ext (token mod 16) ext2 mlen -> match_copy (out ++ lits) offset (mlen + 4) out2 ->
  blen (pre ++ z2b token :: ext ++ lits ++ to_le_bytes 2 offset ++ ext2 ++ rest) < 2 ^ 54 ->
  blen (out ++ lits) < want ->
  lz4_turn (pre ++ z2b token :: ext ++ lits ++ to_le_bytes 2 offset ++ ext2 ++ rest) want (blen pre) out =
  Ok (Continue (blen (pre ++ z2b token :: ext ++ lits ++ to_le_bytes 2 offset ++ ext2))
        (take (Z.to_nat want) out2)).
Proof.
  intros Ht Hr Hl Ho Ho16 Hr2 Hm Hbound Hw. pose proof (run_ext_bound _ _ _ Hr). pose proof (run_ext_bound _ _ _ Hr2).
  pose proof Hm as (Hpre & Hlen2 & _). set (P := pre ++ z2b token :: ext ++ lits).
  assert (forall tail, pre ++ z2b token :: ext ++ lits ++ tail = P ++ tail) as EP.
  { intros tail. unfold P. by rewrite <- !app_assoc, <- app_comm_cons, <- !app_assoc. }
  rewrite (EP (to_le_bytes 2 offset ++ ext2 ++ rest)), !blen_app in Hbound.
  pose proof (blen_nonneg P). pose proof (blen_nonneg ext2). pose proof (blen_nonneg rest).
  pose proof (blen_nonneg (to_le_bytes 2 offset)).
  assert (blen lits <= blen P).
  { unfold P. rewrite blen_app, blen_cons, blen_app. pose proof (blen_nonneg pre). pose proof (blen_nonneg ext). lia. }
  pose proof (blen_nonneg lits). rewrite blen_app in Hw.
  rewrite (lz4_literals _ _ _ _ len) by (done || unfold U64_MAX; lia).
  cbv zeta. fold P. rewrite !EP. rewrite (proj2 (Z.leb_gt _ _)) by lia.
  rewrite slice_at_app by (rewrite blen_to_le_bytes; lia).
  rewrite (take_ge (to_le_bytes 2 offset)) by (rewrite length_to_le_bytes; done).
  rewrite from_to_le_unsigned by (split; simpl; lia). cbv zeta.
  rewrite (proj2 (Z.eqb_neq offset 0)), (proj2 (Z.ltb_ge _ _)) by lia. cbn [orb].
  replace (blen P + 2) with (blen (P ++ to_le_bytes 2 offset)) by by rewrite blen_app, blen_to_le_bytes.
  rewrite (app_assoc P (to_le_bytes 2 offset) (ext2 ++ rest)), (run_len_ext _ ext2 mlen)
    by (done || unfold U64_MAX; lia). cbn [res_bind].
  unfold saturating_add. rewrite (Z.min_l (mlen + 4)) by (unfold U64_MAX; lia).
  rewrite (copy_match_spec _ _ _ (mlen + 4) out2) by (done || lia). rewrite <- app_assoc. do 2 f_equal.
  destruct (Z.le_gt_cases (mlen + 4) (want - blen (out ++ lits))) as [Hfull|Hpart].
  - rewrite Z.min_l, !take_ge by (rewrite blen_app in *; unfold blen in *; rewrite ?length_app in *; lia). done.
  - rewrite Z.min_r by lia. f_equal. rewrite blen_app in *. unfold blen in *. rewrite length_app. lia.
Qed.

Lemma lz4_loop_turn fuel block want at_ out :
  blen out < want ->
  lz4_prefix_loop (S fuel) block want at_ out =
  (let? t := lz4_turn block want at_ out in
   match t with
   | Break out => Ok out
   | Continue at_ out => lz4_prefix_loop fuel block want at_ out
   end).
Proof. intros Hw. cbn [lz4_prefix_loop]. by rewrite (proj2 (Z.ltb_lt _ _) Hw). Qed.

Lemma lz4_prefix_loop_correct out block out' :
  lz4_seq out block out' -> forall pre fuel want,
  (length block <= fuel)%nat -> blen (pre ++ block) < 2 ^ 54 -> blen out <= want <= blen out' ->
  lz4_prefix_loop fuel (pre ++ block) want (blen pre) out = Ok (take (Z.to_nat want) out').
Proof.
  intros Hseq. pose proof Hseq as Hp. apply lz4_seq_prefix in Hp. revert Hp.
  induction Hseq as [out token ext lits len Ht Hr Hl
    |out token ext lits len offset ext2 mlen rest out2 out' Ht Hr Hl Ho Ho16 Hr2 Hm Hs IH];
    intros Hp pre fuel want Hfuel Hbound Hw;
    (destruct (Z.eq_dec (blen out) want) as [|Hne]; [by apply lz4_loop_done|]);
    (destruct fuel as [|fuel]; [simpl in Hfuel; lia|]); rewrite lz4_loop_turn by lia.
  - pose proof (run_ext_bound _ _ _ Hr). rewrite !blen_app, blen_cons, !blen_app in Hbound.
    pose proof (blen_nonneg pre). pose proof (blen_nonneg ext). rewrite blen_app in Hw.
    rewrite <- (app_nil_r lits) at 1. rewrite (lz4_literals _ _ _ _ len) by (done || unfold U64_MAX; lia).
    rewrite (proj2 (Z.leb_le _ _)) by lia. cbn [res_bind]. rewrite take_app_ge by (unfold blen in *; lia).
    do 3 f_equal. unfold blen. lia.
  - pose proof (lz4_seq_prefix _ _ _ Hs) as Hp2. pose proof Hm as (Hpre & Hlen2 & _).
    destruct (Z.le_gt_cases want (blen (out ++ lits))) as [Hle|Hgt].
    { assert (blen lits < 2 ^ 54).
      { rewrite blen_app, blen_cons, !blen_app in Hbound. pose proof (blen_nonneg pre). pose proof (blen_nonneg ext).
        pose proof (blen_nonneg ext2). pose proof (blen_nonneg rest). pose proof (blen_nonneg (to_le_bytes 2 offset)).
        lia. }
      rewrite blen_app in Hle. rewrite (lz4_literals _ _ _ _ len) by (done || unfold U64_MAX; lia).
      rewrite (proj2 (Z.leb_le _ _)) by lia. cbn [res_bind]. f_equal. symmetry. apply take_prefix.
      - etrans; [|exact Hp2]. etrans; [|exact Hpre]. apply prefix_app, prefix_take.
      - rewrite length_app, length_take. unfold blen in *. lia. }
    rewrite (lz4_sequence _ _ _ _ len _ _ mlen _ _ _ out2) by done. cbn [res_bind].
    assert (pre ++ z2b token :: ext ++ lits ++ to_le_bytes 2 offset ++ ext2 ++ rest =
      (pre ++ z2b token :: ext ++ lits ++ to_le_bytes 2 offset ++ ext2) ++ rest) as EP
      by by rewrite <- app_assoc, <- app_comm_cons, <- !app_assoc.
    rewrite EP in Hbound |- *. destruct (Z.le_gt_cases (blen out2) want) as [Hfull|Hpart].
    + rewrite take_ge by (unfold blen in *; lia). apply IH; [done| |done|lia].
      cbn [length] in Hfuel. rewrite !length_app in Hfuel. lia.
    + apply lz4_loop_done; [etrans; [apply prefix_take|exact Hp2]|].
      pose proof (blen_nonneg out). unfold blen in *. rewrite length_take. lia.
Qed.

(** ** The fuel is always enough *)

Lemma byte_at_lt block at_ x : 0 <= at_ -> byte_at block at_ = Some x -> at_ < blen block.
Proof.
  intros Ha. unfold byte_at, blen. intros E. apply fmap_Some in E as (y & E & _).
  apply lookup_lt_Some in E. lia.
Qed.

(** Fuel past what is left of the block changes nothing. *)
Definition enough (fuel : nat) (block : bytes) (at_ : Z) : Prop :=
  0 <= at_ /\ 0 < Z.of_nat fuel /\ blen block - at_ < Z.of_nat fuel.

Lemma run_len_loop_fuel block n : forall m at_ len, enough n block at_ -> enough m block at_ ->
  run_len_loop n block at_ len = run_len_loop m block at_ len.
Proof.
  induction n as [|n IH]; intros m at_ len (Ha & Hn & Hn2) (_ & Hm & Hm2); [lia|].
  destruct m as [|m]; [lia|]. cbn [run_len_loop]. destruct (byte_at block at_) as [x|] eqn:E; [|done].
  apply byte_at_lt in E; [|done]. case_match; [done|]. apply IH; repeat split; lia.
Qed.

Lemma run_len_loop_ge n : forall block at_ len len' at',
  0 <= len -> run_len_loop n block at_ len = Ok (len', at') -> at_ <= at' /\ 0 <= len'.
Proof.
  induction n as [|n IH]; intros block at_ len len' at' Hl; [done|]. cbn [run_len_loop].
  destruct (byte_at block at_) as [x|] eqn:E; [|done].
  assert (0 <= saturating_add len x) as Hs.
  { apply fmap_Some in E as (y & _ & ->). pose proof (b2z_range y). unfold saturating_add, U64_MAX. lia. }
  case_match; [intros [= <- <-]; lia|]. intros E2. apply IH in E2; lia.
Qed.

Lemma run_len_ge block at_ nibble len at' :
  0 <= nibble -> run_len block at_ nibble = Ok (len, at') -> at_ <= at' /\ 0 <= len.
Proof.
  intros Hn. unfold run_len. case_match; [by apply run_len_loop_ge|]. intros [= <- <-]. lia.
Qed.

Lemma byte_at_range block at_ x : byte_at block at_ = Some x -> 0 <= x < 256.
Proof. intros E. apply fmap_Some in E as (y & _ & ->). apply b2z_range. Qed.

Lemma length_copy_match n : forall start out, length (copy_match n start out) = (length out + n)%nat.
Proof.
  induction n as [|n IH]; intros start out; cbn [copy_match]; [lia|]. rewrite IH, length_app. simpl. lia.
Qed.


Lemma blen_slice block at_ n run : slice_at block at_ n = Some run -> 0 <= at_ -> blen run <= Z.max 0 n.
Proof. unfold slice_at, blen. case_match; intros [= <-] Ha. rewrite length_take. lia. Qed.

(** A turn that goes on has moved past its token, and never produces more than is wanted. *)
Lemma lz4_turn_progress block want at_ out t :
  0 <= at_ -> blen out < want -> lz4_turn block want at_ out = Ok t ->
  match t with
  | Break out' => blen out' = want
  | Continue at' out' => at_ < at' /\ at_ < blen block /\ blen out' <= want
  end.
Proof.
  intros Ha Hw. unfold lz4_turn. destruct (byte_at block at_) as [token|] eqn:Et; [|done].
  pose proof (byte_at_range _ _ _ Et) as Hr. apply byte_at_lt in Et; [|done].
  assert (0 <= Z.shiftr token 4 /\ 0 <= Z.land token 15) as [Hn1 Hn2].
  { split; [apply Z.shiftr_nonneg|apply Z.land_nonneg]; lia. }
  intros ([lits at1] & E1 & E2)%res_bind_Ok.
  apply run_len_ge in E1 as [H1 H2]; [|done]. revert E2.
  destruct (slice_at block at1 _) as [run|] eqn:Es; [|done]. apply blen_slice in Es; [|lia].
  destruct (Z.eqb_spec (blen (out ++ run)) want) as [Hd|Hd]; [by intros [= <-]|].
  destruct (slice_at block (at1 + lits) 2); [|done]. case_match; [done|].
  intros ([extra at2] & E3 & [= <-])%res_bind_Ok. apply run_len_ge in E3 as [H3 _]; [|done].
  split; [lia|]. split; [lia|]. unfold blen in *. rewrite length_copy_match, length_app in *. lia.
Qed.

Lemma lz4_prefix_loop_fuel block want n : forall m at_ out, enough n block at_ -> enough m block at_ ->
  lz4_prefix_loop n block want at_ out = lz4_prefix_loop m block want at_ out.
Proof.
  induction n as [|n IH]; intros m at_ out (Ha & Hn & Hn2) (_ & Hm & Hm2); [lia|].
  destruct m as [|m]; [lia|]. cbn [lz4_prefix_loop]. destruct (Z.ltb_spec (blen out) want) as [Hw|]; [|done].
  destruct (lz4_turn block want at_ out) as [t|e] eqn:Et; [|done]. cbn [res_bind].
  apply lz4_turn_progress in Et; [|done..]. destruct t; [done|]. apply IH; repeat split; lia.
Qed.

Lemma lz4_prefix_loop_len n : forall block want at_ out out',
  0 <= at_ -> blen out <= want -> lz4_prefix_loop n block want at_ out = Ok out' -> blen out' = want.
Proof.
  induction n as [|n IH]; intros block want at_ out out' Ha Ho; cbn [lz4_prefix_loop];
    (destruct (Z.ltb_spec (blen out) want) as [Hw|]; [|intros [= <-]; lia]); [done|].
  destruct (lz4_turn block want at_ out) as [t|e] eqn:Et; [|done]. cbn [res_bind].
  apply lz4_turn_progress in Et; [|done..]. destruct t as [|at' out2]; [by intros [= <-]|]. apply IH; lia.
Qed.

Lemma resync_at_spec bs : forall i,
  match resync_at i bs with
  | Some k => (i <= k)%nat /\ take 4 (drop (k - i) bs) = MAGIC /\
      forall j, (j < k - i)%nat -> take 4 (drop j bs) <> MAGIC
  | None => forall j, take 4 (drop j bs) <> MAGIC
  end.
Proof.
  induction bs as [|x bs IH]; intros i; cbn [resync_at].
  { intros j. rewrite drop_nil. done. }
  destruct (Z.ltb_spec (blen (x :: bs)) (blen MAGIC)) as [Hs|Hs].
  { intros j E. apply (f_equal length) in E. rewrite length_take, length_drop in E.
    unfold blen in Hs. change (length MAGIC) with 4%nat in *. lia. }
  case_bool_decide as Hm.
  { rewrite Nat.sub_diag. split; [done|]. split; [done|]. intros j Hj. lia. }
  specialize (IH (S i)). destruct (resync_at (S i) bs) as [k|].
  - destruct IH as (Hk & Ek & Hj). split; [lia|]. replace (k - i)%nat with (S (k - S i)) by lia. split; [done|].
    intros [|j] Hlt; [done|]. apply Hj. lia.
  - intros [|j]; [done|]. apply IH.
Qed.

(** ** Frames: the theorems *)

Section FrameTheorems.
Context {D : FrameDeps}.
#[local] Set Default Proof Using "Type*".

Lemma write_frame_ok_iff codec compression flags payload :
  is_ok (write_frame_with_flags codec compression flags payload) = true <->
  blen payload <= MAX_SANE_UNCOMPRESSED_LEN /\ compression <> CompZstd.
Proof.
  unfold write_frame_with_flags. destruct (Z.ltb_spec MAX_SANE_UNCOMPRESSED_LEN (blen payload)).
  - split; [done|lia].
  - destruct compression; simpl; split; try done. by intros [_ ?].
Qed.

Lemma write_frame_inv `{!FrameDepsOk D} codec compression flags payload frame :
  write_frame_with_flags codec compression flags payload = Ok frame ->
  blen payload <= MAX_SANE_UNCOMPRESSED_LEN /\ compression <> CompZstd /\
  frame = header_write (frame_header codec compression flags payload) ++ stored compression payload.
Proof.
  intros E. destruct (write_frame_ok_iff codec compression flags payload) as [[Hp Hc] _]; [by rewrite E|].
  rewrite write_frame_eq in E by done. injection E as <-. done.
Qed.

(** C25: a frame is written exactly when the payload is within the cap and the compression is not
    zstd; reading it back, whatever follows it, gives the payload, the header's codec, flags and
    compression, and leaves what follows unread. *)
Theorem frame_round_trip `{!FrameDepsOk D} codec compression flags payload :
  u8 codec -> u16 flags ->
  (is_ok (write_frame_with_flags codec compression flags payload) = true <->
   blen payload <= MAX_SANE_UNCOMPRESSED_LEN /\ compression <> CompZstd) /\
  forall frame rest, write_frame_with_flags codec compression flags payload = Ok frame ->
    exists header, read_frame_with_header (frame ++ rest) = Ok (header, payload, rest) /\
      fh_codec header = codec /\ fh_flags header = flags /\ fh_compression header = compression /\
      fh_uncompressed_len header = blen payload /\ blen frame = HEADER_LEN + fh_compressed_len header.
Proof.
  intros Hc Hf. split; [apply write_frame_ok_iff|]. intros frame rest (Hp & Hz & ->)%write_frame_inv.
  eexists. split; [by apply read_written|]. repeat split. by rewrite blen_app, blen_header_write.
Qed.

(** Every proper prefix of a written frame is [Truncated], and the count it asks for is positive
    and never more than what is really missing, so waiting for that many bytes never overshoots. *)
Theorem truncated_frame `{!FrameDepsOk D} codec compression flags payload p ext :
  u8 codec -> u16 flags -> write_frame_with_flags codec compression flags payload = Ok (p ++ ext) -> ext <> [] ->
  exists needed, read_frame_with_header p = Err (Truncated needed) /\ 0 < needed <= blen ext.
Proof.
  intros Hc Hf (Hp & Hz & E)%write_frame_inv Hne. by eapply read_truncated.
Qed.

Lemma prefix_written `{!FrameDepsOk D} codec compression flags payload rest max :
  blen payload <= MAX_SANE_UNCOMPRESSED_LEN -> compression <> CompZstd -> u8 codec -> u16 flags -> 0 <= max ->
  read_frame_prefix
    ((header_write (frame_header codec compression flags payload) ++ stored compression payload) ++ rest) max =
  Ok (frame_header codec compression flags payload, take (Z.to_nat max) payload, rest).
Proof.
  intros Hp Hz Hc Hf Hm.
  unfold read_frame_prefix. rewrite <- app_assoc, header_read_write by by apply frame_header_ok. cbn [res_bind].
  rewrite take_body_app by (done || by apply stored_bound). unfold frame_header.
  cbn [res_bind fh_compression fh_uncompressed_len]. pose proof (blen_nonneg payload).
  assert (take (Z.to_nat (Z.min max (blen payload))) payload = take (Z.to_nat max) payload) as Et.
  { destruct (Z.le_ge_cases max (blen payload)); [by rewrite Z.min_l|].
    rewrite Z.min_r, !take_ge by (unfold blen in *; lia). done. }
  destruct compression; [| |done]; cbn [stored].
  - rewrite (proj2 (Z.ltb_ge _ _)) by lia. cbn [res_bind]. by rewrite Et.
  - destruct (lz4_compress_spec payload) as (Hb & Hs & _). unfold lz4_prefix.
    assert (blen payload / 255 <= MAX_SANE_UNCOMPRESSED_LEN / 255) by (apply Z.div_le_mono; lia).
    assert (MAX_SANE_UNCOMPRESSED_LEN + MAX_SANE_UNCOMPRESSED_LEN / 255 + 16 < 2 ^ 54) by by compute.
    pose proof (lz4_prefix_loop_correct _ _ _ Hs [] (S (length (lz4_compress payload)))
      (Z.min max (blen payload))) as E. cbn [app] in E. rewrite blen_nil in E.
    rewrite E by lia. cbn [res_bind]. by rewrite Et.
Qed.

(** The bounded read of a written frame returns the first [max] bytes of the payload, or all of
    it, with the header the full read returns, and leaves the same bytes unread. *)
Theorem frame_prefix_of_written `{!FrameDepsOk D} codec compression flags payload frame rest max :
  u8 codec -> u16 flags -> 0 <= max -> write_frame_with_flags codec compression flags payload = Ok frame ->
  exists header, read_frame_with_header (frame ++ rest) = Ok (header, payload, rest) /\
    read_frame_prefix (frame ++ rest) max = Ok (header, take (Z.to_nat max) payload, rest).
Proof.
  intros Hc Hf Hm (Hp & Hz & ->)%write_frame_inv. eexists. by split; [apply read_written|apply prefix_written].
Qed.
End FrameTheorems.

(** C39: on a block of the lz4 format, [lz4_prefix] returns the first [want] bytes the block decodes
    to, overlapping matches and extended run lengths included. *)
Theorem lz4_prefix_correct block out want :
  lz4_seq [] block out -> blen block < 2 ^ 54 -> 0 <= want <= blen out ->
  lz4_prefix block want = Ok (take (Z.to_nat want) out).
Proof.
  intros Hs Hb Hw. apply (lz4_prefix_loop_correct _ _ _ Hs []); [lia|done|]. by rewrite blen_nil.
Qed.

(** On any bytes at all, [lz4_prefix] stops within one turn per byte of the block (more fuel never
    changes its answer, in the decoding loop or in a run length), and what it returns is exactly
    [want] bytes, however long the runs declare themselves. *)
Theorem lz4_prefix_bounded block want fuel :
  0 <= want -> (length block < fuel)%nat ->
  lz4_prefix_loop fuel block want 0 [] = lz4_prefix block want /\
  (forall at_ nibble, 0 <= at_ -> run_len_loop fuel block at_ nibble = run_len_loop (S (length block)) block at_ nibble) /\
  forall out, lz4_prefix block want = Ok out -> blen out = want.
Proof.
  intros Hw Hf. split; [|split].
  - apply lz4_prefix_loop_fuel; unfold enough, blen; repeat split; lia.
  - intros at_ nibble Ha. apply run_len_loop_fuel; unfold enough, blen; repeat split; lia.
  - intros out. apply lz4_prefix_loop_len; [done|]. by rewrite blen_nil.
Qed.

(** [resync] returns the first offset at which [MAGIC] stands, and [None] only when it stands
    nowhere. *)
Theorem resync_finds_first bs :
  match resync bs with
  | Some k => take 4 (drop k bs) = MAGIC /\ forall j, (j < k)%nat -> take 4 (drop j bs) <> MAGIC
  | None => forall j, take 4 (drop j bs) <> MAGIC
  end.
Proof.
  unfold resync. pose proof (resync_at_spec bs 0) as H. destruct (resync_at 0 bs) as [k|]; [|done].
  rewrite Nat.sub_0_r in H. by destruct H as (_ & ? & ?).
Qed.

(** ** The laws hold of a concrete pair of crates

    CRC-32C bit by bit, and a compressor that emits a payload as one run of literals. *)

Fixpoint crc_bits (n : nat) (crc : Z) : Z :=
  match n with
  | O => crc
  | S n => crc_bits n (Z.lxor (Z.shiftr crc 1) (if Z.odd crc then 0x82F63B78 else 0))
  end.

Definition crc32c_bitwise (bs : bytes) : Z :=
  uwrap 32 (Z.lxor (foldl (fun crc b => crc_bits 8 (Z.lxor crc (b2z b))) 0xFFFFFFFF bs) 0xFFFFFFFF).

Definition literal_ext (n : Z) : bytes :=
  if n <? 15 then [] else repeat (z2b 255) (Z.to_nat ((n - 15) / 255)) ++ [z2b ((n - 15) mod 255)].

Definition literal_block (p : bytes) : bytes :=
  z2b (16 * Z.min (blen p) 15) :: literal_ext (blen p) ++ p.

Definition literal_deps : FrameDeps := {|
  crc32c := crc32c_bitwise;
  get_maximum_output_size n := n + n / 255 + 16;
  compress_into p buf :=
    if blen (literal_block p) <=? blen buf
    then Some (literal_block p ++ drop (length (literal_block p)) buf, blen (literal_block p)) else None;
  decompress_into block buf :=
    if blen buf <=? blen block then Some (drop (length block - length buf) block, blen buf) else None
|}.

Lemma literal_ext_run n : 0 <= n -> run_ext (Z.min n 15) (literal_ext n) n.
Proof.
  intros Hn. unfold literal_ext. destruct (Z.ltb_spec n 15).
  - rewrite Z.min_l by lia. constructor. lia.
  - rewrite Z.min_r by lia.
    replace n with (15 + 255 * Z.of_nat (Z.to_nat ((n - 15) / 255)) + (n - 15) mod 255) at 3.
    + constructor. apply Z.mod_pos_bound. lia.
    + rewrite Z2Nat.id by (apply Z.div_pos; lia). pose proof (Z.div_mod (n - 15) 255). lia.
Qed.

Lemma blen_literal_block p : blen (literal_block p) <= blen p + blen p / 255 + 16.
Proof.
  unfold literal_block, literal_ext. rewrite blen_cons, blen_app. pose proof (blen_nonneg p) as Hp.
  assert (0 <= blen p / 255) by (apply Z.div_pos; lia).
  destruct (Z.ltb_spec (blen p) 15); [rewrite blen_nil; lia|].
  rewrite blen_app, blen_cons, blen_nil. unfold blen at 1. rewrite repeat_length.
  assert ((blen p - 15) / 255 <= blen p / 255) by (apply Z.div_le_mono; lia).
  assert (0 <= (blen p - 15) / 255) by (apply Z.div_pos; lia). lia.
Qed.

Lemma literal_block_seq p : lz4_seq [] (literal_block p) p.
Proof.
  pose proof (blen_nonneg p) as Hp. unfold literal_block. rewrite <- (app_nil_l p) at 4.
  apply (lz4_last [] _ _ _ (blen p)); [|rewrite Z.mul_comm, Z.div_mul by done; by apply literal_ext_run|done].
  split; simpl; lia.
Qed.

#[global] Instance literal_deps_ok : FrameDepsOk literal_deps.
Proof.
  split; cbn [crc32c compress_into decompress_into get_maximum_output_size literal_deps].
  - intros bs. by apply uwrap_unsigned.
  - intros p buf Hb. pose proof (blen_literal_block p). rewrite (proj2 (Z.leb_le _ _)) by lia.
    do 2 eexists. split; [done|]. split; [done|]. apply literal_block_seq.
  - intros n Hn. assert (0 <= n / 255) by (apply Z.div_pos; lia). lia.
  - intros p buf out written buf' E Hl. case_match; [|done].
    assert (out = literal_block p ++ drop (length (literal_block p)) buf /\ written = blen (literal_block p))
      as [-> ->] by (split; congruence). clear E.
    rewrite take_blen_app, Hl.
    assert (literal_block p = (z2b (16 * Z.min (blen p) 15) :: literal_ext (blen p)) ++ p) as E by done.
    rewrite E. rewrite (proj2 (Z.leb_le _ _)).
    2:{ rewrite blen_app. pose proof (blen_nonneg (z2b (16 * Z.min (blen p) 15) :: literal_ext (blen p))). lia. }
    rewrite drop_app_length'; [done|]. rewrite length_app. unfold blen in Hl. lia.
Qed.

(** The check value of CRC-32C. *)
Lemma crc32c_bitwise_check : crc32c_bitwise (str "123456789") = 0xE3069283.
Proof. by vm_compute. Qed.

(** ** Witnesses *)

Definition sample_payload : bytes := str "a payload of the native protocol".

Lemma frame_round_trip_witness :
  exists frame, @write_frame_with_flags literal_deps 1 CompLz4 1 sample_payload = Ok frame /\
    exists header, @read_frame_with_header literal_deps (frame ++ str "tail") = Ok (header, sample_payload, str "tail") /\
      fh_codec header = 1 /\ fh_flags header = 1 /\ fh_compression header = CompLz4 /\
      fh_uncompressed_len header = 32 /\ blen frame = HEADER_LEN + fh_compressed_len header.
Proof.
  eexists. split; [by vm_compute|].
  apply (proj2 (frame_round_trip (D := literal_deps) 1 CompLz4 1 sample_payload ltac:(by split) ltac:(by split))).
  by vm_compute.
Defined.

Lemma truncated_frame_witness :
  exists needed, @read_frame_with_header literal_deps
    (take 40 (default [] (match @write_frame_with_flags literal_deps 1 CompLz4 1 sample_payload with
                          | Ok f => Some f | Err _ => None end))) = Err (Truncated needed) /\ 0 < needed <= 18.
Proof.
  eapply (truncated_frame (D := literal_deps) 1 CompLz4 1 sample_payload _
    (drop 40 (default [] (match @write_frame_with_flags literal_deps 1 CompLz4 1 sample_payload with
                          | Ok f => Some f | Err _ => None end))));
    [by split|by split| |].
  - rewrite take_drop. by vm_compute.
  - by vm_compute.
Defined.

Lemma frame_prefix_of_written_witness :
  exists frame, @write_frame_with_flags literal_deps 1 CompLz4 1 sample_payload = Ok frame /\
    exists header, @read_frame_with_header literal_deps (frame ++ str "tail") = Ok (header, sample_payload, str "tail") /\
      @read_frame_prefix literal_deps (frame ++ str "tail") 9 = Ok (header, str "a payload", str "tail").
Proof.
  eexists. split; [by vm_compute|].
  apply (frame_prefix_of_written (D := literal_deps) 1 CompLz4 1 sample_payload _ (str "tail") 9);
    [by split|by split|done|by vm_compute].
Defined.

(** ["abab"] as two literals and an overlapping match of ten, then the literals ["cd"]. *)
Definition overlapping_block : bytes :=
  z2b 0x26 :: [] ++ str "ab" ++ to_le_bytes 2 2 ++ [] ++ (z2b 0x20 :: [] ++ str "cd").

Lemma overlapping_block_seq : lz4_seq [] overlapping_block (str "ababababababcd").
Proof.
  apply (lz4_match [] 0x26 [] (str "ab") 2 2 [] 6 _ (str "abababababab")); try done; try by constructor.
  - split; [by exists (str "ababababab")|]. split; [done|]. intros j Hj.
    change (blen _) with 2 in Hj at 1. change (blen _) with 12 in Hj.
    assert (j = 2 \/ j = 3 \/ j = 4 \/ j = 5 \/ j = 6 \/ j = 7 \/ j = 8 \/ j = 9 \/ j = 10 \/ j = 11) as Hc by lia.
    by repeat (destruct Hc as [->|Hc]); [..|subst j].
  - change (str "ababababababcd") with (str "abababababab" ++ str "cd").
    apply (lz4_last _ 0x20 [] (str "cd") 2); [done| |done]. by constructor.
Qed.

Lemma lz4_prefix_correct_witness : lz4_prefix overlapping_block 7 = Ok (str "abababa").
Proof.
  apply (lz4_prefix_correct overlapping_block (str "ababababababcd") 7); [apply overlapping_block_seq|done|done].
Defined.

Lemma lz4_prefix_bounded_witness :
  lz4_prefix_loop 100 overlapping_block 7 0 [] = lz4_prefix overlapping_block 7 /\ blen (str "abababa") = 7.
Proof.
  destruct (lz4_prefix_bounded overlapping_block 7 100) as (H1 & _ & H3); [done|by compute; lia|].
  split; [exact H1|]. apply H3. by vm_compute.
Defined.
