(* ===== verification/NativeCodec.v ===== *)
(** * The file format's encoder and decoder

    [NativeEncoder] and [NativeDecoder] of crates/logit-proto/src/native/mod.rs: a batch's payload
    in one frame, decoded under the default budget and appended to the caller's events. *)

From S2P Require Import Prelude Codec Budget Reader Varint Utf8 Model Instances Wire Dict ValueCodec.
From S2P Require Import RecordCodec EventCodec Batch Frame.

Section NativeCodec.
Context `{Interner} `{Summaries} `{FrameDeps}.

Record NativeEncoder := mkNativeEncoder { ne_compression : Compression }.

Definition native_encode (self : NativeEncoder) (batch : EventBatch) : result bytes :=
  let payload := encode_batch batch in
  write_frame CODEC_BATCH (ne_compression self) payload.

(** [out] is the caller's vector: what it holds afterwards is the second component, whether the call
    succeeds or fails. *)
Definition native_decode_into (bs : bytes) (received_at : Z) (out : list Event) :
    result (Resource * option Scope) * list Event :=
  match read_frame bs with
  | Err e => (Err e, out)
  | Ok (codec, payload, _) =>
      if negb (codec =? CODEC_BATCH) then (Err (Unsupported "frame codec byte"), out)
      else
        match fst (decode_batch payload default_budget) with
        | Err e => (Err e, out)
        | Ok (batch, _) =>
            let events := batch_events batch in
            let out := match out with [] => events | _ :: _ => out ++ events end in
            (Ok (batch_resource batch, batch_scope batch), out)
        end
  end.
End NativeCodec.

(** Both branches append. *)
Lemma extend_events `{Summaries} (out events : list Event) :
  match out with [] => events | _ :: _ => out ++ events end = out ++ events.
Proof. by destruct out. Qed.


