(* ===== verification/Control.v ===== *)
(** * The hop's control messages

    crates/logit-proto/src/native/control.rs: [Hello], [HelloAck], [Ack] and [Reject], each a message
    type and a run of [tag + len + payload] fields. The readers here charge no budget: a plain
    [result] each, [parse] running a reader of the payload codec where one is shared. *)

From S2P Require Import Prelude Codec Budget Reader Varint Utf8 Wire.

Abbreviation PROTOCOL_VERSION := (1)%Z.

Definition MAX_REJECT_MESSAGE_BYTES : Z := 1024.
Abbreviation MAX_CHOICE_LIST_ENTRIES := (16)%Z.
Definition MAX_HELLO_SENDERS : Z := 16.
Definition SENDER_ID_BYTES : Z := 16.
Abbreviation MARK_ENTRY_BYTES := (SENDER_ID_BYTES + 8)%Z.
Definition MAX_CONTROL_MESSAGE_BYTES : Z := 4096.

Abbreviation MSG_HELLO := 1%Z.
Abbreviation MSG_HELLO_ACK := 2%Z.
Abbreviation MSG_ACK := 3%Z.
Abbreviation MSG_REJECT := 4%Z.

Abbreviation REJECT_VERSION_MISMATCH := 1%Z.
Abbreviation REJECT_NO_COMMON_CODEC := 2%Z.
Abbreviation REJECT_FRAME_TOO_LARGE := 3%Z.
Abbreviation REJECT_GOING_AWAY := 4%Z.
Abbreviation ACK_REJECTED_TOO_LARGE := 1%Z.
Abbreviation ACK_REJECTED_DECODE_BUDGET := 2%Z.
Abbreviation ACK_REJECTED_MALFORMED := 3%Z.

(** ** Fields *)

Definition write_field (tag : Z) (tmp : bytes) : bytes := [z2b tag] ++ write_uvarint (blen tmp) ++ tmp.

(** A reader that charges nothing, run outside a budget. *)
Definition parse {A} (r : reader A) (bs : bytes) : result (A * bytes) := fst (r bs unlimited).

Definition read_field (body : bytes) : result (option (Z * bytes) * bytes) :=
  match body with
  | [] => Ok (None, [])
  | _ :: _ =>
      let? (tag, body) := parse read_u8 body in
      let? (len, body) := parse read_uvarint body in
      if blen body <? len then Err (Malformed "control field declares more bytes than remain")
      else Ok (Some (tag, take (Z.to_nat len) body), drop (Z.to_nat len) body)
  end.

Definition write_u16 (tag v : Z) : bytes := write_field tag (write_uvarint v).
Definition write_u32 (tag v : Z) : bytes := write_field tag (write_uvarint v).
Definition write_bytes_field (tag : Z) (v : bytes) : bytes := write_field tag v.

Definition read_u16_field (field : bytes) : result Z :=
  let? (v, _) := parse read_uvarint field in
  if v <? 2 ^ 16 then Ok v else Err (Malformed "field value doesn't fit u16").

Definition read_u32_field (field : bytes) : result Z :=
  let? (v, _) := parse read_uvarint field in
  if v <? 2 ^ 32 then Ok v else Err (Malformed "field value doesn't fit u32").

(** The slot after the store. *)
Definition set_once {T} (slot : option T) (value : T) (msg field : string) : result (option T) :=
  match slot with
  | Some _ => Err (Malformed (msg +:+ " repeats " +:+ field))
  | None => Ok (Some value)
  end.

Definition required {T} (slot : option T) (msg field : string) : result T :=
  match slot with
  | Some v => Ok v
  | None => Err (Malformed (msg +:+ " is missing " +:+ field))
  end.

Definition unknown_tag (msg : string) : CodecError := Malformed (msg +:+ " has an unknown field tag").

(** [while !text.is_char_boundary(cut) { cut -= 1 }]; 0 is a boundary. *)
Fixpoint boundary_at_most (text : bytes) (cut : nat) : nat :=
  if is_char_boundary text cut then cut
  else match cut with O => O | S cut => boundary_at_most text cut end.

Definition truncate_to_cap (text : bytes) : bytes :=
  let cut := Z.min (blen text) MAX_REJECT_MESSAGE_BYTES in
  take (boundary_at_most text (Z.to_nat cut)) text.

Definition read_message_field (field : bytes) (msg : string) : result bytes :=
  if MAX_REJECT_MESSAGE_BYTES <? blen field then Err (Malformed (msg +:+ ".message over the sanity cap"))
  else Ok (truncate_to_cap (from_utf8_lossy field)).

Definition read_window_field (field : bytes) (msg : string) : result Z :=
  let? window := read_u32_field field in
  if window =? 0 then Err (Malformed (msg +:+ ".window is 0; it must be at least 1")) else Ok window.

(** [as_chunks::<n>()]: the whole chunks, their number given. *)
Fixpoint as_chunks (k : nat) (n : nat) (bs : bytes) : list bytes :=
  match k with
  | O => []
  | S k => take n bs :: as_chunks k n (drop n bs)
  end.

Definition read_senders_field (field : bytes) : result (list bytes) :=
  if negb (blen field mod SENDER_ID_BYTES =? 0) then
    Err (Malformed "Hello.senders is not a multiple of the identity's width")
  else
    let entries := blen field / SENDER_ID_BYTES in
    if MAX_HELLO_SENDERS <? entries then Err (Malformed "Hello.senders over the cap")
    else Ok (as_chunks (Z.to_nat entries) (Z.to_nat SENDER_ID_BYTES) field).

Definition read_mark (entry : bytes) : bytes * Z :=
  (take (Z.to_nat SENDER_ID_BYTES) entry, from_be_bytes (drop (Z.to_nat SENDER_ID_BYTES) entry)).

Definition read_marks_field (field : bytes) : result (list (bytes * Z)) :=
  if negb (blen field mod MARK_ENTRY_BYTES =? 0) then
    Err (Malformed "HelloAck.marks is not a multiple of the entry's width")
  else
    let entries := blen field / MARK_ENTRY_BYTES in
    if MAX_HELLO_SENDERS <? entries then Err (Malformed "HelloAck.marks over the cap")
    else Ok (map read_mark (as_chunks (Z.to_nat entries) (Z.to_nat MARK_ENTRY_BYTES) field)).

Definition read_choice_list (field : bytes) (what : string) : result bytes :=
  if MAX_CHOICE_LIST_ENTRIES <? blen field then Err (Malformed (what +:+ " over the sanity cap"))
  else Ok field.

(** [while let Some((tag, field)) = read_field(&mut body)? { visit }]: [St] is the message's local
    variables. A field is two bytes at least, so the body's length is fuel enough
    ([each_field_unfold]). *)
Fixpoint each_field_loop {St} (fuel : nat) (visit : Z -> bytes -> St -> result St) (body : bytes) (st : St) :
    result St :=
  let? (next, body) := read_field body in
  match next with
  | None => Ok st
  | Some (tag, field) =>
      match fuel with
      | O => Err (Malformed "out of fuel")
      | S fuel => let? st := visit tag field st in each_field_loop fuel visit body st
      end
  end.

Definition each_field {St} (visit : Z -> bytes -> St -> result St) (body : bytes) (st : St) : result St :=
  each_field_loop (length body) visit body st.

(** ** Hello *)

Record Hello := mkHello {
  he_version : Z;
  he_codecs : bytes;
  he_compressions : bytes;
  he_max_frame_bytes : Z;
  he_window : Z;
  he_senders : list bytes
}.

Abbreviation HELLO_FIELD_VERSION := 1%Z.
Abbreviation HELLO_FIELD_CODECS := 2%Z.
Abbreviation HELLO_FIELD_COMPRESSIONS := 3%Z.
Abbreviation HELLO_FIELD_MAX_FRAME_BYTES := 4%Z.
Abbreviation HELLO_FIELD_WINDOW := 5%Z.
Abbreviation HELLO_FIELD_SENDERS := 6%Z.

Definition hello_encode (self : Hello) : bytes :=
  [z2b MSG_HELLO] ++
  write_u16 HELLO_FIELD_VERSION (he_version self) ++
  write_bytes_field HELLO_FIELD_CODECS (he_codecs self) ++
  write_bytes_field HELLO_FIELD_COMPRESSIONS (he_compressions self) ++
  write_u32 HELLO_FIELD_MAX_FRAME_BYTES (he_max_frame_bytes self) ++
  write_u32 HELLO_FIELD_WINDOW (he_window self) ++
  write_field HELLO_FIELD_SENDERS (concat (he_senders self)).

Record HelloVars := mkHelloVars {
  hv_version : option Z;
  hv_codecs : option bytes;
  hv_compressions : option bytes;
  hv_max_frame_bytes : option Z;
  hv_window : option Z;
  hv_senders : option (list bytes)
}.

Definition hello_visit (tag : Z) (field : bytes) (v : HelloVars) : result HelloVars :=
  let 'mkHelloVars version codecs compressions max_frame_bytes window senders := v in
  if tag =? HELLO_FIELD_VERSION then
    let? value := read_u16_field field in
    let? version := set_once version value "Hello" "version" in
    Ok (mkHelloVars version codecs compressions max_frame_bytes window senders)
  else if tag =? HELLO_FIELD_CODECS then
    let? value := read_choice_list field "Hello.codecs" in
    let? codecs := set_once codecs value "Hello" "codecs" in
    Ok (mkHelloVars version codecs compressions max_frame_bytes window senders)
  else if tag =? HELLO_FIELD_COMPRESSIONS then
    let? value := read_choice_list field "Hello.compressions" in
    let? compressions := set_once compressions value "Hello" "compressions" in
    Ok (mkHelloVars version codecs compressions max_frame_bytes window senders)
  else if tag =? HELLO_FIELD_MAX_FRAME_BYTES then
    let? value := read_u32_field field in
    let? max_frame_bytes := set_once max_frame_bytes value "Hello" "max_frame_bytes" in
    Ok (mkHelloVars version codecs compressions max_frame_bytes window senders)
  else if tag =? HELLO_FIELD_WINDOW then
    let? value := read_window_field field "Hello" in
    let? window := set_once window value "Hello" "window" in
    Ok (mkHelloVars version codecs compressions max_frame_bytes window senders)
  else if tag =? HELLO_FIELD_SENDERS then
    let? value := read_senders_field field in
    let? senders := set_once senders value "Hello" "senders" in
    Ok (mkHelloVars version codecs compressions max_frame_bytes window senders)
  else Err (unknown_tag "Hello").

Definition hello_finish (v : HelloVars) : result Hello :=
  let? version := required (hv_version v) "Hello" "version" in
  let? codecs := required (hv_codecs v) "Hello" "codecs" in
  let? compressions := required (hv_compressions v) "Hello" "compressions" in
  let? max_frame_bytes := required (hv_max_frame_bytes v) "Hello" "max_frame_bytes" in
  let? window := required (hv_window v) "Hello" "window" in
  let? senders := required (hv_senders v) "Hello" "senders" in
  Ok (mkHello version codecs compressions max_frame_bytes window senders).

Definition hello_decode_fields (body : bytes) : result Hello :=
  let? v := each_field hello_visit body (mkHelloVars None None None None None None) in
  hello_finish v.

(** ** HelloAck *)

Record HelloAck := mkHelloAck {
  ha_version : Z;
  ha_codec : Z;
  ha_compression : Z;
  ha_max_frame_bytes : Z;
  ha_window : Z;
  ha_marks : list (bytes * Z)
}.

Abbreviation HELLO_ACK_FIELD_VERSION := 1%Z.
Abbreviation HELLO_ACK_FIELD_CODEC := 2%Z.
Abbreviation HELLO_ACK_FIELD_COMPRESSION := 3%Z.
Abbreviation HELLO_ACK_FIELD_MAX_FRAME_BYTES := 4%Z.
Abbreviation HELLO_ACK_FIELD_WINDOW := 5%Z.
Abbreviation HELLO_ACK_FIELD_MARKS := 6%Z.

Definition write_mark (entry : bytes * Z) : bytes := entry.1 ++ to_be_bytes 8 entry.2.

Definition hello_ack_encode (self : HelloAck) : bytes :=
  [z2b MSG_HELLO_ACK] ++
  write_u16 HELLO_ACK_FIELD_VERSION (ha_version self) ++
  write_field HELLO_ACK_FIELD_CODEC [z2b (ha_codec self)] ++
  write_field HELLO_ACK_FIELD_COMPRESSION [z2b (ha_compression self)] ++
  write_u32 HELLO_ACK_FIELD_MAX_FRAME_BYTES (ha_max_frame_bytes self) ++
  write_u32 HELLO_ACK_FIELD_WINDOW (ha_window self) ++
  write_field HELLO_ACK_FIELD_MARKS (concat (map write_mark (ha_marks self))).

Record HelloAckVars := mkHelloAckVars {
  av_version : option Z;
  av_codec : option Z;
  av_compression : option Z;
  av_max_frame_bytes : option Z;
  av_window : option Z;
  av_marks : option (list (bytes * Z))
}.

Definition hello_ack_visit (tag : Z) (field : bytes) (v : HelloAckVars) : result HelloAckVars :=
  let 'mkHelloAckVars version codec compression max_frame_bytes window marks := v in
  if tag =? HELLO_ACK_FIELD_VERSION then
    let? value := read_u16_field field in
    let? version := set_once version value "HelloAck" "version" in
    Ok (mkHelloAckVars version codec compression max_frame_bytes window marks)
  else if tag =? HELLO_ACK_FIELD_CODEC then
    let? (value, _) := parse read_u8 field in
    let? codec := set_once codec value "HelloAck" "codec" in
    Ok (mkHelloAckVars version codec compression max_frame_bytes window marks)
  else if tag =? HELLO_ACK_FIELD_COMPRESSION then
    let? (value, _) := parse read_u8 field in
    let? compression := set_once compression value "HelloAck" "compression" in
    Ok (mkHelloAckVars version codec compression max_frame_bytes window marks)
  else if tag =? HELLO_ACK_FIELD_MAX_FRAME_BYTES then
    let? value := read_u32_field field in
    let? max_frame_bytes := set_once max_frame_bytes value "HelloAck" "max_frame_bytes" in
    Ok (mkHelloAckVars version codec compression max_frame_bytes window marks)
  else if tag =? HELLO_ACK_FIELD_WINDOW then
    let? value := read_window_field field "HelloAck" in
    let? window := set_once window value "HelloAck" "window" in
    Ok (mkHelloAckVars version codec compression max_frame_bytes window marks)
  else if tag =? HELLO_ACK_FIELD_MARKS then
    let? value := read_marks_field field in
    let? marks := set_once marks value "HelloAck" "marks" in
    Ok (mkHelloAckVars version codec compression max_frame_bytes window marks)
  else Err (unknown_tag "HelloAck").

Definition hello_ack_finish (v : HelloAckVars) : result HelloAck :=
  let? version := required (av_version v) "HelloAck" "version" in
  let? codec := required (av_codec v) "HelloAck" "codec" in
  let? compression := required (av_compression v) "HelloAck" "compression" in
  let? max_frame_bytes := required (av_max_frame_bytes v) "HelloAck" "max_frame_bytes" in
  let? window := required (av_window v) "HelloAck" "window" in
  let? marks := required (av_marks v) "HelloAck" "marks" in
  Ok (mkHelloAck version codec compression max_frame_bytes window marks).

Definition hello_ack_decode_fields (body : bytes) : result HelloAck :=
  let? v := each_field hello_ack_visit body (mkHelloAckVars None None None None None None) in
  hello_ack_finish v.

(** ** Ack *)

Inductive AckStatus :=
| Accepted
| Rejected (reason : Z) (message : option bytes).

Record Ack := mkAck { ack_id : bytes; ack_seq : Z; ack_status : AckStatus }.

Abbreviation ACK_FIELD_ID := 1%Z.
Abbreviation ACK_FIELD_SEQ := 2%Z.
Abbreviation ACK_FIELD_STATUS := 3%Z.
Abbreviation ACK_FIELD_REASON := 4%Z.
Abbreviation ACK_FIELD_MESSAGE := 5%Z.

Abbreviation ACK_STATUS_ACCEPTED := 0%Z.
Abbreviation ACK_STATUS_REJECTED := 1%Z.

Definition ack_status_rejected (reason : Z) (message : bytes) : AckStatus :=
  Rejected reason (Some (truncate_to_cap message)).

Definition ack_accepted (id : bytes) (seq : Z) : Ack := mkAck id seq Accepted.

Definition ack_encode (self : Ack) : bytes :=
  [z2b MSG_ACK] ++
  write_bytes_field ACK_FIELD_ID (ack_id self) ++
  write_field ACK_FIELD_SEQ (write_uvarint (ack_seq self)) ++
  match ack_status self with
  | Accepted => write_bytes_field ACK_FIELD_STATUS [z2b ACK_STATUS_ACCEPTED]
  | Rejected reason message =>
      write_bytes_field ACK_FIELD_STATUS [z2b ACK_STATUS_REJECTED] ++
      write_u16 ACK_FIELD_REASON reason ++
      match message with
      | Some message => write_bytes_field ACK_FIELD_MESSAGE message
      | None => []
      end
  end.

Record AckVars := mkAckVars {
  kv_id : option bytes;
  kv_seq : option Z;
  kv_status : option Z;
  kv_reason : option Z;
  kv_message : option bytes
}.

Definition ack_visit (tag : Z) (field : bytes) (v : AckVars) : result AckVars :=
  let 'mkAckVars id seq status reason message := v in
  if tag =? ACK_FIELD_ID then
    if blen field =? SENDER_ID_BYTES then
      let? id := set_once id field "Ack" "id" in
      Ok (mkAckVars id seq status reason message)
    else Err (Malformed "Ack.id is not 16 bytes")
  else if tag =? ACK_FIELD_SEQ then
    let? (value, _) := parse read_uvarint field in
    if value =? 0 then Err (Malformed "Ack.seq is 0")
    else
      let? seq := set_once seq value "Ack" "seq" in
      Ok (mkAckVars id seq status reason message)
  else if tag =? ACK_FIELD_STATUS then
    let? value :=
      match field with
      | [byte] =>
          if (b2z byte =? ACK_STATUS_ACCEPTED) || (b2z byte =? ACK_STATUS_REJECTED) then Ok (b2z byte)
          else Err (Malformed "Ack.status is not one byte of 0 or 1")
      | _ => Err (Malformed "Ack.status is not one byte of 0 or 1")
      end in
    let? status := set_once status value "Ack" "status" in
    Ok (mkAckVars id seq status reason message)
  else if tag =? ACK_FIELD_REASON then
    let? value := read_u16_field field in
    let? reason := set_once reason value "Ack" "reason" in
    Ok (mkAckVars id seq status reason message)
  else if tag =? ACK_FIELD_MESSAGE then
    let? value := read_message_field field "Ack" in
    let? message := set_once message value "Ack" "message" in
    Ok (mkAckVars id seq status reason message)
  else Err (unknown_tag "Ack").

Definition ack_finish (v : AckVars) : result Ack :=
  let? id := required (kv_id v) "Ack" "id" in
  let? seq := required (kv_seq v) "Ack" "seq" in
  let? status := required (kv_status v) "Ack" "status" in
  let? status :=
    if status =? ACK_STATUS_ACCEPTED then
      if bool_decide (is_Some (kv_reason v)) || bool_decide (is_Some (kv_message v)) then
        Err (Malformed "an accepted Ack carries a reason or a message")
      else Ok Accepted
    else
      let? reason := required (kv_reason v) "Ack" "reason" in
      Ok (Rejected reason (kv_message v)) in
  Ok (mkAck id seq status).

Definition ack_decode_fields (body : bytes) : result Ack :=
  let? v := each_field ack_visit body (mkAckVars None None None None None) in
  ack_finish v.

(** ** Reject *)

Record Reject := mkReject { rej_code : Z; rej_message : bytes }.

Abbreviation REJECT_FIELD_CODE := 1%Z.
Abbreviation REJECT_FIELD_MESSAGE := 2%Z.

Definition reject_encode (self : Reject) : bytes :=
  [z2b MSG_REJECT] ++ write_u16 REJECT_FIELD_CODE (rej_code self) ++
  write_bytes_field REJECT_FIELD_MESSAGE (rej_message self).

Definition reject_visit (tag : Z) (field : bytes) (v : option Z * option bytes) : result (option Z * option bytes) :=
  let '(code, message) := v in
  if tag =? REJECT_FIELD_CODE then
    let? value := read_u16_field field in
    let? code := set_once code value "Reject" "code" in
    Ok (code, message)
  else if tag =? REJECT_FIELD_MESSAGE then
    let? value := read_message_field field "Reject" in
    let? message := set_once message value "Reject" "message" in
    Ok (code, message)
  else Err (unknown_tag "Reject").

Definition reject_finish (v : option Z * option bytes) : result Reject :=
  let? code := required v.1 "Reject" "code" in
  let? message := required v.2 "Reject" "message" in
  Ok (mkReject code message).

Definition reject_decode_fields (body : bytes) : result Reject :=
  let? v := each_field reject_visit body (None, None) in
  reject_finish v.

(** ** Dispatch *)

Inductive ControlMessage :=
| CmHello (m : Hello)
| CmHelloAck (m : HelloAck)
| CmAck (m : Ack)
| CmReject (m : Reject).

Definition control_encode (self : ControlMessage) : bytes :=
  match self with
  | CmHello m => hello_encode m
  | CmHelloAck m => hello_ack_encode m
  | CmAck m => ack_encode m
  | CmReject m => reject_encode m
  end.

Definition control_decode (bs : bytes) : result ControlMessage :=
  let? (msg_type, body) := parse read_u8 bs in
  if msg_type =? MSG_HELLO then res_map CmHello (hello_decode_fields body)
  else if msg_type =? MSG_HELLO_ACK then res_map CmHelloAck (hello_ack_decode_fields body)
  else if msg_type =? MSG_ACK then res_map CmAck (ack_decode_fields body)
  else if msg_type =? MSG_REJECT then res_map CmReject (reject_decode_fields body)
  else Err (Malformed "unknown control message type").

(** What is left after the message-type byte. *)
Definition expect_msg_type (bs : bytes) (expected : Z) (name : string) : result bytes :=
  let? (msg_type, bs) := parse read_u8 bs in
  if negb (msg_type =? expected) then Err (Malformed ("expected a " +:+ name +:+ " control message"))
  else Ok bs.

Definition hello_decode (bs : bytes) : result Hello :=
  let? bs := expect_msg_type bs MSG_HELLO "Hello" in hello_decode_fields bs.

Definition hello_ack_decode (bs : bytes) : result HelloAck :=
  let? bs := expect_msg_type bs MSG_HELLO_ACK "HelloAck" in hello_ack_decode_fields bs.

Definition ack_decode (bs : bytes) : result Ack :=
  let? bs := expect_msg_type bs MSG_ACK "Ack" in ack_decode_fields bs.

Definition reject_decode (bs : bytes) : result Reject :=
  let? bs := expect_msg_type bs MSG_REJECT "Reject" in reject_decode_fields bs.

(** ** Well-formed messages: what a sender may put in each *)

Definition unsigned_b (w v : Z) : bool := bool_decide (unsigned w v).

Definition id_ok (id : bytes) : bool := blen id =? SENDER_ID_BYTES.

Definition hello_ok (m : Hello) : bool :=
  unsigned_b 16 (he_version m) && (blen (he_codecs m) <=? MAX_CHOICE_LIST_ENTRIES) &&
  (blen (he_compressions m) <=? MAX_CHOICE_LIST_ENTRIES) && unsigned_b 32 (he_max_frame_bytes m) &&
  (unsigned_b 32 (he_window m) && (1 <=? he_window m)) &&
  ((Z.of_nat (length (he_senders m)) <=? MAX_HELLO_SENDERS) && forallb id_ok (he_senders m)).

Definition mark_ok (entry : bytes * Z) : bool := id_ok entry.1 && unsigned_b 64 entry.2.

Definition hello_ack_ok (m : HelloAck) : bool :=
  unsigned_b 16 (ha_version m) && unsigned_b 8 (ha_codec m) && unsigned_b 8 (ha_compression m) &&
  unsigned_b 32 (ha_max_frame_bytes m) && (unsigned_b 32 (ha_window m) && (1 <=? ha_window m)) &&
  ((Z.of_nat (length (ha_marks m)) <=? MAX_HELLO_SENDERS) && forallb mark_ok (ha_marks m)).

Definition message_text_ok (text : bytes) : bool :=
  (blen text <=? MAX_REJECT_MESSAGE_BYTES) && utf8_valid text.

Definition ack_ok (m : Ack) : bool :=
  id_ok (ack_id m) && (unsigned_b 64 (ack_seq m) && (1 <=? ack_seq m)) &&
  match ack_status m with
  | Accepted => true
  | Rejected reason message =>
      unsigned_b 16 reason && match message with Some text => message_text_ok text | None => true end
  end.

Definition reject_ok (m : Reject) : bool := unsigned_b 16 (rej_code m) && message_text_ok (rej_message m).

Definition control_ok (m : ControlMessage) : bool :=
  match m with
  | CmHello m => hello_ok m
  | CmHelloAck m => hello_ack_ok m
  | CmAck m => ack_ok m
  | CmReject m => reject_ok m
  end.

(** ** Reading fields back *)

Lemma parse_reads {A} (r : reader A) w a rest : reads_back r w a 0 -> blen w < 2 ^ 64 -> parse r (w ++ rest) = Ok (a, rest).
Proof. intros [_ H] Hw. unfold parse. by rewrite H. Qed.

Lemma blen_uvarint_bounds v : u64 v -> 1 <= blen (write_uvarint v) <= 10.
Proof. intros Hv. rewrite blen_write_uvarint by done. by apply uvarint_len_bounds. Qed.

Lemma parse_uvarint v rest : u64 v -> parse read_uvarint (write_uvarint v ++ rest) = Ok (v, rest).
Proof. intros Hv. apply parse_reads; [by apply reads_uvarint|]. pose proof (blen_uvarint_bounds v Hv). lia. Qed.

Lemma parse_uvarint_all v : u64 v -> parse read_uvarint (write_uvarint v) = Ok (v, []).
Proof. intros Hv. rewrite <- (app_nil_r (write_uvarint v)). by apply parse_uvarint. Qed.

Lemma read_field_written tag p rest :
  u8 tag -> blen p < 2 ^ 64 -> read_field (write_field tag p ++ rest) = Ok (Some (tag, p), rest).
Proof.
  intros Ht Hp. unfold write_field, read_field. cbn [app]. unfold parse at 1. cbn [read_u8 fst res_bind].
  rewrite b2z_z2b_small by (unfold unsigned in Ht; lia). rewrite <- app_assoc.
  rewrite parse_uvarint by (split; [apply blen_nonneg|done]). cbn [res_bind].
  rewrite blen_app. pose proof (blen_nonneg rest). rewrite (proj2 (Z.ltb_ge _ _)) by lia.
  unfold blen. by rewrite Nat2Z.id, take_app_length, drop_app_length.
Qed.

Lemma parse_consumes {A} (r : reader A) bs a rest : consumes r -> parse r bs = Ok (a, rest) -> exists used, bs = used ++ rest.
Proof.
  intros Hr. unfold parse. destruct (r bs unlimited) as [[[a' r']|e] b'] eqn:E; [|done].
  intros [= <- <-]. by eapply Hr.
Qed.

Lemma read_field_shrinks body f rest :
  read_field body = Ok (Some f, rest) -> (length rest < length body)%nat.
Proof.
  unfold read_field. destruct body as [|x body]; [done|].
  unfold parse at 1. cbn [read_u8 fst res_bind].
  intros ([len body1] & E & H)%res_bind_Ok. apply parse_consumes in E as [used ->]; [|auto with reader].
  case_match; [done|]. injection H as <- <-. cbn [length]. rewrite length_drop, length_app. lia.
Qed.

(** The source's loop: a turn per field, until the body is empty. *)
Lemma each_field_unfold {St} (visit : Z -> bytes -> St -> result St) body st :
  each_field visit body st =
  (let? (next, body) := read_field body in
   match next with
   | None => Ok st
   | Some (tag, field) => let? st := visit tag field st in each_field visit body st
   end).
Proof.
  unfold each_field.
  assert (forall n m body st, (length body <= n)%nat -> (length body <= m)%nat ->
    each_field_loop n visit body st = each_field_loop m visit body st) as Hfuel.
  { clear body st. induction n as [|n IH]; intros m body st Hn Hm; destruct m as [|m]; cbn [each_field_loop];
      (destruct (read_field body) as [[[[tag field]|] rest]|e] eqn:E; cbn [res_bind]; [|done..]); try done;
      pose proof (read_field_shrinks _ _ _ E); [lia|lia|].
    destruct (visit tag field st); cbn [res_bind]; [|done]. apply IH; lia. }
  destruct (length body) as [|n] eqn:Hl; cbn [each_field_loop];
    (destruct (read_field body) as [[[[tag field]|] rest]|e] eqn:E; cbn [res_bind]; [|done..]);
    pose proof (read_field_shrinks _ _ _ E); [lia|].
  destruct (visit tag field st); cbn [res_bind]; [|done]. apply Hfuel; lia.
Qed.

Lemma each_field_nil {St} (visit : Z -> bytes -> St -> result St) st : each_field visit [] st = Ok st.
Proof. done. Qed.

Lemma each_field_written {St} (visit : Z -> bytes -> St -> result St) tag p rest st st' :
  u8 tag -> blen p < 2 ^ 64 -> visit tag p st = Ok st' ->
  each_field visit (write_field tag p ++ rest) st = each_field visit rest st'.
Proof.
  intros Ht Hp Hv. rewrite each_field_unfold, read_field_written by done. cbn [res_bind]. by rewrite Hv.
Qed.

Lemma each_field_last {St} (visit : Z -> bytes -> St -> result St) tag p st st' :
  u8 tag -> blen p < 2 ^ 64 -> visit tag p st = Ok st' -> each_field visit (write_field tag p) st = Ok st'.
Proof.
  intros Ht Hp Hv. rewrite <- (app_nil_r (write_field tag p)).
  by rewrite (each_field_written _ _ _ _ _ st').
Qed.

(** ** Each field's payload *)

Lemma read_u16_written v : u16 v -> read_u16_field (write_uvarint v) = Ok v.
Proof.
  intros [H1 H2]. unfold read_u16_field. rewrite parse_uvarint_all by (split; lia). cbn [res_bind].
  by rewrite (proj2 (Z.ltb_lt _ _) H2).
Qed.

Lemma read_u32_written v : u32 v -> read_u32_field (write_uvarint v) = Ok v.
Proof.
  intros [H1 H2]. unfold read_u32_field. rewrite parse_uvarint_all by (split; lia). cbn [res_bind].
  by rewrite (proj2 (Z.ltb_lt _ _) H2).
Qed.

Lemma read_window_written v msg : u32 v -> 1 <= v -> read_window_field (write_uvarint v) msg = Ok v.
Proof.
  intros Hv H1. unfold read_window_field. rewrite read_u32_written by done. cbn [res_bind].
  by rewrite (proj2 (Z.eqb_neq v 0)) by lia.
Qed.

Lemma read_choice_ok l what : blen l <= MAX_CHOICE_LIST_ENTRIES -> read_choice_list l what = Ok l.
Proof. intros Hl. unfold read_choice_list. by rewrite (proj2 (Z.ltb_ge _ _)). Qed.

Lemma boundary_at_most_le text cut : (boundary_at_most text cut <= cut)%nat.
Proof. induction cut as [|cut IH]; cbn [boundary_at_most]; [done|]. case_match; lia. Qed.

Lemma boundary_at_most_boundary text cut : is_char_boundary text (boundary_at_most text cut) = true.
Proof. induction cut as [|cut IH]; cbn [boundary_at_most]; [done|]. by case_match. Qed.

Lemma truncate_to_cap_ok text : utf8_valid text = true -> message_text_ok (truncate_to_cap text) = true.
Proof.
  intros Hv. unfold message_text_ok, truncate_to_cap. apply andb_true_iff. split.
  - apply Z.leb_le. unfold blen at 1. rewrite length_take.
    pose proof (boundary_at_most_le text (Z.to_nat (Z.min (blen text) MAX_REJECT_MESSAGE_BYTES))).
    unfold MAX_REJECT_MESSAGE_BYTES in *. lia.
  - apply utf8_valid_take; [done|]. apply boundary_at_most_boundary.
Qed.

Lemma truncate_to_cap_id text : blen text <= MAX_REJECT_MESSAGE_BYTES -> truncate_to_cap text = text.
Proof.
  intros Hl. unfold truncate_to_cap. rewrite Z.min_l by done. unfold blen. rewrite Nat2Z.id.
  assert (is_char_boundary text (length text) = true) as Hb.
  { unfold is_char_boundary. by rewrite lookup_ge_None_2, Nat.eqb_refl, orb_true_r. }
  destruct (length text) eqn:E; cbn [boundary_at_most]; rewrite Hb, <- E; apply firstn_all.
Qed.

Lemma read_message_written text msg : message_text_ok text = true -> read_message_field text msg = Ok text.
Proof.
  intros [Hl%Z.leb_le Hv]%andb_true_iff. unfold read_message_field. rewrite (proj2 (Z.ltb_ge _ _)) by done.
  by rewrite from_utf8_lossy_id, truncate_to_cap_id.
Qed.

Lemma as_chunks_concat n (l : list bytes) :
  Forall (fun c => length c = n) l -> as_chunks (length l) n (concat l) = l.
Proof.
  induction 1 as [|c l Hc _ IH]; [done|]. cbn [length as_chunks concat].
  rewrite take_app_length', drop_app_length' by done. by rewrite IH.
Qed.

Lemma blen_concat n (l : list bytes) :
  Forall (fun c => length c = n) l -> blen (concat l) = Z.of_nat (length l) * Z.of_nat n.
Proof.
  induction 1 as [|c l Hc _ IH]; [done|]. cbn [concat length]. rewrite blen_app, IH. unfold blen. lia.
Qed.

Lemma id_ok_length id : id_ok id = true -> length id = 16%nat.
Proof. unfold id_ok, SENDER_ID_BYTES, blen. intros H%Z.eqb_eq. lia. Qed.

Lemma ids_length l : forallb id_ok l = true -> Forall (fun c => length c = 16%nat) l.
Proof.
  intros H%Is_true_true%forallb_True. eapply Forall_impl; [exact H|]. intros x Hx%Is_true_true.
  by apply id_ok_length.
Qed.

Lemma read_senders_written l :
  Z.of_nat (length l) <= MAX_HELLO_SENDERS -> forallb id_ok l = true -> read_senders_field (concat l) = Ok l.
Proof.
  intros Hl Hid%ids_length. unfold read_senders_field. rewrite (blen_concat 16) by done.
  change (Z.of_nat 16) with SENDER_ID_BYTES. rewrite Z.mod_mul, Z.div_mul by done. cbn [Z.eqb negb].
  rewrite (proj2 (Z.ltb_ge _ _)) by done. rewrite Nat2Z.id. by rewrite as_chunks_concat.
Qed.

Lemma read_mark_written entry : mark_ok entry = true -> read_mark (write_mark entry) = entry.
Proof.
  destruct entry as [id mark]. intros [Hid%id_ok_length Hm]%andb_true_iff.
  apply bool_decide_eq_true in Hm. unfold read_mark, write_mark. change (Z.to_nat SENDER_ID_BYTES) with 16%nat.
  cbn [fst snd] in *. rewrite take_app_length', drop_app_length' by done.
  by rewrite from_to_be_unsigned.
Qed.

Lemma marks_length l :
  forallb mark_ok l = true -> Forall (fun c => length c = 24%nat) (map write_mark l).
Proof.
  intros H%Is_true_true%forallb_True. apply Forall_map. eapply Forall_impl; [exact H|].
  intros [id mark] Hx%Is_true_true. apply andb_true_iff in Hx as [Hid%id_ok_length _].
  unfold write_mark. cbn [fst snd] in *. by rewrite length_app, length_to_be_bytes, Hid.
Qed.

Lemma read_marks_written l :
  Z.of_nat (length l) <= MAX_HELLO_SENDERS -> forallb mark_ok l = true ->
  read_marks_field (concat (map write_mark l)) = Ok l.
Proof.
  intros Hl Hm. pose proof (marks_length l Hm) as Hf. unfold read_marks_field.
  rewrite (blen_concat 24), length_map by done.
  change (Z.of_nat 24) with MARK_ENTRY_BYTES. rewrite Z.mod_mul, Z.div_mul by done. cbn [Z.eqb negb].
  rewrite (proj2 (Z.ltb_ge _ _)) by done. rewrite Nat2Z.id. rewrite <- (length_map write_mark l).
  change (Z.to_nat MARK_ENTRY_BYTES) with 24%nat. rewrite as_chunks_concat, map_map by done. f_equal.
  clear Hl Hf. induction l as [|e l IH]; [done|]. cbn [forallb map] in *. apply andb_true_iff in Hm as [He Hm].
  by rewrite read_mark_written, IH.
Qed.

(** ** Messages read back *)

Lemma control_decode_cons t body :
  u8 t ->
  control_decode (z2b t :: body) =
  (if t =? MSG_HELLO then res_map CmHello (hello_decode_fields body)
   else if t =? MSG_HELLO_ACK then res_map CmHelloAck (hello_ack_decode_fields body)
   else if t =? MSG_ACK then res_map CmAck (ack_decode_fields body)
   else if t =? MSG_REJECT then res_map CmReject (reject_decode_fields body)
   else Err (Malformed "unknown control message type")).
Proof.
  intros Ht. unfold control_decode, parse. cbn [read_u8 fst res_bind].
  by rewrite b2z_z2b_small by (unfold unsigned in Ht; lia).
Qed.

Lemma uvarint_short v w : 0 <= v < 2 ^ w -> 0 <= w <= 64 -> blen (write_uvarint v) < 2 ^ 64.
Proof.
  intros Hv Hw. assert (2 ^ w <= 2 ^ 64) by (apply Z.pow_le_mono_r; lia).
  pose proof (blen_uvarint_bounds v ltac:(split; lia)). lia.
Qed.

Lemma choice_short l : blen l <= MAX_CHOICE_LIST_ENTRIES -> blen l < 2 ^ 64.
Proof. lia. Qed.

Lemma text_short l : message_text_ok l = true -> blen l < 2 ^ 64.
Proof. intros [H%Z.leb_le _]%andb_true_iff. unfold MAX_REJECT_MESSAGE_BYTES in H. lia. Qed.

Lemma chunks_short n l :
  Z.of_nat (length l) <= MAX_HELLO_SENDERS -> (n <= 24)%nat -> Forall (fun c => length c = n) l -> blen (concat l) < 2 ^ 64.
Proof. intros Hl Hn Hf. rewrite (blen_concat n) by done. unfold MAX_HELLO_SENDERS in Hl. nia. Qed.

Create HintDb control discriminated.
#[export] Hint Resolve uvarint_short choice_short text_short chunks_short ids_length marks_length
  read_u16_written read_u32_written read_window_written read_choice_ok read_message_written
  read_senders_written read_marks_written : control.
#[export] Hint Extern 5 (_ <= _) => lia : control.

Ltac ok_facts :=
  repeat match goal with
  | H : (_ && _) = true |- _ => apply andb_true_iff in H as [? ?]
  | H : (_ <=? _) = true |- _ => apply Z.leb_le in H
  | H : unsigned_b _ _ = true |- _ => apply bool_decide_eq_true in H
  end.

(** One field: its visitor's branch, the value it reads, and the empty slot it fills. *)
Ltac field_by E :=
  cbn -[read_u16_field read_u32_field read_window_field read_choice_list read_message_field
    read_senders_field read_marks_field parse write_uvarint];
  rewrite E by eauto with control; reflexivity.

Lemma hello_round m : hello_ok m = true -> control_decode (hello_encode m) = Ok (CmHello m).
Proof.
  destruct m as [ver codecs comps maxf win senders]. unfold hello_ok, hello_encode.
  cbn [he_version he_codecs he_compressions he_max_frame_bytes he_window he_senders]. intros H. ok_facts.
  cbn [app]. rewrite control_decode_cons by done. cbn [Z.eqb Pos.eqb].
  unfold hello_decode_fields, write_u16, write_u32, write_bytes_field.
  erewrite each_field_written; [|done|by eapply (uvarint_short _ 16)|field_by read_u16_written].
  erewrite each_field_written; [|done|by apply choice_short|field_by (read_choice_ok codecs)].
  erewrite each_field_written; [|done|by apply choice_short|field_by (read_choice_ok comps)].
  erewrite each_field_written; [|done|by eapply (uvarint_short _ 32)|field_by read_u32_written].
  erewrite each_field_written; [|done|by eapply (uvarint_short _ 32)|field_by read_window_written].
  erewrite each_field_last; [|done|by apply (chunks_short 16); [|lia|apply ids_length]|field_by read_senders_written].
  done.
Qed.

Lemma parse_byte v : u8 v -> parse read_u8 [z2b v] = Ok (v, []).
Proof. intros [H1 H2]. unfold parse. cbn. by rewrite b2z_z2b_small by lia. Qed.

Lemma hello_ack_round m : hello_ack_ok m = true -> control_decode (hello_ack_encode m) = Ok (CmHelloAck m).
Proof.
  destruct m as [ver codec comp maxf win marks]. unfold hello_ack_ok, hello_ack_encode.
  cbn [ha_version ha_codec ha_compression ha_max_frame_bytes ha_window ha_marks]. intros H. ok_facts.
  cbn [app]. rewrite control_decode_cons by done. cbn [Z.eqb Pos.eqb].
  unfold hello_ack_decode_fields, write_u16, write_u32.
  erewrite each_field_written; [|done|by eapply (uvarint_short _ 16)|field_by read_u16_written].
  erewrite each_field_written; [|done|done|field_by parse_byte].
  erewrite each_field_written; [|done|done|field_by parse_byte].
  erewrite each_field_written; [|done|by eapply (uvarint_short _ 32)|field_by read_u32_written].
  erewrite each_field_written; [|done|by eapply (uvarint_short _ 32)|field_by read_window_written].
  erewrite each_field_last; [|done| |field_by read_marks_written]; [done|].
  apply (chunks_short 24); [by rewrite length_map|done|by apply marks_length].
Qed.

Lemma ack_round m : ack_ok m = true -> control_decode (ack_encode m) = Ok (CmAck m).
Proof.
  destruct m as [id seq status]. unfold ack_ok, ack_encode. cbn [ack_id ack_seq ack_status]. intros H. ok_facts.
  cbn [app]. rewrite control_decode_cons by done. cbn [Z.eqb Pos.eqb].
  unfold ack_decode_fields, write_u16, write_bytes_field.
  assert (blen id < 2 ^ 64) as Hid by (apply Z.eqb_eq in H; rewrite H; done).
  rewrite (each_field_written _ _ _ _ _ (mkAckVars (Some id) None None None None)); [|done|done|].
  2:{ cbn -[blen]. unfold id_ok in H. by rewrite H. }
  rewrite (each_field_written _ _ _ _ _ (mkAckVars (Some id) (Some seq) None None None));
    [|done|by eapply (uvarint_short _ 64)|].
  2:{ cbn -[parse write_uvarint]. rewrite parse_uvarint_all by done. cbn [res_bind].
      by rewrite (proj2 (Z.eqb_neq seq 0)) by lia. }
  destruct status as [|reason message].
  { by erewrite each_field_last; [|done|done|reflexivity]. }
  ok_facts. erewrite each_field_written; [|done|done|reflexivity]. destruct message as [text|].
  - erewrite each_field_written; [|done|by eapply (uvarint_short _ 16)|field_by read_u16_written].
    erewrite each_field_last; [|done|by apply text_short|field_by read_message_written]. done.
  - rewrite app_nil_r.
    erewrite each_field_last; [|done|by eapply (uvarint_short _ 16)|field_by read_u16_written]. done.
Qed.

Lemma reject_round m : reject_ok m = true -> control_decode (reject_encode m) = Ok (CmReject m).
Proof.
  destruct m as [code message]. unfold reject_ok, reject_encode. cbn [rej_code rej_message]. intros H. ok_facts.
  cbn [app]. rewrite control_decode_cons by done. cbn [Z.eqb Pos.eqb].
  unfold reject_decode_fields, write_u16, write_bytes_field.
  erewrite each_field_written; [|done|by eapply (uvarint_short _ 16)|field_by read_u16_written].
  erewrite each_field_last; [|done|by apply text_short|field_by read_message_written]. done.
Qed.

Lemma control_round m : control_ok m = true -> control_decode (control_encode m) = Ok m.
Proof.
  destruct m as [m|m|m|m]; [apply hello_round|apply hello_ack_round|apply ack_round|apply reject_round].
Qed.

(** ** What decoding any bytes gives *)

(** A success satisfies [P]; an error is [Malformed]. *)
Definition gives {A} (P : A -> Prop) (r : result A) : Prop :=
  match r with
  | Ok a => P a
  | Err e => exists what, e = Malformed what
  end.

Lemma gives_bind {A B} (P : A -> Prop) (Q : B -> Prop) r (k : A -> result B) :
  gives P r -> (forall a, P a -> gives Q (k a)) -> gives Q (res_bind r k).
Proof. destruct r; simpl; auto. Qed.

Lemma gives_malformed {A} (P : A -> Prop) what : gives P (Err (Malformed what)).
Proof. simpl. eauto. Qed.

Lemma gives_mono {A} (P Q : A -> Prop) r : gives P r -> (forall a, P a -> Q a) -> gives Q r.
Proof. destruct r; simpl; auto. Qed.

Lemma read_uvarint_loop_malformed n : forall i acc bs b,
  match fst (read_uvarint_loop n i acc bs b) with Err e => exists what, e = Malformed what | Ok _ => True end.
Proof.
  induction n as [|n IH]; intros i acc bs b; cbn [read_uvarint_loop]; [simpl; eauto|].
  destruct bs as [|x bs]; [simpl; eauto|].
  destruct (Z.land (b2z x) 0x80 =? 0); [|apply IH]. destruct ((i =? 9) && (1 <? b2z x)); simpl; eauto.
Qed.

Lemma gives_uvarint bs : gives (fun r => u64 r.1) (parse read_uvarint bs).
Proof.
  unfold parse. pose proof (read_uvarint_loop_malformed 10 0 0 bs unlimited) as Hm. fold read_uvarint in Hm.
  destruct (read_uvarint bs unlimited) as [[[v rest]|e] b'] eqn:E; simpl in *; [|done].
  by eapply returns_uvarint.
Qed.

Lemma gives_u8 bs : gives (fun r => u8 r.1) (parse read_u8 bs).
Proof. destruct bs as [|x bs]; simpl; [eauto|]. apply b2z_range. Qed.

Lemma gives_u16_field field : gives u16 (read_u16_field field).
Proof.
  eapply gives_bind; [apply gives_uvarint|]. intros [v rest] [H1 _]. simpl in *.
  destruct (Z.ltb_spec v (2 ^ 16)); [by split|apply gives_malformed].
Qed.

Lemma gives_u32_field field : gives u32 (read_u32_field field).
Proof.
  eapply gives_bind; [apply gives_uvarint|]. intros [v rest] [H1 _]. simpl in *.
  destruct (Z.ltb_spec v (2 ^ 32)); [by split|apply gives_malformed].
Qed.

Lemma gives_window field msg : gives (fun v => u32 v /\ 1 <= v) (read_window_field field msg).
Proof.
  eapply gives_bind; [apply gives_u32_field|]. intros v [H1 H2].
  destruct (Z.eqb_spec v 0); [apply gives_malformed|]. split; [by split|lia].
Qed.

Lemma gives_choice field what : gives (fun l => blen l <= MAX_CHOICE_LIST_ENTRIES) (read_choice_list field what).
Proof. unfold read_choice_list. destruct (Z.ltb_spec MAX_CHOICE_LIST_ENTRIES (blen field)); [apply gives_malformed|done]. Qed.

Lemma gives_message field msg : gives (fun t => message_text_ok t = true) (read_message_field field msg).
Proof.
  unfold read_message_field. case_match; [apply gives_malformed|].
  apply truncate_to_cap_ok, utf8_text_valid, from_utf8_lossy_text.
Qed.

Lemma as_chunks_length k n bs : length bs = (k * n)%nat ->
  length (as_chunks k n bs) = k /\ Forall (fun c => length c = n) (as_chunks k n bs).
Proof.
  revert bs. induction k as [|k IH]; intros bs Hl; cbn [as_chunks length]; [done|].
  destruct (IH (drop n bs)) as [H1 H2]; [rewrite length_drop; lia|].
  split; [by rewrite H1|]. constructor; [rewrite length_take; lia|done].
Qed.

(** A field of whole entries, within the cap. *)
Lemma whole_entries field width :
  0 < width -> (blen field mod width =? 0) = true ->
  length field = (Z.to_nat (blen field / width) * Z.to_nat width)%nat.
Proof.
  intros Hw Hm%Z.eqb_eq. pose proof (Z.div_mod (blen field) width ltac:(lia)) as E. rewrite Hm in E.
  assert (0 <= blen field / width) by (apply Z.div_pos; [apply blen_nonneg|done]). unfold blen in *. nia.
Qed.

Lemma gives_senders field :
  gives (fun l => Z.of_nat (length l) <= MAX_HELLO_SENDERS /\ forallb id_ok l = true) (read_senders_field field).
Proof.
  unfold read_senders_field. destruct (blen field mod SENDER_ID_BYTES =? 0) eqn:E; [|apply gives_malformed].
  cbn [negb]. destruct (Z.ltb_spec MAX_HELLO_SENDERS (blen field / SENDER_ID_BYTES)); [apply gives_malformed|].
  destruct (as_chunks_length _ _ _ (whole_entries field SENDER_ID_BYTES eq_refl E)) as [Hl Hf].
  split; [rewrite Hl; unfold MAX_HELLO_SENDERS in *; lia|]. apply Is_true_true, forallb_True.
  eapply Forall_impl; [exact Hf|]. intros c Hc. apply Is_true_true, Z.eqb_eq. unfold blen. rewrite Hc. done.
Qed.

Lemma from_be_bytes_range bs n : length bs = n -> unsigned (8 * Z.of_nat n) (from_be_bytes bs).
Proof.
  intros <-. unfold from_be_bytes. pose proof (from_le_bytes_range (reverse bs)) as H.
  unfold blen in H. by rewrite length_reverse in H.
Qed.

Lemma gives_marks field :
  gives (fun l => Z.of_nat (length l) <= MAX_HELLO_SENDERS /\ forallb mark_ok l = true) (read_marks_field field).
Proof.
  unfold read_marks_field. destruct (blen field mod MARK_ENTRY_BYTES =? 0) eqn:E; [|apply gives_malformed].
  cbn [negb]. destruct (Z.ltb_spec MAX_HELLO_SENDERS (blen field / MARK_ENTRY_BYTES)); [apply gives_malformed|].
  destruct (as_chunks_length _ _ _ (whole_entries field MARK_ENTRY_BYTES eq_refl E)) as [Hl Hf].
  split; [rewrite length_map, Hl; unfold MAX_HELLO_SENDERS in *; lia|]. apply Is_true_true, forallb_True, Forall_map.
  eapply Forall_impl; [exact Hf|]. intros c Hc. change (Z.to_nat MARK_ENTRY_BYTES) with 24%nat in Hc.
  apply Is_true_true, andb_true_iff. unfold read_mark. change (Z.to_nat SENDER_ID_BYTES) with 16%nat. cbn [fst snd]. split.
  - apply Z.eqb_eq. unfold blen. rewrite length_take, Hc. done.
  - apply bool_decide_eq_true. apply (from_be_bytes_range _ 8). rewrite length_drop, Hc. done.
Qed.

Lemma gives_set_once {T} (slot : option T) value msg field :
  gives (fun s => slot = None /\ s = Some value) (set_once slot value msg field).
Proof. destruct slot; [apply gives_malformed|done]. Qed.

Lemma gives_required {T} (slot : option T) msg field : gives (fun v => slot = Some v) (required slot msg field).
Proof. destruct slot; [done|apply gives_malformed]. Qed.

(** ** Each defined field exactly once *)

(** The tags of a body's fields, in order. *)
Definition field_tags (body : bytes) : result (list Z) :=
  each_field (fun tag _ tags => Ok (tags ++ [tag])) body [].

Lemma gives_read_field body : gives (fun _ => True) (read_field body).
Proof.
  destruct body as [|x body]; [done|]. unfold read_field.
  eapply gives_bind; [apply gives_u8|]. intros [tag b1] _.
  eapply gives_bind; [apply gives_uvarint|]. intros [len b2] _. case_match; [apply gives_malformed|done].
Qed.

Section Slots.
Context {St : Type} (visit : Z -> bytes -> St -> result St) (filled : St -> Z -> bool) (ok : St -> bool).

(** [st'] is [st] with the empty slot of [tag] filled. *)
Definition fills (tag : Z) (st st' : St) : Prop :=
  filled st tag = false /\ (forall t, filled st' t = (t =? tag) || filled st t) /\ ok st' = true.

Context (Hvisit : forall tag field st, ok st = true -> gives (fills tag st) (visit tag field st)).
#[local] Set Default Proof Using "Type*".

(** The tags seen so far are the filled slots, without repetition. *)
Definition seen (st : St) (tags : list Z) : Prop :=
  ok st = true /\ NoDup tags /\ forall t, t ∈ tags <-> filled st t = true.

Lemma seen_step tag st st' tags : seen st tags -> fills tag st st' -> seen st' (tags ++ [tag]).
Proof.
  intros (_ & Hn & Ht) (He & Hf & Ho). split; [done|]. split.
  - apply NoDup_app. split; [done|]. split; [|apply NoDup_singleton].
    intros x Hx ->%list_elem_of_singleton. apply Ht in Hx. congruence.
  - intros t. rewrite elem_of_app, list_elem_of_singleton, Hf, orb_true_iff, Z.eqb_eq, Ht. tauto.
Qed.

Lemma each_field_seen body st tags :
  seen st tags ->
  gives (fun st' => exists tags', each_field (fun tag _ tags => Ok (tags ++ [tag])) body tags = Ok tags' /\ seen st' tags')
    (each_field visit body st).
Proof.
  remember (length body) as n eqn:Hn. revert body st tags Hn. induction n as [n IH] using lt_wf_ind.
  intros body st tags -> Hs. rewrite (each_field_unfold visit). pose proof (gives_read_field body) as Hr.
  destruct (read_field body) as [[[[tag field]|] rest]|e] eqn:E; cbn [res_bind]; [| |exact Hr].
  - eapply gives_bind; [apply (Hvisit tag field st), Hs|]. intros st' Hf.
    eapply gives_mono; [eapply (IH (length rest)); [by eapply read_field_shrinks|done|by eapply seen_step]|].
    intros st2 (tags' & E2 & Hs2). exists tags'. split; [|done]. rewrite each_field_unfold, E. exact E2.
  - exists tags. split; [|done]. by rewrite each_field_unfold, E.
Qed.

Lemma each_field_tags body st :
  ok st = true -> (forall t, filled st t = false) ->
  gives (fun st' => exists tags, field_tags body = Ok tags /\ seen st' tags) (each_field visit body st).
Proof.
  intros Ho Hf. apply each_field_seen. split; [done|]. split; [constructor|]. intros t. rewrite Hf.
  split; [|done]. by intros ?%elem_of_nil.
Qed.
End Slots.

(** A state's filled slots, listed. *)
Lemma seen_tags {St} filled ok (st : St) tags slots :
  seen filled ok st tags -> NoDup slots -> (forall t, filled st t = bool_decide (t ∈ slots)) -> tags ≡ₚ slots.
Proof.
  intros (_ & Hn & Ht) Hs Hf. apply NoDup_Permutation; [done..|]. intros t. rewrite Ht, Hf.
  by rewrite bool_decide_eq_true.
Qed.

Definition set_b {T} (slot : option T) : bool := match slot with Some _ => true | None => false end.

Definition slot_ok {T} (f : T -> bool) (slot : option T) : bool :=
  match slot with Some v => f v | None => true end.

Definition window_ok (v : Z) : bool := unsigned_b 32 v && (1 <=? v).
Definition choice_ok (l : bytes) : bool := blen l <=? MAX_CHOICE_LIST_ENTRIES.
Definition senders_ok (l : list bytes) : bool := (Z.of_nat (length l) <=? MAX_HELLO_SENDERS) && forallb id_ok l.
Definition marks_ok (l : list (bytes * Z)) : bool :=
  (Z.of_nat (length l) <=? MAX_HELLO_SENDERS) && forallb mark_ok l.
Definition seq_number_ok (v : Z) : bool := unsigned_b 64 v && (1 <=? v).

(** The bools of the values each reader gives. *)
Lemma gives_b16 field : gives (fun v => unsigned_b 16 v = true) (read_u16_field field).
Proof. eapply gives_mono; [apply gives_u16_field|]. intros v Hv. by apply bool_decide_eq_true. Qed.

Lemma gives_b32 field : gives (fun v => unsigned_b 32 v = true) (read_u32_field field).
Proof. eapply gives_mono; [apply gives_u32_field|]. intros v Hv. by apply bool_decide_eq_true. Qed.

Lemma gives_bwindow field msg : gives (fun v => window_ok v = true) (read_window_field field msg).
Proof.
  eapply gives_mono; [apply gives_window|]. intros v [Hv H1]. apply andb_true_iff.
  split; [by apply bool_decide_eq_true|by apply Z.leb_le].
Qed.

Lemma gives_bchoice field what : gives (fun v => choice_ok v = true) (read_choice_list field what).
Proof. eapply gives_mono; [apply gives_choice|]. intros v Hv. by apply Z.leb_le. Qed.

Lemma gives_bsenders field : gives (fun v => senders_ok v = true) (read_senders_field field).
Proof.
  eapply gives_mono; [apply gives_senders|]. intros v [H1 H2]. apply andb_true_iff. split; [by apply Z.leb_le|done].
Qed.

Lemma gives_bmarks field : gives (fun v => marks_ok v = true) (read_marks_field field).
Proof.
  eapply gives_mono; [apply gives_marks|]. intros v [H1 H2]. apply andb_true_iff. split; [by apply Z.leb_le|done].
Qed.

Definition hello_filled (v : HelloVars) (t : Z) : bool :=
  if t =? HELLO_FIELD_VERSION then set_b (hv_version v)
  else if t =? HELLO_FIELD_CODECS then set_b (hv_codecs v)
  else if t =? HELLO_FIELD_COMPRESSIONS then set_b (hv_compressions v)
  else if t =? HELLO_FIELD_MAX_FRAME_BYTES then set_b (hv_max_frame_bytes v)
  else if t =? HELLO_FIELD_WINDOW then set_b (hv_window v)
  else if t =? HELLO_FIELD_SENDERS then set_b (hv_senders v)
  else false.

Definition hello_vars_ok (v : HelloVars) : bool :=
  slot_ok (unsigned_b 16) (hv_version v) && slot_ok choice_ok (hv_codecs v) &&
  slot_ok choice_ok (hv_compressions v) && slot_ok (unsigned_b 32) (hv_max_frame_bytes v) &&
  slot_ok window_ok (hv_window v) && slot_ok senders_ok (hv_senders v).

#[local] Arguments Z.eqb : simpl never.

(** A value stored in its slot: the slot was empty, no other changes, and the value is sound. *)
Ltac fills_slot F :=
  eapply gives_bind; [apply gives_set_once|]; intros ? [-> ->];
  split; [done|split];
    [intros t; unfold F; cbn;
     match goal with |- context [(t =? ?k) || _] => destruct (Z.eqb_spec t k) as [->|]; [done|] end;
     cbn [orb]; repeat match goal with |- context [t =? ?j] => destruct (Z.eqb_spec t j) end; try done; congruence
    |cbn in *; rewrite ?andb_true_iff in *; destruct_and?; repeat split; done].

(** One branch of a visitor: [E] is what the field's reader gives. *)
Ltac fills_branch F E := eapply gives_bind; [apply E|]; intros value Hvalue; fills_slot F.

Lemma hello_fills tag field v :
  hello_vars_ok v = true -> gives (fills hello_filled hello_vars_ok tag v) (hello_visit tag field v).
Proof.
  destruct v as [ver codecs comps maxf win senders]. intros Hok. unfold hello_visit, hello_vars_ok in *.
  destruct (Z.eqb_spec tag HELLO_FIELD_VERSION) as [->|]; [fills_branch hello_filled gives_b16|].
  destruct (Z.eqb_spec tag HELLO_FIELD_CODECS) as [->|]; [fills_branch hello_filled gives_bchoice|].
  destruct (Z.eqb_spec tag HELLO_FIELD_COMPRESSIONS) as [->|]; [fills_branch hello_filled gives_bchoice|].
  destruct (Z.eqb_spec tag HELLO_FIELD_MAX_FRAME_BYTES) as [->|]; [fills_branch hello_filled gives_b32|].
  destruct (Z.eqb_spec tag HELLO_FIELD_WINDOW) as [->|]; [fills_branch hello_filled gives_bwindow|].
  destruct (Z.eqb_spec tag HELLO_FIELD_SENDERS) as [->|]; [fills_branch hello_filled gives_bsenders|].
  apply gives_malformed.
Qed.

Definition hello_ack_filled (v : HelloAckVars) (t : Z) : bool :=
  if t =? HELLO_ACK_FIELD_VERSION then set_b (av_version v)
  else if t =? HELLO_ACK_FIELD_CODEC then set_b (av_codec v)
  else if t =? HELLO_ACK_FIELD_COMPRESSION then set_b (av_compression v)
  else if t =? HELLO_ACK_FIELD_MAX_FRAME_BYTES then set_b (av_max_frame_bytes v)
  else if t =? HELLO_ACK_FIELD_WINDOW then set_b (av_window v)
  else if t =? HELLO_ACK_FIELD_MARKS then set_b (av_marks v)
  else false.

Definition hello_ack_vars_ok (v : HelloAckVars) : bool :=
  slot_ok (unsigned_b 16) (av_version v) && slot_ok (unsigned_b 8) (av_codec v) &&
  slot_ok (unsigned_b 8) (av_compression v) && slot_ok (unsigned_b 32) (av_max_frame_bytes v) &&
  slot_ok window_ok (av_window v) && slot_ok marks_ok (av_marks v).

(** The one-byte fields take the first byte. *)
Lemma gives_b8 {B} field (k : Z -> result B) Q :
  (forall v, unsigned_b 8 v = true -> gives Q (k v)) -> gives Q (let? (v, _) := parse read_u8 field in k v).
Proof.
  intros Hk. eapply gives_bind; [apply gives_u8|]. intros [v rest] Hv. apply Hk. by apply bool_decide_eq_true.
Qed.

Lemma hello_ack_fills tag field v :
  hello_ack_vars_ok v = true -> gives (fills hello_ack_filled hello_ack_vars_ok tag v) (hello_ack_visit tag field v).
Proof.
  destruct v as [ver codec comp maxf win marks]. intros Hok. unfold hello_ack_visit, hello_ack_vars_ok in *.
  destruct (Z.eqb_spec tag HELLO_ACK_FIELD_VERSION) as [->|]; [fills_branch hello_ack_filled gives_b16|].
  destruct (Z.eqb_spec tag HELLO_ACK_FIELD_CODEC) as [->|].
  { apply gives_b8. intros value Hvalue. fills_slot hello_ack_filled. }
  destruct (Z.eqb_spec tag HELLO_ACK_FIELD_COMPRESSION) as [->|].
  { apply gives_b8. intros value Hvalue. fills_slot hello_ack_filled. }
  destruct (Z.eqb_spec tag HELLO_ACK_FIELD_MAX_FRAME_BYTES) as [->|]; [fills_branch hello_ack_filled gives_b32|].
  destruct (Z.eqb_spec tag HELLO_ACK_FIELD_WINDOW) as [->|]; [fills_branch hello_ack_filled gives_bwindow|].
  destruct (Z.eqb_spec tag HELLO_ACK_FIELD_MARKS) as [->|]; [fills_branch hello_ack_filled gives_bmarks|].
  apply gives_malformed.
Qed.

Definition ack_filled (v : AckVars) (t : Z) : bool :=
  if t =? ACK_FIELD_ID then set_b (kv_id v)
  else if t =? ACK_FIELD_SEQ then set_b (kv_seq v)
  else if t =? ACK_FIELD_STATUS then set_b (kv_status v)
  else if t =? ACK_FIELD_REASON then set_b (kv_reason v)
  else if t =? ACK_FIELD_MESSAGE then set_b (kv_message v)
  else false.

Definition status_ok (v : Z) : bool := (v =? ACK_STATUS_ACCEPTED) || (v =? ACK_STATUS_REJECTED).

Definition ack_vars_ok (v : AckVars) : bool :=
  slot_ok id_ok (kv_id v) && slot_ok seq_number_ok (kv_seq v) && slot_ok status_ok (kv_status v) &&
  slot_ok (unsigned_b 16) (kv_reason v) && slot_ok message_text_ok (kv_message v).

Lemma ack_fills tag field v :
  ack_vars_ok v = true -> gives (fills ack_filled ack_vars_ok tag v) (ack_visit tag field v).
Proof.
  destruct v as [id seq status reason message]. intros Hok. unfold ack_visit, ack_vars_ok in *.
  destruct (Z.eqb_spec tag ACK_FIELD_ID) as [->|].
  { destruct (blen field =? SENDER_ID_BYTES) eqn:Hvalue; [|apply gives_malformed]. fold (id_ok field) in Hvalue.
    fills_slot ack_filled. }
  destruct (Z.eqb_spec tag ACK_FIELD_SEQ) as [->|].
  { eapply gives_bind; [apply gives_uvarint|]. intros [value rest] Hu. cbn [fst] in Hu.
    destruct (Z.eqb_spec value 0) as [|Hne]; [apply gives_malformed|].
    assert (seq_number_ok value = true) as Hvalue.
    { apply andb_true_iff. split; [by apply bool_decide_eq_true|]. apply Z.leb_le. unfold unsigned in Hu. lia. }
    fills_slot ack_filled. }
  destruct (Z.eqb_spec tag ACK_FIELD_STATUS) as [->|].
  { eapply (gives_bind (fun v => status_ok v = true)).
    - destruct field as [|x [|]]; [apply gives_malformed| |apply gives_malformed].
      case_match eqn:E; [exact E|apply gives_malformed].
    - intros value Hvalue. fills_slot ack_filled. }
  destruct (Z.eqb_spec tag ACK_FIELD_REASON) as [->|]; [fills_branch ack_filled gives_b16|].
  destruct (Z.eqb_spec tag ACK_FIELD_MESSAGE) as [->|]; [fills_branch ack_filled gives_message|].
  apply gives_malformed.
Qed.

Definition reject_filled (v : option Z * option bytes) (t : Z) : bool :=
  if t =? REJECT_FIELD_CODE then set_b v.1 else if t =? REJECT_FIELD_MESSAGE then set_b v.2 else false.

Definition reject_vars_ok (v : option Z * option bytes) : bool :=
  slot_ok (unsigned_b 16) v.1 && slot_ok message_text_ok v.2.

Lemma reject_fills tag field v :
  reject_vars_ok v = true -> gives (fills reject_filled reject_vars_ok tag v) (reject_visit tag field v).
Proof.
  destruct v as [code message]. intros Hok. unfold reject_visit, reject_vars_ok in *.
  destruct (Z.eqb_spec tag REJECT_FIELD_CODE) as [->|]; [fills_branch reject_filled gives_b16|].
  destruct (Z.eqb_spec tag REJECT_FIELD_MESSAGE) as [->|]; [fills_branch reject_filled gives_message|].
  apply gives_malformed.
Qed.

(** ** What each decoder gives *)

(** The tags a message's encoding carries. *)
Definition message_tags (m : ControlMessage) : list Z :=
  match m with
  | CmHello _ | CmHelloAck _ => [1; 2; 3; 4; 5; 6]
  | CmAck a =>
      match ack_status a with
      | Accepted => [1; 2; 3]
      | Rejected _ None => [1; 2; 3; 4]
      | Rejected _ (Some _) => [1; 2; 3; 4; 5]
      end
  | CmReject _ => [1; 2]
  end.

(** The body [body] holds exactly the fields of [m], and [m] is well formed. *)
Definition strictly (body : bytes) (m : ControlMessage) : Prop :=
  control_ok m = true /\ exists tags, field_tags body = Ok tags /\ tags ≡ₚ message_tags m.

Ltac required_slot :=
  eapply gives_bind; [apply gives_required|]; intros ? ?; cbn in *; simplify_eq.

Ltac same_tags F :=
  intros t; unfold F; cbn; repeat match goal with |- context [t =? ?j] => destruct (Z.eqb_spec t j) as [->|] end;
  try done; symmetry; apply bool_decide_eq_false;
  rewrite !elem_of_cons, elem_of_nil; tauto.

Lemma hello_strict body : gives (fun m => strictly body (CmHello m)) (hello_decode_fields body).
Proof.
  eapply gives_bind; [apply (each_field_tags _ _ _ hello_fills); [done|]|].
  { intros t. unfold hello_filled. by repeat case_match. }
  intros [ver codecs comps maxf win senders] (tags & Et & Hs). unfold hello_finish. do 6 required_slot.
  split; [|exists tags; split; [done|]].
  - destruct Hs as [Hok _]. exact Hok.
  - eapply seen_tags; [exact Hs|by apply (bool_decide_unpack _)|]. same_tags hello_filled.
Qed.

Lemma hello_ack_strict body : gives (fun m => strictly body (CmHelloAck m)) (hello_ack_decode_fields body).
Proof.
  eapply gives_bind; [apply (each_field_tags _ _ _ hello_ack_fills); [done|]|].
  { intros t. unfold hello_ack_filled. by repeat case_match. }
  intros [ver codec comp maxf win marks] (tags & Et & Hs). unfold hello_ack_finish. do 6 required_slot.
  split; [|exists tags; split; [done|]].
  - destruct Hs as [Hok _]. exact Hok.
  - eapply seen_tags; [exact Hs|by apply (bool_decide_unpack _)|]. same_tags hello_ack_filled.
Qed.

Lemma ack_strict body : gives (fun m => strictly body (CmAck m)) (ack_decode_fields body).
Proof.
  eapply gives_bind; [apply (each_field_tags _ _ _ ack_fills); [done|]|].
  { intros t. unfold ack_filled. by repeat case_match. }
  intros [id seq status reason message] (tags & Et & Hs). unfold ack_finish. do 3 required_slot.
  pose proof (proj1 Hs) as Hok. unfold ack_vars_ok in Hok. cbn in Hok.
  rewrite !andb_true_iff in Hok. destruct Hok as ((((Hid & Hseq) & Hst) & Hr) & Hm). unfold seq_number_ok in Hseq.
  match goal with |- context [if ?c then _ else _] => destruct c eqn:Ec end.
  - destruct reason; [apply gives_malformed|]. destruct message; [apply gives_malformed|]. cbn.
    split; [|exists tags; split; [done|]].
    + cbn. unfold ack_ok. cbn. by rewrite Hid, Hseq.
    + eapply seen_tags; [exact Hs|by apply (bool_decide_unpack _)|]. same_tags ack_filled.
  - destruct reason as [reason|]; [|apply gives_malformed]. cbn.
    split; [|exists tags; split; [done|]].
    + cbn in Hr |- *. unfold ack_ok. cbn. rewrite Hid, Hseq, Hr. destruct message; done.
    + destruct message; (eapply seen_tags; [exact Hs|by apply (bool_decide_unpack _)|]; same_tags ack_filled).
Qed.

Lemma reject_strict body : gives (fun m => strictly body (CmReject m)) (reject_decode_fields body).
Proof.
  eapply gives_bind; [apply (each_field_tags _ _ _ reject_fills); [done|]|].
  { intros t. unfold reject_filled. by repeat case_match. }
  intros [code message] (tags & Et & Hs). unfold reject_finish. do 2 required_slot.
  split; [|exists tags; split; [done|]].
  - destruct Hs as [Hok _]. exact Hok.
  - eapply seen_tags; [exact Hs|by apply (bool_decide_unpack _)|]. same_tags reject_filled.
Qed.

Lemma gives_map {A B} (f : A -> B) (P : B -> Prop) r : gives (fun a => P (f a)) r -> gives P (res_map f r).
Proof. by destruct r. Qed.

Lemma control_strict bs : gives (strictly (drop 1 bs)) (control_decode bs).
Proof.
  destruct bs as [|x body]; [simpl; eauto|]. unfold control_decode, parse. cbn [read_u8 fst res_bind].
  change (drop 1 (x :: body)) with body.
  case_match; [apply gives_map, hello_strict|]. case_match; [apply gives_map, hello_ack_strict|].
  case_match; [apply gives_map, ack_strict|]. case_match; [apply gives_map, reject_strict|].
  apply gives_malformed.
Qed.

(** ** Sizes *)

Lemma blen_uvarint_loop_le n v : blen (write_uvarint_loop n v) <= Z.of_nat n.
Proof.
  revert v. induction n as [|n IH]; intros v; [done|]. rewrite write_uvarint_loop_S.
  case_match; rewrite blen_cons, ?blen_nil; [lia|]. specialize (IH (v / 128)). lia.
Qed.

(** A value of at most [7 n] bits takes at most [n] bytes. *)
Lemma blen_uvarint_le (n : nat) v : 0 <= v < 2 ^ (7 * Z.of_nat n) -> (0 < n <= 10)%nat -> blen (write_uvarint v) <= Z.of_nat n.
Proof.
  intros Hv Hn. unfold write_uvarint. rewrite <- (write_uvarint_loop_fuel n 10 v) by done.
  apply blen_uvarint_loop_le.
Qed.

Lemma blen_field_le tag p (n : nat) max :
  blen p <= max -> max < 2 ^ (7 * Z.of_nat n) -> (0 < n <= 10)%nat -> blen (write_field tag p) <= 1 + Z.of_nat n + max.
Proof.
  intros Hp Hm Hn. unfold write_field. rewrite !blen_app. pose proof (blen_nonneg p).
  pose proof (blen_uvarint_le n (blen p) ltac:(lia) Hn). rewrite blen_cons, blen_nil. lia.
Qed.

Lemma blen_varint_field tag v (n : nat) :
  0 <= v < 2 ^ (7 * Z.of_nat n) -> (0 < n <= 10)%nat -> blen (write_field tag (write_uvarint v)) <= 2 + Z.of_nat n.
Proof.
  intros Hv Hn. pose proof (blen_uvarint_le n v Hv Hn).
  pose proof (blen_field_le tag (write_uvarint v) 1 (Z.of_nat n)) as Hf.
  assert (Z.of_nat n < 2 ^ 7) by (change (2 ^ 7) with 128; lia). specialize (Hf ltac:(lia) ltac:(done) ltac:(lia)). lia.
Qed.

(** The longest message of each kind. *)
Definition max_message_len (m : ControlMessage) : Z :=
  match m with
  | CmHello _ => 315
  | CmHelloAck _ => 413
  | CmAck _ => 1066
  | CmReject _ => 1033
  end.

Lemma u16_field_le tag v : u16 v -> blen (write_u16 tag v) <= 5.
Proof.
  intros [H1 H2]. assert (2 ^ 16 < 2 ^ (7 * Z.of_nat 3)) by done.
  exact (blen_varint_field tag v 3 ltac:(lia) ltac:(lia)).
Qed.

Lemma u32_field_le tag v : u32 v -> blen (write_u32 tag v) <= 7.
Proof.
  intros [H1 H2]. assert (2 ^ 32 < 2 ^ (7 * Z.of_nat 5)) by done.
  exact (blen_varint_field tag v 5 ltac:(lia) ltac:(lia)).
Qed.

Lemma text_field_le tag t : message_text_ok t = true -> blen (write_bytes_field tag t) <= 1027.
Proof.
  intros [H%Z.leb_le _]%andb_true_iff. exact (blen_field_le tag t 2 1024 H ltac:(done) ltac:(lia)).
Qed.

Lemma blen_concat_le n l : Z.of_nat (length l) <= MAX_HELLO_SENDERS -> Forall (fun c => length c = n) l ->
  blen (concat l) <= 16 * Z.of_nat n.
Proof. intros Hl Hf. rewrite (blen_concat n) by done. unfold MAX_HELLO_SENDERS in Hl. nia. Qed.

Lemma hello_len m : hello_ok m = true -> blen (hello_encode m) <= 315.
Proof.
  intros H. unfold hello_ok in H. ok_facts. unfold hello_encode. rewrite !blen_app, blen_cons, blen_nil.
  pose proof (u16_field_le HELLO_FIELD_VERSION (he_version m) ltac:(done)).
  pose proof (blen_field_le HELLO_FIELD_CODECS (he_codecs m) 1 16 ltac:(done) ltac:(done) ltac:(lia)).
  pose proof (blen_field_le HELLO_FIELD_COMPRESSIONS (he_compressions m) 1 16 ltac:(done) ltac:(done) ltac:(lia)).
  pose proof (u32_field_le HELLO_FIELD_MAX_FRAME_BYTES (he_max_frame_bytes m) ltac:(done)).
  pose proof (u32_field_le HELLO_FIELD_WINDOW (he_window m) ltac:(done)).
  pose proof (blen_field_le HELLO_FIELD_SENDERS (concat (he_senders m)) 2 256
    (blen_concat_le 16 _ ltac:(done) (ids_length _ ltac:(done))) ltac:(done) ltac:(lia)).
  unfold write_bytes_field. lia.
Qed.

Lemma hello_ack_len m : hello_ack_ok m = true -> blen (hello_ack_encode m) <= 413.
Proof.
  intros H. unfold hello_ack_ok in H. ok_facts. unfold hello_ack_encode. rewrite !blen_app, blen_cons, blen_nil.
  pose proof (u16_field_le HELLO_ACK_FIELD_VERSION (ha_version m) ltac:(done)).
  pose proof (blen_field_le HELLO_ACK_FIELD_CODEC [z2b (ha_codec m)] 1 1 ltac:(done) ltac:(done) ltac:(lia)).
  pose proof (blen_field_le HELLO_ACK_FIELD_COMPRESSION [z2b (ha_compression m)] 1 1 ltac:(done) ltac:(done) ltac:(lia)).
  pose proof (u32_field_le HELLO_ACK_FIELD_MAX_FRAME_BYTES (ha_max_frame_bytes m) ltac:(done)).
  pose proof (u32_field_le HELLO_ACK_FIELD_WINDOW (ha_window m) ltac:(done)).
  assert (Z.of_nat (length (map write_mark (ha_marks m))) <= MAX_HELLO_SENDERS) as Hl by by rewrite length_map.
  pose proof (blen_field_le HELLO_ACK_FIELD_MARKS (concat (map write_mark (ha_marks m))) 2 384
    (blen_concat_le 24 _ Hl (marks_length _ ltac:(done))) ltac:(done) ltac:(lia)). lia.
Qed.

Lemma ack_len m : ack_ok m = true -> blen (ack_encode m) <= 1066.
Proof.
  intros H. unfold ack_ok in H. ok_facts. unfold ack_encode. rewrite !blen_app, blen_cons, blen_nil.
  assert (blen (ack_id m) <= 16) as Hid by (apply Z.eqb_eq in H; rewrite H; done).
  pose proof (blen_field_le ACK_FIELD_ID (ack_id m) 1 16 Hid ltac:(done) ltac:(lia)).
  pose proof (blen_varint_field ACK_FIELD_SEQ (ack_seq m) 10) as Hseq.
  unfold unsigned in *. specialize (Hseq ltac:(simpl; lia) ltac:(lia)). unfold write_bytes_field in *.
  destruct (ack_status m) as [|reason message]; [vm_compute (blen (write_field ACK_FIELD_STATUS _)); lia|].
  ok_facts. rewrite !blen_app. change (blen (write_field ACK_FIELD_STATUS _)) with 3.
  pose proof (u16_field_le ACK_FIELD_REASON reason ltac:(done)).
  destruct message as [text|]; [|rewrite blen_nil; lia].
  pose proof (text_field_le ACK_FIELD_MESSAGE text ltac:(done)). unfold write_bytes_field in *. lia.
Qed.

Lemma reject_len m : reject_ok m = true -> blen (reject_encode m) <= 1033.
Proof.
  intros H. unfold reject_ok in H. ok_facts. unfold reject_encode. rewrite !blen_app, blen_cons, blen_nil.
  pose proof (u16_field_le REJECT_FIELD_CODE (rej_code m) ltac:(done)).
  pose proof (text_field_le REJECT_FIELD_MESSAGE (rej_message m) ltac:(done)). lia.
Qed.

Lemma control_len m : control_ok m = true -> blen (control_encode m) <= max_message_len m.
Proof. destruct m as [m|m|m|m]; [apply hello_len|apply hello_ack_len|apply ack_len|apply reject_len]. Qed.

(** ** The theorems *)

(** Every well-formed control message decodes to itself, whichever of the four it is. *)
Theorem control_round_trip (m : ControlMessage) (Hok : control_ok m = true) :
  control_decode (control_encode m) = Ok m.
Proof. by apply control_round. Qed.

Definition sample_id : bytes := repeat (z2b 7) 16.

Lemma control_round_trip_witness :
  control_decode (control_encode (CmAck (mkAck sample_id 300 (Rejected 3 (Some (str "does not decode")))))) =
  Ok (CmAck (mkAck sample_id 300 (Rejected 3 (Some (str "does not decode"))))).
Proof. apply (control_round_trip (CmAck (mkAck sample_id 300 (Rejected 3 (Some (str "does not decode")))))). by vm_compute. Defined.

(** C27: on any bytes, the dispatching decoder either refuses with [Malformed] or returns a message
    that is well formed and whose body held exactly that message's fields, each once: a missing, a
    repeated or an unknown field is never accepted. What it returns encodes and decodes to itself. *)
Theorem control_decode_strict (bs : bytes) :
  match control_decode bs with
  | Ok m =>
      control_ok m = true /\ (exists tags, field_tags (drop 1 bs) = Ok tags /\ tags ≡ₚ message_tags m) /\
      control_decode (control_encode m) = Ok m
  | Err e => exists what, e = Malformed what
  end.
Proof.
  pose proof (control_strict bs) as H. destruct (control_decode bs) as [m|e]; [|exact H].
  destruct H as [Hok Ht]. split; [done|]. split; [done|]. by apply control_round.
Qed.

(** No well-formed message is longer than the documented maximum of its kind, each maximum is
    reached, and all of them are below the cap a reader enforces on a control frame. *)
Theorem control_message_sizes :
  (forall m, control_ok m = true -> blen (control_encode m) <= max_message_len m < MAX_CONTROL_MESSAGE_BYTES) /\
  Forall (fun m => control_ok m = true /\ blen (control_encode m) = max_message_len m)
    [CmHello (mkHello 65535 (repeat (z2b 1) 16) (repeat (z2b 0) 16) (2 ^ 32 - 1) (2 ^ 32 - 1) (repeat sample_id 16));
     CmHelloAck (mkHelloAck 65535 1 0 (2 ^ 32 - 1) (2 ^ 32 - 1) (repeat (sample_id, 5) 16));
     CmAck (mkAck sample_id U64_MAX (Rejected 65535 (Some (repeat (z2b 97) 1024))));
     CmReject (mkReject 65535 (repeat (z2b 97) 1024))].
Proof.
  split.
  - intros m Hm. split; [by apply control_len|]. by destruct m.
  - repeat constructor.
Qed.

Lemma expect_decode {A} bs t name (dec : bytes -> result A) :
  (let? body := expect_msg_type bs t name in dec body) =
  (let? (msg_type, body) := parse read_u8 bs in
   if msg_type =? t then dec body else Err (Malformed ("expected a " +:+ name +:+ " control message"))).
Proof.
  unfold expect_msg_type. destruct (parse read_u8 bs) as [[t' body]|e]; [|done]. cbn [res_bind].
  destruct (t' =? t); done.
Qed.

(** The same decoder under its constructor, and two different ones. *)
Ltac same_decoder :=
  cbv [Z.eqb Pos.eqb];
  split_and!; intros m; unfold res_map;
  repeat match goal with |- context [res_bind (?f ?b) _] => destruct (f b); cbn [res_bind] end;
  split; congruence.

(** The decoders that expect one message type accept exactly the bytes the dispatching decoder
    reads as that type, with the same message. *)
Theorem typed_decoders_agree (bs : bytes) :
  (forall m, hello_decode bs = Ok m <-> control_decode bs = Ok (CmHello m)) /\
  (forall m, hello_ack_decode bs = Ok m <-> control_decode bs = Ok (CmHelloAck m)) /\
  (forall m, ack_decode bs = Ok m <-> control_decode bs = Ok (CmAck m)) /\
  (forall m, reject_decode bs = Ok m <-> control_decode bs = Ok (CmReject m)).
Proof.
  unfold hello_decode, hello_ack_decode, ack_decode, reject_decode, control_decode.
  rewrite !expect_decode. destruct (parse read_u8 bs) as [[t body]|e]; cbn [res_bind]; [|by repeat split].
  destruct (Z.eqb_spec t MSG_HELLO) as [->|]; [same_decoder|].
  destruct (Z.eqb_spec t MSG_HELLO_ACK) as [->|]; [same_decoder|].
  destruct (Z.eqb_spec t MSG_ACK) as [->|]; [same_decoder|].
  destruct (Z.eqb_spec t MSG_REJECT) as [->|]; [same_decoder|]. by repeat split.
Qed.

(** A rejection's message, however long, is cut to the longest prefix of whole characters that
    fits the cap, so the [Ack] that carries it is well formed. *)
Theorem rejection_message_cut (id : bytes) (seq reason : Z) (text : bytes) (Hid : id_ok id = true)
    (Hseq : u64 seq) (Hpos : 1 <= seq) (Hr : u16 reason) (Htext : utf8_valid text = true) :
  ack_ok (mkAck id seq (ack_status_rejected reason text)) = true /\
  exists cut, ack_status_rejected reason text = Rejected reason (Some (take cut text)) /\
    is_char_boundary text cut = true /\
    forall n, is_char_boundary text n = true -> Z.of_nat n <= MAX_REJECT_MESSAGE_BYTES ->
      (n <= length text)%nat -> (n <= cut)%nat.
Proof.
  split.
  - unfold ack_ok. cbn [ack_id ack_seq ack_status ack_status_rejected]. rewrite Hid, truncate_to_cap_ok by done.
    unfold unsigned_b. by rewrite !bool_decide_eq_true_2, (proj2 (Z.leb_le _ _) Hpos).
  - eexists. split; [reflexivity|]. split; [apply boundary_at_most_boundary|]. intros n Hb Hn Hl.
    assert (n <= Z.to_nat (Z.min (blen text) MAX_REJECT_MESSAGE_BYTES))%nat as Hle by (unfold blen; lia).
    revert Hle. generalize (Z.to_nat (Z.min (blen text) MAX_REJECT_MESSAGE_BYTES)). intros c.
    induction c as [|c IH]; cbn [boundary_at_most]; [by case_match|]. intros Hle. case_match eqn:E; [done|].
    apply IH. destruct (decide (n = S c)) as [->|]; [congruence|lia].
Qed.

Lemma rejection_message_cut_witness :
  ack_ok (mkAck sample_id 5 (ack_status_rejected 3 (repeat (z2b 97) 1023 ++ [z2b 0xc3; z2b 0xa9]))) = true /\
  exists cut, ack_status_rejected 3 (repeat (z2b 97) 1023 ++ [z2b 0xc3; z2b 0xa9]) =
      Rejected 3 (Some (take cut (repeat (z2b 97) 1023 ++ [z2b 0xc3; z2b 0xa9]))) /\
    is_char_boundary (repeat (z2b 97) 1023 ++ [z2b 0xc3; z2b 0xa9]) cut = true /\
    forall n, is_char_boundary (repeat (z2b 97) 1023 ++ [z2b 0xc3; z2b 0xa9]) n = true ->
      Z.of_nat n <= MAX_REJECT_MESSAGE_BYTES ->
      (n <= length (repeat (z2b 97) 1023 ++ [z2b 0xc3; z2b 0xa9]))%nat -> (n <= cut)%nat.
Proof.
  apply (rejection_message_cut sample_id 5 3 (repeat (z2b 97) 1023 ++ [z2b 0xc3; z2b 0xa9]));
    [by vm_compute|by split|done|by split|by vm_compute].
Defined.
