(* ===== verification/Senders.v ===== *)
(** * The receiver's table of sender marks

    [SenderTable] of crates/logit-inputs/src/logit/senders.rs: for each sender identity the highest
    sequence taken under it, by which a resent frame is recognized, in a table of bounded size that
    evicts the identity seen longest ago. Each method runs under the table's lock, so it is one step
    of the state; the telemetry it publishes is its second output. *)

From S2P Require Import Prelude Batch.

Record Entry := mkEntry { mark : Z; last_seen : Z }.

(** [capacity] is fixed at construction; [entries] and [tick] are the locked [TableState]. *)
Record SenderTable := mkSenderTable { capacity : Z; entries : gmap bytes Entry; tick : Z }.

(** What a method publishes. *)
Inductive Published :=
| SendersEvicted
| SendersGauge (n : Z).

Definition table_new (max_connections : Z) : SenderTable :=
  mkSenderTable (Z.max (max_connections + max_connections / 4) 1) ∅ 0.

(** [self.tick += 1] on a [u64]. *)
Definition next_tick (t : Z) : Z := uwrap 64 (t + 1).

Definition is_resend (t : SenderTable) (seq : SeqId) : bool * SenderTable :=
  let tick := next_tick (tick t) in
  match entries t !! seq_id seq with
  | Some entry =>
      (seq_seq seq <=? mark entry,
       mkSenderTable (capacity t) (<[seq_id seq := mkEntry (mark entry) tick]> (entries t)) tick)
  | None => (false, mkSenderTable (capacity t) (entries t) tick)
  end.

(** [iter().min_by_key(|(_, entry)| entry.last_seen)], in the order the map is iterated. *)
Fixpoint min_by_last_seen (l : list (bytes * Entry)) : option (bytes * Entry) :=
  match l with
  | [] => None
  | x :: l =>
      match min_by_last_seen l with
      | Some y => if last_seen y.2 <? last_seen x.2 then Some y else Some x
      | None => Some x
      end
  end.

(** The identity a full table gives up. A full table is never empty, so the code's [expect] holds
    ([oldest_full]). *)
Definition oldest (m : gmap bytes Entry) : option bytes := fst <$> min_by_last_seen (map_to_list m).

Definition remove_oldest (m : gmap bytes Entry) : gmap bytes Entry :=
  match oldest m with
  | Some id => delete id m
  | None => m
  end.

Definition raise (t : SenderTable) (seq : SeqId) : SenderTable * list Published :=
  let tick := next_tick (tick t) in
  match entries t !! seq_id seq with
  | Some entry =>
      (mkSenderTable (capacity t)
         (<[seq_id seq := mkEntry (Z.max (mark entry) (seq_seq seq)) tick]> (entries t)) tick, [])
  | None =>
      let full := capacity t <=? Z.of_nat (size (entries t)) in
      let kept := if full then remove_oldest (entries t) else entries t in
      let entries' := <[seq_id seq := mkEntry (seq_seq seq) tick]> kept in
      (mkSenderTable (capacity t) entries' tick,
       if full then [SendersEvicted] else [SendersGauge (Z.of_nat (size entries'))])
  end.

Definition marks (t : SenderTable) (ids : list bytes) : list (bytes * Z) :=
  omap (fun id => (fun entry => (id, mark entry)) <$> entries t !! id) ids.

(** ** Runs of the table *)

Inductive Op :=
| OpIsResend (seq : SeqId)
| OpRaise (seq : SeqId)
| OpMarks (ids : list bytes).

Definition step (t : SenderTable) (o : Op) : SenderTable :=
  match o with
  | OpIsResend seq => snd (is_resend t seq)
  | OpRaise seq => fst (raise t seq)
  | OpMarks _ => t
  end.

Definition run (t : SenderTable) (ops : list Op) : SenderTable := foldl step t ops.

(** The identity an operation touches. *)
Definition touched (o : Op) : list bytes :=
  match o with
  | OpIsResend seq | OpRaise seq => [seq_id seq]
  | OpMarks _ => []
  end.

(** ** The invariant *)

(** At most [capacity] identities, each last seen at a tick of its own, none of them in the future. *)
Definition table_inv (t : SenderTable) : Prop :=
  1 <= capacity t /\ Z.of_nat (size (entries t)) <= capacity t /\ 0 <= tick t /\
  map_Forall (fun _ e => 0 <= last_seen e <= tick t) (entries t) /\
  forall i j ei ej, entries t !! i = Some ei -> entries t !! j = Some ej -> last_seen ei = last_seen ej -> i = j.

Lemma table_new_inv n : 0 <= n -> table_inv (table_new n).
Proof.
  intros Hn. unfold table_new, table_inv. cbn [capacity entries tick]. rewrite map_size_empty.
  split; [lia|]. split; [lia|]. split; [done|]. split; [apply map_Forall_empty|].
  intros i j ei ej. by rewrite lookup_empty.
Qed.

Lemma min_by_last_seen_spec l :
  match min_by_last_seen l with
  | Some x => x ∈ l /\ forall y, y ∈ l -> last_seen x.2 <= last_seen y.2
  | None => l = []
  end.
Proof.
  induction l as [|x l IH]; [done|]. cbn [min_by_last_seen].
  destruct (min_by_last_seen l) as [y|].
  - destruct IH as [Hin Hmin]. destruct (Z.ltb_spec (last_seen y.2) (last_seen x.2)).
    + split; [by right|]. intros z [->|Hz]%elem_of_cons; [lia|auto].
    + split; [by left|]. intros z [->|Hz]%elem_of_cons; [lia|]. specialize (Hmin z Hz). lia.
  - subst l. split; [by left|]. intros z [->|Hz%elem_of_nil]%elem_of_cons; [lia|done].
Qed.

(** The oldest entry: it is one of the table's, and every other was seen later. *)
Lemma oldest_spec m :
  (forall i j ei ej, m !! i = Some ei -> m !! j = Some ej -> last_seen ei = last_seen ej -> i = j) ->
  match oldest m with
  | Some id => exists e, m !! id = Some e /\
      forall j ej, m !! j = Some ej -> j <> id -> last_seen e < last_seen ej
  | None => m = ∅
  end.
Proof.
  intros Hinj. unfold oldest. pose proof (min_by_last_seen_spec (map_to_list m)) as H.
  destruct (min_by_last_seen (map_to_list m)) as [[id e]|]; cbn [fmap option_fmap option_map fst].
  - destruct H as [Hin Hmin]. apply elem_of_map_to_list in Hin. exists e. split; [done|].
    intros j ej Hj Hne. pose proof (Hmin (j, ej) (proj2 (elem_of_map_to_list _ _ _) Hj)) as Hle. simpl in Hle.
    assert (last_seen e <> last_seen ej) by (intros E; apply Hne; by eapply Hinj). lia.
  - by apply map_to_list_empty_iff.
Qed.

(** Touching an identity at the next tick keeps the invariant, whatever was dropped before. *)
Lemma touch_inv t kept id m :
  table_inv t -> tick t + 1 < 2 ^ 64 -> kept ⊆ entries t ->
  Z.of_nat (size (<[id := mkEntry m (next_tick (tick t))]> kept)) <= capacity t ->
  table_inv (mkSenderTable (capacity t) (<[id := mkEntry m (next_tick (tick t))]> kept) (next_tick (tick t))).
Proof.
  intros (Hc & Hs & Ht & HF & Hinj) Hb Hsub Hsize. unfold next_tick in *. rewrite uwrap_small in * by (split; lia).
  split; [done|]. split; [done|]. cbn [capacity entries tick]. split; [lia|].
  assert (forall j ej, kept !! j = Some ej -> 0 <= last_seen ej <= tick t) as Hk.
  { intros j ej Hj. apply (HF j). by eapply lookup_weaken. }
  split.
  - apply map_Forall_lookup. intros j ej [[<- <-]|[Hne Hj]]%lookup_insert_Some; [simpl; lia|].
    specialize (Hk j ej Hj). lia.
  - intros i j ei ej [[<- <-]|[Hni Hi]]%lookup_insert_Some [[<- <-]|[Hnj Hj]]%lookup_insert_Some; cbn [last_seen].
    + done.
    + specialize (Hk j ej Hj). lia.
    + specialize (Hk i ei Hi). lia.
    + apply (Hinj i j ei ej); by eapply lookup_weaken.
Qed.

Lemma remove_oldest_sub m : remove_oldest m ⊆ m.
Proof. unfold remove_oldest. case_match; [apply delete_subseteq|done]. Qed.

(** A full table gives up one identity. *)
Lemma oldest_full t :
  table_inv t -> capacity t <= Z.of_nat (size (entries t)) ->
  exists id e, oldest (entries t) = Some id /\ entries t !! id = Some e /\
    (forall j ej, entries t !! j = Some ej -> j <> id -> last_seen e < last_seen ej) /\
    Z.of_nat (size (remove_oldest (entries t))) = capacity t - 1.
Proof.
  intros (Hc & Hs & Ht & HF & Hinj) Hfull. pose proof (oldest_spec (entries t) Hinj) as H. unfold remove_oldest.
  destruct (oldest (entries t)) as [id|] eqn:E.
  - destruct H as (e & He & Hmin). exists id, e. split; [done|]. split; [done|]. split; [done|].
    rewrite map_size_delete_Some by (by exists e). lia.
  - rewrite H, map_size_empty in Hfull. lia.
Qed.

Lemma is_resend_eq t seq :
  snd (is_resend t seq) =
  match entries t !! seq_id seq with
  | Some e => mkSenderTable (capacity t) (<[seq_id seq := mkEntry (mark e) (next_tick (tick t))]> (entries t))
      (next_tick (tick t))
  | None => mkSenderTable (capacity t) (entries t) (next_tick (tick t))
  end.
Proof. unfold is_resend. by case_match. Qed.

Lemma step_inv t o :
  table_inv t -> tick t + 1 < 2 ^ 64 -> table_inv (step t o) /\ capacity (step t o) = capacity t /\
  tick t <= tick (step t o) <= tick t + 1.
Proof.
  intros Hinv Hb. pose proof Hinv as (Hc & Hs & Ht & HF & Hinj).
  assert (next_tick (tick t) = tick t + 1) as En by (apply uwrap_small; split; lia).
  destruct o as [seq|seq|ids]; cbn [step]; [| |split; [done|]; split; [done|lia]].
  - rewrite is_resend_eq. destruct (entries t !! seq_id seq) as [e|] eqn:E; cbn [capacity tick]; rewrite En.
    + split; [|split; [done|lia]]. rewrite <- En. apply touch_inv; [done|done|done|].
      by rewrite map_size_insert_Some.
    + split; [|split; [done|lia]]. split; [done|]. split; [done|]. cbn [capacity entries tick]. split; [lia|].
      split; [|done]. eapply map_Forall_impl; [exact HF|]. intros i e He. simpl in *. lia.
  - unfold raise. destruct (entries t !! seq_id seq) as [e|] eqn:E; cbn [fst capacity tick].
    { split; [|split; [done|lia]]. apply touch_inv; [done|done|done|]. by rewrite map_size_insert_Some. }
    split; [|split; [done|lia]].
    destruct (Z.leb_spec (capacity t) (Z.of_nat (size (entries t)))) as [Hfull|Hroom].
    + destruct (oldest_full t Hinv Hfull) as (id & e & Ho & He & _ & Hsize).
      apply touch_inv; [done|done|apply remove_oldest_sub|].
      rewrite map_size_insert_None; [lia|]. eapply lookup_weaken_None; [exact E|apply remove_oldest_sub].
    + apply touch_inv; [done|done|done|]. rewrite map_size_insert_None by done. lia.
Qed.

Lemma run_inv ops : forall t,
  table_inv t -> tick t + Z.of_nat (length ops) < 2 ^ 64 ->
  table_inv (run t ops) /\ capacity (run t ops) = capacity t /\ tick (run t ops) <= tick t + Z.of_nat (length ops).
Proof.
  induction ops as [|o ops IH]; intros t Hinv Hb; cbn [run foldl length] in *; [split; [done|]; split; [done|lia]|].
  destruct (step_inv t o Hinv ltac:(lia)) as (Hinv' & Hcap & Htick).
  destruct (IH (step t o) Hinv' ltac:(lia)) as (H1 & H2 & H3). unfold run in *. split; [done|]. split; [congruence|lia].
Qed.

(** ** A sender seen recently is remembered *)

(** [id] is held with a mark of at least [s], and every identity seen since is in [S]. *)
Definition remembered (t : SenderTable) (id : bytes) (s : Z) (S : gset bytes) : Prop :=
  exists e, entries t !! id = Some e /\ s <= mark e /\
    forall j ej, entries t !! j = Some ej -> last_seen e < last_seen ej -> j ∈ S.

Definition others (id : bytes) (o : Op) : gset bytes := list_to_set (touched o) ∖ {[id]}.

(** The identities an operation sequence touches, [id] apart. *)
Definition others_in (id : bytes) (ops : list Op) : gset bytes := ⋃ (others id <$> ops).

(** Touching [k] at the next tick. *)
Lemma remembered_touch t kept k m id s S :
  table_inv t -> tick t + 1 < 2 ^ 64 -> kept ⊆ entries t -> remembered t id s S ->
  (k = id -> s <= m) -> (k <> id -> is_Some (kept !! id)) ->
  remembered (mkSenderTable (capacity t) (<[k := mkEntry m (next_tick (tick t))]> kept) (next_tick (tick t)))
    id s (S ∪ ({[k]} ∖ {[id]})).
Proof.
  intros (Hc & Hs & Ht & HF & Hinj) Hb Hsub (e & He & Hm & Hnew) Hk Hkept.
  assert (next_tick (tick t) = tick t + 1) as -> by (apply uwrap_small; split; lia).
  unfold remembered. cbn [entries]. destruct (decide (k = id)) as [->|Hne].
  - eexists. split; [apply lookup_insert_eq|]. split; [by apply Hk|]. cbn [last_seen].
    intros j ej [[_ <-]|[_ Hj]]%lookup_insert_Some; [simpl; lia|].
    pose proof (HF j ej (lookup_weaken _ _ _ _ Hj Hsub)). simpl in *. lia.
  - exists e. assert (kept !! id = Some e) as Hid.
    { destruct (Hkept Hne) as [e' He']. rewrite He'. pose proof (lookup_weaken _ _ _ _ He' Hsub). congruence. }
    split; [by rewrite lookup_insert_ne|]. split; [done|].
    intros j ej [[<- _]|[_ Hj]]%lookup_insert_Some Hlt; [set_solver|].
    apply elem_of_union_l. eapply Hnew; [by eapply lookup_weaken|done].
Qed.

(** The remembered identity is never the one a full table gives up, while few others were touched. *)
Lemma remembered_not_oldest t id s S k :
  table_inv t -> remembered t id s S -> entries t !! k = None ->
  capacity t <= Z.of_nat (size (entries t)) -> Z.of_nat (size (S ∪ ({[k]} ∖ {[id]}))) < capacity t ->
  is_Some (remove_oldest (entries t) !! id).
Proof.
  intros Hinv (e & He & Hm & Hnew) Hk Hfull Hsmall.
  destruct (oldest_full t Hinv Hfull) as (o & eo & Ho & Heo & Hmin & Hsize).
  unfold remove_oldest in *. rewrite Ho in *. destruct (decide (o = id)) as [->|Hne].
  2:{ exists e. by rewrite lookup_delete_ne. }
  exfalso. assert (id <> k) as Hik by congruence.
  assert (dom (delete id (entries t)) ∪ {[k]} ⊆ S ∪ ({[k]} ∖ {[id]})) as Hsub.
  { intros j Hj. apply elem_of_union in Hj as [Hj|Hj]; [|set_solver].
    apply elem_of_dom in Hj as [ej Hj]. apply lookup_delete_Some in Hj as [Hne Hj].
    apply elem_of_union_l. eapply Hnew; [exact Hj|]. assert (eo = e) as -> by congruence. by eapply Hmin. }
  apply subseteq_size in Hsub. rewrite size_union, size_dom, size_singleton in Hsub; [lia|].
  intros x Hx Hxk. apply elem_of_singleton in Hxk as ->. apply elem_of_dom in Hx as [ex Hx].
  apply lookup_delete_Some in Hx as [_ Hx]. congruence.
Qed.

Lemma remembered_step t o id s S :
  table_inv t -> tick t + 1 < 2 ^ 64 -> remembered t id s S ->
  Z.of_nat (size (S ∪ others id o)) < capacity t -> remembered (step t o) id s (S ∪ others id o).
Proof.
  intros Hinv Hb Hr Hsmall. pose proof Hr as (e & He & Hm & Hnew). unfold others in *.
  destruct o as [seq|seq|ids]; cbn [step touched list_to_set foldr list_to_set] in *;
    rewrite ?union_empty_r_L in *.
  - rewrite is_resend_eq. destruct (entries t !! seq_id seq) as [ek|] eqn:Ek.
    + apply remembered_touch; [done|done|done|done| |by intros; exists e].
      intros E. rewrite E in Ek. congruence.
    + exists e. split; [done|]. split; [done|]. intros j ej Hj Hlt. apply elem_of_union_l. by eapply Hnew.
  - unfold raise. destruct (entries t !! seq_id seq) as [ek|] eqn:Ek; cbn [fst].
    + apply remembered_touch; [done|done|done|done| |by intros; exists e].
      intros E. rewrite E in Ek. assert (ek = e) as -> by congruence. lia.
    + assert (seq_id seq <> id) as Hne by congruence.
      destruct (Z.leb_spec (capacity t) (Z.of_nat (size (entries t)))) as [Hfull|Hroom].
      * apply remembered_touch; [done|done|apply remove_oldest_sub|done|by intros|].
        intros _. by eapply remembered_not_oldest.
      * apply remembered_touch; [done|done|done|done|by intros|by intros; exists e].
  - rewrite empty_difference_L, union_empty_r_L. done.
Qed.

Lemma remembered_run ops : forall t id s S,
  table_inv t -> tick t + Z.of_nat (length ops) < 2 ^ 64 -> remembered t id s S ->
  Z.of_nat (size (S ∪ others_in id ops)) < capacity t ->
  remembered (run t ops) id s (S ∪ others_in id ops).
Proof.
  induction ops as [|o ops IH]; intros t id s S Hinv Hb Hr Hsmall.
  { unfold others_in. cbn. by rewrite union_empty_r_L. }
  unfold others_in in *. cbn [length fmap list_fmap union_list foldr] in *. fold (others_in id ops) in *.
  rewrite union_assoc_L in *.
  assert (Z.of_nat (size (S ∪ others id o)) < capacity t) as Hstep.
  { assert (S ∪ others id o ⊆ S ∪ others id o ∪ others_in id ops) as Hsub by apply union_subseteq_l.
    apply subseteq_size in Hsub. lia. }
  destruct (step_inv t o Hinv ltac:(lia)) as (Hinv' & Hcap & Htick).
  change (run t (o :: ops)) with (run (step t o) ops).
  apply IH; [done|lia| |by rewrite Hcap]. apply remembered_step; [done|lia|done|done].
Qed.

Lemma run_app t l k : run t (l ++ k) = run (run t l) k.
Proof. apply foldl_app. Qed.

(** Every mark held was raised to by some operation. *)
Lemma marks_raised ops : forall t,
  (forall id e, entries (run t ops) !! id = Some e ->
     (exists e0, entries t !! id = Some e0 /\ mark e0 = mark e) \/
     OpRaise (mkSeqId id (mark e)) ∈ ops).
Proof.
  induction ops as [|o ops IH] using rev_ind; intros t id e; [simpl; intros E; left; eauto|].
  rewrite run_app. change (run (run t ops) [o]) with (step (run t ops) o). intros E.
  assert (forall id e, entries (run t ops) !! id = Some e ->
    (exists e0, entries t !! id = Some e0 /\ mark e0 = mark e) \/
     OpRaise (mkSeqId id (mark e)) ∈ ops ++ [o]) as Hold.
  { intros i ei [H|H]%IH; [by left|]. right. apply elem_of_app. by left. }
  destruct o as [[k s]|[k s]|ids]; cbn [step] in E; [| |by apply Hold].
  - rewrite is_resend_eq in E. cbn [seq_id] in E. destruct (entries (run t ops) !! k) as [ek|] eqn:Ek; [|by apply Hold].
    cbn [entries] in E. apply lookup_insert_Some in E as [[<- <-]|[_ E]]; [apply (Hold k ek Ek)|by apply Hold].
  - unfold raise in E. cbn [seq_id seq_seq] in E. destruct (entries (run t ops) !! k) as [ek|] eqn:Ek; cbn [fst entries] in E;
      apply lookup_insert_Some in E as [[<- <-]|[_ E]].
    + cbn [mark]. destruct (Z.max_spec (mark ek) s) as [[_ ->]|[_ ->]]; [|apply (Hold k ek Ek)].
      right. apply elem_of_app. right. by apply list_elem_of_singleton.
    + by apply Hold.
    + right. apply elem_of_app. right. by apply list_elem_of_singleton.
    + apply Hold. case_match; [|done]. by eapply lookup_weaken; [|apply remove_oldest_sub].
Qed.

Lemma resend_raised (max_connections : Z) ops seq :
  fst (is_resend (run (table_new max_connections) ops) seq) = true ->
  exists s, seq_seq seq <= s /\ OpRaise (mkSeqId (seq_id seq) s) ∈ ops.
Proof.
  unfold is_resend. intros Hr.
  destruct (entries (run (table_new max_connections) ops) !! seq_id seq) as [e|] eqn:E; [|done].
  exists (mark e). split; [by apply Z.leb_le|]. by apply marks_raised in E as [(e0 & He0 & _)|H].
Qed.

(** ** The theorems *)

(** However many operations run, in whatever order, the table holds at most [capacity] identities,
    each with a last-seen tick of its own. *)
Theorem sender_table_invariant (max_connections : Z) (ops : list Op) (Hn : 0 <= max_connections)
    (Hlen : Z.of_nat (length ops) < 2 ^ 64) :
  table_inv (run (table_new max_connections) ops) /\
  capacity (run (table_new max_connections) ops) = Z.max (max_connections + max_connections / 4) 1.
Proof.
  destruct (run_inv ops (table_new max_connections)) as (H1 & H2 & _); [by apply table_new_inv|done|]. done.
Qed.

Lemma sender_table_invariant_witness :
  table_inv (run (table_new 1) [OpRaise (mkSeqId [z2b 1] 4); OpRaise (mkSeqId [z2b 2] 9)]) /\
  capacity (run (table_new 1) [OpRaise (mkSeqId [z2b 1] 4); OpRaise (mkSeqId [z2b 2] 9)]) = 1.
Proof. apply (sender_table_invariant 1 [OpRaise (mkSeqId [z2b 1] 4); OpRaise (mkSeqId [z2b 2] 9)]); by vm_compute. Defined.

(** A frame reported as a resend was taken before: some earlier operation raised its identity's
    mark to its sequence or past it. No frame is dropped as a duplicate of one never taken. *)
Theorem resend_was_taken (max_connections : Z) (ops : list Op) (seq : SeqId)
    (Hr : fst (is_resend (run (table_new max_connections) ops) seq) = true) :
  exists s, seq_seq seq <= s /\ OpRaise (mkSeqId (seq_id seq) s) ∈ ops.
Proof. by apply (resend_raised max_connections). Qed.

Lemma resend_was_taken_witness :
  exists s, 3 <= s /\ OpRaise (mkSeqId [z2b 1] s) ∈ [OpRaise (mkSeqId [z2b 1] 4)].
Proof. apply (resend_was_taken 8 [OpRaise (mkSeqId [z2b 1] 4)] (mkSeqId [z2b 1] 3)). by vm_compute. Defined.

(** C24: once a frame was taken, every resend of it and of the frames before it under its identity is
    recognized, as long as fewer other identities than the table's capacity were touched since. *)
Theorem resend_recognized (max_connections : Z) (before after : list Op) (seq : SeqId) (s : Z)
    (Hn : 0 <= max_connections) (Hlen : Z.of_nat (length before + length after) + 1 < 2 ^ 64)
    (Hfew : Z.of_nat (size (others_in (seq_id seq) after)) < Z.max (max_connections + max_connections / 4) 1)
    (Hs : s <= seq_seq seq) :
  fst (is_resend (run (table_new max_connections) (before ++ OpRaise seq :: after)) (mkSeqId (seq_id seq) s)) = true.
Proof.
  rewrite run_app. change (run ?t (OpRaise seq :: after)) with (run (step t (OpRaise seq)) after).
  destruct (run_inv before (table_new max_connections)) as (Hi & Hc & Ht);
    [by apply table_new_inv|cbn [tick table_new]; lia|]. cbn [tick capacity table_new] in *.
  set (t := run _ before) in *. destruct (step_inv t (OpRaise seq) Hi ltac:(lia)) as (Hi' & Hc' & Ht').
  assert (remembered (step t (OpRaise seq)) (seq_id seq) (seq_seq seq) ∅) as Hr.
  { pose proof Hi as (_ & _ & Hp & HF & _). assert (next_tick (tick t) = tick t + 1) as En by (apply uwrap_small; split; lia).
    cbn [step]. unfold raise. destruct (entries t !! seq_id seq) as [e|] eqn:E; cbn [fst].
    all: eexists; cbn [entries]; split; [apply lookup_insert_eq|]; split; [simpl; lia|]; cbn [last_seen].
    all: intros j ej [[_ <-]|[_ Hj]]%lookup_insert_Some; [simpl; lia|]; rewrite En.
    - specialize (HF j ej Hj). simpl in HF. lia.
    - assert (entries t !! j = Some ej) as Hj'.
      { revert Hj. case_match; [|done]. intros Hj. by eapply lookup_weaken; [|apply remove_oldest_sub]. }
      specialize (HF j ej Hj'). simpl in HF. lia. }
  destruct (remembered_run after _ _ _ _ Hi' ltac:(lia) Hr) as (e & He & Hm & _).
  { rewrite union_empty_l_L. by rewrite Hc', Hc. }
  unfold is_resend. cbn [seq_id seq_seq]. rewrite He. cbn [fst]. apply Z.leb_le. lia.
Qed.

Lemma resend_recognized_witness :
  fst (is_resend (run (table_new 4) ([] ++ OpRaise (mkSeqId [z2b 1] 7) ::
    [OpRaise (mkSeqId [z2b 2] 1); OpIsResend (mkSeqId [z2b 3] 1); OpRaise (mkSeqId [z2b 3] 1)])) (mkSeqId [z2b 1] 6)) = true.
Proof.
  apply (resend_recognized 4 [] [OpRaise (mkSeqId [z2b 2] 1); OpIsResend (mkSeqId [z2b 3] 1); OpRaise (mkSeqId [z2b 3] 1)]
    (mkSeqId [z2b 1] 7) 6); by vm_compute.
Defined.

(** Raising a new identity at a full table drops exactly the identity seen longest ago, which does
    not depend on the order the hash map iterates in, and publishes one eviction. *)
Theorem eviction_is_least_recent (t : SenderTable) (seq : SeqId) (Hinv : table_inv t)
    (Hfull : capacity t <= Z.of_nat (size (entries t))) (Hnew : entries t !! seq_id seq = None) :
  exists old e, entries t !! old = Some e /\
    (forall j ej, entries t !! j = Some ej -> j <> old -> last_seen e < last_seen ej) /\
    (forall l, l ≡ₚ map_to_list (entries t) -> fst <$> min_by_last_seen l = Some old) /\
    raise t seq = (mkSenderTable (capacity t)
      (<[seq_id seq := mkEntry (seq_seq seq) (next_tick (tick t))]> (delete old (entries t))) (next_tick (tick t)),
      [SendersEvicted]).
Proof.
  destruct (oldest_full t Hinv Hfull) as (old & e & Ho & He & Hmin & _). exists old, e.
  split; [done|]. split; [done|]. split.
  - intros l Hl. pose proof (min_by_last_seen_spec l) as H. destruct (min_by_last_seen l) as [[i ei]|].
    + destruct H as [Hin Hle]. cbn. f_equal. destruct (decide (i = old)) as [|Hne]; [done|]. exfalso.
      rewrite Hl in Hin. apply elem_of_map_to_list in Hin. specialize (Hmin i ei Hin Hne).
      assert ((old, e) ∈ l) as Hold by (rewrite Hl; by apply elem_of_map_to_list).
      specialize (Hle _ Hold). simpl in Hle. lia.
    + exfalso. subst l. apply Permutation_nil_l in Hl. symmetry in Hl. apply map_to_list_empty_iff in Hl.
      by rewrite Hl, lookup_empty in He.
  - unfold raise. rewrite Hnew, (proj2 (Z.leb_le _ _) Hfull). unfold remove_oldest. by rewrite Ho.
Qed.

Lemma eviction_is_least_recent_witness :
  let t := run (table_new 1) [OpRaise (mkSeqId [z2b 1] 4)] in
  exists old e, entries t !! old = Some e /\
    (forall j ej, entries t !! j = Some ej -> j <> old -> last_seen e < last_seen ej) /\
    (forall l, l ≡ₚ map_to_list (entries t) -> fst <$> min_by_last_seen l = Some old) /\
    raise t (mkSeqId [z2b 2] 9) = (mkSenderTable (capacity t)
      (<[[z2b 2] := mkEntry 9 (next_tick (tick t))]> (delete old (entries t))) (next_tick (tick t)), [SendersEvicted]).
Proof.
  apply (eviction_is_least_recent (run (table_new 1) [OpRaise (mkSeqId [z2b 1] 4)]) (mkSeqId [z2b 2] 9)).
  - apply run_inv; [by apply table_new_inv|by vm_compute].
  - by vm_compute.
  - by vm_compute.
Defined.
