(* ===== verification/Buffer.v ===== *)
(** * The bounded in-memory buffer

    [InMemoryBuffer] of crates/logit-proto/src/buffer.rs: a queue bounded by item count and by
    weight, whose consumer reads ahead, reserving what it read, and commits in order. A push that
    finds it full evicts the oldest items not reserved, or is refused. *)

From S2P Require Import Prelude.

(** [OverflowPolicy] of buffer.rs, which queue.rs imports under this name. *)
Inductive DropPolicy := DropOldest | DropNewest.

Inductive PushOutcome (T : Type) :=
| Accepted
| Evicted (evicted : list T)
| Rejected (item : T).
Arguments Accepted {T}.
Arguments Evicted {T} _.
Arguments Rejected {T} _.

(** Each item is held with its weight when it was pushed. *)
Record InMemoryBuffer (T : Type) := mkInMemoryBuffer {
  items : list (T * Z);
  max_len : Z;
  max_weight : Z;
  held_weight : Z;
  overflow : DropPolicy;
  reserved : nat
}.
Arguments mkInMemoryBuffer {T} _ _ _ _ _ _.
Arguments items {T} _.
Arguments max_len {T} _.
Arguments max_weight {T} _.
Arguments held_weight {T} _.
Arguments overflow {T} _.
Arguments reserved {T} _.

Section Buffer.
Context {T : Type}.
Implicit Types (b : InMemoryBuffer T) (x : T) (w : Z).

Definition buffer_new (len weight : Z) (overflow : DropPolicy) : InMemoryBuffer T :=
  mkInMemoryBuffer [] len weight 0 overflow 0.

(** The same bounds around other contents. *)
Definition with_items b (its : list (T * Z)) (weight : Z) (r : nat) : InMemoryBuffer T :=
  mkInMemoryBuffer its (max_len b) (max_weight b) weight (overflow b) r.

Definition would_overflow b w : bool :=
  (max_len b <=? Z.of_nat (length (items b))) || (max_weight b <? saturating_add (held_weight b) w).

(** The loop of [evict_to_fit]; each turn removes an item, so the number of items is fuel enough
    ([evict_to_fit_spec]). *)
Fixpoint evict_loop (fuel : nat) b w (evicted : list T) : list T * InMemoryBuffer T :=
  match fuel with
  | O => (evicted, b)
  | S fuel =>
      if would_overflow b w then
        match items b !! reserved b with
        | Some (item, item_weight) =>
            evict_loop fuel
              (with_items b (delete (reserved b) (items b))
                 (saturating_sub (held_weight b) item_weight) (reserved b))
              w (evicted ++ [item])
        | None => (evicted, b)
        end
      else (evicted, b)
  end.

Definition evict_to_fit b w : list T * InMemoryBuffer T := evict_loop (S (length (items b))) b w [].

(** [push_back] with the weight added. *)
Definition push_back b x w : InMemoryBuffer T :=
  with_items b (items b ++ [(x, w)]) (saturating_add (held_weight b) w) (reserved b).

Definition buffer_push b x w : PushOutcome T * InMemoryBuffer T :=
  if negb (would_overflow b w) then (Accepted, push_back b x w)
  else
    match overflow b with
    | DropOldest => let '(evicted, b') := evict_to_fit b w in (Evicted evicted, push_back b' x w)
    | DropNewest => (Rejected x, b)
    end.

Definition buffer_peek_at b (n : nat) : option T * InMemoryBuffer T :=
  match items b !! n with
  | Some (item, _) => (Some item, with_items b (items b) (held_weight b) (Nat.max (reserved b) (n + 1)))
  | None => (None, b)
  end.

Definition buffer_peek b : option T * InMemoryBuffer T := buffer_peek_at b 0.

Definition buffer_commit b : option T * InMemoryBuffer T :=
  match items b with
  | (item, weight) :: rest =>
      (Some item, with_items b rest (saturating_sub (held_weight b) weight) (reserved b - 1))
  | [] => (None, with_items b [] (held_weight b) (reserved b - 1))
  end.

Definition buffer_len b : Z := Z.of_nat (length (items b)).

(** ** Runs *)

Inductive BufferOp :=
| BufPush (x : T) (w : Z)
| BufPeekAt (n : nat)
| BufCommit.

(** What became of the items a run was given, each list in the order it happened. *)
Record Ledger := mkLedger { pushed : list T; shed : list T; delivered : list T }.

(** What an outcome sheds: evicted items, or the item itself. *)
Definition outcome_shed (o : PushOutcome T) : list T :=
  match o with
  | Accepted => []
  | Evicted evicted => evicted
  | Rejected item => [item]
  end.

Definition buffer_step (s : InMemoryBuffer T * Ledger) (o : BufferOp) : InMemoryBuffer T * Ledger :=
  let '(b, l) := s in
  match o with
  | BufPush x w =>
      let '(o, b') := buffer_push b x w in
      (b', mkLedger (pushed l ++ [x]) (shed l ++ outcome_shed o) (delivered l))
  | BufPeekAt n => (snd (buffer_peek_at b n), l)
  | BufCommit =>
      let '(r, b') := buffer_commit b in
      (b', mkLedger (pushed l) (shed l) (delivered l ++ option_list r))
  end.

Definition buffer_run (b : InMemoryBuffer T) (ops : list BufferOp) : InMemoryBuffer T * Ledger :=
  foldl buffer_step (b, mkLedger [] [] []) ops.

Definition held b : list T := (items b).*1.
Definition true_weight b : Z := total snd (items b).

(** What the commits of a run return. *)
Fixpoint commit_results b (ops : list BufferOp) : list (option T) :=
  match ops with
  | [] => []
  | BufPush x w :: ops => commit_results (snd (buffer_push b x w)) ops
  | BufPeekAt n :: ops => commit_results (snd (buffer_peek_at b n)) ops
  | BufCommit :: ops => let '(r, b') := buffer_commit b in r :: commit_results b' ops
  end.

(** ** Eviction *)

(** The weight left after some items' weights were taken off, one by one. *)
Definition weight_after (h : Z) (gone : list (T * Z)) : Z :=
  foldl (fun h p => saturating_sub h p.2) h gone.

(** A buffer's contents are its reserved items and the rest; eviction takes the least prefix of the
    rest that makes room, or all of it. *)
Lemma evict_loop_spec keep w rest : forall fuel b (acc : list T),
  items b = keep ++ rest -> reserved b = length keep -> (length rest < fuel)%nat ->
  exists gone kept : list (T * Z),
    rest = gone ++ kept /\
    let b' := with_items b (keep ++ kept) (weight_after (held_weight b) gone) (reserved b) in
    evict_loop fuel b w acc = (acc ++ gone.*1, b') /\
    (would_overflow b' w = false \/ kept = []) /\
    forall g1 y g2, gone = g1 ++ y :: g2 ->
      would_overflow (with_items b (keep ++ y :: g2 ++ kept) (weight_after (held_weight b) g1) (reserved b)) w = true.
Proof.
  induction rest as [|[y wy] rest IH]; intros [|fuel] b acc Hi Hr Hf; simpl in Hf; try lia; simpl.
  - exists [], []. split; [done|]. rewrite Hi, Hr, lookup_ge_None_2 by (rewrite app_nil_r; lia).
    rewrite !app_nil_r. split; [|split; [by right|by intros [|??]]].
    rewrite app_nil_r in Hi. rewrite <- Hi. destruct (would_overflow b w); by destruct b; simpl in *; subst.
  - destruct (would_overflow b w) eqn:Ho.
    + rewrite Hi, Hr, list_lookup_middle by done. rewrite delete_middle.
      destruct (IH fuel (with_items b (keep ++ rest) (saturating_sub (held_weight b) wy) (length keep)) (acc ++ [y]))
        as (gone & kept & -> & He & Hd & Hm); [done|done|lia|].
      exists ((y, wy) :: gone), kept. split; [done|]. rewrite <- Hr in *. split; [|split].
      * rewrite He. by rewrite <- app_assoc.
      * exact Hd.
      * intros [|z g1] y' g2 [= <- Hg].
        -- subst gone. rewrite <- Ho. f_equal. destruct b; simpl in *. by subst.
        -- by apply (Hm g1 y' g2).
    + exists [], ((y, wy) :: rest). split; [done|]. cbn [weight_after foldl fmap list_fmap].
      rewrite app_nil_r.
      assert (b = with_items b (keep ++ (y, wy) :: rest) (held_weight b) (reserved b)) as Hb
        by (rewrite <- Hi; by destruct b).
      rewrite <- Hb. split; [done|]. split; [by left|by intros [|??]].
Qed.

Lemma evict_to_fit_spec b w :
  (reserved b <= length (items b))%nat ->
  exists gone kept : list (T * Z),
    items b = take (reserved b) (items b) ++ gone ++ kept /\
    let b' := with_items b (take (reserved b) (items b) ++ kept)
                (weight_after (held_weight b) gone) (reserved b) in
    evict_to_fit b w = (gone.*1, b') /\
    (would_overflow b' w = false \/ kept = []) /\
    forall g1 y g2, gone = g1 ++ y :: g2 ->
      would_overflow (with_items b (take (reserved b) (items b) ++ y :: g2 ++ kept)
        (weight_after (held_weight b) g1) (reserved b)) w = true.
Proof.
  intros Hr.
  destruct (evict_loop_spec (take (reserved b) (items b)) w (drop (reserved b) (items b))
    (S (length (items b))) b []) as (gone & kept & Hg & H).
  - by rewrite take_drop.
  - rewrite length_take. lia.
  - rewrite length_drop. lia.
  - exists gone, kept. rewrite <- Hg, take_drop. by split.
Qed.

(** ** The invariant *)

Definition nonneg_weights (l : list (T * Z)) : Prop := Forall (fun p => 0 <= p.2) l.

(** Reservations cover held items; the weight is at most the items' own; and the length is within
    its bound, or one over what is reserved. *)
Definition buffer_ok b : Prop :=
  (reserved b <= length (items b))%nat /\ nonneg_weights (items b) /\
  0 <= held_weight b <= true_weight b /\
  buffer_len b <= Z.max (max_len b) (Z.of_nat (reserved b) + 1).

Lemma total_weights_nonneg l : nonneg_weights l -> 0 <= total snd l.
Proof. unfold total. induction 1; simpl in *; lia. Qed.

Lemma weight_after_eq gone : nonneg_weights gone -> forall h, 0 <= h ->
  weight_after h gone = Z.max (h - total snd gone) 0.
Proof.
  unfold weight_after, saturating_sub. induction 1 as [|p gone Hp Hg IH]; intros h Hh; simpl.
  - unfold total. simpl. lia.
  - rewrite IH by lia. pose proof (total_weights_nonneg gone Hg). unfold total in *. simpl. lia.
Qed.

Lemma push_back_ok b x w :
  0 <= w -> (reserved b <= length (items b))%nat -> nonneg_weights (items b) ->
  0 <= held_weight b <= true_weight b ->
  buffer_len b + 1 <= Z.max (max_len b) (Z.of_nat (reserved b) + 1) ->
  buffer_ok (push_back b x w).
Proof.
  unfold buffer_ok, push_back, buffer_len, true_weight, saturating_add. cbn [items reserved held_weight max_len with_items].
  intros. rewrite length_app, total_app. cbn [length]. change (total snd [(x, w)]) with (w + 0).
  split_and!; try lia; [by apply Forall_app; split; [done|constructor]|unfold U64_MAX; lia].
Qed.

(** An eviction leaves room for the item, or only what is reserved. *)
Lemma evict_to_fit_ok b w :
  buffer_ok b ->
  exists gone b', evict_to_fit b w = (gone.*1, b') /\ overflow b' = overflow b /\
    items b ≡ₚ gone ++ items b' /\ items b' `sublist_of` items b /\
    take (reserved b) (items b') = take (reserved b) (items b) /\ reserved b' = reserved b /\
    (reserved b' <= length (items b'))%nat /\ nonneg_weights (items b') /\
    0 <= held_weight b' <= true_weight b' /\
    (held_weight b = true_weight b -> held_weight b' = true_weight b') /\
    buffer_len b' + 1 <= Z.max (max_len b') (Z.of_nat (reserved b') + 1).
Proof.
  intros (Hr & Hn & Hw & Hl). destruct (evict_to_fit_spec b w Hr) as (gone & kept & Hi & He & Hd & _).
  set (keep := take (reserved b) (items b)) in *.
  assert (length keep = reserved b) as Hk by (unfold keep; rewrite length_take; lia).
  unfold true_weight, nonneg_weights in *. rewrite Hi, !total_app in Hw. rewrite Hi, !Forall_app in Hn.
  destruct Hn as (Hn1 & Hn2 & Hn3). pose proof (total_weights_nonneg _ Hn1). pose proof (total_weights_nonneg _ Hn2).
  pose proof (total_weights_nonneg _ Hn3).
  exists gone, (with_items b (keep ++ kept) (weight_after (held_weight b) gone) (reserved b)).
  cbn [with_items overflow items reserved held_weight max_len] in *.
  rewrite weight_after_eq by (done || lia). unfold buffer_len in *. cbn [items] in *.
  split; [by rewrite He, weight_after_eq by (done || lia)|]. split; [done|].
  split; [rewrite Hi; solve_Permutation|].
  split; [rewrite Hi; apply sublist_app; [done|by apply sublist_inserts_l]|].
  split; [rewrite take_app_le by lia; apply take_ge; lia|].
  split; [done|]. split; [rewrite length_app; lia|]. split; [by apply Forall_app|].
  split; [rewrite total_app; lia|]. split; [rewrite Hi, !total_app; lia|].
  cbn [with_items items]. rewrite length_app, Hk. destruct Hd as [Hd| ->]; [|simpl; lia].
  unfold would_overflow in Hd. cbn [with_items items max_len] in Hd. rewrite length_app in Hd.
  apply orb_false_iff in Hd as [Hd _]. apply Z.leb_gt in Hd. lia.
Qed.

Lemma sublist_held (l1 l2 : list (T * Z)) : l1 `sublist_of` l2 -> l1.*1 `sublist_of` l2.*1.
Proof. induction 1; simpl; by constructor. Qed.

Lemma buffer_push_ok b x w :
  buffer_ok b -> 0 <= w ->
  let '(o, b') := buffer_push b x w in
  buffer_ok b' /\ overflow b' = overflow b /\
  held b ++ [x] ≡ₚ outcome_shed o ++ held b' /\ held b' `sublist_of` held b ++ [x] /\
  true_weight b' <= true_weight b + w /\
  (held_weight b = true_weight b -> true_weight b + w <= U64_MAX -> held_weight b' = true_weight b').
Proof.
  intros Hb Hw. pose proof Hb as (Hr & Hn & Hh & Hl). unfold buffer_push.
  assert (forall b1, held (push_back b1 x w) = held b1 ++ [x]) as Hp
    by (intros b1; unfold held, push_back; cbn [items with_items]; by rewrite fmap_app).
  assert (forall b1, true_weight (push_back b1 x w) = true_weight b1 + w) as Ht
    by (intros b1; unfold true_weight, push_back; cbn [items with_items]; rewrite total_app; unfold total; simpl; lia).
  destruct (would_overflow b w) eqn:Ho; cbn [negb].
  - destruct (overflow b) eqn:Hpol; [|cbn [outcome_shed]; split_and!; auto; [solve_Permutation|by apply sublist_inserts_r|lia]].
    destruct (evict_to_fit_ok b w Hb) as (gone & b' & -> & Hpol' & Hi & Hs & _ & Hr' & Hlen & Hn' & Hw' & Hex & Hl').
    split; [by apply push_back_ok|]. cbn [push_back with_items overflow outcome_shed]. rewrite Hp.
    assert (true_weight b' <= true_weight b).
    { unfold true_weight. rewrite (total_perm _ _ _ Hi), total_app. unfold nonneg_weights in Hn.
      rewrite Hi in Hn. apply Forall_app in Hn as [Hg _]. pose proof (total_weights_nonneg _ Hg). lia. }
    rewrite Ht. split; [congruence|]. split; [|split; [|split; [lia|]]].
    + unfold held. rewrite Hi, fmap_app. by rewrite app_assoc.
    + apply sublist_app; [by apply sublist_held|done].
    + intros He Hu. cbn [push_back with_items held_weight]. rewrite Hex by done.
      unfold saturating_add. lia.
  - cbn [outcome_shed app]. rewrite Hp. unfold would_overflow in Ho. apply orb_false_iff in Ho as [Ho _].
    apply Z.leb_gt in Ho. rewrite Ht. split; [|split; [done|split; [done|split; [done|split; [lia|]]]]].
    + apply push_back_ok; try done. unfold buffer_len in *. lia.
    + intros He Hu. cbn [push_back with_items held_weight]. unfold saturating_add. lia.
Qed.

Lemma buffer_peek_at_ok b n :
  buffer_ok b ->
  let '(r, b') := buffer_peek_at b n in
  buffer_ok b' /\ overflow b' = overflow b /\ items b' = items b /\ held_weight b' = held_weight b /\
  r = held b !! n.
Proof.
  intros (Hr & Hn & Hw & Hl). unfold buffer_peek_at, held. rewrite list_lookup_fmap.
  destruct (items b !! n) as [[x w]|] eqn:Hi; [|by split_and!].
  apply lookup_lt_Some in Hi. unfold buffer_ok, buffer_len, true_weight in *.
  cbn [with_items items reserved held_weight max_len overflow]. split_and!; try done; lia.
Qed.

Lemma buffer_commit_ok b :
  buffer_ok b ->
  let '(r, b') := buffer_commit b in
  buffer_ok b' /\ overflow b' = overflow b /\ held b = option_list r ++ held b' /\
  (held_weight b = true_weight b -> held_weight b' = true_weight b') /\ true_weight b' <= true_weight b.
Proof.
  intros (Hr & Hn & Hw & Hl). unfold buffer_commit, buffer_ok, buffer_len, held, true_weight, nonneg_weights in *.
  destruct (items b) as [|[x w] rest]; cbn [with_items items reserved held_weight max_len overflow option_list fmap
    list_fmap length app fst] in *; [split_and!; try done; lia|].
  apply Forall_cons in Hn as [Hx Hn]. cbn [snd] in Hx. pose proof (total_weights_nonneg rest Hn).
  unfold saturating_sub, total in *. cbn [map foldr snd] in *. split_and!; try done; lia.
Qed.

(** ** Whole runs *)

Definition op_ok (o : BufferOp) : Prop := match o with BufPush _ w => 0 <= w | _ => True end.
Definition op_weight (o : BufferOp) : Z := match o with BufPush _ w => w | _ => 0 end.

(** Every item is accounted for, and what was delivered and is held is in the order it was pushed. *)
Definition ledger_ok (b : InMemoryBuffer T) (l : Ledger) : Prop :=
  pushed l ≡ₚ delivered l ++ shed l ++ held b /\ delivered l ++ held b `sublist_of` pushed l.

Lemma buffer_step_ok b l o :
  buffer_ok b -> ledger_ok b l -> op_ok o ->
  let '(b', l') := buffer_step (b, l) o in
  buffer_ok b' /\ overflow b' = overflow b /\ ledger_ok b' l' /\
  (held_weight b = true_weight b -> true_weight b + op_weight o <= U64_MAX ->
   held_weight b' = true_weight b' /\ true_weight b' <= true_weight b + op_weight o).
Proof.
  intros Hb [Hp Hs] Ho. destruct o as [x w|n|]; cbn [buffer_step op_weight op_ok] in *.
  - pose proof (buffer_push_ok b x w Hb Ho) as H. destruct (buffer_push b x w) as [o b'].
    destruct H as (Hb' & Hpol & Hi & Hsub & Hle & He). unfold ledger_ok. split_and!; try done; cbn [pushed shed delivered].
    + rewrite Hp, <- !app_assoc, Hi. solve_Permutation.
    + etrans; [apply sublist_app; [done|exact Hsub]|]. rewrite app_assoc. by apply sublist_app.
    + intros H1 H2. split; [by apply He|done].
  - pose proof (buffer_peek_at_ok b n Hb) as H. destruct (buffer_peek_at b n) as [r b'].
    destruct H as (Hb' & Hpol & Hi & Hw & _). unfold ledger_ok, held, true_weight. cbn [snd]. rewrite Hi, Hw.
    split_and!; try done. lia.
  - pose proof (buffer_commit_ok b Hb) as H. destruct (buffer_commit b) as [r b'].
    destruct H as (Hb' & Hpol & Hi & He & Hle). unfold ledger_ok in *. cbn [pushed shed delivered]. rewrite Hi in Hp, Hs.
    split_and!; try done.
    + rewrite Hp. solve_Permutation.
    + by rewrite <- app_assoc.
    + intros H1 H2. split; [by apply He|lia].
Qed.

(** No operation moves the bounds. *)
Lemma evict_loop_bounds fuel : forall b w acc,
  let b' := snd (evict_loop fuel b w acc) in max_len b' = max_len b /\ max_weight b' = max_weight b.
Proof.
  induction fuel as [|fuel IH]; intros b w acc; simpl; [done|].
  case_match; [|done]. case_match; [|done]. case_match.
  match goal with |- context [evict_loop fuel ?b' ?w ?acc] => exact (IH b' w acc) end.
Qed.

Lemma buffer_step_bounds b l o :
  let b' := fst (buffer_step (b, l) o) in max_len b' = max_len b /\ max_weight b' = max_weight b.
Proof.
  destruct o as [x w|n|]; cbn [buffer_step].
  - unfold buffer_push. destruct (would_overflow b w); cbn [negb]; [|done]. pose proof (evict_loop_bounds (S (length (items b))) b w []) as Hb.
    unfold evict_to_fit. destruct (overflow b); [|done]. destruct (evict_loop _ _ _ _). exact Hb.
  - unfold buffer_peek_at. by destruct (items b !! n) as [[]|].
  - unfold buffer_commit. by destruct (items b) as [|[]].
Qed.

(** Where the newest is refused, both bounds hold whatever is reserved. *)
Definition within_bounds b : Prop := buffer_len b <= max_len b /\ held_weight b <= Z.max (max_weight b) 0.

Lemma buffer_step_within b l o :
  overflow b = DropNewest -> buffer_ok b -> within_bounds b -> within_bounds (fst (buffer_step (b, l) o)).
Proof.
  intros Hpol (_ & Hn & Hw & _) [Hl Hh]. unfold within_bounds, buffer_len in *. destruct o as [x w|n|]; cbn [buffer_step].
  - unfold buffer_push. destruct (would_overflow b w) eqn:Ho; cbn [negb]; [by rewrite Hpol|].
    unfold would_overflow in Ho. apply orb_false_iff in Ho as [H1%Z.leb_gt H2%Z.ltb_ge].
    cbn [fst push_back with_items items held_weight max_len max_weight]. rewrite length_app. simpl. lia.
  - unfold buffer_peek_at. by destruct (items b !! n) as [[]|].
  - unfold buffer_commit, nonneg_weights in *. destruct (items b) as [|[x w] rest]; [done|].
    apply Forall_cons in Hn as [Hx _]. cbn [fst with_items items held_weight max_len max_weight length snd] in *.
    unfold saturating_sub. lia.
Qed.

Lemma buffer_run_app b ops ops' :
  buffer_run b (ops ++ ops') = foldl buffer_step (buffer_run b ops) ops'.
Proof. apply foldl_app. Qed.

Lemma buffer_run_ok len weight pol ops :
  0 <= len -> Forall op_ok ops ->
  let '(b, l) := buffer_run (buffer_new len weight pol) ops in
  buffer_ok b /\ overflow b = pol /\ max_len b = len /\ max_weight b = weight /\ ledger_ok b l /\
  (pol = DropNewest -> within_bounds b) /\
  (total op_weight ops <= U64_MAX ->
   held_weight b = true_weight b /\ true_weight b <= total op_weight ops).
Proof.
  intros Hlen. induction ops as [|o ops IH] using rev_ind; intros Hops.
  - unfold buffer_run, buffer_new, buffer_ok, buffer_len, true_weight, ledger_ok, total, nonneg_weights, within_bounds, buffer_len. simpl.
    split_and!; try done; lia.
  - apply Forall_app in Hops as [Hops Ho]. apply Forall_cons in Ho as [Ho _]. specialize (IH Hops). rewrite buffer_run_app.
    destruct (buffer_run _ ops) as [b l]. cbn [foldl]. destruct IH as (Hb & Hpol & Hl & Hw & Hled & Hd & He).
    pose proof (buffer_step_ok b l o Hb Hled Ho) as H.
    pose proof (fun H1 H2 => buffer_step_within b l o H1 Hb H2) as Hin. pose proof (buffer_step_bounds b l o) as Hbd.
    destruct (buffer_step (b, l) o) as [b' l']. destruct H as (Hb' & Hpol' & Hled' & He'). cbn [fst] in Hbd. destruct Hbd as [-> ->].
    rewrite total_app. change (total op_weight [o]) with (op_weight o + 0).
    assert (0 <= op_weight o) by (by destruct o).
    split_and!; try done; try congruence; [intros ->; by apply Hin; [|apply Hd]|intros Ht..];
      destruct (He ltac:(lia)) as [H1 H2]; specialize (He' H1 ltac:(lia)); lia.
Qed.

(** ** A reserved item stays in place *)

(** Item [n] is [x], and is reserved. *)
Definition in_flight b (n : nat) x : Prop := held b !! n = Some x /\ (n < reserved b)%nat.

Lemma in_flight_push b n x y w : buffer_ok b -> in_flight b n x -> in_flight (snd (buffer_push b y w)) n x.
Proof.
  intros Hb [Hx Hr]. unfold in_flight, buffer_push, held in *.
  assert (forall b1, held b1 !! n = Some x -> held (push_back b1 y w) !! n = Some x) as Hp.
  { intros b1. unfold held, push_back. cbn [items with_items]. rewrite fmap_app. by apply lookup_app_l_Some. }
  unfold held in Hp. destruct (would_overflow b w); cbn [negb]; [|split; [by apply Hp|done]].
  destruct (overflow b); [|done].
  destruct (evict_to_fit_ok b w Hb) as (gone & b' & -> & _ & _ & _ & Ht & Hr' & _). cbn [snd].
  split; [|cbn [push_back with_items reserved]; lia]. apply Hp.
  rewrite list_lookup_fmap in *. rewrite <- (lookup_take_lt (items b') (reserved b)), Ht, lookup_take_lt by lia. done.
Qed.

(** A push leaves what is reserved, and behind it only what was there and the item. *)
Lemma buffer_push_keeps b x w :
  buffer_ok b ->
  reserved (snd (buffer_push b x w)) = reserved b /\
  exists kept, held (buffer_push b x w).2 = take (reserved b) (held b) ++ kept /\ kept ⊆ drop (reserved b) (held b) ++ [x].
Proof.
  intros Hb. unfold buffer_push, held. destruct (would_overflow b w); cbn [negb snd].
  - destruct (overflow b); cbn [snd]; [|split; [done|eexists; split; [by rewrite take_drop|set_solver]]].
    destruct (evict_to_fit_spec b w) as (gone & kept & Hi & -> & _); [apply Hb|].
    split; [done|]. exists (kept.*1 ++ [x]). cbn [push_back with_items items snd].
    rewrite !fmap_app, fmap_take, <- app_assoc. split; [done|].
    assert (drop (reserved b) (items b) = gone ++ kept) as Hd by (apply (inj (take (reserved b) (items b) ++.)); by rewrite take_drop).
    rewrite <- fmap_drop, Hd, fmap_app. set_solver.
  - cbn [push_back with_items items reserved]. split; [done|]. exists (drop (reserved b) (items b).*1 ++ [x]).
    by rewrite fmap_app, app_assoc, take_drop.
Qed.

Lemma in_flight_peek_at b n x m : in_flight b n x -> in_flight (snd (buffer_peek_at b m)) n x.
Proof.
  intros [Hx Hr]. unfold in_flight, buffer_peek_at, held in *.
  destruct (items b !! m) as [[y w]|]; [|done]. split; [done|]. cbn [snd with_items reserved]. lia.
Qed.

Lemma in_flight_commit b n x : in_flight b n x ->
  match n with
  | O => fst (buffer_commit b) = Some x
  | S n => in_flight (snd (buffer_commit b)) n x
  end.
Proof.
  intros [Hx Hr]. unfold in_flight, buffer_commit, held in *. destruct (items b) as [|[y w] rest]; [done|].
  destruct n as [|n]; simpl in *; [done|]. split; [done|lia].
Qed.

Lemma in_flight_commits ops : forall b n x,
  buffer_ok b -> Forall op_ok ops -> in_flight b n x -> (n < length (commit_results b ops))%nat ->
  commit_results b ops !! n = Some (Some x).
Proof.
  induction ops as [|o ops IH]; intros b n x Hb [Ho Hops]%Forall_cons_1 Hf Hn || intros b n x Hb _ Hf Hn;
    [simpl in Hn; lia|].
  destruct o as [y w|m|]; cbn [commit_results op_ok] in *.
  - apply IH; try done; [|by apply in_flight_push].
    pose proof (buffer_push_ok b y w Hb Ho) as H. destruct (buffer_push b y w). apply H.
  - apply IH; try done; [|by apply in_flight_peek_at].
    pose proof (buffer_peek_at_ok b m Hb) as H. destruct (buffer_peek_at b m). apply H.
  - apply in_flight_commit in Hf. pose proof (buffer_commit_ok b Hb) as H. destruct (buffer_commit b) as [r b'].
    destruct n as [|n]; simpl in *; [by subst|]. apply IH; [apply H|done..|lia].
Qed.

(** ** Properties *)


(** An item read ahead is never evicted and never overtaken: whatever is pushed and read in
    between, the commit that releases it returns it. *)
Theorem reserved_item_is_committed len weight pol before n x b l after :
  0 <= len -> Forall op_ok before -> Forall op_ok after ->
  buffer_run (buffer_new len weight pol) before = (b, l) ->
  fst (buffer_peek_at b n) = Some x ->
  let results := commit_results (snd (buffer_peek_at b n)) after in
  (n < length results)%nat -> results !! n = Some (Some x).
Proof.
  intros Hlen Hb Ha Hrun Hx results Hn. pose proof (buffer_run_ok len weight pol before Hlen Hb) as H.
  rewrite Hrun in H. destruct H as [H _]. pose proof (buffer_peek_at_ok b n H) as Hp.
  unfold results in *. unfold buffer_peek_at in *. destruct (items b !! n) as [[y w]|] eqn:Hi; [|done].
  injection Hx as ->. cbn [snd] in *. destruct Hp as (Hok & _).
  apply in_flight_commits; try done. split; [|cbn [with_items reserved]; lia].
  unfold held. cbn [with_items items]. by rewrite list_lookup_fmap, Hi.
Qed.
End Buffer.


Lemma reserved_item_is_committed_witness :
  let b := fst (buffer_run (buffer_new 2 100 DropOldest) [BufPush 1%nat 4; BufPush 2%nat 4]) in
  let after := [BufPush 3%nat 4; BufPush 4%nat 4; BufCommit; BufPush 5%nat 4; BufCommit] in
  commit_results (snd (buffer_peek_at b 1)) after !! 1%nat = Some (Some 2%nat).
Proof.
  apply (reserved_item_is_committed 2 100 DropOldest [BufPush 1%nat 4; BufPush 2%nat 4] 1 2%nat
    _ (mkLedger [1%nat; 2%nat] [] [])); [done|by repeat constructor..|by vm_compute|by vm_compute|].
  vm_compute. lia.
Defined.

(** The weight kept is not always exact when the items' weight fits a [u64]: once a sum has
    saturated, committing the heavier item takes off more than was added for it. *)
Theorem weight_lost_to_saturation :
  let b := fst (buffer_run (buffer_new 10 U64_MAX DropOldest) [BufPush tt U64_MAX; BufPush tt 5; BufCommit]) in
  true_weight b = 5 /\ held_weight b = 0.
Proof. by vm_compute. Qed.
