(* ===== verification/Queue.v ===== *)
(** * The bounded queue between a producer and a consumer

    [BoundedQueue] of crates/logit-pipeline/src/queue.rs: the asynchronous queue around
    [InMemoryBuffer] that decouples a sink's inbox, or a listener's socket, from the task that
    drains it. Its methods lock the buffer for each decision and wait on two [tokio] notifications,
    so the model is a step relation: a producer, a consumer and a closer, each running its calls one
    shared access at a time, in every interleaving. Telemetry other than the counts of dropped items,
    and the full-buffer log lines, are left out. *)

From S2P Require Import Prelude Buffer.

(** ** What the queue is built from *)

(** The trait [Queued]. *)
Class Queued (T : Type) := {
  queued_weight : T -> Z;
  queued_units : T -> Z
}.

Class QueuedOk (T : Type) `{Queued T} : Prop :=
  queued_weight_u64 : forall x : T, 0 <= queued_weight x <= U64_MAX.

(** [tokio::sync::Notify], used by one waiting task at a time: [notified] makes the future to wait
    on, [poll] is [Some] when awaiting it completes. [armed] is whether it would; [waiting] is
    whether a future was made and has not completed. *)
Class Notify := {
  notify : Type;
  notify_new : notify;
  notified : notify -> notify;
  notify_one : notify -> notify;
  notify_waiters : notify -> notify;
  poll : notify -> option notify;
  armed : notify -> bool;
  waiting : notify -> bool
}.

(** Its documented behaviour: [notify_one] completes the waiting future, or leaves a permit, at most
    one, for the next; [notify_waiters] completes a future already made, polled or not, and leaves
    no permit; making a future grants nothing; a future completes only when notified, using it up. *)
Class NotifyOk (N : Notify) : Prop := {
  armed_new : armed notify_new = false;
  armed_notified : forall n, armed (notified n) = true -> armed n = true;
  waiting_notified : forall n, waiting (notified n) = true;
  armed_notify_one : forall n, armed (notify_one n) = true;
  armed_notify_waiters : forall n, armed n = true \/ waiting n = true -> armed (notify_waiters n) = true;
  poll_armed : forall n, is_Some (poll n) <-> armed n = true;
  poll_uses : forall n n', poll n = Some n' -> armed n' = false
}.

(** [OverflowPolicy] of queue.rs, and [QueueConfig] without [recover_below], which only paces log
    lines. *)
Inductive OverflowPolicy := Block | OverflowDropOldest | OverflowDropNewest.

Record QueueConfig := mkQueueConfig { max_items : Z; config_max_weight : Z; config_overflow : OverflowPolicy }.

(** Under [Block] the buffer's own policy is reached only by a push that does not wait. *)
Definition underlying (p : OverflowPolicy) : DropPolicy :=
  match p with
  | Block | OverflowDropOldest => DropOldest
  | OverflowDropNewest => DropNewest
  end.

Definition is_block (p : OverflowPolicy) : bool := match p with Block => true | _ => false end.

(** The [reason] an item is counted as dropped for. *)
Inductive DropReason := OverflowOldest | OverflowNewest | Shutdown.

(** What a look under the lock gives a consumer. *)
Inductive Looked (A : Type) :=
| Found (a : A)
| Ended
| Nothing.
Arguments Found {A} _.
Arguments Ended {A}.
Arguments Nothing {A}.

Section Queue.
Context {T : Type} {Q : Queued T} {N : Notify}.

Record BoundedQueue := mkBoundedQueue {
  inner : InMemoryBuffer T;
  not_empty : notify;
  not_full : notify;
  closed : bool;
  block_when_full : bool
}.

Definition queue_with_metrics (c : QueueConfig) : BoundedQueue :=
  mkBoundedQueue (buffer_new (max_items c) (config_max_weight c) (underlying (config_overflow c)))
    notify_new notify_new false (is_block (config_overflow c)).

Definition set_inner (q : BoundedQueue) (b : InMemoryBuffer T) : BoundedQueue :=
  mkBoundedQueue b (not_empty q) (not_full q) (closed q) (block_when_full q).
Definition set_not_empty (q : BoundedQueue) (n : notify) : BoundedQueue :=
  mkBoundedQueue (inner q) n (not_full q) (closed q) (block_when_full q).
Definition set_not_full (q : BoundedQueue) (n : notify) : BoundedQueue :=
  mkBoundedQueue (inner q) (not_empty q) n (closed q) (block_when_full q).
Definition set_closed (q : BoundedQueue) : BoundedQueue :=
  mkBoundedQueue (inner q) (not_empty q) (not_full q) true (block_when_full q).

(** No wait could make room for the item. *)
Definition impossible_to_ever_fit (q : BoundedQueue) (weight : Z) : bool :=
  (max_weight (inner q) <? weight) || (max_len (inner q) =? 0).

Definition must_wait (q : BoundedQueue) (weight : Z) : bool :=
  block_when_full q && would_overflow (inner q) weight && negb (impossible_to_ever_fit q weight) && negb (closed q).

(** How an outcome's items are counted. *)
Definition count_dropped (o : PushOutcome T) : list (DropReason * T) :=
  match o with
  | Accepted => []
  | Evicted evicted => map (pair OverflowOldest) evicted
  | Rejected rejected => [(OverflowNewest, rejected)]
  end.

(** What [push] does under the lock: [None] to wait, else what it dropped and the queue. *)
Definition push_attempt (q : BoundedQueue) (item : T) : option (list (DropReason * T) * BoundedQueue) :=
  let weight := queued_weight item in
  if must_wait q weight then None
  else
    let '(outcome, b) := buffer_push (inner q) item weight in
    Some (count_dropped outcome, set_inner q b).

(** What [push_many] does under the lock: it admits items up to one it must wait for, and returns
    that one with the rest. *)
Fixpoint push_many_attempt (q : BoundedQueue) (items : list T) : list T * list (DropReason * T) * BoundedQueue :=
  match items with
  | [] => ([], [], q)
  | item :: rest =>
      match push_attempt q item with
      | None => (items, [], q)
      | Some (dropped, q') =>
          let '(unreached, dropped', q'') := push_many_attempt q' rest in
          (unreached, dropped ++ dropped', q'')
      end
  end.

Definition pop_attempt (q : BoundedQueue) : Looked T * BoundedQueue :=
  match buffer_peek (inner q) with
  | (Some _, b) =>
      match buffer_commit b with
      | (Some item, b') => (Found item, set_inner q b')
      | (None, b') => (Nothing, set_inner q b')
      end
  | (None, b) => (if closed q then Ended else Nothing, set_inner q b)
  end.

(** The loop of [pop_many], up to [max] commits. *)
Fixpoint commit_up_to (max : nat) (b : InMemoryBuffer T) : list T * InMemoryBuffer T :=
  match max with
  | O => ([], b)
  | S max =>
      match buffer_commit b with
      | (Some item, b') => let '(out, b'') := commit_up_to max b' in (item :: out, b'')
      | (None, b') => ([], b')
      end
  end.

Definition pop_many_attempt (q : BoundedQueue) (max : nat) : Looked (list T) * BoundedQueue :=
  let '(out, b) := commit_up_to (Nat.max max 1) (inner q) in
  (match out with
   | _ :: _ => Found out
   | [] => if closed q then Ended else Nothing
   end, set_inner q b).

Definition peek_attempt (q : BoundedQueue) : Looked T * BoundedQueue :=
  match buffer_peek (inner q) with
  | (Some item, b) => (Found item, set_inner q b)
  | (None, b) => (if closed q then Ended else Nothing, set_inner q b)
  end.

Definition queue_peek_at (q : BoundedQueue) (n : nat) : option T * BoundedQueue :=
  let '(item, b) := buffer_peek_at (inner q) n in (item, set_inner q b).

(** [commit]'s part under the lock. *)
Definition commit_locked (q : BoundedQueue) : option T * BoundedQueue :=
  let '(item, b) := buffer_commit (inner q) in (item, set_inner q b).

Definition take_all (q : BoundedQueue) : list T * BoundedQueue :=
  let '(out, b) := commit_up_to (S (length (items (inner q)))) (inner q) in (out, set_inner q b).

(** [CountedDrain]'s drop: what a cancelled [push_many] never reached. *)
Definition drain_dropped (rest : list T) : list (DropReason * T) := map (pair Shutdown) rest.

(** ** The producer, the consumer and the closer *)

Inductive ProducerOp :=
| DoPush (item : T)
| DoPushMany (items : list T).

(** [DoPeekCommit] peeks, and commits once the item is delivered. *)
Inductive ConsumerOp :=
| DoPop
| DoPopMany (max : nat)
| DoPeekCommit.

(** Where a call is: before it makes its future, before it takes the lock, before it awaits, before
    it notifies. [PAnnounce] is [push_many]'s notification before it waits. *)
Inductive ProducerAt :=
| PIdle
| PStart (item : T)
| PLock (item : T)
| PWait (item : T)
| PManyStart (items : list T)
| PManyLock (items : list T)
| PAnnounce (items : list T)
| PManyWait (items : list T)
| PNotify.

(** [CHold] is between a peek and its commit; [CNotify n] has [n] notifications left to send. *)
Inductive ConsumerAt :=
| CIdle
| CStart (op : ConsumerOp)
| CLock (op : ConsumerOp)
| CWait (op : ConsumerOp)
| CHold (item : T)
| CNotify (n : nat).

(** [close], and whether it will be called at all. *)
Inductive CloserAt := Never | Will | ClosedStored | EmptyNotified | Finished.

(** The queue, the three tasks with the calls they have left, and what became of the items: given to
    the queue's lock, taken by the consumer, counted as dropped. *)
Record World := mkWorld {
  queue : BoundedQueue;
  producer : ProducerAt;
  to_push : list ProducerOp;
  consumer : ConsumerAt;
  to_pop : list ConsumerOp;
  closer : CloserAt;
  offered : list T;
  taken : list T;
  dropped : list (DropReason * T)
}.

Definition begin (c : QueueConfig) (pushes : list ProducerOp) (pops : list ConsumerOp) (close : bool) : World :=
  mkWorld (queue_with_metrics c) PIdle pushes CIdle pops (if close then Will else Never) [] [] [].

(** One access by the producer. *)
Definition producer_step (w : World) : option World :=
  let q := queue w in
  let at_ q p := mkWorld q p (to_push w) (consumer w) (to_pop w) (closer w) (offered w) (taken w) (dropped w) in
  let locked q p given drops :=
    mkWorld q p (to_push w) (consumer w) (to_pop w) (closer w) (offered w ++ given) (taken w) (dropped w ++ drops) in
  let starts p ops := mkWorld q p ops (consumer w) (to_pop w) (closer w) (offered w) (taken w) (dropped w) in
  match producer w with
  | PIdle =>
      match to_push w with
      | [] => None
      | DoPush item :: ops => Some (starts (PStart item) ops)
      | DoPushMany [] :: ops => Some (starts PIdle ops)
      | DoPushMany items :: ops => Some (starts (PManyStart items) ops)
      end
  | PStart item => Some (at_ (set_not_full q (notified (not_full q))) (PLock item))
  | PLock item =>
      match push_attempt q item with
      | None => Some (at_ q (PWait item))
      | Some (drops, q') => Some (locked q' PNotify [item] drops)
      end
  | PWait item => n ← poll (not_full q); Some (at_ (set_not_full q n) (PStart item))
  | PManyStart items => Some (at_ (set_not_full q (notified (not_full q))) (PManyLock items))
  | PManyLock items =>
      let '(rest, drops, q') := push_many_attempt q items in
      let given := take (length items - length rest) items in
      match rest with
      | [] => Some (locked q' PNotify given drops)
      | _ :: _ => Some (locked q' (PAnnounce rest) given drops)
      end
  | PAnnounce rest => Some (at_ (set_not_empty q (notify_one (not_empty q))) (PManyWait rest))
  | PManyWait rest => n ← poll (not_full q); Some (at_ (set_not_full q n) (PManyStart rest))
  | PNotify => Some (at_ (set_not_empty q (notify_one (not_empty q))) PIdle)
  end.

(** The waiting [push_many] is cancelled: its future and [CountedDrain] are dropped. *)
Definition cancel_step (w : World) : option World :=
  match producer w with
  | PManyWait rest =>
      Some (mkWorld (queue w) PIdle (to_push w) (consumer w) (to_pop w) (closer w)
        (offered w ++ rest) (taken w) (dropped w ++ drain_dropped rest))
  | _ => None
  end.

(** A look under the lock, by operation: what is found, what is removed, and how many pushers are
    notified. *)
Definition consumer_look (q : BoundedQueue) (op : ConsumerOp) : ConsumerAt * list T * BoundedQueue :=
  match op with
  | DoPop =>
      match pop_attempt q with
      | (Found item, q') => (CNotify 1, [item], q')
      | (Ended, q') => (CIdle, [], q')
      | (Nothing, q') => (CWait op, [], q')
      end
  | DoPopMany max =>
      match pop_many_attempt q max with
      | (Found out, q') => (CNotify (length out), out, q')
      | (Ended, q') => (CIdle, [], q')
      | (Nothing, q') => (CWait op, [], q')
      end
  | DoPeekCommit =>
      match peek_attempt q with
      | (Found item, q') => (CHold item, [], q')
      | (Ended, q') => (CIdle, [], q')
      | (Nothing, q') => (CWait op, [], q')
      end
  end.

(** One access by the consumer. *)
Definition consumer_step (w : World) : option World :=
  let q := queue w in
  let at_ q c := mkWorld q (producer w) (to_push w) c (to_pop w) (closer w) (offered w) (taken w) (dropped w) in
  let locked q c got :=
    mkWorld q (producer w) (to_push w) c (to_pop w) (closer w) (offered w) (taken w ++ got) (dropped w) in
  match consumer w with
  | CIdle =>
      match to_pop w with
      | [] => None
      | op :: ops =>
          Some (mkWorld q (producer w) (to_push w) (CStart op) ops (closer w) (offered w) (taken w) (dropped w))
      end
  | CStart op => Some (at_ (set_not_empty q (notified (not_empty q))) (CLock op))
  | CLock op => let '(c, got, q') := consumer_look q op in Some (locked q' c got)
  | CWait op => n ← poll (not_empty q); Some (at_ (set_not_empty q n) (CStart op))
  | CHold _ => let '(item, q') := commit_locked q in Some (locked q' (CNotify 1) (option_list item))
  | CNotify O => Some (at_ q CIdle)
  | CNotify (S n) => Some (at_ (set_not_full q (notify_one (not_full q))) (CNotify n))
  end.

(** One access by the closer. *)
Definition closer_step (w : World) : option World :=
  let q := queue w in
  let at_ q c :=
    mkWorld q (producer w) (to_push w) (consumer w) (to_pop w) c (offered w) (taken w) (dropped w) in
  match closer w with
  | Will => Some (at_ (set_closed q) ClosedStored)
  | ClosedStored => Some (at_ (set_not_empty q (notify_waiters (not_empty q))) EmptyNotified)
  | EmptyNotified => Some (at_ (set_not_full q (notify_waiters (not_full q))) Finished)
  | Never | Finished => None
  end.

(** One task moves. *)
Inductive step (w w' : World) : Prop :=
| step_producer : producer_step w = Some w' -> step w w'
| step_cancel : cancel_step w = Some w' -> step w w'
| step_consumer : consumer_step w = Some w' -> step w w'
| step_closer : closer_step w = Some w' -> step w w'.

(** [n] moves. *)
Inductive steps : nat -> World -> World -> Prop :=
| steps_refl w : steps 0 w w
| steps_next n w w' w'' : steps n w w' -> step w' w'' -> steps (S n) w w''.

(** A schedule picks the task that moves. *)
Inductive Task := Producer | Canceller | Consumer | Closer.

Definition task_step (t : Task) : World -> option World :=
  match t with
  | Producer => producer_step
  | Canceller => cancel_step
  | Consumer => consumer_step
  | Closer => closer_step
  end.

Definition exec (w : World) (schedule : list Task) : option World :=
  foldl (fun w t => w ≫= task_step t) (Some w) schedule.

Lemma exec_steps w schedule w' : exec w schedule = Some w' -> steps (length schedule) w w'.
Proof.
  revert w'. induction schedule as [|t schedule IH] using rev_ind; intros w'.
  - intros [= <-]. constructor.
  - unfold exec. rewrite foldl_app, length_app, Nat.add_comm. simpl. intros (w1 & Hw1 & Ht)%bind_Some.
    apply (steps_next _ _ w1); [by apply IH|]. by destruct t; simpl in Ht; constructor.
Qed.


(** ** What the locked parts do *)

(** Only the buffer's contents differ. *)
Definition same_around (q q' : BoundedQueue) : Prop :=
  not_empty q' = not_empty q /\ not_full q' = not_full q /\ closed q' = closed q /\
  block_when_full q' = block_when_full q /\ max_len (inner q') = max_len (inner q) /\
  max_weight (inner q') = max_weight (inner q) /\ overflow (inner q') = overflow (inner q).

Lemma same_around_trans q1 q2 q3 : same_around q1 q2 -> same_around q2 q3 -> same_around q1 q3.
Proof. unfold same_around. intuition congruence. Qed.

Context {QO : QueuedOk T}.
#[local] Set Default Proof Using "Type*".

Lemma count_dropped_shed (o : PushOutcome T) : (count_dropped o).*2 = outcome_shed o.
Proof. destruct o as [|l|x]; try done. simpl. induction l; simpl; by f_equal. Qed.

(** What a push under the lock leaves: a sound buffer, nothing lost, the reserved items in place. *)
Definition admits (q : BoundedQueue) (given : list T) (drops : list (DropReason * T)) (q' : BoundedQueue) : Prop :=
  buffer_ok (inner q') /\ same_around q q' /\
  held (inner q) ++ given ≡ₚ drops.*2 ++ held (inner q') /\
  held (inner q') `sublist_of` held (inner q) ++ given /\
  forall n x, in_flight (inner q) n x -> in_flight (inner q') n x.

Lemma admits_nil q : buffer_ok (inner q) -> admits q [] [] q.
Proof. intros Hb. unfold admits, same_around. rewrite app_nil_r. by split_and!. Qed.

Lemma admits_app q given drops q' given' drops' q'' :
  admits q given drops q' -> admits q' given' drops' q'' -> admits q (given ++ given') (drops ++ drops') q''.
Proof.
  intros (H1 & H2 & H3 & H4 & H5) (H1' & H2' & H3' & H4' & H5').
  split; [done|]. split; [by eapply same_around_trans|]. rewrite fmap_app, app_assoc. split_and!.
  - rewrite H3, <- !app_assoc. by rewrite H3'.
  - etrans; [done|]. by apply sublist_app.
  - eauto.
Qed.

Lemma push_attempt_waits q item : push_attempt q item = None -> must_wait q (queued_weight item) = true.
Proof. unfold push_attempt. case_match; [done|]. by destruct (buffer_push _ _ _). Qed.

Lemma push_attempt_admits q item drops q' :
  buffer_ok (inner q) -> push_attempt q item = Some (drops, q') -> admits q [item] drops q'.
Proof.
  intros Hb. unfold push_attempt. case_match; [done|].
  pose proof (queued_weight_u64 item) as Hw.
  pose proof (buffer_push_ok (inner q) item (queued_weight item) Hb (proj1 Hw)) as Hp.
  pose proof (buffer_step_bounds (inner q) (mkLedger [] [] []) (BufPush item (queued_weight item))) as Hs.
  pose proof (fun n x => in_flight_push (inner q) n x item (queued_weight item) Hb) as Hf.
  cbn [buffer_step] in Hs. destruct (buffer_push _ _ _) as [o b]. intros [= <- <-].
  destruct Hp as (Hb' & Hpol & Hi & Hsub & _). destruct Hs as [Hl Hm]. cbn [fst snd] in *.
  unfold admits, same_around, set_inner. cbn [inner not_empty not_full closed block_when_full].
  rewrite count_dropped_shed. by split_and!.
Qed.

Lemma push_many_attempt_admits items : forall q rest drops q',
  buffer_ok (inner q) -> push_many_attempt q items = (rest, drops, q') ->
  exists given, items = given ++ rest /\ admits q given drops q' /\
    match rest with [] => True | x :: _ => must_wait q' (queued_weight x) = true end.
Proof.
  induction items as [|item items IH]; intros q rest drops q' Hb; simpl.
  - intros [= <- <- <-]. exists []. split_and!; try done. by apply admits_nil.
  - destruct (push_attempt q item) as [[drops1 q1]|] eqn:Ha.
    + destruct (push_many_attempt q1 items) as [[rest' drops2] q2] eqn:Hm. intros [= <- <- <-].
      apply push_attempt_admits in Ha; [|done]. apply IH in Hm as (given & -> & Hadm & Hrest); [|apply Ha].
      exists (item :: given). split_and!; try done. by apply (admits_app q [item] drops1 q1).
    + intros [= <- <- <-]. exists []. split_and!; [done|by apply admits_nil|].
      by apply push_attempt_waits.
Qed.

(** What a look or a commit under the lock leaves. *)
Definition removes (q : BoundedQueue) (got : list T) (q' : BoundedQueue) : Prop :=
  buffer_ok (inner q') /\ same_around q q' /\ held (inner q) = got ++ held (inner q') /\
  (got = [] -> items (inner q') = items (inner q) /\ held_weight (inner q') = held_weight (inner q)).

Lemma removes_commit q :
  buffer_ok (inner q) ->
  removes q (option_list (fst (buffer_commit (inner q)))) (set_inner q (snd (buffer_commit (inner q)))).
Proof.
  intros Hb. pose proof (buffer_commit_ok (inner q) Hb) as H.
  pose proof (buffer_step_bounds (inner q) (mkLedger [] [] []) BufCommit) as Hs. cbn [buffer_step] in Hs.
  assert (option_list (fst (buffer_commit (inner q))) = [] ->
    items (snd (buffer_commit (inner q))) = items (inner q) /\
    held_weight (snd (buffer_commit (inner q))) = held_weight (inner q)) as Hn
    by (unfold buffer_commit; by destruct (items (inner q)) as [|[]]).
  destruct (buffer_commit (inner q)) as [r b]. destruct H as (Hb' & Hpol & Hi & _). destruct Hs as [Hl Hm].
  unfold removes, same_around, set_inner. cbn [inner not_empty not_full closed block_when_full fst snd] in *.
  by split_and!.
Qed.

Lemma removes_peek q n :
  buffer_ok (inner q) -> removes q [] (set_inner q (snd (buffer_peek_at (inner q) n))).
Proof.
  intros Hb. pose proof (buffer_peek_at_ok (inner q) n Hb) as H.
  pose proof (buffer_step_bounds (inner q) (mkLedger [] [] []) (BufPeekAt n)) as Hs. cbn [buffer_step] in Hs.
  destruct (buffer_peek_at (inner q) n) as [r b]. destruct H as (Hb' & Hpol & Hi & Hw & _). destruct Hs as [Hl Hm].
  unfold removes, same_around, set_inner, held. cbn [inner not_empty not_full closed block_when_full fst snd] in *.
  rewrite Hi. by split_and!.
Qed.

Lemma removes_app q got q' got' q'' : removes q got q' -> removes q' got' q'' -> removes q (got ++ got') q''.
Proof.
  intros (H1 & H2 & H3 & H4) (H1' & H2' & H3' & H4'). split; [done|]. split; [by eapply same_around_trans|].
  split; [by rewrite H3, H3', app_assoc|]. intros [-> ->]%app_eq_nil.
  destruct (H4 eq_refl), (H4' eq_refl). split; congruence.
Qed.

Lemma removes_commit_up_to max : forall q,
  buffer_ok (inner q) ->
  let '(out, b) := commit_up_to max (inner q) in
  removes q out (set_inner q b) /\ (max <> 0%nat -> out = [] -> items (inner q) = []).
Proof.
  induction max as [|max IH]; intros q Hb; simpl.
  - split; [|done]. split; [done|]. unfold same_around. by split_and!.
  - pose proof (removes_commit q Hb) as Hc. destruct (buffer_commit (inner q)) as [[item|] b] eqn:Hcm; cbn [fst snd] in Hc.
    + specialize (IH (set_inner q b) (proj1 Hc)). cbn [inner set_inner] in IH.
      destruct (commit_up_to max b) as [out b']. destruct IH as [IH _].
      split; [|done]. exact (removes_app _ [item] _ _ _ Hc IH).
    + split; [exact Hc|]. intros _ _. unfold buffer_commit in Hcm. by destruct (items (inner q)) as [|[]].
Qed.

Lemma removes_empty q got q' : removes q got q' -> items (inner q) = [] -> items (inner q') = [].
Proof.
  intros (_ & _ & Hh & _) He. unfold held in Hh. rewrite He in Hh. destruct got; [|done]. by destruct (items (inner q')).
Qed.

(** [take_all] empties the queue. *)
Lemma commit_up_to_all max : forall (b : InMemoryBuffer T),
  (length (items b) < max)%nat -> fst (commit_up_to max b) = held b /\ items (snd (commit_up_to max b)) = [].
Proof.
  induction max as [|max IH]; intros b Hl; [lia|]. simpl. unfold buffer_commit, held.
  destruct (items b) as [|[x w] rest]; [done|]. simpl in Hl.
  match goal with |- context [commit_up_to max ?b'] => specialize (IH b') end.
  destruct (commit_up_to max _) as [out b']. simpl in *. destruct IH as [-> ->]; [cbn; lia|]. done.
Qed.

Lemma take_all_spec (q : BoundedQueue) : fst (take_all q) = held (inner q) /\ items (inner (snd (take_all q))) = [].
Proof.
  unfold take_all. pose proof (commit_up_to_all (S (length (items (inner q)))) (inner q)) as H.
  destruct (commit_up_to _ _). apply H. lia.
Qed.

Lemma peek_items (b : InMemoryBuffer T) : fst (buffer_peek b) = None -> items b = [].
Proof. unfold buffer_peek, buffer_peek_at. by destruct (items b) as [|[]]. Qed.

(** Every operation's look: what it takes comes off the head; it waits only on an empty open queue,
    holds only a reserved head, and owes a notification for each item removed. *)
Lemma consumer_look_ok q op c got q' :
  buffer_ok (inner q) -> consumer_look q op = (c, got, q') ->
  removes q got q' /\
  match c with
  | CWait op' => op' = op /\ got = [] /\ items (inner q') = [] /\ closed q = false
  | CHold x => got = [] /\ in_flight (inner q') 0 x
  | CNotify n => n = length got /\ got <> []
  | CIdle => got = []
  | _ => False
  end.
Proof.
  intros Hb. destruct op as [|max|]; cbn [consumer_look].
  - unfold pop_attempt. pose proof (removes_peek q 0 Hb) as Hp. pose proof (peek_items (inner q)) as He.
    unfold buffer_peek in *. destruct (buffer_peek_at (inner q) 0) as [[x|] b] eqn:Hpk; cbn [fst snd] in *.
    + pose proof (removes_commit (set_inner q b) (proj1 Hp)) as Hc. cbn [inner set_inner] in Hc.
      assert (exists y b', buffer_commit b = (Some y, b')) as (y & b' & Hcm).
      { unfold buffer_peek_at in Hpk. destruct (items (inner q)) as [|[y wy] rest] eqn:Hi; [done|].
        simpl in Hpk. injection Hpk as <- <-. unfold buffer_commit. cbn [with_items items]. eauto. }
      rewrite Hcm in Hc |- *. intros [= <- <- <-]. split; [|done]. exact (removes_app _ [] _ [y] _ Hp Hc).
    + specialize (He eq_refl). destruct (closed q) eqn:Hcl; intros [= <- <- <-]; (split; [done|]); [done|].
      split_and!; try done. by apply (removes_empty q []).
  - unfold pop_many_attempt. pose proof (removes_commit_up_to (Nat.max max 1) q Hb) as Hr.
    destruct (commit_up_to (Nat.max max 1) (inner q)) as [[|x out] b]; destruct Hr as [Hr He].
    + destruct (closed q) eqn:Hcl; intros [= <- <- <-]; (split; [done|]); [done|].
      specialize (He ltac:(lia) eq_refl). split_and!; try done. by apply (removes_empty q []).
    + intros [= <- <- <-]. by split.
  - unfold peek_attempt. pose proof (removes_peek q 0 Hb) as Hp. pose proof (peek_items (inner q)) as He.
    unfold buffer_peek in *. destruct (buffer_peek_at (inner q) 0) as [[x|] b] eqn:Hpk; cbn [fst snd] in *.
    + intros [= <- <- <-]. split; [done|]. split; [done|]. unfold buffer_peek_at in Hpk.
      destruct (items (inner q)) as [|[y wy] rest] eqn:Hi; [done|]. simpl in Hpk. injection Hpk as <- <-.
      split; [done|]. cbn [inner set_inner with_items reserved]. lia.
    + specialize (He eq_refl). destruct (closed q) eqn:Hcl; intros [= <- <- <-]; (split; [done|]); [done|].
      split_and!; try done. by apply (removes_empty q []).
Qed.

(** ** The invariant *)

Context {NO : NotifyOk N}.

(** Every item given to the queue is taken, dropped or held, and none overtakes another. *)
Definition accounted (w : World) : Prop :=
  offered w ≡ₚ taken w ++ (dropped w).*2 ++ held (inner (queue w)) /\
  taken w ++ held (inner (queue w)) `sublist_of` offered w.

Definition hears (n : notify) : Prop := armed n = true \/ waiting n = true.

(** The producer has admitted items and not announced them yet. *)
Definition announcing (p : ProducerAt) : bool := match p with PNotify | PAnnounce _ => true | _ => false end.

(** The consumer has removed items and not notified for each yet. *)
Definition releasing (c : ConsumerAt) : bool := match c with CNotify (S _) => true | _ => false end.

(** A consumer that waits has been notified, or is about to be, or has nothing to take. *)
Definition consumer_ok (w : World) : Prop :=
  match consumer w with
  | CLock _ => hears (not_empty (queue w))
  | CWait _ =>
      hears (not_empty (queue w)) /\
      (armed (not_empty (queue w)) = true \/ announcing (producer w) = true \/ closer w = ClosedStored \/
       (items (inner (queue w)) = [] /\ closed (queue w) = false))
  | CHold x => in_flight (inner (queue w)) 0 x
  | _ => True
  end.

(** A producer that waits has been notified, or is about to be, or has no room. *)
Definition blocked_ok (w : World) (x : T) : Prop :=
  hears (not_full (queue w)) /\
  (armed (not_full (queue w)) = true \/ releasing (consumer w) = true \/
   closer w = ClosedStored \/ closer w = EmptyNotified \/ must_wait (queue w) (queued_weight x) = true).

Definition producer_ok (w : World) : Prop :=
  match producer w with
  | PLock _ | PManyLock _ => hears (not_full (queue w))
  | PWait x => blocked_ok w x
  | PAnnounce rest | PManyWait rest => match rest with x :: _ => blocked_ok w x | [] => False end
  | _ => True
  end.

Definition closer_ok (w : World) : Prop :=
  closed (queue w) = match closer w with Never | Will => false | _ => true end.

Definition world_ok (w : World) : Prop :=
  buffer_ok (inner (queue w)) /\ accounted w /\ consumer_ok w /\ producer_ok w /\ closer_ok w.

Lemma hears_notified n : hears (notified n).
Proof. right. apply waiting_notified. Qed.

Lemma hears_one n : hears (notify_one n).
Proof. left. apply armed_notify_one. Qed.

Lemma must_wait_around q q' weight :
  same_around q q' -> items (inner q') = items (inner q) -> held_weight (inner q') = held_weight (inner q) ->
  must_wait q' weight = must_wait q weight.
Proof.
  intros (_ & _ & Hc & Hb & Hl & Hm & _) Hi Hw.
  unfold must_wait, would_overflow, impossible_to_ever_fit. by rewrite Hc, Hb, Hl, Hm, Hi, Hw.
Qed.

(** ** Every move keeps it *)

Lemma accounted_admits w q' given drops :
  accounted w -> admits (queue w) given drops q' ->
  offered w ++ given ≡ₚ taken w ++ (dropped w ++ drops).*2 ++ held (inner q') /\
  taken w ++ held (inner q') `sublist_of` offered w ++ given.
Proof.
  intros [Hp Hs] (_ & _ & Hi & Hsub & _). rewrite fmap_app. split.
  - rewrite Hp, <- !app_assoc, Hi. done.
  - etrans; [apply sublist_app; [done|exact Hsub]|]. rewrite app_assoc. by apply sublist_app.
Qed.

Lemma accounted_removes w q' got :
  accounted w -> removes (queue w) got q' ->
  offered w ≡ₚ (taken w ++ got) ++ (dropped w).*2 ++ held (inner q') /\
  (taken w ++ got) ++ held (inner q') `sublist_of` offered w.
Proof.
  intros [Hp Hs] (_ & _ & Hi & _). rewrite Hi in Hp, Hs. split.
  - rewrite Hp. solve_Permutation.
  - by rewrite <- app_assoc.
Qed.

(** Admitting items keeps what a consumer relies on, if they are to be announced. *)
Lemma consumer_ok_admits w w' given drops :
  consumer_ok w -> admits (queue w) given drops (queue w') -> consumer w' = consumer w -> closer w' = closer w ->
  announcing (producer w') = true -> consumer_ok w'.
Proof.
  unfold consumer_ok, hears. intros Hc (_ & (He & _) & _ & _ & Hf) -> -> Ha. rewrite He, Ha.
  destruct (consumer w); try done; [split; [apply Hc|by right; left]|by apply Hf].
Qed.

(** Notifying a consumer keeps it. *)
Lemma consumer_ok_notified w w' :
  consumer_ok w -> consumer w' = consumer w -> inner (queue w') = inner (queue w) ->
  not_empty (queue w') = notify_one (not_empty (queue w)) -> consumer_ok w'.
Proof.
  unfold consumer_ok. intros Hc -> -> ->. pose proof (armed_notify_one (not_empty (queue w))).
  destruct (consumer w); try done; [apply hears_one|]. split; [apply hears_one|by left].
Qed.

(** A producer's own move from a place where it announces nothing, to another. *)
Lemma consumer_ok_same w w' :
  consumer_ok w -> consumer w' = consumer w -> closer w' = closer w -> inner (queue w') = inner (queue w) ->
  not_empty (queue w') = not_empty (queue w) -> closed (queue w') = closed (queue w) ->
  announcing (producer w) = false -> consumer_ok w'.
Proof.
  unfold consumer_ok. intros Hc -> -> -> -> -> Ha. destruct (consumer w); try done. rewrite Ha in Hc.
  destruct Hc as (Hh & [Hc|[Hc|Hc]]); [by split; [|left]|done|by split; [|right; right]].
Qed.

Lemma blocked_ok_same w w' x :
  blocked_ok w x -> not_full (queue w') = not_full (queue w) -> consumer w' = consumer w -> closer w' = closer w ->
  (forall weight, must_wait (queue w') weight = must_wait (queue w) weight) -> blocked_ok w' x.
Proof. unfold blocked_ok. by intros Hb -> -> -> ->. Qed.

Lemma producer_step_ok w w' : world_ok w -> producer_step w = Some w' -> world_ok w'.
Proof.
  intros (Hb & Ha & Hc & Hp & Hcl). unfold producer_step. unfold world_ok, producer_ok in *.
  destruct (producer w) as [|item|item|item|its|its|rest|rest|] eqn:Hpr.
  - destruct (to_push w) as [|[item|[|item its]] ops]; [done| | |]; intros [= <-];
      (split_and!; try done; eapply consumer_ok_same; try done; by rewrite Hpr).
  - intros [= <-]. split_and!; try done; [eapply consumer_ok_same; try done; by rewrite Hpr|apply hears_notified].
  - destruct (push_attempt (queue w) item) as [[drops q']|] eqn:Hat; intros [= <-].
    + pose proof (push_attempt_admits _ _ _ _ Hb Hat) as Had. pose proof Had as (Hb' & (_ & _ & Hclosed & _) & _).
      split_and!; try done; [exact (accounted_admits w _ _ _ Ha Had)|by eapply consumer_ok_admits|].
      unfold closer_ok in *. cbn [queue closer]. congruence.
    + split_and!; try done; [eapply consumer_ok_same; try done; by rewrite Hpr|]. split; [done|].
      apply push_attempt_waits in Hat. by do 4 right.
  - destruct (poll (not_full (queue w))) as [n|]; [|done]. intros [= <-].
    split_and!; try done. eapply consumer_ok_same; try done. by rewrite Hpr.
  - intros [= <-]. split_and!; try done; [eapply consumer_ok_same; try done; by rewrite Hpr|apply hears_notified].
  - destruct (push_many_attempt (queue w) its) as [[rest drops] q'] eqn:Hat.
    destruct (push_many_attempt_admits _ _ _ _ _ Hb Hat) as (given & -> & Had & Hrest).
    pose proof Had as (Hb' & (_ & Hfull & Hclosed & _) & _).
    assert (take (length (given ++ rest) - length rest) (given ++ rest) = given) as ->
      by (rewrite length_app, Nat.add_sub; apply take_app_length).
    unfold closer_ok in *. rewrite <- Hclosed in Hcl.
    destruct rest as [|x rest]; intros [= <-];
      (split_and!; try done; [exact (accounted_admits w _ _ _ Ha Had)|by eapply consumer_ok_admits|..]).
    split; [unfold hears in *; cbn [queue]; by rewrite Hfull|by do 4 right].
  - destruct rest as [|x rest]; [done|]. intros [= <-].
    split_and!; try done; by eapply consumer_ok_notified.
  - destruct rest as [|x rest]; [done|].
    destruct (poll (not_full (queue w))) as [n|]; [|done]. intros [= <-].
    split_and!; try done. eapply consumer_ok_same; try done. by rewrite Hpr.
  - intros [= <-]. split_and!; try done. by eapply consumer_ok_notified.
Qed.

Lemma cancel_step_ok w w' : world_ok w -> cancel_step w = Some w' -> world_ok w'.
Proof.
  intros (Hb & Ha & Hc & Hp & Hcl). unfold cancel_step.
  destruct (producer w) as [| | | | | | |rest|] eqn:Hpr; try done. intros [= <-]. destruct Ha as [Hperm Hsub].
  split_and!; try done; [split|eapply consumer_ok_same; try done; by rewrite Hpr]; cbn [offered taken dropped queue].
  - rewrite Hperm, fmap_app. unfold drain_dropped. rewrite <- list_fmap_compose.
    rewrite (list_fmap_ext _ id), list_fmap_id by done. solve_Permutation.
  - by apply sublist_inserts_r.
Qed.

(** The producer's part, across a move that is not its own. *)
Lemma producer_ok_move w w' :
  producer_ok w -> producer w' = producer w ->
  (hears (not_full (queue w)) -> hears (not_full (queue w'))) ->
  (forall x, blocked_ok w x -> blocked_ok w' x) -> producer_ok w'.
Proof.
  unfold producer_ok. intros Hp -> Hh Hb. destruct (producer w) as [| | | | | |[]|[]|]; auto.
Qed.

Lemma blocked_ok_removes w w' got x :
  blocked_ok w x -> removes (queue w) got (queue w') -> closer w' = closer w ->
  releasing (consumer w) = false -> (got = [] \/ releasing (consumer w') = true) -> blocked_ok w' x.
Proof.
  intros [Hh Hb] (_ & Hsame & _ & Hn) Hcl Hrel Hg. pose proof Hsame as (_ & Hfull & _).
  unfold blocked_ok. rewrite Hfull, Hcl. split; [done|]. rewrite Hrel in Hb.
  destruct Hg as [->|Hg]; [|by right; left]. destruct (Hn eq_refl) as [Hi Hw].
  rewrite (must_wait_around _ _ _ Hsame Hi Hw). destruct Hb as [Hb|[Hb|Hb]]; [by left|done|by right; right].
Qed.

Lemma consumer_step_ok w w' : world_ok w -> consumer_step w = Some w' -> world_ok w'.
Proof.
  intros (Hb & Ha & Hc & Hp & Hcl). unfold consumer_step, world_ok. unfold consumer_ok in Hc |- *.
  destruct (consumer w) as [|op|op|op|x|[|n]] eqn:Hcs.
  - destruct (to_pop w) as [|op ops]; [done|]. intros [= <-]. split_and!; try done.
    apply (producer_ok_move w); try done. intros x [Hh Hx]. rewrite Hcs in Hx. by split.
  - intros [= <-]. split_and!; try done; [apply hears_notified|].
    apply (producer_ok_move w); try done. intros x [Hh Hx]. rewrite Hcs in Hx. by split.
  - destruct (consumer_look (queue w) op) as [[c got] q'] eqn:Hl.
    destruct (consumer_look_ok _ _ _ _ _ Hb Hl) as [Hr Hcase]. intros [= <-].
    pose proof Hr as (Hb' & (Hem & Hfull & Hclosed & _) & _). unfold closer_ok in *. rewrite <- Hclosed in Hcl.
    split_and!; try done; [exact (accounted_removes w _ _ Ha Hr)|cbn [consumer queue closer producer]|].
    + destruct c; try done; [|apply Hcase]. rewrite Hem, Hclosed. split; [done|]. do 3 right. apply Hcase.
    + apply (producer_ok_move w); try done; [cbn [queue]; by rewrite Hfull|].
      intros x Hx. apply (blocked_ok_removes w _ got); try done; [by rewrite Hcs|]. cbn [consumer].
      destruct c as [| | | | |[|n]]; try done; [by left|left; apply Hcase|left; apply Hcase| |by right].
      destruct Hcase as [Hlen Hne]. by destruct got.
  - destruct (poll (not_empty (queue w))) as [n|]; [|done]. intros [= <-]. split_and!; try done.
    apply (producer_ok_move w); try done. intros x [Hh Hx]. rewrite Hcs in Hx. by split.
  - unfold commit_locked. pose proof (removes_commit (queue w) Hb) as Hr.
    destruct (buffer_commit (inner (queue w))) as [item b]. intros [= <-]. cbn [fst snd] in Hr.
    pose proof Hr as (Hb' & (Hem & Hfull & Hclosed & _) & _).
    split_and!; try done; [exact (accounted_removes w _ _ Ha Hr)|].
    apply (producer_ok_move w); try done. intros y Hy.
    apply (blocked_ok_removes w _ (option_list item)); try done; [by rewrite Hcs|by right].
  - intros [= <-]. split_and!; try done.
    apply (producer_ok_move w); try done. intros x [Hh Hx]. rewrite Hcs in Hx. by split.
  - intros [= <-]. split_and!; try done. apply (producer_ok_move w); try done; [intros _; apply hears_one|].
    intros x _. split; [apply hears_one|]. left. apply armed_notify_one.
Qed.

Lemma closer_step_ok w w' : world_ok w -> closer_step w = Some w' -> world_ok w'.
Proof.
  intros (Hb & Ha & Hc & Hp & Hcl). unfold closer_step. unfold closer_ok in Hcl.
  destruct (closer w) eqn:Hclo; try done; intros [= <-]; split_and!; try done.
  - unfold consumer_ok in *. destruct (consumer w) eqn:Hcs; try done. cbn. split; [apply Hc|]. by do 2 right; left.
  - apply (producer_ok_move w); try done. intros x [Hh Hx]. split; [done|]. cbn. by do 2 right; left.
  - unfold consumer_ok, hears in *. destruct (consumer w) eqn:Hcs; try done; cbn.
    + left. by apply armed_notify_waiters.
    + destruct Hc as [Hh _]. apply armed_notify_waiters in Hh. by split; left.
  - apply (producer_ok_move w); try done. intros x [Hh Hx]. split; [done|]. cbn. by do 3 right; left.
  - unfold consumer_ok, closer_ok in *. rewrite Hclo in *. destruct (consumer w) eqn:Hcs; try done; cbn.
    destruct Hc as (Hh & [Hc|[Hc|[Hc|[_ Hc]]]]); [by split; [|left]|by split; [|right; left]|done|congruence].
  - apply (producer_ok_move w); try done; [intros Hh; left; by apply armed_notify_waiters|].
    intros x [Hh _]. apply armed_notify_waiters in Hh. by split; left.
Qed.

Lemma step_ok w w' : world_ok w -> step w w' -> world_ok w'.
Proof.
  intros Hw [Hs|Hs|Hs|Hs]; [eapply producer_step_ok|eapply cancel_step_ok|eapply consumer_step_ok|eapply closer_step_ok];
    done.
Qed.

Lemma begin_ok c pushes pops close : 0 <= max_items c -> world_ok (begin c pushes pops close).
Proof.
  intros Hc. pose proof (buffer_run_ok (T := T) (max_items c) (config_max_weight c) (underlying (config_overflow c)) [] Hc) as H.
  split_and!; try done; [by apply H|by destruct close].
Qed.

Lemma steps_ok n w w' : world_ok w -> steps n w w' -> world_ok w'.
Proof. intros Hw Hs. induction Hs as [|n w w' w'' Hs IH Hstep]; [done|]. apply (step_ok w'); auto. Qed.

(** ** Every run ends *)

(** What is left to do: each item still to be pushed, each item queued, each pending notification and
    each place in a call has a cost, and every move lowers the total. *)
Definition notify_cost (cost : nat) (n : notify) : nat := if armed n then cost else 0.

Definition producer_cost (p : ProducerAt) : nat :=
  match p with
  | PIdle => 0
  | PStart _ => 18
  | PLock _ => 17
  | PWait _ => 11
  | PManyStart its => 8 + 10 * length its
  | PManyLock its => 7 + 10 * length its
  | PAnnounce its => 6 + 10 * length its
  | PManyWait its => 1 + 10 * length its
  | PNotify => 5
  end.

Definition consumer_cost (c : ConsumerAt) : nat :=
  match c with
  | CIdle => 0
  | CStart _ => 4
  | CLock _ => 3
  | CWait _ => 1
  | CHold _ => 2
  | CNotify n => 9 * n + 1
  end.

Definition closer_cost (c : CloserAt) : nat :=
  match c with Never | Finished => 0 | EmptyNotified => 9 | ClosedStored => 14 | Will => 15 end.

Definition push_cost (o : ProducerOp) : nat :=
  match o with DoPush _ => 19 | DoPushMany its => 9 + 10 * length its end.

Definition work (w : World) : nat :=
  producer_cost (producer w) + sum_list_with push_cost (to_push w) +
  consumer_cost (consumer w) + 5 * length (to_pop w) + closer_cost (closer w) +
  notify_cost 4 (not_empty (queue w)) + notify_cost 8 (not_full (queue w)) +
  9 * length (items (inner (queue w))).

Lemma notify_cost_le cost n : (notify_cost cost n <= cost)%nat.
Proof. unfold notify_cost. case_match; lia. Qed.

Lemma notify_cost_notified cost n : (notify_cost cost (notified n) <= notify_cost cost n)%nat.
Proof.
  unfold notify_cost. destruct (armed (notified n)) eqn:Ha; [|lia]. by rewrite (armed_notified n Ha).
Qed.

Lemma notify_cost_poll cost n n' : poll n = Some n' -> notify_cost cost n = cost /\ notify_cost cost n' = 0%nat.
Proof.
  intros Hp. unfold notify_cost. rewrite (poll_uses _ _ Hp).
  assert (armed n = true) as -> by (apply poll_armed; by rewrite Hp). done.
Qed.

Lemma admits_length q given drops q' :
  admits q given drops q' -> (length (items (inner q')) <= length (items (inner q)) + length given)%nat.
Proof.
  intros (_ & _ & _ & Hs & _). apply sublist_length in Hs. unfold held in Hs.
  by rewrite length_app, !length_fmap in Hs.
Qed.

Lemma removes_length q got q' :
  removes q got q' -> length (items (inner q)) = (length got + length (items (inner q')))%nat.
Proof.
  intros (_ & _ & Hh & _). apply (f_equal length) in Hh. unfold held in Hh.
  by rewrite length_app, !length_fmap in Hh.
Qed.

Lemma producer_step_work w w' : world_ok w -> producer_step w = Some w' -> (work w' < work w)%nat.
Proof.
  intros (Hb & _). unfold producer_step, work.
  pose proof (notify_cost_notified 8 (not_full (queue w))) as Hn.
  pose proof (notify_cost_le 4 (notify_one (not_empty (queue w)))) as He.
  destruct (producer w) as [|item|item|item|its|its|rest|rest|] eqn:Hpr.
  - destruct (to_push w) as [|[item|[|item its]] ops]; [done| | |]; intros [= <-]; simpl; lia.
  - intros [= <-]. simpl. lia.
  - destruct (push_attempt (queue w) item) as [[drops q']|] eqn:Hat; intros [= <-]; [|simpl; lia].
    apply push_attempt_admits in Hat; [|done]. pose proof (admits_length _ _ _ _ Hat) as Hl.
    destruct Hat as (_ & (Hem & Hfull & _) & _). cbn [producer queue to_push consumer to_pop closer].
    rewrite Hem, Hfull. simpl in *. lia.
  - destruct (poll (not_full (queue w))) as [n|] eqn:Hp; [|done]. intros [= <-].
    destruct (notify_cost_poll 8 _ _ Hp) as [-> Hn']. simpl. rewrite Hn'. lia.
  - intros [= <-]. simpl. lia.
  - destruct (push_many_attempt (queue w) its) as [[rest drops] q'] eqn:Hat.
    destruct (push_many_attempt_admits _ _ _ _ _ Hb Hat) as (given & -> & Had & _).
    pose proof (admits_length _ _ _ _ Had) as Hl. destruct Had as (_ & (Hem & Hfull & _) & _).
    destruct rest as [|x rest]; intros [= <-]; cbn [producer queue to_push consumer to_pop closer producer_cost];
      rewrite Hem, Hfull, length_app; simpl in *; lia.
  - intros [= <-]. simpl. lia.
  - destruct (poll (not_full (queue w))) as [n|] eqn:Hp; [|done]. intros [= <-].
    destruct (notify_cost_poll 8 _ _ Hp) as [-> Hn']. simpl. rewrite Hn'. lia.
  - intros [= <-]. simpl. lia.
Qed.

Lemma consumer_step_work w w' : world_ok w -> consumer_step w = Some w' -> (work w' < work w)%nat.
Proof.
  intros (Hb & _ & Hc & _). unfold consumer_step, work.
  pose proof (notify_cost_notified 4 (not_empty (queue w))) as Hn.
  pose proof (notify_cost_le 8 (notify_one (not_full (queue w)))) as He. unfold consumer_ok in Hc.
  destruct (consumer w) as [|op|op|op|x|[|n]] eqn:Hcs.
  - destruct (to_pop w) as [|op ops]; [done|]. intros [= <-]. simpl. lia.
  - intros [= <-]. simpl. lia.
  - destruct (consumer_look (queue w) op) as [[c got] q'] eqn:Hl.
    destruct (consumer_look_ok _ _ _ _ _ Hb Hl) as [Hr Hcase]. intros [= <-].
    pose proof (removes_length _ _ _ Hr) as Hlen. destruct Hr as (_ & (Hem & Hfull & _) & _).
    cbn [producer queue to_push consumer to_pop closer]. rewrite Hem, Hfull, Hlen.
    destruct c; try done; simpl; lia.
  - destruct (poll (not_empty (queue w))) as [n|] eqn:Hp; [|done]. intros [= <-].
    destruct (notify_cost_poll 4 _ _ Hp) as [-> Hn']. simpl. rewrite Hn'. lia.
  - unfold commit_locked. pose proof (removes_commit (queue w) Hb) as Hr. pose proof (removes_length _ _ _ Hr) as Hlen.
    pose proof (in_flight_commit _ _ _ Hc) as Hx. destruct (buffer_commit (inner (queue w))) as [item b].
    intros [= <-]. simpl in *. subst item. simpl in Hlen. lia.
  - intros [= <-]. simpl. lia.
  - intros [= <-]. simpl. lia.
Qed.

Lemma step_work w w' : world_ok w -> step w w' -> (work w' < work w)%nat.
Proof.
  intros Hw [Hs|Hs|Hs|Hs]; [by apply producer_step_work| |by apply consumer_step_work|].
  - unfold cancel_step, work in *. destruct (producer w); try done. injection Hs as <-. simpl. lia.
  - unfold closer_step, work in *. pose proof (notify_cost_le 4 (notify_waiters (not_empty (queue w)))).
    pose proof (notify_cost_le 8 (notify_waiters (not_full (queue w)))).
    destruct (closer w); try done; injection Hs as <-; simpl; lia.
Qed.

Lemma steps_work n w w' : world_ok w -> steps n w w' -> (n + work w' <= work w)%nat.
Proof.
  intros Hw Hs. induction Hs as [|n w w' w'' Hs IH Hstep]; [lia|].
  pose proof (step_work _ _ (steps_ok _ _ _ Hw Hs) Hstep). specialize (IH Hw). lia.
Qed.

(** ** What no move changes *)

Definition same_config (q q' : BoundedQueue) : Prop :=
  block_when_full q' = block_when_full q /\ max_len (inner q') = max_len (inner q) /\
  max_weight (inner q') = max_weight (inner q).

Lemma same_config_around q q' : same_around q q' -> same_config q q'.
Proof. by intros (_ & _ & _ & ? & ? & ? & _). Qed.

Lemma step_config w w' : world_ok w -> step w w' -> same_config (queue w) (queue w').
Proof.
  intros (Hb & _) [Hs|Hs|Hs|Hs].
  - unfold producer_step in Hs. destruct (producer w) as [|item|item|item|its|its|rest|rest|].
    + by destruct (to_push w) as [|[item|[|item its]] ops]; simplify_eq.
    + by simplify_eq.
    + destruct (push_attempt (queue w) item) as [[drops q']|] eqn:Hat; simplify_eq; [|done].
      apply same_config_around. by eapply push_attempt_admits.
    + destruct (poll (not_full (queue w))); [|done]; simpl in Hs; by simplify_eq.
    + by simplify_eq.
    + destruct (push_many_attempt (queue w) its) as [[rest drops] q'] eqn:Hat.
      destruct (push_many_attempt_admits _ _ _ _ _ Hb Hat) as (given & _ & (_ & Hsame & _) & _).
      apply same_config_around in Hsame. by destruct rest; simplify_eq.
    + by simplify_eq.
    + destruct (poll (not_full (queue w))); [|done]; simpl in Hs; by simplify_eq.
    + by simplify_eq.
  - unfold cancel_step in Hs. by destruct (producer w); simplify_eq.
  - unfold consumer_step in Hs. destruct (consumer w) as [|op|op|op|x|[|n]]; try by simplify_eq.
    + by destruct (to_pop w); simplify_eq.
    + destruct (consumer_look (queue w) op) as [[c got] q'] eqn:Hl. simplify_eq.
      apply same_config_around. by eapply consumer_look_ok.
    + destruct (poll (not_empty (queue w))); [|done]; simpl in Hs; by simplify_eq.
    + unfold commit_locked in Hs. pose proof (removes_commit (queue w) Hb) as (_ & Hsame & _).
      destruct (buffer_commit (inner (queue w))). simplify_eq. by apply same_config_around.
  - unfold closer_step in Hs. by destruct (closer w); simplify_eq.
Qed.

Lemma steps_config n w w' : world_ok w -> steps n w w' -> same_config (queue w) (queue w').
Proof.
  intros Hw Hs. induction Hs as [|n w w' w'' Hs IH Hstep]; [done|].
  destruct (IH Hw) as (H1 & H2 & H3), (step_config _ _ (steps_ok _ _ _ Hw Hs) Hstep) as (H1' & H2' & H3').
  unfold same_config. by rewrite H1', H2', H3'.
Qed.

(** The closer runs only where it was to. *)
Lemma steps_closer n w w' : steps n w w' -> (closer w = Never <-> closer w' = Never).
Proof.
  induction 1 as [|n w w' w'' Hs IH Hstep]; [done|]. rewrite IH. clear IH Hs.
  destruct Hstep as [Hs|Hs|Hs|Hs].
  - unfold producer_step in Hs. destruct (producer w') as [|item|item|item|its|its|rest|rest|];
      [destruct (to_push w') as [|[|[]]]| |destruct (push_attempt (queue w') item) as [[]|]|destruct (poll _)|
      |destruct (push_many_attempt (queue w') its) as [[[] ?] ?]| |destruct (poll _)|]; simpl in Hs; by simplify_eq.
  - unfold cancel_step in Hs. by destruct (producer w'); simplify_eq.
  - unfold consumer_step in Hs. destruct (consumer w') as [|op|op|op|x|[|n']];
      [destruct (to_pop w')| |destruct (consumer_look (queue w') op) as [[] ?]|destruct (poll _)|
       destruct (commit_locked (queue w'))| |]; simpl in Hs; by simplify_eq.
  - unfold closer_step in Hs. by destruct (closer w'); simplify_eq.
Qed.

(** ** Where a run can stop *)

Definition producer_done (w : World) : Prop := producer w = PIdle /\ to_push w = [].
Definition consumer_done (w : World) : Prop := consumer w = CIdle /\ to_pop w = [].

(** Waiting for room, and there is none. *)
Definition producer_blocked (w : World) : Prop :=
  exists x, (producer w = PWait x \/ exists rest, producer w = PManyWait (x :: rest)) /\
    must_wait (queue w) (queued_weight x) = true.

(** Waiting for an item, and there is none. *)
Definition consumer_blocked (w : World) : Prop :=
  (exists op, consumer w = CWait op) /\ items (inner (queue w)) = [] /\ closed (queue w) = false.

(** No task can move by itself. *)
Definition at_rest (w : World) : Prop :=
  producer_step w = None /\ consumer_step w = None /\ closer_step w = None.

(** Room is missing only where something is queued. *)
Lemma must_wait_nonempty q weight :
  0 <= max_len (inner q) -> buffer_ok (inner q) -> must_wait q weight = true -> items (inner q) <> [].
Proof.
  intros Hlen (_ & _ & Hw & _). unfold must_wait, would_overflow, impossible_to_ever_fit, true_weight in *.
  rewrite !andb_true_iff, !negb_true_iff, orb_true_iff, orb_false_iff. intros (((_ & Ho) & Hf & Hz) & _) Hi.
  rewrite Hi in *. unfold total in Hw. simpl in *. apply Z.ltb_ge in Hf. apply Z.eqb_neq in Hz.
  unfold saturating_add in Ho. destruct Ho as [Ho%Z.leb_le|Ho%Z.ltb_lt]; lia.
Qed.

Lemma producer_at_rest w :
  producer_step w = None -> producer_done w \/ (exists x, producer w = PWait x) \/ (exists rest, producer w = PManyWait rest).
Proof.
  unfold producer_step, producer_done.
  destruct (producer w) as [|item|item|item|its|its|rest|rest|]; try done; eauto.
  - destruct (to_push w) as [|[|[]]]; try done. by left.
  - by destruct (push_attempt (queue w) item) as [[]|].
  - by destruct (push_many_attempt (queue w) its) as [[[] ?] ?].
Qed.

Lemma consumer_at_rest w : consumer_step w = None -> consumer_done w \/ (exists op, consumer w = CWait op).
Proof.
  unfold consumer_step, consumer_done. destruct (consumer w) as [|op|op|op|x|[|n]]; try done; eauto.
  - destruct (to_pop w); [|done]. by left.
  - by destruct (consumer_look (queue w) op) as [[] ?].
  - by destruct (commit_locked (queue w)).
Qed.

Lemma poll_none (n : notify) : poll n = None -> armed n = false.
Proof. intros Hp. apply not_true_is_false. rewrite <- poll_armed, Hp. by intros []. Qed.

(** A producer at rest before its end has no room; a consumer at rest before its end has no item. *)
Lemma producer_rests w : world_ok w -> at_rest w -> producer_done w \/ producer_blocked w.
Proof.
  intros (_ & _ & _ & Hp & _) (Hps & Hcs & Hcl).
  assert (releasing (consumer w) = false) as Hrel
    by (destruct (consumer_at_rest w Hcs) as [[-> _]|[op ->]]; done).
  assert (closer w <> ClosedStored /\ closer w <> EmptyNotified) as [Hc1 Hc2]
    by (unfold closer_step in Hcl; by destruct (closer w)).
  assert (forall x, poll (not_full (queue w)) = None -> blocked_ok w x ->
    must_wait (queue w) (queued_weight x) = true) as Hblk.
  { intros x Hn%poll_none [_ Hb]. rewrite Hn, Hrel in Hb. by destruct Hb as [|[|[|[]]]]. }
  destruct (producer_at_rest w Hps) as [Hd|[[x Hx]|[rest Hx]]]; [by left|right..];
    unfold producer_ok in Hp; unfold producer_step in Hps; rewrite Hx in Hp, Hps;
    destruct (poll (not_full (queue w))) eqn:Hpoll; try done.
  - exists x. eauto.
  - destruct rest as [|x rest]; [done|]. exists x. eauto.
Qed.

Lemma consumer_rests w : world_ok w -> at_rest w -> consumer_done w \/ consumer_blocked w.
Proof.
  intros (_ & _ & Hc & _ & _) (Hps & Hcs & Hcl).
  assert (announcing (producer w) = false) as Hann
    by (destruct (producer_at_rest w Hps) as [[-> _]|[[x ->]|[rest ->]]]; done).
  destruct (consumer_at_rest w Hcs) as [Hd|[op Hx]]; [by left|right].
  unfold consumer_ok in Hc. unfold consumer_step in Hcs. rewrite Hx in Hc, Hcs.
  destruct (poll (not_empty (queue w))) eqn:Hpoll; [done|]. apply poll_none in Hpoll.
  destruct Hc as (_ & [Hc|[Hc|[Hc|[Hi Ho]]]]); [congruence..| |].
  - unfold closer_step in Hcl. by rewrite Hc in Hcl.
  - split; [eauto|done].
Qed.

(** ** [Block] keeps what fits *)

Definition op_items (o : ProducerOp) : list T := match o with DoPush x => [x] | DoPushMany its => its end.

(** The items the producer has yet to get into the queue. *)
Definition pending (w : World) : list T :=
  match producer w with
  | PStart x | PLock x | PWait x => [x]
  | PManyStart its | PManyLock its | PAnnounce its | PManyWait its => its
  | PIdle | PNotify => []
  end ++ concat (map op_items (to_push w)).

(** What was given and what is pending are, together, what the producer was told to push. *)
Lemma step_offered w w' : world_ok w -> step w w' -> offered w' ++ pending w' = offered w ++ pending w.
Proof.
  intros (Hb & _) [Hs|Hs|Hs|Hs]; unfold pending.
  - unfold producer_step in Hs. destruct (producer w) as [|item|item|item|its|its|rest|rest|].
    + destruct (to_push w) as [|[item|[|item its]] ops]; by simplify_eq.
    + by simplify_eq.
    + destruct (push_attempt (queue w) item) as [[drops q']|]; simplify_eq; [|done]. simpl. by rewrite <- app_assoc.
    + destruct (poll (not_full (queue w))); [|done]; simpl in Hs; by simplify_eq.
    + by simplify_eq.
    + destruct (push_many_attempt (queue w) its) as [[rest drops] q'] eqn:Hat.
      destruct (push_many_attempt_admits _ _ _ _ _ Hb Hat) as (given & -> & _).
      assert (take (length (given ++ rest) - length rest) (given ++ rest) = given) as Hg
        by (rewrite length_app, Nat.add_sub; apply take_app_length).
      rewrite Hg in Hs. destruct rest; simplify_eq; simpl; by rewrite ?app_nil_r, <- !app_assoc.
    + by simplify_eq.
    + destruct (poll (not_full (queue w))); [|done]; simpl in Hs; by simplify_eq.
    + by simplify_eq.
  - unfold cancel_step in Hs. destruct (producer w); simplify_eq. simpl. by rewrite <- app_assoc.
  - revert Hs. unfold consumer_step.
    destruct (consumer w) as [|op|op|op|x|[|n]];
      [destruct (to_pop w)| |destruct (consumer_look (queue w) op) as [[] ?]|destruct (poll _)|
       destruct (commit_locked (queue w))| |]; simpl; intros Hs; by simplify_eq.
  - unfold closer_step in Hs. by destruct (closer w); simplify_eq.
Qed.

Lemma steps_offered n w w' : world_ok w -> steps n w w' -> offered w' ++ pending w' = offered w ++ pending w.
Proof.
  intros Hw Hs. induction Hs as [|n w w' w'' Hs IH Hstep]; [done|].
  rewrite (step_offered w' w''), IH; auto. by eapply steps_ok.
Qed.

(** An open queue that blocks when full, and items it has room for when empty. *)
Definition blocking (q : BoundedQueue) : Prop :=
  block_when_full q = true /\ closed q = false /\ 1 <= max_len (inner q).

Definition fits (q : BoundedQueue) (x : T) : Prop := queued_weight x <= max_weight (inner q).

Lemma push_attempt_block q x drops q' :
  blocking q -> fits q x -> push_attempt q x = Some (drops, q') -> drops = [].
Proof.
  intros (Hb & Hcl & Hl) Hf. unfold push_attempt, must_wait, impossible_to_ever_fit, fits in *. rewrite Hb, Hcl.
  assert ((max_weight (inner q) <? queued_weight x) = false) as -> by (apply Z.ltb_ge; lia).
  assert ((max_len (inner q) =? 0) = false) as -> by (apply Z.eqb_neq; lia). cbn [orb negb andb].
  rewrite !andb_true_r. unfold buffer_push. destruct (would_overflow _ _); [done|]. by intros [= <- _].
Qed.

Lemma blocking_around q q' : same_around q q' -> blocking q -> blocking q'.
Proof. unfold blocking. intros (_ & _ & -> & -> & -> & _). done. Qed.

Lemma fits_around q q' x : same_around q q' -> fits q x -> fits q' x.
Proof. unfold fits. intros (_ & _ & _ & _ & _ & -> & _). done. Qed.

Lemma push_many_attempt_block items : forall q rest drops q',
  buffer_ok (inner q) -> blocking q -> Forall (fits q) items ->
  push_many_attempt q items = (rest, drops, q') -> drops = [].
Proof.
  induction items as [|item items IH]; intros q rest drops q' Hb Hbl Hf; simpl; [by intros [= _ <- _]|].
  apply Forall_cons in Hf as [Hx Hf]. destruct (push_attempt q item) as [[drops1 q1]|] eqn:Ha; [|by intros [= _ <- _]].
  destruct (push_many_attempt q1 items) as [[rest' drops2] q2] eqn:Hm. intros [= _ <- _].
  pose proof (push_attempt_admits _ _ _ _ Hb Ha) as (Hb1 & Hsame & _).
  rewrite (push_attempt_block _ _ _ _ Hbl Hx Ha). eapply IH, Hm; [done|by eapply blocking_around|].
  eapply Forall_impl; [done|]. intros y. by apply fits_around.
Qed.

(** Nothing has been dropped but by cancelling. *)
Definition unshed (w : World) : Prop :=
  closer w = Never /\ blocking (queue w) /\ Forall (fits (queue w)) (pending w) /\
  Forall (fun d => d.1 = Shutdown) (dropped w).

Lemma producer_step_unshed w w' : world_ok w -> unshed w -> producer_step w = Some w' -> unshed w'.
Proof.
  intros (Hb & _) (Hcl & Hbl & Hf & Hd). unfold producer_step, unshed, pending in *.
  destruct (producer w) as [|item|item|item|its|its|rest|rest|] eqn:Hpr.
  - destruct (to_push w) as [|[item|[|item its]] ops]; [done| | |]; intros [= <-]; done.
  - by intros [= <-].
  - destruct (push_attempt (queue w) item) as [[drops q']|] eqn:Hat; intros [= <-]; [|done].
    apply Forall_cons in Hf as [Hx Hf]. pose proof (push_attempt_admits _ _ _ _ Hb Hat) as (_ & Hsame & _).
    rewrite (push_attempt_block _ _ _ _ Hbl Hx Hat). split_and!; try done; [by eapply blocking_around| |].
    + eapply Forall_impl; [done|]. intros y. by apply fits_around.
    + cbn [dropped]. by rewrite app_nil_r.
  - destruct (poll (not_full (queue w))); [|done]. by intros [= <-].
  - by intros [= <-].
  - destruct (push_many_attempt (queue w) its) as [[rest drops] q'] eqn:Hat. apply Forall_app in Hf as [Hx Hf].
    pose proof (push_many_attempt_block _ _ _ _ _ Hb Hbl Hx Hat) as ->.
    destruct (push_many_attempt_admits _ _ _ _ _ Hb Hat) as (given & -> & (_ & Hsame & _) & _).
    apply Forall_app in Hx as [_ Hx].
    assert (forall l, Forall (fits (queue w)) l -> Forall (fits q') l) as Hmono
      by (intros l Hl; eapply Forall_impl; [done|]; intros y; by apply fits_around).
    destruct rest as [|x rest]; intros [= <-]; (split_and!; try done; [by eapply blocking_around| |]);
      cbn [dropped producer queue to_push]; rewrite ?app_nil_r; try done; [by apply Hmono|].
    apply Forall_app; split; by apply Hmono.
  - by intros [= <-].
  - destruct (poll (not_full (queue w))); [|done]. by intros [= <-].
  - by intros [= <-].
Qed.

Lemma step_unshed w w' : world_ok w -> unshed w -> step w w' -> unshed w'.
Proof.
  intros Hw Hu [Hs|Hs|Hs|Hs]; [by eapply producer_step_unshed|..].
  - unfold cancel_step in Hs. destruct Hu as (Hcl & Hbl & Hf & Hd). unfold unshed, pending in *.
    destruct (producer w) as [| | | | | | |rest|]; try done. injection Hs as <-. apply Forall_app in Hf as [_ Hf].
    split_and!; try done. apply Forall_app. split; [done|]. cbn. unfold drain_dropped. by apply Forall_fmap, Forall_true.
  - destruct Hu as (Hcl & Hbl & Hf & Hd).
    assert (producer w' = producer w /\ to_push w' = to_push w /\ closer w' = closer w /\ dropped w' = dropped w /\
      same_config (queue w) (queue w') /\ closed (queue w') = closed (queue w)) as (Hp & Ht & Hc & Hdr & (H1 & H2 & H3) & H4).
    { pose proof (step_config w w' Hw ltac:(by apply step_consumer)) as Hcfg.
      pose proof (consumer_step_ok w w' Hw Hs) as (_ & _ & _ & _ & Hco). destruct Hw as (_ & _ & _ & _ & Hco').
      unfold closer_ok in *. rewrite Hco, Hco'. clear Hco Hco'. revert Hs Hcfg. unfold consumer_step.
      destruct (consumer w) as [|op|op|op|x|[|n]];
        [destruct (to_pop w)| |destruct (consumer_look (queue w) op) as [[] ?]|destruct (poll _)|
         destruct (commit_locked (queue w))| |]; simpl; intros Hs Hcfg; by simplify_eq. }
    unfold unshed, blocking, fits, pending in *. rewrite Hp, Ht, Hc, Hdr, H1, H2, H3, H4. done.
  - unfold closer_step in Hs. destruct Hu as (Hcl & _). by rewrite Hcl in Hs.
Qed.

(** ** Properties *)

(** C20: the queue loses no wakeup. However the calls of its producer, its consumer and [close]
    interleave, the run stops, within a number of moves fixed by the calls; where it stops, each
    side has finished, or is waiting for what is truly not there, room or an item; the two are never
    both waiting; and once closed, neither is. *)
Theorem queue_loses_no_wakeup c pushes pops close n w :
  0 <= max_items c -> steps n (begin c pushes pops close) w ->
  (n <= sum_list_with push_cost pushes + 5 * length pops + 15)%nat /\
  (at_rest w ->
   (producer_done w \/ producer_blocked w) /\ (consumer_done w \/ consumer_blocked w) /\
   ~ (producer_blocked w /\ consumer_blocked w) /\
   (close = true -> producer_done w /\ consumer_done w)).
Proof.
  intros Hc Hs. pose proof (begin_ok c pushes pops close Hc) as H0. pose proof (steps_ok _ _ _ H0 Hs) as Hw.
  split.
  - pose proof (steps_work _ _ _ H0 Hs) as Hn. unfold work in Hn. simpl in Hn. unfold notify_cost in Hn.
    rewrite armed_new in Hn. destruct close; simpl in Hn; lia.
  - intros Hr. pose proof (producer_rests w Hw Hr) as Hp. pose proof (consumer_rests w Hw Hr) as Hco.
    split_and!; try done.
    + intros [(x & _ & Hx) (_ & Hi & _)]. apply must_wait_nonempty in Hx; [done| |apply Hw].
      destruct (steps_config _ _ _ H0 Hs) as (_ & -> & _). done.
    + intros ->. assert (closed (queue w) = true) as Hcl.
      { destruct Hw as (_ & _ & _ & _ & Hcl). unfold closer_ok in Hcl. rewrite Hcl.
        pose proof (steps_closer _ _ _ Hs) as Hnv. destruct Hr as (_ & _ & Hr). unfold closer_step in Hr.
        destruct (closer w); try done. by destruct Hnv as [_ Hnv]; specialize (Hnv eq_refl). }
      split.
      * destruct Hp as [|(x & _ & Hx)]; [done|]. unfold must_wait in Hx. rewrite Hcl, andb_false_r in Hx. done.
      * destruct Hco as [|(_ & _ & Hx)]; [done|congruence].
Qed.

End Queue.

(** ** An instance *)

(** A notification as whether it is armed, and whether a future was made. *)
Definition simple_notify : Notify := {|
  notify := bool * bool;
  notify_new := (false, false);
  notified n := (n.1, true);
  notify_one n := (true, n.2);
  notify_waiters n := (n.1 || n.2, n.2);
  poll n := if n.1 then Some (false, false) else None;
  armed := fst;
  waiting := snd
|}.

#[global] Instance simple_notify_ok : NotifyOk simple_notify.
Proof.
  constructor; simpl; try done.
  - intros [a w] [H|H]; simpl in *; subst; [done|apply orb_true_r].
  - intros [[] w]; simpl; split; try done; by intros [].
  - by intros [[] w] n' [= <-].
Qed.

(** Numbers weighing one each. *)
#[global] Instance nat_queued : Queued nat := {| queued_weight _ := 1; queued_units _ := 1 |}.
#[global] Instance nat_queued_ok : QueuedOk nat.
Proof. done. Qed.

(** A batch of five under [Block] in a queue of two, beside a consumer that waits first. *)
Definition sample_config : QueueConfig := mkQueueConfig 2 100 Block.
Definition sample_pushes : list (@ProducerOp nat) := [DoPushMany [1; 2; 3; 4; 5]%nat].
Definition sample_pops : list ConsumerOp := [DoPop; DoPopMany 8; DoPopMany 8; DoPop; DoPop].
Definition sample_begin : @World nat simple_notify := begin sample_config sample_pushes sample_pops true.
Definition sample_schedule : list Task :=
  repeat Consumer 3 ++ repeat Producer 4 ++ repeat Consumer 13 ++ repeat Producer 4 ++ repeat Consumer 9 ++
  repeat Producer 4 ++ repeat Consumer 8 ++ repeat Closer 2 ++ repeat Consumer 3 ++ repeat Closer 1.

Lemma queue_loses_no_wakeup_witness :
  exists w, exec sample_begin sample_schedule = Some w /\ taken w = [1; 2; 3; 4; 5]%nat /\
    producer_done w /\ consumer_done w.
Proof.
  eexists. split; [vm_compute; reflexivity|]. split; [reflexivity|].
  eapply (queue_loses_no_wakeup sample_config sample_pushes sample_pops true 51);
    [done|apply (exec_steps sample_begin sample_schedule); vm_compute; reflexivity|by vm_compute|done].
Defined.

