(* ===== verification/SinkQueue.v ===== *)
(** * A sink's queue, and the numbers its batches carry

    [SinkQueue], [Numbering] and the memory side of [SinkStore] of crates/logit-pipeline/src/queue.rs:
    the queue numbers each batch before it pushes it, under an identity minted when it opens, and the
    consumer takes the batches with their numbers. A batch with its context is one payload [A]. *)

From S2P Require Import Prelude Buffer Queue Batch.
From Stdlib Require Import Sorted.

(** ** Subsequences *)

Lemma sorted_sublist {X} (R : X -> X -> Prop) (l1 l2 : list X) :
  l1 `sublist_of` l2 -> StronglySorted R l2 -> StronglySorted R l1.
Proof.
  induction 1 as [|x l1 l2 Hs IH|x l1 l2 Hs IH]; intros Hl; [constructor|..]; apply StronglySorted_inv in Hl as [Hl Hx].
  - constructor; [by apply IH|]. rewrite List.Forall_forall in *. intros y Hy. apply Hx, list_elem_of_In.
    eapply elem_of_sublist; [|done]. by apply list_elem_of_In.
  - by apply IH.
Qed.

Lemma sublist_map {X Y} (f : X -> Y) l1 l2 : l1 `sublist_of` l2 -> map f l1 `sublist_of` map f l2.
Proof. induction 1; simpl; by constructor. Qed.

(** ** The store *)

Record Numbering := mkNumbering { num_id : bytes; num_next : Z }.

(** A store's identity is random; its numbers start at 1. *)
Definition mint (id : bytes) : Numbering := mkNumbering id 1.

(** [next]: the number, and the counter after [fetch_add]. *)
Definition numbering_next (n : Numbering) : SeqId * Numbering :=
  (mkSeqId (num_id n) (num_next n), mkNumbering (num_id n) (uwrap 64 (num_next n + 1))).

Section SinkQueue.
Context {A : Type} {QA : Queued A} {N : Notify}.

(** [StoreItem]; weight and units come from the batch alone. *)
Abbreviation StoreItem := (A * SeqId)%type.

#[global] Instance store_item_queued : Queued StoreItem :=
  {| queued_weight item := queued_weight item.1; queued_units item := queued_units item.1 |}.

(** One [push] of [SinkQueue]: it numbers the batch, then pushes it. *)
Definition sink_push (n : Numbering) (batch : A) : @ProducerOp StoreItem * Numbering :=
  let '(seq, n') := numbering_next n in (DoPush (batch, seq), n').

(** The pushes of a sink's inbox, one after the other. *)
Fixpoint sink_pushes (n : Numbering) (batches : list A) : list (@ProducerOp StoreItem) :=
  match batches with
  | [] => []
  | batch :: batches => let '(op, n') := sink_push n batch in op :: sink_pushes n' batches
  end.

Definition max_in_flight (q : @BoundedQueue StoreItem N) : Z := Z.max (max_len (inner q)) 1.

(** [finish] of a memory store: everything still held is committed and counted, in batches and in
    units. *)
Definition store_finish (q : @BoundedQueue StoreItem N) : Z * Z :=
  let '(out, _) := take_all q in (Z.of_nat (length out), total queued_units out).

(** ** Numbers *)

Context {QO : QueuedOk A}.
#[local] Set Default Proof Using "Type*".

#[global] Instance store_item_queued_ok : QueuedOk StoreItem.
Proof. intros [a s]. apply (queued_weight_u64 a). Qed.

(** The items as numbered from [k]. *)
Fixpoint numbered (id : bytes) (k : Z) (batches : list A) : list StoreItem :=
  match batches with
  | [] => []
  | batch :: batches => (batch, mkSeqId id k) :: numbered id (k + 1) batches
  end.

Lemma sink_pushes_numbered id batches : forall k,
  0 <= k -> k + Z.of_nat (length batches) < 2 ^ 64 ->
  concat (map op_items (sink_pushes (mkNumbering id k) batches)) = numbered id k batches.
Proof.
  induction batches as [|b batches IH]; intros k Hk Hl; [done|]. simpl in *. f_equal.
  rewrite uwrap_small by (unfold unsigned; lia). apply IH; lia.
Qed.

(** Numbers ascend, and name the batch. *)
Lemma numbered_seqs id batches : forall k,
  StronglySorted Z.lt (map (fun item => seq_seq item.2) (numbered id k batches)) /\
  Forall (fun item => k <= seq_seq item.2 /\ seq_id item.2 = id /\
    batches !! Z.to_nat (seq_seq item.2 - k) = Some item.1) (numbered id k batches).
Proof.
  induction batches as [|b batches IH]; intros k; simpl; [by split; constructor|].
  destruct (IH (k + 1)) as [Hs Hf]. split; constructor; simpl; try done.
  - apply Forall_map. eapply Forall_impl; [done|]. intros [a s] (H & _). simpl in *. lia.
  - rewrite Z.sub_diag. done.
  - eapply Forall_impl; [done|]. intros [a s] (H1 & H2 & H3). simpl in *. split; [lia|]. split; [done|].
    replace (Z.to_nat (seq_seq s - k)) with (S (Z.to_nat (seq_seq s - (k + 1)))) by lia. done.
Qed.

Context {NO : NotifyOk N}.

(** Whatever the interleaving and the overflow policy, the batches a sink's consumer takes, and
    those still queued behind them, carry strictly ascending numbers under the store's one identity,
    and each number is the position of its batch among those pushed; and closing the store counts
    every batch not taken or dropped. *)
Theorem sink_queue_numbers c id batches pops close n w :
  0 <= max_items c -> 1 + Z.of_nat (length batches) < 2 ^ 64 ->
  steps n (begin c (sink_pushes (mint id) batches) pops close) w ->
  let stream := taken w ++ held (inner (queue w)) in
  StronglySorted Z.lt (map (fun item => seq_seq item.2) stream) /\
  Forall (fun item => 1 <= seq_seq item.2 /\ seq_id item.2 = id /\
    batches !! Z.to_nat (seq_seq item.2 - 1) = Some item.1) stream /\
  Z.of_nat (length (offered w)) =
    Z.of_nat (length (taken w)) + Z.of_nat (length (dropped w)) + fst (store_finish (queue w)).
Proof.
  intros Hc Hl Hs stream. pose proof (begin_ok c (sink_pushes (mint id) batches) pops close Hc) as H0.
  pose proof (steps_ok _ _ _ H0 Hs) as (_ & [Hp Hsub] & _). pose proof (steps_offered _ _ _ H0 Hs) as Ho.
  assert (stream `sublist_of` numbered id 1 batches) as Hst.
  { rewrite <- (sink_pushes_numbered id batches 1) by lia. etrans; [exact Hsub|].
    change (concat _) with (offered (begin c (sink_pushes (mint id) batches) pops close) ++
      pending (begin c (sink_pushes (mint id) batches) pops close)). rewrite <- Ho. by apply sublist_inserts_r. }
  destruct (numbered_seqs id batches 1) as [Hsort Hf]. split_and!.
  - by eapply sorted_sublist; [apply sublist_map|].
  - rewrite Forall_forall in *. intros item Hi. apply Hf. by eapply elem_of_sublist.
  - rewrite Hp, !length_app, length_fmap. unfold store_finish. pose proof (take_all_spec (queue w)) as [Ht _].
    destruct (take_all (queue w)) as [out q']. simpl in *. subst out. lia.
Qed.
End SinkQueue.

Lemma sink_queue_numbers_witness :
  exists w, exec (@begin _ simple_notify sample_config (sink_pushes (mint []) [7; 8; 9]%nat) [DoPop; DoPop] false)
      (repeat Producer 11 ++ repeat Consumer 5 ++ repeat Producer 4) = Some w /\
    taken w = [(7%nat, mkSeqId [] 1)] /\ held (inner (queue w)) = [(8%nat, mkSeqId [] 2); (9%nat, mkSeqId [] 3)] /\
    StronglySorted Z.lt (map (fun item => seq_seq item.2) (taken w ++ held (inner (queue w)))).
Proof.
  eexists. split; [vm_compute; reflexivity|]. split; [reflexivity|]. split; [reflexivity|].
  eapply (sink_queue_numbers sample_config [] [7; 8; 9]%nat [DoPop; DoPop] false 20);
    [done..|eapply (exec_steps _ (repeat Producer 11 ++ repeat Consumer 5 ++ repeat Producer 4)); vm_compute; reflexivity].
Defined.

(** A consumer that stays within [max_in_flight] can leave a queue with no room at all two items over
    its bound. *)
Theorem no_room_two_over :
  let b := fst (buffer_run (buffer_new 0 100 DropOldest) [BufPush 1%nat 1; BufPeekAt 0; BufPush 2%nat 1]) in
  Z.of_nat (reserved b) <= Z.max (max_len b) 1 /\ buffer_len b = max_len b + 2.
Proof. by vm_compute. Qed.
