(* ===== verification/Receiver.v ===== *)
(** * The receiver's connection

    One connection of the native listener, crates/logit-inputs/src/logit.rs, after its socket was
    accepted and its handshake is done ([Handshake]): the loop that reads frames, forwards their
    batches and acknowledges them in runs. The bytes the peer sends are given; what the sockets, timers and the
    consumers decide (whether a read has to wait, a shutdown, an idle timeout, whether a consumer
    takes a batch, whether a write goes out) is an input of each turn. The messages it writes, the
    batches it forwards and what became of each frame are the connection's ledger. *)

From stdpp Require Import pretty.
From S2P Require Import Prelude Codec Budget Reader Utf8 Model Instances Batch Frame Control Senders.

#[local] Open Scope wire_scope.

Abbreviation ACK_COALESCE_MAX := (32)%Z.

(** ** The connection *)

(** The [Ack] owed for the frames handled since the last one. *)
Record PendingAck := mkPendingAck { run_seq : SeqId; run_frames : Z }.

(** What became of a frame. *)
Inductive Fate := Forwarded | Resent | Refused (reason : Z).

(** How the loop ended: [Ended] of the source, and its errors. *)
Inductive Ended :=
| PeerClosed
| Closing
| Failed (reason : string).

(** What the surroundings decide in one turn of the loop. *)
Inductive Interrupt := ByShutdown | ByIdle | ByReadError.

Record Turn := mkTurn {
  others : list Op;                  (* what other connections did to the sender table *)
  shutdown : bool;                   (* a shutdown already signalled at the top of the loop *)
  header_ready : bool;               (* the whole header had arrived: no wait for it *)
  header_interrupt : option Interrupt; (* what cut a wait for the header short *)
  body_ready : bool;                 (* the whole body had arrived *)
  body_stalled : bool;               (* a wait for the body ran into the idle timeout *)
  batch_taken : bool;                (* a consumer takes the batch: [send_relayed]'s result *)
  idle : string                      (* the idle timeout, as [Debug] writes it *)
}.

(** A turn with nothing to wait for and a consumer that takes the batch. *)
Definition quiet_turn : Turn := mkTurn [] false true None true false true "30s".

(** [CodecError]'s message. *)
Definition error_text (e : CodecError) : bytes :=
  str (match e with
       | Malformed msg => "malformed input: " +:+ msg
       | Io msg => "i/o error: " +:+ msg
       | Unsupported msg => "unsupported: " +:+ msg
       | Truncated needed => "truncated input: need " +:+ pretty needed +:+ " more byte(s)"
       | BudgetExceeded limit => "payload decodes past its " +:+ pretty limit +:+ "-byte decode budget"
       end).

(** A frame read whole. *)
Inductive FrameBody :=
| Whole (payload : bytes)
| Oversize (prefix : bytes) (message : bytes).

(** Why a frame was not read; a stalled body and a failed [Ack] write are the loop's own. *)
Inductive FrameReadError :=
| TooLarge (message : bytes)
| TruncatedBody
| Crc
| MalformedFrame (reason : string).

(** [read_frame_body] up to its first read: the header, and the bound on the bytes it declares. *)
Definition read_frame_header (header_buf : bytes) (max_frame_bytes : Z) : FrameReadError + FrameHeader :=
  match header_read header_buf with
  | Err e =>
      inl (MalformedFrame (if bool_decide (take 4 header_buf <> MAGIC) then "magic"
                           else match e with Unsupported _ => "version" | _ => "malformed" end))
  | Ok (header, _) =>
      let bound := Z.min max_frame_bytes MAX_SANE_UNCOMPRESSED_LEN in
      if compressed_bound bound <? fh_compressed_len header then
        inl (TooLarge (str ("frame declares " +:+ pretty (fh_uncompressed_len header) +:+ "/" +:+
          pretty (fh_compressed_len header) +:+ " (uncompressed/compressed) bytes, over the " +:+
          pretty bound +:+ "/" +:+ pretty (compressed_bound bound) +:+ "-byte bound")))
      else inr header
  end.

(** [read_frame_body] from its first read: the body off the stream, then its checks. *)
Definition read_frame_rest `{FrameDeps} (header_buf : bytes) (max_frame_bytes : Z) (header : FrameHeader) (bs : bytes) :
    FrameReadError + FrameHeader * FrameBody * bytes :=
  let bound := Z.min max_frame_bytes MAX_SANE_UNCOMPRESSED_LEN in
  let body_len := Z.to_nat (fh_compressed_len header) in
  if (length bs <? body_len)%nat then inl TruncatedBody
  else
    let full := header_buf ++ take body_len bs in
    let read :=
      if bound <? fh_uncompressed_len header then
        let? (header, prefix, _) := read_frame_prefix full HOP_PREFIX_MAX_LEN in
        Ok (header, Oversize prefix (str ("frame declares " +:+ pretty (fh_uncompressed_len header) +:+
          " uncompressed bytes, over the " +:+ pretty bound +:+ "-byte bound")))
      else
        let? (header, payload, _) := read_frame_with_header full in
        Ok (header, Whole payload) in
    match read with
    | Ok (header, body) => inr (header, body, drop body_len bs)
    | Err (Malformed msg) =>
        inl (match String.index 0 "crc32c" msg with Some _ => Crc | None => MalformedFrame "malformed" end)
    | Err _ => inl (MalformedFrame "malformed")
    end.

Section Receiver.
Context {I : Interner} {Sm : Summaries} {D : FrameDeps}.

Record Conn := mkConn {
  unread : bytes;                    (* what the peer sends, not read yet *)
  owed : option PendingAck;          (* [pending] *)
  table : SenderTable;               (* [senders], shared with other connections *)
  outlook : list bool;               (* whether each write to come goes out; all do past its end *)
  wrote : list ControlMessage;
  relayed : list (SeqId * (EventBatch * Provenance * option HopTrace));
  handled : list (SeqId * Fate)
}.

Definition with_unread (bs : bytes) (c : Conn) : Conn :=
  mkConn bs (owed c) (table c) (outlook c) (wrote c) (relayed c) (handled c).
Definition with_owed (p : option PendingAck) (c : Conn) : Conn :=
  mkConn (unread c) p (table c) (outlook c) (wrote c) (relayed c) (handled c).
Definition with_table (t : SenderTable) (c : Conn) : Conn :=
  mkConn (unread c) (owed c) t (outlook c) (wrote c) (relayed c) (handled c).
Definition with_handled (seq : SeqId) (f : Fate) (c : Conn) : Conn :=
  mkConn (unread c) (owed c) (table c) (outlook c) (wrote c) (relayed c) (handled c ++ [(seq, f)]).
Definition with_relayed (seq : SeqId) (b : EventBatch * Provenance * option HopTrace) (c : Conn) : Conn :=
  mkConn (unread c) (owed c) (table c) (outlook c) (wrote c) (relayed c ++ [(seq, b)]) (handled c).

(** One bounded, flushed control write. *)
Definition write_control (m : ControlMessage) (c : Conn) : bool * Conn :=
  let went ws := mkConn (unread c) (owed c) (table c) ws (wrote c ++ [m]) (relayed c) (handled c) in
  match outlook c with
  | false :: ws => (false, mkConn (unread c) (owed c) (table c) ws (wrote c) (relayed c) (handled c))
  | true :: ws => (true, went ws)
  | [] => (true, went [])
  end.

Definition flush_ack (c : Conn) : bool * Conn :=
  match owed c with
  | None => (true, c)
  | Some run => write_control (CmAck (ack_accepted (seq_id (run_seq run)) (seq_seq (run_seq run)))) (with_owed None c)
  end.

Definition ack_rejected (seq : SeqId) (reason : Z) (message : bytes) (c : Conn) : bool * Conn :=
  let c := with_table (fst (raise (table c) seq)) (with_handled seq (Refused reason) c) in
  let '(ok, c) := flush_ack c in
  if ok then write_control (CmAck (mkAck (seq_id seq) (seq_seq seq) (ack_status_rejected reason message))) c
  else (false, c).

Definition flush_then_reject (reject : Reject) (c : Conn) : Conn :=
  let '(ok, c) := flush_ack c in
  if ok then snd (write_control (CmReject reject) c) else c.

Definition going_away (why : bytes) (c : Conn) : Conn :=
  flush_then_reject (mkReject REJECT_GOING_AWAY why) c.

Definition reject_too_large (message : bytes) (c : Conn) : Conn :=
  flush_then_reject (mkReject REJECT_FRAME_TOO_LARGE message) c.

Definition close_idle (idle : string) (c : Conn) : Conn := going_away (str ("idle for " +:+ idle)) c.

(** The rest of a turn once the frame is decoded: the identity change, the resend check, the
    forward, and the run it joins. *)
Definition take_batch (t : Turn) (seq : SeqId) (decoded : EventBatch * Provenance * option HopTrace) (c : Conn) :
    option Ended * Conn :=
  let change := match owed c with Some run => bool_decide (seq_id (run_seq run) <> seq_id seq) | None => false end in
  let '(ok, c) := if change then flush_ack c else (true, c) in
  if negb ok then (Some (Failed "ack write"), c)
  else
    let '(resend, senders) := is_resend (table c) seq in
    let c := with_table senders c in
    if negb resend && negb (batch_taken t) then (Some Closing, going_away (str "no consumer took the batch") c)
    else
      let c :=
        if resend then with_handled seq Resent c
        else with_handled seq Forwarded (with_table (fst (raise (table c) seq)) (with_relayed seq decoded c)) in
      let frames := match owed c with Some run => run_frames run | None => 0 end + 1 in
      let c := with_owed (Some (mkPendingAck seq frames)) c in
      if ACK_COALESCE_MAX <=? frames then
        let '(ok, c) := flush_ack c in (if ok then None else Some (Failed "ack write"), c)
      else (None, c).

(** A turn from a frame read whole: its kind, its name, then its batch. *)
Definition handle_frame (max_frame_bytes : Z) (t : Turn) (header : FrameHeader) (body : FrameBody) (c : Conn) :
    option Ended * Conn :=
  let refuse seq reason message c :=
    let '(ok, c) := ack_rejected seq reason message c in (if ok then None else Some (Failed "ack write"), c) in
  if negb (Z.land (fh_flags header) FLAG_CONTROL =? 0) then (Some (Failed "control frame"), c)
  else if negb (fh_codec header =? CODEC_HOP_BATCH) then (Some (Failed "codec"), c)
  else
    let payload := match body with Whole payload => payload | Oversize prefix _ => prefix end in
    match parse read_hop_prefix payload with
    | Err _ => (Some (Failed "malformed"), c)
    | Ok (seq, payload) =>
        match body with
        | Oversize _ message => refuse seq ACK_REJECTED_TOO_LARGE message c
        | Whole _ =>
            match fst (decode_hop_body payload (for_frame_cap max_frame_bytes)) with
            | Err (BudgetExceeded limit) =>
                refuse seq ACK_REJECTED_DECODE_BUDGET (error_text (BudgetExceeded limit)) c
            | Err e => refuse seq ACK_REJECTED_MALFORMED (error_text e) c
            | Ok (decoded, _) => take_batch t seq decoded c
            end
        end
    end.

(** A turn from a header: the body, then the frame. *)
Definition read_body (max_frame_bytes : Z) (t : Turn) (header_buf : bytes) (c : Conn) : option Ended * Conn :=
  let fails e :=
    match e with
    | TooLarge _ => "too_large"
    | TruncatedBody => "truncated"
    | Crc => "crc"
    | MalformedFrame reason => reason
    end in
  match read_frame_header header_buf max_frame_bytes with
  | inl (TooLarge message) => (Some (Failed "too_large"), reject_too_large message c)
  | inl e => (Some (Failed (fails e)), c)
  | inr header =>
      let waits := negb (body_ready t) && negb (fh_compressed_len header =? 0) in
      let '(ok, c) := if waits then flush_ack c else (true, c) in
      if negb ok then (Some (Failed "ack write"), c)
      else if waits && body_stalled t then (Some Closing, close_idle (idle t) c)
      else
        match read_frame_rest header_buf max_frame_bytes header (unread c) with
        | inl e => (Some (Failed (fails e)), c)
        | inr (header, body, rest) => handle_frame max_frame_bytes t header body (with_unread rest c)
        end
  end.

(** One turn of [frame_loop]. *)
Definition frame_turn (max_frame_bytes : Z) (t : Turn) (c : Conn) : option Ended * Conn :=
  let c := with_table (run (table c) (others t)) c in
  if shutdown t then (Some Closing, going_away (str "listener shutting down") c)
  else
    let '(ok, c) := if header_ready t then (true, c) else flush_ack c in
    if negb ok then (Some (Failed "ack write"), c)
    else
      match (if header_ready t then None else header_interrupt t) with
      | Some ByShutdown => (Some Closing, going_away (str "listener shutting down") c)
      | Some ByIdle => (Some Closing, close_idle (idle t) c)
      | Some ByReadError => (Some (Failed "read"), c)
      | None =>
          let n := Z.to_nat HEADER_LEN in
          match unread c with
          | [] => (Some PeerClosed, c)
          | _ :: _ =>
              if (length (unread c) <? n)%nat then (Some (Failed "truncated_header"), c)
              else read_body max_frame_bytes t (take n (unread c)) (with_unread (drop n (unread c)) c)
          end
      end.

(** [serve_frames]: the loop, then the owed [Ack] on the way out, best effort. *)
Fixpoint serve_frames (max_frame_bytes : Z) (turns : list Turn) (c : Conn) : option Ended * Conn :=
  match turns with
  | [] => (None, c)
  | t :: turns =>
      match frame_turn max_frame_bytes t c with
      | (Some ended, c) => (Some ended, snd (flush_ack c))
      | (None, c) => serve_frames max_frame_bytes turns c
      end
  end.

(** A connection after its handshake. *)
Definition accept (bs : bytes) (t : SenderTable) (ws : list bool) : Conn := mkConn bs None t ws [] [] [].

(** ** Writes *)

(** The [Ack] owed, as a message. *)
Definition owed_ack (c : Conn) : list ControlMessage :=
  match owed c with
  | Some run => [CmAck (ack_accepted (seq_id (run_seq run)) (seq_seq (run_seq run)))]
  | None => []
  end.

(** [c'] is [c] after writing some of [ms], all of them if every write goes out. *)
Definition wrote_some (ok : bool) (ms : list ControlMessage) (c c' : Conn) : Prop :=
  table c' = table c /\ relayed c' = relayed c /\ handled c' = handled c /\
  (outlook c = [] -> ok = true /\ outlook c' = []) /\
  exists k, wrote c' = wrote c ++ take k ms /\ (ok = true -> take k ms = ms).

Lemma write_control_spec m c :
  let '(ok, c') := write_control m c in wrote_some ok [m] c c' /\ owed c' = owed c.
Proof.
  unfold write_control, wrote_some.
  destruct (outlook c) as [|[] ws]; simpl; split_and!; try done; [exists 1%nat|exists 1%nat|exists 0%nat]; try done.
  by rewrite app_nil_r.
Qed.

Lemma flush_ack_spec c :
  let '(ok, c') := flush_ack c in wrote_some ok (owed_ack c) c c' /\ owed c' = None.
Proof.
  unfold flush_ack, owed_ack. destruct (owed c) as [run|] eqn:Ho.
  - pose proof (write_control_spec (CmAck (ack_accepted (seq_id (run_seq run)) (seq_seq (run_seq run)))) (with_owed None c)) as Hw.
    by destruct (write_control _ _) as [ok c'].
  - split; [|done]. unfold wrote_some. split_and!; try done. exists 0%nat. by rewrite app_nil_r.
Qed.

Lemma wrote_some_app ok ms ms' c c1 c2 :
  wrote_some true ms c c1 -> wrote_some ok ms' c1 c2 -> wrote_some ok (ms ++ ms') c c2.
Proof.
  intros (H1 & H2 & H3 & H4 & k & Hk & Hall) (H1' & H2' & H3' & H4' & k' & Hk' & Hall').
  specialize (Hall eq_refl). split_and!; try congruence.
  - intros Ho. destruct (H4 Ho) as [_ Ho1]. by destruct (H4' Ho1).
  - exists (length ms + k')%nat. rewrite take_app_add, Hk', Hk, Hall, <- app_assoc. split; [done|].
    intros Hok. by rewrite Hall'.
Qed.

Lemma wrote_some_cut ms ms' c c1 : wrote_some false ms c c1 -> wrote_some false (ms ++ ms') c c1.
Proof.
  intros (H1 & H2 & H3 & H4 & k & Hk & _). split_and!; try done.
  exists (Nat.min k (length ms)). split; [|done]. rewrite take_app_le by lia. rewrite Hk. f_equal.
  destruct (Nat.le_ge_cases k (length ms)); [by rewrite Nat.min_l|].
  rewrite Nat.min_r, !take_ge by lia. done.
Qed.

Lemma flush_then_write_spec (m : ControlMessage) c :
  let '(ok, c') := (let '(ok, c) := flush_ack c in if ok then write_control m c else (false, c)) in
  wrote_some ok (owed_ack c ++ [m]) c c' /\ owed c' = None.
Proof.
  pose proof (flush_ack_spec c) as Hf. destruct (flush_ack c) as [[] c1]; destruct Hf as [Hf Ho].
  - pose proof (write_control_spec m c1) as Hw. destruct (write_control m c1) as [ok c2]. destruct Hw as [Hw Ho2].
    split; [by eapply wrote_some_app|congruence].
  - split; [by apply wrote_some_cut|done].
Qed.

Lemma flush_then_reject_spec r c :
  exists ok, wrote_some ok (owed_ack c ++ [CmReject r]) c (flush_then_reject r c) /\ owed (flush_then_reject r c) = None.
Proof.
  pose proof (flush_then_write_spec (CmReject r) c) as Hf. unfold flush_then_reject.
  destruct (flush_ack c) as [[] c1]; [|by exists false].
  destruct (write_control (CmReject r) c1) as [ok c2]. by exists ok.
Qed.

(** ** What an acknowledgement says *)

Definition settled (c : Conn) (s : SeqId) : Prop := (s, Forwarded) ∈ handled c \/ (s, Resent) ∈ handled c.

(** The table's mark for the frame was raised: by another connection, by a batch this one forwarded,
    or by one it refused by name. *)
Definition raised (ext : list Op) (c : Conn) (s : SeqId) : Prop :=
  OpRaise s ∈ ext \/ (s, Forwarded) ∈ handled c \/ exists r, (s, Refused r) ∈ handled c.

Definition forwarded (l : list (SeqId * Fate)) : list SeqId :=
  omap (fun p => match p.2 with Forwarded => Some p.1 | _ => None end) l.

(** Every accepted [Ack], written or owed, names a frame that was forwarded or recognized; what was
    forwarded is what was handled so; and a recognized frame, or a later one of its sender, was
    raised before. *)
Definition honest (n : Z) (ext : list Op) (c : Conn) : Prop :=
  (forall run, owed c = Some run -> settled c (run_seq run)) /\
  (forall id seq, CmAck (ack_accepted id seq) ∈ wrote c -> settled c (mkSeqId id seq)) /\
  (relayed c).*1 = forwarded (handled c) /\
  (exists ops, table c = run (table_new n) ops /\ forall s, OpRaise s ∈ ops -> raised ext c s) /\
  (forall s, (s, Resent) ∈ handled c ->
    exists s', seq_id s' = seq_id s /\ seq_seq s <= seq_seq s' /\ raised ext c s').

Lemma honest_accept n ops bs ws : honest n ops (accept bs (run (table_new n) ops) ws).
Proof.
  unfold honest, accept. cbn [owed wrote relayed handled table]. split_and!; try done.
  - intros id seq Hin. by apply not_elem_of_nil in Hin.
  - exists ops. split; [done|]. intros s Hs. by left.
  - intros s Hin. by apply not_elem_of_nil in Hin.
Qed.

(** Writing keeps it, if what is written is true. *)
Lemma honest_writes n ext ok ms c c' :
  honest n ext c -> wrote_some ok ms c c' -> owed c' = None \/ owed c' = owed c ->
  (forall id seq, CmAck (ack_accepted id seq) ∈ ms -> settled c (mkSeqId id seq)) -> honest n ext c'.
Proof.
  intros (H1 & H2 & H3 & H4 & H5) (Ht & Hr & Hh & _ & k & Hk & _) Ho Hms.
  unfold honest, settled, raised in *. rewrite Ht, Hr, Hh, Hk. split_and!; try done.
  - intros run Hrun. destruct Ho as [Ho|Ho]; rewrite Ho in Hrun; [done|]. by apply H1.
  - intros id seq [Hin|Hin]%elem_of_app; [by apply H2|]. apply Hms. by eapply elem_of_sublist, sublist_take.
Qed.

(** Other connections' work on the table keeps it. *)
Lemma honest_table n ext ext' ops c :
  honest n ext c -> (forall s, OpRaise s ∈ ext -> OpRaise s ∈ ext') ->
  (forall s, OpRaise s ∈ ops -> OpRaise s ∈ ext') ->
  honest n ext' (with_table (run (table c) ops) c).
Proof.
  intros (H1 & H2 & H3 & (ops0 & Ht & Hops) & H5) He Ho.
  assert (forall s, raised ext c s -> raised ext' c s) as Hr by (unfold raised; intros s [|]; auto).
  unfold honest. cbn [with_table owed wrote relayed handled table]. split_and!; try done.
  - exists (ops0 ++ ops). split; [by rewrite Ht, run_app|]. intros s [Hs|Hs]%elem_of_app; [by apply Hr, Hops|left; auto].
  - intros s Hs. destruct (H5 s Hs) as (s' & ? & ? & ?). eauto 10.
Qed.

(** One more frame handled: the table is raised for it unless it was recognized. *)
Definition handle (seq : SeqId) (f : Fate) (rel : list (SeqId * (EventBatch * Provenance * option HopTrace))) (c : Conn) : Conn :=
  mkConn (unread c) (owed c) (match f with Resent => table c | _ => fst (raise (table c) seq) end)
    (outlook c) (wrote c) (relayed c ++ rel) (handled c ++ [(seq, f)]).

Lemma settled_handle seq f rel c s : settled c s -> settled (handle seq f rel c) s.
Proof. intros [Hs|Hs]; [left|right]; apply elem_of_app; by left. Qed.

Lemma raised_handle ext seq f rel c s : raised ext c s -> raised ext (handle seq f rel c) s.
Proof.
  intros [Hs|[Hs|[r Hs]]]; [by left|right; left; apply elem_of_app; by left|].
  right; right. exists r. apply elem_of_app. by left.
Qed.

Lemma honest_handle n ext seq f rel c :
  honest n ext c -> rel.*1 = forwarded [(seq, f)] ->
  (f = Resent -> exists s', seq_id s' = seq_id seq /\ seq_seq seq <= seq_seq s' /\ raised ext c s') ->
  honest n ext (handle seq f rel c).
Proof.
  intros (H1 & H2 & H3 & (ops & Ht & Hops) & H5) Hrel Hres.
  split; [intros run Hrun; by apply settled_handle, H1|].
  split; [intros id sq Hin; by apply settled_handle, H2|]. split; [|split].
  - cbn [handle relayed handled]. unfold forwarded in *. by rewrite fmap_app, omap_app, H3, Hrel.
  - assert (forall s, raised ext c s -> raised ext (handle seq f rel c) s) as Hr by (intros; by apply raised_handle).
    destruct f; cbn [handle table]; [|by eauto|];
      (exists (ops ++ [OpRaise seq]); split; [by rewrite run_app, <- Ht|];
       intros s [Hs|Hs]%elem_of_app; [by auto|apply list_elem_of_singleton in Hs as [= ->]]).
    + right; left. apply elem_of_app. right. by apply list_elem_of_singleton.
    + right; right. eexists. apply elem_of_app. right. by apply list_elem_of_singleton.
  - cbn [handle handled]. intros s [Hs|Hs]%elem_of_app.
    + destruct (H5 s Hs) as (s' & ? & ? & ?). exists s'. split_and!; try done. by apply raised_handle.
    + apply list_elem_of_singleton in Hs as [= -> <-]. destruct (Hres eq_refl) as (s' & ? & ? & ?).
      exists s'. split_and!; try done. by apply raised_handle.
Qed.

Lemma honest_owe n ext seq frames c :
  honest n ext c -> settled c seq -> honest n ext (with_owed (Some (mkPendingAck seq frames)) c).
Proof.
  intros (H1 & H2 & H3 & H4 & H5) Hs. unfold honest. cbn [with_owed owed wrote relayed handled table].
  split_and!; try done. by intros run [= <-].
Qed.

Lemma honest_unread n ext bs c : honest n ext c -> honest n ext (with_unread bs c).
Proof. done. Qed.

Lemma owed_ack_settled n ext c id seq : honest n ext c -> CmAck (ack_accepted id seq) ∈ owed_ack c -> settled c (mkSeqId id seq).
Proof.
  intros (H1 & _). unfold owed_ack. destruct (owed c) as [run|] eqn:Ho.
  - intros Hin%list_elem_of_singleton. injection Hin as -> ->. specialize (H1 run eq_refl). by destruct (run_seq run).
  - intros Hin. by apply not_elem_of_nil in Hin.
Qed.

(** ** A [Reject] is the last thing written *)

Definition is_reject (m : ControlMessage) : bool := match m with CmReject _ => true | _ => false end.
Definition no_reject (ms : list ControlMessage) : Prop := Forall (fun m => is_reject m = false) ms.

(** How a turn leaves the connection. *)
Definition turn_ok (n : Z) (ext : list Op) (r : option Ended) (c : Conn) : Prop :=
  honest n ext c /\
  (no_reject (wrote c) \/
   r <> None /\ owed c = None /\ exists ws rj, wrote c = ws ++ [CmReject rj] /\ no_reject ws).

Lemma owed_ack_no_reject c : no_reject (owed_ack c).
Proof. unfold owed_ack. destruct (owed c); by repeat constructor. Qed.

Lemma no_reject_wrote ok ms c c' : no_reject (wrote c) -> no_reject ms -> wrote_some ok ms c c' -> no_reject (wrote c').
Proof.
  intros Hc Hm (_ & _ & _ & _ & k & -> & _). apply Forall_app. split; [done|]. by apply Forall_take.
Qed.

Lemma flush_ack_ok n ext c :
  honest n ext c -> no_reject (wrote c) ->
  let '(ok, c') := flush_ack c in honest n ext c' /\ no_reject (wrote c') /\ table c' = table c /\ owed c' = None /\ unread c' = unread c.
Proof.
  intros Hh Hr. pose proof (flush_ack_spec c) as Hf. 
  assert (unread (snd (flush_ack c)) = unread c) as Hu.
  { unfold flush_ack, write_control. destruct (owed c); [|done]. cbn [with_owed outlook]. by destruct (outlook c) as [|[]]. }
  destruct (flush_ack c) as [ok c']. destruct Hf as [Hf Ho]. split_and!; try done; [| |apply Hf].
  - eapply honest_writes; [done..|by left|]. intros id seq Hin. by eapply owed_ack_settled.
  - by eapply no_reject_wrote, Hf; [|apply owed_ack_no_reject].
Qed.

Lemma flush_if_ok n ext (b : bool) c :
  honest n ext c -> no_reject (wrote c) ->
  let '(ok, c') := if b then flush_ack c else (true, c) in honest n ext c' /\ no_reject (wrote c').
Proof.
  intros Hh Hr. destruct b; [|done]. pose proof (flush_ack_ok n ext c Hh Hr) as Hf.
  destruct (flush_ack c) as [ok c1]. by split; apply Hf.
Qed.

Lemma flush_then_reject_ok n ext e rj c :
  honest n ext c -> no_reject (wrote c) -> turn_ok n ext (Some e) (flush_then_reject rj c).
Proof.
  intros Hh Hr. destruct (flush_then_reject_spec rj c) as (ok & Hw & Ho). split.
  - eapply honest_writes; [done..|by left|]. intros id seq [Hin|Hin]%elem_of_app; [by eapply owed_ack_settled|].
    by apply list_elem_of_singleton in Hin.
  - destruct Hw as (_ & _ & _ & _ & k & Hk & _). rewrite Hk.
    destruct (Nat.le_gt_cases k (length (owed_ack c))) as [Hle|Hgt].
    + left. apply Forall_app. split; [done|]. rewrite take_app_le by done. by apply Forall_take, owed_ack_no_reject.
    + right. split_and!; [done..|]. exists (wrote c ++ owed_ack c), rj. rewrite take_ge by (rewrite length_app; simpl; lia).
      rewrite app_assoc. split; [done|]. apply Forall_app. split; [done|apply owed_ack_no_reject].
Qed.

Lemma turn_ok_quiet n ext r c : honest n ext c -> no_reject (wrote c) -> turn_ok n ext r c.
Proof. intros Hh Hr. split; [done|by left]. Qed.

Lemma ack_rejected_eq seq reason message c :
  ack_rejected seq reason message c =
  (let '(ok, c) := flush_ack (handle seq (Refused reason) [] c) in
   if ok then write_control (CmAck (mkAck (seq_id seq) (seq_seq seq) (ack_status_rejected reason message))) c
   else (false, c)).
Proof. unfold ack_rejected, handle. by rewrite app_nil_r. Qed.

Lemma ack_rejected_ok n ext seq reason message c :
  honest n ext c -> no_reject (wrote c) ->
  let '(ok, c') := ack_rejected seq reason message c in turn_ok n ext (if ok then None else Some (Failed "ack write")) c'.
Proof.
  intros Hh Hr. rewrite ack_rejected_eq. set (c1 := handle seq (Refused reason) [] c).
  assert (honest n ext c1) as Hh1 by by apply honest_handle.
  set (m := CmAck (mkAck (seq_id seq) (seq_seq seq) (ack_status_rejected reason message))).
  pose proof (flush_then_write_spec m c1) as Hw. change (wrote c) with (wrote c1) in Hr.
  destruct (let '(ok, c) := flush_ack c1 in if ok then write_control m c else (false, c)) as [ok c'].
  destruct Hw as [Hw Ho]. apply turn_ok_quiet.
  - eapply honest_writes; [done..|by left|]. intros id sq [Hin|Hin]%elem_of_app; [by eapply owed_ack_settled|].
    by apply list_elem_of_singleton in Hin.
  - eapply no_reject_wrote, Hw; [done|]. apply Forall_app. split; [apply owed_ack_no_reject|by repeat constructor].
Qed.

Lemma take_batch_ok n ext t seq decoded c r c' :
  honest n ext c -> no_reject (wrote c) -> take_batch t seq decoded c = (r, c') -> turn_ok n ext r c'.
Proof.
  intros Hh Hr. unfold take_batch.
  match goal with |- context [if ?b then flush_ack c else (true, c)] =>
    pose proof (flush_if_ok n ext b c Hh Hr) as Hf;
    destruct (if b then flush_ack c else (true, c)) as [[] c1]; destruct Hf as [Hh1 Hr1] end; cbn [negb];
    [|intros [= <- <-]; by apply turn_ok_quiet].
  assert (honest n ext (with_table (snd (is_resend (table c1) seq)) c1)) as Hh2.
  { apply (honest_table n ext ext [OpIsResend seq]); auto. intros s [=]%list_elem_of_singleton. }
  assert (fst (is_resend (table c1) seq) = true ->
    exists s', seq_id s' = seq_id seq /\ seq_seq seq <= seq_seq s' /\ raised ext c1 s') as Hres.
  { destruct Hh1 as (_ & _ & _ & (ops & Ht & Hops) & _). rewrite Ht. intros (s & Hle & Hin)%resend_raised.
    exists (mkSeqId (seq_id seq) s). split_and!; auto. }
  destruct (is_resend (table c1) seq) as [resend senders]. cbn [fst snd] in *.
  set (c2 := with_table senders c1) in *. change (wrote c1) with (wrote c2) in Hr1.
  destruct (negb resend && negb (batch_taken t)); [intros [= <- <-]; by apply flush_then_reject_ok|].
  match goal with |- context [with_owed _ ?c] => set (c3 := c) end.
  assert (honest n ext c3 /\ no_reject (wrote c3) /\ settled c3 seq) as (Hh3 & Hr3 & Hs3).
  { destruct resend; unfold c3; split_and!; try done.
    - assert (with_handled seq Resent c2 = handle seq Resent [] c2) as -> by (unfold handle; cbn; by rewrite app_nil_r).
      by apply honest_handle; auto.
    - right. apply elem_of_app. right. by apply list_elem_of_singleton.
    - apply (honest_handle n ext seq Forwarded [(seq, decoded)] c2); done.
    - left. apply elem_of_app. right. by apply list_elem_of_singleton. }
  assert (forall frames, honest n ext (with_owed (Some (mkPendingAck seq frames)) c3)) as Hh4 by (intros; by apply honest_owe).
  case_match; [|intros [= <- <-]; by apply turn_ok_quiet].
  match goal with |- context [flush_ack ?c4] => pose proof (flush_ack_ok n ext c4 (Hh4 _) Hr3) as Hf; destruct (flush_ack c4) as [ok c5] end.
  intros [= <- <-]. by apply turn_ok_quiet; apply Hf.
Qed.

Lemma handle_frame_ok n ext max t header body c r c' :
  honest n ext c -> no_reject (wrote c) -> handle_frame max t header body c = (r, c') -> turn_ok n ext r c'.
Proof.
  intros Hh Hr. unfold handle_frame.
  assert (forall seq reason message, let '(ok, c1) := ack_rejected seq reason message c in
    (if ok then None else Some (Failed "ack write"), c1) = (r, c') -> turn_ok n ext r c') as Hrej.
  { intros seq reason message. pose proof (ack_rejected_ok n ext seq reason message c Hh Hr) as Ha.
    destruct (ack_rejected _ _ _ _) as [ok c1]. by intros [= <- <-]. }
  case_match; [intros [= <- <-]; by apply turn_ok_quiet|]. case_match; [intros [= <- <-]; by apply turn_ok_quiet|].
  destruct (parse read_hop_prefix _) as [[seq payload]|e]; [|intros [= <- <-]; by apply turn_ok_quiet].
  destruct body as [p|p message]; [|specialize (Hrej seq ACK_REJECTED_TOO_LARGE message); by destruct (ack_rejected _ _ _ _)].
  destruct (fst (decode_hop_body payload (for_frame_cap max))) as [[decoded rest]|e]; [by apply take_batch_ok|].
  destruct e as [m|m|m|k|k];
    [specialize (Hrej seq ACK_REJECTED_MALFORMED (error_text (Malformed m)))
    |specialize (Hrej seq ACK_REJECTED_MALFORMED (error_text (Io m)))
    |specialize (Hrej seq ACK_REJECTED_MALFORMED (error_text (Unsupported m)))
    |specialize (Hrej seq ACK_REJECTED_MALFORMED (error_text (Truncated k)))
    |specialize (Hrej seq ACK_REJECTED_DECODE_BUDGET (error_text (BudgetExceeded k)))]; by destruct (ack_rejected _ _ _ _).
Qed.

Lemma read_body_ok n ext max t header_buf c r c' :
  honest n ext c -> no_reject (wrote c) -> read_body max t header_buf c = (r, c') -> turn_ok n ext r c'.
Proof.
  intros Hh Hr. unfold read_body.
  destruct (read_frame_header header_buf max) as [[]|header]; [intros [= <- <-]; by apply flush_then_reject_ok| | | |];
    [intros [= <- <-]; by apply turn_ok_quiet..|].
  match goal with |- context [if ?b then flush_ack c else (true, c)] =>
    pose proof (flush_if_ok n ext b c Hh Hr) as Hf;
    destruct (if b then flush_ack c else (true, c)) as [[] c1]; destruct Hf as [Hh1 Hr1] end; cbn [negb];
    [|intros [= <- <-]; by apply turn_ok_quiet].
  case_match; [intros [= <- <-]; by apply flush_then_reject_ok|].
  destruct (read_frame_rest _ _ _ _) as [e|[[header' body] rest]]; [intros [= <- <-]; by apply turn_ok_quiet|by apply handle_frame_ok].
Qed.

Lemma frame_turn_ok n ext max t c r c' :
  honest n ext c -> no_reject (wrote c) -> frame_turn max t c = (r, c') -> turn_ok n (ext ++ others t) r c'.
Proof.
  intros Hh0 Hr0. unfold frame_turn. set (c0 := with_table (run (table c) (others t)) c).
  assert (honest n (ext ++ others t) c0) as Hh.
  { apply (honest_table n ext); [done|..]; intros s Hs; apply elem_of_app; auto. }
  change (wrote c) with (wrote c0) in Hr0. clearbody c0.
  case_match; [intros [= <- <-]; by apply flush_then_reject_ok|].
  pose proof (flush_if_ok n (ext ++ others t) (negb (header_ready t)) c0 Hh Hr0) as Hf. rewrite if_negb in Hf.
  destruct (if header_ready t then (true, c0) else flush_ack c0) as [[] c1];
    destruct Hf as [Hh1 Hr1]; cbn [negb]; [|intros [= <- <-]; by apply turn_ok_quiet].
  destruct (if header_ready t then None else header_interrupt t) as [[]|];
    [intros [= <- <-]; by apply flush_then_reject_ok..|intros [= <- <-]; by apply turn_ok_quiet|].
  destruct (unread c1) as [|b bs] eqn:Hu; [intros [= <- <-]; by apply turn_ok_quiet|].
  case_match; [intros [= <- <-]; by apply turn_ok_quiet|]. by apply read_body_ok.
Qed.

Lemma honest_mono n ext ext' c : honest n ext c -> (forall s, OpRaise s ∈ ext -> OpRaise s ∈ ext') -> honest n ext' c.
Proof.
  intros Hh He. assert (c = with_table (run (table c) []) c) as -> by by destruct c.
  apply (honest_table n ext); try done. intros s Hs. by apply not_elem_of_nil in Hs.
Qed.

Lemma serve_frames_ok n max turns : forall ext c ended c',
  honest n ext c -> no_reject (wrote c) -> serve_frames max turns c = (ended, c') ->
  honest n (ext ++ concat (map others turns)) c' /\
  (no_reject (wrote c') \/ exists ws rj, wrote c' = ws ++ [CmReject rj] /\ no_reject ws).
Proof.
  induction turns as [|t turns IH]; intros ext c ended c' Hh Hr; simpl.
  - intros [= <- <-]. rewrite app_nil_r. auto.
  - destruct (frame_turn max t c) as [r c1] eqn:Ht. destruct (frame_turn_ok _ _ _ _ _ _ _ Hh Hr Ht) as [Hh1 Hr1].
    rewrite app_assoc. destruct r as [e|].
    + intros [= <- <-]. destruct Hr1 as [Hr1|(_ & Ho & ws & rj & Hw & Hws)].
      * pose proof (flush_ack_ok _ _ _ Hh1 Hr1) as Hf. destruct (flush_ack c1) as [ok c2]. destruct Hf as (Hh2 & Hr2 & _).
        split; [|by left]. eapply honest_mono; [done|]. intros s Hs. apply elem_of_app. by left.
      * unfold flush_ack. rewrite Ho. split; [|right; eauto]. eapply honest_mono; [done|].
        intros s Hs. apply elem_of_app. by left.
    + destruct Hr1 as [Hr1|(? & _)]; [|done]. by apply IH.
Qed.

(** ** Every frame is answered *)

Definition covered (ms : list ControlMessage) (s : SeqId) : Prop :=
  exists seq, CmAck (ack_accepted (seq_id s) seq) ∈ ms /\ seq_seq s <= seq.

(** A refused frame has its own answer; any other is covered by an accepted [Ack], written or owed. *)
Definition answered (c : Conn) (p : SeqId * Fate) : Prop :=
  match p.2 with
  | Refused r => exists message, CmAck (mkAck (seq_id p.1) (seq_seq p.1) (ack_status_rejected r message)) ∈ wrote c
  | _ => covered (wrote c ++ owed_ack c) p.1
  end.

(** Each sender's frames come in the order of their numbers. *)
Definition ascending (l : list (SeqId * Fate)) : Prop :=
  forall i j p q, (i < j)%nat -> l !! i = Some p -> l !! j = Some q -> seq_id p.1 = seq_id q.1 ->
    seq_seq p.1 <= seq_seq q.1.

Lemma ascending_prefix l k : ascending (l ++ k) -> ascending l.
Proof.
  intros Ha i j p q Hij Hp Hq. apply (Ha i j p q Hij); by apply lookup_app_l_Some.
Qed.

Lemma ascending_last l p q : ascending (l ++ [q]) -> p ∈ l -> seq_id p.1 = seq_id q.1 -> seq_seq p.1 <= seq_seq q.1.
Proof.
  intros Ha [i Hi]%list_elem_of_lookup. apply (Ha i (length l)); [by eapply lookup_lt_Some|by apply lookup_app_l_Some|].
  by apply list_lookup_middle.
Qed.

(** Where every write goes out, a move keeps every answer. *)
Definition answers (c c' : Conn) : Prop :=
  outlook c' = [] /\ (exists k, handled c' = handled c ++ k) /\
  (ascending (handled c') -> Forall (answered c) (handled c) -> Forall (answered c') (handled c')).

Lemma answers_refl c : outlook c = [] -> answers c c.
Proof. intros Ho. split; [done|]. split; [exists []; by rewrite app_nil_r|done]. Qed.

Lemma answers_trans c c1 c2 : answers c c1 -> answers c1 c2 -> answers c c2.
Proof.
  intros (_ & [k Hk] & H1) (Ho & [k' Hk'] & H2). split; [done|]. split.
  - exists (k ++ k'). by rewrite Hk', Hk, app_assoc.
  - intros Ha Hc. apply H2; [done|]. apply H1; [|done]. rewrite Hk' in Ha. by eapply ascending_prefix.
Qed.

Lemma answered_mono c c' p :
  (forall m, m ∈ wrote c -> m ∈ wrote c') -> (forall m, m ∈ owed_ack c -> m ∈ wrote c' ++ owed_ack c') ->
  answered c p -> answered c' p.
Proof.
  intros Hw Ho. unfold answered.
  assert (covered (wrote c ++ owed_ack c) p.1 -> covered (wrote c' ++ owed_ack c') p.1) as Hc.
  { intros (seq & [Hin|Hin]%elem_of_app & Hle); exists seq; split; auto. apply elem_of_app. auto. }
  destruct (p.2) as [| |r]; [done..|]. intros [message Hm]. eauto.
Qed.

(** Moves that only write. *)
Lemma answers_writes ok ms c c' :
  outlook c = [] -> wrote_some ok (owed_ack c ++ ms) c c' -> answers c c'.
Proof.
  intros Ho (_ & _ & Hh & Hout & k & Hk & Hall). destruct (Hout Ho) as [-> Ho'].
  rewrite (Hall eq_refl) in Hk. split; [done|]. split; [exists []; by rewrite app_nil_r|].
  intros _ Hc. rewrite Hh. eapply Forall_impl; [done|]. intros p. apply answered_mono; rewrite Hk.
  - intros m Hm. apply elem_of_app. by left.
  - intros m Hm. rewrite !elem_of_app. auto.
Qed.

Lemma flush_ack_answers c : outlook c = [] -> fst (flush_ack c) = true /\ answers c (snd (flush_ack c)).
Proof.
  intros Ho. pose proof (flush_ack_spec c) as Hf. destruct (flush_ack c) as [ok c']. destruct Hf as [Hf _].
  split; [by apply Hf|]. apply (answers_writes ok []); [done|]. by rewrite app_nil_r.
Qed.

Lemma flush_then_reject_answers rj c : outlook c = [] -> answers c (flush_then_reject rj c).
Proof. intros Ho. destruct (flush_then_reject_spec rj c) as (ok & Hw & _). by eapply answers_writes. Qed.

Lemma flush_if_answers (b : bool) c :
  outlook c = [] -> let '(ok, c') := if b then flush_ack c else (true, c) in
  ok = true /\ answers c c' /\ handled c' = handled c /\ (b = true -> owed c' = None) /\ (b = false -> c' = c).
Proof.
  intros Ho. destruct b; [|split_and!; try done; by apply answers_refl].
  pose proof (flush_ack_answers c Ho) as [H1 H2]. pose proof (flush_ack_spec c) as Hf.
  destruct (flush_ack c) as [ok c']. destruct Hf as [Hf Hn]. by split_and!; try done; apply Hf.
Qed.

(** A refused frame gets its own answer. *)
Lemma ack_rejected_answers seq reason message c :
  outlook c = [] -> fst (ack_rejected seq reason message c) = true /\ answers c (snd (ack_rejected seq reason message c)).
Proof.
  intros Ho. rewrite ack_rejected_eq. set (c1 := handle seq (Refused reason) [] c).
  set (m := CmAck (mkAck (seq_id seq) (seq_seq seq) (ack_status_rejected reason message))).
  pose proof (flush_then_write_spec m c1) as Hw.
  destruct (let '(ok, c) := flush_ack c1 in if ok then write_control m c else (false, c)) as [ok c'].
  destruct Hw as [(_ & _ & Hh & Hout & k & Hk & Hall) _]. destruct (Hout Ho) as [-> Ho']. rewrite (Hall eq_refl) in Hk.
  change (wrote c1) with (wrote c) in Hk. change (owed_ack c1) with (owed_ack c) in Hk. change (handled c1) with (handled c ++ [(seq, Refused reason)]) in Hh.
  split; [done|]. split; [done|]. split; [by eexists|]. intros _ Hc. cbn [snd]. rewrite Hh. apply Forall_app. split.
  - eapply Forall_impl; [done|]. intros p. apply answered_mono; rewrite Hk; intros m' Hm; rewrite !elem_of_app; auto.
  - constructor; [|done]. exists message. rewrite Hk, !elem_of_app. right; right. by apply list_elem_of_singleton.
Qed.

(** A frame that joins the run owed to its own sender is covered, with the run. *)
Lemma handle_answers seq f rel frames c :
  outlook c = [] -> (forall r, f <> Refused r) ->
  (forall run, owed c = Some run -> seq_id (run_seq run) = seq_id seq /\ settled c (run_seq run)) ->
  answers c (with_owed (Some (mkPendingAck seq frames)) (handle seq f rel c)).
Proof.
  intros Ho Hf Hown. split; [done|]. split; [by eexists|]. cbn [with_owed handle handled]. intros Ha Hc.
  apply Forall_app. split.
  - rewrite Forall_forall in *. intros p Hp. specialize (Hc p Hp). unfold answered in *.
    destruct (p.2) as [| |r] eqn:Hp2; [| |done];
      (destruct Hc as (s & [Hin|Hin]%elem_of_app & Hle); [exists s; split; [apply elem_of_app; by left|done]|]);
      unfold owed_ack in Hin; (destruct (owed c) as [run|] eqn:Hr; [|by apply not_elem_of_nil in Hin]);
      apply list_elem_of_singleton in Hin; injection Hin as Hid ->; destruct (Hown run eq_refl) as [Hi Hs];
      assert (exists f', (run_seq run, f') ∈ handled c) as [f' Hrun] by (destruct Hs; eauto);
      (exists (seq_seq seq); split; [apply elem_of_app; right; cbn; rewrite Hid, Hi; by apply list_elem_of_singleton|]);
      (etrans; [done|]); by apply (ascending_last _ (run_seq run, f') (seq, f) Ha).
  - constructor; [|done]. unfold answered. cbn [fst snd].
    assert (covered (wrote c ++ owed_ack (with_owed (Some (mkPendingAck seq frames)) (handle seq f rel c))) seq).
    { exists (seq_seq seq). split; [apply elem_of_app; right; by apply list_elem_of_singleton|lia]. }
    destruct f as [| |r]; [done..|]. by destruct (Hf r).
Qed.

(** The run owed was settled: what [honest] says of it. *)
Definition owes_settled (c : Conn) : Prop := forall run, owed c = Some run -> settled c (run_seq run).

Lemma take_batch_answers t seq decoded c r c' :
  outlook c = [] -> owes_settled c -> take_batch t seq decoded c = (r, c') -> answers c c'.
Proof.
  intros Ho Hs. unfold take_batch.
  match goal with |- context [if ?b then flush_ack c else (true, c)] =>
    pose proof (flush_if_answers b c Ho) as Hf; destruct (if b then flush_ack c else (true, c)) as [ok c1] eqn:Hb end.
  destruct Hf as (-> & Ha & Hh & Hn & Hsame). cbn [negb].
  assert (outlook c1 = []) as Ho1 by apply Ha.
  assert (forall run, owed c1 = Some run -> seq_id (run_seq run) = seq_id seq /\ settled c1 (run_seq run)) as Hown.
  { intros run Hrun. destruct (owed c) as [run0|] eqn:Hc; [|specialize (Hsame eq_refl); congruence].
    case_bool_decide as Hid; [rewrite (Hn eq_refl) in Hrun; done|].
    specialize (Hsame eq_refl). subst c1. rewrite Hc in Hrun. injection Hrun as <-.
    split; [|by apply Hs]. destruct (decide (seq_id (run_seq run0) = seq_id seq)); [done|by destruct Hid]. }
  destruct (is_resend (table c1) seq) as [resend senders].
  set (c2 := with_table senders c1). assert (answers c c2) as Ha2 by exact Ha.
  destruct (negb resend && negb (batch_taken t)).
  { intros [= <- <-]. eapply answers_trans; [exact Ha2|]. by apply flush_then_reject_answers. }
  match goal with |- context [with_owed ?o ?c] => set (c4 := with_owed o c) end.
  assert (answers c c4) as Ha4.
  { eapply answers_trans; [exact Ha2|]. unfold c4. destruct resend.
    - assert (with_handled seq Resent c2 = handle seq Resent [] c2) as -> by (unfold handle; cbn; by rewrite app_nil_r).
      by apply handle_answers.
    - apply (handle_answers seq Forwarded [(seq, decoded)]); done. }
  destruct (ACK_COALESCE_MAX <=? _); [|by intros [= <- <-]].
  pose proof (flush_ack_answers c4 ltac:(apply Ha4)) as [_ Hf]. destruct (flush_ack c4) as [ok c5].
  intros [= <- <-]. by eapply answers_trans.
Qed.

Lemma handle_frame_answers max t header body c r c' :
  outlook c = [] -> owes_settled c -> handle_frame max t header body c = (r, c') -> answers c c'.
Proof.
  intros Ho Hs. unfold handle_frame.
  assert (forall seq reason message, let '(ok, c1) := ack_rejected seq reason message c in
    (if ok then None else Some (Failed "ack write"), c1) = (r, c') -> answers c c') as Hrej.
  { intros seq reason message. pose proof (ack_rejected_answers seq reason message c Ho) as [_ Ha].
    destruct (ack_rejected _ _ _ _) as [ok c1]. by intros [= <- <-]. }
  pose proof (answers_refl c Ho) as Hrefl.
  case_match; [by intros [= <- <-]|]. case_match; [by intros [= <- <-]|].
  destruct (parse read_hop_prefix _) as [[seq payload]|e]; [|by intros [= <- <-]].
  destruct body as [p|p message]; [|specialize (Hrej seq ACK_REJECTED_TOO_LARGE message); by destruct (ack_rejected _ _ _ _)].
  destruct (fst (decode_hop_body payload (for_frame_cap max))) as [[decoded rest]|e]; [by apply take_batch_answers|].
  destruct e as [m|m|m|k|k];
    [specialize (Hrej seq ACK_REJECTED_MALFORMED (error_text (Malformed m)))
    |specialize (Hrej seq ACK_REJECTED_MALFORMED (error_text (Io m)))
    |specialize (Hrej seq ACK_REJECTED_MALFORMED (error_text (Unsupported m)))
    |specialize (Hrej seq ACK_REJECTED_MALFORMED (error_text (Truncated k)))
    |specialize (Hrej seq ACK_REJECTED_DECODE_BUDGET (error_text (BudgetExceeded k)))]; by destruct (ack_rejected _ _ _ _).
Qed.

Lemma owes_settled_flush (b : bool) c : owes_settled c -> outlook c = [] ->
  let '(_, c') := if b then flush_ack c else (true, c) in owes_settled c'.
Proof.
  intros Hs Ho. pose proof (flush_if_answers b c Ho) as Hf. destruct b.
  - destruct (flush_ack c) as [ok c']. destruct Hf as (_ & _ & _ & Hn & _). intros run Hr. by rewrite (Hn eq_refl) in Hr.
  - done.
Qed.

Lemma read_body_answers max t header_buf c r c' :
  outlook c = [] -> owes_settled c -> read_body max t header_buf c = (r, c') -> answers c c'.
Proof.
  intros Ho Hs. unfold read_body. pose proof (answers_refl c Ho) as Hrefl.
  destruct (read_frame_header header_buf max) as [[]|header]; [intros [= <- <-]; by apply flush_then_reject_answers| | | |];
    [by intros [= <- <-]..|].
  match goal with |- context [if ?b then flush_ack c else (true, c)] =>
    pose proof (flush_if_answers b c Ho) as Hf; pose proof (owes_settled_flush b c Hs Ho) as Hs1;
    destruct (if b then flush_ack c else (true, c)) as [ok c1] end.
  destruct Hf as (-> & Ha & _). cbn [negb]. assert (outlook c1 = []) as Ho1 by apply Ha.
  case_match; [intros [= <- <-]; eapply answers_trans; [exact Ha|]; by apply flush_then_reject_answers|].
  destruct (read_frame_rest _ _ _ _) as [e|[[header' body] rest]]; [by intros [= <- <-]|].
  intros Hc. eapply answers_trans; [exact Ha|].
  exact (handle_frame_answers max t header' body (with_unread rest c1) r c' Ho1 Hs1 Hc).
Qed.

Lemma frame_turn_answers max t c r c' :
  outlook c = [] -> owes_settled c -> frame_turn max t c = (r, c') -> answers c c'.
Proof.
  intros Ho Hs. unfold frame_turn. set (c0 := with_table (run (table c) (others t)) c).
  assert (answers c c0) as Ha0 by exact (answers_refl c Ho).
  change (outlook c) with (outlook c0) in Ho. change (owes_settled c) with (owes_settled c0) in Hs.
  case_match; [intros [= <- <-]; eapply answers_trans; [exact Ha0|]; by apply flush_then_reject_answers|].
  pose proof (flush_if_answers (negb (header_ready t)) c0 Ho) as Hf. pose proof (owes_settled_flush (negb (header_ready t)) c0 Hs Ho) as Hs1.
  rewrite if_negb in Hf, Hs1. destruct (if header_ready t then (true, c0) else flush_ack c0) as [ok c1].
  destruct Hf as (-> & Ha & _). cbn [negb]. assert (outlook c1 = []) as Ho1 by apply Ha.
  pose proof (answers_trans _ _ _ Ha0 Ha) as Ha1.
  destruct (if header_ready t then None else header_interrupt t) as [[]|];
    [intros [= <- <-]; eapply answers_trans; [exact Ha1|]; by apply flush_then_reject_answers..|by intros [= <- <-]|].
  destruct (unread c1) as [|b bs] eqn:Hu; [by intros [= <- <-]|]. rewrite <- Hu.
  case_match; [by intros [= <- <-]|]. intros Hc. eapply answers_trans; [exact Ha1|].
  exact (read_body_answers max t _ (with_unread _ c1) r c' Ho1 Hs1 Hc).
Qed.

Lemma serve_frames_answers n max turns : forall ext c ended c',
  outlook c = [] -> honest n ext c -> no_reject (wrote c) -> serve_frames max turns c = (ended, c') ->
  answers c c' /\ (ended <> None -> owed c' = None).
Proof.
  induction turns as [|t turns IH]; intros ext c ended c' Ho Hh Hr; simpl.
  - intros [= <- <-]. split; [by apply answers_refl|done].
  - destruct (frame_turn max t c) as [r c1] eqn:Ht.
    pose proof (frame_turn_answers _ _ _ _ _ Ho (proj1 Hh) Ht) as Ha.
    destruct (frame_turn_ok _ _ _ _ _ _ _ Hh Hr Ht) as [Hh1 Hr1]. assert (outlook c1 = []) as Ho1 by apply Ha.
    destruct r as [e|].
    + intros [= <- <-]. pose proof (flush_ack_answers c1 Ho1) as [_ Hf]. pose proof (flush_ack_spec c1) as Hn.
      destruct (flush_ack c1) as [ok c2]. split; [by eapply answers_trans|]. intros _. apply Hn.
    + destruct Hr1 as [Hr1|(? & _)]; [|done]. intros Hsv.
      destruct (IH _ _ _ _ Ho1 Hh1 Hr1 Hsv) as [Ha2 He]. split; [by eapply answers_trans|done].
Qed.

(** ** Properties *)


(** C19: the receiver answers every frame it took off the wire. If its writes go out and each sender's
    frames came in the order of their numbers, then when the connection ends every frame forwarded
    or recognized is covered by an accepted [Ack] of its sender, and every frame refused has a
    rejected [Ack] of its own. With [receiver_acks_truly], a [Reject] is written only once every
    forwarded frame is acknowledged, so a peer that reads it resends nothing that landed. *)
Theorem receiver_answers_every_frame n ops max turns bs ended c :
  serve_frames max turns (accept bs (run (table_new n) ops) []) = (Some ended, c) -> ascending (handled c) ->
  Forall (fun p =>
    match p.2 with
    | Refused r => exists message, CmAck (mkAck (seq_id p.1) (seq_seq p.1) (ack_status_rejected r message)) ∈ wrote c
    | _ => exists seq, CmAck (ack_accepted (seq_id p.1) seq) ∈ wrote c /\ seq_seq p.1 <= seq
    end) (handled c).
Proof.
  intros Hs Ha. destruct (serve_frames_answers n max turns ops (accept bs (run (table_new n) ops) []) _ _ eq_refl (honest_accept n ops bs []) ltac:(constructor) Hs)
    as [(_ & _ & Hc) Ho]. specialize (Hc Ha ltac:(constructor)). eapply Forall_impl; [exact Hc|].
  intros [s f]. unfold answered, covered, owed_ack. rewrite Ho by done. by rewrite app_nil_r.
Qed.
End Receiver.

(** A frame that does not decode, then the same frame again. *)
Definition sample_frame : bytes :=
  match @write_frame literal_deps CODEC_HOP_BATCH CompNone (repeat (z2b 9) 16 ++ [z2b 1; z2b 255]) with Ok f => f | Err _ => [] end.

#[local] Abbreviation sample_serve :=
  (@serve_frames sender_interner sample_summaries literal_deps 1000 [quiet_turn; quiet_turn; quiet_turn]
    (accept (sample_frame ++ sample_frame) (run (table_new 4) []) [])).


Lemma receiver_answers_every_frame_witness :
  let seq := mkSeqId (repeat (z2b 9) 16) 1 in
  let '(_, c) := sample_serve in
  handled c = [(seq, Refused ACK_REJECTED_MALFORMED); (seq, Refused ACK_REJECTED_MALFORMED)] /\
  Forall (fun p =>
    match p.2 with
    | Refused r => exists message, CmAck (mkAck (seq_id p.1) (seq_seq p.1) (ack_status_rejected r message)) ∈ wrote c
    | _ => exists seq, CmAck (ack_accepted (seq_id p.1) seq) ∈ wrote c /\ seq_seq p.1 <= seq
    end) (handled c).
Proof.
  intros seq.
  assert (ascending [(seq, Refused ACK_REJECTED_MALFORMED); (seq, Refused ACK_REJECTED_MALFORMED)]) as Ha.
  { intros [|[|i]] [|[|j]] p q Hij Hp Hq; try lia; cbn in Hp, Hq; by simplify_eq. }
  assert (handled (snd sample_serve) = [(seq, Refused ACK_REJECTED_MALFORMED); (seq, Refused ACK_REJECTED_MALFORMED)]) as Hh
    by (vm_compute; reflexivity).
  assert (fst sample_serve = Some PeerClosed) as He by (vm_compute; reflexivity).
  destruct sample_serve as [e c] eqn:E. cbn [fst snd] in Hh, He. subst e.
  split; [exact Hh|]. apply (receiver_answers_every_frame _ _ _ _ _ _ _ E).
  rewrite Hh. exact Ha.
Defined.
