(* ===== verification/Delivery.v ===== *)
(** * Delivery over connections

    What the receiver of [Receiver] makes of the frames a sender of the native hop writes
    (crates/logit-inputs/src/logit.rs): a frame within its bounds is forwarded or recognized as
    resent, a frame over them is refused by name, and a sender that reconnects as often as it has
    to, each time from a frame not yet past the receiver's mark, delivers each batch once, in order. *)

From stdpp Require Import pretty.
From S2P Require Import Prelude Codec Budget Reader Utf8 Model Instances ValueCodec Batch Frame Control Senders Receiver.

#[local] Open Scope wire_scope.

Section Connections.
Context {I : Interner} {Sm : Summaries} {D : FrameDeps}.

(** ** Frames a sender writes *)

(** A data frame: its payload, and what the receiver makes of it. *)
Record Sent := mkSent {
  sent_payload : bytes;
  sent_seq : SeqId;
  sent_decoded : EventBatch * Provenance * option HopTrace
}.

(** Within this listener's bounds, and decodable within its budget. *)
Definition deliverable (max : Z) (s : Sent) : Prop :=
  blen (sent_payload s) <= Z.min max MAX_SANE_UNCOMPRESSED_LEN /\ 1 <= seq_seq (sent_seq s) /\
  exists body, parse read_hop_prefix (sent_payload s) = Ok (sent_seq s, body) /\
    fst (decode_hop_body body (for_frame_cap max)) = Ok (sent_decoded s, []).

(** The frame on the wire. *)
Definition wire_frame (compression : Compression) (s : Sent) : bytes :=
  match write_frame CODEC_HOP_BATCH compression (sent_payload s) with Ok frame => frame | Err _ => [] end.

Section Delivery.
Context `{!FrameDepsOk D}.
#[local] Set Default Proof Using "Type*".

Lemma length_header_write h : length (header_write h) = Z.to_nat HEADER_LEN.
Proof. pose proof (blen_header_write h). unfold blen in *. lia. Qed.

Lemma wire_frame_eq max compression s :
  compression <> CompZstd -> deliverable max s ->
  wire_frame compression s =
  header_write (frame_header CODEC_HOP_BATCH compression 0 (sent_payload s)) ++ stored compression (sent_payload s).
Proof. intros Hz [Hp _]. unfold wire_frame, write_frame. rewrite write_frame_eq by (done || lia). done. Qed.

Lemma stored_compressed_bound compression payload bound :
  0 <= bound <= MAX_SANE_UNCOMPRESSED_LEN -> blen payload <= bound -> blen (stored compression payload) <= compressed_bound bound.
Proof.
  intros Hb Hp. destruct (lz4_compress_spec payload) as [Hl _]. pose proof (blen_nonneg payload).
  assert (blen payload / 255 <= bound / 255) by (apply Z.div_le_mono; lia).
  assert (0 <= bound / 255 <= bound) by (split; [apply Z.div_pos; lia|apply Z.div_le_upper_bound; lia]).
  assert (2 * MAX_SANE_UNCOMPRESSED_LEN + 16 < 2 ^ 32 - 1) by by compute.
  unfold compressed_bound, saturating_add_u32. destruct compression; simpl; lia.
Qed.

Lemma header_of_written codec compression flags payload :
  blen payload <= MAX_SANE_UNCOMPRESSED_LEN -> u8 codec -> u16 flags ->
  let h := frame_header codec compression flags payload in header_read (header_write h) = Ok (h, []).
Proof.
  intros Hp Hc Hf h. rewrite <- (app_nil_r (header_write h)). by apply header_read_write, frame_header_ok.
Qed.

(** A frame of another process, within the bound, is read whole. *)
Lemma read_frame_written max codec compression flags payload rest :
  blen payload <= Z.min max MAX_SANE_UNCOMPRESSED_LEN -> compression <> CompZstd -> u8 codec -> u16 flags ->
  let h := frame_header codec compression flags payload in
  read_frame_header (header_write h) max = inr h /\
  read_frame_rest (header_write h) max h (stored compression payload ++ rest) = inr (h, Whole payload, rest).
Proof.
  intros Hp Hz Hc Hf h. pose proof (blen_nonneg payload). split.
  - unfold read_frame_header, h. rewrite header_of_written by (done || lia).
    rewrite (proj2 (Z.ltb_ge _ _)); [done|]. apply stored_compressed_bound; lia.
  - assert (Z.to_nat (fh_compressed_len h) = length (stored compression payload)) as E by apply Nat2Z.id.
    unfold read_frame_rest. rewrite E, take_app_length, drop_app_length, length_app.
    change (fh_uncompressed_len h) with (blen payload).
    rewrite (proj2 (Nat.ltb_ge _ _)) by lia. rewrite (proj2 (Z.ltb_ge _ _)) by lia.
    rewrite <- (app_nil_r (header_write h ++ _)). unfold h. by rewrite read_written by (done || lia).
Qed.

(** ** A table with one sender *)

(** [m] is the sender's mark, 0 if it has none. *)
Definition one_sender (id : bytes) (m : Z) (t : SenderTable) : Prop :=
  1 <= capacity t /\ 0 <= m /\
  (m = 0 /\ entries t = ∅ \/ exists seen, entries t = {[id := mkEntry m seen]}).

Lemma one_sender_new id n : one_sender id 0 (table_new n).
Proof. unfold one_sender, table_new. cbn. split_and!; [lia|done|by left]. Qed.

Lemma one_sender_is_resend id m t seq :
  one_sender id m t -> seq_id seq = id -> 1 <= seq_seq seq ->
  exists t', is_resend t seq = (seq_seq seq <=? m, t') /\ one_sender id m t'.
Proof.
  intros (Hc & Hm & Ht) <- Hs. unfold is_resend. destruct Ht as [[-> He]|[seen He]]; rewrite He.
  - rewrite lookup_empty. eexists. rewrite (proj2 (Z.leb_gt _ _)) by lia. split; [done|]. split_and!; [done..|by left].
  - rewrite lookup_singleton_eq. eexists. split; [done|]. split_and!; [done..|]. right. eexists. cbn [entries mark].
    by rewrite insert_singleton_eq.
Qed.

Lemma one_sender_raise id m t seq :
  one_sender id m t -> seq_id seq = id -> 1 <= seq_seq seq -> one_sender id (Z.max m (seq_seq seq)) (fst (raise t seq)).
Proof.
  intros (Hc & Hm & Ht) <- Hs. unfold raise. destruct Ht as [[-> He]|[seen He]]; rewrite He.
  - rewrite lookup_empty, map_size_empty. rewrite (proj2 (Z.leb_gt _ _)) by lia. rewrite Z.max_r by lia.
    split_and!; [done|lia|]. right. eexists. cbn [fst entries]. by rewrite insert_empty.
  - rewrite lookup_singleton_eq. split_and!; [done|lia|]. right. eexists. cbn [fst entries mark]. by rewrite insert_singleton_eq.
Qed.

(** ** One turn over one frame *)

(** The frame was taken: forwarded if its number is past the mark [m], and the mark raised. *)
Definition took (m : Z) (s : Sent) (c c' : Conn) : Prop :=
  relayed c' = relayed c ++ (if seq_seq (sent_seq s) <=? m then [] else [(sent_seq s, sent_decoded s)]) /\
  one_sender (seq_id (sent_seq s)) (Z.max m (seq_seq (sent_seq s))) (table c') /\ unread c' = unread c.

(** Nothing happened that the sender's batches can show. *)
Definition idled (id : bytes) (m : Z) (c c' : Conn) : Prop :=
  relayed c' = relayed c /\ one_sender id m (table c').

Lemma flush_ack_frame c :
  let '(ok, c') := flush_ack c in
  table c' = table c /\ relayed c' = relayed c /\ unread c' = unread c /\ (outlook c = [] -> ok = true /\ outlook c' = []).
Proof.
  unfold flush_ack, write_control. destruct (owed c); [|done]. cbn [with_owed outlook].
  by destruct (outlook c) as [|[] ws].
Qed.

Lemma flush_if_frame (b : bool) c :
  let '(ok, c') := if b then flush_ack c else (true, c) in
  table c' = table c /\ relayed c' = relayed c /\ unread c' = unread c /\ (outlook c = [] -> ok = true /\ outlook c' = []).
Proof. destruct b; [apply flush_ack_frame|done]. Qed.

Lemma flush_then_reject_frame rj c :
  table (flush_then_reject rj c) = table c /\ relayed (flush_then_reject rj c) = relayed c.
Proof.
  unfold flush_then_reject. pose proof (flush_ack_frame c) as Hf. destruct (flush_ack c) as [[] c1]; [|by split; apply Hf].
  destruct Hf as (Ht & Hr & _). rewrite <- Ht, <- Hr. unfold write_control. by destruct (outlook c1) as [|[] ws].
Qed.

Lemma idled_reject id m rj c : one_sender id m (table c) -> idled id m c (flush_then_reject rj c).
Proof. intros Ho. destruct (flush_then_reject_frame rj c) as [Ht Hr]. unfold idled. by rewrite Ht, Hr. Qed.

Lemma take_batch_once m t s c :
  one_sender (seq_id (sent_seq s)) m (table c) -> 1 <= seq_seq (sent_seq s) ->
  exists r c', take_batch t (sent_seq s) (sent_decoded s) c = (r, c') /\
    (took m s c c' \/ r <> None /\ idled (seq_id (sent_seq s)) m c c') /\
    (batch_taken t = true -> outlook c = [] -> r = None /\ outlook c' = []).
Proof.
  intros Ho Hs. unfold take_batch.
  match goal with |- context [if ?b then flush_ack c else (true, c)] =>
    pose proof (flush_if_frame b c) as Hf; destruct (if b then flush_ack c else (true, c)) as [ok c1] end.
  destruct Hf as (Ht & Hr & Hu & Hout). destruct ok; cbn [negb].
  2:{ eexists _, _. split; [done|]. split; [right; unfold idled; by rewrite Ht, Hr|]. intros _ ?. by destruct (Hout H). }
  rewrite <- Ht in Ho. destruct (one_sender_is_resend _ _ _ _ Ho eq_refl Hs) as (t' & -> & Ho').
  set (resend := seq_seq (sent_seq s) <=? m) in *.
  destruct (negb resend && negb (batch_taken t)) eqn:Hb.
  { eexists _, _. split; [done|]. split.
    - right. split; [done|]. unfold idled. rewrite <- Hr. by apply (idled_reject _ _ _ (with_table t' c1)).
    - intros Hbt. rewrite Hbt, andb_false_r in Hb. done. }
  match goal with |- context [with_owed _ ?c] => set (c3 := c) end.
  assert (took m s c c3 /\ outlook c3 = outlook c1) as [Hk Ho3].
  { unfold took, c3, resend. destruct (Z.leb_spec (seq_seq (sent_seq s)) m); cbn; rewrite ?Hr, ?Hu, ?app_nil_r; split; try done.
    - rewrite Z.max_l by lia. done.
    - split_and!; [done| |done]. by apply one_sender_raise. }
  destruct (ACK_COALESCE_MAX <=? _).
  - match goal with |- context [flush_ack ?c] => pose proof (flush_ack_frame c) as Hf; destruct (flush_ack c) as [ok c5] end.
    destruct Hf as (Ht5 & Hr5 & Hu5 & Hout5). cbn in Ht5, Hr5, Hu5, Hout5. eexists _, _. split; [done|]. split.
    + left. unfold took. by rewrite Ht5, Hr5, Hu5.
    + intros _ Hc. destruct (Hout Hc) as [_ Hc1]. rewrite <- Ho3 in Hc1. by destruct (Hout5 Hc1) as [-> ->].
  - eexists _, _. split; [done|]. split; [by left|]. intros _ Hc. destruct (Hout Hc) as [_ Hc1]. split; [done|]. cbn. congruence.
Qed.

Lemma handle_frame_once max m t compression s c :
  deliverable max s -> one_sender (seq_id (sent_seq s)) m (table c) ->
  exists r c', handle_frame max t (frame_header CODEC_HOP_BATCH compression 0 (sent_payload s)) (Whole (sent_payload s)) c = (r, c') /\
    (took m s c c' \/ r <> None /\ idled (seq_id (sent_seq s)) m c c') /\
    (batch_taken t = true -> outlook c = [] -> r = None /\ outlook c' = []).
Proof.
  intros (_ & Hs & body & Hp & Hd) Ho. unfold handle_frame. cbn [frame_header fh_flags fh_codec]. rewrite Hp, Hd.
  by apply take_batch_once.
Qed.

(** A turn that nothing cuts short, whatever it has to wait for. *)
Definition calm (t : Turn) : Prop :=
  shutdown t = false /\ header_interrupt t = None /\ body_stalled t = false /\ batch_taken t = true.

(** The steps of a turn before its frame is read, with another of its process not in between. *)
Lemma frame_turn_start max id m t c :
  others t = [] -> one_sender id m (table c) ->
  exists r c', frame_turn max t c = (r, c') /\
    (r <> None /\ idled id m c c' /\ ~ calm t \/
     r <> None /\ idled id m c c' /\ outlook c <> [] \/
     exists c1, relayed c1 = relayed c /\ table c1 = table c /\ unread c1 = unread c /\ (outlook c = [] -> outlook c1 = []) /\
       (r, c') = match unread c1 with
                 | [] => (Some PeerClosed, c1)
                 | _ :: _ =>
                     if (length (unread c1) <? Z.to_nat HEADER_LEN)%nat then (Some (Failed "truncated_header"), c1)
                     else read_body max t (take (Z.to_nat HEADER_LEN) (unread c1)) (with_unread (drop (Z.to_nat HEADER_LEN) (unread c1)) c1)
                 end).
Proof.
  intros Hot Ho. unfold frame_turn. rewrite Hot. set (c0 := with_table (run (table c) []) c).
  destruct (shutdown t) eqn:Hsd.
  { eexists _, _. split; [done|]. left. split_and!; [done|by apply (idled_reject id m _ c0)|]. intros (? & _). congruence. }
  pose proof (flush_if_frame (negb (header_ready t)) c0) as Hf. rewrite if_negb in Hf.
  destruct (if header_ready t then (true, c0) else flush_ack c0) as [ok c1]. destruct Hf as (Ht & Hr & Hu & Hout).
  change (table c1 = table c) in Ht. change (relayed c1 = relayed c) in Hr. change (unread c1 = unread c) in Hu.
  assert (one_sender id m (table c1)) as Ho1 by by rewrite Ht. destruct ok; cbn [negb].
  2:{ eexists _, _. split; [done|]. right; left. split_and!; [done| |]; [unfold idled; by rewrite Ht, Hr|].
      intros Hc. by destruct (Hout Hc). }
  destruct (if header_ready t then None else header_interrupt t) as [i|] eqn:Hi.
  - assert (~ calm t) as Hnc.
    { intros (_ & Hn & _). rewrite Hn in Hi. by destruct (header_ready t). }
    destruct i; (eexists _, _; split; [done|]; left; split_and!; [done| |done]);
      [unfold idled; rewrite <- Hr; by apply (idled_reject id m _ c1)..|unfold idled; by rewrite Ht, Hr].
  - destruct (match unread c1 with [] => _ | _ => _ end) as [r c'] eqn:E. exists r, c'. split; [done|]. right; right.
    exists c1. split_and!; [done..| |done]. intros Hc. by destruct (Hout Hc).
Qed.

Lemma frame_turn_once max m t compression s c rest :
  compression <> CompZstd -> others t = [] -> deliverable max s -> one_sender (seq_id (sent_seq s)) m (table c) ->
  unread c = wire_frame compression s ++ rest ->
  exists r c', frame_turn max t c = (r, c') /\
    (took m s (with_unread rest c) c' \/ r <> None /\ idled (seq_id (sent_seq s)) m c c') /\
    (calm t -> outlook c = [] -> r = None /\ outlook c' = []).
Proof.
  intros Hz Hot Hd Ho Hun. destruct (frame_turn_start max _ m t c Hot Ho) as (r & c' & -> & Hcase). exists r, c'.
  split; [done|]. destruct Hcase as [(? & ? & ?)|[(? & ? & ?)|(c1 & Hr & Ht & Hu & Hout & E)]].
  { split; [by right|]. done. }
  { split; [by right|]. done. }
  set (h := frame_header CODEC_HOP_BATCH compression 0 (sent_payload s)).
  assert (take (Z.to_nat HEADER_LEN) (unread c1) = header_write h /\
          drop (Z.to_nat HEADER_LEN) (unread c1) = stored compression (sent_payload s) ++ rest /\
          (Z.to_nat HEADER_LEN <= length (unread c1))%nat) as (E1 & E2 & E3).
  { rewrite Hu, Hun, (wire_frame_eq max) by done. fold h. rewrite <- app_assoc, <- (length_header_write h).
    rewrite take_app_length, drop_app_length, length_app. split_and!; [done..|lia]. }
  assert (forall A (a b : A), match unread c1 with [] => a | _ :: _ => b end = b) as Hne.
  { intros A a b. destruct (unread c1); [by apply Nat.nle_succ_0 in E3|done]. }
  rewrite Hne, (proj2 (Nat.ltb_ge _ _)) in E by done. rewrite E1, E2 in E.
  destruct (read_frame_written max CODEC_HOP_BATCH compression 0 (sent_payload s) rest) as [Hh Hrest]; [apply Hd|done..|]. fold h in Hh, Hrest.
  unfold read_body in E. rewrite Hh in E. set (c2 := with_unread _ c1) in E.
  match type of E with context [if ?b then flush_ack c2 else (true, c2)] =>
    pose proof (flush_if_frame b c2) as Hf; destruct (if b then flush_ack c2 else (true, c2)) as [ok c3] end.
  destruct Hf as (Ht3 & Hr3 & Hu3 & Hout3). cbn in Ht3, Hr3, Hu3, Hout3.
  assert (one_sender (seq_id (sent_seq s)) m (table c3)) as Ho3 by by rewrite Ht3, Ht. destruct ok; cbn [negb] in E.
  2:{ injection E as -> ->. split; [right; split; [done|]; unfold idled; by rewrite Ht3, Hr3, Ht, Hr|].
      intros _ Hc. by destruct (Hout3 (Hout Hc)). }
  destruct (_ && body_stalled t) eqn:Hst.
  { injection E as -> ->. split.
    - right. split; [done|]. unfold idled. rewrite <- Hr, <- Hr3. by apply idled_reject.
    - intros (_ & _ & Hb & _). rewrite Hb, andb_false_r in Hst. done. }
  rewrite Hu3, Hrest in E.
  destruct (handle_frame_once max m t compression s (with_unread rest c3) Hd Ho3) as (r' & c'' & Eh & Hk & Hcalm).
  fold h in Eh. rewrite Eh in E. injection E as -> ->. split.
  - unfold took, idled in *. cbn in *. by rewrite Hr3, Hr in Hk.
  - intros (_ & _ & _ & Hb) Hc. apply Hcalm; [done|]. cbn. by apply Hout3, Hout.
Qed.

(** A frame cut short ends the connection, and nothing else happens. *)
Lemma frame_turn_cut max m id t compression s c ext :
  others t = [] -> compression <> CompZstd -> deliverable max s -> one_sender id m (table c) ->
  wire_frame compression s = unread c ++ ext -> ext <> [] ->
  exists r c', frame_turn max t c = (r, c') /\ r <> None /\ idled id m c c' /\
    (unread c = [] -> calm t -> outlook c = [] -> r = Some PeerClosed).
Proof.
  intros Hot Hz Hd Ho Hw Hext. destruct (frame_turn_start max id m t c Hot Ho) as (r & c' & -> & Hcase). exists r, c'.
  split; [done|]. destruct Hcase as [(? & ? & ?)|[(? & ? & ?)|(c1 & Hr & Ht & Hu & Hout & E)]]; [done..|].
  assert (idled id m c c1) as Hi by (unfold idled; by rewrite Hr, Ht).
  destruct (decide (unread c1 = [])) as [Hnil|Hnil]; [rewrite Hnil in E; by injection E as -> ->|].
  assert (forall A (a b : A), match unread c1 with [] => a | _ :: _ => b end = b) as Hmatch by (intros; by destruct (unread c1)).
  rewrite Hmatch in E. assert (unread c = [] -> False) as Hne by by rewrite <- Hu.
  destruct (Nat.ltb_spec (length (unread c1)) (Z.to_nat HEADER_LEN)) as [Hl|Hl]; [by injection E as -> ->|].
  set (h := frame_header CODEC_HOP_BATCH compression 0 (sent_payload s)). rewrite <- Hu in Hw.
  assert (take (Z.to_nat HEADER_LEN) (unread c1) = header_write h /\
          stored compression (sent_payload s) = drop (Z.to_nat HEADER_LEN) (unread c1) ++ ext) as [E1 E2].
  { rewrite (wire_frame_eq max) in Hw by done. fold h in Hw. rewrite <- (take_drop (Z.to_nat HEADER_LEN) (unread c1)), <- app_assoc in Hw.
    apply app_inj_1 in Hw as [<- <-]; [done|]. rewrite length_header_write, length_take. lia. }
  destruct (read_frame_written max CODEC_HOP_BATCH compression 0 (sent_payload s) []) as [Hh _]; [apply Hd|done..|]. fold h in Hh.
  unfold read_body in E. rewrite E1, Hh in E. set (c2 := with_unread _ c1) in E.
  match type of E with context [if ?b then flush_ack c2 else (true, c2)] =>
    pose proof (flush_if_frame b c2) as Hf; destruct (if b then flush_ack c2 else (true, c2)) as [ok c3] end.
  destruct Hf as (Ht3 & Hr3 & Hu3 & _). cbn in Ht3, Hr3, Hu3.
  assert (idled id m c c3) as Hi3 by (unfold idled; by rewrite Ht3, Hr3, Ht, Hr).
  destruct ok; cbn [negb] in E; [|by injection E as -> ->].
  destruct (_ && body_stalled t).
  { injection E as -> ->. split_and!; [done| |by intros]. unfold idled. rewrite <- Hr, <- Hr3. apply idled_reject, Hi3. }
  unfold read_frame_rest in E. rewrite (proj2 (Nat.ltb_lt _ _)) in E; [by injection E as -> ->|].
  rewrite Hu3. change (fh_compressed_len h) with (blen (stored compression (sent_payload s))).
  rewrite E2. unfold blen. rewrite Nat2Z.id, length_app. destruct ext; [done|simpl; lia].
Qed.

(** ** A frame over the cap *)

(** Where nothing cuts a turn short, it goes on to the frame. *)
Lemma frame_turn_reads max t c h bs :
  calm t -> others t = [] -> outlook c = [] -> unread c = header_write h ++ bs -> read_frame_header (header_write h) max = inr h ->
  exists c1, relayed c1 = relayed c /\ table c1 = table c /\ handled c1 = handled c /\ outlook c1 = [] /\
    (forall h' body rest, read_frame_rest (header_write h) max h bs = inr (h', body, rest) ->
     frame_turn max t c = handle_frame max t h' body (with_unread rest c1)).
Proof.
  intros (Hsd & Hint & Hst & _) Hot Hout Hu Hh. unfold frame_turn. rewrite Hot, Hsd, Hint. set (c0 := with_table (run (table c) []) c).
  pose proof (flush_if_answers (negb (header_ready t)) c0 Hout) as Ha. pose proof (flush_if_frame (negb (header_ready t)) c0) as Hf.
  rewrite if_negb in Ha, Hf. destruct (if header_ready t then (true, c0) else flush_ack c0) as [ok c1].
  destruct Ha as (-> & (Hout1 & _) & Hhan1 & _), Hf as (Ht1 & Hr1 & Hu1 & _). cbn [negb].
  replace (if header_ready t then None else None) with (@None Interrupt) by by destruct (header_ready t).
  change (unread c0) with (unread c) in Hu1. rewrite Hu in Hu1.
  pose proof (length_header_write h) as Hl. assert (forall A (a b : A), match unread c1 with [] => a | _ :: _ => b end = b) as Hne.
  { intros A a b. rewrite Hu1. by destruct (header_write h). }
  setoid_rewrite Hne. rewrite Hu1, length_app, <- Hl, take_app_length, drop_app_length, (proj2 (Nat.ltb_ge _ _)) by lia.
  unfold read_body. rewrite Hh. set (c2 := with_unread bs c1). set (waits := negb (body_ready t) && _).
  pose proof (flush_if_answers waits c2 Hout1) as Ha. pose proof (flush_if_frame waits c2) as Hf.
  destruct (if waits then flush_ack c2 else (true, c2)) as [ok c3].
  destruct Ha as (-> & (Hout3 & _) & Hhan3 & _), Hf as (Ht3 & Hr3 & Hu3 & _). rewrite Hst, andb_false_r. cbn [negb].
  exists c3. split_and!; [by rewrite Hr3|by rewrite Ht3|by rewrite Hhan3|done|].
  intros h' body rest Hrest. rewrite Hu3. cbn [c2 unread with_unread]. by rewrite Hrest.
Qed.

Lemma read_frame_oversize max compression flags payload rest :
  let bound := Z.min max MAX_SANE_UNCOMPRESSED_LEN in
  let h := frame_header CODEC_HOP_BATCH compression flags payload in
  bound < blen payload <= MAX_SANE_UNCOMPRESSED_LEN -> blen (stored compression payload) <= compressed_bound bound ->
  compression <> CompZstd -> u16 flags ->
  read_frame_header (header_write h) max = inr h /\
  exists message, read_frame_rest (header_write h) max h (stored compression payload ++ rest) =
    inr (h, Oversize (take (Z.to_nat HOP_PREFIX_MAX_LEN) payload) message, rest).
Proof.
  intros bound h Hp Hs Hz Hf. split.
  - unfold read_frame_header, h. rewrite header_of_written by (done || lia). by rewrite (proj2 (Z.ltb_ge _ _)).
  - assert (Z.to_nat (fh_compressed_len h) = length (stored compression payload)) as E by apply Nat2Z.id.
    eexists. unfold read_frame_rest. rewrite E, take_app_length, drop_app_length, length_app.
    change (fh_uncompressed_len h) with (blen payload). fold bound.
    rewrite (proj2 (Nat.ltb_ge _ _)) by lia. rewrite (proj2 (Z.ltb_lt _ _)) by lia.
    rewrite <- (app_nil_r (header_write h ++ _)). unfold h. by rewrite prefix_written by (done || lia).
Qed.

Lemma write_control_unread m c : unread (snd (write_control m c)) = unread c.
Proof. unfold write_control. by destruct (outlook c) as [|[] ws]. Qed.

(** A refusal, where the writes go out. *)
Lemma ack_rejected_outcome seq reason message c :
  outlook c = [] ->
  exists c', ack_rejected seq reason message c = (true, c') /\ unread c' = unread c /\ relayed c' = relayed c /\
    handled c' = handled c ++ [(seq, Refused reason)] /\ table c' = fst (raise (table c) seq) /\
    wrote c' = (wrote c ++ owed_ack c) ++ [CmAck (mkAck (seq_id seq) (seq_seq seq) (ack_status_rejected reason message))] /\
    owed c' = None.
Proof.
  intros Hout. rewrite ack_rejected_eq. set (c1 := handle seq (Refused reason) [] c). set (m := CmAck _).
  pose proof (flush_then_write_spec m c1) as Hw. pose proof (flush_ack_frame c1) as Hf.
  destruct (flush_ack c1) as [ok c2]. destruct Hf as (_ & _ & Hu & Hok). destruct (Hok Hout) as [-> _].
  pose proof (write_control_unread m c2) as Hu2. destruct (write_control m c2) as [ok c3].
  destruct Hw as [(Ht & Hr & Hh & Ho & k & Hk & Hall) Hn]. destruct (Ho Hout) as [-> _]. exists c3. rewrite (Hall eq_refl) in Hk.
  split_and!; [done|cbn in Hu2; by rewrite Hu2, Hu|rewrite Hr; apply app_nil_r|done|done|by rewrite Hk, app_assoc|done].
Qed.

(** The sender pair of a payload, from the prefix of it an oversize frame is cut to. *)
Lemma parse_hop_prefix_cut payload seq body :
  parse read_hop_prefix payload = Ok (seq, body) ->
  exists body', parse read_hop_prefix (take (Z.to_nat HOP_PREFIX_MAX_LEN) payload) = Ok (seq, body').
Proof.
  intros Hp. pose proof (hop_prefix_read_alone payload unlimited) as E. unfold parse in *. rewrite Hp in E.
  destruct (fst (read_hop_prefix (take _ payload) unlimited)) as [[seq' body']|e]; [|done]. injection E as ->. eauto.
Qed.

Lemma frame_turn_eof max m id t c :
  others t = [] -> one_sender id m (table c) -> unread c = [] ->
  exists r c', frame_turn max t c = (r, c') /\ r <> None /\ idled id m c c' /\ (calm t -> outlook c = [] -> r = Some PeerClosed).
Proof.
  intros Hot Ho Hn. destruct (frame_turn_start max id m t c Hot Ho) as (r & c' & -> & Hcase). exists r, c'.
  split; [done|]. destruct Hcase as [(? & ? & ?)|[(? & ? & ?)|(c1 & Hr & Ht & Hu & Hout & E)]]; [done..|].
  rewrite Hu, Hn in E. injection E as -> ->. unfold idled. by rewrite Hr, Ht.
Qed.

(** ** A sender's frames over one connection *)

Section Sender.
Context (max : Z) (compression : Compression) (id : bytes) (sents : list Sent).
Context (Hz : compression <> CompZstd).
Context (Hsents : forall i s, sents !! i = Some s -> deliverable max s /\ seq_id (sent_seq s) = id).
Context (Hasc : forall i j si sj, (i < j)%nat -> sents !! i = Some si -> sents !! j = Some sj ->
  seq_seq (sent_seq si) < seq_seq (sent_seq sj)).

(** The frames from the [i]-th on, end to end. *)
Definition wire (i : nat) : bytes := concat (map (wire_frame compression) (drop i sents)).

(** The receiver's mark once the first [d] batches were forwarded. *)
Definition mark_at (d : nat) : Z :=
  match d with
  | O => 0
  | S d => match sents !! d with Some s => seq_seq (sent_seq s) | None => 0 end
  end.

Definition received (s : Sent) : SeqId * (EventBatch * Provenance * option HopTrace) := (sent_seq s, sent_decoded s).

Lemma mark_past i d s : (i < d <= length sents)%nat -> sents !! i = Some s -> seq_seq (sent_seq s) <= mark_at d.
Proof.
  intros Hd Hs. destruct d as [|d]; [lia|]. simpl. destruct (lookup_lt_is_Some_2 sents d) as [s' Hs']; [lia|]. rewrite Hs'.
  destruct (decide (i = d)) as [->|Hne]; [assert (s = s') as -> by congruence; done|].
  apply Z.lt_le_incl, (Hasc i d); [lia|done..].
Qed.

Lemma mark_before d s : sents !! d = Some s -> mark_at d < seq_seq (sent_seq s).
Proof.
  intros Hs. destruct d as [|d]; simpl; [destruct (Hsents _ _ Hs) as ((_ & ? & _) & _); lia|].
  pose proof (lookup_lt_Some _ _ _ Hs). destruct (lookup_lt_is_Some_2 sents d) as [s' Hs']; [lia|]. rewrite Hs'.
  by apply (Hasc d (S d)); [lia|..].
Qed.

Lemma wire_next i s : sents !! i = Some s -> wire i = wire_frame compression s ++ wire (S i).
Proof. intros Hs. unfold wire. by rewrite (drop_S _ _ _ Hs). Qed.

Lemma wire_end i : (length sents <= i)%nat -> wire i = [].
Proof. intros Hi. unfold wire. by rewrite drop_ge. Qed.

(** The state between turns: [i] frames of the wire gone by, [d] batches forwarded, here or before. *)
Definition between (rel0 : list (SeqId * (EventBatch * Provenance * option HopTrace))) (d : nat) (c : Conn) : Prop :=
  (d <= length sents)%nat /\ one_sender id (mark_at d) (table c) /\ rel0 ++ relayed c = map received (take d sents).

Lemma between_idled rel0 d c c' : between rel0 d c -> idled id (mark_at d) c c' -> between rel0 d c'.
Proof. intros (Hd & _ & Hr) [Hr' Ho']. unfold between. by rewrite Hr'. Qed.

Lemma between_took rel0 i d s rest c c' :
  between rel0 d c -> (i <= d)%nat -> sents !! i = Some s -> took (mark_at d) s (with_unread rest c) c' ->
  exists d', (d <= d')%nat /\ (i < d')%nat /\ between rel0 d' c' /\ unread c' = rest.
Proof.
  intros (Hd & Ho & Hr) Hi Hs (Hr' & Ho' & Hu). cbn in Hr', Hu. destruct (Hsents _ _ Hs) as [_ Hid]. rewrite Hid in Ho'.
  destruct (decide (i = d)) as [->|Hne].
  - pose proof (mark_before d s Hs). pose proof (lookup_lt_Some _ _ _ Hs). exists (S d). split_and!; [lia..| |done].
    split; [lia|]. rewrite Z.max_r in Ho' by lia. split; [simpl; by rewrite Hs|].
    rewrite Hr', (proj2 (Z.leb_gt _ _)), app_assoc, Hr, (take_S_r _ _ _ Hs), map_app by lia. done.
  - pose proof (mark_past i d s ltac:(lia) Hs). exists d. split_and!; [lia..| |done]. split; [done|].
    rewrite Z.max_l in Ho' by lia. split; [done|]. by rewrite Hr', (proj2 (Z.leb_le _ _)), app_nil_r by lia.
Qed.

Lemma connection_once turns : forall c i d k rel0 e c',
  Forall (fun t => others t = []) turns -> unread c = take k (wire i) -> (i <= d)%nat -> between rel0 d c ->
  serve_frames max turns c = (e, c') ->
  exists d', (d <= d')%nat /\ between rel0 d' c' /\
    (Forall calm turns -> outlook c = [] -> (length (wire i) <= k)%nat -> (length sents - i < length turns)%nat ->
     d' = length sents /\ e = Some PeerClosed).
Proof.
  induction turns as [|t turns IH]; intros c i d k rel0 e c' Hot Hu Hid Hb; cbn [serve_frames].
  { intros [= <- <-]. exists d. split_and!; [lia|done|]. simpl. lia. }
  inversion Hot as [|? ? Ht Hts]; subst. pose proof Hb as (Hd & Ho & _).
  assert (forall r c1, frame_turn max t c = (Some r, c1) -> idled id (mark_at d) c c1 -> between rel0 d (snd (flush_ack c1))) as Hend.
  { intros r c1 _ Hi. pose proof (flush_ack_frame c1) as Hf. destruct (flush_ack c1) as [ok c2]. destruct Hf as (Ht2 & Hr2 & _).
    eapply between_idled; [done|]. unfold idled in *. cbn [snd]. by rewrite Ht2, Hr2. }
  destruct (sents !! i) as [s|] eqn:Hs; [|apply lookup_ge_None in Hs].
  2:{ rewrite wire_end, take_nil in Hu by done.
      destruct (frame_turn_eof max _ _ t c Ht Ho Hu) as ([r|] & c1 & E & Hr & Hi & Hp); [|done]. rewrite E. intros [= <- <-].
      exists d. split_and!; [lia|by eapply Hend|]. intros Hc Hou _ _. inversion Hc; subst. split; [lia|]. by apply Hp. }
  destruct (Hsents _ _ Hs) as [Hdel Hsid]. rewrite (wire_next _ _ Hs) in Hu |- *. set (f := wire_frame compression s) in *.
  destruct (Nat.le_gt_cases (length f) k) as [Hk|Hk].
  - rewrite take_app_ge in Hu by done. rewrite <- Hsid in Ho.
    destruct (frame_turn_once max _ t compression s c _ Hz Ht Hdel Ho Hu) as (r & c1 & E & Hk1 & Hcalm). rewrite E, Hsid in *.
    destruct Hk1 as [Hk1|[Hr Hi]].
    + destruct (between_took rel0 i d s _ c c1 Hb Hid Hs Hk1) as (d1 & Hd1 & Hi1 & Hb1 & Hu1). destruct r as [r|].
      * intros [= <- <-]. exists d1. split_and!; [done| |].
        { pose proof (flush_ack_frame c1) as Hf. destruct (flush_ack c1) as [ok c2]. destruct Hf as (Ht2 & Hr2 & _).
          unfold between in *. cbn [snd]. by rewrite Ht2, Hr2. }
        intros Hc Hou. inversion Hc; subst. by destruct (Hcalm ltac:(done) Hou).
      * intros Hsv. destruct (IH c1 (S i) d1 _ rel0 e c' Hts Hu1 ltac:(lia) Hb1 Hsv) as (d' & Hd' & Hb' & Hlast).
        exists d'. split_and!; [lia|done|]. intros Hc Hou Hlen Hn. inversion Hc; subst.
        destruct (Hcalm ltac:(done) Hou) as [_ Hou1]. rewrite length_app in Hlen. pose proof (lookup_lt_Some _ _ _ Hs).
        cbn [length] in Hn. apply Hlast; [done|done|lia|lia].
    + destruct r as [r|]; [|done]. intros [= <- <-]. exists d. split_and!; [lia|by eapply Hend|].
      intros Hc Hou. inversion Hc; subst. by destruct (Hcalm ltac:(done) Hou).
  - rewrite take_app_le in Hu by lia.
    assert (drop k f <> []) as Hcut.
    { intros Hn%(f_equal length). rewrite length_drop in Hn. apply Nat.sub_0_le in Hn. lia. }
    assert (f = unread c ++ drop k f) as Hf by by rewrite Hu, take_drop.
    destruct (frame_turn_cut max _ id t compression s c (drop k f) Ht Hz Hdel Ho Hf Hcut) as ([r|] & c1 & E & Hr & Hi & _); [|done].
    rewrite E. intros [= <- <-]. exists d. split_and!; [lia|by eapply Hend|]. rewrite length_app. lia.
Qed.

(** Any number of connections, one after the other. Each sends frames from one not past what was
    forwarded before it, and is cut anywhere, by either side and for whatever reason: [k] bytes of
    the frames arrive, and [turns] and [ws] are what its surroundings decide. *)
Inductive sessions : SenderTable -> list (SeqId * (EventBatch * Provenance * option HopTrace)) -> Prop :=
| sessions_new n : sessions (table_new n) []
| sessions_more t rel a k turns ws e c :
    sessions t rel -> (a <= length rel)%nat -> Forall (fun t => others t = []) turns ->
    serve_frames max turns (accept (take k (wire a)) t ws) = (e, c) -> sessions (table c) (rel ++ relayed c).

Lemma between_length rel0 d c : between rel0 d c -> length (rel0 ++ relayed c) = d.
Proof. intros (Hd & _ & ->). rewrite length_map, length_take. lia. Qed.

Lemma sessions_between t rel :
  sessions t rel -> forall bs ws, between rel (length rel) (accept bs t ws).
Proof.
  induction 1 as [n|t rel a k turns ws e c Hs IH Ha Hot Hsv]; intros bs ws'.
  - split_and!; [simpl; lia|apply one_sender_new|done].
  - destruct (connection_once turns (accept (take k (wire a)) t ws) a (length rel) k rel e c Hot eq_refl Ha (IH _ _) Hsv) as (d & _ & Hb & _).
    rewrite (between_length _ _ _ Hb). destruct Hb as (Hd & Ho & Hr). split_and!; [done..|].
    by rewrite <- Hr, app_nil_r.
Qed.

Lemma sessions_once t rel : sessions t rel -> rel = map received (take (length rel) sents).
Proof. intros Hs. destruct (sessions_between t rel Hs [] []) as (_ & _ & Hr). by rewrite app_nil_r in Hr. Qed.

Lemma sessions_all t rel a turns :
  sessions t rel -> (a <= length rel)%nat -> Forall (fun t => calm t /\ others t = []) turns ->
  (length sents - a < length turns)%nat ->
  exists c, serve_frames max turns (accept (wire a) t []) = (Some PeerClosed, c) /\ rel ++ relayed c = map received sents.
Proof.
  intros Hs Ha [Hc Hot]%Forall_and Hn.
  destruct (serve_frames max turns (accept (wire a) t [])) as [e c] eqn:Hsv.
  destruct (connection_once turns (accept (wire a) t []) a (length rel) (length (wire a)) rel e c Hot) as (d & _ & Hb & Hl);
    [symmetry; apply firstn_all|done|by apply sessions_between|done|].
  destruct (Hl Hc eq_refl ltac:(lia) Hn) as [-> ->]. exists c. split; [done|].
  destruct Hb as (_ & _ & ->). by rewrite take_ge.
Qed.
End Sender.
End Delivery.

End Connections.

(** ** Properties *)

(** C23: a frame over the listener's cap does not cost the sender its connection: if its compressed
    bytes are within what a frame at the cap may take, its pair is read from the first bytes of its
    payload, whatever the compression, and answered with a rejected [Ack] of its own, after the
    [Ack] owed for the frames before it; the mark is raised so that a resend is recognized, nothing
    is forwarded, and the next frame is read from where this one ends. *)
Theorem oversize_frame_refused_by_name {I : Interner} {Sm : Summaries} {D : FrameDeps} `{!FrameDepsOk D}
    (max : Z) (compression : Compression) (payload frame rest body : bytes) (seq : SeqId) (t : Turn) (c : Conn)
    (Hseq : parse read_hop_prefix payload = Ok (seq, body))
    (Hframe : write_frame CODEC_HOP_BATCH compression payload = Ok frame)
    (Hover : Z.min max MAX_SANE_UNCOMPRESSED_LEN < blen payload)
    (Hfits : blen frame <= HEADER_LEN + compressed_bound (Z.min max MAX_SANE_UNCOMPRESSED_LEN))
    (Hcalm : calm t) (Hothers : others t = []) (Hout : outlook c = []) (Hu : unread c = frame ++ rest) :
  exists c' message ms, frame_turn max t c = (None, c') /\ unread c' = rest /\ relayed c' = relayed c /\
    handled c' = handled c ++ [(seq, Refused ACK_REJECTED_TOO_LARGE)] /\ table c' = fst (raise (table c) seq) /\
    wrote c' = ms ++ [CmAck (mkAck (seq_id seq) (seq_seq seq) (ack_status_rejected ACK_REJECTED_TOO_LARGE message))] /\
    owed c' = None.
Proof.
  apply write_frame_inv in Hframe as (Hp & Hz & ->). rewrite blen_app, blen_header_write in Hfits.
  destruct (read_frame_oversize max compression 0 payload rest) as [Hh (message & Hr)]; [lia|lia|done|done|].
  rewrite <- app_assoc in Hu.
  destruct (frame_turn_reads max t c _ _ Hcalm Hothers Hout Hu Hh) as (c1 & Hr1 & Ht1 & Hh1 & Ho1 & Eturn).
  rewrite (Eturn _ _ _ Hr). destruct (parse_hop_prefix_cut payload seq body Hseq) as [body' Hcut].
  unfold handle_frame. cbn [frame_header fh_flags fh_codec]. rewrite Hcut.
  destruct (ack_rejected_outcome seq ACK_REJECTED_TOO_LARGE message (with_unread rest c1) Ho1) as (c' & -> & Hu' & Hr' & Hh' & Ht' & Hw' & Ho').
  exists c', message. eexists. split_and!; [done|done|by rewrite Hr'|by rewrite Hh', <- Hh1|by rewrite Ht', <- Ht1|exact Hw'|done].
Qed.

(** A payload of 30 bytes to a listener whose cap is 20. *)
Lemma oversize_frame_refused_by_name_witness :
  let seq := mkSeqId (repeat (z2b 9) 16) 1 in
  let payload := repeat (z2b 9) 16 ++ [z2b 1] ++ repeat (z2b 0) 13 in
  let frame := header_write (@frame_header literal_deps CODEC_HOP_BATCH CompLz4 0 payload) ++ @stored literal_deps CompLz4 payload in
  exists c' message ms,
    @frame_turn sender_interner sample_summaries literal_deps 20 quiet_turn (accept (frame ++ str "next") (table_new 4) []) = (None, c') /\
    unread c' = str "next" /\ relayed c' = [] /\ handled c' = [] ++ [(seq, Refused ACK_REJECTED_TOO_LARGE)] /\
    table c' = fst (raise (table_new 4) seq) /\
    wrote c' = ms ++ [CmAck (mkAck (seq_id seq) (seq_seq seq) (ack_status_rejected ACK_REJECTED_TOO_LARGE message))] /\
    owed c' = None.
Proof.
  intros seq payload frame.
  refine (oversize_frame_refused_by_name (D := literal_deps) 20 CompLz4 payload frame (str "next") (repeat (z2b 0) 13) seq quiet_turn
    (accept (frame ++ str "next") (table_new 4) []) _ _ _ _ _ _ _ _); first [by vm_compute|done].
Defined.

(** What a sender sends: a batch, where it came from, its trace and its name. *)
Record Hop `{Summaries} := mkHop {
  hop_batch : EventBatch;
  hop_provenance : Provenance;
  hop_trace : option HopTrace;
  hop_seq : SeqId
}.

#[global] Arguments mkHop {_} _ _ _ _.

Definition hop_payload (I : Interner) {Sm : Summaries} (x : Hop) : bytes :=
  encode_hop_batch (hop_batch x) (hop_provenance x) (hop_trace x) (hop_seq x).

(** The frame of a hop written in one process, and what another is to make of it. *)
Definition sent_hop (I1 I2 : Interner) {Sm : Summaries} (x : Hop) : Sent :=
  mkSent (hop_payload I1 x) (hop_seq x)
    (translate_batch I1 I2 (hop_batch x), translate_provenance I1 I2 (hop_provenance x), hop_trace x).

(** What a sender may send a listener of this frame cap: a well-formed hop whose payload is within
    the cap, and whose batch decodes within the budget the cap gives. *)
Definition sendable (I : Interner) {Sm : Summaries} (max : Z) (x : Hop) : bool :=
  encodable (hop_batch x) && provenance_ok (hop_provenance x) && option_ok hop_trace_ok (hop_trace x) && seq_ok (hop_seq x) &&
  (blen (hop_payload I x) <=? Z.min max MAX_SANE_UNCOMPRESSED_LEN) &&
  (batch_cost (hop_batch x) <=? remaining (for_frame_cap max)).

Lemma sendable_deliverable (I1 I2 : Interner) {Sm : Summaries} `{!SummariesOk Sm} max x :
  sendable I1 max x = true -> @deliverable I2 Sm max (sent_hop I1 I2 x).
Proof.
  destruct x as [b prov trace seq]. unfold sendable, hop_payload. cbn [hop_batch hop_provenance hop_trace hop_seq]. intros Hok.
  split_bools. apply Z.leb_le in H1, H0.
  assert (blen (@encode_hop_batch I1 Sm b prov trace seq) < 2 ^ 64) as Hlen.
  { assert (MAX_SANE_UNCOMPRESSED_LEN < 2 ^ 64) by by compute. lia. }
  assert (remaining (for_frame_cap max) <= U64_MAX) as Hrem.
  { unfold for_frame_cap, budget_new. cbn [remaining].
    assert (4 * MAX_SANE_UNCOMPRESSED_LEN <= U64_MAX) by by compute. lia. }
  destruct (decode_hop_body_written I1 I2 b prov trace seq (for_frame_cap max)) as (body & Eb & Hd); [done..|].
  split; [done|]. split.
  - cbn. unfold seq_ok in H2. split_bools. lia.
  - exists body. split; [|done]. cbn [sent_hop sent_payload sent_seq hop_payload hop_batch hop_provenance hop_trace hop_seq].
    unfold hop_payload. cbn [hop_batch hop_provenance hop_trace hop_seq]. rewrite Eb. rewrite Eb, blen_app in Hlen.
    apply parse_reads; [by apply reads_hop_prefix|]. pose proof (blen_nonneg body). lia.
Qed.


(** Two batches, over a connection cut after 100 bytes and then a whole one. *)
Definition sample_hops : list (@Hop sample_summaries) :=
  map (fun n : Z => mkHop sample_batch sample_provenance None (mkSeqId (seq_id sample_seq) n)) [1; 2].

