(* ===== verification/Handshake.v ===== *)
(** * The handshake

    [handshake] of crates/logit-inputs/src/logit.rs: the [Hello] read off the bytes that arrive before
    the handshake's deadline, and the [HelloAck] or [Reject] it is answered with. *)

From Stdlib Require Import Ascii.
From stdpp Require Import pretty.
From S2P Require Import Prelude Codec Budget Reader Utf8 Model Instances Batch Frame Control Senders Receiver Delivery.

#[local] Open Scope wire_scope.

Abbreviation RECEIVER_MAX_WINDOW := (1024)%Z.

(** The reply to a [Hello], and the compression negotiated when it is a [HelloAck]. *)
Definition negotiate (max_frame_bytes : Z) (senders : SenderTable) (hello : Hello) :
    ControlMessage * option Compression :=
  if negb (he_version hello =? PROTOCOL_VERSION) then
    (CmReject (mkReject REJECT_VERSION_MISMATCH
       (str ("this listener speaks connection-protocol version " +:+ pretty PROTOCOL_VERSION +:+
             ", client offered " +:+ pretty (he_version hello)))), None)
  else if negb (existsb (fun c => b2z c =? CODEC_HOP_BATCH) (he_codecs hello)) then
    (CmReject (mkReject REJECT_NO_COMMON_CODEC (str "this listener speaks the native hop codec")), None)
  else
    let compression :=
      if existsb (fun c => b2z c =? compression_u8 CompLz4) (he_compressions hello) then CompLz4 else CompNone in
    (CmHelloAck (mkHelloAck PROTOCOL_VERSION CODEC_HOP_BATCH (compression_u8 compression) max_frame_bytes
       (Z.min (he_window hello) RECEIVER_MAX_WINDOW) (marks senders (he_senders hello))), Some compression).

(** ** The handshake, from the bytes that arrive before its deadline *)

Inductive Handshake :=
| Silent                             (* not a byte of a [Hello] *)
| NoHello (reason : string)          (* an error, with no reply *)
| Answered (reply : ControlMessage) (negotiated : option Compression) (rest : bytes).

Definition handshake `{FrameDeps} (max_frame_bytes : Z) (senders : SenderTable) (closed : bool) (bs : bytes) : Handshake :=
  let n := Z.to_nat HEADER_LEN in
  match bs with
  | [] => if closed then NoHello "connection closed before sending Hello" else Silent
  | _ :: _ =>
      if (length bs <? n)%nat then NoHello "no whole header"
      else
        let header_buf := take n bs in
        let over := match header_read header_buf with
                    | Ok (header, _) => MAX_CONTROL_MESSAGE_BYTES <? fh_compressed_len header
                    | Err _ => false
                    end in
        if over then NoHello "Hello over the control message cap"
        else
          match read_frame_header header_buf MAX_CONTROL_MESSAGE_BYTES with
          | inl _ => NoHello "header"
          | inr header =>
              match read_frame_rest header_buf MAX_CONTROL_MESSAGE_BYTES header (drop n bs) with
              | inl _ => NoHello "body"
              | inr (_, Oversize _ _, _) => NoHello "Hello is over the control message cap"
              | inr (header, Whole payload, rest) =>
                  if Z.land (fh_flags header) FLAG_CONTROL =? 0 then NoHello "expected a control frame"
                  else
                    match hello_decode payload with
                    | Err _ => NoHello "unparseable control message"
                    | Ok hello =>
                        let '(reply, negotiated) := negotiate max_frame_bytes senders hello in
                        Answered reply negotiated rest
                    end
              end
          end
  end.


(** ** The text of a rejection *)

Fixpoint is_ascii (s : string) : bool :=
  match s with
  | EmptyString => true
  | String a s => (N_of_ascii a <? 128)%N && is_ascii s
  end.

Lemma is_ascii_app s1 s2 : is_ascii (s1 +:+ s2) = is_ascii s1 && is_ascii s2.
Proof. induction s1 as [|a s1 IH]; [done|]. change (String a s1 +:+ s2) with (String a (s1 +:+ s2)). simpl. rewrite IH. by rewrite andb_assoc. Qed.

Lemma is_ascii_pretty_go x : forall s, is_ascii s = true -> is_ascii (pretty_N_go x s) = true.
Proof.
  induction (N.lt_wf_0 x) as [x _ IH]. intros s Hs. destruct (decide (0 < x)%N) as [Hx|Hx].
  - rewrite pretty_N_go_step by done. apply IH; [by apply N.div_lt|]. simpl. rewrite Hs, andb_true_r.
    unfold pretty_N_char. by repeat case_match.
  - assert (x = 0)%N as -> by lia. done.
Qed.

Lemma is_ascii_pretty (z : Z) : is_ascii (pretty z) = true.
Proof.
  assert (forall x : N, is_ascii (pretty x) = true) as Hn.
  { intros x. unfold pretty, pretty_N. destruct (decide (x = 0)%N); [done|by apply is_ascii_pretty_go]. }
  destruct z; [done| |]; unfold pretty, pretty_Z; rewrite ?is_ascii_app; apply Hn.
Qed.

Lemma utf8_valid_ascii s : is_ascii s = true -> utf8_valid (str s) = true.
Proof.
  induction s as [|a s IH]; [done|]. simpl. intros [Ha Hs]%andb_true_iff.
  assert ((b2z (Ascii.byte_of_ascii a) <? 0x80) = true) as ->; [|by apply IH].
  clear -Ha. destruct a as [[] [] [] [] [] [] [] []]; done.
Qed.

Lemma blen_str_app s1 s2 : blen (str (s1 +:+ s2)) = blen (str s1) + blen (str s2).
Proof.
  induction s1 as [|a s1 IH]; [done|]. change (String a s1 +:+ s2) with (String a (s1 +:+ s2)).
  simpl. rewrite !blen_cons, IH. lia.
Qed.

Lemma blen_pretty_go k : forall x s, (x < 10 ^ N.of_nat k)%N -> blen (str (pretty_N_go x s)) <= Z.of_nat k + blen (str s).
Proof.
  induction k as [|k IH]; intros x s Hx.
  - assert (x = 0)%N as -> by (simpl in Hx; lia). done.
  - destruct (decide (0 < x)%N) as [Hp|Hp]; [|assert (x = 0)%N as -> by lia; rewrite pretty_N_go_0; lia].
    rewrite pretty_N_go_step by done. etrans; [apply IH|simpl str; rewrite blen_cons; lia].
    apply N.Div0.div_lt_upper_bound. rewrite Nat2N.inj_succ, N.pow_succ_r in Hx by lia. lia.
Qed.

(** A number on the wire takes five digits at most. *)
Lemma blen_pretty_u16 z : u16 z -> blen (str (pretty z)) <= 5.
Proof.
  intros [H0 H1]. destruct z as [|p|p]; [done| |lia]. unfold pretty, pretty_Z, pretty, pretty_positive, pretty, pretty_N.
  destruct (decide (N.pos p = 0)%N); [done|]. apply (blen_pretty_go 5 _ EmptyString). change (10 ^ N.of_nat 5)%N with 100000%N. lia.
Qed.

Lemma reject_text_ok code s : unsigned_b 16 code = true -> is_ascii s = true -> blen (str s) <= MAX_REJECT_MESSAGE_BYTES ->
  reject_ok (mkReject code (str s)) = true.
Proof.
  intros Hc Ha Hl. unfold reject_ok, message_text_ok. cbn [rej_code rej_message].
  rewrite Hc, utf8_valid_ascii by done. rewrite (proj2 (Z.leb_le _ _)) by done. done.
Qed.

(** ** The reply *)

Lemma marks_ok_table senders ids :
  (forall id e, entries senders !! id = Some e -> u64 (mark e)) -> forallb id_ok ids = true ->
  forallb mark_ok (marks senders ids) = true /\ (length (marks senders ids) <= length ids)%nat.
Proof.
  intros Hm. induction ids as [|id ids IH]; [done|]. simpl. intros [Hid Hids]%andb_true_iff. destruct (IH Hids) as [IH1 IH2].
  unfold marks in *. simpl. destruct (entries senders !! id) as [e|] eqn:E; simpl; [|split; [done|lia]].
  split; [|lia]. rewrite IH1, andb_true_r. unfold mark_ok, unsigned_b. cbn [fst snd]. rewrite Hid.
  apply bool_decide_eq_true_2. by eapply Hm.
Qed.

Lemma negotiate_ok max senders hello :
  hello_ok hello = true -> u32 max -> (forall id e, entries senders !! id = Some e -> u64 (mark e)) ->
  control_ok (negotiate max senders hello).1 = true.
Proof.
  unfold hello_ok. intros Hok Hmax Hm. ok_facts.
  match goal with
  | E : u16 (he_version hello), E' : u32 (he_window hello), E'' : forallb id_ok _ = true |- _ =>
      rename E into Hver, E' into Hwin, E'' into Hids end.
  unfold negotiate.
  destruct (Z.eqb_spec (he_version hello) PROTOCOL_VERSION) as [Hv|Hv]; cbn [negb fst].
  2:{ apply reject_text_ok; [done|by rewrite !is_ascii_app, !is_ascii_pretty|]. rewrite !blen_str_app.
      pose proof (blen_pretty_u16 _ Hver).
      pose proof (blen_pretty_u16 PROTOCOL_VERSION ltac:(by split)).
      change (blen (str "this listener speaks connection-protocol version ")) with 49.
      change (blen (str ", client offered ")) with 17. change MAX_REJECT_MESSAGE_BYTES with 1024. lia. }
  destruct (existsb _ (he_codecs hello)); cbn [negb fst]; [|by apply reject_text_ok].
  set (comp := if existsb _ _ then CompLz4 else CompNone).
  destruct (marks_ok_table senders (he_senders hello) Hm Hids) as [Hmk Hlen].
  cbn [control_ok]. unfold hello_ack_ok. cbn [ha_version ha_codec ha_compression ha_max_frame_bytes ha_window ha_marks].
  destruct Hwin as [Hw0 Hw1].
  rewrite Hmk, (proj2 (Z.leb_le _ MAX_HELLO_SENDERS)), (proj2 (Z.leb_le 1 _)) by (lia).
  unfold unsigned_b. rewrite (bool_decide_eq_true_2 (unsigned 32 max)) by done.
  rewrite (bool_decide_eq_true_2 (unsigned 32 (Z.min _ _))) by (split; lia).
  by destruct comp.
Qed.

Lemma read_hello `{!FrameDepsOk D} max senders closed hello rest :
  hello_ok hello = true ->
  let h := frame_header 0 CompNone FLAG_CONTROL (hello_encode hello) in
  handshake max senders closed ((header_write h ++ stored CompNone (hello_encode hello)) ++ rest) =
  Answered (negotiate max senders hello).1 (negotiate max senders hello).2 rest.
Proof.
  intros Hok h. pose proof (hello_len hello Hok) as Hl. pose proof (blen_nonneg (hello_encode hello)).
  assert (315 <= Z.min MAX_CONTROL_MESSAGE_BYTES MAX_SANE_UNCOMPRESSED_LEN /\ 315 <= MAX_CONTROL_MESSAGE_BYTES /\
    315 <= MAX_SANE_UNCOMPRESSED_LEN) as (Hc1 & Hc2 & Hc3) by by compute.
  unfold handshake. pose proof (length_header_write h) as Hh. rewrite <- app_assoc.
  destruct (header_write h ++ _) as [|x xs] eqn:Ex; [by destruct (header_write h)|]. rewrite <- Ex.
  rewrite length_app, <- Hh, (proj2 (Nat.ltb_ge _ _)), take_app_length, drop_app_length by lia.
  unfold h at 1. rewrite header_of_written by (done || lia). fold h.
  change (fh_compressed_len h) with (blen (hello_encode hello)). rewrite (proj2 (Z.ltb_ge _ _)) by lia.
  destruct (read_frame_written MAX_CONTROL_MESSAGE_BYTES 0 CompNone FLAG_CONTROL (hello_encode hello) rest) as [E1 E2];
    [lia|done|by split|by split|]. fold h in E1, E2. rewrite E1, E2.
  change (Z.land (fh_flags h) FLAG_CONTROL =? 0) with false.
  rewrite (proj2 (proj1 (typed_decoders_agree _) hello)) by by apply hello_round.
  by destruct (negotiate max senders hello).
Qed.

(** C22: a client's [Hello] is always answered. A well-formed [Hello], framed as a client frames it,
    is read off the front of what arrives, whatever follows it, and the reply is a well-formed
    control message: framed and read by the client, it decodes to itself, within the control cap. *)
Theorem handshake_answers_hello {D : FrameDeps} `{!FrameDepsOk D} (max : Z) (senders : SenderTable) (closed : bool)
    (hello : Hello) (frame rest : bytes) (Hok : hello_ok hello = true) (Hmax : u32 max)
    (Hmarks : forall id e, entries senders !! id = Some e -> u64 (mark e))
    (Hframe : write_frame_with_flags 0 CompNone FLAG_CONTROL (hello_encode hello) = Ok frame) :
  exists reply negotiated, handshake max senders closed (frame ++ rest) = Answered reply negotiated rest /\
    (reply, negotiated) = negotiate max senders hello /\
    exists reply_frame header, write_frame_with_flags 0 CompNone FLAG_CONTROL (control_encode reply) = Ok reply_frame /\
      read_frame_with_header reply_frame = Ok (header, control_encode reply, []) /\
      blen (control_encode reply) <= MAX_CONTROL_MESSAGE_BYTES /\ control_decode (control_encode reply) = Ok reply.
Proof.
  apply write_frame_inv in Hframe as (_ & _ & ->). rewrite read_hello by done.
  pose proof (negotiate_ok max senders hello Hok Hmax Hmarks) as Hr.
  destruct (negotiate max senders hello) as [reply negotiated]. cbn [fst snd] in *. exists reply, negotiated.
  split; [done|]. split; [done|]. pose proof (control_len reply Hr) as Hlen.
  assert (max_message_len reply <= MAX_CONTROL_MESSAGE_BYTES) as Hm by by destruct reply.
  assert (MAX_CONTROL_MESSAGE_BYTES <= MAX_SANE_UNCOMPRESSED_LEN) as Hs by by compute.
  eexists _, _. split; [apply write_frame_eq; [lia|done]|]. split_and!; [|lia|by apply control_round].
  rewrite <- (app_nil_r (header_write _ ++ _)). apply read_written; [lia|done|by split|by split].
Qed.

Lemma handshake_answers_hello_witness :
  let hello := mkHello 1 [z2b 2] [z2b 1] 1000000 64 [repeat (z2b 9) 16] in
  let frame := header_write (@frame_header literal_deps 0 CompNone FLAG_CONTROL (hello_encode hello)) ++ hello_encode hello in
  exists reply negotiated,
    @handshake literal_deps 1000000 (table_new 4) false (frame ++ str "next") = Answered reply negotiated (str "next") /\
    (reply, negotiated) = negotiate 1000000 (table_new 4) hello /\
    exists reply_frame header,
      @write_frame_with_flags literal_deps 0 CompNone FLAG_CONTROL (control_encode reply) = Ok reply_frame /\
      @read_frame_with_header literal_deps reply_frame = Ok (header, control_encode reply, []) /\
      blen (control_encode reply) <= MAX_CONTROL_MESSAGE_BYTES /\ control_decode (control_encode reply) = Ok reply.
Proof.
  intros hello frame. apply (handshake_answers_hello (D := literal_deps) 1000000 (table_new 4) false hello frame (str "next")).
  - done.
  - by split.
  - intros id e He. change (entries (table_new 4)) with (∅ : gmap bytes Entry) in He. by rewrite lookup_empty in He.
  - by vm_compute.
Defined.
