(* ===== verification/Acks.v ===== *)
(** * What a run of acknowledgements answers

    The messages a connection of [Receiver] writes, against the frames it handled
    (crates/logit-inputs/src/logit.rs, [frame_loop], [PendingAck], [flush_ack], [ack_rejected] and
    [flush_then_reject]): in the order of the frames, each accepted [Ack] answers a run of one
    sender's frames and names the last of them, each rejected [Ack] answers the one frame it names,
    and a [Reject] leaves no frame before it without an answer. *)

From S2P Require Import Prelude Codec Budget Reader Utf8 Model Instances Batch Frame Control Senders Receiver.

#[local] Open Scope wire_scope.

(** Forwarded, or recognized as resent. *)
Definition settles (f : Fate) : bool := match f with Refused _ => false | _ => true end.

(** A run that an accepted [Ack] naming [seq] answers. *)
Definition run_of (seq : SeqId) (run : list (SeqId * Fate)) : Prop :=
  Forall (fun p => seq_id p.1 = seq_id seq /\ settles p.2 = true) run /\ exists f, last run = Some (seq, f).

(** [ms] answers the frames [h], all of them and in order. *)
Inductive answers_all : list (SeqId * Fate) -> list ControlMessage -> Prop :=
| answers_none : answers_all [] []
| answers_run seq run h ms :
    run_of seq run -> answers_all h ms ->
    answers_all (run ++ h) (CmAck (ack_accepted (seq_id seq) (seq_seq seq)) :: ms)
| answers_refused seq reason message h ms :
    u16 reason -> answers_all h ms ->
    answers_all ((seq, Refused reason) :: h)
      (CmAck (mkAck (seq_id seq) (seq_seq seq) (ack_status_rejected reason message)) :: ms).

(** What a connection's messages say of the frames it handled: the first of them are answered, and a
    [Reject] comes last and leaves none unanswered. *)
Definition answers_in_order (h : list (SeqId * Fate)) (ms : list ControlMessage) : Prop :=
  exists answered unanswered acks, h = answered ++ unanswered /\ answers_all answered acks /\
    (ms = acks \/ unanswered = [] /\ exists rj, ms = acks ++ [CmReject rj]).

Lemma answers_all_app h ms h' ms' : answers_all h ms -> answers_all h' ms' -> answers_all (h ++ h') (ms ++ ms').
Proof. induction 1; intros Hb; rewrite <- ?app_assoc; simpl; [done|constructor; auto..]. Qed.

Lemma answers_all_run h ms seq run :
  answers_all h ms -> run_of seq run -> answers_all (h ++ run) (ms ++ [CmAck (ack_accepted (seq_id seq) (seq_seq seq))]).
Proof.
  intros Ha Hr. apply answers_all_app; [done|]. rewrite <- (app_nil_r run). constructor; [done|constructor].
Qed.

Lemma run_of_snoc seq run f :
  Forall (fun p => seq_id p.1 = seq_id seq /\ settles p.2 = true) run -> settles f = true -> run_of seq (run ++ [(seq, f)]).
Proof. intros Hr Hf. split; [|exists f; by rewrite last_snoc]. apply Forall_app. split; [done|]. by constructor. Qed.

Section Acks.
Context {I : Interner} {Sm : Summaries} {D : FrameDeps}.

(** A connection in its loop: every frame handled is answered, but for those of the run owed. *)
Definition live (c : Conn) : Prop :=
  exists h run, handled c = h ++ run /\ answers_all h (wrote c) /\
    match owed c with None => run = [] | Some p => run_of (run_seq p) run end.

(** A connection that owes nothing any more. *)
Definition over (c : Conn) : Prop := owed c = None /\ answers_in_order (handled c) (wrote c).

Lemma over_cut c : owed c = None -> (exists h run, handled c = h ++ run /\ answers_all h (wrote c)) -> over c.
Proof. intros Ho (h & run & Hh & Ha). split; [done|]. exists h, run, (wrote c). auto. Qed.

Lemma live_in_order c : live c -> answers_in_order (handled c) (wrote c).
Proof. intros (h & run & Hh & Ha & _). exists h, run, (wrote c). auto. Qed.

Lemma write_control_exact m c :
  let '(ok, c') := write_control m c in
  handled c' = handled c /\ owed c' = owed c /\ wrote c' = wrote c ++ (if ok then [m] else []).
Proof. unfold write_control. destruct (outlook c) as [|[] ws]; cbn; by rewrite ?app_nil_r. Qed.

Lemma flush_ack_live c :
  live c -> let '(ok, c') := flush_ack c in
  handled c' = handled c /\ owed c' = None /\ (if ok then live c' else over c').
Proof.
  intros (h & run & Hh & Ha & Hr). unfold flush_ack. destruct (owed c) as [p|] eqn:Ho.
  - match goal with |- context [write_control ?m ?c1] =>
      pose proof (write_control_exact m c1) as Hw; destruct (write_control m c1) as [ok c'] end.
    cbn in Hw. destruct Hw as (Hh' & Ho' & Hw). split_and!; [done..|]. destruct ok.
    + exists (h ++ run), []. rewrite Ho', Hw, Hh', Hh, app_nil_r. split_and!; try done. by apply answers_all_run.
    + apply over_cut; [done|]. exists h, run. by rewrite Hw, Hh', app_nil_r.
  - split_and!; [done..|]. exists h, run. by rewrite Ho.
Qed.

Lemma flush_if_live (b : bool) c :
  live c -> let '(ok, c') := if b then flush_ack c else (true, c) in
  handled c' = handled c /\ (b = true -> owed c' = None) /\ (b = false -> c' = c) /\ (if ok then live c' else over c').
Proof.
  intros Hl. destruct b; [|done]. pose proof (flush_ack_live c Hl) as Hf. destruct (flush_ack c) as [ok c'].
  destruct Hf as (? & ? & ?). done.
Qed.

Lemma live_owes_none c : live c -> owed c = None -> answers_all (handled c) (wrote c).
Proof. intros (h & run & Hh & Ha & Hr) Ho. rewrite Ho in Hr. subst run. by rewrite Hh, app_nil_r. Qed.

Lemma flush_then_reject_over rj c : live c -> over (flush_then_reject rj c).
Proof.
  intros Hl. unfold flush_then_reject. pose proof (flush_ack_live c Hl) as Hf.
  destruct (flush_ack c) as [[] c1]; destruct Hf as (Hh & Ho & Hl1); [|done].
  pose proof (live_owes_none c1 Hl1 Ho) as Ha. pose proof (write_control_exact (CmReject rj) c1) as Hw.
  destruct (write_control (CmReject rj) c1) as [ok c2]. cbn [snd]. destruct Hw as (Hh2 & Ho2 & Hw).
  split; [congruence|]. exists (handled c2), [], (wrote c1). rewrite app_nil_r, Hh2. split_and!; [done..|].
  destruct ok; [right; eauto|left]. by rewrite Hw, app_nil_r.
Qed.

(** How a turn leaves it. *)
Definition left_by (r : option Ended) (c : Conn) : Prop := live c \/ r <> None /\ over c.

Lemma ack_rejected_live seq reason message c :
  u16 reason -> live c -> let '(ok, c') := ack_rejected seq reason message c in left_by (if ok then None else Some (Failed "ack write")) c'.
Proof.
  intros Hu Hl. rewrite ack_rejected_eq. unfold flush_ack. change (owed (handle seq (Refused reason) [] c)) with (owed c).
  destruct Hl as (h & run & Hh & Ha & Hr).
  set (m := CmAck (mkAck (seq_id seq) (seq_seq seq) (ack_status_rejected reason message))).
  assert (forall c1, handled c1 = handled c ++ [(seq, Refused reason)] -> owed c1 = None -> answers_all (handled c) (wrote c1) ->
    let '(ok, c') := write_control m c1 in left_by (if ok then None else Some (Failed "ack write")) c') as Hlast.
  { intros c1 Hh1 Ho1 Ha1. pose proof (write_control_exact m c1) as Hw. destruct (write_control m c1) as [ok c'].
    destruct Hw as (Hh' & Ho' & Hw). destruct ok.
    - left. exists (handled c'), []. rewrite Ho', Ho1, Hw, Hh', Hh1, app_nil_r. split_and!; try done.
      apply answers_all_app; [done|]. constructor; [done|constructor].
    - right. split; [done|]. apply over_cut; [congruence|]. exists (handled c), [(seq, Refused reason)].
      by rewrite Hw, Hh', Hh1, app_nil_r. }
  destruct (owed c) as [p|] eqn:Ho.
  - match goal with |- context [write_control ?a ?c1] =>
      pose proof (write_control_exact a c1) as Hw; destruct (write_control a c1) as [ok c'] end.
    cbn in Hw. destruct Hw as (Hh' & Ho' & Hw). destruct ok.
    + apply Hlast; [done..|]. rewrite Hw, Hh. by apply answers_all_run.
    + right. split; [done|]. apply over_cut; [done|]. exists h, (run ++ [(seq, Refused reason)]).
      by rewrite Hw, Hh', Hh, app_nil_r, app_assoc.
  - apply Hlast; [done..|]. cbn. subst run. by rewrite Hh, app_nil_r.
Qed.

(** A frame that joins the run owed to its own sender. *)
Lemma live_joins seq f frames c1 c :
  live c -> settles f = true -> (forall p, owed c = Some p -> seq_id (run_seq p) = seq_id seq) ->
  handled c1 = handled c ++ [(seq, f)] -> wrote c1 = wrote c -> live (with_owed (Some (mkPendingAck seq frames)) c1).
Proof.
  intros (h & run & Hh & Ha & Hr) Hf Hid Hh1 Hw1. exists h, (run ++ [(seq, f)]). cbn.
  rewrite Hh1, Hw1, Hh, app_assoc. split_and!; [done..|]. apply run_of_snoc; [|done].
  destruct (owed c) as [p|]; [|by subst run]. specialize (Hid p eq_refl). destruct Hr as [Hr _].
  eapply Forall_impl; [done|]. intros q [??]. split; [congruence|done].
Qed.

Lemma take_batch_live t seq decoded c r c' : live c -> take_batch t seq decoded c = (r, c') -> left_by r c'.
Proof.
  intros Hl. unfold take_batch.
  match goal with |- context [if ?b then flush_ack c else (true, c)] =>
    pose proof (flush_if_live b c Hl) as Hf; destruct (if b then flush_ack c else (true, c)) as [[] c1] eqn:Hb end;
    destruct Hf as (Hh & Hn & Hsame & Hl1); cbn [negb]; [|intros [= <- <-]; by right].
  assert (forall p, owed c1 = Some p -> seq_id (run_seq p) = seq_id seq) as Hown.
  { intros p Hp. destruct (owed c) as [p0|] eqn:Hc; [|specialize (Hsame eq_refl); congruence].
    case_bool_decide as Hid; [rewrite (Hn eq_refl) in Hp; done|].
    specialize (Hsame eq_refl). subst c1. rewrite Hc in Hp. injection Hp as <-.
    destruct (decide (seq_id (run_seq p0) = seq_id seq)); [done|by destruct Hid]. }
  destruct (is_resend (table c1) seq) as [resend senders]. set (c2 := with_table senders c1).
  assert (live c2) as Hl2 by exact Hl1.
  destruct (negb resend && negb (batch_taken t)); [intros [= <- <-]; right; split; [done|by apply flush_then_reject_over]|].
  match goal with |- context [with_owed ?o ?c] => set (c4 := with_owed o c) end.
  assert (live c4) as Hl4.
  { unfold c4. destruct resend; [apply (live_joins seq Resent _ _ c2)|apply (live_joins seq Forwarded _ _ c2)]; done. }
  destruct (ACK_COALESCE_MAX <=? _); [|intros [= <- <-]; by left].
  pose proof (flush_ack_live c4 Hl4) as Hf. destruct (flush_ack c4) as [[] c5]; destruct Hf as (_ & _ & Hf);
    intros [= <- <-]; [by left|by right].
Qed.

Lemma handle_frame_live max t header body c r c' : live c -> handle_frame max t header body c = (r, c') -> left_by r c'.
Proof.
  intros Hl. unfold handle_frame.
  assert (forall seq reason message, u16 reason -> (let '(ok, c1) := ack_rejected seq reason message c in
    (if ok then None else Some (Failed "ack write"), c1)) = (r, c') -> left_by r c') as Hrej.
  { intros seq reason message Hu. pose proof (ack_rejected_live seq reason message c Hu Hl) as Ha.
    destruct (ack_rejected _ _ _ _) as [ok c1]. by intros [= <- <-]. }
  case_match; [intros [= <- <-]; by left|]. case_match; [intros [= <- <-]; by left|].
  destruct (parse read_hop_prefix _) as [[seq payload]|e]; [|intros [= <- <-]; by left].
  destruct body as [p|p message]; [|by apply Hrej].
  destruct (fst (decode_hop_body payload (for_frame_cap max))) as [[decoded rest]|e]; [by apply take_batch_live|].
  destruct e; by apply Hrej.
Qed.

Lemma read_body_live max t header_buf c r c' : live c -> read_body max t header_buf c = (r, c') -> left_by r c'.
Proof.
  intros Hl. unfold read_body. assert (forall e rj, left_by (Some e) (flush_then_reject rj c)) as Hrj.
  { intros e rj. right. split; [done|by apply flush_then_reject_over]. }
  destruct (read_frame_header header_buf max) as [[]|header]; [intros [= <- <-]; by apply Hrj|intros [= <- <-]; by left..|].
  match goal with |- context [if ?b then flush_ack c else (true, c)] =>
    pose proof (flush_if_live b c Hl) as Hf; destruct (if b then flush_ack c else (true, c)) as [[] c1] end;
    destruct Hf as (_ & _ & _ & Hl1); cbn [negb]; [|intros [= <- <-]; by right].
  case_match; [intros [= <- <-]; right; split; [done|by apply flush_then_reject_over]|].
  destruct (read_frame_rest _ _ _ _) as [e|[[header' body] rest]]; [intros [= <- <-]; by left|by apply handle_frame_live].
Qed.

Lemma frame_turn_live max t c r c' : live c -> frame_turn max t c = (r, c') -> left_by r c'.
Proof.
  intros Hl. unfold frame_turn. set (c0 := with_table (run (table c) (others t)) c).
  assert (live c0) as Hl0 by exact Hl. clearbody c0.
  case_match; [intros [= <- <-]; right; split; [done|by apply flush_then_reject_over]|].
  pose proof (flush_if_live (negb (header_ready t)) c0 Hl0) as Hf. rewrite if_negb in Hf.
  destruct (if header_ready t then (true, c0) else flush_ack c0) as [[] c1];
    destruct Hf as (_ & _ & _ & Hl1); cbn [negb]; [|intros [= <- <-]; by right].
  destruct (if header_ready t then None else header_interrupt t) as [[]|];
    [intros [= <- <-]; right; split; [done|by apply flush_then_reject_over]..|intros [= <- <-]; by left|].
  destruct (unread c1) as [|b bs] eqn:Hu; [intros [= <- <-]; by left|].
  case_match; [intros [= <- <-]; by left|]. by apply read_body_live.
Qed.

Lemma serve_frames_live max turns : forall c e c',
  live c -> serve_frames max turns c = (e, c') -> answers_in_order (handled c') (wrote c').
Proof.
  induction turns as [|t turns IH]; intros c e c' Hl; simpl; [intros [= <- <-]; by apply live_in_order|].
  destruct (frame_turn max t c) as [[r|] c1] eqn:Ht.
  - intros [= <- <-]. destruct (frame_turn_live _ _ _ _ _ Hl Ht) as [Hl1|(_ & Ho & Hin)].
    + pose proof (flush_ack_live c1 Hl1) as Hf. destruct (flush_ack c1) as [[] c2]; destruct Hf as (_ & _ & Hf); [|apply Hf].
      by apply live_in_order.
    + unfold flush_ack. by rewrite Ho.
  - destruct (frame_turn_live _ _ _ _ _ Hl Ht) as [Hl1|(? & _)]; [by eapply IH|done].
Qed.

Lemma live_accept bs t ws : live (accept bs t ws).
Proof. exists [], []. split_and!; [done|constructor|done]. Qed.

(** On any connection, whatever its peer sends and whatever the network, the timers and the
    consumers do, the messages the listener writes answer the frames it handled in their order: each
    accepted [Ack] a run of frames of one sender, every one of them forwarded or recognized as resent,
    and it names the last; each rejected [Ack] the one refused frame it names; and when it writes a
    [Reject], the last message of the connection, every frame handled before it has been answered. *)
Theorem receiver_answers_in_order max turns bs t ws e c :
  serve_frames max turns (accept bs t ws) = (e, c) -> answers_in_order (handled c) (wrote c).
Proof. intros E. by eapply serve_frames_live, E; apply live_accept. Qed.

End Acks.
