(* ===== verification/Output.v ===== *)
(** * The sink interface

    crates/logit-pipeline/src/output.rs: how a failed delivery is classed, which classes a posture
    retries, and the trait a sink implements for the delivery loop. A call is a function of the sink
    and of what its surroundings decide while it runs; the contract of the trait's documentation is a
    class of laws over the batches a sink holds submitted and not yet answered. *)

From S2P Require Import Prelude Model Batch.

Module Fault.
Inductive Fault := Clean | Ambiguous | Rejected | Refused.

#[global] Instance fault_eq_dec : EqDecision Fault.
Proof. solve_decision. Defined.
End Fault.

Inductive DeliveryPosture := AtLeastOnce | AtMostOnce.

#[global] Instance posture_eq_dec : EqDecision DeliveryPosture.
Proof. solve_decision. Defined.

(** An error as the loop reads it: the [Fault] attached to it, and the [HeadOnly] mark. *)
Record SendError := mkSendError { err_fault : option Fault.Fault; is_head_only : bool }.

Definition classify (err : SendError) : Fault.Fault := default Fault.Rejected (err_fault err).

Definition is_retryable (fault : Fault.Fault) (posture : DeliveryPosture) : bool :=
  match fault, posture with
  | Fault.Clean, _ | Fault.Refused, _ => true
  | Fault.Ambiguous, AtLeastOnce => true
  | Fault.Ambiguous, AtMostOnce => false
  | Fault.Rejected, _ => false
  end.

(** ** A batch's context *)

Record TraceContext := mkTraceContext { trace_id : bytes; span_id : bytes }.
Record BatchContext := mkBatchContext { ctx_trace : TraceContext; ctx_provenance : Provenance }.

Definition hop_trace_from (t : TraceContext) : HopTrace := mkHopTrace (trace_id t) (span_id t).

(** ** The trait *)

#[global] Instance seq_id_eq_dec : EqDecision SeqId.
Proof. solve_decision. Defined.

(** A sink [O] of payloads [A] (a batch with its context). [N] is what the surroundings decide during
    one call. A call's result is [None] for [Ok]; a cut call is one dropped at one of its awaits. *)
Class Output (A O N : Type) := {
  window : O -> Z;
  collecting : O -> option Z;
  reached_destination : O -> nat -> nat;
  default_posture : O -> DeliveryPosture;
  observe_posture : DeliveryPosture -> O -> O;
  observe_batch : A -> SeqId -> O -> O;
  send : N -> A -> O -> option SendError * O;
  submit : N -> A -> SeqId -> O -> option SendError * O;
  await_ack : N -> O -> option SendError * O;
  cut_send : N -> A -> O -> O;
  cut_submit : N -> A -> SeqId -> O -> O;
  cut_await_ack : O -> O
}.

(** What the trait's documentation asks of a sink, over the sender pairs it holds submitted and
    unanswered, oldest first ([outstanding]), the one a retryable head-only fault handed back
    ([handed_back]), the pair it was last told of ([told]), those it answered [Ok] for ([took]), and
    those given to the connection it would write to next ([given_now]). *)
Class OutputOk {A O N} (S : Output A O N) := {
  outstanding : O -> list SeqId;
  handed_back : O -> option SeqId;
  told : O -> option SeqId;
  took : O -> list SeqId;
  given_now : O -> list SeqId;
  reached_destination_law o n : (reached_destination o n <= n)%nat;
  observe_posture_law p o :
    outstanding (observe_posture p o) = outstanding o /\ handed_back (observe_posture p o) = handed_back o /\
    took (observe_posture p o) = took o /\ given_now (observe_posture p o) = given_now o;
  observe_batch_law a seq o :
    outstanding (observe_batch a seq o) = outstanding o /\ handed_back (observe_batch a seq o) = handed_back o /\
    took (observe_batch a seq o) = took o /\ given_now (observe_batch a seq o) = given_now o /\
    told (observe_batch a seq o) = Some seq;
  send_law n a o seq :
    outstanding o = [] -> told o = Some seq ->
    match send n a o with
    | (None, o') =>
        outstanding o' = [] /\ took o' = took o ++ [seq] /\ given_now o' ⊆ given_now o ++ [seq] /\
        (handed_back o' = handed_back o \/ handed_back o' = None)
    | (Some e, o') =>
        outstanding o' = [] /\ took o' = took o /\ told o' = Some seq /\
        (handed_back o' = handed_back o \/ handed_back o' = None) /\
        given_now o' ⊆ given_now o ++ (if decide (classify e = Fault.Rejected) then [seq] else [])
    end;
  submit_law n a seq o :
    match submit n a seq o with
    | (None, o') =>
        took o' = took o /\ handed_back o' = None /\ given_now o' ⊆ given_now o ++ [seq] /\
        outstanding o' = if decide (handed_back o = Some seq) then seq :: outstanding o else outstanding o ++ [seq]
    | (Some e, o') =>
        took o' = took o /\ given_now o' ⊆ given_now o /\
        (handed_back o <> Some seq -> handed_back o' = handed_back o /\ outstanding o' = outstanding o) /\
        (handed_back o = Some seq ->
         if is_head_only e then handed_back o' = Some seq /\ outstanding o' = outstanding o
         else handed_back o' = None /\ outstanding o' = [] /\ given_now o' = [])
    end;
  await_ack_law n o seq rest :
    outstanding o = seq :: rest ->
    match await_ack n o with
    | (None, o') => outstanding o' = rest /\ took o' = took o ++ [seq] /\ handed_back o' = None /\ given_now o' ⊆ given_now o
    | (Some e, o') =>
        took o' = took o /\
        if is_head_only e then
          outstanding o' = rest /\ given_now o' ⊆ given_now o /\
          handed_back o' = if decide (classify e = Fault.Rejected) then None else Some seq
        else outstanding o' = [] /\ handed_back o' = None /\ given_now o' = []
    end;
  cut_send_law n a o : outstanding o = [] -> outstanding (cut_send n a o) = [] /\ took (cut_send n a o) = took o;
  cut_submit_law n a seq o : outstanding (cut_submit n a seq o) = [] /\ took (cut_submit n a seq o) = took o;
  cut_await_ack_law o : outstanding (cut_await_ack o) = [] /\ took (cut_await_ack o) = took o
}.

(** ** A caller's side of the contract *)

(** An earlier number of the same sender. *)
Definition before (s s' : SeqId) : Prop := seq_id s = seq_id s' /\ seq_seq s < seq_seq s'.

(** The states of a sink whose caller tells it of a batch before it sends it, submits each batch under
    a later number than any it gave to the same connection, and gives only the batches of [given],
    each under its number there. *)
Inductive used {A O N} {S : Output A O N} {L : OutputOk S} (given : A -> SeqId -> Prop) (start : O -> Prop) : O -> Prop :=
| used_start o : start o -> used given start o
| used_posture p o : used given start o -> used given start (observe_posture p o)
| used_observe a seq o : used given start o -> used given start (observe_batch a seq o)
| used_send n a seq o :
    used given start o -> outstanding o = [] -> told o = Some seq -> seq_ok seq = true ->
    Forall (fun s => before s seq) (given_now o) -> given a seq -> used given start (snd (send n a o))
| used_cut_send n a seq o :
    used given start o -> outstanding o = [] -> told o = Some seq -> seq_ok seq = true ->
    Forall (fun s => before s seq) (given_now o) -> given a seq -> used given start (cut_send n a o)
| used_submit n a seq o :
    used given start o -> seq_ok seq = true -> Forall (fun s => before s seq) (given_now o) -> given a seq ->
    used given start (snd (submit n a seq o))
| used_resubmit n a seq o :
    used given start o -> handed_back o = Some seq -> given a seq -> used given start (snd (submit n a seq o))
| used_cut_submit n a seq o :
    used given start o -> seq_ok seq = true -> Forall (fun s => before s seq) (given_now o) -> given a seq ->
    used given start (cut_submit n a seq o)
| used_cut_resubmit n a seq o :
    used given start o -> handed_back o = Some seq -> given a seq -> used given start (cut_submit n a seq o)
| used_await_ack n o : used given start o -> used given start (snd (await_ack n o))
| used_cut_await_ack o : used given start o -> used given start (cut_await_ack o).

(** A caller free in what it gives. *)
Definition any_given {A} (a : A) (seq : SeqId) : Prop := True.

Lemma used_mono {A O N} {S : Output A O N} {L : OutputOk S} (given given' : A -> SeqId -> Prop) (P Q : O -> Prop) o :
  (forall a seq, given a seq -> given' a seq) -> (forall o, P o -> Q o) -> used given P o -> used given' Q o.
Proof. intros Hg HPQ. induction 1; [by apply used_start, HPQ|econstructor; first [eassumption|by apply Hg]..]. Qed.
