(* ===== verification/Sender.v ===== *)
(** * The native sink

    [LogitOutput] of crates/logit-outputs/src/logit.rs: the handshake's client side, the frames
    written ahead of their acknowledgements, and what each answer of the listener settles. The bytes
    that arrive on a connection, and what the sockets and timers decide, are inputs of each call; the
    bytes that left, the pairs answered [Ok] and the connections given up are the sink's ledger. *)

From S2P Require Import Prelude Codec Budget Reader Utf8 Model Instances Batch Frame Control Output.

#[local] Open Scope wire_scope.

(** ** A connection *)

Record InFlight := mkInFlight { if_seq : SeqId; acked : bool }.

Record Conn := mkConn {
  peer_max_frame_bytes : Z;
  compression : Compression;
  conn_window : Z;
  in_flight : list InFlight;
  broken : bool;
  conn_marks : gmap bytes Z;
  arriving : bytes;                  (* what the peer sends, not read yet *)
  arrived : bytes;                   (* all of what the peer sends *)
  left : bytes;                      (* what left on the connection *)
  given : list SeqId                 (* the pairs it was given, in order *)
}.

Definition with_in_flight (l : list InFlight) (c : Conn) : Conn :=
  mkConn (peer_max_frame_bytes c) (compression c) (conn_window c) l (broken c) (conn_marks c) (arriving c) (arrived c)
    (left c) (given c).
Definition with_arriving (bs : bytes) (c : Conn) : Conn :=
  mkConn (peer_max_frame_bytes c) (compression c) (conn_window c) (in_flight c) (broken c) (conn_marks c) bs (arrived c)
    (left c) (given c).
Definition with_left (bs : bytes) (b : bool) (c : Conn) : Conn :=
  mkConn (peer_max_frame_bytes c) (compression c) (conn_window c) (in_flight c) b (conn_marks c) (arriving c) (arrived c)
    (left c ++ bs) (given c).

(** [in_flight.push_back]. *)
Definition push_back (seq : SeqId) (acked : bool) (c : Conn) : Conn :=
  mkConn (peer_max_frame_bytes c) (compression c) (conn_window c) (in_flight c ++ [mkInFlight seq acked]) (broken c)
    (conn_marks c) (arriving c) (arrived c) (left c) (given c ++ [seq]).

Definition nothing_in_flight (c : Conn) : bool := match in_flight c with [] => true | _ => false end.

(** Whether the listener held [seq] at the handshake. *)
Definition covers (seq : SeqId) (c : Conn) : bool :=
  match conn_marks c !! seq_id seq with Some mark => seq_seq seq <=? mark | None => false end.

Fixpoint resend_senders_of (entries : list InFlight) (senders : list bytes) : list bytes :=
  match entries with
  | [] => senders
  | entry :: entries =>
      if Z.of_nat (length senders) =? MAX_HELLO_SENDERS then senders
      else if bool_decide (seq_id (if_seq entry) ∈ senders) then resend_senders_of entries senders
      else resend_senders_of entries (senders ++ [seq_id (if_seq entry)])
  end.

Definition conn_resend_senders (c : Conn) : list bytes := resend_senders_of (in_flight c) [].

(** The loop of [mark_acked]: the entries after it, and whether one carried the number. *)
Fixpoint mark_loop (id : bytes) (seq : Z) (entries : list InFlight) : list InFlight * bool :=
  match entries with
  | [] => ([], false)
  | entry :: rest =>
      if bool_decide (seq_id (if_seq entry) <> id) || (seq <? seq_seq (if_seq entry)) then (entries, false)
      else
        let '(rest', named) := mark_loop id seq rest in
        (mkInFlight (if_seq entry) true :: rest', (seq_seq (if_seq entry) =? seq) || named)
  end.

(** [None] is an error. *)
Definition mark_acked (entries : list InFlight) (id : bytes) (seq : Z) : option (list InFlight) :=
  match entries with
  | [] => None
  | front :: _ =>
      if bool_decide (seq_id (if_seq front) <> id) then None
      else let '(entries', named) := mark_loop id seq entries in if named then Some entries' else None
  end.

Definition settle_rejected (entries : list InFlight) (id : bytes) (seq : Z) : option (list InFlight) :=
  match entries with
  | front :: rest => if bool_decide (if_seq front = mkSeqId id seq) && negb (acked front) then Some rest else None
  | [] => None
  end.

(** ** Errors *)

Definition faulty (f : Fault.Fault) : SendError := mkSendError (Some f) false.

(** The error for the head the listener refused by name. *)
Definition rejected_head : SendError := mkSendError (Some Fault.Rejected) true.

Definition reject_fault (code : Z) : option Fault.Fault :=
  if (code =? REJECT_VERSION_MISMATCH) || (code =? REJECT_NO_COMMON_CODEC) then Some Fault.Refused
  else if code =? REJECT_FRAME_TOO_LARGE then Some Fault.Rejected
  else None.

Definition reject_in_place_of_ack (reject : Reject) : SendError :=
  faulty (match reject_fault (rej_code reject) with
          | Some fault => fault
          | None => if rej_code reject =? REJECT_GOING_AWAY then Fault.Clean else Fault.Ambiguous
          end).

(** ** Handshake *)

(** The compressions a frame can be written with. *)
Definition compression_from_u8 (b : Z) : option Compression :=
  if b =? 0 then Some CompNone else if b =? 1 then Some CompLz4 else None.

(** Each mark is for a listed identity, and no identity has two. *)
Fixpoint marks_answer (senders : list bytes) (earlier : list bytes) (marks : list (bytes * Z)) : bool :=
  match marks with
  | [] => true
  | (id, _) :: marks =>
      bool_decide (id ∈ senders) && negb (bool_decide (id ∈ earlier)) && marks_answer senders (earlier ++ [id]) marks
  end.

Definition validate_hello_ack (ack : HelloAck) (hello : Hello) : option Compression :=
  if negb (ha_version ack =? he_version hello) then None
  else if negb (existsb (fun c => b2z c =? ha_codec ack) (he_codecs hello)) then None
  else if negb (marks_answer (he_senders hello) [] (ha_marks ack)) then None
  else
    match compression_from_u8 (ha_compression ack) with
    | Some compression =>
        if existsb (fun c => b2z c =? ha_compression ack) (he_compressions hello) then Some compression else None
    | None => None
    end.

(** ** The sink *)

(** What a call's surroundings decide. *)
Record Net := mkNet {
  dial : option bytes;               (* the dial's connection, as the bytes that arrive on it *)
  hello_leaves : bool;               (* the [Hello] is written and flushed *)
  timely : bool;                     (* what is read arrives within the timeout *)
  probe_open : bool;                 (* the probe of a pooled connection finds it open *)
  stalls : option nat;               (* a frame's write fails after so many bytes *)
  sampled : bool                     (* this process records spans for the batch's trace *)
}.

Record LogitOutput := mkLogitOutput {
  offered_compression : Compression;
  offered_window : Z;
  stream : option Conn;
  pending_ctx : BatchContext;
  pending_seq : option SeqId;
  resend_senders : list bytes;
  answered : list (SeqId * bool);    (* the pairs answered, [true] for [Ok], [false] as refused by name *)
  gone : list Conn                   (* the connections given up *)
}.

Definition with_stream (s : option Conn) (self : LogitOutput) : LogitOutput :=
  mkLogitOutput (offered_compression self) (offered_window self) s (pending_ctx self) (pending_seq self)
    (resend_senders self) (answered self) (gone self).
Definition with_resend (l : list bytes) (self : LogitOutput) : LogitOutput :=
  mkLogitOutput (offered_compression self) (offered_window self) (stream self) (pending_ctx self) (pending_seq self)
    l (answered self) (gone self).
Definition with_pending (ctx : BatchContext) (seq : option SeqId) (self : LogitOutput) : LogitOutput :=
  mkLogitOutput (offered_compression self) (offered_window self) (stream self) ctx seq
    (resend_senders self) (answered self) (gone self).

(** The answer for the pair at the head. *)
Definition answer (seq : SeqId) (ok : bool) (self : LogitOutput) : LogitOutput :=
  mkLogitOutput (offered_compression self) (offered_window self) (stream self) (pending_ctx self) (pending_seq self)
    (resend_senders self) (answered self ++ [(seq, ok)]) (gone self).

(** The pairs answered [Ok]. *)
Definition committed (self : LogitOutput) : list SeqId :=
  omap (fun p => if p.2 : bool then Some p.1 else None) (answered self).

(** The connection, taken out of the sink, is dropped. *)
Definition drop_conn (c : Conn) (self : LogitOutput) : LogitOutput :=
  mkLogitOutput (offered_compression self) (offered_window self) None (pending_ctx self) (pending_seq self)
    (resend_senders self) (answered self) (gone self ++ [c]).

Section Sender.
Context {I : Interner} {Sm : Summaries} {D : FrameDeps}.

(** One control frame off the bytes that arrive, and the bytes after it. *)
Definition read_control (bs : bytes) : option (ControlMessage * bytes) :=
  let n := Z.to_nat HEADER_LEN in
  if (length bs <? n)%nat then None
  else
    match header_read (take n bs) with
    | Err _ => None
    | Ok (header, _) =>
        if (MAX_CONTROL_MESSAGE_BYTES <? fh_uncompressed_len header) ||
           (MAX_CONTROL_MESSAGE_BYTES <? fh_compressed_len header) then None
        else
          let m := Z.to_nat (fh_compressed_len header) in
          let rest := drop n bs in
          if (length rest <? m)%nat then None
          else
            match read_frame_with_header (take n bs ++ take m rest) with
            | Err _ => None
            | Ok (header, payload, _) =>
                if Z.land (fh_flags header) FLAG_CONTROL =? 0 then None
                else
                  match control_decode payload with
                  | Ok m' => Some (m', drop m rest)
                  | Err _ => None
                  end
            end
    end.

Definition hello_of (self : LogitOutput) : Hello :=
  mkHello PROTOCOL_VERSION [z2b CODEC_HOP_BATCH]
    [z2b (compression_u8 CompNone); z2b (compression_u8 (offered_compression self))]
    MAX_SANE_UNCOMPRESSED_LEN (offered_window self) (resend_senders self).

Definition handshake (net : Net) (arrives : bytes) (self : LogitOutput) : SendError + Conn * LogitOutput :=
  let hello := hello_of self in
  match write_frame_with_flags 0 CompNone FLAG_CONTROL (hello_encode hello) with
  | Err _ => inl (faulty Fault.Clean)
  | Ok framed =>
      if negb (hello_leaves net) then inl (faulty Fault.Clean)
      else
        match (if timely net then read_control arrives else None) with
        | None => inl (faulty Fault.Clean)
        | Some (CmReject reject, _) => inl (faulty (default Fault.Clean (reject_fault (rej_code reject))))
        | Some (CmHelloAck ack, rest) =>
            match validate_hello_ack ack hello with
            | None => inl (faulty Fault.Refused)
            | Some compression =>
                inr (mkConn (ha_max_frame_bytes ack) compression (Z.min (offered_window self) (ha_window ack))
                       [] false (list_to_map (reverse (ha_marks ack))) rest arrives framed [],
                     with_resend [] self)
            end
        | Some (_, _) => inl (faulty Fault.Clean)
        end
  end.

Definition connect_and_handshake (net : Net) (self : LogitOutput) : SendError + Conn * LogitOutput :=
  match dial net with
  | None => inl (faulty Fault.Clean)
  | Some arrives => handshake net arrives self
  end.

(** [submit_frame] once it has a connection, taken out of [self], and the payload. *)
Definition write_payload (net : Net) (seq : SeqId) (payload : bytes) (conn : Conn) (self : LogitOutput) :
    option SendError * LogitOutput :=
  let bound := Z.min (peer_max_frame_bytes conn) MAX_SANE_UNCOMPRESSED_LEN in
  if bound <? blen payload then (Some (faulty Fault.Rejected), with_stream (Some conn) self)
  else
    match write_frame_with_flags CODEC_HOP_BATCH (compression conn) 0 payload with
    | Err _ => (Some (faulty Fault.Rejected), with_stream (Some conn) self)
    | Ok framed =>
        if compressed_bound bound <? blen framed - HEADER_LEN then
          (Some (faulty Fault.Rejected), with_stream (Some conn) self)
        else
          match stalls net with
          | Some n =>
              if nothing_in_flight conn then
                (Some (faulty Fault.Clean), drop_conn (with_left (take n framed) (broken conn) conn) self)
              else
                (Some (mkSendError None false), with_stream (Some (with_left (take n framed) true conn)) self)
          | None => (None, with_stream (Some (push_back seq false (with_left framed (broken conn) conn))) self)
          end
    end.

Definition submit_frame (net : Net) (batch : EventBatch) (ctx : BatchContext) (seq : SeqId) (self : LogitOutput) :
    option SendError * LogitOutput :=
  let fresh := match stream self, resend_senders self with None, _ :: _ => true | _, _ => false end in
  match (if fresh then
           match connect_and_handshake net self with
           | inl e => inl e
           | inr (conn, self) => inr (with_stream (Some conn) self)
           end
         else inr self) with
  | inl e => (Some e, self)
  | inr self =>
      let resumed :=
        match stream self with
        | Some conn => if negb (broken conn) && covers seq conn then Some conn else None
        | None => None
        end in
      match resumed with
      | Some conn => (None, with_stream (Some (push_back seq true conn)) self)
      | None =>
          let trace := if sampled net then Some (hop_trace_from (ctx_trace ctx)) else None in
          let payload := encode_hop_batch batch (ctx_provenance ctx) trace seq in
          if MAX_SANE_UNCOMPRESSED_LEN <? blen payload then (Some (faulty Fault.Rejected), self)
          else
            match stream self with
            | Some conn =>
                if broken conn then (Some (mkSendError None false), self)
                else if fresh || negb (nothing_in_flight conn) || probe_open net then
                  write_payload net seq payload conn (with_stream None self)
                else
                  match connect_and_handshake net (drop_conn conn self) with
                  | inl e => (Some e, drop_conn conn self)
                  | inr (conn, self) => write_payload net seq payload conn self
                  end
            | None =>
                match connect_and_handshake net self with
                | inl e => (Some e, self)
                | inr (conn, self) => write_payload net seq payload conn self
                end
            end
      end
  end.

(** The connection goes back unless it is broken and owes nothing. *)
Definition keep (conn : Conn) (self : LogitOutput) : LogitOutput :=
  if broken conn && nothing_in_flight conn then drop_conn conn self else with_stream (Some conn) self.

(** [read_ack] once the front is marked: the front is committed. *)
Definition pop_front (conn : Conn) (self : LogitOutput) : option SendError * LogitOutput :=
  match in_flight conn with
  | front :: rest => (None, answer (if_seq front) true (keep (with_in_flight rest conn) self))
  | [] => (None, keep conn self)
  end.

Definition read_ack (net : Net) (self : LogitOutput) : option SendError * LogitOutput :=
  match stream self with
  | None => (None, self)
  | Some conn =>
      match in_flight conn with
      | [] => (None, self)
      | front :: _ =>
          let self := with_stream None self in
          if acked front then pop_front conn self
          else
            let fails e conn := (Some e, with_resend (conn_resend_senders conn) (drop_conn conn self)) in
            match (if timely net then read_control (arriving conn) else None) with
            | None => fails (faulty Fault.Ambiguous) conn
            | Some (m, rest) =>
                let conn := with_arriving rest conn in
                match m with
                | CmAck ack =>
                    match ack_status ack with
                    | Control.Rejected _ _ =>
                        match settle_rejected (in_flight conn) (ack_id ack) (ack_seq ack) with
                        | Some entries => (Some rejected_head, answer (if_seq front) false (keep (with_in_flight entries conn) self))
                        | None => fails (faulty Fault.Ambiguous) conn
                        end
                    | Accepted =>
                        match mark_acked (in_flight conn) (ack_id ack) (ack_seq ack) with
                        | Some entries => pop_front (with_in_flight entries conn) self
                        | None => fails (faulty Fault.Ambiguous) conn
                        end
                    end
                | CmReject reject => fails (reject_in_place_of_ack reject) conn
                | _ => fails (faulty Fault.Ambiguous) conn
                end
            end
      end
  end.

(** ** The sink as the loop sees it *)

Definition logit_observe_batch (a : EventBatch * BatchContext) (seq : SeqId) (self : LogitOutput) : LogitOutput :=
  with_pending a.2 (Some seq) self.

Definition logit_submit (net : Net) (a : EventBatch * BatchContext) (seq : SeqId) (self : LogitOutput) :
    option SendError * LogitOutput := submit_frame net a.1 a.2 seq self.

Definition logit_send (net : Net) (a : EventBatch * BatchContext) (self : LogitOutput) : option SendError * LogitOutput :=
  match pending_seq self with
  | None => (Some (mkSendError None false), self)
  | Some seq =>
      match submit_frame net a.1 (pending_ctx self) seq self with
      | (Some e, self) => (Some e, self)
      | (None, self) =>
          match read_ack net self with
          | (Some e, self) => (Some e, self)
          | (None, self) => (None, with_pending (pending_ctx self) None self)
          end
      end
  end.

Definition logit_window (self : LogitOutput) : Z := match stream self with Some conn => conn_window conn | None => 1 end.

(** A connection is dropped with the call that held it in a local. *)
Definition abandon (self : LogitOutput) : LogitOutput :=
  match stream self with Some conn => drop_conn conn self | None => self end.

(** A call dropped at one of its awaits: it had come as far as the surroundings let it. *)
Definition logit_cut_submit (net : Net) (a : EventBatch * BatchContext) (seq : SeqId) (self : LogitOutput) : LogitOutput :=
  abandon (snd (logit_submit net a seq self)).

Definition logit_cut_send (net : Net) (a : EventBatch * BatchContext) (self : LogitOutput) : LogitOutput :=
  match pending_seq self with
  | None => self
  | Some seq => abandon (snd (submit_frame net a.1 (pending_ctx self) seq self))
  end.

Definition logit_flush (self : LogitOutput) : LogitOutput := abandon self.

#[global] Instance logit_output : Output (EventBatch * BatchContext) LogitOutput Net := {|
  window := logit_window;
  collecting := fun _ => None;
  reached_destination := fun _ n => n;
  default_posture := fun _ => AtLeastOnce;
  observe_posture := fun _ o => o;
  observe_batch := logit_observe_batch;
  send := logit_send;
  submit := logit_submit;
  await_ack := read_ack;
  cut_send := logit_cut_send;
  cut_submit := logit_cut_submit;
  cut_await_ack := abandon
|}.

(** ** The sink keeps the trait's contract *)

Definition flying (self : LogitOutput) : list SeqId :=
  match stream self with Some conn => map if_seq (in_flight conn) | None => [] end.

(** The pairs given to a connection that may still be written to. *)
Definition giving (self : LogitOutput) : list SeqId :=
  match stream self with Some conn => if broken conn then [] else given conn | None => [] end.

Lemma handshake_new net arrives self conn self' :
  handshake net arrives self = inr (conn, self') ->
  in_flight conn = [] /\ given conn = [] /\ self' = with_resend [] self.
Proof. unfold handshake. intros H. repeat case_match; simplify_eq; done. Qed.

Lemma connect_new net self conn self' :
  connect_and_handshake net self = inr (conn, self') -> in_flight conn = [] /\ given conn = [] /\ self' = with_resend [] self.
Proof. unfold connect_and_handshake. destruct (dial net); [apply handshake_new|done]. Qed.

(** What a submission leaves in flight. *)
Definition submitted (seq : SeqId) (l g : list SeqId) (r : option SendError * LogitOutput) (self : LogitOutput) : Prop :=
  committed r.2 = committed self /\ pending_seq r.2 = pending_seq self /\
  flying r.2 = match r.1 with None => l ++ [seq] | Some _ => l end /\
  giving r.2 ⊆ g ++ match r.1 with None => [seq] | Some _ => [] end.

Lemma submitted_kept seq self e : submitted seq (flying self) (giving self) (Some e, self) self.
Proof. unfold submitted. cbn. by rewrite app_nil_r. Qed.

Lemma write_payload_submits net seq payload conn self :
  stream self = None ->
  submitted seq (map if_seq (in_flight conn)) (if broken conn then [] else given conn) (write_payload net seq payload conn self) self.
Proof.
  intros Hs. unfold write_payload. assert (forall e, submitted seq (map if_seq (in_flight conn)) (if broken conn then [] else given conn)
    (Some e, with_stream (Some conn) self) self) as Hkept by (intros e; apply (submitted_kept seq (with_stream (Some conn) self))).
  set (bound := Z.min (peer_max_frame_bytes conn) MAX_SANE_UNCOMPRESSED_LEN). destruct (bound <? blen payload); [apply Hkept|].
  destruct (write_frame_with_flags _ _ _ _) as [framed|]; [|apply Hkept].
  destruct (compressed_bound bound <? blen framed - HEADER_LEN); [apply Hkept|]. unfold submitted, flying, giving.
  destruct (stalls net) as [n|]; [|cbn; rewrite map_app; destruct (broken conn); split_and!; try done; apply list_subseteq_nil]. unfold nothing_in_flight.
  destruct (in_flight conn) eqn:Hl; cbn; rewrite ?Hl; split_and!; try done; apply list_subseteq_nil.
Qed.

Lemma submit_frame_submits net batch ctx seq self :
  submitted seq (flying self) (giving self) (submit_frame net batch ctx seq self) self.
Proof.
  unfold submit_frame.
  set (fresh := match stream self, resend_senders self with None, _ :: _ => true | _, _ => false end).
  assert (fresh = true -> stream self = None) as Hfresh by (unfold fresh; destruct (stream self); done).
  match goal with |- context [match ?m with inl e => (Some e, self) | inr self => _ end] => destruct m as [e|self1] eqn:E1 end;
    [apply submitted_kept|].
  assert (flying self1 = flying self /\ committed self1 = committed self /\ pending_seq self1 = pending_seq self /\
    giving self1 = giving self) as (Hfl & Hc & Hp & Hg).
  { destruct fresh; [|by simplify_eq]. specialize (Hfresh eq_refl).
    destruct (connect_and_handshake net self) as [e|[conn self']] eqn:E; [done|]. simplify_eq.
    destruct (connect_new _ _ _ _ E) as (Hn & Hg & ->). unfold flying, giving. rewrite Hfresh. cbn. rewrite Hn, Hg. by destruct (broken conn). }
  assert (forall r, submitted seq (flying self1) (giving self1) r self1 -> submitted seq (flying self) (giving self) r self) as Hback.
  { unfold submitted. intros r. by rewrite Hfl, Hc, Hp, Hg. }
  apply Hback. clear Hback Hfl Hc Hp Hg.
  match goal with |- context [match ?m with Some conn => (None, _) | None => _ end] => destruct m as [conn|] eqn:E2 end.
  { destruct (stream self1) as [conn1|] eqn:Es; [|done]. case_match; [|done]. injection E2 as ->.
    unfold submitted, flying, giving. cbn. rewrite Es, map_app. by destruct (broken conn). }
  generalize (encode_hop_batch batch (ctx_provenance ctx) (if sampled net then Some (hop_trace_from (ctx_trace ctx)) else None) seq).
  intros payload. destruct (MAX_SANE_UNCOMPRESSED_LEN <? blen payload); [apply submitted_kept|].
  assert (forall self2, stream self2 = None -> flying self1 = [] -> committed self2 = committed self1 -> pending_seq self2 = pending_seq self1 ->
    submitted seq (flying self1) (giving self1)
      match connect_and_handshake net self2 with inl e => (Some e, self2) | inr (conn, self) => write_payload net seq payload conn self end
      self1) as Hnew.
  { intros self2 Hs2 Hf1 Hc2 Hp2. rewrite Hf1. destruct (connect_and_handshake net self2) as [e|[conn2 self3]] eqn:E.
    - unfold submitted, flying, giving at 1. cbn. rewrite Hs2. split_and!; try done. apply list_subseteq_nil.
    - destruct (connect_new _ _ _ _ E) as (Hn2 & Hg2 & ->).
      pose proof (write_payload_submits net seq payload conn2 (with_resend [] self2) Hs2) as Hw. rewrite Hn2, Hg2 in Hw.
      unfold submitted in *. cbn [map] in Hw. replace (if broken conn2 then [] else []) with (@nil SeqId) in Hw by by destruct (broken conn2).
      destruct Hw as (Hw1 & Hw2 & Hw3 & Hw4). split_and!; [by rewrite Hw1|by rewrite Hw2|done|]. etrans; [exact Hw4|]. by apply list_subseteq_app_r. }
  destruct (stream self1) as [conn|] eqn:Es.
  - destruct (broken conn) eqn:Hb; [apply submitted_kept|].
    destruct (fresh || negb (nothing_in_flight conn) || probe_open net) eqn:Ep.
    + pose proof (write_payload_submits net seq payload conn (with_stream None self1) eq_refl) as Hw. rewrite Hb in Hw.
      unfold flying, giving at 1. rewrite Es, Hb. exact Hw.
    + apply orb_false_iff in Ep as [[_ Hn%negb_false_iff]%orb_false_iff _]. apply Hnew; try done.
      unfold flying. rewrite Es. unfold nothing_in_flight in Hn. by destruct (in_flight conn).
  - apply Hnew; try done. unfold flying. by rewrite Es.
Qed.

Lemma mark_loop_seqs id seq l : map if_seq (mark_loop id seq l).1 = map if_seq l.
Proof.
  induction l as [|e l IH]; [done|]. simpl. case_match; [done|].
  destruct (mark_loop id seq l) as [l' named]. simpl in *. by rewrite IH.
Qed.

Lemma mark_acked_seqs l id seq l' : mark_acked l id seq = Some l' -> map if_seq l' = map if_seq l.
Proof.
  unfold mark_acked. destruct l as [|e l]; [done|]. case_match; [done|]. pose proof (mark_loop_seqs id seq (e :: l)) as H1.
  destruct (mark_loop id seq (e :: l)) as [l1 named]. destruct named; [|done]. by intros [= <-].
Qed.

Lemma keep_flying conn self : flying (keep conn self) = map if_seq (in_flight conn).
Proof.
  unfold keep. destruct (broken conn && nothing_in_flight conn) eqn:E; [|done].
  apply andb_true_iff in E as [_ E]. unfold nothing_in_flight in E. by destruct (in_flight conn).
Qed.

Lemma keep_ledger conn self : committed (keep conn self) = committed self /\ pending_seq (keep conn self) = pending_seq self.
Proof. unfold keep. by destruct (_ && _). Qed.

Lemma committed_answer seq ok self : committed (answer seq ok self) = committed self ++ (if ok then [seq] else []).
Proof. unfold committed, answer. cbn [answered]. rewrite omap_app. by destruct ok. Qed.

(** What an answer to the head leaves. *)
Definition head_answered (seq : SeqId) (rest g : list SeqId) (r : option SendError * LogitOutput) (self : LogitOutput) : Prop :=
  pending_seq r.2 = pending_seq self /\
  match r.1 with
  | None => flying r.2 = rest /\ committed r.2 = committed self ++ [seq] /\ giving r.2 ⊆ g
  | Some e =>
      committed r.2 = committed self /\
      if is_head_only e then flying r.2 = rest /\ classify e = Fault.Rejected /\ giving r.2 ⊆ g
      else flying r.2 = [] /\ giving r.2 = []
  end.

Lemma keep_giving conn self : giving (keep conn self) ⊆ if broken conn then [] else given conn.
Proof. unfold keep. destruct (broken conn && nothing_in_flight conn); [apply list_subseteq_nil|done]. Qed.

Lemma pop_front_answers conn self seq rest :
  map if_seq (in_flight conn) = seq :: rest ->
  head_answered seq rest (if broken conn then [] else given conn) (pop_front conn self) self.
Proof.
  intros Hm. unfold pop_front. destruct (in_flight conn) as [|front l] eqn:Hl; [done|]. injection Hm as <- <-.
  unfold head_answered. cbn [fst snd]. destruct (keep_ledger (with_in_flight l conn) self) as [Hc Hp].
  pose proof (keep_flying (with_in_flight l conn) self) as Hf. pose proof (keep_giving (with_in_flight l conn) self) as Hg.
  rewrite committed_answer, Hc. split_and!; [exact Hp|exact Hf|done|exact Hg].
Qed.

Lemma read_ack_answers net self seq rest :
  flying self = seq :: rest -> head_answered seq rest (giving self) (read_ack net self) self.
Proof.
  unfold flying, giving, read_ack. destruct (stream self) as [conn|] eqn:Hs; [|done].
  destruct (in_flight conn) as [|front l] eqn:Hl; [done|]. intros Hm. rewrite <- Hl in Hm. set (g := if broken conn then [] else given conn).
  destruct (acked front); [by apply (pop_front_answers conn (with_stream None self))|].
  assert (forall f conn', head_answered seq rest g (Some (faulty f), with_resend (conn_resend_senders conn') (drop_conn conn' (with_stream None self))) self)
    as Hfail by done.
  destruct (if timely net then _ else _) as [[m bs]|]; [|apply Hfail]. destruct m as [| |ack|rj]; try apply Hfail.
  cbn [in_flight with_arriving]. destruct (ack_status ack).
  - destruct (mark_acked (in_flight conn) (ack_id ack) (ack_seq ack)) as [l'|] eqn:E; [|apply Hfail].
    apply (pop_front_answers (with_in_flight l' (with_arriving bs conn)) (with_stream None self)).
    cbn. by rewrite (mark_acked_seqs _ _ _ _ E).
  - destruct (settle_rejected (in_flight conn) (ack_id ack) (ack_seq ack)) as [l'|] eqn:E; [|apply Hfail].
    rewrite Hl in E, Hm. simpl in E. case_match; [|done]. injection E as <-. injection Hm as <- <-.
    destruct (keep_ledger (with_in_flight l (with_arriving bs conn)) (with_stream None self)) as [Hc Hp].
    pose proof (keep_giving (with_in_flight l (with_arriving bs conn)) (with_stream None self)).
    unfold head_answered. cbn [fst snd is_head_only rejected_head]. rewrite committed_answer, app_nil_r.
    split_and!; [done..|apply keep_flying|done|done].
Qed.

Lemma abandon_flying self : flying (abandon self) = [] /\ committed (abandon self) = committed self.
Proof. unfold abandon, flying. destruct (stream self) eqn:Hs; cbn; by rewrite ?Hs. Qed.

Lemma logit_send_answers net a self seq :
  flying self = [] -> pending_seq self = Some seq ->
  match logit_send net a self with
  | (None, self') => flying self' = [] /\ committed self' = committed self ++ [seq] /\ giving self' ⊆ giving self ++ [seq]
  | (Some e, self') =>
      flying self' = [] /\ committed self' = committed self /\ pending_seq self' = Some seq /\
      giving self' ⊆ giving self ++ (if decide (classify e = Fault.Rejected) then [seq] else [])
  end.
Proof.
  intros Hf Hp. unfold logit_send. rewrite Hp.
  pose proof (submit_frame_submits net a.1 (pending_ctx self) seq self) as Hs. rewrite Hf in Hs.
  destruct (submit_frame _ _ _ _ _) as [[e|] self1]; destruct Hs as (Hc & Hp1 & Hf1 & Hg1); cbn in Hc, Hp1, Hf1, Hg1.
  { split_and!; [done..|congruence|]. rewrite app_nil_r in Hg1. etrans; [done|]. by apply list_subseteq_app_l. }
  pose proof (read_ack_answers net self1 seq [] Hf1) as Ha.
  destruct (read_ack net self1) as [[e|] self2]; destruct Ha as [Hp2 Ha]; cbn in Hp2, Ha.
  - destruct Ha as [Hc2 Ha]. destruct (is_head_only e).
    + destruct Ha as (Hf2 & Hr & Hg2). rewrite decide_True by done. split_and!; [done|congruence..|]. by etrans.
    + destruct Ha as [Hf2 Hg2]. rewrite Hg2. split_and!; [done|congruence..|]. apply list_subseteq_nil.
  - destruct Ha as (Hf2 & Hc2 & Hg2). split_and!; [exact Hf2|change (committed self2 = committed self ++ [seq]); congruence|].
    change (giving self2 ⊆ giving self ++ [seq]). by etrans.
Qed.

(** [LogitOutput] answers for the batches it holds as the trait asks: a submission joins them at the
    end, an answer is for the oldest of them, and a fault that is not the head's alone leaves none. *)
#[global] Instance logit_output_ok : OutputOk logit_output.
Proof.
  refine {| outstanding := flying; handed_back := fun _ => None; told := pending_seq; took := committed; given_now := giving |}; try done.
  - intros n a o seq Hf Ht. pose proof (logit_send_answers n a o seq Hf Ht) as Hs. cbn.
    destruct (logit_send n a o) as [[e|] o']; destruct Hs as (? & ? & ?); split_and!; try tauto; by left.
  - intros n a seq o. pose proof (submit_frame_submits n a.1 a.2 seq o) as Hs. cbn. unfold logit_submit.
    destruct (submit_frame _ _ _ _ _) as [[e|] o']; destruct Hs as (Hc & _ & Hf & Hg); cbn in Hc, Hf, Hg; [|done].
    by rewrite app_nil_r in Hg.
  - intros n o seq rest Hf. pose proof (read_ack_answers n o seq rest Hf) as Ha. cbn.
    destruct (read_ack n o) as [[e|] o']; destruct Ha as [_ Ha]; cbn in Ha; [|by destruct Ha as (? & ? & ?)].
    destruct Ha as [Hc Ha]. split; [done|]. destruct (is_head_only e); [|by destruct Ha]. destruct Ha as (Hf' & Hr & Hg).
    split; [done|]. by rewrite decide_True.
  - intros n a o Hf. cbn. unfold logit_cut_send. destruct (pending_seq o) as [seq|]; [|done].
    pose proof (submit_frame_submits n a.1 (pending_ctx o) seq o) as (Hc & _ & _). rewrite <- Hc. apply abandon_flying.
  - intros n a seq o. pose proof (submit_frame_submits n a.1 a.2 seq o) as (Hc & _ & _). rewrite <- Hc. apply abandon_flying.
  - intros o. apply abandon_flying.
Defined.
End Sender.
