(* ===== verification/Transcript.v ===== *)
(** * What the native sink's connections say

    The bytes that left on a connection of [Sender] and the control messages read from it, against
    the pairs the sink answered for (crates/logit-outputs/src/logit.rs): whatever the peer is, the
    frames on the wire carry ascending numbers, each pair answered [Ok] is covered by the marks of the
    handshake or named by a run of an accepted [Ack], and each pair answered as rejected has a
    rejected [Ack] of its own. *)

From Stdlib Require Import Sorted.
From S2P Require Import Prelude Codec Budget Reader Varint Utf8 Model Instances Batch Frame Control Output Sender.

#[local] Open Scope wire_scope.

(** ** Numbers *)

#[global] Instance before_trans : Transitive before.
Proof. intros a b c [H1 H2] [H3 H4]. split; [congruence|lia]. Qed.

Lemma sorted_snoc {A} (R : A -> A -> Prop) l x :
  StronglySorted R l -> Forall (fun y => R y x) l -> StronglySorted R (l ++ [x]).
Proof.
  induction 1 as [|y l Hl IH Hy]; intros Hf; simpl; [by repeat constructor|].
  inversion Hf; subst. constructor; [by apply IH|]. apply List.Forall_app. split; [done|by constructor].
Qed.

Lemma sorted_app {A} (R : A -> A -> Prop) l1 l2 :
  StronglySorted R (l1 ++ l2) -> StronglySorted R l1 /\ StronglySorted R l2 /\ (forall x y, x ∈ l1 -> y ∈ l2 -> R x y).
Proof.
  induction l1 as [|x l1 IH]; simpl; [intros Hl; split_and!; [constructor|done|by intros ?? ?%not_elem_of_nil]|].
  intros [Hl Hx]%StronglySorted_inv. destruct (IH Hl) as (H1 & H2 & H3). apply List.Forall_app in Hx as [Hx1 Hx2]. split_and!; [by constructor|done|].
  intros a b [->|Ha]%elem_of_cons Hb; [|by apply H3]. rewrite List.Forall_forall in Hx2. by apply Hx2, list_elem_of_In.
Qed.

Lemma last_map {A B} (f : A -> B) l : last (map f l) = f <$> last l.
Proof. apply fmap_last. Qed.

Lemma covers_before s s' c : before s s' -> covers s' c = true -> covers s c = true.
Proof.
  intros [Hid Hlt]. unfold covers. rewrite Hid. destruct (conn_marks c !! seq_id s'); [|done].
  intros Hle%Z.leb_le. apply Z.leb_le. lia.
Qed.

(** ** Messages read *)

(** What the messages read say of the pairs written: each accepted [Ack] settles a run and names its
    last, each rejected one refuses the pair it names. *)
Inductive verdicts : list (SeqId * bool) -> list ControlMessage -> Prop :=
| verdicts_none : verdicts [] []
| verdicts_run seq run V ms :
    Forall (fun p => seq_id p.1 = seq_id seq /\ p.2 = true) run -> last run = Some (seq, true) -> verdicts V ms ->
    verdicts (run ++ V) (CmAck (ack_accepted (seq_id seq) (seq_seq seq)) :: ms)
| verdicts_refused seq reason message V ms :
    verdicts V ms ->
    verdicts ((seq, false) :: V) (CmAck (mkAck (seq_id seq) (seq_seq seq) (Control.Rejected reason message)) :: ms).

Lemma verdicts_app V ms V' ms' : verdicts V ms -> verdicts V' ms' -> verdicts (V ++ V') (ms ++ ms').
Proof. induction 1; intros Hb; rewrite <- ?app_assoc; simpl; [done|constructor; auto..]. Qed.

(** ** Marking *)

Definition marked (e : InFlight) : InFlight := mkInFlight (if_seq e) true.

Lemma mark_loop_past id seq l : Forall (fun s => seq < seq_seq s) (map if_seq l) -> mark_loop id seq l = (l, false).
Proof.
  destruct l as [|e l]; [done|]. simpl. intros Hf. inversion Hf; subst. rewrite (proj2 (Z.ltb_lt _ _)) by done.
  by rewrite orb_true_r.
Qed.

(** Of entries in ascending order, an [Ack] marks those up to the one it names. *)
Lemma mark_loop_spec id seq l : forall l',
  StronglySorted before (map if_seq l) -> mark_loop id seq l = (l', true) ->
  exists run rest, l = run ++ rest /\ l' = map marked run ++ rest /\
    Forall (fun s => seq_id s = id) (map if_seq run) /\ last (map if_seq run) = Some (mkSeqId id seq).
Proof.
  induction l as [|e l IH]; intros l'; [done|]. cbn [mark_loop map]. intros [Hs He]%StronglySorted_inv.
  destruct (bool_decide_reflect (seq_id (if_seq e) <> id)) as [Hid|Hid]; [done|]. apply dec_stable in Hid. cbn [orb].
  destruct (Z.ltb_spec seq (seq_seq (if_seq e))); [done|].
  destruct (Z.eqb_spec (seq_seq (if_seq e)) seq) as [Hseq|Hseq].
  - rewrite mark_loop_past.
    2:{ apply Forall_forall. intros s Hin. rewrite List.Forall_forall in He.
        destruct (He s) as [_ ?]; [by apply list_elem_of_In|]. lia. }
    intros [= <-]. exists [e], l. split_and!; try done; [by repeat constructor|]. simpl. destruct (if_seq e); simpl in *; congruence.
  - destruct (mark_loop id seq l) as [l1 named] eqn:E. cbn [orb]. intros [= <- ->].
    destruct (IH l1 Hs eq_refl) as (run & rest & -> & -> & Hf & Hl). exists (e :: run), rest.
    split_and!; try done; [by constructor|]. simpl. destruct (map if_seq run) eqn:Er; [done|]. exact Hl.
Qed.

(** ** A connection's transcript *)

Section Transcript.
Context {I : Interner} {Sm : Summaries} {D : FrameDeps}.

(** Control messages read one after the other. *)
Inductive reads : bytes -> list ControlMessage -> bytes -> Prop :=
| reads_none bs : reads bs [] bs
| reads_more bs m bs' ms rest : read_control bs = Some (m, bs') -> reads bs' ms rest -> reads bs (m :: ms) rest.

Lemma reads_snoc bs ms bs' m rest : reads bs ms bs' -> read_control bs' = Some (m, rest) -> reads bs (ms ++ [m]) rest.
Proof. induction 1; intros Hr; simpl; econstructor; eauto using reads. Qed.

(** A frame as it is written, and the frames of a connection: within its bounds, each named by its pair. *)
Definition framed (compression : Compression) (p : SeqId * bytes) : bytes :=
  match write_frame_with_flags CODEC_HOP_BATCH compression 0 p.2 with Ok f => f | Err _ => [] end.

Definition fits (c : Conn) (p : SeqId * bytes) : Prop :=
  blen p.2 <= Z.min (peer_max_frame_bytes c) MAX_SANE_UNCOMPRESSED_LEN /\ seq_ok p.1 = true /\
  (exists body, parse read_hop_prefix p.2 = Ok (p.1, body)).

(** [W] are the frames whose bytes left, the last of them perhaps not whole; [V] what became of the
    first of them, by the messages [ms] read after the [HelloAck]. *)
Record transcript (c : Conn) (hello : Hello) (ack : HelloAck) (W : list (SeqId * bytes)) (V : list (SeqId * bool))
    (ms : list ControlMessage) (k : nat) (rest : bytes) : Prop := mkTranscript {
  t_left : exists hf, write_frame_with_flags 0 CompNone FLAG_CONTROL (hello_encode hello) = Ok hf /\
    left c = hf ++ take k (concat (map (framed (compression c)) W));
  t_hello : hello_ok hello = true;
  t_fits : Forall (fits c) W;
  t_sorted : StronglySorted before W.*1;
  t_prefix : V.*1 `prefix_of` W.*1;
  t_verdicts : verdicts V ms;
  t_reads : reads (arrived c) (CmHelloAck ack :: ms) rest;
  t_valid : validate_hello_ack ack hello = Some (compression c);
  t_marks : conn_marks c = list_to_map (reverse (ha_marks ack));
  t_max : peer_max_frame_bytes c = ha_max_frame_bytes ack
}.

(** An answer, on the connection's own evidence. *)
Definition vouched (c : Conn) (V : list (SeqId * bool)) (a : SeqId * bool) : Prop :=
  a.2 = true /\ covers a.1 c = true \/ a ∈ V.

Definition proven (c : Conn) (a : SeqId * bool) : Prop :=
  exists hello ack W V ms k rest, transcript c hello ack W V ms k rest /\ vouched c V a.

(** A connection the sink still holds, [K] the answers it gave on it. *)
Definition live (K : list (SeqId * bool)) (c : Conn) : Prop :=
  exists hello ack W V ms k A U Wp, transcript c hello ack W V ms k (arriving c) /\
    in_flight c = A ++ U /\ Forall (fun e => seq_ok (if_seq e) = true) (in_flight c) /\
    Forall (fun e => acked e = true /\ vouched c V (if_seq e, true)) A /\ Forall (fun e => acked e = false) U /\
    V.*1 ++ map if_seq U = Wp.*1 /\ Forall (fun s => covers s c = false) Wp.*1 /\ Forall (vouched c V) K /\
    (if broken c then exists p, W = Wp ++ [p]
     else W = Wp /\ (length (concat (map (framed (compression c)) W)) <= k)%nat /\ Wp.*1 ⊆ given c).

Lemma live_proven K c s : live K c -> s ∈ K -> proven c s.
Proof.
  intros (hello & ack & W & V & ms & k & A & U & Wp & Ht & _ & _ & _ & _ & _ & _ & HK & _) Hs.
  exists hello, ack, W, V, ms, k, (arriving c). split; [done|]. rewrite Forall_forall in HK. by apply HK.
Qed.

(** What the sink answered is proven by the connections it gave up, but for [K]. *)
Definition acct (K : list (SeqId * bool)) (self : LogitOutput) : Prop :=
  forall a, a ∈ answered self -> a ∈ K \/ exists c, c ∈ gone self /\ proven c a.

(** The rest is proven by the connection it holds; its next [Hello] is well formed, and lists senders
    only where it holds no connection. *)
Definition accounted (self : LogitOutput) : Prop :=
  exists K, acct K self /\ hello_ok (hello_of self) = true /\
    match stream self with Some c => live K c /\ resend_senders self = [] | None => K = [] end.

(** ** What keeps the account *)

(** The parts of a connection its transcript is about. *)
Definition same_wire (c c' : Conn) : Prop :=
  arrived c' = arrived c /\ left c' = left c /\ compression c' = compression c /\
  peer_max_frame_bytes c' = peer_max_frame_bytes c /\ conn_marks c' = conn_marks c.

Lemma transcript_same c c' hello ack W V ms k rest :
  same_wire c c' -> transcript c hello ack W V ms k rest -> transcript c' hello ack W V ms k rest.
Proof.
  intros (H1 & H2 & H3 & H4 & H5) []. split; rewrite ?H1, ?H2, ?H3, ?H4, ?H5; try done.
  eapply Forall_impl; [done|]. intros p. unfold fits. by rewrite H4.
Qed.

Lemma proven_same c c' a : same_wire c c' -> proven c a -> proven c' a.
Proof.
  intros Hw (hello & ack & W & V & ms & k & rest & Ht & Hv). exists hello, ack, W, V, ms, k, rest.
  split; [by eapply transcript_same|]. destruct Hw as (_ & _ & _ & _ & H5). unfold vouched, covers in *. by rewrite H5.
Qed.

Lemma vouched_more c V V' a : vouched c V a -> vouched c (V ++ V') a.
Proof. intros [?|?]; [by left|right; apply elem_of_app; by left]. Qed.

Lemma handshake_live net arrives self conn self' :
  hello_ok (hello_of self) = true -> handshake net arrives self = inr (conn, self') -> live [] conn.
Proof.
  intros Hok. unfold handshake. destruct (write_frame_with_flags _ _ _ _) as [hf|] eqn:Hf; [|done]. destruct (negb (hello_leaves net)); [done|].
  destruct (if timely net then read_control arrives else None) as [[m rest]|] eqn:Hr; [|done].
  assert (read_control arrives = Some (m, rest)) as Hr' by by destruct (timely net).
  destruct m as [|ack| |]; try done. destruct (validate_hello_ack ack (hello_of self)) as [comp|] eqn:Hv; [|done].
  intros [= <- <-]. exists (hello_of self), ack, [], [], [], 0%nat, [], [], []. cbn -[hello_ok hello_of].
  split_and!; try constructor; try done; cbn -[hello_ok hello_of].
  - exists hf. by rewrite app_nil_r.
  - constructor.
  - constructor.
  - eapply reads_more; [done|constructor].
Qed.

Lemma live_resume K c seq :
  live K c -> broken c = false -> covers seq c = true -> seq_ok seq = true -> Forall (fun s => before s seq) (given c) ->
  live K (push_back seq true c).
Proof.
  intros (hello & ack & W & V & ms & k & A & U & Wp & Ht & Hfl & Hsq & HA & HU & Hp & Hcov & HK & Hb) Hbr Hc Hok Hg. rewrite Hbr in Hb.
  destruct Hb as (-> & Hk & Hsub). assert (same_wire c (push_back seq true c)) as Hw by done.
  assert (U = []) as ->.
  { destruct U as [|u U]; [done|]. assert (if_seq u ∈ Wp.*1) as Hu by (rewrite <- Hp; apply elem_of_app; right; by left).
    rewrite Forall_forall in Hg, Hcov. specialize (Hcov _ Hu). cbn in Hcov.
    by rewrite (covers_before _ _ _ (Hg _ (Hsub _ Hu)) Hc) in Hcov. }
  exists hello, ack, Wp, V, ms, k, (A ++ [mkInFlight seq true]), [], Wp. cbn [push_back in_flight broken given].
  rewrite Hfl, !app_nil_r in *. rewrite Hbr. split_and!; try done; [by eapply transcript_same|apply Forall_app; split; [done|by constructor]|..].
  - apply Forall_app. split; [done|]. constructor; [|done]. split; [done|by left].
  - etrans; [done|]. by apply list_subseteq_app_l.
Qed.

(** The frame goes out: [n] bytes of it, all or not. *)
Lemma transcript_left c hello ack Wp V ms k rest seq payload f n b :
  transcript c hello ack Wp V ms k rest -> (length (concat (map (framed (compression c)) Wp)) <= k)%nat -> fits c (seq, payload) ->
  Forall (fun s => before s seq) Wp.*1 -> write_frame_with_flags CODEC_HOP_BATCH (compression c) 0 payload = Ok f ->
  transcript (with_left (take n f) b c) hello ack (Wp ++ [(seq, payload)]) V ms
    (length (concat (map (framed (compression c)) Wp)) + n) rest.
Proof.
  intros [(hf & Hhf & Hl) Hok Hfit Hs Hpre Hv Hr Hval Hm Hmax] Hk Hf Hbef Hw. split; try done.
  - exists hf. split; [done|]. cbn [left with_left compression]. rewrite Hl, take_ge by done.
    rewrite map_app, concat_app, take_app_add. cbn [map concat]. rewrite app_nil_r. unfold framed at 3. cbn [snd].
    by rewrite Hw, app_assoc.
  - apply Forall_app. split; [done|by constructor].
  - rewrite fmap_app. by apply sorted_snoc.
  - rewrite fmap_app. by apply prefix_app_r.
Qed.

Lemma live_written K c seq payload f :
  live K c -> broken c = false -> covers seq c = false -> Forall (fun s => before s seq) (given c) -> fits c (seq, payload) ->
  write_frame_with_flags CODEC_HOP_BATCH (compression c) 0 payload = Ok f ->
  live K (push_back seq false (with_left f (broken c) c)) /\ (forall n, live K (with_left (take n f) true c)).
Proof.
  intros (hello & ack & W & V & ms & k & A & U & Wp & Ht & Hfl & Hsq & HA & HU & Hp & Hcov & HK & Hb) Hbr Hc Hg Hfit Hw. rewrite Hbr in Hb.
  destruct Hb as (-> & Hk & Hsub).
  assert (Forall (fun s => before s seq) Wp.*1) as Hbef by (rewrite Forall_forall in *; auto). split.
  - pose proof (transcript_left c hello ack Wp V ms k (arriving c) seq payload f (length f) (broken c) Ht Hk Hfit Hbef Hw) as Ht'.
    rewrite firstn_all in Ht'.
    exists hello, ack, (Wp ++ [(seq, payload)]), V, ms, (length (concat (map (framed (compression c)) Wp)) + length f)%nat,
      A, (U ++ [mkInFlight seq false]), (Wp ++ [(seq, payload)]).
    cbn [push_back with_left in_flight broken given compression arriving]. rewrite Hbr, Hfl in *. split_and!; try done.
    + by eapply transcript_same, Ht'.
    + by rewrite app_assoc.
    + apply Forall_app. split; [done|]. constructor; [|done]. by destruct Hfit as (_ & ? & _).
    + apply Forall_app. split; [done|by constructor].
    + rewrite map_app, app_assoc, Hp, fmap_app. done.
    + rewrite fmap_app. apply Forall_app. split; [done|by constructor].
    + rewrite map_app, concat_app, length_app. cbn. unfold framed at 2. cbn [snd]. rewrite Hw, app_nil_r. lia.
    + rewrite fmap_app. apply list_subseteq_app_iff_l. split; [by apply list_subseteq_app_l|]. by apply list_subseteq_app_r.
  - intros n. exists hello, ack, (Wp ++ [(seq, payload)]), V, ms, (length (concat (map (framed (compression c)) Wp)) + n)%nat, A, U, Wp.
    split_and!; try done; [by apply (transcript_left c hello ack Wp V ms k)|]. cbn. eauto.
Qed.

Lemma live_pop K c front l :
  live K c -> in_flight c = front :: l -> acked front = true -> live (K ++ [(if_seq front, true)]) (with_in_flight l c).
Proof.
  intros (hello & ack & W & V & ms & k & A & U & Wp & Ht & Hfl & Hsq & HA & HU & Hp & Hcov & HK & Hb) Hin Hack.
  assert (same_wire c (with_in_flight l c)) as Hw by done. rewrite Hin in Hsq. apply Forall_cons in Hsq as [_ Hsq]. destruct A as [|a A].
  { rewrite Hfl in Hin. simpl in Hin. subst U. inversion HU; congruence. }
  rewrite Hfl in Hin. injection Hin as -> <-. apply Forall_cons in HA as [[_ Hv] HA'].
  exists hello, ack, W, V, ms, k, A, U, Wp. split_and!; try done; [by eapply transcript_same|].
  apply Forall_app. split; [done|]. by constructor.
Qed.

(** A connection whose front is unmarked. *)
Lemma live_front K c front l :
  live K c -> in_flight c = front :: l -> acked front = false ->
  exists hello ack W V ms k Wp, transcript c hello ack W V ms k (arriving c) /\
    Forall (fun e => seq_ok (if_seq e) = true) (in_flight c) /\ Forall (fun e => acked e = false) (in_flight c) /\
    V.*1 ++ map if_seq (in_flight c) = Wp.*1 /\ StronglySorted before Wp.*1 /\
    Forall (fun s => covers s c = false) Wp.*1 /\ Forall (vouched c V) K /\ Wp `prefix_of` W /\
    (if broken c then exists p, W = Wp ++ [p]
     else W = Wp /\ (length (concat (map (framed (compression c)) W)) <= k)%nat /\ Wp.*1 ⊆ given c).
Proof.
  intros (hello & ack & W & V & ms & k & A & U & Wp & Ht & Hfl & Hsq & HA & HU & Hp & Hcov & HK & Hb) Hin Hack.
  destruct A as [|a A]; [|rewrite Hfl in Hin; injection Hin as -> _; inversion HA as [|? ? [? _] _]; congruence].
  simpl in Hfl. subst U. exists hello, ack, W, V, ms, k, Wp.
  assert (Wp `prefix_of` W) as Hpre by (destruct (broken c); [destruct Hb as [p ->]; by eexists|destruct Hb as [-> _]; reflexivity]).
  split_and!; try done. pose proof (t_sorted _ _ _ _ _ _ _ _ Ht) as Hs. destruct Hpre as [W' ->]. rewrite fmap_app in Hs.
  by apply sorted_app in Hs as [? _].
Qed.

(** One more message read. *)
Lemma transcript_read c hello ack W V ms k m rest l V' :
  transcript c hello ack W V ms k (arriving c) -> read_control (arriving c) = Some (m, rest) ->
  verdicts V' [m] -> (V ++ V').*1 `prefix_of` W.*1 ->
  transcript (with_in_flight l (with_arriving rest c)) hello ack W (V ++ V') (ms ++ [m]) k rest.
Proof.
  intros [Hl Hok Hfit Hs Hpre Hv Hr Hval Hm Hmax] Hread Hv' Hp'. split; try done.
  - by apply verdicts_app.
  - by apply (reads_snoc _ (CmHelloAck ack :: ms) (arriving c)).
Qed.

Lemma live_marked K c front l id seq rest l' :
  live K c -> in_flight c = front :: l -> acked front = false ->
  read_control (arriving c) = Some (CmAck (ack_accepted id seq), rest) -> mark_acked (in_flight c) id seq = Some l' ->
  live K (with_in_flight l' (with_arriving rest c)) /\ exists front' l1, l' = front' :: l1 /\ acked front' = true.
Proof.
  intros Hl Hin Hack Hread Hm.
  destruct (live_front K c front l Hl Hin Hack) as (hello & ack & W & V & ms & k & Wp & Ht & Hsq & HU & Hp & Hs & Hcov & HK & Hpre & Hb).
  assert (exists l2, mark_loop id seq (in_flight c) = (l2, true) /\ l' = l2) as (l2 & Hml & ->).
  { unfold mark_acked in Hm. rewrite Hin in *. destruct (bool_decide (seq_id (if_seq front) <> id)); [done|].
    destruct (mark_loop id seq (front :: l)) as [l2 []]; [|done]. injection Hm as <-. eauto. }
  assert (StronglySorted before (map if_seq (in_flight c))) as Hs2 by (rewrite <- Hp in Hs; by apply sorted_app in Hs as (_ & ? & _)).
  destruct (mark_loop_spec id seq _ _ Hs2 Hml) as (run & tail & Hrun & -> & Hids & Hlast).
  set (V' := map (fun e => (if_seq e, true)) run). rewrite Hrun in Hp, HU, Hsq. apply Forall_app in HU as [_ HU], Hsq as [Hsq1 Hsq2].
  assert (V'.*1 = map if_seq run) as HV1 by (unfold V'; rewrite <- list_fmap_compose; done).
  assert ((V ++ V').*1 ++ map if_seq tail = Wp.*1) as Hp' by (rewrite fmap_app, HV1, <- app_assoc, <- map_app; done).
  assert (verdicts V' [CmAck (ack_accepted id seq)]) as Hv'.
  { rewrite <- (app_nil_r V'). refine (verdicts_run (mkSeqId id seq) V' [] [] _ _ verdicts_none).
    - unfold V'. apply Forall_map, Forall_forall. intros e He. split; [|done]. rewrite Forall_forall in Hids. cbn.
      apply Hids, list_elem_of_fmap. eauto.
    - unfold V'. rewrite last_map in Hlast. rewrite last_map. destruct (last run) as [e|]; [|done]. injection Hlast as He. cbn. by rewrite He. }
  split.
  - exists hello, ack, W, (V ++ V'), (ms ++ [CmAck (ack_accepted id seq)]), k, (map marked run), tail, Wp. split_and!; try done.
    + apply transcript_read; try done. destruct Hpre as [W' ->]. rewrite (fmap_app _ Wp), <- Hp', <- app_assoc. by eexists.
    + cbn. apply Forall_app. split; [|done]. by apply Forall_map.
    + apply Forall_map, Forall_forall. intros e He. split; [done|]. right. cbn. apply elem_of_app. right. unfold V'.
      apply list_elem_of_fmap. by exists e.
    + eapply Forall_impl; [done|]. intros s Hv. by apply (vouched_more c).
  - destruct run as [|e run]; [done|]. simpl. eauto.
Qed.

Lemma live_refused K c front l seq reason message rest l' :
  live K c -> in_flight c = front :: l -> acked front = false ->
  read_control (arriving c) = Some (CmAck (mkAck (seq_id seq) (seq_seq seq) (Control.Rejected reason message)), rest) ->
  settle_rejected (in_flight c) (seq_id seq) (seq_seq seq) = Some l' ->
  live (K ++ [(if_seq front, false)]) (with_in_flight l' (with_arriving rest c)).
Proof.
  intros Hl Hin Hack Hread Hm.
  destruct (live_front K c front l Hl Hin Hack) as (hello & ack & W & V & ms & k & Wp & Ht & Hsq & HU & Hp & Hs & Hcov & HK & Hpre & Hb).
  rewrite Hin in Hm, Hp, HU, Hsq. simpl in Hm. destruct (bool_decide_reflect (if_seq front = mkSeqId (seq_id seq) (seq_seq seq))) as [Hf|]; [|done].
  rewrite Hack in Hm. simpl in Hm. injection Hm as <-. assert (if_seq front = seq) as Hfs by (rewrite Hf; by destruct seq).
  apply Forall_cons in HU as [_ HU'], Hsq as [_ Hsq']. cbn [map] in Hp. rewrite Hfs in Hp. rewrite Hfs.
  assert ((V ++ [(seq, false)]).*1 ++ map if_seq l = Wp.*1) as Hp' by (rewrite fmap_app, <- app_assoc; done).
  exists hello, ack, W, (V ++ [(seq, false)]), (ms ++ [CmAck (mkAck (seq_id seq) (seq_seq seq) (Control.Rejected reason message))]), k, [], l, Wp.
  split_and!; try done.
  - apply transcript_read; [done..|repeat constructor|]. destruct Hpre as [W' ->]. rewrite (fmap_app _ Wp), <- Hp', <- app_assoc. by eexists.
  - apply Forall_app. split; [eapply Forall_impl; [done|]; intros s Hv; by apply (vouched_more c)|].
    constructor; [|done]. right. apply elem_of_app. right. by apply list_elem_of_singleton.
Qed.

(** ** The next [Hello] *)

Lemma hello_ok_parts self l :
  hello_ok (hello_of self) = true -> Z.of_nat (length l) <= MAX_HELLO_SENDERS -> forallb id_ok l = true ->
  hello_ok (hello_of (with_resend l self)) = true.
Proof.
  unfold hello_ok, hello_of. cbn [he_version he_codecs he_compressions he_max_frame_bytes he_window he_senders with_resend
    offered_compression offered_window resend_senders]. intros Hok Hl Hid. rewrite Hid, (proj2 (Z.leb_le (Z.of_nat (length l)) MAX_HELLO_SENDERS)) by done.
  by apply andb_true_iff in Hok as [-> _].
Qed.

Lemma resend_senders_ok entries : forall senders,
  Forall (fun e => seq_ok (if_seq e) = true) entries -> Z.of_nat (length senders) <= MAX_HELLO_SENDERS -> forallb id_ok senders = true ->
  Z.of_nat (length (resend_senders_of entries senders)) <= MAX_HELLO_SENDERS /\ forallb id_ok (resend_senders_of entries senders) = true.
Proof.
  induction entries as [|e entries IH]; intros senders Hf Hl Hid; [done|]. apply Forall_cons in Hf as [He Hf]. cbn [resend_senders_of].
  destruct (Z.eqb_spec (Z.of_nat (length senders)) MAX_HELLO_SENDERS); [done|]. case_bool_decide; [by apply IH|]. apply IH; [done| |].
  - rewrite length_app. simpl. lia.
  - rewrite forallb_app, Hid. simpl. unfold seq_ok in He. apply andb_true_iff in He as [[He _]%andb_true_iff _].
    unfold id_ok, SENDER_ID_BYTES. by rewrite He.
Qed.

(** ** Every call keeps the account *)

Lemma acct_drop K c self : acct K self -> (forall a, a ∈ K -> proven c a) -> acct [] (drop_conn c self).
Proof.
  intros Ha Hp a Hs. right. destruct (Ha a Hs) as [HK|(c' & Hc' & Hpr)].
  - exists c. split; [apply elem_of_app; right; by apply list_elem_of_singleton|by apply Hp].
  - exists c'. split; [apply elem_of_app; by left|done].
Qed.

Lemma accounted_drop K c self :
  acct K self -> hello_ok (hello_of self) = true -> (forall a, a ∈ K -> proven c a) -> accounted (drop_conn c self).
Proof. intros Ha Hh Hp. exists []. split; [by eapply acct_drop|done]. Qed.

Lemma accounted_hold K c self :
  acct K self -> hello_ok (hello_of self) = true -> live K c -> resend_senders self = [] -> accounted (with_stream (Some c) self).
Proof. intros Ha Hh Hl Hr. by exists K. Qed.

Lemma accounted_abandon self : accounted self -> accounted (abandon self).
Proof.
  intros (K & Ha & Hh & Hs). unfold abandon. destruct (stream self) as [c|] eqn:Hc; [|exists K; by rewrite Hc].
  destruct Hs as [Hl _]. eapply accounted_drop; [done..|]. intros s. by apply live_proven.
Qed.

Lemma validate_no_marks ack hello comp : validate_hello_ack ack hello = Some comp -> he_senders hello = [] -> ha_marks ack = [].
Proof.
  unfold validate_hello_ack. intros H Hs. rewrite Hs in H. destruct (ha_marks ack) as [|[id m] l]; [done|].
  cbn [marks_answer] in H. rewrite bool_decide_eq_false_2 in H by apply not_elem_of_nil. cbn [andb negb] in H.
  by do 2 (case_match; [done|]).
Qed.

Lemma connect_live net self conn self' :
  hello_ok (hello_of self) = true -> connect_and_handshake net self = inr (conn, self') ->
  live [] conn /\ broken conn = false /\ given conn = [] /\ self' = with_resend [] self /\ hello_ok (hello_of self') = true /\
  (resend_senders self = [] -> forall s, covers s conn = false).
Proof.
  intros Hh. unfold connect_and_handshake. destruct (dial net) as [bs|]; [|done]. intros H. split; [by eapply handshake_live|].
  destruct (handshake_new _ _ _ _ _ H) as (_ & Hg & Hs).
  assert (hello_ok (hello_of self') = true) as Hh' by (rewrite Hs; by apply hello_ok_parts).
  unfold handshake in H. repeat case_match; simplify_eq. split_and!; try done. intros Hr s.
  match goal with E : validate_hello_ack _ _ = _ |- _ => apply validate_no_marks in E; [|exact Hr] end.
  unfold covers. cbn. by match goal with E : ha_marks _ = [] |- _ => rewrite E end.
Qed.

Lemma write_payload_accounted net seq payload conn self K body :
  stream self = None -> acct K self -> hello_ok (hello_of self) = true -> resend_senders self = [] -> live K conn ->
  broken conn = false -> covers seq conn = false -> Forall (fun s => before s seq) (given conn) ->
  seq_ok seq = true -> parse read_hop_prefix payload = Ok (seq, body) ->
  accounted (snd (write_payload net seq payload conn self)).
Proof.
  intros Hs Ha Hh Hr Hl Hb Hc Hg Hok Hp. unfold write_payload.
  pose proof (accounted_hold K conn self Ha Hh Hl Hr) as Hkept.
  set (bound := Z.min (peer_max_frame_bytes conn) MAX_SANE_UNCOMPRESSED_LEN). destruct (Z.ltb_spec bound (blen payload)); [done|].
  destruct (write_frame_with_flags _ _ _ _) as [f|] eqn:Hw; [|done]. destruct (compressed_bound bound <? blen f - HEADER_LEN); [done|].
  destruct (live_written K conn seq payload f Hl Hb Hc Hg) as [Hpush Hstall]; [|done|].
  { unfold fits. split_and!; [done|done|eauto]. }
  destruct (stalls net) as [n|]; [|by apply (accounted_hold K)]. destruct (nothing_in_flight conn); [|by apply (accounted_hold K)].
  eapply accounted_drop; [done..|]. intros s HK. by eapply proven_same, live_proven, HK; [|apply (Hstall n)].
Qed.

Lemma parse_encode_hop batch provenance trace seq :
  seq_ok seq = true -> blen (encode_hop_batch batch provenance trace seq) <= MAX_SANE_UNCOMPRESSED_LEN ->
  exists body, parse read_hop_prefix (encode_hop_batch batch provenance trace seq) = Ok (seq, body).
Proof.
  intros Hok Hlen. unfold encode_hop_batch in *. cbv zeta in *. rewrite !app_assoc in *.
  rewrite <- !(app_assoc (seq_id seq ++ write_uvarint (seq_seq seq))) in *.
  eexists. apply parse_reads; [by apply reads_hop_prefix|]. rewrite blen_app in Hlen.
  assert (MAX_SANE_UNCOMPRESSED_LEN < 2 ^ 64) by by compute.
  match type of Hlen with _ + blen ?x <= _ => pose proof (blen_nonneg x) end. lia.
Qed.

Lemma submit_frame_accounted net batch ctx seq self :
  accounted self -> seq_ok seq = true -> Forall (fun s => before s seq) (giving self) ->
  accounted (snd (submit_frame net batch ctx seq self)).
Proof.
  intros Hacc Hok Hg. unfold submit_frame.
  set (fresh := match stream self, resend_senders self with None, _ :: _ => true | _, _ => false end).
  match goal with |- context [match ?m with inl e => (Some e, self) | inr self => _ end] => destruct m as [e|self1] eqn:E1 end; [done|].
  assert (accounted self1 /\ Forall (fun s => before s seq) (giving self1) /\ (stream self1 = None -> resend_senders self1 = [])) as (Hacc1 & Hg1 & Hn1).
  { unfold fresh in E1. destruct Hacc as (K & Ha & Hh & Hs). destruct (stream self) as [c|] eqn:Hc.
    - injection E1 as <-. split_and!; [exists K; by rewrite Hc|done|by rewrite Hc].
    - subst K. destruct (resend_senders self) eqn:Hr; [injection E1 as <-; split_and!; [exists []; by rewrite Hc|done..]|].
      destruct (connect_and_handshake net self) as [e|[conn self']] eqn:E; [done|]. injection E1 as <-.
      destruct (connect_live _ _ _ _ Hh E) as (Hl & Hb & Hgv & -> & Hh' & _).
      split_and!; [by exists []|unfold giving; cbn; by rewrite Hb, Hgv|done]. }
  clear E1 Hacc Hg. destruct Hacc1 as (K & Ha & Hh & Hs).
  match goal with |- context [match ?m with Some conn => (None, _) | None => _ end] => destruct m as [conn|] eqn:E2 end.
  { destruct (stream self1) as [c|] eqn:Es; [|done]. destruct Hs as [Hl Hr]. destruct (negb (broken c) && covers seq c) eqn:Hcv; [|done].
    injection E2 as ->. apply andb_true_iff in Hcv as [Hb%negb_true_iff Hcv]. apply (accounted_hold K); [done..| |done].
    unfold giving in Hg1. rewrite Es, Hb in Hg1. by apply live_resume. }
  set (payload := encode_hop_batch _ _ _ _). destruct (Z.ltb_spec MAX_SANE_UNCOMPRESSED_LEN (blen payload)) as [|Hlen]; [by exists K|].
  destruct (parse_encode_hop batch (ctx_provenance ctx) (if sampled net then Some (hop_trace_from (ctx_trace ctx)) else None) seq Hok Hlen) as [body Hp].
  fold payload in Hp.
  assert (forall self2, stream self2 = None -> acct [] self2 -> hello_ok (hello_of self2) = true -> resend_senders self2 = [] -> accounted (snd
      match connect_and_handshake net self2 with inl e => (Some e, self2) | inr (conn, self) => write_payload net seq payload conn self end)) as Hnew.
  { intros self2 Hs2 Ha2 Hh2 Hr2. destruct (connect_and_handshake net self2) as [e|[conn2 self3]] eqn:E; [exists []; cbn [snd]; by rewrite Hs2|].
    destruct (connect_live _ _ _ _ Hh2 E) as (Hl & Hb & Hgv & -> & Hh' & Hcv).
    apply (write_payload_accounted _ _ _ _ _ [] body); try done; [by apply Hcv|by rewrite Hgv]. }
  destruct (stream self1) as [conn|] eqn:Es.
  - destruct Hs as [Hl Hr]. unfold giving in Hg1. rewrite Es in Hg1. destruct (broken conn) eqn:Hb; [exists K; cbn [snd]; by rewrite Es|].
    destruct (fresh || negb (nothing_in_flight conn) || probe_open net).
    + apply (write_payload_accounted _ _ _ _ _ K body); try done. by destruct (covers seq conn).
    + apply Hnew; [done| |done..]. eapply acct_drop; [done|]. intros s. by apply live_proven.
  - subst K. apply Hnew; [done..|by apply Hn1].
Qed.

Lemma keep_accounted K c self :
  acct K self -> hello_ok (hello_of self) = true -> live K c -> resend_senders self = [] -> accounted (keep c self).
Proof.
  intros Ha Hh Hl Hr. unfold keep. destruct (broken c && nothing_in_flight c); [|by apply (accounted_hold K)].
  eapply accounted_drop; [done..|]. intros s. by apply live_proven.
Qed.

(** The connection is put back with its front answered for. *)
Lemma answer_accounted K c seq ok self :
  acct K self -> hello_ok (hello_of self) = true -> live (K ++ [(seq, ok)]) c -> resend_senders self = [] ->
  accounted (answer seq ok (keep c self)).
Proof.
  intros Ha Hh Hl Hr. assert (acct (K ++ [(seq, ok)]) (answer seq ok self)) as Ha'.
  { intros s [Hs|Hs]%elem_of_app; [destruct (Ha s Hs) as [?|?]; [left; apply elem_of_app; by left|by right]|].
    left. apply elem_of_app. by right. }
  pose proof (keep_accounted _ c (answer seq ok self) Ha' Hh Hl Hr) as Hk. unfold keep in *. by destruct (broken c && _).
Qed.

Lemma pop_front_accounted K c front l self :
  acct K self -> hello_ok (hello_of self) = true -> live K c -> resend_senders self = [] -> in_flight c = front :: l ->
  acked front = true -> accounted (snd (pop_front c self)).
Proof.
  intros Ha Hh Hl Hr Hin Hack. unfold pop_front. rewrite Hin. apply (answer_accounted K); try done. by apply live_pop.
Qed.

Lemma live_senders K c self :
  live K c -> hello_ok (hello_of self) = true -> hello_ok (hello_of (with_resend (conn_resend_senders c) self)) = true.
Proof.
  intros (hello & ack & W & V & ms & k & A & U & Wp & _ & _ & Hsq & _) Hh.
  destruct (resend_senders_ok (in_flight c) [] Hsq) as [? ?]; [done..|]. by apply hello_ok_parts.
Qed.

Lemma read_ack_accounted net self : accounted self -> accounted (snd (read_ack net self)).
Proof.
  intros Hacc. pose proof Hacc as (K & Ha & Hh & Hs). unfold read_ack. destruct (stream self) as [c|] eqn:Hc; [|done].
  destruct (in_flight c) as [|front l] eqn:Hin; [done|]. destruct Hs as [Hl Hr].
  destruct (acked front) eqn:Hack; [by apply (pop_front_accounted K c front l)|].
  assert (forall e c', same_wire c c' -> in_flight c' = in_flight c -> accounted (snd (Some e : option SendError, with_resend (conn_resend_senders c')
    (drop_conn c' (with_stream None self))))) as Hfail.
  { intros e c' Hw Hi. exists []. split; [|split; [|done]].
    - eapply (acct_drop K); [done|]. intros s HK. apply (proven_same c); [done|]. by apply (live_proven K).
    - unfold conn_resend_senders. rewrite Hi. by apply (live_senders K c self). }
  destruct (if timely net then read_control (arriving c) else None) as [[m rest]|] eqn:Hr'; [|by apply Hfail].
  assert (read_control (arriving c) = Some (m, rest)) as Hread by by destruct (timely net).
  destruct m as [| |[id seq status]|rj]; try by apply Hfail.
  cbn [in_flight with_arriving ack_status ack_id ack_seq]. destruct status as [|reason message].
  - destruct (mark_acked (in_flight c) id seq) as [l'|] eqn:Hm; [|by apply Hfail].
    destruct (live_marked K c front l id seq rest l' Hl Hin Hack Hread Hm) as (Hl' & f' & l1 & -> & Hf').
    by apply (pop_front_accounted K _ f' l1).
  - destruct (settle_rejected (in_flight c) id seq) as [l'|] eqn:Hm; [|by apply Hfail]. apply (answer_accounted K); try done.
    by apply (live_refused K c front l (mkSeqId id seq) reason message rest l').
Qed.

(** A new sink, of a well-formed configuration. *)
Definition new_sink (self : LogitOutput) : Prop :=
  stream self = None /\ answered self = [] /\ gone self = [] /\ resend_senders self = [] /\ hello_ok (hello_of self) = true.

Lemma used_accounted given self : used given new_sink self -> accounted self.
Proof.
  induction 1 as [o Ho|p o _ IH|a seq o _ IH|n a seq o _ IH Hout Htold Hok Hg|n a seq o _ IH Hout Htold Hok Hg|n a seq o _ IH Hok Hg|
    |n a seq o _ IH Hok Hg| |n o _ IH|o _ IH]; try done.
  - destruct Ho as (Hs & Hc & _ & _ & Hh). exists []. rewrite Hs. split; [|done]. intros s. rewrite Hc. by intros ?%not_elem_of_nil.
  - cbn in *. unfold logit_send. rewrite Htold. pose proof (submit_frame_accounted n a.1 (pending_ctx o) seq o IH Hok Hg) as H1.
    destruct (submit_frame _ _ _ _ _) as [[e|] o1]; [done|]. cbn [snd] in H1. pose proof (read_ack_accounted n o1 H1) as H2.
    by destruct (read_ack n o1) as [[e|] o2].
  - cbn in *. unfold logit_cut_send. rewrite Htold. by apply accounted_abandon, submit_frame_accounted.
  - by apply submit_frame_accounted.
  - by apply accounted_abandon, submit_frame_accounted.
  - by apply read_ack_accounted.
  - by apply accounted_abandon.
Qed.

(** Each answer is proven by a connection of the sink. *)
Lemma answered_proven given self a :
  used given new_sink self -> a ∈ answered self -> exists c, (stream self = Some c \/ c ∈ gone self) /\ proven c a.
Proof.
  intros (K & Ha & _ & Hs)%used_accounted Hin. destruct (Ha a Hin) as [HK|(c & Hc & Hp)]; [|by eauto].
  destruct (stream self) as [c|] eqn:Hc; [|subst K; by apply not_elem_of_nil in HK]. destruct Hs as [Hl _].
  exists c. split; [by left|]. by eapply live_proven.
Qed.
End Transcript.
