(* ===== verification/Hop.v ===== *)
(** * The hop

    The sink of [Sender] and the listener of [Receiver] and [Handshake] across one connection
    (crates/logit-outputs/src/logit.rs, crates/logit-inputs/src/logit.rs): the bytes one side writes
    are what the other reads, up to wherever the connection is cut. *)

From Stdlib Require Import Sorted.
From S2P Require Import Prelude Codec Budget Reader Varint Utf8 Model Instances ValueCodec Batch Frame Control Senders.
From S2P Require Import Receiver Delivery Handshake Acks Output Sender Transcript.

#[local] Open Scope wire_scope.

(** ** Control frames *)

Definition control_payload_frame `{FrameDeps} (p : bytes) : bytes :=
  match write_frame_with_flags 0 CompNone FLAG_CONTROL p with Ok f => f | Err _ => [] end.

(** [write_control] of either side, on the wire. *)
Definition control_frame `{FrameDeps} (m : ControlMessage) : bytes := control_payload_frame (control_encode m).

Section ControlFrames.
Context {D : FrameDeps} `{!FrameDepsOk D}.
#[local] Set Default Proof Using "Type*".

Lemma control_payload_frame_eq p :
  blen p <= MAX_SANE_UNCOMPRESSED_LEN ->
  control_payload_frame p = header_write (frame_header 0 CompNone FLAG_CONTROL p) ++ p.
Proof. intros Hp. unfold control_payload_frame. by rewrite write_frame_eq. Qed.

Lemma control_payload_frame_big p : MAX_SANE_UNCOMPRESSED_LEN < blen p -> control_payload_frame p = [].
Proof.
  intros Hp. unfold control_payload_frame. destruct (write_frame_with_flags _ _ _ _) eqn:E; [|done].
  apply write_frame_inv in E as [? _]. lia.
Qed.

(** A whole control frame is read back, what follows it left alone; one over the cap is not. *)
Lemma read_control_whole p rest :
  blen p <= MAX_SANE_UNCOMPRESSED_LEN ->
  read_control (control_payload_frame p ++ rest) =
  if blen p <=? MAX_CONTROL_MESSAGE_BYTES then
    match control_decode p with Ok m => Some (m, rest) | Err _ => None end
  else None.
Proof.
  intros Hp. rewrite control_payload_frame_eq by done. set (h := frame_header 0 CompNone FLAG_CONTROL p). unfold read_control.
  pose proof (length_header_write h) as Hl. rewrite <- app_assoc, length_app, <- Hl, (proj2 (Nat.ltb_ge _ _)), take_app_length, drop_app_length by lia.
  unfold h at 1. rewrite header_of_written by (done || by split). fold h.
  change (fh_uncompressed_len h) with (blen p). change (fh_compressed_len h) with (blen p).
  rewrite orb_diag, Z.leb_antisym. destruct (MAX_CONTROL_MESSAGE_BYTES <? blen p); [done|]. cbn [negb].
  assert (Z.to_nat (blen p) = length p) as -> by apply Nat2Z.id. rewrite length_app, (proj2 (Nat.ltb_ge _ _)), take_app_length, drop_app_length by lia.
  pose proof (read_written 0 CompNone FLAG_CONTROL p [] Hp ltac:(done) ltac:(by split) ltac:(by split)) as Hr. fold h in Hr. rewrite app_nil_r in Hr.
  change (stored CompNone p) with p in Hr. rewrite Hr. change (Z.land (fh_flags h) FLAG_CONTROL =? 0) with false.
  by destruct (control_decode p).
Qed.

(** One cut short is not read. *)
Lemma read_control_cut p k :
  (k < length (control_payload_frame p))%nat -> read_control (take k (control_payload_frame p)) = None.
Proof.
  destruct (Z.le_gt_cases (blen p) MAX_SANE_UNCOMPRESSED_LEN) as [Hp|Hp]; [|rewrite control_payload_frame_big by done; simpl; lia].
  rewrite control_payload_frame_eq by done. set (h := frame_header 0 CompNone FLAG_CONTROL p). pose proof (length_header_write h) as Hl.
  rewrite length_app. intros Hk. unfold read_control. rewrite length_take, length_app.
  destruct (Nat.ltb_spec (Nat.min k (length (header_write h) + length p)) (Z.to_nat HEADER_LEN)) as [|Hge]; [done|].
  rewrite take_take, Nat.min_l by lia. rewrite <- Hl, take_app_length. unfold h at 1. rewrite header_of_written by (done || by split). fold h.
  change (fh_uncompressed_len h) with (blen p). change (fh_compressed_len h) with (blen p). rewrite orb_diag.
  destruct (MAX_CONTROL_MESSAGE_BYTES <? blen p); [done|].
  assert (Z.to_nat (blen p) = length p) as -> by apply Nat2Z.id. rewrite length_drop, length_take, length_app, (proj2 (Nat.ltb_lt _ _)) by lia. done.
Qed.

Lemma read_control_nil : read_control [] = None.
Proof. done. Qed.

(** Messages read off frames that may be cut short: each is what its frame holds. *)
Lemma reads_frames ps : forall i tail ms rest,
  Forall (fun p => blen p <= MAX_SANE_UNCOMPRESSED_LEN) ps ->
  reads (take i (concat (map control_payload_frame ps) ++ tail)) ms rest ->
  Forall2 (fun m p => control_decode p = Ok m) ms (take (length ms) ps) \/
  exists ms1 m ms2 i' rest', ms = ms1 ++ m :: ms2 /\ Forall2 (fun m p => control_decode p = Ok m) ms1 ps /\
    read_control (take i' tail) = Some (m, rest').
Proof.
  induction ps as [|p ps IH]; intros i tail ms rest Hp Hr.
  - inversion Hr as [|? m bs' ms' ? Hm Hms]; subst; [left; constructor|]. right. exists [], m, ms', i, bs'. by repeat constructor.
  - apply Forall_cons in Hp as [Hp Hps]. inversion Hr as [|? m bs' ms' ? Hm Hms]; subst; [left; constructor|].
    cbn [map concat] in Hm. rewrite <- app_assoc in Hm.
    destruct (Nat.lt_ge_cases i (length (control_payload_frame p))) as [Hi|Hi].
    { rewrite take_app_le, read_control_cut in Hm by lia. done. }
    rewrite take_app_ge, read_control_whole in Hm by done. case_match; [|done]. destruct (control_decode p) as [m'|] eqn:Hd; [|done].
    injection Hm as -> <-. destruct (IH _ _ _ _ Hps Hms) as [Hf|(ms1 & m2 & ms2 & i' & rest' & -> & Hf & Hm)].
    + left. by constructor.
    + right. exists (m :: ms1), m2, ms2, i', rest'. split_and!; [done|by constructor|done].
Qed.
End ControlFrames.

(** ** What is heard of an answer *)

Lemma seq_ok_parts seq : seq_ok seq = true -> id_ok (seq_id seq) = true /\ u64 (seq_seq seq) /\ 1 <= seq_seq seq.
Proof.
  unfold seq_ok, id_ok. intros [[H1 H2]%andb_true_iff H3]%andb_true_iff. apply Z.ltb_lt in H2. apply unsigned_ok_spec in H3.
  split_and!; [done..|lia].
Qed.

Lemma blen_truncate_to_cap text : blen (truncate_to_cap text) <= MAX_REJECT_MESSAGE_BYTES.
Proof.
  unfold truncate_to_cap, blen at 1. rewrite length_take.
  pose proof (boundary_at_most_le text (Z.to_nat (Z.min (blen text) MAX_REJECT_MESSAGE_BYTES))).
  unfold MAX_REJECT_MESSAGE_BYTES in *. lia.
Qed.

Lemma ack_accepted_heard seq :
  seq_ok seq = true ->
  let a := ack_accepted (seq_id seq) (seq_seq seq) in
  control_decode (ack_encode a) = Ok (CmAck a) /\ blen (ack_encode a) <= 1066.
Proof.
  intros (Hid & [H0 H1] & Hge)%seq_ok_parts a. assert (ack_ok a = true) as Hok.
  { unfold ack_ok, a. cbn. rewrite Hid. unfold unsigned_b. rewrite bool_decide_eq_true_2 by by split.
    by rewrite (proj2 (Z.leb_le _ _)) by lia. }
  split; [by apply ack_round|by apply ack_len].
Qed.

(** The listener's text may be changed by the decoder, nothing else. *)
Lemma ack_rejected_heard seq reason text :
  seq_ok seq = true -> u16 reason ->
  let a := mkAck (seq_id seq) (seq_seq seq) (ack_status_rejected reason text) in
  (exists text', control_decode (ack_encode a) = Ok (CmAck (mkAck (seq_id seq) (seq_seq seq) (Control.Rejected reason (Some text'))))) /\
  blen (ack_encode a) <= 1066.
Proof.
  intros (Hid & Hseq & Hge)%seq_ok_parts Hu a. unfold a, ack_encode, ack_status_rejected. cbn [ack_id ack_seq ack_status].
  pose proof (blen_truncate_to_cap text) as Hc. set (t := truncate_to_cap text) in *.
  assert (blen (seq_id seq) = 16) as Hb by by apply Z.eqb_eq. split.
  - exists (truncate_to_cap (from_utf8_lossy t)). cbn [app]. rewrite control_decode_cons by done. cbn [Z.eqb Pos.eqb].
    unfold ack_decode_fields, write_u16, write_bytes_field.
    rewrite (each_field_written _ _ _ _ _ (mkAckVars (Some (seq_id seq)) None None None None)); [|done|lia|].
    2:{ cbn -[blen]. unfold id_ok in Hid. by rewrite Hid. }
    rewrite (each_field_written _ _ _ _ _ (mkAckVars (Some (seq_id seq)) (Some (seq_seq seq)) None None None));
      [|done|by eapply (uvarint_short _ 64)|].
    2:{ cbn -[parse write_uvarint]. rewrite parse_uvarint_all by done. cbn [res_bind].
        by rewrite (proj2 (Z.eqb_neq (seq_seq seq) 0)) by lia. }
    erewrite each_field_written; [|done|done|reflexivity].
    erewrite each_field_written; [|done|by eapply (uvarint_short _ 16)|field_by read_u16_written].
    erewrite each_field_last; [|done|unfold MAX_REJECT_MESSAGE_BYTES in Hc; lia|].
    2:{ cbn -[read_message_field]. unfold read_message_field. rewrite (proj2 (Z.ltb_ge _ _)) by done. reflexivity. }
    done.
  - rewrite !blen_app, blen_cons, blen_nil. unfold write_bytes_field.
    pose proof (blen_field_le ACK_FIELD_ID (seq_id seq) 1 16 ltac:(lia) ltac:(done) ltac:(lia)).
    pose proof (blen_varint_field ACK_FIELD_SEQ (seq_seq seq) 10) as Hs. unfold unsigned in Hseq. specialize (Hs ltac:(simpl; lia) ltac:(lia)).
    change (blen (write_field ACK_FIELD_STATUS _)) with 3. pose proof (u16_field_le ACK_FIELD_REASON reason Hu).
    pose proof (blen_field_le ACK_FIELD_MESSAGE t 2 1024 Hc ltac:(done) ltac:(lia)). lia.
Qed.

Lemma reject_heard rj m : control_decode (reject_encode rj) = Ok m -> exists rj', m = CmReject rj'.
Proof.
  unfold reject_encode. cbn [app]. rewrite control_decode_cons by done. cbn [Z.eqb Pos.eqb].
  destruct (reject_decode_fields _) as [rj'|]; [|done]. intros [= <-]. eauto.
Qed.

(** ** Both sides' accounts of the same frames *)

(** What is heard of a message: an [Ack] as it was sent, but for the text of a refusal. *)
Inductive heard : ControlMessage -> ControlMessage -> Prop :=
| heard_accepted seq : heard (CmAck (ack_accepted (seq_id seq) (seq_seq seq))) (CmAck (ack_accepted (seq_id seq) (seq_seq seq)))
| heard_rejected seq reason text text' :
    heard (CmAck (mkAck (seq_id seq) (seq_seq seq) (Control.Rejected reason text')))
      (CmAck (mkAck (seq_id seq) (seq_seq seq) (ack_status_rejected reason text))).

Lemma sorted_nodup l : StronglySorted before l -> NoDup l.
Proof.
  induction 1 as [|s l Hs IH Hf]; constructor; [|done]. intros Hin%list_elem_of_In. rewrite List.Forall_forall in Hf.
  destruct (Hf s Hin). lia.
Qed.

(** Two starts of one list without repetitions that end alike are the same. *)
Lemma same_start {A} (l a x b y : list A) s :
  NoDup l -> l = a ++ x -> l = b ++ y -> last a = Some s -> last b = Some s -> a = b.
Proof.
  intros Hn Ha Hb [a' ->]%last_Some [b' ->]%last_Some. rewrite Ha in Hb, Hn. clear Ha. rewrite <- !app_assoc in *. cbn [app] in *.
  assert (length a' = length b') as Hlen.
  { eapply NoDup_lookup; [exact Hn|by apply list_lookup_middle|]. rewrite Hb. by apply list_lookup_middle. }
  by apply app_inj_1 in Hb as [-> _].
Qed.

Lemma seq_id_eq s s' : seq_id s = seq_id s' -> seq_seq s = seq_seq s' -> s = s'.
Proof. destruct s, s'. simpl. congruence. Qed.

(** The sink's verdicts on frames in ascending order, from messages the listener wrote, are what the
    listener did with them. *)
Lemma verdicts_true V ms : verdicts V ms -> forall H acks acks' W,
  answers_all H acks' -> Forall2 heard ms acks -> acks `prefix_of` acks' -> StronglySorted before W ->
  V.*1 `prefix_of` W -> H.*1 `prefix_of` W ->
  forall s b, (s, b) ∈ V -> exists f, (s, f) ∈ H /\ settles f = b.
Proof.
  induction 1 as [|seq run V ms Hrun Hlast _ IH|seq reason message V ms _ IH]; intros H acks acks' W Ha Hh Hp Hs HV HH s b Hin.
  - by apply not_elem_of_nil in Hin.
  - inversion Hh as [|? m ? acks1 Hm Hms]; subst. destruct Hp as [x ->]. simpl in Ha.
    inversion Ha as [|seq' run' H' ? [Hrun' [f Hlast']] Ha'|]; subst; [|by inversion Hm].
    assert (seq' = seq) as -> by (inversion Hm; apply seq_id_eq; congruence).
    destruct HV as [x1 HV], HH as [x2 HH]. rewrite fmap_app, <- app_assoc in HV. rewrite fmap_app, <- app_assoc in HH.
    assert (run.*1 = run'.*1) as Heq.
    { eapply (same_start W); [by apply sorted_nodup|exact HV|exact HH|by rewrite fmap_last, Hlast|by rewrite fmap_last, Hlast']. }
    apply elem_of_app in Hin as [Hin|Hin].
    + rewrite Forall_forall in Hrun. rewrite Forall_forall in Hrun'. destruct (Hrun _ Hin) as [_ Hb]. simpl in Hb. subst b.
      assert (s ∈ run'.*1) as Hs' by (rewrite <- Heq; apply list_elem_of_fmap; by exists (s, true)).
      apply list_elem_of_fmap in Hs' as ([s1 f1] & -> & Hf1). exists f1. split; [apply elem_of_app; by left|]. by destruct (Hrun' _ Hf1).
    + rewrite Heq in HV. rewrite HH in HV. apply app_inv_head in HV. rewrite HH in Hs. apply sorted_app in Hs as (_ & Hs & _).
      destruct (IH H' acks1 (acks1 ++ x) (H'.*1 ++ x2) Ha' Hms ltac:(by eexists) Hs ltac:(by rewrite HV; eexists) ltac:(by eexists) s b Hin) as (f1 & Hf1 & Hb).
      exists f1. split; [apply elem_of_app; by right|done].
  - inversion Hh as [|? m ? acks1 Hm Hms]; subst. destruct Hp as [x ->]. simpl in Ha.
    inversion Ha as [|seq' run' H' ? ? Ha'|seq' reason' message' H' ? Hu Ha']; subst; [by inversion Hm|].
    assert (seq' = seq) as -> by (inversion Hm; apply seq_id_eq; congruence).
    destruct HV as [x1 HV], HH as [x2 HH]. cbn [fmap list_fmap app fst] in HV, HH.
    apply elem_of_cons in Hin as [[= -> ->]|Hin]; [exists (Refused reason'); by split; [left|]|].
    rewrite HH in HV. injection HV as HV. rewrite HH in Hs. apply StronglySorted_inv in Hs as [Hs _].
    destruct (IH H' acks1 (acks1 ++ x) (H'.*1 ++ x2) Ha' Hms ltac:(by eexists) Hs ltac:(by rewrite HV; eexists) ltac:(by eexists) s b Hin) as (f1 & Hf1 & Hb).
    exists f1. split; [by right|done].
Qed.

(** ** The frames a listener handles are those of the wire *)

Section Handled.
Context {I : Interner} {Sm : Summaries} {D : FrameDeps} `{!FrameDepsOk D}.
#[local] Set Default Proof Using "Type*".

Lemma flush_if_keeps (b : bool) (c : Receiver.Conn) :
  let '(ok, c') := if b then flush_ack c else (true, c) in handled c' = handled c /\ unread c' = unread c.
Proof.
  destruct b; [|done]. pose proof (flush_ack_spec c) as Hs. pose proof (flush_ack_frame c) as Hf.
  destruct (flush_ack c) as [ok c']. split; [apply Hs|apply Hf].
Qed.

Lemma reject_keeps rj (c : Receiver.Conn) : handled (flush_then_reject rj c) = handled c.
Proof. destruct (flush_then_reject_spec rj c) as (ok & Hw & _). apply Hw. Qed.

(** The frame named [seq] was handled, or the connection ended before it was. *)
Definition handled_next (seq : SeqId) (rest : bytes) (c : Receiver.Conn) (r : option Ended) (c' : Receiver.Conn) : Prop :=
  (exists f, handled c' = handled c ++ [(seq, f)]) /\ unread c' = rest \/ r <> None /\ handled c' = handled c.

Lemma take_batch_next t seq decoded c r c' :
  take_batch t seq decoded c = (r, c') -> handled_next seq (unread c) c r c'.
Proof.
  unfold take_batch.
  match goal with |- context [if ?b then flush_ack c else (true, c)] =>
    pose proof (flush_if_keeps b c) as Hf; destruct (if b then flush_ack c else (true, c)) as [[] c1] end;
    destruct Hf as [Hh Hu]; cbn [negb]; [|intros [= <- <-]; by right].
  destruct (is_resend (table c1) seq) as [resend senders].
  destruct (negb resend && negb (batch_taken t)); [intros [= <- <-]; right; split; [done|]; unfold going_away; by rewrite reject_keeps|].
  match goal with |- context [with_owed ?o ?c] => set (c4 := with_owed o c) end.
  assert ((exists f, handled c4 = handled c ++ [(seq, f)]) /\ unread c4 = unread c) as [Hh4 Hu4].
  { unfold c4. destruct resend; cbn; rewrite Hh, Hu; eauto. }
  destruct (ACK_COALESCE_MAX <=? _); [|intros [= <- <-]; by left].
  pose proof (flush_if_keeps true c4) as Hf. cbn iota in Hf. destruct (flush_ack c4) as [ok c5]. destruct Hf as [Hh5 Hu5].
  intros [= <- <-]. left. by rewrite Hh5, Hu5.
Qed.

Lemma handle_frame_next max t compression payload seq body c r c' :
  parse read_hop_prefix payload = Ok (seq, body) ->
  handle_frame max t (frame_header CODEC_HOP_BATCH compression 0 payload) (Whole payload) c = (r, c') ->
  handled_next seq (unread c) c r c'.
Proof.
  intros Hp. unfold handle_frame. cbn [frame_header fh_flags fh_codec]. rewrite Hp.
  change (negb (Z.land 0 FLAG_CONTROL =? 0)) with false. change (negb (CODEC_HOP_BATCH =? CODEC_HOP_BATCH)) with false. cbn iota.
  assert (forall reason message, (let '(ok, c1) := ack_rejected seq reason message c in
    (if ok then None else Some (Failed "ack write"), c1)) = (r, c') -> handled_next seq (unread c) c r c') as Hrej.
  { intros reason message. rewrite ack_rejected_eq. set (m := CmAck _). set (c1 := handle seq (Refused reason) [] c).
    pose proof (flush_then_write_spec m c1) as Hw. pose proof (flush_ack_frame c1) as Hf.
    destruct (flush_ack c1) as [ok c2]. destruct Hf as (_ & _ & Hu & _). pose proof (write_control_unread m c2) as Hu2. destruct ok.
    - destruct (write_control m c2) as [ok c3]. cbn [snd] in Hu2. destruct Hw as [(_ & _ & Hh & _) _]. intros [= <- <-]. left.
      rewrite Hh, Hu2, Hu. cbn. eauto.
    - destruct Hw as [(_ & _ & Hh & _) _]. intros [= <- <-]. left. rewrite Hh, Hu. cbn. eauto. }
  destruct (fst (decode_hop_body body (for_frame_cap max))) as [[decoded rest]|e]; [apply take_batch_next|]. destruct e; apply Hrej.
Qed.

(** A turn ends before it reads, or reads what has not been read. *)
Lemma frame_turn_begins max t c r c' :
  frame_turn max t c = (r, c') ->
  r <> None /\ handled c' = handled c \/
  exists c1, handled c1 = handled c /\ unread c1 = unread c /\
    (r, c') = match unread c1 with
              | [] => (Some PeerClosed, c1)
              | _ :: _ =>
                  if (length (unread c1) <? Z.to_nat HEADER_LEN)%nat then (Some (Failed "truncated_header"), c1)
                  else read_body max t (take (Z.to_nat HEADER_LEN) (unread c1)) (with_unread (drop (Z.to_nat HEADER_LEN) (unread c1)) c1)
              end.
Proof.
  unfold frame_turn. set (c0 := with_table (run (table c) (others t)) c).
  destruct (shutdown t); [intros [= <- <-]; left; split; [done|]; unfold going_away; by rewrite reject_keeps|].
  pose proof (flush_if_keeps (negb (header_ready t)) c0) as Hf. rewrite if_negb in Hf.
  destruct (if header_ready t then (true, c0) else flush_ack c0) as [[] c1]; destruct Hf as [Hh Hu]; cbn [negb];
    [|intros [= <- <-]; by left].
  destruct (if header_ready t then None else header_interrupt t) as [[]|].
  - intros [= <- <-]. left. split; [done|]. unfold going_away. by rewrite reject_keeps.
  - intros [= <- <-]. left. split; [done|]. unfold close_idle, going_away. by rewrite reject_keeps.
  - intros [= <- <-]. by left.
  - intros E. right. by exists c1.
Qed.

Lemma framed_eq max compression (p : SeqId * bytes) :
  compression <> CompZstd -> blen p.2 <= Z.min max MAX_SANE_UNCOMPRESSED_LEN ->
  framed compression p = header_write (frame_header CODEC_HOP_BATCH compression 0 p.2) ++ stored compression p.2.
Proof. intros Hz Hp. unfold framed. by rewrite write_frame_eq by (done || lia). Qed.

(** [read_body] up to the frame. *)
Lemma read_body_begins max t compression payload c r c' :
  compression <> CompZstd -> blen payload <= Z.min max MAX_SANE_UNCOMPRESSED_LEN ->
  let h := frame_header CODEC_HOP_BATCH compression 0 payload in
  read_body max t (header_write h) c = (r, c') ->
  r <> None /\ handled c' = handled c \/
  exists c3, handled c3 = handled c /\ unread c3 = unread c /\
    match read_frame_rest (header_write h) max h (unread c) with
    | inl _ => r <> None /\ c' = c3
    | inr (header, body, rest) => (r, c') = handle_frame max t header body (with_unread rest c3)
    end.
Proof.
  intros Hz Hp h. destruct (read_frame_written max CODEC_HOP_BATCH compression 0 payload [] Hp Hz) as [Hh _]; [done..|]. fold h in Hh.
  unfold read_body. rewrite Hh.
  match goal with |- context [if ?b then flush_ack c else (true, c)] =>
    pose proof (flush_if_keeps b c) as Hf; destruct (if b then flush_ack c else (true, c)) as [[] c3] end;
    destruct Hf as [Hh3 Hu3]; cbn [negb]; [|intros [= <- <-]; by left].
  destruct (_ && body_stalled t); [intros [= <- <-]; left; split; [done|]; unfold close_idle, going_away; by rewrite reject_keeps|].
  rewrite Hu3. intros E. right. exists c3. split_and!; [done..|].
  destruct (read_frame_rest _ _ _ _) as [e|[[header body] rest]]; [by injection E as <- <-|done].
Qed.

Lemma frame_turn_next max t compression p body c rest r c' :
  compression <> CompZstd -> blen p.2 <= Z.min max MAX_SANE_UNCOMPRESSED_LEN -> parse read_hop_prefix p.2 = Ok (p.1, body) ->
  unread c = framed compression p ++ rest -> frame_turn max t c = (r, c') -> handled_next p.1 rest c r c'.
Proof.
  intros Hz Hp Hpar Hun E. apply frame_turn_begins in E as [E|(c1 & Hh1 & Hu1 & E)]; [by right|].
  rewrite Hun, (framed_eq max) in Hu1 by done. set (h := frame_header CODEC_HOP_BATCH compression 0 p.2) in *.
  pose proof (length_header_write h) as Hl. rewrite <- app_assoc in Hu1.
  assert (forall A (a b : A), match unread c1 with [] => a | _ :: _ => b end = b) as Hne.
  { intros A a b. rewrite Hu1. by destruct (header_write h). }
  rewrite Hne, Hu1, length_app, <- Hl, take_app_length, drop_app_length, (proj2 (Nat.ltb_ge _ _)) in E by lia. symmetry in E.
  destruct (read_body_begins max t compression p.2 _ _ _ Hz Hp E) as [E1|(c3 & Hh3 & Hu3 & E1)]; clear E;
    [right; cbn in E1; by rewrite <- Hh1|rename E1 into E].
  destruct (read_frame_written max CODEC_HOP_BATCH compression 0 p.2 rest Hp Hz) as [_ Hr]; [done..|]. fold h in Hr, E.
  cbn [unread with_unread] in E. rewrite Hr in E. symmetry in E. pose proof (handle_frame_next max t compression _ _ _ _ _ _ Hpar E) as En.
  clear E. rename En into E. unfold handled_next in *. cbn in E, Hh3. by rewrite Hh3, Hh1 in E.
Qed.

Lemma frame_turn_short max t compression p c k r c' :
  compression <> CompZstd -> blen p.2 <= Z.min max MAX_SANE_UNCOMPRESSED_LEN -> (k < length (framed compression p))%nat ->
  unread c = take k (framed compression p) -> frame_turn max t c = (r, c') -> r <> None /\ handled c' = handled c.
Proof.
  intros Hz Hp Hk Hun E. apply frame_turn_begins in E as [E|(c1 & Hh1 & Hu1 & E)]; [done|].
  rewrite Hun, (framed_eq max) in Hu1 by done. rewrite (framed_eq max) in Hk by done.
  set (h := frame_header CODEC_HOP_BATCH compression 0 p.2) in *. pose proof (length_header_write h) as Hl.
  destruct (unread c1) as [|x xs] eqn:Hx; [by injection E as -> ->|]. rewrite <- Hx in E.
  destruct (Nat.ltb_spec (length (unread c1)) (Z.to_nat HEADER_LEN)) as [Hs|Hs]; [by injection E as -> ->|].
  rewrite Hx, Hu1, length_take in Hs. rewrite length_app in Hk, Hs. rewrite Hx, Hu1, take_take, <- Hl, Nat.min_l, take_app_length in E by lia.
  symmetry in E. destruct (read_body_begins max t compression p.2 _ _ _ Hz Hp E) as [E1|(c3 & Hh3 & Hu3 & E1)]; clear E;
    [cbn in E1; by rewrite <- Hh1|rename E1 into E].
  fold h in E. unfold read_frame_rest in E. rewrite (proj2 (Nat.ltb_lt _ _)) in E.
  - destruct E as [? ->]. cbn in Hh3. by rewrite Hh3.
  - cbn [unread with_unread]. rewrite length_drop, length_take, length_app.
    change (Z.to_nat (fh_compressed_len h)) with (Z.to_nat (blen (stored compression p.2))). unfold blen. rewrite Nat2Z.id. lia.
Qed.

(** However a connection is cut, the frames handled on it are the first ones on the wire, in order. *)
Lemma handled_are_sent max compression turns : forall W c k e c',
  compression <> CompZstd ->
  Forall (fun p => blen p.2 <= Z.min max MAX_SANE_UNCOMPRESSED_LEN /\ exists body, parse read_hop_prefix p.2 = Ok (p.1, body)) W ->
  unread c = take k (concat (map (framed compression) W)) -> serve_frames max turns c = (e, c') ->
  exists H, handled c' = handled c ++ H /\ H.*1 `prefix_of` W.*1.
Proof.
  induction turns as [|t turns IH]; intros W c k e c' Hz HW Hu; cbn [serve_frames].
  { intros [= <- <-]. exists []. rewrite app_nil_r. split; [done|apply prefix_nil]. }
  destruct (frame_turn max t c) as [r c1] eqn:Ht.
  assert (forall r' , r = Some r' -> handled c1 = handled c -> exists H, handled (snd (flush_ack c1)) = handled c ++ H /\ H.*1 `prefix_of` W.*1) as Hend.
  { intros r' _ Hh. exists []. pose proof (flush_if_keeps true c1) as Hf. cbn iota in Hf. destruct (flush_ack c1) as [ok c2].
    destruct Hf as [Hh2 _]. cbn. rewrite Hh2, Hh, app_nil_r. split; [done|apply prefix_nil]. }
  destruct W as [|p W].
  { cbn in Hu. rewrite take_nil in Hu. apply frame_turn_begins in Ht as Ht'. destruct Ht' as [[Hr Hh]|(c2 & Hh2 & Hu2 & E)].
    - destruct r as [r|]; [|done]. intros [= <- <-]. by eapply Hend.
    - rewrite Hu2, Hu in E. injection E as -> ->. intros [= <- <-]. by eapply Hend. }
  apply Forall_cons in HW as [[Hp [body Hpar]] HW]. cbn [map concat] in Hu.
  destruct (Nat.lt_ge_cases k (length (framed compression p))) as [Hk|Hk].
  { rewrite take_app_le in Hu by lia. destruct (frame_turn_short max t compression p c k r c1 Hz Hp Hk Hu Ht) as [Hr Hh].
    destruct r as [r|]; [|done]. intros [= <- <-]. by eapply Hend. }
  rewrite take_app_ge in Hu by done.
  destruct (frame_turn_next max t compression p body c _ r c1 Hz Hp Hpar Hu Ht) as [[[f Hh] Hu1]|[Hr Hh]].
  2:{ destruct r as [r|]; [|done]. intros [= <- <-]. by eapply Hend. }
  destruct r as [r|].
  - intros [= <- <-]. exists [(p.1, f)]. pose proof (flush_if_keeps true c1) as Hf. cbn iota in Hf. destruct (flush_ack c1) as [ok c2].
    destruct Hf as [Hh2 _]. cbn. rewrite Hh2, Hh. split; [done|]. apply prefix_cons, prefix_nil.
  - intros Hsv. destruct (IH W c1 _ e c' Hz HW Hu1 Hsv) as (H & Hh' & Hpre). exists ((p.1, f) :: H).
    rewrite Hh', Hh, <- app_assoc. split; [done|]. by apply prefix_cons.
Qed.
End Handled.

(** ** The handshake, from both sides *)

Section Hops.
Context {D : FrameDeps} `{!FrameDepsOk D}.
#[local] Set Default Proof Using "Type*".

(** A listener answers a [Hello] only once the whole of it arrived. *)
Lemma answered_inj reply negotiated rest reply' negotiated' rest' :
  Answered reply negotiated rest = Answered reply' negotiated' rest' -> reply = reply' /\ negotiated = negotiated' /\ rest = rest'.
Proof. by intros [= -> -> ->]. Qed.

Lemma handshake_whole max senders closed hello hf x j reply negotiated rest :
  hello_ok hello = true -> write_frame_with_flags 0 CompNone FLAG_CONTROL (hello_encode hello) = Ok hf ->
  Handshake.handshake max senders closed (take j (hf ++ x)) = Answered reply negotiated rest ->
  (reply, negotiated) = negotiate max senders hello /\ rest = take (j - length hf) x.
Proof.
  intros Hok (_ & _ & ->)%write_frame_inv. set (h := frame_header 0 CompNone FLAG_CONTROL (hello_encode hello)).
  pose proof (hello_len hello Hok) as Hl. pose proof (blen_nonneg (hello_encode hello)). pose proof (length_header_write h) as Hh.
  change (stored CompNone (hello_encode hello)) with (hello_encode hello).
  assert (315 <= Z.min MAX_CONTROL_MESSAGE_BYTES MAX_SANE_UNCOMPRESSED_LEN /\ 315 <= MAX_CONTROL_MESSAGE_BYTES /\
    315 <= MAX_SANE_UNCOMPRESSED_LEN) as (Hc1 & Hc2 & Hc3) by by compute.
  destruct (Nat.lt_ge_cases j (length (header_write h ++ hello_encode hello))) as [Hj|Hj].
  - intros E. exfalso. rewrite take_app_le in E by lia. unfold Handshake.handshake in E. rewrite length_app in Hj.
    destruct (take j (header_write h ++ hello_encode hello)) as [|b bs] eqn:Eb; [by destruct closed|]. rewrite <- Eb in E.
    rewrite length_take, length_app in E. destruct (Nat.ltb_spec (Nat.min j (length (header_write h) + length (hello_encode hello))) (Z.to_nat HEADER_LEN));
      [done|]. rewrite take_take, Nat.min_l, <- Hh, take_app_length in E by lia. unfold h at 1 in E.
    rewrite header_of_written in E by (lia || by split). fold h in E.
    change (fh_compressed_len h) with (blen (hello_encode hello)) in E. rewrite (proj2 (Z.ltb_ge _ _)) in E by lia.
    destruct (read_frame_written MAX_CONTROL_MESSAGE_BYTES 0 CompNone FLAG_CONTROL (hello_encode hello) []) as [E1 _];
      [lia|done|by split|by split|]. fold h in E1. rewrite E1 in E. unfold read_frame_rest in E.
    rewrite (proj2 (Nat.ltb_lt _ _)) in E; [done|]. rewrite length_drop, length_take, length_app.
    change (fh_compressed_len h) with (blen (hello_encode hello)). unfold blen. rewrite Nat2Z.id. lia.
  - rewrite take_app_ge by done. pose proof (read_hello max senders closed hello (take (j - length (header_write h ++ hello_encode hello)) x) Hok) as E.
    fold h in E. change (stored CompNone (hello_encode hello)) with (hello_encode hello) in E. rewrite E.
    intros (<- & <- & <-)%answered_inj. split; [by destruct (negotiate max senders hello)|done].
Qed.

(** What each answer is heard as. *)
Lemma answers_heard H acks :
  answers_all H acks -> Forall (fun s => seq_ok s = true) H.*1 ->
  Forall (fun a => blen (control_encode a) <= MAX_SANE_UNCOMPRESSED_LEN /\ forall m, control_decode (control_encode a) = Ok m -> heard m a) acks.
Proof.
  assert (1066 <= MAX_SANE_UNCOMPRESSED_LEN) as Hcap by by compute.
  induction 1 as [|seq run H ms [Hrun [f Hlast]] _ IH|seq reason message H ms Hu _ IH]; intros Hok; [constructor|..].
  - rewrite fmap_app in Hok. apply Forall_app in Hok as [Hok1 Hok2]. constructor; [|by apply IH].
    assert (seq_ok seq = true) as Hs.
    { rewrite Forall_forall in Hok1. apply Hok1, list_elem_of_fmap. exists (seq, f). split; [done|]. apply last_Some in Hlast as [l' ->].
      apply elem_of_app. right. by apply list_elem_of_singleton. }
    destruct (ack_accepted_heard seq Hs) as [Hd Hl]. cbn [control_encode]. split; [lia|]. intros m. rewrite Hd. intros [= <-]. constructor.
  - cbn in Hok. apply Forall_cons in Hok as [Hs Hok]. constructor; [|by apply IH].
    destruct (ack_rejected_heard seq reason message Hs Hu) as [[text' Hd] Hl]. cbn [control_encode]. split; [lia|].
    intros m. rewrite Hd. intros [= <-]. constructor.
Qed.

Lemma verdicts_acks V ms : verdicts V ms -> Forall (fun m => exists a, m = CmAck a) ms.
Proof. induction 1; constructor; eauto. Qed.

Lemma control_sane m : control_ok m = true -> blen (control_encode m) <= MAX_SANE_UNCOMPRESSED_LEN.
Proof.
  intros Hok. pose proof (control_len m Hok). assert (max_message_len m <= 4096) by by destruct m.
  assert (4096 <= MAX_SANE_UNCOMPRESSED_LEN) by by compute. lia.
Qed.

(** The first message read is the reply. *)
Lemma heard_reply i reply tail m ms rest :
  control_ok reply = true -> reads (take i (control_frame reply ++ tail)) (m :: ms) rest -> m = reply.
Proof.
  intros Hrep Hr. inversion Hr as [|? ? bs' ? ? Hm _]; subst. pose proof (control_sane reply Hrep). unfold control_frame in Hm.
  destruct (Nat.lt_ge_cases i (length (control_payload_frame (control_encode reply))));
    [by rewrite take_app_le, read_control_cut in Hm by lia|].
  rewrite take_app_ge, read_control_whole in Hm by done. case_match; [|done]. rewrite control_round in Hm by done. by injection Hm as ->.
Qed.

(** The messages read off a listener's frames are those it wrote, as they are heard. *)
Lemma heard_from i reply H ms V acks tail ack rest :
  control_ok reply = true -> answers_all H acks -> Forall (fun s => seq_ok s = true) H.*1 -> verdicts V ms ->
  (tail = [] \/ exists rj, tail = control_frame (CmReject rj)) ->
  reads (take i (control_frame reply ++ concat (map control_frame acks) ++ tail)) (CmHelloAck ack :: ms) rest ->
  Forall2 heard ms (take (length ms) acks).
Proof.
  intros Hrep Ha Hok Hv Htail Hr. pose proof (answers_heard H acks Ha Hok) as Hhear.
  pose proof (control_sane reply Hrep) as Hlen.
  replace (control_frame reply ++ concat (map control_frame acks) ++ tail) with
    (concat (map control_payload_frame (control_encode reply :: map control_encode acks)) ++ tail) in Hr
    by (cbn [map concat]; rewrite map_map, <- app_assoc; done).
  apply reads_frames in Hr as [Hf|(ms1 & m & ms2 & i' & rest' & Hms & Hf & Hm)].
  - cbn [length] in Hf. cbn [take] in Hf. apply Forall2_cons in Hf as [_ Hf].
    clear -Hf Hhear. revert acks Hf Hhear. induction ms as [|m ms IH]; intros [|a acks] Hf Hhear; cbn in *; [constructor|constructor|by inversion Hf|].
    apply Forall2_cons in Hf as [Hd Hf]. apply Forall_cons in Hhear as [[_ Ha] Hhear]. constructor; [by apply Ha|by apply IH].
  - exfalso. assert (exists a, m = CmAck a) as [a ->].
    { pose proof (verdicts_acks V ms Hv) as Hacks. inversion Hf as [|m0 ? ms1' ? Hd Hf']; subst. injection Hms as _ ->.
      apply Forall_app in Hacks as [_ Hacks]. by apply Forall_cons in Hacks as [? _]. }
    destruct Htail as [->|[rj ->]]; [by rewrite take_nil in Hm|]. unfold control_frame in Hm.
    destruct (Nat.lt_ge_cases i' (length (control_payload_frame (control_encode (CmReject rj))))) as [Hi|Hi];
      [by rewrite read_control_cut in Hm|]. rewrite take_ge in Hm by done.
    destruct (Z.le_gt_cases (blen (control_encode (CmReject rj))) MAX_SANE_UNCOMPRESSED_LEN); [|by rewrite control_payload_frame_big in Hm].
    rewrite <- (app_nil_r (control_payload_frame _)), read_control_whole in Hm by done. case_match; [|done].
    destruct (control_decode (control_encode (CmReject rj))) as [m|] eqn:Hd; [|done]. apply reject_heard in Hd as [rj' ->]. done.
  - constructor; [done|]. apply Forall_map. eapply Forall_impl; [exact Hhear|]. by intros a [? _].
Qed.

Lemma marks_table table ids id m :
  (list_to_map (reverse (marks table ids)) : gmap bytes Z) !! id = Some m -> exists entry, entries table !! id = Some entry /\ m = mark entry.
Proof.
  intros Hm%elem_of_list_to_map_2. rewrite elem_of_reverse in Hm. unfold marks in Hm.
  apply list_elem_of_omap in Hm as (id' & _ & Hm). destruct (entries table !! id') as [entry|] eqn:E; [|done]. injection Hm as -> <-. eauto.
Qed.
End Hops.

(** ** What an answer means *)

(** [conn]'s bytes, both ways, are those of this run of a listener: the bytes that left, up to the
    [j]-th, were all it read, and the first [i] bytes of what it wrote were all that arrived. *)
Definition served_by {I : Interner} {Sm : Summaries} {D : FrameDeps} (conn : Sender.Conn)
    (max : Z) (table : SenderTable) (c : Receiver.Conn) : Prop :=
  u32 max /\ (forall id entry, entries table !! id = Some entry -> u64 (mark entry)) /\
  exists closed j reply negotiated rest turns table' ws e i,
    Handshake.handshake max table closed (take j (left conn)) = Answered reply negotiated rest /\
    serve_frames max turns (accept rest table' ws) = (e, c) /\
    arrived conn = take i (control_frame reply ++ concat (map control_frame (wrote c))).

Section Answers.
Context {I : Interner} {Sm : Summaries} {D : FrameDeps} `{!FrameDepsOk D}.
#[local] Set Default Proof Using "Type*".

Lemma validated_compression ack hello compression : validate_hello_ack ack hello = Some compression -> compression <> CompZstd.
Proof. unfold validate_hello_ack, Sender.compression_from_u8. intros H ->. repeat case_match; simplify_eq. Qed.

Lemma transcript_true conn hello ack W V ms k rest max table c s b :
  transcript conn hello ack W V ms k rest -> served_by conn max table c -> vouched conn V (s, b) ->
  (exists f, (s, f) ∈ handled c /\ settles f = b) \/
  b = true /\ exists entry, entries table !! seq_id s = Some entry /\ seq_seq s <= mark entry.
Proof.
  intros [(hf & Hhf & Hleft) Hhello Hfit Hsort Hpre Hver Hreads Hval Hmarks Hmax]
    (Hu & Hm & closed & j & reply & negotiated & rest1 & turns & table' & ws & e & i & Hans & Hserve & Harr) Hv.
  rewrite Hleft in Hans. destruct (handshake_whole max table closed hello hf _ j reply negotiated rest1 Hhello Hhf Hans) as [Hneg Hrest].
  assert (control_ok reply = true) as Hrep by (replace reply with (negotiate max table hello).1 by (by rewrite <- Hneg); by apply negotiate_ok).
  pose proof (serve_frames_live max turns _ e c (live_accept rest1 table' ws) Hserve) as (answered & unanswered & acks & Hh & Ha & Hw).
  assert (exists tail, (tail = [] \/ exists rj, tail = control_frame (CmReject rj)) /\
    concat (map control_frame (wrote c)) = concat (map control_frame acks) ++ tail) as (tail & Htail & Hcat).
  { destruct Hw as [->|(_ & rj & ->)]; [exists []; split; [by left|by rewrite app_nil_r]|].
    exists (control_frame (CmReject rj)). split; [eauto|]. rewrite map_app, concat_app. cbn. by rewrite app_nil_r. }
  rewrite Harr, Hcat in Hreads. pose proof (heard_reply _ _ _ _ _ _ Hrep Hreads) as <-.
  assert (ha_max_frame_bytes ack = max /\ ha_marks ack = marks table (he_senders hello)) as [Hpm Hmk].
  { unfold negotiate in Hneg. repeat case_match; simplify_eq; done. }
  assert (exists H, handled c = H /\ H.*1 `prefix_of` W.*1) as (H & HeqH & HH).
  { destruct (handled_are_sent max (compression conn) turns W (accept rest1 table' ws) (Nat.min (j - length hf) k) e c) as (H & Hh' & HH);
      [by eapply validated_compression| |by rewrite Hrest, take_take|done|by eauto].
    eapply Forall_impl; [exact Hfit|]. intros p (Hb & _ & Hp). rewrite Hmax, Hpm in Hb. done. }
  destruct Hv as [[Hb Hcov]|Hin].
  { right. split; [exact Hb|]. unfold covers in Hcov. cbn [fst] in Hcov. rewrite Hmarks, Hmk in Hcov.
    destruct (_ !! seq_id s) as [m|] eqn:El; [|done]. apply marks_table in El as (entry & Hent & ->). apply Z.leb_le in Hcov. eauto. }
  left. assert (answered.*1 `prefix_of` W.*1) as Hans1.
  { etrans; [|exact HH]. rewrite <- HeqH, Hh, fmap_app. by eexists. }
  assert (Forall (fun s => seq_ok s = true) answered.*1) as Hok.
  { destruct Hans1 as [x Hx]. assert (Forall (fun s => seq_ok s = true) W.*1) as HokW.
    { apply Forall_map. eapply Forall_impl; [exact Hfit|]. by intros p (_ & ? & _). }
    rewrite Hx in HokW. by apply Forall_app in HokW as [? _]. }
  pose proof (heard_from i (CmHelloAck ack) answered ms V acks tail ack rest Hrep Ha Hok Hver Htail Hreads) as Hheard.
  destruct (verdicts_true V ms Hver answered _ acks W.*1 Ha Hheard ltac:(apply prefix_take) Hsort Hpre Hans1 s b Hin) as (f & Hf & Hb).
  exists f. split; [|done]. rewrite Hh. apply elem_of_app. by left.
Qed.
End Answers.

(** C7: an answer the sink gives is what the listener did. Whatever the calls of a caller that keeps
    its side of the contract, and however each connection goes, every pair [await_ack] answered for
    has a connection of the sink such that, whichever run of whichever listener was at its other end,
    a pair answered [Ok] was forwarded or recognized as resent on that connection, or was at or below
    the mark the listener held for its sender at the handshake; and a pair answered as refused was
    refused by name there. *)
Theorem hop_answers_are_true {I1 I2 : Interner} {Sm : Summaries} {D : FrameDeps} `{!FrameDepsOk D}
    (self : LogitOutput) (s : SeqId) (ok : bool)
    (Hused : used (S := @logit_output I1 Sm D) any_given new_sink self) (Hin : (s, ok) ∈ answered self) :
  exists conn, (stream self = Some conn \/ conn ∈ gone self) /\
    forall max table c, @served_by I2 Sm D conn max table c ->
      (exists f, (s, f) ∈ handled c /\ settles f = ok) \/
      ok = true /\ exists entry, entries table !! seq_id s = Some entry /\ seq_seq s <= mark entry.
Proof.
  destruct (answered_proven _ self (s, ok) Hused Hin) as (conn & Hc & hello & ack & W & V & ms & k & rest & Ht & Hv).
  exists conn. split; [done|]. intros max table c Hs. by eapply transcript_true.
Qed.

(** ** Agreement *)

Lemma resend_senders_nodup entries : forall senders, NoDup senders -> NoDup (resend_senders_of entries senders).
Proof.
  induction entries as [|e entries IH]; intros senders Hn; [done|]. cbn [resend_senders_of]. case_match; [done|].
  case_bool_decide; apply IH; [done|]. apply NoDup_app. split_and!; [done| |apply NoDup_singleton].
  intros x Hx ->%list_elem_of_singleton. done.
Qed.

Section Agreement.
Context {I : Interner} {Sm : Summaries} {D : FrameDeps}.

(** The senders a sink lists are distinct, and its configuration stays. *)
Definition lists_once (self0 self : LogitOutput) : Prop :=
  NoDup (resend_senders self) /\ offered_compression self = offered_compression self0 /\ offered_window self = offered_window self0.

Lemma lists_once_refl self : NoDup (resend_senders self) -> lists_once self self.
Proof. done. Qed.

Lemma connect_lists_once net self self0 conn self' :
  lists_once self0 self -> connect_and_handshake net self = inr (conn, self') -> lists_once self0 self'.
Proof. intros (_ & H2 & H3) (_ & _ & ->)%connect_new. split_and!; [apply NoDup_nil_2|done..]. Qed.

Lemma write_payload_lists_once net seq payload conn self self0 :
  lists_once self0 self -> lists_once self0 (snd (write_payload net seq payload conn self)).
Proof. intros Hl. unfold write_payload. by repeat case_match. Qed.

Lemma submit_lists_once net batch ctx seq self self0 :
  lists_once self0 self -> lists_once self0 (snd (submit_frame net batch ctx seq self)).
Proof.
  intros Hl. unfold submit_frame. set (fresh := match stream self, resend_senders self with None, _ :: _ => true | _, _ => false end).
  match goal with |- context [match ?m with inl e => (Some e, self) | inr self => _ end] => destruct m as [e|self1] eqn:E1 end; [done|].
  assert (lists_once self0 self1) as Hl1.
  { destruct fresh; [|by simplify_eq]. destruct (connect_and_handshake net self) as [e|[conn self']] eqn:E; [done|]. injection E1 as <-.
    exact (connect_lists_once net self self0 conn self' Hl E). }
  match goal with |- context [match ?m with Some conn => (None, _) | None => _ end] => destruct m as [conn|] end; [done|].
  set (payload := encode_hop_batch _ _ _ _). destruct (MAX_SANE_UNCOMPRESSED_LEN <? blen payload); [done|].
  assert (forall self2, lists_once self0 self2 -> lists_once self0 (snd
      match connect_and_handshake net self2 with inl e => (Some e, self2) | inr (conn, self) => write_payload net seq payload conn self end)) as Hnew.
  { intros self2 Hl2. destruct (connect_and_handshake net self2) as [e|[conn self3]] eqn:E; [done|].
    by apply write_payload_lists_once, (connect_lists_once net self2 self0 conn self3). }
  destruct (stream self1) as [conn|]; [|by apply Hnew]. destruct (broken conn); [done|].
  destruct (_ || probe_open net); [by apply write_payload_lists_once|by apply Hnew].
Qed.

Lemma keep_lists_once conn self self0 : lists_once self0 self -> lists_once self0 (keep conn self).
Proof. intros Hl. unfold keep. by destruct (_ && _). Qed.

Lemma read_ack_lists_once net self self0 : lists_once self0 self -> lists_once self0 (snd (read_ack net self)).
Proof.
  intros Hl. unfold read_ack. destruct (stream self) as [c|]; [|done]. destruct (in_flight c) as [|front l]; [done|].
  assert (forall c, lists_once self0 (snd (pop_front c (with_stream None self)))) as Hpop.
  { intros c1. unfold pop_front. destruct (in_flight c1) as [|f l1]; [by apply keep_lists_once|].
    exact (keep_lists_once (with_in_flight l1 c1) (with_stream None self) self0 Hl). }
  assert (forall e c, lists_once self0 (snd (Some e : option SendError, with_resend (conn_resend_senders c) (drop_conn c (with_stream None self))))) as Hfail.
  { intros e c1. destruct Hl as (_ & H2 & H3). split_and!; [apply resend_senders_nodup, NoDup_nil_2|done..]. }
  destruct (acked front); [apply Hpop|]. destruct (if timely net then _ else _) as [[m rest]|]; [|apply Hfail].
  destruct m as [| |[id seq [|reason message]]|rj]; try apply Hfail; cbn [ack_status ack_id ack_seq].
  - destruct (mark_acked _ _ _); [apply Hpop|apply Hfail].
  - destruct (settle_rejected _ _ _) as [l'|]; [|apply Hfail].
    exact (keep_lists_once (with_in_flight l' (with_arriving rest c)) (with_stream None self) self0 Hl).
Qed.

Lemma abandon_lists_once self self0 : lists_once self0 self -> lists_once self0 (abandon self).
Proof. intros Hl. unfold abandon. by destruct (stream self). Qed.

Lemma used_lists_once given self0 self : used given (fun o => o = self0 /\ new_sink o) self -> lists_once self0 self.
Proof.
  induction 1 as [o [-> Ho]|p o _ IH|a seq o _ IH|n a seq o _ IH Hout Htold Hok Hg|n a seq o _ IH Hout Htold Hok Hg|n a seq o _ IH Hok Hg|
    |n a seq o _ IH Hok Hg| |n o _ IH|o _ IH]; try done.
  - destruct Ho as (_ & _ & _ & Hr & _). split_and!; [|done..]. rewrite Hr. apply NoDup_nil_2.
  - cbn in *. unfold logit_send. rewrite Htold. pose proof (submit_lists_once n a.1 (pending_ctx o) seq o self0 IH) as H1.
    destruct (submit_frame _ _ _ _ _) as [[e|] o1]; [done|]. cbn [snd] in H1. pose proof (read_ack_lists_once n o1 self0 H1) as H2.
    by destruct (read_ack n o1) as [[e|] o2].
  - cbn in *. unfold logit_cut_send. rewrite Htold. by apply abandon_lists_once, submit_lists_once.
  - by apply submit_lists_once.
  - by apply abandon_lists_once, submit_lists_once.
  - by apply read_ack_lists_once.
  - by apply abandon_lists_once.
Qed.
End Agreement.

Lemma marks_answer_own table senders : forall ids earlier,
  NoDup ids -> ids ⊆ senders -> (forall id, id ∈ ids -> id ∉ earlier) -> marks_answer senders earlier (marks table ids) = true.
Proof.
  induction ids as [|id ids IH]; intros earlier Hn Hsub Hdis; [done|]. apply NoDup_cons in Hn as [Hid Hn]. unfold marks. cbn [omap list_omap].
  assert (forall earlier', (forall i, i ∈ earlier' -> i ∈ earlier \/ i = id) -> marks_answer senders earlier' (marks table ids) = true) as Hrest.
  { intros earlier' He. apply IH; [done|intros i Hi; apply Hsub; by right|]. intros i Hi Hin. destruct (He i Hin) as [Hin'| ->]; [|done].
    by apply (Hdis i); [right|]. }
  destruct (entries table !! id) as [entry|]; cbn [fmap option_fmap option_map]; [|apply Hrest; auto]. cbn [marks_answer].
  rewrite bool_decide_eq_true_2 by (apply Hsub; by left). rewrite bool_decide_eq_false_2 by (apply Hdis; by left). cbn [andb negb].
  apply Hrest. intros i [?|?%list_elem_of_singleton]%elem_of_app; auto.
Qed.

Lemma marks_lookup table ids id m :
  NoDup ids ->
  (list_to_map (reverse (marks table ids)) : gmap bytes Z) !! id = Some m <->
  id ∈ ids /\ exists entry, entries table !! id = Some entry /\ m = mark entry.
Proof.
  intros Hn. assert (NoDup (marks table ids).*1) as Hnm.
  { clear -Hn. induction Hn as [|i ids Hi Hn IH]; [constructor|]. unfold marks in *. cbn [omap list_omap].
    destruct (entries table !! i) as [entry|]; cbn; [|done]. constructor; [|done]. intros ([i' m'] & -> & Hin)%list_elem_of_fmap.
    apply list_elem_of_omap in Hin as (i2 & Hi2 & E). destruct (entries table !! i2); [|done]. injection E as <- _. done. }
  rewrite <- elem_of_list_to_map by (rewrite fmap_reverse; by rewrite reverse_Permutation).
  rewrite elem_of_reverse. unfold marks. rewrite list_elem_of_omap. split.
  - intros (i & Hi & E). destruct (entries table !! i) as [entry|] eqn:Ee; [|done]. injection E as <- <-. eauto.
  - intros (Hi & entry & He & ->). exists id. by rewrite He.
Qed.

(** A sink and a listener of this protocol agree. The reply of a listener, whatever its cap and
    whatever it remembers of the sink's senders, to the [Hello] a sink sends at any point of its life
    is accepted by the sink, with the compression the listener settled on, the listener's cap and
    the smaller of the two windows; and the sink then holds a batch as delivered before the connection
    exactly where it listed the batch's sender and the listener's mark for that sender covers it. *)
Theorem sink_accepts_reply {I : Interner} {Sm : Summaries} {D : FrameDeps} `{!FrameDepsOk D}
    (self0 self : LogitOutput) (Hused : used any_given (fun o => o = self0 /\ new_sink o) self)
    (Hcomp : offered_compression self0 <> CompZstd)
    (max : Z) (table : SenderTable) (Hmax : u32 max)
    (Hmarks : forall id entry, entries table !! id = Some entry -> u64 (mark entry))
    (net : Net) (rest : bytes) (Hleaves : hello_leaves net = true) (Htimely : timely net = true) :
  let '(reply, negotiated) := negotiate max table (hello_of self) in
  exists conn, Sender.handshake net (control_frame reply ++ rest) self = inr (conn, with_resend [] self) /\
    negotiated = Some (compression conn) /\ peer_max_frame_bytes conn = max /\
    1 <= conn_window conn /\ conn_window conn = Z.min (offered_window self0) RECEIVER_MAX_WINDOW /\ arriving conn = rest /\
    forall s, covers s conn = true <->
      seq_id s ∈ resend_senders self /\ exists entry, entries table !! seq_id s = Some entry /\ seq_seq s <= mark entry.
Proof.
  pose proof (used_lists_once _ self0 self Hused) as (Hn & Hc & Hw).
  assert (hello_ok (hello_of self) = true) as Hok.
  { assert (used any_given new_sink self) as Hu by (eapply used_mono, Hused; [done|by intros o [_ ?]]). by apply used_accounted in Hu as (_ & _ & ? & _). }
  pose proof (negotiate_ok max table (hello_of self) Hok Hmax Hmarks) as Hrep.
  assert (u32 (offered_window self) /\ 1 <= offered_window self) as [Hw32 Hw1].
  { clear -Hok. unfold hello_ok in Hok. ok_facts. done. }
  pose proof (hello_len (hello_of self) Hok) as Hlen. assert (315 <= MAX_SANE_UNCOMPRESSED_LEN) as Hcap by by compute.
  destruct (negotiate max table (hello_of self)) as [reply negotiated] eqn:Hneg. cbn [fst] in Hrep.
  unfold negotiate in Hneg. cbn [hello_of he_version he_codecs he_compressions he_window he_senders] in Hneg. rewrite Z.eqb_refl in Hneg.
  change (existsb (fun c => b2z c =? CODEC_HOP_BATCH) [z2b CODEC_HOP_BATCH]) with true in Hneg. cbn [negb] in Hneg.
  set (comp := if existsb _ _ then CompLz4 else CompNone) in Hneg.
  assert (comp = offered_compression self) as Hco by (unfold comp; rewrite Hc in *; by destruct (offered_compression self0)).
  clearbody comp. injection Hneg as <- <-. unfold Sender.handshake. rewrite write_frame_eq, Hleaves, Htimely by (done || lia). cbn [negb].
  unfold control_frame. rewrite read_control_whole by by apply control_sane.
  assert (blen (control_encode (CmHelloAck _)) <= MAX_CONTROL_MESSAGE_BYTES) as Hl2 by (etrans; [by apply control_len, Hrep|done]).
  rewrite (proj2 (Z.leb_le _ _) Hl2), control_round by done.
  match goal with |- context [validate_hello_ack ?a ?h] => assert (validate_hello_ack a h = Some comp) as -> end.
  { unfold validate_hello_ack. cbn [ha_version ha_codec ha_compression ha_marks hello_of he_version he_codecs he_senders he_compressions].
    rewrite Z.eqb_refl. change (existsb (fun c => b2z c =? CODEC_HOP_BATCH) [z2b CODEC_HOP_BATCH]) with true.
    rewrite marks_answer_own by (done || by intros ? ? ?%not_elem_of_nil). cbn [negb].
    rewrite <- Hco in *. rewrite <- Hc in Hcomp. by destruct comp. }
  eexists. split; [done|]. cbn [compression peer_max_frame_bytes conn_window arriving ha_max_frame_bytes ha_window].
  rewrite <- Hw. split_and!; [done|done|lia|lia|done|]. intros s.
  unfold covers. cbn [conn_marks ha_marks]. split.
  - destruct (_ !! seq_id s) as [m|] eqn:El; [|done]. apply marks_lookup in El as (Hi & entry & He & ->); [|done]. intros Hle%Z.leb_le. eauto.
  - intros (Hi & entry & He & Hle). rewrite (proj2 (marks_lookup table _ (seq_id s) (mark entry) Hn)) by eauto. by apply Z.leb_le.
Qed.

(** ** A hop that happens *)

Definition sample_ctx : BatchContext := mkBatchContext (mkTraceContext (repeat (z2b 1) 16) (repeat (z2b 2) 8)) (mkProvenance None None).

Definition idle_sink : LogitOutput := mkLogitOutput CompLz4 8 None sample_ctx None [] [] [].

(** A listener's reply and its acknowledgement of [sample_seq]. *)
Definition sample_arrives : bytes :=
  @control_frame literal_deps (CmHelloAck (mkHelloAck PROTOCOL_VERSION CODEC_HOP_BATCH 1 1000000 4 [])) ++
  @control_frame literal_deps (CmAck (mkAck (seq_id sample_seq) (seq_seq sample_seq) Accepted)).

Definition sample_net : Net := mkNet (Some sample_arrives) true true true None false.

#[local] Abbreviation told_sink :=
  (observe_batch (Output := @logit_output sender_interner sample_summaries literal_deps) (sample_batch, sample_ctx) sample_seq idle_sink).
#[local] Abbreviation sent_sink :=
  (send (Output := @logit_output sender_interner sample_summaries literal_deps) sample_net (sample_batch, sample_ctx) told_sink).2.

Lemma idle_sink_new : new_sink idle_sink.
Proof. by split_and!. Qed.

Lemma sent_sink_used : used (S := @logit_output sender_interner sample_summaries literal_deps) any_given new_sink sent_sink.
Proof.
  apply (used_send _ _ _ _ sample_seq); [apply used_observe, used_start, idle_sink_new|done..|constructor|done].
Qed.

Lemma hop_answers_are_true_witness :
  (sample_seq, true) ∈ answered sent_sink /\
  exists conn, (stream sent_sink = Some conn \/ conn ∈ gone sent_sink) /\
    forall max table c, @served_by receiver_interner sample_summaries literal_deps conn max table c ->
      (exists f, (sample_seq, f) ∈ handled c /\ settles f = true) \/
      true = true /\ exists entry, entries table !! seq_id sample_seq = Some entry /\ seq_seq sample_seq <= mark entry.
Proof.
  assert ((sample_seq, true) ∈ answered sent_sink) as Hin.
  { assert (answered sent_sink = [(sample_seq, true)]) as -> by by vm_compute. apply list_elem_of_here. }
  split; [exact Hin|]. exact (hop_answers_are_true sent_sink sample_seq true sent_sink_used Hin).
Defined.

Lemma sink_accepts_reply_witness :
  let '(reply, negotiated) := negotiate 1000000 (table_new 4) (hello_of idle_sink) in
  exists conn, Sender.handshake (D := literal_deps) sample_net (@control_frame literal_deps reply ++ str "next") idle_sink =
      inr (conn, with_resend [] idle_sink) /\
    negotiated = Some (compression conn) /\ peer_max_frame_bytes conn = 1000000 /\
    1 <= conn_window conn /\ conn_window conn = Z.min 8 RECEIVER_MAX_WINDOW /\ arriving conn = str "next" /\
    forall s, covers s conn = true <->
      seq_id s ∈ resend_senders idle_sink /\ exists entry, entries (table_new 4) !! seq_id s = Some entry /\ seq_seq s <= mark entry.
Proof.
  refine (@sink_accepts_reply sender_interner sample_summaries literal_deps literal_deps_ok idle_sink idle_sink _ _ 1000000 (table_new 4) _ _ sample_net (str "next") _ _).
  - apply used_start. split; [done|apply idle_sink_new].
  - done.
  - by split.
  - intros id e He. change (entries (table_new 4)) with (∅ : gmap bytes Entry) in He. by rewrite lookup_empty in He.
  - done.
  - done.
Defined.
