(* ===== verification/WriteLoop.v ===== *)
(** * The delivery loop

    [write_loop] of crates/logit-pipeline/src/runtime.rs with what it calls: [deliver_with_retry] for
    a sink that takes one batch at a time, [deliver_window] and [window_round] for one that takes
    several before their acknowledgements, and what the shutdown grace drops. The loop is a machine
    whose phases are the points it can wait at; an event is what ends the wait, with what the sink's
    surroundings decide during the call, and batches arrive in the store at any point. The store is
    the in-memory buffer of [Buffer]; the sink is any [Output]. *)

From Stdlib Require Import Sorted.
From S2P Require Import Prelude Buffer Queue SinkQueue Batch Output.

Definition USIZE_MAX : Z := 2 ^ 64 - 1.

(** ** The window's record *)

(** [InFlight]; the times of submission are left out. *)
Record InFlight := mkInFlight {
  outstanding_n : nat;
  observed : nat;
  submitting : bool;
  at_fault : nat;
  collects : bool;
  staged_bytes : Z;
  closed_window : bool
}.

Definition in_flight_new : InFlight := mkInFlight 0 0 false 0 false 0 false.

Definition settle_head (f : InFlight) : InFlight :=
  mkInFlight (outstanding_n f - 1) (observed f) (submitting f) (at_fault f) (collects f) (staged_bytes f)
    (if (outstanding_n f - 1 =? 0)%nat then false else closed_window f).

Definition cut_off (f : InFlight) : InFlight :=
  mkInFlight 0 (observed f) (submitting f) (at_fault f) false (staged_bytes f) false.

Definition left_the_process (f : InFlight) : nat := outstanding_n f + (if submitting f then 1 else 0).

Definition with_at_fault (n : nat) (f : InFlight) : InFlight :=
  mkInFlight (outstanding_n f) (observed f) (submitting f) n (collects f) (staged_bytes f) (closed_window f).
Definition with_observed (n : nat) (f : InFlight) : InFlight :=
  mkInFlight (outstanding_n f) n (submitting f) (at_fault f) (collects f) (staged_bytes f) (closed_window f).
Definition with_submitting (b : bool) (f : InFlight) : InFlight :=
  mkInFlight (outstanding_n f) (observed f) b (at_fault f) (collects f) (staged_bytes f) (closed_window f).
Definition with_collects (b : bool) (f : InFlight) : InFlight :=
  mkInFlight (outstanding_n f) (observed f) (submitting f) (at_fault f) b (staged_bytes f) (closed_window f).

(** What closes a collecting sink's window. *)
Inductive WindowClose := ClosedFull | ClosedDeadline | ClosedPressure | ClosedMemory | ClosedStore | ClosedShutdown.

(** What a committed batch was committed as; a batch cut off at shutdown counts as dropped. *)
Inductive Outcome := Delivered | Dropped (fault : Fault.Fault) | CutOff.

(** ** The backoff between attempts, in nanoseconds *)

Definition DURATION_MAX : Z := 2 ^ 64 * 1000000000 - 1.

Record RetryConfig := mkRetryConfig { base_delay : Z; max_delay : Z }.

Fixpoint backoff_loop (n : nat) (max_delay backoff : Z) : Z :=
  match n with
  | O => backoff
  | S n => if max_delay <=? backoff then backoff else backoff_loop n max_delay (Z.min (backoff * 2) DURATION_MAX)
  end.

Definition backoff_for (retry : RetryConfig) (attempt : Z) : Z :=
  Z.min (backoff_loop (Z.to_nat (Z.min (Z.max (attempt - 1) 0) 128)) (max_delay retry) (base_delay retry)) (max_delay retry).

(** ** The loop *)

Section WriteLoop.
Context {A O N : Type} {QA : Queued A} {S : Output A O N}.
Context (posture : DeliveryPosture) (window_max_bytes : Z).

Abbreviation Item := (A * SeqId)%type.

(** Where the loop waits. [owed] is whether the iteration only reads what a closed window owes. *)
Inductive Phase :=
| Top                                        (* for the store's head *)
| Sending (head : Item)                      (* in [deliver_with_retry]: before an attempt, or backing off *)
| Round (head : Item) (resubmit owed : bool) (* in [deliver_window]: before a round, or backing off *)
| Fill (head : Item) (owed : bool)           (* in [window_round]'s fill *)
| Await (head : Item) (owed : bool)          (* for the head's acknowledgement *)
| Stopped.

Record Loop := mkLoop {
  store : InMemoryBuffer Item;
  numbering : Numbering;             (* the store's *)
  sink : O;
  window_of : InFlight;
  phase : Phase;
  ledger : @Ledger Item;             (* what arrived, was shed, and was committed *)
  outcomes : list Outcome;           (* of the committed batches, in order *)
  observed_log : list SeqId;         (* the pairs [observe_batch] was called with *)
  unknown : list SeqId;              (* the pairs a fault left with an unknown outcome *)
  resent : list SeqId                (* of those, the pairs given to the sink again *)
}.

Definition with_store (s : InMemoryBuffer Item * Ledger) (l : Loop) : Loop :=
  mkLoop s.1 (numbering l) (sink l) (window_of l) (phase l) s.2 (outcomes l) (observed_log l) (unknown l) (resent l).
Definition with_numbering (n : Numbering) (l : Loop) : Loop :=
  mkLoop (store l) n (sink l) (window_of l) (phase l) (ledger l) (outcomes l) (observed_log l) (unknown l) (resent l).
Definition with_sink (o : O) (l : Loop) : Loop :=
  mkLoop (store l) (numbering l) o (window_of l) (phase l) (ledger l) (outcomes l) (observed_log l) (unknown l) (resent l).
Definition with_window (f : InFlight) (l : Loop) : Loop :=
  mkLoop (store l) (numbering l) (sink l) f (phase l) (ledger l) (outcomes l) (observed_log l) (unknown l) (resent l).
Definition with_phase (p : Phase) (l : Loop) : Loop :=
  mkLoop (store l) (numbering l) (sink l) (window_of l) p (ledger l) (outcomes l) (observed_log l) (unknown l) (resent l).

(** The outcome of the first [n] batches of the store is unknown. *)
Definition note_unknown (n : nat) (l : Loop) : Loop :=
  mkLoop (store l) (numbering l) (sink l) (window_of l) (phase l) (ledger l) (outcomes l) (observed_log l)
    (unknown l ++ map snd (take n (held (store l)))) (resent l).

(** A fault of a call that concerns the first [n] batches. *)
Definition note_fault (e : SendError) (n : nat) (l : Loop) : Loop :=
  note_unknown (if decide (classify e = Fault.Ambiguous) then n else 0) l.

(** The sink after a call that gives it the pair [seq]. *)
Definition called (seq : SeqId) (o : O) (l : Loop) : Loop :=
  mkLoop (store l) (numbering l) o (window_of l) (phase l) (ledger l) (outcomes l) (observed_log l) (unknown l)
    (resent l ++ (if decide (seq ∈ unknown l) then [seq] else [])).

Definition observe (head : Item) (l : Loop) : Loop :=
  mkLoop (store l) (numbering l) (observe_batch head.1 head.2 (sink l)) (window_of l) (phase l) (ledger l) (outcomes l)
    (observed_log l ++ [head.2]) (unknown l) (resent l).

(** [store.commit()]. *)
Definition commit_as (o : Outcome) (l : Loop) : Loop :=
  let committed := match fst (buffer_commit (store l)) with Some _ => [o] | None => [] end in
  let '(s, led) := buffer_step (store l, ledger l) BufCommit in
  mkLoop s (numbering l) (sink l) (window_of l) (phase l) led (outcomes l ++ committed) (observed_log l) (unknown l) (resent l).

Fixpoint commit_many (o : Outcome) (n : nat) (l : Loop) : Loop :=
  match n with 0%nat => l | Datatypes.S n => commit_many o n (commit_as o l) end.

Definition lower_observed (n : nat) (l : Loop) : Loop :=
  with_window (with_observed (observed (window_of l) - n) (window_of l)) l.

Definition owed_round (l : Loop) : bool := closed_window (window_of l) && negb (window (sink l) =? USIZE_MAX).

Definition drop_cut_off_at_shutdown (n : nat) (l : Loop) : Loop :=
  if (n =? 0)%nat || is_retryable Fault.Ambiguous posture then l else commit_many CutOff n l.

(** The loop ends at the grace, with [left] batches out of the process. *)
Definition stop (left : nat) (l : Loop) : Loop :=
  with_phase Stopped (drop_cut_off_at_shutdown (reached_destination (sink l) left) l).

(** ** The outcome of a head *)

Definition delivered_head (l : Loop) : Loop :=
  let l := commit_as Delivered l in
  with_phase Top (lower_observed 1 (with_window (settle_head (window_of l)) l)).

(** The batches behind a dropped head that its fault left unknown too, and that are dropped with it. *)
Definition also_in_flight (fast : bool) (e : SendError) (f : InFlight) : nat :=
  if negb fast && negb (is_head_only e) && bool_decide (classify e = Fault.Ambiguous) &&
     negb (is_retryable (classify e) posture)
  then at_fault f - 1 else 0.

Definition dropped_head (fast : bool) (e : SendError) (l : Loop) : Loop :=
  let l := with_window (settle_head (window_of l)) l in
  let also := also_in_flight fast e (window_of l) in
  let l := lower_observed 1 (commit_as (Dropped (classify e)) l) in
  with_phase Top (lower_observed also (commit_many (Dropped (classify e)) also l)).

(** ** One batch at a time *)

(** One attempt of [deliver_with_retry]. *)
Definition deliver_with_retry (n : N) (head : Item) (l : Loop) : Loop :=
  let '(result, o) := send n head.1 (sink l) in
  let l := called head.2 o l in
  match result with
  | None => delivered_head l
  | Some e =>
      let l := note_fault e 1 l in
      if is_retryable (classify e) posture then with_phase (Sending head) l else dropped_head true e l
  end.

(** ** A window *)

(** The end of a failed round in [deliver_window]; its [at_fault] is set. *)
Definition round_failed (head : Item) (owed : bool) (e : SendError) (l : Loop) : Loop :=
  if is_retryable (classify e) posture then with_phase (Round head (is_head_only e) owed) l else dropped_head false e l.

(** A fault of the head's resubmit or of its acknowledgement: the head's own, or the connection's. *)
Definition head_fault (e : SendError) (l : Loop) : Loop :=
  let f := window_of l in
  if is_head_only e then with_window (with_at_fault 1 f) (note_fault e 1 l)
  else with_window (cut_off (with_at_fault (outstanding_n f) f)) (note_fault e (outstanding_n f) l).

(** [window_round]'s resubmit of the head. *)
Definition resubmit_head (n : N) (head : Item) (owed : bool) (l : Loop) : Loop :=
  let '(result, o) := submit n head.1 head.2 (sink l) in
  let l := called head.2 o l in
  match result with
  | None => with_phase (Fill head owed) l
  | Some e => round_failed head owed e (head_fault e l)
  end.

Definition max_in_flight_of (l : Loop) : Z := Z.max (max_len (store l)) 1.

(** The window in force. *)
Definition window_now (l : Loop) : Z := Z.max (Z.min (window (sink l)) (max_in_flight_of l)) 1.

(** What ends a wait of [collecting_next]: the time, the signal, or the store's own answer. *)
Record Wait := mkWait { past_deadline : bool; signalled : bool; wait_ends : option WindowClose }.

(** The next batch of a collecting window, or what closes it; [None] while it waits. *)
Definition collecting_next (w : Wait) (position : nat) (l : Loop) : option (WindowClose + Item) * Loop :=
  match collecting (sink l) with
  | None => (Some (inl ClosedFull), l)
  | Some _ =>
      if past_deadline w then (Some (inl ClosedDeadline), l)
      else if window_max_bytes <=? staged_bytes (window_of l) then (Some (inl ClosedMemory), l)
      else
        match buffer_peek_at (store l) position with
        | (Some item, s) => (Some (inr item), with_store (s, ledger l) l)
        | (None, _) => if signalled w then (Some (inl ClosedShutdown), l) else (inl <$> wait_ends w, l)
        end
  end.

(** What the fill takes next: a batch, or nothing; [None] while a collecting window waits. *)
Definition fill_next (w : Wait) (head : Item) (l : Loop) : option (option Item) * Loop :=
  let position := outstanding_n (window_of l) in
  if window_now l <=? Z.of_nat position then (Some None, l)
  else if (position =? 0)%nat then (Some (Some head), l)
  else if collects (window_of l) then
    match collecting_next w position l with
    | (Some (inr item), l) => (Some (Some item), l)
    | (Some (inl _), l) => (Some None, l)
    | (None, l) => (None, l)
    end
  else
    match buffer_peek_at (store l) position with
    | (Some item, s) => (Some (Some item), with_store (s, ledger l) l)
    | (None, _) => (Some None, l)
    end.

(** The fill is over; a collecting window closes. *)
Definition close_fill (head : Item) (owed : bool) (l : Loop) : Loop :=
  let f := window_of l in
  let f := if collects f then
             mkInFlight (outstanding_n f) (observed f) (submitting f) (at_fault f) false (staged_bytes f) true
           else f in
  with_phase (Await head owed) (with_window f l).

(** A batch about to be submitted is observed first, once. *)
Definition observe_once (item : Item) (l : Loop) : Loop :=
  let position := outstanding_n (window_of l) in
  if (observed (window_of l) <=? position)%nat then
    let l := observe item l in with_window (with_observed (position + 1) (window_of l)) l
  else l.

(** One turn of the fill. *)
Definition window_fill (n : N) (w : Wait) (head : Item) (owed : bool) (l : Loop) : option Loop :=
  match fill_next w head l with
  | (None, _) => None
  | (Some None, l) => Some (close_fill head owed l)
  | (Some (Some item), l) =>
      let position := outstanding_n (window_of l) in
      let l := observe_once item l in
      let '(result, o) := submit n item.1 item.2 (sink l) in
      let l := called item.2 o l in
      let f := window_of l in
      match result with
      | None =>
          let opens := (position =? 0)%nat && bool_decide (is_Some (collecting o)) in
          let collects' := opens || collects f in
          let staged := if opens then 0 else staged_bytes f in
          let staged := if collects' then saturating_add staged (queued_weight item.1) else staged in
          Some (with_window (mkInFlight (position + 1) (observed f) (submitting f) (at_fault f) collects' staged (closed_window f)) l)
      | Some e =>
          if (position =? 0)%nat then
            Some (round_failed head owed e (with_window (with_at_fault 1 (with_collects false f)) (note_fault e 1 l)))
          else Some (close_fill head owed l)
      end
  end.

(** The grace cuts a submission of the fill off. *)
Definition fill_cut (n : N) (w : Wait) (head : Item) (l : Loop) : option Loop :=
  match fill_next w head l with
  | (Some (Some item), l) =>
      let l := observe_once item l in
      let l := with_window (with_submitting true (window_of l)) (called item.2 (cut_submit n item.1 item.2 (sink l)) l) in
      Some (stop (left_the_process (window_of l)) l)
  | _ => None
  end.

(** [window_round]'s wait for the head's acknowledgement. *)
Definition head_answer (n : N) (head : Item) (owed : bool) (l : Loop) : Loop :=
  let '(result, o) := await_ack n (sink l) in
  let l := with_sink o l in
  match result with
  | None => delivered_head l
  | Some e => round_failed head owed e (head_fault e l)
  end.

(** ** Events *)

(** The inbox's push: the store numbers the batch and takes it. *)
Definition arrive (a : A) (l : Loop) : Loop :=
  let '(seq, n) := numbering_next (numbering l) in
  with_store (buffer_step (store l, ledger l) (BufPush (a, seq) (queued_weight a))) (with_numbering n l).

Inductive LoopEvent :=
| Arrive (a : A)                     (* the inbox pushes a batch *)
| Peek                               (* the store has a head *)
| StoreClosed                        (* the store is closed and empty *)
| Grace                              (* the grace has expired, and no call is in flight *)
| Call (n : N) (w : Wait)            (* what the loop does next, to the next point it waits at *)
| CutCall (n : N) (w : Wait).        (* the grace cuts the call in flight off *)

Definition step (e : LoopEvent) (l : Loop) : option Loop :=
  match e, phase l with
  | Arrive a, _ => Some (arrive a l)
  | Peek, Top =>
      let owed := owed_round l in
      match buffer_peek (store l) with
      | (Some head, s) =>
          let l := with_store (s, ledger l) l in
          let fast := (outstanding_n (window_of l) =? 0)%nat && (observed (window_of l) =? 0)%nat && (window (sink l) <=? 1) in
          Some (if fast then with_phase (Sending head) (observe head l) else with_phase (Round head false owed) l)
      | (None, _) => None
      end
  | StoreClosed, Top => match items (store l) with [] => Some (with_phase Stopped l) | _ => None end
  | Grace, Top => if owed_round l then None else Some (stop (outstanding_n (window_of l)) l)
  | Grace, Sending _ => Some (stop 0 l)
  | Grace, Round _ _ owed => if owed && owed_round l then None else Some (stop (outstanding_n (window_of l)) l)
  | Grace, Fill _ owed => if owed then None else Some (stop (left_the_process (window_of l)) l)
  | Call n _, Sending head => Some (deliver_with_retry n head l)
  | Call n _, Round head resubmit owed =>
      Some (if resubmit && (0 <? outstanding_n (window_of l))%nat then resubmit_head n head owed l
            else with_phase (Fill head owed) l)
  | Call n w, Fill head owed => window_fill n w head owed l
  | Call n _, Await head owed => Some (head_answer n head owed l)
  | CutCall n _, Sending head => Some (stop 1 (called head.2 (cut_send n head.1 (sink l)) l))
  | CutCall n _, Round head resubmit owed =>
      if owed || negb (resubmit && (0 <? outstanding_n (window_of l))%nat) then None
      else Some (stop (left_the_process (window_of l)) (called head.2 (cut_submit n head.1 head.2 (sink l)) l))
  | CutCall n w, Fill head owed => if owed then None else fill_cut n w head l
  | CutCall n _, Await _ owed =>
      if owed then None else Some (stop (left_the_process (window_of l)) (with_sink (cut_await_ack (sink l)) l))
  | _, _ => None
  end.

Fixpoint run_events (es : list LoopEvent) (l : Loop) : option Loop :=
  match es with
  | [] => Some l
  | e :: es => match step e l with Some l => run_events es l | None => None end
  end.

(** The loop over an empty store of a bound, before its first batch. *)
Definition loop_new (id : bytes) (len weight : Z) (pol : DropPolicy) (o : O) : Loop :=
  mkLoop (buffer_new len weight pol) (mint id) (observe_posture posture o) in_flight_new Top (mkLedger [] [] []) [] [] [] [].
End WriteLoop.

(** ** The backoff *)

Lemma backoff_loop_doubles n m : 0 <= m <= DURATION_MAX -> forall b, 0 <= b ->
  Z.min (backoff_loop n m b) m = Z.min (b * 2 ^ Z.of_nat n) m.
Proof.
  intros Hm. induction n as [|n IH]; intros b Hb; cbn [backoff_loop]; [by rewrite Z.mul_1_r|].
  rewrite Nat2Z.inj_succ, Z.pow_succ_r by lia. assert (1 <= 2 ^ Z.of_nat n) by (pose proof (Z.pow_pos_nonneg 2 (Z.of_nat n)); lia).
  destruct (Z.leb_spec m b); [nia|]. rewrite IH by (unfold DURATION_MAX; lia).
  destruct (Z.le_gt_cases (b * 2) DURATION_MAX); [rewrite (Z.min_l (b * 2)) by done; f_equal; ring|]. rewrite (Z.min_r (b * 2)) by lia. nia.
Qed.

(** The backoff before retry [attempt + 1] is the base delay doubled for each attempt so far, up to
    the maximum, for any two durations and however many attempts: neither the saturation of a
    [Duration] nor the bound on the loop shows in it. *)
Theorem backoff_doubles (retry : RetryConfig) (attempt : Z)
    (Hbase : 0 <= base_delay retry <= DURATION_MAX) (Hmax : 0 <= max_delay retry <= DURATION_MAX) (Hattempt : 1 <= attempt < 2 ^ 32) :
  backoff_for retry attempt = Z.min (base_delay retry * 2 ^ (attempt - 1)) (max_delay retry).
Proof.
  unfold backoff_for. rewrite backoff_loop_doubles by lia. rewrite (Z.max_l (attempt - 1)) by lia.
  rewrite Z2Nat.id by lia. destruct (Z.le_gt_cases (attempt - 1) 128) as [H|H]; [by rewrite (Z.min_l (attempt - 1)) by done|].
  rewrite (Z.min_r (attempt - 1)) by lia. destruct (Z.eq_dec (base_delay retry) 0) as [->|Hne]; [done|].
  assert (DURATION_MAX < 2 ^ 128) by by vm_compute. assert (2 ^ 128 <= 2 ^ (attempt - 1)) by (apply Z.pow_le_mono_r; lia).
  rewrite (Z.min_r _ (max_delay retry)) by nia. symmetry. apply Z.min_r. nia.
Qed.

Lemma backoff_doubles_witness :
  backoff_for (mkRetryConfig 100000000 30000000000) 7 = Z.min (100000000 * 2 ^ (7 - 1)) 30000000000.
Proof. apply (backoff_doubles (mkRetryConfig 100000000 30000000000)); by split. Defined.
