(* ===== verification/LoopInvariant.v ===== *)
(** * What the delivery loop keeps

    The invariant of [WriteLoop]'s machine over any sink that keeps the contract of [Output]: the
    window the loop counts is the one the sink holds, every batch is observed once and before it is
    given, what the sink answered [Ok] for is what was committed as delivered, and the calls are the
    ones the sink's contract asks of its caller. *)

From Stdlib Require Import Sorted.
From S2P Require Import Prelude Buffer Queue SinkQueue ValueCodec Batch Output Transcript WriteLoop.

(** The pairs of the batches committed as delivered. *)
Fixpoint taken {A} (os : list Outcome) (items : list (A * SeqId)) : list SeqId :=
  match os, items with
  | Delivered :: os, x :: items => x.2 :: taken os items
  | _ :: os, _ :: items => taken os items
  | _, _ => []
  end.

(** An outcome the posture allows. *)
Definition outcome_ok (posture : DeliveryPosture) (o : Outcome) : Prop :=
  match o with
  | Delivered => True
  | Dropped fault => is_retryable fault posture = false
  | CutOff => posture = AtMostOnce
  end.

Definition taken_now {A} (o : Outcome) (x : A * SeqId) : list SeqId :=
  match o with Delivered => [x.2] | _ => [] end.

Lemma taken_snoc {A} os (items : list (A * SeqId)) o x :
  length os = length items -> taken (os ++ [o]) (items ++ [x]) = taken os items ++ taken_now o x.
Proof.
  revert items. induction os as [|o' os IH]; intros [|y items] [=]; simpl; [by destruct o|].
  destruct o'; rewrite IH by done; done.
Qed.

Lemma taken_delivered {A} n x : forall os (items : list (A * SeqId)),
  os !! n = Some Delivered -> items !! n = Some x -> x.2 ∈ taken os items.
Proof.
  induction n as [|n IH]; intros [|o os] [|y items]; simpl; try done; [intros [= ->] [= ->]; apply list_elem_of_here|].
  intros Ho Hx. specialize (IH os items Ho Hx). destruct o; [by apply list_elem_of_further|done..].
Qed.

(** Every pair given is before every batch not given yet. *)
Definition clear {A} (given : list SeqId) (items : list (A * SeqId)) : Prop :=
  forall s x, s ∈ given -> x ∈ items -> before s x.2.

Lemma before_trans s1 s2 s3 : before s1 s2 -> before s2 s3 -> before s1 s3.
Proof. unfold before. intuition (congruence || lia). Qed.

Lemma before_ne s1 s2 : before s1 s2 -> s1 <> s2.
Proof. intros [_ H] ->. lia. Qed.

Lemma sorted_NoDup ss : StronglySorted before ss -> NoDup ss.
Proof.
  induction 1 as [|s ss _ IH Hf]; constructor; [|done]. intros Hin. rewrite List.Forall_forall in Hf.
  by apply (before_ne s s); [apply Hf, list_elem_of_In|].
Qed.

Lemma is_retryable_ambiguous p : is_retryable Fault.Ambiguous p = false <-> p = AtMostOnce.
Proof. by destruct p. Qed.

Section LoopInvariant.
Context {A O N : Type} {QA : Queued A} {QO : QueuedOk A} {S : Output A O N} {L : OutputOk S}.
Context (posture : DeliveryPosture) (window_max_bytes : Z) (start : O -> Prop) (id : bytes).
#[local] Set Default Proof Using "Type*".

Abbreviation Item := (A * SeqId)%type.
Implicit Types (l : @Loop A O) (x head : Item) (o : O).

Abbreviation committed l := (delivered (ledger l)).
Abbreviation queued l := (held (store l)).

(** The batches that came to the loop, each under its number. *)
Definition came l (a : A) (seq : SeqId) : Prop := (a, seq) ∈ pushed (ledger l).

(** The store, the ledger and the logs, with the first [k] held batches observed, the first [u] left
    unknown by a fault the loop has yet to act on, and [t] answered and yet to be committed. *)
Record core (k u : nat) (t : list SeqId) l : Prop := {
  core_buffer : buffer_ok (store l);
  core_ledger : ledger_ok (store l) (ledger l);
  core_id : num_id (numbering l) = id;
  core_id_len : blen id = 16;
  core_next : 1 <= num_next (numbering l) <= U64_MAX;
  core_seqs : Forall (fun x => seq_id x.2 = id /\ 1 <= seq_seq x.2 < num_next (numbering l)) (pushed (ledger l));
  core_sorted : StronglySorted before (map snd (pushed (ledger l)));
  core_outcomes : length (outcomes l) = length (committed l);
  core_outcomes_ok : Forall (outcome_ok posture) (outcomes l);
  core_took : took (sink l) = taken (outcomes l) (committed l) ++ t;
  core_observed : observed_log l = map snd (committed l ++ take k (queued l));
  core_reserved : (k <= reserved (store l))%nat;
  core_unknown : posture = AtMostOnce -> unknown l ⊆ map snd (committed l ++ take u (queued l));
  core_resent : posture = AtMostOnce -> resent l = [];
  core_used : used (came l) start (sink l)
}.

(** ** Frames *)

Ltac same := intros []; constructor; auto.

Lemma core_phase p k u t l : core k u t l -> core k u t (with_phase p l).
Proof. same. Qed.

Lemma core_window f k u t l : core k u t l -> core k u t (with_window f l).
Proof. same. Qed.

Lemma core_sink o t k u l :
  used (came l) start o -> took o = took (sink l) ++ t -> core k u [] l -> core k u t (with_sink o l).
Proof. intros Hu Ht []. constructor; auto. simpl. rewrite Ht. by rewrite core_took0, app_nil_r. Qed.

Lemma core_called seq o t k u l :
  used (came l) start o -> took o = took (sink l) ++ t -> (posture = AtMostOnce -> seq ∉ unknown l) ->
  core k u [] l -> core k u t (called seq o l).
Proof.
  intros Hu Ht Hs []. constructor; auto; simpl.
  - by rewrite Ht, core_took0, app_nil_r.
  - intros Hp. rewrite decide_False by auto. rewrite core_resent0; auto.
Qed.

Lemma core_any_unknown u' k u t l : is_retryable Fault.Ambiguous posture = true -> core k u t l -> core k u' t l.
Proof. intros Hp []. constructor; auto. intros ->. done. Qed.

Lemma core_note n k t l : core k 0 t l -> core k n t (note_unknown n l).
Proof.
  intros []. constructor; auto. simpl. intros Hp. specialize (core_unknown0 Hp).
  rewrite !map_app in *. set_solver.
Qed.

Lemma core_fault e n k t l :
  core k 0 t l -> core k (if decide (classify e = Fault.Ambiguous) then n else 0) t (note_fault e n l).
Proof. apply core_note. Qed.

(** ** Numbers *)

Lemma core_sublist k u t l : core k u t l -> committed l ++ queued l `sublist_of` pushed (ledger l).
Proof. intros H. apply (core_ledger _ _ _ _ H). Qed.

Lemma core_queued_sorted k u t l : core k u t l -> StronglySorted before (map snd (committed l ++ queued l)).
Proof. intros H. eapply sorted_sublist; [apply sublist_map, (core_sublist _ _ _ _ H)|apply H]. Qed.

(** What was committed is before what is queued. *)
Lemma core_committed_before k u t l s x :
  core k u t l -> s ∈ map snd (committed l) -> x ∈ queued l -> before s x.2.
Proof.
  intros H Hs Hx. apply core_queued_sorted in H. rewrite map_app in H. apply sorted_app in H as (_ & _ & H).
  apply H; [done|]. by apply list_elem_of_fmap_2.
Qed.

Lemma core_head_before k u t l head rest x :
  core k u t l -> queued l = head :: rest -> x ∈ rest -> before head.2 x.2.
Proof.
  intros H Hq Hx. apply core_queued_sorted in H. rewrite map_app, Hq in H. apply sorted_app in H as (_ & H & _).
  simpl in H. apply StronglySorted_inv in H as [_ H]. rewrite List.Forall_forall in H. apply H, in_map, list_elem_of_In, Hx.
Qed.

Lemma core_came k u t l x : core k u t l -> x ∈ queued l -> came l x.1 x.2.
Proof.
  intros H Hx. unfold came. rewrite <- surjective_pairing. eapply elem_of_sublist; [|by eapply core_sublist]. set_solver.
Qed.

(** A number stands for one batch. *)
Lemma core_came_unique k u t l x a : core k u t l -> x ∈ committed l -> came l a x.2 -> a = x.1.
Proof.
  intros H Hx [i Hi]%list_elem_of_lookup. assert (x ∈ pushed (ledger l)) as [j Hj]%list_elem_of_lookup
    by (eapply elem_of_sublist; [|by eapply core_sublist]; set_solver).
  pose proof (sorted_NoDup _ (core_sorted _ _ _ _ H)) as Hn. assert (i = j) as ->; [|rewrite Hi in Hj; by injection Hj as <-].
  eapply NoDup_lookup; [done|by rewrite list_lookup_fmap, Hi|by rewrite list_lookup_fmap, Hj].
Qed.

Lemma core_pushed k u t l x : core k u t l -> x ∈ queued l -> x.2 ∈ map snd (pushed (ledger l)).
Proof.
  intros H Hx. apply list_elem_of_fmap_2. eapply elem_of_sublist; [|by eapply core_sublist]. set_solver.
Qed.

Lemma core_seq_ok k u t l x : core k u t l -> x ∈ queued l -> seq_ok x.2 = true.
Proof.
  intros H Hx. pose proof (core_id_len _ _ _ _ H) as Hid. assert (x ∈ pushed (ledger l)) as Hp by (eapply elem_of_sublist; [|by eapply core_sublist]; set_solver).
  pose proof (core_seqs _ _ _ _ H) as Hs. rewrite Forall_forall in Hs. destruct (Hs x Hp) as [Hi Hr].
  pose proof (core_next _ _ _ _ H). unfold seq_ok, unsigned_ok, U64_MAX in *. rewrite Hi, Hid. lia.
Qed.

(** A batch queued is not one of the unknown. *)
Lemma core_fresh k t l x : core k 0 t l -> x ∈ queued l -> posture = AtMostOnce -> x.2 ∉ unknown l.
Proof.
  intros H Hx Hp Hu. apply (core_unknown _ _ _ _ H Hp) in Hu. rewrite take_0, app_nil_r in Hu.
  eapply before_ne; [by eapply core_committed_before|done].
Qed.

(** ** Commits *)

Lemma commit_as_core (oc : Outcome) k u t l head rest :
  core (Datatypes.S k) u t l -> queued l = head :: rest -> outcome_ok posture oc -> t = taken_now oc head ->
  core k (u - 1) [] (commit_as oc l) /\ queued (commit_as oc l) = rest /\ committed (commit_as oc l) = committed l ++ [head] /\
  pushed (ledger (commit_as oc l)) = pushed (ledger l) /\ sink (commit_as oc l) = sink l /\
  window_of (commit_as oc l) = window_of l /\ phase (commit_as oc l) = phase l.
Proof.
  intros H Hq Ho ->. pose proof (buffer_step_ok (store l) (ledger l) BufCommit (core_buffer _ _ _ _ H) (core_ledger _ _ _ _ H) I) as Hb.
  pose proof (core_reserved _ _ _ _ H) as Hr. unfold commit_as. cbn [buffer_step] in *. unfold buffer_commit, held in *.
  destruct (items (store l)) as [|[x w] its] eqn:Hi; [done|]. cbn in Hq. injection Hq as -> Hrest.
  cbn [fst option_list] in *. destruct Hb as (Hb & _ & Hl & _). split; [|by split_and!].
  destruct H. constructor; cbn; auto.
  - rewrite !length_app. simpl. congruence.
  - apply Forall_app. by split; [|constructor].
  - rewrite core_took0, taken_snoc by done. by rewrite app_nil_r.
  - rewrite core_observed0. unfold held. rewrite Hi. cbn. by rewrite <- app_assoc.
  - lia.
  - intros Hp. specialize (core_unknown0 Hp). unfold held in *. rewrite Hi in core_unknown0. rewrite <- app_assoc.
    etrans; [exact core_unknown0|]. rewrite !map_app. destruct u as [|u]; cbn; [set_solver by idtac|].
    by rewrite Nat.sub_0_r.
Qed.

Lemma commit_many_core (oc : Outcome) m : forall k u l,
  core (m + k) u [] l -> (forall x : Item, taken_now oc x = []) -> outcome_ok posture oc ->
  core k (u - m) [] (commit_many oc m l) /\ queued (commit_many oc m l) = drop m (queued l) /\
  pushed (ledger (commit_many oc m l)) = pushed (ledger l) /\ committed l ⊆ committed (commit_many oc m l) /\
  sink (commit_many oc m l) = sink l /\ window_of (commit_many oc m l) = window_of l /\ phase (commit_many oc m l) = phase l.
Proof.
  induction m as [|m IH]; intros k u l H Ht Ho; [by rewrite Nat.sub_0_r|].
  destruct (queued l) as [|x rest] eqn:Hq.
  - pose proof (core_reserved _ _ _ _ H). pose proof (core_buffer _ _ _ _ H) as (Hr & _). unfold held in Hq.
    apply fmap_nil_inv in Hq. rewrite Hq in Hr. simpl in Hr. lia.
  - destruct (commit_as_core oc (m + k) u [] l x rest H Hq Ho (eq_sym (Ht x))) as (H1 & H2 & H3 & H4 & H5 & H6 & H7).
    destruct (IH k (u - 1)%nat (commit_as oc l) H1 Ht Ho) as (I1 & I2 & I3 & I4 & I5 & I6 & I7). cbn [commit_many].
    replace (u - Datatypes.S m)%nat with (u - 1 - m)%nat by lia. split; [done|]. rewrite I2, H2, I3, H4, I5, I6, I7.
    split_and!; try done. rewrite H3 in I4. set_solver.
Qed.

(** ** The sink's side *)

(** The sink holds the first [n] queued batches, and every pair given to its connection is before
    the rest. *)
Record sink_at (n : nat) l : Prop := {
  at_outstanding : outstanding (sink l) = map snd (take n (queued l));
  at_handed s : handed_back (sink l) = Some s -> s ∈ map snd (committed l);
  at_given : given_now (sink l) ⊆ map snd (pushed (ledger l));
  at_clear : clear (given_now (sink l)) (drop n (queued l))
}.

(** The head was handed back, and the sink holds those behind it. *)
Record resubmit_at (n : nat) head l : Prop := {
  re_outstanding : outstanding (sink l) = map snd (drop 1 (take n (queued l)));
  re_handed : handed_back (sink l) = Some head.2;
  re_given : given_now (sink l) ⊆ map snd (pushed (ledger l));
  re_clear : clear (given_now (sink l)) (drop n (queued l))
}.

Definition head_is head l : Prop := queued l !! 0%nat = Some head /\ (0 < reserved (store l))%nat.

(** The loop's count of the window, with nothing in the middle of a submission. *)
Definition counted l : Prop :=
  core (observed (window_of l)) 0 [] l /\ (outstanding_n (window_of l) <= observed (window_of l))%nat /\
  submitting (window_of l) = false.

Definition inv l : Prop :=
  let f := window_of l in
  match phase l with
  | Top => counted l /\ sink_at (outstanding_n f) l
  | Sending head =>
      core 1 0 [] l /\ sink_at 0 l /\ head_is head l /\ told (sink l) = Some head.2 /\
      outstanding_n f = 0%nat /\ observed f = 0%nat /\ submitting f = false
  | Round head resubmit _ =>
      counted l /\ head_is head l /\
      (if resubmit && (0 <? outstanding_n f)%nat then resubmit_at (outstanding_n f) head l else sink_at (outstanding_n f) l)
  | Fill head _ => counted l /\ head_is head l /\ sink_at (outstanding_n f) l
  | Await head _ => counted l /\ head_is head l /\ sink_at (outstanding_n f) l /\ (0 < outstanding_n f)%nat
  | Stopped => exists k, core k 0 [] l
  end.

(** ** Arrivals *)

Lemma clear_sub (g g' : list SeqId) (q q' : list Item) : clear g q -> g' ⊆ g -> q' ⊆ q -> clear g' q'.
Proof. intros H Hg Hq s x Hs Hx. apply H; [by apply Hg|by apply Hq]. Qed.

Lemma arrive_store a l :
  buffer_ok (store l) ->
  let x := (a, (numbering_next (numbering l)).1) in
  reserved (store (arrive a l)) = reserved (store l) /\
  (exists kept, queued (arrive a l) = take (reserved (store l)) (queued l) ++ kept /\
    kept ⊆ drop (reserved (store l)) (queued l) ++ [x]) /\
  committed (arrive a l) = committed l /\ pushed (ledger (arrive a l)) = pushed (ledger l) ++ [x] /\
  sink (arrive a l) = sink l /\ window_of (arrive a l) = window_of l /\ phase (arrive a l) = phase l.
Proof.
  intros Hb. unfold arrive. cbn. destruct (buffer_push_keeps (store l) (a, mkSeqId (num_id (numbering l)) (num_next (numbering l))) (queued_weight a) Hb) as [Hr Hk].
  destruct (buffer_push _ _ _) as [r b]. by cbn in *.
Qed.

(** What is reserved stays, and stays first. *)
Lemma arrive_take a l n :
  buffer_ok (store l) -> (n <= reserved (store l))%nat -> take n (queued (arrive a l)) = take n (queued l).
Proof.
  intros Hb Hn. destruct (arrive_store a l Hb) as (_ & (kept & -> & _) & _). destruct Hb as [Hb _].
  rewrite take_app_le by (rewrite length_take; unfold held; rewrite length_fmap; lia). rewrite take_take. f_equal. lia.
Qed.

Lemma arrive_drop a l n :
  buffer_ok (store l) -> (n <= reserved (store l))%nat ->
  drop n (queued (arrive a l)) ⊆ drop n (queued l) ++ [(a, (numbering_next (numbering l)).1)].
Proof.
  intros Hb Hn. destruct (arrive_store a l Hb) as (_ & (kept & -> & Hk) & _). destruct Hb as [Hb _].
  rewrite drop_app_le by (rewrite length_take; unfold held; rewrite length_fmap; lia).
  rewrite skipn_firstn_comm. assert (drop (reserved (store l)) (queued l) ⊆ drop n (queued l)) as Hd.
  { replace (reserved (store l)) with (n + (reserved (store l) - n))%nat by lia. rewrite <- drop_drop. apply subseteq_drop. }
  assert (take (reserved (store l) - n) (drop n (queued l)) ⊆ drop n (queued l)) by apply subseteq_take. set_solver.
Qed.

Lemma arrive_core a k t l :
  num_next (numbering l) < U64_MAX -> core k 0 t l -> core k 0 t (arrive a l).
Proof.
  intros Hn H. destruct (arrive_store a l (core_buffer _ _ _ _ H)) as (Hr & _ & Hc & Hp & Hs & Hw & Hph).
  pose proof (arrive_take a l k (core_buffer _ _ _ _ H) (core_reserved _ _ _ _ H)) as Htk.
  pose proof (queued_weight_u64 a) as Hq.
  assert (op_ok (BufPush (a, (numbering_next (numbering l)).1) (queued_weight a))) as Ho by apply Hq.
  pose proof (buffer_step_ok (store l) (ledger l) _ (core_buffer _ _ _ _ H) (core_ledger _ _ _ _ H) Ho) as Hb.
  assert (num_next (numbering (arrive a l)) = num_next (numbering l) + 1) as Hnx.
  { pose proof (core_next _ _ _ _ H). unfold arrive. cbn. apply uwrap_small. unfold unsigned, U64_MAX in *. lia. }
  destruct H. constructor; rewrite ?Hs, ?Hr, ?Hc, ?Hnx, ?Hp, ?Htk; try done; try lia.
  - unfold arrive. cbn in *. destruct (buffer_push _ _ _). apply Hb.
  - unfold arrive. cbn in *. destruct (buffer_push _ _ _). apply Hb.
  - apply Forall_app. split; [|constructor; [cbn; split; [done|lia]|constructor]]. eapply Forall_impl; [done|]. cbn. intros x [? Hx]. split; [done|lia].
  - rewrite map_app. apply sorted_snoc; [done|]. apply Forall_map. eapply Forall_impl; [done|]. cbn. intros x Hx. split; cbn; [|lia].
    intuition congruence.
  - eapply used_mono, core_used0; [|done]. unfold came. rewrite Hp. set_solver.
Qed.

Lemma arrive_before k t l s :
  core k 0 t l -> s ∈ map snd (pushed (ledger l)) -> before s (numbering_next (numbering l)).1.
Proof.
  intros H (x & -> & Hx)%list_elem_of_fmap_1. pose proof (core_seqs _ _ _ _ H) as Hf. rewrite Forall_forall in Hf.
  destruct (Hf x Hx) as [Hi Hl]. split; cbn; [rewrite (core_id _ _ _ _ H); done|lia].
Qed.

Lemma arrive_clear a k t n l :
  core k 0 t l -> (n <= k)%nat -> given_now (sink l) ⊆ map snd (pushed (ledger l)) ->
  clear (given_now (sink l)) (drop n (queued l)) -> clear (given_now (sink l)) (drop n (queued (arrive a l))).
Proof.
  intros H Hn Hg Hc s x Hs Hx. pose proof (core_reserved _ _ _ _ H).
  apply arrive_drop in Hx; [|apply H|lia]. apply elem_of_app in Hx as [Hx| ->%list_elem_of_singleton]; [by apply Hc|].
  cbn [snd]. eapply arrive_before; [done|by apply Hg].
Qed.

Lemma arrive_sink_at a k t n l :
  core k 0 t l -> (n <= k)%nat -> sink_at n l -> sink_at n (arrive a l).
Proof.
  intros H Hn [H1 H2 H3 H4]. destruct (arrive_store a l (core_buffer _ _ _ _ H)) as (_ & _ & Hc & Hp & Hs & _).
  pose proof (core_reserved _ _ _ _ H). constructor; rewrite ?Hs, ?Hc, ?Hp; try done.
  - rewrite arrive_take; [done|apply H|lia].
  - rewrite map_app. set_solver.
  - by eapply arrive_clear.
Qed.

Lemma arrive_resubmit_at a k t n head l :
  core k 0 t l -> (n <= k)%nat -> resubmit_at n head l -> resubmit_at n head (arrive a l).
Proof.
  intros H Hn [H1 H2 H3 H4]. destruct (arrive_store a l (core_buffer _ _ _ _ H)) as (_ & _ & Hc & Hp & Hs & _).
  pose proof (core_reserved _ _ _ _ H). constructor; rewrite ?Hs, ?Hc, ?Hp; try done.
  - rewrite arrive_take; [done|apply H|lia].
  - rewrite map_app. set_solver.
  - by eapply arrive_clear.
Qed.

Lemma arrive_head a l head : buffer_ok (store l) -> head_is head l -> head_is head (arrive a l).
Proof.
  intros Hb [Hh Hr]. pose proof (arrive_take a l 1 Hb Hr) as Ht. destruct (arrive_store a l Hb) as (Hr' & _).
  split; [|lia]. rewrite <- (lookup_take_lt _ 1) by lia. rewrite Ht, lookup_take_lt by lia. done.
Qed.

(** Wherever the loop waits, the store and the logs agree. *)
Lemma inv_core l : inv l -> exists k, core k 0 [] l.
Proof.
  intros Hi. unfold inv, counted in Hi.
  destruct (phase l); [destruct Hi as [[? _] _]|destruct Hi as [? _]|destruct Hi as [[? _] _]..|done]; eauto.
Qed.

Lemma arrive_inv a l : num_next (numbering l) < U64_MAX -> inv l -> inv (arrive a l).
Proof.
  intros Hn Hi. destruct (inv_core l Hi) as [k0 H0].
  pose proof (core_buffer _ _ _ _ H0) as Hb. destruct (arrive_store a l Hb) as (_ & _ & _ & _ & Hs & Hw & Hp). clear k0 H0.
  unfold inv, counted in *. rewrite Hw, Hp. destruct (phase l); try rewrite Hs.
  - destruct Hi as ((? & ? & ?) & ?). split_and!; try done; [by apply arrive_core|by eapply arrive_sink_at].
  - destruct Hi as (? & ? & ? & ? & ? & ? & ?). split_and!; try done; [by apply arrive_core|eapply arrive_sink_at; [done|lia|done]|by apply arrive_head].
  - destruct Hi as ((? & ? & ?) & ? & ?). split_and!; try done; [by apply arrive_core|by apply arrive_head|].
    destruct (_ && _); [by eapply arrive_resubmit_at|by eapply arrive_sink_at].
  - destruct Hi as ((? & ? & ?) & ? & ?). split_and!; try done; [by apply arrive_core|by apply arrive_head|by eapply arrive_sink_at].
  - destruct Hi as ((? & ? & ?) & ? & ? & ?). split_and!; try done; [by apply arrive_core|by apply arrive_head|by eapply arrive_sink_at].
  - destruct Hi as [k Hi]. exists k. by apply arrive_core.
Qed.

(** ** The head leaves *)

(** What the sink holds once its answer for the head is in: the [m] batches behind it. *)
Record sink_past (m : nat) head l : Prop := {
  past_outstanding : outstanding (sink l) = map snd (take m (drop 1 (queued l)));
  past_handed s : handed_back (sink l) = Some s -> s ∈ map snd (committed l ++ [head]);
  past_given : given_now (sink l) ⊆ map snd (pushed (ledger l));
  past_clear : clear (given_now (sink l)) (drop m (drop 1 (queued l)))
}.

Lemma sink_past_commit oc k u t l head rest m :
  core (Datatypes.S k) u t l -> queued l = head :: rest -> outcome_ok posture oc -> t = taken_now oc head ->
  sink_past m head l -> sink_at m (commit_as oc l).
Proof.
  intros H Hq Ho Ht [H1 H2 H3 H4]. destruct (commit_as_core oc k u t l head rest H Hq Ho Ht) as (_ & C1 & C2 & C3 & C4 & _).
  rewrite Hq in H1, H4. by constructor; rewrite ?C1, ?C2, ?C3, ?C4.
Qed.

Lemma sink_at_commits oc m k u l :
  core (m + k) u [] l -> (forall x : Item, taken_now oc x = []) -> outcome_ok posture oc ->
  sink_at 0 l -> sink_at 0 (commit_many oc m l).
Proof.
  intros H Ht Ho [H1 H2 H3 H4]. destruct (commit_many_core oc m k u l H Ht Ho) as (_ & C1 & C2 & C3 & C4 & _).
  constructor; rewrite ?C1, ?C2, ?C4; try done.
  - intros s Hs. apply H2 in Hs. apply list_elem_of_fmap in Hs as (x & -> & Hx). apply list_elem_of_fmap_2. by apply C3.
  - eapply clear_sub; [done|done|]. rewrite drop_0. apply subseteq_drop.
Qed.

(** The state between a head's commit and the next iteration. *)
Lemma sink_at_window n f l : sink_at n l -> sink_at n (with_window f l).
Proof. by intros []. Qed.

Lemma sink_at_phase n p l : sink_at n l -> sink_at n (with_phase p l).
Proof. by intros []. Qed.

Lemma sink_past_fault m head e n l : sink_past m head l -> sink_past m head (note_fault e n l).
Proof. by intros []. Qed.

Lemma sink_past_window m head f l : sink_past m head l -> sink_past m head (with_window f l).
Proof. by intros []. Qed.

Lemma delivered_head_inv k l head rest :
  core (Datatypes.S k) 0 [head.2] l -> queued l = head :: rest -> (observed (window_of l) - 1 = k)%nat ->
  (outstanding_n (window_of l) - 1 <= k)%nat -> submitting (window_of l) = false ->
  sink_past (outstanding_n (window_of l) - 1) head l -> inv (delivered_head l).
Proof.
  intros H Hq Hk Hn Hs Hp. destruct (commit_as_core Delivered k 0 _ l head rest H Hq I eq_refl) as (C & _ & _ & _ & _ & C1 & _).
  pose proof (sink_past_commit Delivered k 0 _ l head rest _ H Hq I eq_refl Hp) as [A1 A2 A3 A4].
  unfold inv, counted, delivered_head. cbn. rewrite C1. cbn. rewrite Hk. split_and!; [|done..|by constructor].
  by apply core_phase, core_window, core_window.
Qed.

Lemma dropped_head_inv fast e k u l head rest :
  let f := window_of l in let also := also_in_flight posture fast e (settle_head f) in
  core (Datatypes.S k) u [] l -> queued l = head :: rest -> (observed f - 1 = k)%nat -> submitting f = false ->
  is_retryable (classify e) posture = false -> (u <= Datatypes.S also)%nat -> (also <= k)%nat ->
  (outstanding_n f - 1 <= k)%nat -> (also <> 0 -> outstanding_n f - 1 = 0)%nat ->
  sink_past (outstanding_n f - 1) head l -> inv (dropped_head posture fast e l).
Proof.
  intros f also H Hq Hk Hs Hr Hu Ha Hn Hz Hp. set (l1 := with_window (settle_head f) l).
  apply (core_window (settle_head f)) in H. apply (sink_past_window _ _ (settle_head f)) in Hp. fold l1 in H, Hp.
  set (oc := Dropped (classify e)). assert (outcome_ok posture oc) as Ho by exact Hr.
  destruct (commit_as_core oc k u [] l1 head rest H Hq Ho eq_refl) as (C & _ & _ & _ & _ & C1 & _).
  pose proof (sink_past_commit oc k u [] l1 head rest _ H Hq Ho eq_refl Hp) as A1.
  set (l2 := lower_observed 1 (commit_as oc l1)). apply (core_window (window_of l2)) in C. apply (sink_at_window _ (window_of l2)) in A1.
  replace k with (also + (k - also))%nat in C by lia.
  destruct (commit_many_core oc also (k - also) (u - 1) l2 C (fun _ => eq_refl) Ho) as (M & _ & _ & _ & _ & M1 & _).
  replace (u - 1 - also)%nat with 0%nat in M by lia.
  assert (window_of l2 = with_observed k (settle_head f)) as Hw.
  { unfold l2, lower_observed. cbn. rewrite C1. cbn. by rewrite Hk. }
  assert (sink_at (outstanding_n f - 1) (commit_many oc also l2)) as Ha'.
  { destruct (decide (also = 0%nat)) as [->|Hne]; [exact A1|]. rewrite Hz in A1 |- * by done. by eapply sink_at_commits. }
  unfold inv, counted, dropped_head. cbn [phase with_phase]. fold f l1 oc. change (window_of l1) with (settle_head f).
  fold also l2. unfold lower_observed. cbn. rewrite M1, Hw. cbn. split_and!; [by apply core_phase, core_window|..|by apply sink_at_phase, sink_at_window].
  - destruct (decide (also = 0%nat)); lia.
  - done.
Qed.

(** ** One batch at a time *)

Lemma head_is_cons head l : head_is head l -> exists rest, queued l = head :: rest.
Proof. intros [Hh _]. destruct (queued l) as [|x rest]; [done|]. injection Hh as ->. by exists rest. Qed.

Lemma clear_forall (g : list SeqId) (q : list Item) x : clear g q -> x ∈ q -> Forall (fun s => before s x.2) g.
Proof. intros Hc Hx. apply Forall_forall. intros s Hs. by apply Hc. Qed.

(** One more pair given leaves clear what is behind it. *)
Lemma clear_snoc (g g' : list SeqId) (q : list Item) s :
  clear g q -> g' ⊆ g ++ [s] -> (forall x, x ∈ q -> before s x.2) -> clear g' q.
Proof. intros Hc Hg Hs s' x Hs' Hx. apply Hg, elem_of_app in Hs' as [?| ->%list_elem_of_singleton]; auto. Qed.

Lemma note_fault_retry e n k t l :
  is_retryable (classify e) posture = true -> core k 0 t l -> core k 0 t (note_fault e n l).
Proof.
  intros Hr H. pose proof (core_fault e n k t l H) as Hf. destruct (decide _) as [He|]; [|done].
  rewrite He in Hr. by eapply core_any_unknown.
Qed.

Lemma deliver_with_retry_inv n head l :
  phase l = Sending head -> inv l -> inv (deliver_with_retry posture n head l).
Proof.
  unfold inv at 1. intros -> (H & [S1 S2 S3 S4] & Hh & Ht & Hn & Ho & Hsub).
  destruct (head_is_cons head l Hh) as [rest Hq]. rewrite take_0 in S1. rewrite drop_0 in S4.
  assert (head ∈ queued l) as Hin by (rewrite Hq; apply list_elem_of_here).
  assert (head.2 ∈ map snd (pushed (ledger l))) as Hpu by by eapply core_pushed.
  assert (used (came l) start (snd (send n head.1 (sink l)))) as Hu.
  { eapply used_send; [apply H|done|done|by eapply core_seq_ok|by eapply clear_forall|by eapply core_came]. }
  pose proof (send_law n head.1 (sink l) head.2 S1 Ht) as Hl. unfold deliver_with_retry.
  assert (forall o' g, given_now o' ⊆ given_now (sink l) ++ g -> g ⊆ [head.2] -> outstanding o' = [] ->
    (handed_back o' = handed_back (sink l) \/ handed_back o' = None) -> sink_past 0 head (called head.2 o' l)) as Hpast.
  { intros o' g Hg Hg' Hoo Hhb. constructor; cbn; [done|..].
    - intros s Hs. rewrite map_app. apply elem_of_app. left. apply S2. by destruct Hhb as [<-|?]; [|congruence].
    - set_solver.
    - rewrite Hq, drop_0. eapply (clear_snoc (given_now (sink l)) _ _ head.2); [|set_solver|intros x; by eapply core_head_before].
      eapply clear_sub; [done|done|]. rewrite Hq. set_solver. }
  destruct (send n head.1 (sink l)) as [[e|] o']; cbn [snd] in Hu.
  - destruct Hl as (L1 & L2 & L3 & L4 & L5).
    assert (core 1 0 [] (called head.2 o' l)) as H1 by (apply core_called; [done|by rewrite app_nil_r|by eapply core_fresh|done]).
    destruct (is_retryable (classify e) posture) eqn:Hr.
    + rewrite decide_False in L5 by (intros Hf; by rewrite Hf in Hr). rewrite app_nil_r in L5.
      split_and!; try done; [by apply core_phase, note_fault_retry|]. constructor; cbn; [done|..].
      * intros s Hs. apply S2. by destruct L4 as [<-|?]; [|congruence].
      * set_solver.
      * rewrite drop_0. eapply clear_sub; [done..|set_solver].
    + eapply dropped_head_inv; [by apply core_fault|done|cbn; lia|done|done|cbn; destruct (decide (classify e = Fault.Ambiguous)); lia|cbn; lia|cbn; lia|cbn; lia|].
      replace (outstanding_n _ - 1)%nat with 0%nat by (cbn; lia). apply sink_past_fault. eapply Hpast; [done| |done|done].
      destruct (decide _); set_solver.
  - destruct Hl as (L1 & L2 & L3 & L4). eapply delivered_head_inv; [by apply core_called; [..|by eapply core_fresh|]|done|cbn; lia..|done|].
    replace (outstanding_n _ - 1)%nat with 0%nat by (cbn; lia). by eapply Hpast.
Qed.

(** ** A failed head *)

(** What a fault of the head, or of the connection, leaves of a window of [n]. *)
Definition fault_at (e : SendError) (n : nat) head l : Prop :=
  if is_head_only e then
    outstanding (sink l) = map snd (drop 1 (take n (queued l))) /\
    (handed_back (sink l) = Some head.2 \/ classify e = Fault.Rejected /\ handed_back (sink l) = None) /\
    given_now (sink l) ⊆ map snd (pushed (ledger l)) /\ clear (given_now (sink l)) (drop n (queued l))
  else outstanding (sink l) = [] /\ handed_back (sink l) = None /\ given_now (sink l) = [].

(** The connection is gone, and nothing is held. *)
Lemma sink_at_gone l :
  outstanding (sink l) = [] -> handed_back (sink l) = None -> given_now (sink l) = [] -> sink_at 0 l.
Proof. intros H1 H2 H3. constructor; [done|congruence|rewrite H3; set_solver|rewrite H3; by intros s x ?%not_elem_of_nil]. Qed.

Lemma fault_retried e n head owed l :
  is_retryable (classify e) posture = true -> counted l -> head_is head l -> n = outstanding_n (window_of l) ->
  (0 < n)%nat -> fault_at e n head l -> inv (with_phase (Round head (is_head_only e) owed) (head_fault e l)).
Proof.
  intros Hr (H & Hle & Hs) Hh Hn Hpos Hf. unfold fault_at, head_fault, inv, counted in *. cbn [phase with_phase].
  destruct (is_head_only e); cbn [window_of with_window with_phase].
  - destruct Hf as (F1 & F2 & F3 & F4). split_and!; try done; [by apply core_phase, core_window, note_fault_retry|].
    cbn. rewrite <- Hn. destruct n as [|n]; [lia|]. destruct F2 as [F2|[F2 _]]; [by constructor|by rewrite F2 in Hr].
  - destruct Hf as (F1 & F2 & F3). split_and!; try done; [by apply core_phase, core_window, note_fault_retry|cbn; lia|].
    by apply sink_at_gone.
Qed.

Lemma fault_dropped e n head l :
  is_retryable (classify e) posture = false -> counted l -> head_is head l -> n = outstanding_n (window_of l) ->
  (0 < n)%nat -> fault_at e n head l -> inv (dropped_head posture false e (head_fault e l)).
Proof.
  intros Hr (H & Hle & Hs) Hh Hn Hpos Hf. destruct (head_is_cons head l Hh) as [rest Hq]. unfold fault_at, head_fault in *.
  destruct (observed (window_of l)) as [|k] eqn:Hk; [lia|].
  destruct (is_head_only e) eqn:He.
  - destruct Hf as (F1 & F2 & F3 & F4). rewrite skipn_firstn_comm in F1.
    eapply dropped_head_inv; [by apply core_window, core_fault|done|cbn; lia|done|done|..];
      unfold also_in_flight; rewrite ?He; cbn; [destruct (decide (classify e = Fault.Ambiguous)); lia|lia..|].
    constructor; cbn; rewrite <- ?Hn; [done| |done|by rewrite drop_drop; replace (1 + (n - 1))%nat with n by lia].
    intros s Hs'. rewrite map_app. cbn. destruct F2 as [F2|[_ F2]]; rewrite F2 in Hs'; set_solver.
  - destruct Hf as (F1 & F2 & F3). rewrite <- Hn.
    eapply dropped_head_inv; [by apply core_window, core_fault|done|cbn; lia|done|done|..];
      unfold also_in_flight; rewrite ?He, ?Hr; cbn; try lia.
    + rewrite andb_true_r. case_bool_decide as Ha; [rewrite decide_True by done|rewrite decide_False by done]; lia.
    + case_match; lia.
    + constructor; cbn; [done|congruence|rewrite F3; set_solver|rewrite F3; by intros s x ?%not_elem_of_nil].
Qed.

Lemma head_fault_inv e head owed l :
  counted l -> head_is head l -> (0 < outstanding_n (window_of l))%nat ->
  fault_at e (outstanding_n (window_of l)) head l -> inv (round_failed posture head owed e (head_fault e l)).
Proof.
  intros H Hh Hn Hf. unfold round_failed. destruct (is_retryable _ _) eqn:Hr; [by eapply fault_retried|by eapply fault_dropped].
Qed.

(** ** A round *)

Lemma resubmit_head_inv n head owed l :
  counted l -> head_is head l -> (0 < outstanding_n (window_of l))%nat -> resubmit_at (outstanding_n (window_of l)) head l ->
  inv (resubmit_head posture n head owed l).
Proof.
  intros (H & Hle & Hs) Hh Hn [R1 R2 R3 R4]. destruct (head_is_cons head l Hh) as [rest Hq].
  assert (head ∈ queued l) as Hin by (rewrite Hq; apply list_elem_of_here).
  assert (used (came l) start (snd (submit n head.1 head.2 (sink l)))) as Hu by (apply used_resubmit; [apply H|done|by eapply core_came]).
  pose proof (submit_law n head.1 head.2 (sink l)) as Hl. unfold resubmit_head.
  destruct (submit n head.1 head.2 (sink l)) as [[e|] o']; cbn [snd] in Hu.
  - destruct Hl as (L1 & L2 & _ & L3). specialize (L3 R2).
    apply head_fault_inv; [|done|done|].
    { split_and!; [|done..]. apply core_called; [done|by rewrite app_nil_r|by eapply core_fresh|done]. }
    unfold fault_at. cbn. destruct (is_head_only e); [|by destruct L3 as (? & ? & ?)].
    destruct L3 as [L3 L4]. rewrite L4. split_and!; [done|by left|set_solver|by eapply clear_sub].
  - destruct Hl as (L1 & L2 & L3 & L4). rewrite decide_True in L4 by done. unfold inv, counted. cbn.
    split_and!; try done; [by apply core_phase, core_called; [done|by rewrite app_nil_r|by eapply core_fresh|]|].
    constructor; cbn.
    + rewrite L4, R1, Hq. destruct (outstanding_n (window_of l)); [lia|done].
    + congruence.
    + pose proof (core_pushed _ _ _ _ _ H Hin). set_solver.
    + eapply clear_snoc; [done|done|]. intros x Hx. eapply core_head_before; [done|done|].
      rewrite Hq in Hx. destruct (outstanding_n (window_of l)); [lia|]. by eapply (subseteq_drop _ rest).
Qed.

Lemma head_answer_inv n head owed l :
  counted l -> head_is head l -> (0 < outstanding_n (window_of l))%nat -> sink_at (outstanding_n (window_of l)) l ->
  inv (head_answer posture n head owed l).
Proof.
  intros (H & Hle & Hs) Hh Hn [R1 R2 R3 R4]. destruct (head_is_cons head l Hh) as [rest Hq].
  assert (used (came l) start (snd (await_ack n (sink l)))) as Hu by (apply used_await_ack, H).
  destruct (outstanding_n (window_of l)) as [|m] eqn:Hm; [lia|].
  assert (outstanding (sink l) = head.2 :: map snd (take m rest)) as Ho by (rewrite R1, Hq; done).
  pose proof (await_ack_law n (sink l) _ _ Ho) as Hl. unfold head_answer.
  destruct (await_ack n (sink l)) as [[e|] o']; cbn [snd] in Hu.
  - destruct Hl as (L1 & Hl). apply head_fault_inv; [|done|cbn; lia|].
    { split_and!; cbn; [|lia|done]. apply core_sink; [done|by rewrite app_nil_r|done]. }
    unfold fault_at. cbn. rewrite Hm. destruct (is_head_only e); [|by destruct Hl as (? & ? & ?)].
    destruct Hl as (L3 & L4 & L5). rewrite Hq. split_and!; [done| |set_solver|eapply clear_sub; [done..|by rewrite Hq]].
    destruct (decide _); [by right|by left].
  - destruct Hl as (L1 & L2 & L3 & L4). destruct (observed (window_of l)) as [|k] eqn:Hk; [lia|].
    eapply delivered_head_inv; [by apply core_sink|done|cbn; lia..|done|]. cbn. rewrite Hm. cbn. rewrite Nat.sub_0_r.
    constructor; cbn; rewrite ?Hq; [done|congruence|set_solver|]. rewrite Hq in R4. by eapply clear_sub.
Qed.

(** ** The fill *)

(** A look at position [n] reserves what it returns. *)
Lemma peek_at_core n x s k u t l :
  buffer_peek_at (store l) n = (Some x, s) -> core k u t l ->
  let l' := with_store (s, ledger l) l in
  core k u t l' /\ queued l' = queued l /\ queued l !! n = Some x /\ (n < reserved s)%nat.
Proof.
  intros Hp H. pose proof (buffer_peek_at_ok (store l) n (core_buffer _ _ _ _ H)) as Hb. rewrite Hp in Hb.
  destruct Hb as (B1 & _ & B2 & _ & B3). assert (held s = queued l) as Hh by (unfold held; by rewrite B2).
  assert (reserved s = Nat.max (reserved (store l)) (n + 1)) as Hr.
  { unfold buffer_peek_at in Hp. destruct (items (store l) !! n) as [[y w]|]; [|done]. by injection Hp as <- <-. }
  split_and!; [|done|done|lia]. destruct H. constructor; cbn; rewrite ?Hh; try done; [|lia].
  unfold ledger_ok in *. by rewrite Hh.
Qed.

Lemma sink_at_store n s l : held s = queued l -> sink_at n l -> sink_at n (with_store (s, ledger l) l).
Proof. intros Hs []. by constructor; cbn; rewrite ?Hs. Qed.

Lemma head_is_store head s l :
  held s = queued l -> (reserved (store l) <= reserved s)%nat -> head_is head l -> head_is head (with_store (s, ledger l) l).
Proof. intros Hs Hr [H1 H2]. split; cbn; [by rewrite Hs|lia]. Qed.

(** The state the fill waits in. *)
Definition filling head l : Prop := counted l /\ head_is head l /\ sink_at (outstanding_n (window_of l)) l.

Lemma peek_at_filling n x s head l :
  buffer_peek_at (store l) n = (Some x, s) -> filling head l ->
  let l' := with_store (s, ledger l) l in filling head l' /\ queued l' !! n = Some x /\ (n < reserved s)%nat.
Proof.
  intros Hp ((H & Hle & Hs) & Hh & Ha). destruct (peek_at_core n x s _ _ _ l Hp H) as (P1 & P2 & P3 & P4). cbn in P2.
  assert (reserved (store l) <= reserved s)%nat.
  { unfold buffer_peek_at in Hp. destruct (items (store l) !! n) as [[y w]|]; [|done]. injection Hp as _ <-. cbn. lia. }
  split_and!; [split_and!| |done]; [done..|by apply head_is_store|by apply sink_at_store|cbn; by rewrite P2].
Qed.

(** What the fill takes is the batch behind those it submitted. *)
Lemma fill_next_spec w head l r l' :
  filling head l -> fill_next window_max_bytes w head l = (r, l') ->
  filling head l' /\ window_of l' = window_of l /\ phase l' = phase l /\
  match r with
  | Some (Some x) => queued l' !! outstanding_n (window_of l) = Some x /\ (outstanding_n (window_of l) < reserved (store l'))%nat
  | Some None => (0 < outstanding_n (window_of l))%nat
  | None => True
  end.
Proof.
  intros Hf. pose proof Hf as (_ & [Hh1 Hh2] & _). unfold fill_next, collecting_next.
  destruct (Z.leb_spec (window_now l) (Z.of_nat (outstanding_n (window_of l)))) as [Hw|_].
  { intros [= <- <-]. split_and!; try done. unfold window_now in Hw. lia. }
  destruct (Nat.eqb_spec (outstanding_n (window_of l)) 0) as [Hz|Hz].
  { intros [= <- <-]. by rewrite Hz. }
  assert (0 < outstanding_n (window_of l))%nat by lia.
  destruct (buffer_peek_at (store l) (outstanding_n (window_of l))) as [[x|] s] eqn:Hp;
    destruct (wait_ends w); cbn [fmap option_fmap option_map]; repeat case_match; intros; simplify_eq; try (split_and!; done);
    by destruct (peek_at_filling _ _ _ _ _ Hp Hf) as (? & ? & ?).
Qed.

Lemma observe_core k x l :
  core k 0 [] l -> queued l !! k = Some x -> (k < reserved (store l))%nat -> core (Datatypes.S k) 0 [] (observe x l).
Proof.
  intros [] Hx Hr. destruct (observe_batch_law x.1 x.2 (sink l)) as (_ & _ & O3 & _).
  constructor; try done; cbn [observe sink observed_log]; [by rewrite O3| |by apply used_observe].
  cbn. rewrite core_observed0, (take_S_r _ _ x) by done. by rewrite !map_app, <- app_assoc.
Qed.

Lemma observe_sink_at n x l : sink_at n l -> sink_at n (observe x l).
Proof.
  intros []. destruct (observe_batch_law x.1 x.2 (sink l)) as (O1 & O2 & _ & O4 & _). by constructor; cbn; rewrite ?O1, ?O2, ?O4.
Qed.

(** The batch is observed before it is submitted, unless an earlier submission did. *)
Lemma observe_once_spec x head l :
  filling head l -> queued l !! outstanding_n (window_of l) = Some x -> (outstanding_n (window_of l) < reserved (store l))%nat ->
  let l' := observe_once x l in
  filling head l' /\ (outstanding_n (window_of l') < observed (window_of l'))%nat /\
  outstanding_n (window_of l') = outstanding_n (window_of l) /\ store l' = store l /\ phase l' = phase l.
Proof.
  intros ((H & Hle & Hs) & Hh & Ha) Hx Hr. unfold observe_once.
  destruct (Nat.leb_spec (observed (window_of l)) (outstanding_n (window_of l))) as [Hle'|Hlt]; [|split; [done|by split_and!]].
  split; [split; [split; [|split; [cbn; lia|done]]|split; [done|by apply sink_at_window, observe_sink_at]]|split; [cbn; lia|by split_and!]].
  cbn. rewrite Nat.add_1_r. apply core_window, observe_core; [|done|done]. by replace (outstanding_n _) with (observed (window_of l)) by lia.
Qed.

Lemma submit_ready x head l :
  filling head l -> queued l !! outstanding_n (window_of l) = Some x ->
  seq_ok x.2 = true /\ Forall (fun s => before s x.2) (given_now (sink l)) /\ handed_back (sink l) <> Some x.2 /\
  x ∈ queued l /\ (posture = AtMostOnce -> x.2 ∉ unknown l).
Proof.
  intros ((H & _) & _ & [A1 A2 A3 A4]) Hx. assert (x ∈ queued l) as Hin by by eapply list_elem_of_lookup_2.
  split_and!; [by eapply core_seq_ok| | |done|by eapply core_fresh].
  - eapply clear_forall; [done|]. apply list_elem_of_lookup. exists 0%nat. by rewrite lookup_drop, Nat.add_0_r.
  - intros Hb. apply A2 in Hb. eapply before_ne; [by eapply core_committed_before|done].
Qed.

(** The batches behind one are later. *)
Lemma core_later k u t l n x y : core k u t l -> queued l !! n = Some x -> y ∈ drop (Datatypes.S n) (queued l) -> before x.2 y.2.
Proof.
  intros H Hx Hy. apply core_queued_sorted in H. rewrite map_app in H. apply sorted_app in H as (_ & H & _).
  rewrite <- (take_drop_middle _ _ _ Hx), map_app in H. apply sorted_app in H as (_ & H & _). simpl in H.
  apply StronglySorted_inv in H as [_ H]. rewrite List.Forall_forall in H. by apply H, in_map, list_elem_of_In.
Qed.

Lemma close_fill_inv head owed l : filling head l -> (0 < outstanding_n (window_of l))%nat -> inv (close_fill head owed l).
Proof.
  intros ((H & Hle & Hs) & Hh & []) Hn. unfold inv, counted, close_fill. cbn.
  destruct (collects (window_of l)); cbn; split_and!; try done; by apply core_phase, core_window || by constructor.
Qed.

Lemma fill_failed_inv e head owed l :
  counted l -> outstanding_n (window_of l) = 0%nat -> (0 < observed (window_of l))%nat -> head_is head l -> sink_at 0 l ->
  inv (round_failed posture head owed e (with_window (with_at_fault 1 (with_collects false (window_of l))) (note_fault e 1 l))).
Proof.
  intros (H & Hle & Hs) Hz Ho Hh [A1 A2 A3 A4]. unfold round_failed.
  destruct (is_retryable (classify e) posture) eqn:Hr.
  - unfold inv, counted. cbn. rewrite Hz, andb_false_r. split_and!; try done; try lia.
    by apply core_phase, core_window, note_fault_retry.
  - destruct (head_is_cons head l Hh) as [rest Hq]. destruct (observed (window_of l)) as [|k] eqn:Hk; [lia|].
    assert (also_in_flight posture false e (settle_head (with_at_fault 1 (with_collects false (window_of l)))) = 0%nat) as Hal
      by (unfold also_in_flight; by case_match).
    eapply dropped_head_inv; [by apply core_window, core_fault|done|cbn; lia|done|done|..]; cbn [window_of with_window]; rewrite ?Hal; cbn; try lia.
    + destruct (decide (classify e = Fault.Ambiguous)); lia.
    + constructor; cbn; rewrite ?Hz, ?Hq; cbn; try done.
      * intros s Hs'. rewrite map_app. set_solver.
      * eapply clear_sub; [done|done|]. rewrite Hq. set_solver.
Qed.

(** A submission past what is outstanding. *)
Lemma submit_filling n x head l :
  filling head l -> queued l !! outstanding_n (window_of l) = Some x -> (outstanding_n (window_of l) < observed (window_of l))%nat ->
  let '(result, o) := submit n x.1 x.2 (sink l) in
  let l' := called x.2 o l in
  counted l' /\ head_is head l' /\ sink_at (outstanding_n (window_of l) + (if result then 0 else 1)) l'.
Proof.
  intros Hf Hx Ho. destruct (submit_ready x head l Hf Hx) as (U1 & U2 & U3 & U4 & U5).
  destruct Hf as ((H & Hle & Hs) & Hh & [A1 A2 A3 A4]).
  assert (used (came l) start (snd (submit n x.1 x.2 (sink l)))) as Hu by (apply used_submit; [apply H|done..|by eapply core_came]).
  pose proof (submit_law n x.1 x.2 (sink l)) as Hl. pose proof (core_pushed _ _ _ _ _ H U4) as Hp.
  destruct (submit n x.1 x.2 (sink l)) as [[e|] o]; cbn [snd] in Hu.
  - destruct Hl as (L1 & L2 & L3 & _). destruct (L3 U3) as [L4 L5]. rewrite Nat.add_0_r.
    split; [split; [|done]|split; [done|]]; [by apply core_called; [done|rewrite app_nil_r|..]|].
    constructor; cbn; rewrite ?L4, ?L5; [done..|set_solver|by eapply clear_sub].
  - destruct Hl as (L1 & L2 & L3 & L4). rewrite decide_False in L4 by done.
    split; [split; [|done]|split; [done|]]; [by apply core_called; [done|rewrite app_nil_r|..]|].
    constructor; cbn; rewrite ?Nat.add_1_r, ?L2; [|done|set_solver|].
    + rewrite L4, A1, (take_S_r _ _ x) by done. by rewrite map_app.
    + eapply clear_snoc; [|done|intros y Hy; by eapply core_later]. eapply clear_sub; [done|done|].
      rewrite <- (Nat.add_1_r (outstanding_n _)), <- drop_drop. apply subseteq_drop.
Qed.

Lemma window_fill_inv n w head owed l l' :
  phase l = Fill head owed -> inv l -> window_fill posture window_max_bytes n w head owed l = Some l' -> inv l'.
Proof.
  intros Hph Hi. assert (filling head l) as Hf by (unfold inv in Hi; by rewrite Hph in Hi). unfold window_fill.
  destruct (fill_next window_max_bytes w head l) as [[[x|]|] l1] eqn:Hn; [..|done];
    destruct (fill_next_spec w head l _ l1 Hf Hn) as (Hf1 & Hw & Hp1 & Hr);
    [|intros [= <-]; apply close_fill_inv; [done|by rewrite Hw]].
  destruct Hr as [Hx Hr]. rewrite <- Hw in Hx, Hr.
  destruct (observe_once_spec x head l1 Hf1 Hx Hr) as (Hf2 & Ho & Hon & Hst & Hp2). set (l2 := observe_once x l1) in *.
  rewrite <- Hst, <- Hon in Hx. rewrite <- Hon. pose proof (submit_filling n x head l2 Hf2 Hx Ho) as Hsub.
  destruct (submit n x.1 x.2 (sink l2)) as [[e|] o]; destruct Hsub as (S1 & S2 & S3).
  - rewrite Nat.add_0_r in S3. cbn [window_of called] in *.
    destruct (Nat.eqb_spec (outstanding_n (window_of l2)) 0) as [Hz|Hz]; intros [= <-].
    + rewrite Hz in S3. apply (fill_failed_inv e head owed (called x.2 o l2)); [done..|cbn; lia|done|done].
    + apply close_fill_inv; [by split|cbn; lia].
  - intros [= <-]. destruct S1 as (C1 & C2 & C3), S3. unfold inv. cbn. rewrite Hp2, Hp1, Hph.
    split; [split; [by apply core_window|split; [cbn; lia|done]]|split; [done|by constructor]].
Qed.

(** ** The end of the loop *)

(** At the grace, what may have reached the destination is dropped where it may not be resent. *)
Lemma stop_inv left k l : core k 0 [] l -> (left <= k)%nat -> inv (stop posture left l).
Proof.
  intros H Hle. pose proof (reached_destination_law (sink l) left) as Hr. unfold inv, stop, drop_cut_off_at_shutdown. cbn [phase with_phase].
  set (m := reached_destination (sink l) left) in *.
  destruct ((m =? 0)%nat || is_retryable Fault.Ambiguous posture) eqn:Hm; [by exists k; apply core_phase|].
  apply orb_false_iff in Hm as [_ Hp%is_retryable_ambiguous]. exists (k - m)%nat. apply core_phase.
  replace k with (m + (k - m))%nat in H by lia. by destruct (commit_many_core CutOff m (k - m) 0 l H (fun _ => eq_refl) Hp) as [? _].
Qed.

Lemma fill_cut_inv n w head l l' :
  filling head l -> fill_cut posture window_max_bytes n w head l = Some l' -> inv l'.
Proof.
  intros Hf. unfold fill_cut. destruct (fill_next window_max_bytes w head l) as [[[x|]|] l1] eqn:Hn; [|done..].
  destruct (fill_next_spec w head l _ l1 Hf Hn) as (Hf1 & Hw & Hp1 & Hr). destruct Hr as [Hx Hr]. rewrite <- Hw in Hx, Hr.
  destruct (observe_once_spec x head l1 Hf1 Hx Hr) as (Hf2 & Ho & Hon & Hst & Hp2). set (l2 := observe_once x l1) in *.
  rewrite <- Hst, <- Hon in Hx. destruct (submit_ready x head l2 Hf2 Hx) as (U1 & U2 & U3 & U4 & U5).
  destruct Hf2 as ((H & Hle & Hs) & Hh & _). intros [= <-]. destruct (cut_submit_law n x.1 x.2 (sink l2)) as [_ L1].
  apply (stop_inv _ (observed (window_of l2))); [|unfold left_the_process; cbn; lia].
  apply core_window, core_called; [apply used_cut_submit; [apply H|done..|by eapply core_came]|by rewrite app_nil_r|done|done].
Qed.

(** ** Every step *)

Lemma peek_inv owed l head s :
  phase l = Top -> inv l -> buffer_peek (store l) = (Some head, s) ->
  let l := with_store (s, ledger l) l in
  let fast := (outstanding_n (window_of l) =? 0)%nat && (observed (window_of l) =? 0)%nat && (window (sink l) <=? 1) in
  inv (if fast then with_phase (Sending head) (observe head l) else with_phase (Round head false owed) l).
Proof.
  intros Hph Hi Hp. unfold inv in Hi. rewrite Hph in Hi. destruct Hi as [(H & Hle & Hs) Ha].
  destruct (peek_at_core 0 head s _ _ _ l Hp H) as (P1 & P2 & P3 & P4). apply (sink_at_store _ s) in Ha; [|exact P2].
  cbn zeta. set (l1 := with_store (s, ledger l) l) in *. rewrite <- P2 in P3. change (window_of l) with (window_of l1) in *.
  destruct ((outstanding_n _ =? 0)%nat && _ && _) eqn:Hfast;
    [|split; [by split; [apply core_phase|]|split; [by split|by apply sink_at_phase]]].
  apply andb_true_iff in Hfast as [[Hz%Nat.eqb_eq Ho%Nat.eqb_eq]%andb_true_iff _]. rewrite Hz in Ha. rewrite Ho in P1.
  destruct (observe_batch_law head.1 head.2 (sink l1)) as (_ & _ & _ & _ & O5).
  split; [by apply core_phase, observe_core|]. split; [by apply sink_at_phase, observe_sink_at|done].
Qed.

Lemma loop_step_inv e l l' :
  num_next (numbering l) < U64_MAX -> inv l -> step posture window_max_bytes e l = Some l' -> inv l'.
Proof.
  intros Hnum Hi. destruct e as [a| | | |n w|n w].
  { cbn. intros [= <-]. by apply arrive_inv. }
  all: unfold step; destruct (phase l) as [|head|head re owed|head owed|head owed|] eqn:Hph; try done; pose proof Hi as Hi'; unfold inv in Hi'; rewrite Hph in Hi'.
  - destruct (buffer_peek (store l)) as [[head|] s] eqn:Hp; [|done]. intros [= <-]. by apply peek_inv.
  - destruct (items (store l)); intros [= <-]. destruct Hi' as [(H & _) _]. eexists. by apply core_phase.
  - destruct (owed_round l); intros [= <-]. destruct Hi' as [(H & Hle & _) _]. by eapply stop_inv.
  - intros [= <-]. destruct Hi' as (H & _). eapply stop_inv; [done|lia].
  - destruct (owed && owed_round l); intros [= <-]. destruct Hi' as [(H & Hle & _) _]. by eapply stop_inv.
  - destruct owed; intros [= <-]. destruct Hi' as [(H & Hle & Hs) _]. eapply stop_inv; [done|]. unfold left_the_process. rewrite Hs. lia.
  - intros [= <-]. by apply deliver_with_retry_inv.
  - destruct Hi' as (Hc & Hh & Ha). destruct (re && (0 <? outstanding_n (window_of l))%nat) eqn:Hre; intros [= <-].
    + apply andb_true_iff in Hre as [_ Hre%Nat.ltb_lt]. by apply resubmit_head_inv.
    + destruct Hc as (H & Hle & Hs). split; [by split; [apply core_phase|]|by split; [|apply sink_at_phase]].
  - intros Hw. by eapply window_fill_inv.
  - intros [= <-]. destruct Hi' as (Hc & Hh & Ha & Hn). by apply head_answer_inv.
  - intros [= <-]. destruct Hi' as (H & [A1 A2 A3 A4] & Hh & Ht & _). destruct (head_is_cons head l Hh) as [rest Hq].
    assert (head ∈ queued l) as Hin by (rewrite Hq; apply list_elem_of_here).
    eapply stop_inv; [|done]. apply core_called; [|by rewrite app_nil_r; apply cut_send_law|by eapply core_fresh|done].
    eapply used_cut_send; [apply H|done|done|by eapply core_seq_ok|by eapply clear_forall|by eapply core_came].
  - destruct (owed || _) eqn:Hre; intros [= <-]. apply orb_false_iff in Hre as [_ Hre%negb_false_iff]. rewrite Hre in Hi'.
    destruct Hi' as ((H & Hle & Hs) & Hh & [A1 A2 A3 A4]). destruct (head_is_cons head l Hh) as [rest Hq].
    assert (head ∈ queued l) as Hin by (rewrite Hq; apply list_elem_of_here).
    eapply stop_inv; [|unfold left_the_process; by rewrite Hs, Nat.add_0_r].
    apply core_called; [apply used_cut_resubmit; [apply H|done|by eapply core_came]|rewrite app_nil_r; apply cut_submit_law|by eapply core_fresh|done].
  - destruct owed; [done|]. intros Hw. by eapply fill_cut_inv.
  - destruct owed; intros [= <-]. destruct Hi' as ((H & Hle & Hs) & Hh & _).
    eapply stop_inv; [|unfold left_the_process; by rewrite Hs, Nat.add_0_r].
    apply core_sink; [by apply used_cut_await_ack, H|rewrite app_nil_r; apply cut_await_ack_law|done].
Qed.

(** ** Runs *)

Lemma commit_as_numbering oc l : numbering (commit_as oc l) = numbering l.
Proof. unfold commit_as. by destruct (buffer_step _ _). Qed.

Lemma commit_many_numbering oc m : forall l, numbering (commit_many oc m l) = numbering l.
Proof. induction m as [|m IH]; intros l; [done|]. cbn. by rewrite IH, commit_as_numbering. Qed.

#[local] Hint Rewrite commit_as_numbering commit_many_numbering : numbering.

Lemma stop_numbering left l : numbering (stop posture left l) = numbering l.
Proof. unfold stop, drop_cut_off_at_shutdown. case_match; cbn; by autorewrite with numbering. Qed.

Lemma dropped_head_numbering fast e l : numbering (dropped_head posture fast e l) = numbering l.
Proof. cbn. by autorewrite with numbering; cbn; autorewrite with numbering. Qed.

Lemma delivered_head_numbering l : numbering (delivered_head l) = numbering l.
Proof. cbn. by autorewrite with numbering. Qed.

#[local] Hint Rewrite stop_numbering dropped_head_numbering delivered_head_numbering : numbering.

Lemma round_failed_numbering head owed e l : numbering (round_failed posture head owed e l) = numbering l.
Proof. unfold round_failed. case_match; by autorewrite with numbering. Qed.

Lemma head_fault_numbering e l : numbering (head_fault e l) = numbering l.
Proof. unfold head_fault. by case_match. Qed.

Lemma fill_next_numbering w head l r l' : fill_next window_max_bytes w head l = (r, l') -> numbering l' = numbering l.
Proof. unfold fill_next, collecting_next. intros. repeat case_match; by simplify_eq. Qed.

Lemma observe_once_numbering x l : numbering (observe_once x l) = numbering l.
Proof. unfold observe_once. by case_match. Qed.

#[local] Hint Rewrite round_failed_numbering head_fault_numbering observe_once_numbering : numbering.

Lemma step_numbering e l l' :
  num_next (numbering l) < U64_MAX -> 0 <= num_next (numbering l) -> step posture window_max_bytes e l = Some l' ->
  num_next (numbering l') <= num_next (numbering l) + 1.
Proof.
  intros Hn H0 Hs. destruct e; [injection Hs as <-; unfold arrive; cbn; rewrite uwrap_small; unfold unsigned, U64_MAX in *; lia|..];
    (cut (numbering l' = numbering l); [intros ->; lia|]); unfold step, window_fill, fill_cut, deliver_with_retry, resubmit_head, head_answer in Hs.
  all: repeat (case_match; simplify_eq; try done).
  all: repeat match goal with H : fill_next _ _ _ _ = _ |- _ => apply fill_next_numbering in H end.
  all: cbn -[commit_as commit_many stop dropped_head delivered_head round_failed head_fault observe_once].
  all: autorewrite with numbering; cbn; autorewrite with numbering; by rewrite ?commit_as_numbering.
Qed.

Lemma run_events_inv es : forall l l',
  inv l -> num_next (numbering l) + Z.of_nat (length es) <= U64_MAX ->
  run_events posture window_max_bytes es l = Some l' -> inv l'.
Proof.
  induction es as [|e es IH]; intros l l' Hi Hn; cbn [run_events length] in *; [by intros [= <-]|].
  destruct (step posture window_max_bytes e l) as [l1|] eqn:Hs; [|done].
  assert (inv l1) as Hi1 by (eapply loop_step_inv; [|done..]; lia). destruct (inv_core l Hi) as [k Hk].
  pose proof (core_next _ _ _ _ Hk) as H1. pose proof (step_numbering e l l1 ltac:(lia) ltac:(lia) Hs) as Hle.
  apply IH; [done|lia].
Qed.

(** A sink nothing was given to. *)
Definition unused o : Prop := outstanding o = [] /\ handed_back o = None /\ took o = [] /\ given_now o = [].

Lemma loop_new_inv len weight pol o :
  blen id = 16 -> start o -> unused o -> inv (loop_new posture id len weight pol o).
Proof.
  intros Hid Ho (U1 & U2 & U3 & U4). destruct (observe_posture_law posture o) as (O1 & O2 & O3 & O4).
  split; [split; [|done]|constructor; cbn; rewrite ?O1, ?O2, ?O4, ?U4; [done|congruence|set_solver|by intros s x ?%not_elem_of_nil]].
  constructor; cbn; try done.
  - unfold buffer_ok, buffer_len, true_weight, nonneg_weights, total. cbn. split_and!; try done; lia.
  - constructor.
  - by rewrite O3.
  - by apply used_posture, used_start.
Qed.

(** What holds of every loop that has run from its start. *)
Lemma loop_runs_inv len weight pol o es l :
  blen id = 16 -> start o -> unused o -> Z.of_nat (length es) < U64_MAX ->
  run_events posture window_max_bytes es (loop_new posture id len weight pol o) = Some l -> inv l.
Proof. intros Hid Ho Hu Hn. apply run_events_inv; [by apply loop_new_inv|]. change (1 + Z.of_nat (length es) <= U64_MAX). lia. Qed.
End LoopInvariant.
