(* ===== verification/LoopProperties.v ===== *)
(** * What the delivery loop promises

    The properties of [WriteLoop]'s machine over any sink that keeps the contract of [Output], from
    the invariant of [LoopInvariant]; that a head is delivered once its sink answers; and the loop
    over the native sink of [Sender], whose deliveries are the listener's. *)

From Stdlib Require Import Sorted.
From S2P Require Import Prelude Model Instances Batch Buffer Queue SinkQueue Frame Control Senders Receiver Delivery Handshake Acks.
From S2P Require Import Output Sender Transcript Hop WriteLoop LoopInvariant.

Section Loop.
Context {A O N : Type} {QA : Queued A} {QO : QueuedOk A} {S : Output A O N} {L : OutputOk S}.
#[local] Set Default Proof Using "Type*".

(** The loop has run from an empty store and an unused sink to [l]. *)
Definition ran (posture : DeliveryPosture) (id : bytes) (start : O -> Prop) (l : @Loop A O) : Prop :=
  exists window_max_bytes len weight pol o es,
    blen id = 16 /\ start o /\ unused o /\ Z.of_nat (length es) < U64_MAX /\
    run_events posture window_max_bytes es (loop_new posture id len weight pol o) = Some l.

Lemma ran_inv posture id start l : ran posture id start l -> inv posture start id l.
Proof. intros (wmb & len & weight & pol & o & es & H1 & H2 & H3 & H4 & H5). by eapply loop_runs_inv. Qed.

Lemma ran_core posture id start l : ran posture id start l -> exists k, core posture start id k 0 [] l.
Proof. intros H. eapply inv_core, ran_inv, H. Qed.

(** C3: the loop accounts for every batch. However the sink answers and whenever the grace cuts it,
    every batch the store was given is committed, shed by the store's bound, or still held, exactly
    once; what was committed, and what is held behind it, are in the order of arrival; each batch
    committed has one outcome, one the posture allows; and the batches committed as delivered are, in
    order, exactly those the sink answered [Ok] for. *)
Theorem loop_accounts (posture : DeliveryPosture) (id : bytes) (start : O -> Prop) (l : @Loop A O)
    (Hran : ran posture id start l) :
  let led := ledger l in
  pushed led ≡ₚ delivered led ++ shed led ++ held (store l) /\
  delivered led ++ held (store l) `sublist_of` pushed led /\
  length (outcomes l) = length (delivered led) /\ Forall (outcome_ok posture) (outcomes l) /\
  took (sink l) = taken (outcomes l) (delivered led).
Proof.
  destruct (ran_core _ _ _ _ Hran) as [k []]. destruct core_ledger. rewrite app_nil_r in core_took. by split_and!.
Qed.



(** C4: at-most-once means at most once: a batch an ambiguous fault left with an unknown outcome, the
    head of a broken window or any batch behind it, is committed with it and never given to the sink
    again. *)
Theorem at_most_once_never_resends (id : bytes) (start : O -> Prop) (l : @Loop A O) (Hran : ran AtMostOnce id start l) :
  resent l = [] /\ unknown l ⊆ map snd (delivered (ledger l)).
Proof.
  destruct (ran_core _ _ _ _ Hran) as [k H]. split; [by apply H|]. etrans; [by apply H|]. by rewrite take_0, app_nil_r.
Qed.

(** ** A head is delivered *)

Lemma commit_as_head oc (l : @Loop A O) head rest :
  held (store l) = head :: rest ->
  held (store (commit_as oc l)) = rest /\ delivered (ledger (commit_as oc l)) = delivered (ledger l) ++ [head] /\
  outcomes (commit_as oc l) = outcomes l ++ [oc].
Proof.
  unfold commit_as. cbn. unfold buffer_commit, held. destruct (items (store l)) as [|[x w] its]; [done|]. cbn. by intros [= -> <-].
Qed.

Definition same_batches (l l' : @Loop A O) : Prop :=
  held (store l') = held (store l) /\ ledger l' = ledger l /\ outcomes l' = outcomes l.

#[local] Instance same_batches_preorder : PreOrder same_batches.
Proof. split; [done|]. intros l1 l2 l3 (E1 & E2 & E3) (F1 & F2 & F3). unfold same_batches. by rewrite F1, F2, F3. Qed.

Lemma peek_at_held (b : InMemoryBuffer (A * SeqId)) n : held (buffer_peek_at b n).2 = held b.
Proof. unfold buffer_peek_at. by destruct (items b !! n) as [[]|]. Qed.

Lemma fill_next_same wmb w head (l l' : @Loop A O) r : fill_next wmb w head l = (r, l') -> same_batches l l'.
Proof.
  pose proof (peek_at_held (store l) (outstanding_n (window_of l))) as Hp. unfold fill_next, collecting_next. intros.
  repeat case_match; by simplify_eq.
Qed.

Lemma observe_once_same x (l : @Loop A O) : same_batches l (observe_once x l).
Proof. unfold observe_once. by case_match. Qed.

(** What is long past: a collecting window waits for nothing more. *)
Definition due : Wait := mkWait true true None.

Lemma fill_next_due wmb head (l l' : @Loop A O) r : fill_next wmb due head l = (r, l') -> is_Some r.
Proof. unfold fill_next, collecting_next. intros. repeat case_match; by simplify_eq. Qed.

Section Answering.
Context (posture : DeliveryPosture) (window_max_bytes : Z) (id : bytes) (start : O -> Prop) (n : N).

(** The surroundings [n] let every call succeed. *)
Definition answering : Prop :=
  (forall a o, (send n a o).1 = None) /\ (forall a s o, (submit n a s o).1 = None) /\ (forall o, (await_ack n o).1 = None).

Context (Hans : answering).

Abbreviation run := (run_events (N := N) posture window_max_bytes).
Abbreviation calls := (Forall (fun e : @LoopEvent A N => e = Peek \/ e = Call n due)).
Abbreviation ok := (inv posture start id).

Lemma run_events_app es es' (l l' : @Loop A O) : run es l = Some l' -> run (es ++ es') l = run es' l'.
Proof using Type. revert l. induction es as [|e es IH]; intros l; cbn; [by intros [= ->]|]. case_match; [apply IH|done]. Qed.

(** One turn of the fill: it is over, or one more batch is submitted. *)
Lemma fill_turn head owed l :
  phase l = Fill head owed -> ok l ->
  exists l', step posture window_max_bytes (Call n due) l = Some l' /\ ok l' /\ same_batches l l' /\
    (phase l' = Await head owed \/
     phase l' = Fill head owed /\ outstanding_n (window_of l') = Datatypes.S (outstanding_n (window_of l)) /\
     (outstanding_n (window_of l) < length (held (store l)))%nat).
Proof.
  intros Hph Hi. assert (filling posture start id head l) as Hf by (unfold inv in Hi; by rewrite Hph in Hi).
  assert (step posture window_max_bytes (Call n due) l = window_fill posture window_max_bytes n due head owed l) as Hst
    by (unfold step; by rewrite Hph).
  rewrite Hst. cut (exists l', window_fill posture window_max_bytes n due head owed l = Some l' /\ same_batches l l' /\
    (phase l' = Await head owed \/ phase l' = Fill head owed /\ outstanding_n (window_of l') = Datatypes.S (outstanding_n (window_of l)) /\
     (outstanding_n (window_of l) < length (held (store l)))%nat)).
  { intros (l' & H1 & H2 & H3). exists l'. split_and!; try done; [by eapply window_fill_inv|apply H2..]. }
  unfold window_fill. destruct (fill_next window_max_bytes due head l) as [r l1] eqn:Hn.
  pose proof (fill_next_same _ _ _ _ _ _ Hn) as Hs1. destruct (fill_next_due _ _ _ _ _ Hn) as [x ->].
  destruct (fill_next_spec _ _ _ _ due head l _ l1 Hf Hn) as (_ & Hw & Hp & Hr). destruct x as [x|].
  - destruct Hans as (_ & Hsub & _). destruct Hr as [Hx _]. apply lookup_lt_Some in Hx.
    pose proof (Hsub x.1 x.2 (sink (observe_once x l1))) as He. destruct (submit n x.1 x.2 _) as [r o]. cbn in He. subst r.
    eexists. split; [done|]. split; [exact (transitivity Hs1 (observe_once_same x l1))|]. right. cbn. rewrite (proj1 Hs1) in Hx. rewrite <- Hw in *.
    split; [unfold observe_once; case_match; cbn; congruence|]. split; [lia|done].
  - eexists. split; [done|]. split; [exact Hs1|by left].
Qed.

Lemma fill_ends m : forall head owed l,
  phase l = Fill head owed -> ok l -> (length (held (store l)) - outstanding_n (window_of l) <= m)%nat ->
  exists es l', calls es /\ (length es <= m + 1)%nat /\ run es l = Some l' /\ ok l' /\ same_batches l l' /\ phase l' = Await head owed.
Proof.
  induction m as [|m IH]; intros head owed l Hph Hi Hm; destruct (fill_turn head owed l Hph Hi) as (l1 & H1 & H2 & H3 & [H4|(H4 & H5 & H6)]); try lia.
  1,2: exists [Call n due], l1; cbn [run_events length]; rewrite H1; split_and!; try done; try lia; by constructor; [right|].
  destruct (IH head owed l1 H4 H2) as (es & l' & I1 & I2 & I3 & I4 & I5 & I6); [rewrite (proj1 H3), H5; lia|].
  exists (Call n due :: es), l'. cbn [run_events length]. rewrite H1. split_and!; try done; [by constructor; [right|]|lia|by etrans].
Qed.

Abbreviation delivers head rest l l' :=
  (phase l' = Top /\ delivered (ledger l') = delivered (ledger l) ++ [head] /\ outcomes l' = outcomes l ++ [Delivered] /\ held (store l') = rest).

Lemma delivered_head_delivers head rest (l l0 : @Loop A O) :
  same_batches l0 l -> held (store l0) = head :: rest -> delivers head rest l0 (delivered_head l).
Proof.
  intros (E1 & E2 & E3) Hq. rewrite <- E1 in Hq. destruct (commit_as_head Delivered l head rest Hq) as (C1 & C2 & C3).
  rewrite E2 in C2. rewrite E3 in C3. done.
Qed.

(** From [l] the loop delivers the head in at most [m] events. *)
Definition comes_to (m : nat) head rest (l : @Loop A O) : Prop :=
  exists es l', calls es /\ (length es <= m)%nat /\ run es l = Some l' /\ delivers head rest l l'.

Lemma comes_to_step m head rest e (l l1 : @Loop A O) :
  e = Peek \/ e = Call n due -> step posture window_max_bytes e l = Some l1 -> same_batches l l1 ->
  comes_to m head rest l1 -> comes_to (Datatypes.S m) head rest l.
Proof using Type.
  intros He Hs (E1 & E2 & E3) (es & l' & H1 & H2 & H3 & H4). exists (e :: es), l'. cbn. rewrite Hs, <- E2, <- E3.
  split_and!; [by constructor|lia|done|apply H4..].
Qed.

Lemma await_comes head owed rest l :
  phase l = Await head owed -> ok l -> held (store l) = head :: rest -> comes_to 1 head rest l.
Proof.
  intros Hph Hi Hq. exists [Call n due], (delivered_head (with_sink (await_ack n (sink l)).2 l)).
  destruct Hans as (_ & _ & Ha). split; [by constructor; [right|]|]. split; [done|]. split; [|by apply delivered_head_delivers].
  cbn. unfold step, head_answer. rewrite Hph. specialize (Ha (sink l)). destruct (await_ack n (sink l)). cbn in Ha. by subst.
Qed.

Lemma fill_comes head owed rest l :
  phase l = Fill head owed -> ok l -> held (store l) = head :: rest -> comes_to (length (held (store l)) + 2) head rest l.
Proof.
  intros Hph Hi Hq. destruct (fill_ends (length (held (store l))) head owed l Hph Hi) as (es & l1 & H1 & H2 & H3 & H4 & (E1 & E2 & E3) & H5); [lia|].
  destruct (await_comes head owed rest l1 H5 H4) as (es' & l' & I1 & I2 & I3 & I4); [congruence|].
  exists (es ++ es'), l'. rewrite length_app, (run_events_app _ _ _ _ H3), <- E2, <- E3.
  split_and!; [by apply Forall_app|lia|done|apply I4..].
Qed.

Lemma round_comes head re owed rest l :
  phase l = Round head re owed -> ok l -> held (store l) = head :: rest -> comes_to (length (held (store l)) + 3) head rest l.
Proof.
  intros Hph Hi Hq. pose proof Hi as Hi'. unfold inv in Hi'. rewrite Hph in Hi'. destruct Hi' as (Hc & Hh & Ha).
  rewrite Nat.add_succ_r. destruct (re && (0 <? outstanding_n (window_of l))%nat) eqn:Hre.
  - destruct Hans as (_ & Hsub & _). pose proof Hre as [_ Hn%Nat.ltb_lt]%andb_true_iff.
    pose proof (resubmit_head_inv _ _ _ n head owed l Hc Hh Hn Ha) as Hi1.
    specialize (Hsub head.1 head.2 (sink l)). unfold resubmit_head in Hi1. destruct (submit n head.1 head.2 (sink l)) as [r o] eqn:Es. cbn in Hsub. subst r.
    eapply comes_to_step; [by right|by unfold step, resubmit_head; rewrite Hph, Hre, Es|done|].
    by apply (fill_comes head owed rest (with_phase (Fill head owed) (called head.2 o l))).
  - eapply comes_to_step; [by right|by unfold step; rewrite Hph, Hre|done|].
    apply (fill_comes head owed rest (with_phase (Fill head owed) l)); [done| |done].
    destruct Hc as (H & Hle & Hs). split; [by split; [apply core_phase|]|by split; [|apply sink_at_phase]].
Qed.

Lemma sending_comes head rest l :
  phase l = Sending head -> held (store l) = head :: rest -> comes_to 1 head rest l.
Proof.
  intros Hph Hq. exists [Call n due], (delivered_head (called head.2 (send n head.1 (sink l)).2 l)).
  destruct Hans as (Ha & _ & _). split; [by constructor; [right|]|]. split; [done|]. split; [|by apply delivered_head_delivers].
  cbn. unfold step, deliver_with_retry. rewrite Hph. specialize (Ha head.1 (sink l)). destruct (send n head.1 (sink l)). cbn in Ha. by subst.
Qed.

Lemma comes_to_weaken m m' head rest l : (m <= m')%nat -> comes_to m head rest l -> comes_to m' head rest l.
Proof using Type. intros Hm (es & l' & H1 & H2 & H3 & H4). exists es, l'. split_and!; try done; [lia|apply H4..]. Qed.

Lemma head_comes l head rest :
  ok l -> phase l <> Stopped -> held (store l) = head :: rest -> comes_to (length (held (store l)) + 4) head rest l.
Proof.
  intros Hi Hst Hq. assert (forall x, head_is x l -> x = head) as Hhd by (intros x [Hx _]; rewrite Hq in Hx; by injection Hx).
  pose proof Hi as Hi'. unfold inv in Hi'. destruct (phase l) as [|x|x re owed|x owed|x owed|] eqn:Hph; [..|done].
  - destruct (buffer_peek (store l)) as [[y|] s] eqn:Hp; [|unfold buffer_peek, buffer_peek_at, held in *; by destruct (items (store l)) as [|[]]].
    pose proof (peek_inv _ _ _ (owed_round l) l y s Hph Hi Hp) as Hi1. cbn zeta in Hi1.
    assert (held s = held (store l) /\ y = head) as [Hh ->].
    { pose proof (peek_at_held (store l) 0) as Hh. unfold buffer_peek in Hp. rewrite Hp in Hh. split; [done|].
      unfold buffer_peek_at, held in *. destruct (items (store l)) as [|[z w] its]; [done|]. cbn in *. congruence. }
    rewrite Nat.add_succ_r. eapply comes_to_step; [by left|unfold step; by rewrite Hph, Hp|..]; destruct (_ && _ && _) in Hi1 |- *; try done.
    + eapply comes_to_weaken; [|eapply sending_comes; [done|cbn; congruence]]. lia.
    + rewrite <- Hh.
      apply (round_comes head false (owed_round l) rest (with_phase (Round head false (owed_round l)) (with_store (s, ledger l) l))); [done|done|cbn; congruence].
  - destruct Hi' as (_ & _ & Hh & _). apply Hhd in Hh as ->. eapply comes_to_weaken; [|by eapply sending_comes]. lia.
  - destruct Hi' as (_ & Hh & _). apply Hhd in Hh as ->. eapply comes_to_weaken; [|by eapply round_comes]. lia.
  - destruct Hi' as (_ & Hh & _). apply Hhd in Hh as ->. eapply comes_to_weaken; [|by eapply fill_comes]. lia.
  - destruct Hi' as (_ & Hh & _). apply Hhd in Hh as ->. eapply comes_to_weaken; [|by eapply await_comes]. lia.
Qed.
End Answering.

(** C5: no answer of a sink, and no fault it recovers from, stops the loop for good. Wherever a loop
    that has not been stopped by the grace waits, whatever retry or resubmission it is in the middle
    of, once the sink's calls succeed its head is delivered and committed, and the loop goes on behind
    it; and it takes at most four calls more than there are batches in the store. *)
Theorem loop_delivers_head (posture : DeliveryPosture) (id : bytes) (start : O -> Prop) (l : @Loop A O)
    (Hran : ran posture id start l) (Hgoes : phase l <> Stopped) (n : N) (Hans : answering n)
    (head : A * SeqId) (rest : list (A * SeqId)) (Hhead : held (store l) = head :: rest) (window_max_bytes : Z) :
  exists es l', Forall (fun e => e = Peek \/ e = Call n due) es /\ (length es <= length (held (store l)) + 4)%nat /\
    run_events posture window_max_bytes es l = Some l' /\ phase l' = Top /\ held (store l') = rest /\
    delivered (ledger l') = delivered (ledger l) ++ [head] /\ outcomes l' = outcomes l ++ [Delivered].
Proof.
  destruct (head_comes posture window_max_bytes id start n Hans l head rest (ran_inv _ _ _ _ Hran) Hgoes Hhead)
    as (es & l' & H1 & H2 & H3 & H4 & H5 & H6 & H7). by exists es, l'.
Qed.
End Loop.

(** ** Over the native sink *)

(** C1: what the loop commits as delivered, the destination settled. For a sink configured with
    [logit_out], however its calls go, wherever its connections are cut and whatever windows and
    retries the loop goes through, every batch committed as delivered has a connection of the sink
    such that, whichever run of whichever listener was at its other end, the batch's pair was
    forwarded or recognized as resent on that connection, or was at or below the mark the listener
    held for its sender at the handshake. *)
Theorem delivered_is_settled {I1 I2 : Interner} {Sm : Summaries} {D : FrameDeps} `{!FrameDepsOk D}
    `{!Queued (EventBatch * BatchContext)} `{!QueuedOk (EventBatch * BatchContext)}
    (posture : DeliveryPosture) (id : bytes) (l : @Loop (EventBatch * BatchContext) LogitOutput)
    (Hran : ran (S := @logit_output I1 Sm D) posture id new_sink l)
    (n : nat) (x : EventBatch * BatchContext * SeqId)
    (Hx : delivered (ledger l) !! n = Some x) (Hout : outcomes l !! n = Some Delivered) :
  exists conn, (stream (sink l) = Some conn \/ conn ∈ gone (sink l)) /\
    forall max table c, @served_by I2 Sm D conn max table c ->
      (exists f, (x.2, f) ∈ handled c /\ settles f = true) \/
      exists entry, entries table !! seq_id x.2 = Some entry /\ seq_seq x.2 <= mark entry.
Proof.
  destruct (ran_core _ _ _ _ Hran) as [k H]. pose proof (taken_delivered n x _ _ Hout Hx) as Hin.
  pose proof (core_took _ _ _ _ _ _ _ H) as Ht. rewrite app_nil_r in Ht. rewrite <- Ht in Hin.
  apply list_elem_of_omap in Hin as ([s [|]] & Hin & [= ->]).
  destruct (answered_proven _ (sink l) (x.2, true) (core_used _ _ _ _ _ _ _ H) Hin) as (conn & Hc & hello & ack & W & V & ms & j & rest & Htr & Hv).
  exists conn. split; [done|]. intros max table c Hs. destruct (transcript_true conn hello ack W V ms j rest max table c x.2 true Htr Hs Hv) as [?|[_ ?]]; auto.
Qed.

(** ** A loop that runs *)

(** A sink with two batches in flight whose surroundings say how each call ends. *)
Record Tray := mkTray { on_tray : list SeqId; given_back : option SeqId; last_told : option SeqId; served : list SeqId; shown : list SeqId }.

Definition tray_send (n : option SendError) (o : Tray) : option SendError * Tray :=
  match n, last_told o with
  | None, Some s => (None, mkTray (on_tray o) (given_back o) (last_told o) (served o ++ [s]) (shown o ++ [s]))
  | None, None => (None, o)
  | Some e, _ => (Some e, o)
  end.

Definition tray_submit (n : option SendError) (s : SeqId) (o : Tray) : option SendError * Tray :=
  let again := bool_decide (given_back o = Some s) in
  match n with
  | None => (None, mkTray (if again then s :: on_tray o else on_tray o ++ [s]) None (last_told o) (served o) (shown o ++ [s]))
  | Some e => (Some e, if again && negb (is_head_only e) then mkTray [] None (last_told o) (served o) [] else o)
  end.

Definition tray_await (n : option SendError) (o : Tray) : option SendError * Tray :=
  match n, on_tray o with
  | None, s :: rest => (None, mkTray rest None (last_told o) (served o ++ [s]) (shown o))
  | None, [] => (None, o)
  | Some e, s :: rest =>
      (Some e, if is_head_only e then
                 mkTray rest (if decide (classify e = Fault.Rejected) then None else Some s) (last_told o) (served o) (shown o)
               else mkTray [] None (last_told o) (served o) [])
  | Some e, [] => (Some e, o)
  end.

Definition tray_cleared (o : Tray) : Tray := mkTray [] None (last_told o) (served o) [].

#[global] Instance tray_output : Output nat Tray (option SendError) := {|
  window := fun _ => 2;
  collecting := fun _ => None;
  reached_destination := fun _ n => n;
  default_posture := fun _ => AtLeastOnce;
  observe_posture := fun _ o => o;
  observe_batch := fun _ s o => mkTray (on_tray o) (given_back o) (Some s) (served o) (shown o);
  send := fun n _ o => tray_send n o;
  submit := fun n _ s o => tray_submit n s o;
  await_ack := tray_await;
  cut_send := fun _ _ o => tray_cleared o;
  cut_submit := fun _ _ _ o => tray_cleared o;
  cut_await_ack := tray_cleared
|}.

#[global] Instance tray_output_ok : OutputOk tray_output.
Proof.
  refine {| outstanding := on_tray; handed_back := given_back; told := last_told; took := served; given_now := shown |}; try done.
  - intros [e|] a o s Ho Ht; cbn; rewrite ?Ht; cbn; [split_and!; try done; [by left|set_solver]|split_and!; try done; by left].
  - intros [e|] a s o; cbn.
    + destruct (decide (given_back o = Some s)) as [E|E]; [rewrite bool_decide_true by done|rewrite bool_decide_false by done];
        destruct (is_head_only e); cbn; split_and!; try done; set_solver.
    + split_and!; try done. destruct (decide (given_back o = Some s)); [by rewrite bool_decide_true|by rewrite bool_decide_false].
  - intros [e|] o s rest Ho; cbn; rewrite Ho; [|by split_and!]. destruct (is_head_only e); by split_and!.
Defined.

Definition tray_new : Tray := mkTray [] None None [] [].

Definition ambiguous : option SendError := Some (mkSendError (Some Fault.Ambiguous) false).
Definition rejected : option SendError := Some (mkSendError (Some Fault.Rejected) true).

(** Three batches: two are submitted and the first is acknowledged; the third joins the second, whose
    acknowledgement finds the connection lost. *)
Definition sample_events : list (@LoopEvent nat (option SendError)) :=
  [Arrive 1%nat; Arrive 2%nat; Arrive 3%nat; Peek; Call None due; Call None due; Call None due; Call None due; Call None due;
   Peek; Call None due; Call None due; Call None due; Call ambiguous due].

(** The second is submitted again and refused; the third is acknowledged. *)
Definition sample_recovery : list (@LoopEvent nat (option SendError)) :=
  [Call None due; Call None due; Call None due; Call None due; Call rejected due;
   Peek; Call None due; Call None due; Call None due].

Definition tray_loop (posture : DeliveryPosture) (es : list (@LoopEvent nat (option SendError))) : @Loop nat Tray :=
  let l := loop_new posture sample_id 4 100 DropOldest tray_new in default l (run_events posture 100 es l).

Lemma tray_loop_ran posture es :
  Z.of_nat (length es) < U64_MAX ->
  is_Some (run_events posture 100 es (loop_new posture sample_id 4 100 DropOldest tray_new)) ->
  ran posture sample_id (fun o => o = tray_new) (tray_loop posture es).
Proof.
  intros Hn [l Hl]. exists 100, 4, 100, DropOldest, tray_new, es. unfold tray_loop. rewrite Hl. by split_and!.
Qed.

Lemma loop_accounts_witness :
  let l := tray_loop AtLeastOnce (sample_events ++ sample_recovery) in
  outcomes l = [Delivered; Dropped Fault.Rejected; Delivered] /\
  pushed (ledger l) ≡ₚ delivered (ledger l) ++ shed (ledger l) ++ held (store l) /\
  delivered (ledger l) ++ held (store l) `sublist_of` pushed (ledger l) /\
  length (outcomes l) = length (delivered (ledger l)) /\ Forall (outcome_ok AtLeastOnce) (outcomes l) /\
  took (sink l) = taken (outcomes l) (delivered (ledger l)).
Proof.
  split; [by vm_compute|]. refine (loop_accounts AtLeastOnce sample_id (fun o => o = tray_new) _ _). by apply tray_loop_ran; [|eexists; vm_compute].
Defined.



Lemma at_most_once_never_resends_witness :
  let l := tray_loop AtMostOnce sample_events in
  outcomes l = [Delivered; Dropped Fault.Ambiguous; Dropped Fault.Ambiguous] /\
  resent l = [] /\ unknown l ⊆ map snd (delivered (ledger l)).
Proof.
  split; [by vm_compute|]. refine (at_most_once_never_resends sample_id (fun o => o = tray_new) _ _).
  by apply tray_loop_ran; [|eexists; vm_compute].
Defined.

Lemma loop_delivers_head_witness :
  let l := tray_loop AtLeastOnce sample_events in
  exists es l', Forall (fun e => e = Peek \/ e = Call None due) es /\ (length es <= length (held (store l)) + 4)%nat /\
    run_events AtLeastOnce 100 es l = Some l' /\ phase l' = Top /\ held (store l') = [(3%nat, mkSeqId sample_id 3)] /\
    delivered (ledger l') = delivered (ledger l) ++ [(2%nat, mkSeqId sample_id 2)] /\ outcomes l' = outcomes l ++ [Delivered].
Proof.
  refine (loop_delivers_head AtLeastOnce sample_id (fun o => o = tray_new) _ _ _ None _ _ _ _ 100); [..|by vm_compute].
  - by apply tray_loop_ran; [|eexists; vm_compute].
  - by vm_compute.
  - split_and!; [intros a [? ? []]|..|intros [[] ? ? ? ?]]; done.
Defined.

(** The native sink's loop: one batch is sent on a new connection and acknowledged. *)
#[local] Instance sample_queued : Queued (@EventBatch sample_summaries * BatchContext) :=
  {| queued_weight _ := 1; queued_units _ := 1 |}.

#[local] Instance sample_queued_ok : QueuedOk (@EventBatch sample_summaries * BatchContext).
Proof. by split. Qed.

Definition hop_net : Net :=
  mkNet (Some (@control_frame literal_deps (CmHelloAck (mkHelloAck PROTOCOL_VERSION CODEC_HOP_BATCH 1 1000000 4 [])) ++
               @control_frame literal_deps (CmAck (mkAck sample_id 1 Accepted)))) true true true None false.

#[local] Abbreviation hop_output := (@logit_output sender_interner sample_summaries literal_deps).
#[local] Abbreviation hop_start := (loop_new (S := hop_output) AtLeastOnce sample_id 4 100 DropOldest idle_sink).
#[local] Abbreviation hop_run :=
  (run_events (S := hop_output) AtLeastOnce 100
     [Arrive (sample_batch, sample_ctx); Peek; Call hop_net due] hop_start).

Lemma delivered_is_settled_witness :
  exists l, hop_run = Some l /\
  exists conn, (stream (sink l) = Some conn \/ conn ∈ gone (sink l)) /\
    forall max table c, @served_by receiver_interner sample_summaries literal_deps conn max table c ->
      (exists f, (mkSeqId sample_id 1, f) ∈ handled c /\ settles f = true) \/
      exists entry, entries table !! sample_id = Some entry /\ 1 <= mark entry.
Proof.
  assert (match hop_run with
    | Some l => bool_decide (map snd (delivered (ledger l)) = [mkSeqId sample_id 1]) &&
        match outcomes l with [Delivered] => true | _ => false end
    | None => false end = true) as Hc by by vm_compute.
  destruct hop_run as [l|] eqn:Hr; [|discriminate Hc]. exists l. split; [reflexivity|].
  assert (ran (S := hop_output) AtLeastOnce sample_id new_sink l) as Hran.
  { exists 100, 4, 100, DropOldest, idle_sink, [Arrive (sample_batch, sample_ctx); Peek; Call hop_net due].
    split; [reflexivity|]. split; [exact idle_sink_new|]. split; [repeat split|]. split; [reflexivity|exact Hr]. }
  clear Hr. apply andb_true_iff in Hc as [Hd%bool_decide_eq_true Ho].
  destruct (delivered (ledger l)) as [|x [|]] eqn:Hl; try discriminate Hd. injection Hd as Hx.
  destruct (outcomes l) as [|[] [|]] eqn:Hout; try discriminate Ho.
  pose proof (delivered_is_settled (I2 := receiver_interner) AtLeastOnce sample_id l Hran 0 x) as H.
  rewrite Hl, Hout in H. destruct (H eq_refl eq_refl) as (conn & Hc & Hs). exists conn. split; [exact Hc|].
  rewrite Hx in Hs. exact Hs.
Defined.
