(* ===== verification/StreamFraming.v ===== *)
(** * Frames off a byte stream

    [Framer] of crates/logit-proto/src/framing.rs, which the stream listeners feed each connection's
    bytes through: lines, RFC 6587's two framings and two length prefixes. An error's text is left
    out; its kind is kept. *)

From S2P Require Import Prelude.

Definition LF : byte := z2b 10.
Definition CR : byte := z2b 13.

Module Mode.
Inductive Oversize := Fatal | DrainToNextLine.
Inductive FramingMode := Rfc6587Auto | Lines (oversize : Oversize) | LengthPrefixed | LengthPrefixedLe.
End Mode.

Module Framing.
Inductive Framing := OctetCounting | NonTransparent | LengthPrefixed | LengthPrefixedLe.
End Framing.

Module FrameError.
Inductive FrameError := Oversize | Malformed | Truncated | OversizeSkipped | Drained.
End FrameError.

#[global] Instance framing_eq_dec : EqDecision Framing.Framing.
Proof. solve_decision. Defined.
#[global] Instance frame_error_eq_dec : EqDecision FrameError.FrameError.
Proof. solve_decision. Defined.

Definition is_fatal (e : FrameError.FrameError) : bool :=
  match e with FrameError.OversizeSkipped | FrameError.Drained => false | _ => true end.

Record Framer := mkFramer {
  mode : Mode.FramingMode;
  max_frame_bytes : Z;
  framing : option Framing.Framing;
  buf : bytes;
  scanned : nat;
  draining : bool;
  seen_bytes : bool
}.

Definition with_buf (bs : bytes) (n : nat) (d : bool) (f : Framer) : Framer :=
  mkFramer (mode f) (max_frame_bytes f) (framing f) bs n d (seen_bytes f).

Definition framer_new (m : Mode.FramingMode) (max : Z) : Framer :=
  mkFramer m max
    (match m with
     | Mode.Rfc6587Auto => None
     | Mode.Lines _ => Some Framing.NonTransparent
     | Mode.LengthPrefixed => Some Framing.LengthPrefixed
     | Mode.LengthPrefixedLe => Some Framing.LengthPrefixedLe
     end) [] 0 false false.

Definition first_byte_seen (f : Framer) : bool := seen_bytes f.
Definition buffered (f : Framer) : Z := blen (buf f).

(** ** Bytes *)

Definition is_ascii_digit (b : byte) : bool := (48 <=? b2z b) && (b2z b <=? 57).

Definition is_ascii_whitespace (b : byte) : bool :=
  (b2z b =? 32) || (b2z b =? 9) || (b2z b =? 10) || (b2z b =? 12) || (b2z b =? 13).

Fixpoint position_lf (bs : bytes) : option nat :=
  match bs with
  | [] => None
  | b :: bs => if bool_decide (b = LF) then Some 0%nat else S <$> position_lf bs
  end.

(** One trailing [CR] is removed. *)
Definition strip_cr (line : bytes) : bytes :=
  match last line with
  | Some b => if bool_decide (b = CR) then take (length line - 1) line else line
  | None => line
  end.

(** The value of at most nine ASCII digits. *)
Definition decimal (digits : bytes) : Z := foldl (fun n b => 10 * n + (b2z b - 48)) 0 digits.

(** ** Operations *)

Definition oversize_policy (f : Framer) : Mode.Oversize :=
  match mode f with Mode.Lines oversize => oversize | _ => Mode.Fatal end.

Definition remainder_is_blank (f : Framer) : bool :=
  match framing f, mode f with
  | Some Framing.NonTransparent, Mode.Lines _ => forallb is_ascii_whitespace (buf f)
  | Some Framing.NonTransparent, _ => bool_decide (buf f = []) || bool_decide (buf f = [CR])
  | _, _ => bool_decide (buf f = [])
  end.

Definition push (bs : bytes) (f : Framer) : Framer :=
  let b := buf f ++ bs in
  mkFramer (mode f) (max_frame_bytes f)
    (match mode f, framing f, b with
     | Mode.Rfc6587Auto, None, first :: _ =>
         Some (if is_ascii_digit first then Framing.OctetCounting else Framing.NonTransparent)
     | _, fr, _ => fr
     end) b (scanned f) (draining f) (seen_bytes f || negb (bool_decide (bs = []))).

(** The end of an abandoned line: [None] while its [LF] has not arrived. *)
Definition finish_drain (f : Framer) : option Framer :=
  if draining f then
    match position_lf (buf f) with
    | Some at_ => Some (with_buf (drop (S at_) (buf f)) 0 false f)
    | None => None
    end
  else Some f.

Definition next_line (f : Framer) : (FrameError.FrameError + option bytes) * Framer :=
  match finish_drain f with
  | None => (inr None, with_buf [] 0 true f)
  | Some f =>
      let bound := max_frame_bytes f in
      match position_lf (drop (scanned f) (buf f)) with
      | None =>
          if bound <? blen (buf f) then
            match oversize_policy f with
            | Mode.Fatal => (inl FrameError.Oversize, with_buf (buf f) (length (buf f)) (draining f) f)
            | Mode.DrainToNextLine => (inl FrameError.Drained, with_buf [] 0 true f)
            end
          else (inr None, with_buf (buf f) (length (buf f)) (draining f) f)
      | Some offset =>
          let idx := (scanned f + offset)%nat in
          if bound <? Z.of_nat idx then
            match oversize_policy f with
            | Mode.Fatal => (inl FrameError.Oversize, f)
            | Mode.DrainToNextLine => (inl FrameError.OversizeSkipped, with_buf (drop (S idx) (buf f)) 0 (draining f) f)
            end
          else (inr (Some (strip_cr (take idx (buf f)))), with_buf (drop (S idx) (buf f)) 0 (draining f) f)
      end
  end.

Definition LENGTH_PREFIX_BYTES : nat := 4.

Definition next_length_prefixed (read_len : bytes -> Z) (f : Framer) : (FrameError.FrameError + option bytes) * Framer :=
  if (length (buf f) <? LENGTH_PREFIX_BYTES)%nat then (inr None, f)
  else
    let payload_len := read_len (take LENGTH_PREFIX_BYTES (buf f)) in
    if max_frame_bytes f <? payload_len then (inl FrameError.Oversize, f)
    else if blen (buf f) <? Z.of_nat LENGTH_PREFIX_BYTES + payload_len then (inr None, f)
    else
      let rest := drop LENGTH_PREFIX_BYTES (buf f) in
      (inr (Some (take (Z.to_nat payload_len) rest)), with_buf (drop (Z.to_nat payload_len) rest) 0 (draining f) f).

Definition MAX_COUNT_DIGITS : nat := 9.

(** How far an octet count goes: bytes missing, not a count, or its digits. *)
Inductive Count := Incomplete | NotACount | Digits (n : nat).

Fixpoint count_digits (bs : bytes) (digits : nat) : Count :=
  match bs with
  | [] => Incomplete
  | b :: bs =>
      if is_ascii_digit b then if (digits =? MAX_COUNT_DIGITS)%nat then NotACount else count_digits bs (S digits)
      else if b2z b =? 32 then Digits digits else NotACount
  end.

Definition next_octet_counted (f : Framer) : (FrameError.FrameError + option bytes) * Framer :=
  match count_digits (buf f) 0 with
  | Incomplete => (inr None, f)
  | NotACount => (inl FrameError.Malformed, f)
  | Digits digits =>
      if (digits =? 0)%nat || match buf f with b :: _ => b2z b =? 48 | [] => false end then (inl FrameError.Malformed, f)
      else
        let len := decimal (take digits (buf f)) in
        if max_frame_bytes f <? len then (inl FrameError.Oversize, f)
        else if blen (buf f) <? Z.of_nat (digits + 1) + len then (inr None, f)
        else
          let rest := drop (digits + 1) (buf f) in
          (inr (Some (take (Z.to_nat len) rest)), with_buf (drop (Z.to_nat len) rest) 0 (draining f) f)
  end.

(** The loop of [next_frame] skips empty lines; each turn takes a byte, so their number is fuel
    enough ([next_frame_loop_answers]). *)
Fixpoint next_frame_loop (fuel : nat) (f : Framer) : option ((FrameError.FrameError + option bytes) * Framer) :=
  match fuel with
  | O => None
  | S fuel =>
      match framing f with
      | None => Some (inr None, f)
      | Some Framing.OctetCounting => Some (next_octet_counted f)
      | Some Framing.LengthPrefixed => Some (next_length_prefixed from_be_bytes f)
      | Some Framing.LengthPrefixedLe => Some (next_length_prefixed from_le_bytes f)
      | Some Framing.NonTransparent =>
          match next_line f with
          | (inr (Some []), f) => next_frame_loop fuel f
          | other => Some other
          end
      end
  end.

Definition next_frame (f : Framer) : (FrameError.FrameError + option bytes) * Framer :=
  default (inr None, f) (next_frame_loop (S (length (buf f))) f).

(** A connection's end, after a FIN. *)
Definition finish (f : Framer) : (FrameError.FrameError + option bytes) * Framer :=
  let cleared := with_buf [] 0 (draining f) f in
  match buf f, framing f with
  | [], _ | _, None => (inr None, f)
  | _, Some Framing.OctetCounting | _, Some Framing.LengthPrefixed | _, Some Framing.LengthPrefixedLe =>
      (inl FrameError.Truncated, cleared)
  | _, Some Framing.NonTransparent =>
      if draining f then (inr None, cleared)
      else if max_frame_bytes f <? blen (buf f) then
        (inl match oversize_policy f with Mode.Fatal => FrameError.Oversize | Mode.DrainToNextLine => FrameError.OversizeSkipped end,
         cleared)
      else if remainder_is_blank f then (inr None, cleared)
      else
        match mode f with
        | Mode.Lines _ => (inl FrameError.Truncated, cleared)
        | _ => (inr (Some (strip_cr (buf f))), cleared)
        end
  end.

(** A connection's end, without one. *)
Definition abandon (f : Framer) : option FrameError.FrameError * Framer :=
  let lost := negb (bool_decide (buf f = [])) && negb (draining f) && negb (remainder_is_blank f) in
  (if lost then Some FrameError.Truncated else None, with_buf [] 0 (draining f) f).

(** The listener's loop over what a read completed ([serve_connection] of
    crates/logit-inputs/src/tcp.rs): frames and errors in order, and whether the connection closes. *)
Fixpoint read_frames (fuel : nat) (f : Framer) : list (FrameError.FrameError + bytes) * bool * Framer :=
  match fuel with
  | O => ([], false, f)
  | S fuel =>
      match next_frame f with
      | (inr None, f) => ([], false, f)
      | (inr (Some frame), f) => let '(events, closed, f) := read_frames fuel f in (inr frame :: events, closed, f)
      | (inl e, f) =>
          if is_fatal e then ([inl e], true, f)
          else let '(events, closed, f) := read_frames fuel f in (inl e :: events, closed, f)
      end
  end.

(** One read: its bytes are pushed and every frame they complete is taken. *)
Definition feed (bs : bytes) (f : Framer) : list (FrameError.FrameError + bytes) * bool * Framer :=
  let f := push bs f in read_frames (S (length (buf f))) f.

(** The reads of a connection, up to a fatal error. *)
Fixpoint feed_all (reads : list bytes) (f : Framer) : list (FrameError.FrameError + bytes) * bool * Framer :=
  match reads with
  | [] => ([], false, f)
  | bs :: reads =>
      match feed bs f with
      | (events, true, f) => (events, true, f)
      | (events, false, f) => let '(more, closed, f) := feed_all reads f in (events ++ more, closed, f)
      end
  end.

(** An event up to when a skipped line was noticed: at its [LF], or before it had arrived. *)
Definition outcome (e : FrameError.FrameError + bytes) : FrameError.FrameError + bytes :=
  match e with inl FrameError.Drained => inl FrameError.OversizeSkipped | e => e end.

(** ** A reference: reading a whole stream *)

Lemma position_lf_app bs c :
  position_lf (bs ++ c) =
  match position_lf bs with Some i => Some i | None => Nat.add (length bs) <$> position_lf c end.
Proof.
  induction bs as [|b bs IH]; simpl; [by destruct (position_lf c)|]. destruct (bool_decide (b = LF)); [done|].
  rewrite IH. destruct (position_lf bs); [done|]. by destruct (position_lf c).
Qed.

Lemma position_lf_lt bs i : position_lf bs = Some i -> (i < length bs)%nat.
Proof.
  revert i. induction bs as [|b bs IH]; intros i; simpl; [done|]. destruct (bool_decide (b = LF)); [intros [= <-]; lia|].
  destruct (position_lf bs) as [j|]; [|done]. intros [= <-]. specialize (IH j eq_refl). lia.
Qed.

(** Searching past what was searched already finds the same. *)
Lemma position_lf_scanned bs n :
  position_lf (take n bs) = None -> (n <= length bs)%nat -> position_lf bs = Nat.add n <$> position_lf (drop n bs).
Proof.
  intros Hn Hl. rewrite <- (take_drop n bs) at 1. rewrite position_lf_app, Hn, length_take_le by done. done.
Qed.

Section Reference.
Context (m : Mode.FramingMode) (max : Z).

Definition policy : Mode.Oversize := match m with Mode.Lines oversize => oversize | _ => Mode.Fatal end.

(** One thing a framing makes of the bytes not taken yet: it waits for more, takes some and says what
    it made of them, or stops. *)
Inductive Turn :=
| Wait (draining : bool) (bs : bytes)
| Go (out : list (FrameError.FrameError + bytes)) (draining : bool) (bs : bytes)
| Stop (e : FrameError.FrameError).

Definition line_out (line : bytes) : list (FrameError.FrameError + bytes) :=
  match strip_cr line with [] => [] | b :: bs => [inr (b :: bs)] end.

Definition line_turn (d : bool) (bs : bytes) : Turn :=
  match position_lf bs with
  | None =>
      if d then Wait true []
      else if max <? blen bs then match policy with Mode.Fatal => Stop FrameError.Oversize | Mode.DrainToNextLine => Go [inl FrameError.OversizeSkipped] true [] end
      else Wait false bs
  | Some i =>
      if d then Go [] false (drop (S i) bs)
      else if max <? Z.of_nat i then
        match policy with Mode.Fatal => Stop FrameError.Oversize | Mode.DrainToNextLine => Go [inl FrameError.OversizeSkipped] false (drop (S i) bs) end
      else Go (line_out (take i bs)) false (drop (S i) bs)
  end.

Definition prefix_turn (read_len : bytes -> Z) (d : bool) (bs : bytes) : Turn :=
  if (length bs <? LENGTH_PREFIX_BYTES)%nat then Wait d bs
  else
    let n := read_len (take LENGTH_PREFIX_BYTES bs) in
    if max <? n then Stop FrameError.Oversize
    else if blen bs <? Z.of_nat LENGTH_PREFIX_BYTES + n then Wait d bs
    else let rest := drop LENGTH_PREFIX_BYTES bs in Go [inr (take (Z.to_nat n) rest)] d (drop (Z.to_nat n) rest).

Definition octet_turn (d : bool) (bs : bytes) : Turn :=
  match count_digits bs 0 with
  | Incomplete => Wait d bs
  | NotACount => Stop FrameError.Malformed
  | Digits digits =>
      if (digits =? 0)%nat || match bs with b :: _ => b2z b =? 48 | [] => false end then Stop FrameError.Malformed
      else
        let n := decimal (take digits bs) in
        if max <? n then Stop FrameError.Oversize
        else if blen bs <? Z.of_nat (digits + 1) + n then Wait d bs
        else let rest := drop (digits + 1) bs in Go [inr (take (Z.to_nat n) rest)] d (drop (Z.to_nat n) rest)
  end.

Definition turn (fr : Framing.Framing) : bool -> bytes -> Turn :=
  match fr with
  | Framing.NonTransparent => line_turn
  | Framing.OctetCounting => octet_turn
  | Framing.LengthPrefixed => prefix_turn from_be_bytes
  | Framing.LengthPrefixedLe => prefix_turn from_le_bytes
  end.

(** All of it: what came out, and the state it waits in, [None] when it stopped. *)
Fixpoint reads (fuel : nat) (fr : Framing.Framing) (d : bool) (bs : bytes) : list (FrameError.FrameError + bytes) * option (bool * bytes) :=
  match fuel with
  | O => ([], Some (d, bs))
  | S fuel =>
      match turn fr d bs with
      | Wait d bs => ([], Some (d, bs))
      | Go out d bs => let '(more, e) := reads fuel fr d bs in (out ++ more, e)
      | Stop e => ([inl e], None)
      end
  end.

Lemma count_digits_bound bs : forall n k, count_digits bs n = Digits k -> (n <= k < n + length bs)%nat.
Proof.
  induction bs as [|b bs IH]; intros n k; simpl; [done|]. repeat case_match; try done; [|intros [= <-]; lia].
  intros H'. apply IH in H'. lia.
Qed.

Lemma prefix_turn_shrinks read_len d bs out d' bs' : prefix_turn read_len d bs = Go out d' bs' -> (length bs' < length bs)%nat.
Proof.
  unfold prefix_turn. destruct (Nat.ltb_spec (length bs) LENGTH_PREFIX_BYTES); [done|]. repeat case_match; try done.
  intros [= <- <- <-]. rewrite !length_drop. unfold LENGTH_PREFIX_BYTES in *. lia.
Qed.

(** A turn that goes on takes a byte at least. *)
Lemma turn_shrinks fr d bs out d' bs' :
  0 <= max -> turn fr d bs = Go out d' bs' -> (length bs' < length bs)%nat.
Proof.
  intros Hmax. destruct fr; cbn [turn].
  - unfold octet_turn. destruct (count_digits bs 0) as [| |n] eqn:Hn; try done. apply count_digits_bound in Hn.
    destruct ((n =? 0)%nat || _); [done|]. repeat case_match; try done. intros [= <- <- <-]. rewrite !length_drop. lia.
  - unfold line_turn. destruct (position_lf bs) as [i|] eqn:Hi; [apply position_lf_lt in Hi|]; repeat case_match; try done;
      intros [= <- <- <-]; rewrite ?length_drop; unfold blen in *; simpl; lia.
  - by apply prefix_turn_shrinks.
  - by apply prefix_turn_shrinks.
Qed.

(** Fuel beyond the length changes nothing. *)
Lemma reads_fuel fr : 0 <= max -> forall n fuel d bs,
  (length bs <= n)%nat -> (n < fuel)%nat -> reads fuel fr d bs = reads (S (length bs)) fr d bs.
Proof.
  intros Hmax. induction n as [n IH] using lt_wf_ind. intros [|fuel] d bs Hl Hf; [lia|]. cbn [reads].
  destruct (turn fr d bs) as [| out d' bs' |] eqn:Ht; try done. apply turn_shrinks in Ht; [|done].
  assert (reads fuel fr d' bs' = reads (length bs) fr d' bs') as ->; [|done].
  rewrite (IH (length bs') ltac:(lia) fuel), (IH (length bs') ltac:(lia) (length bs)) by lia. done.
Qed.

(** ** More bytes *)

Lemma count_digits_app bs c : forall n, count_digits bs n <> Incomplete -> count_digits (bs ++ c) n = count_digits bs n.
Proof. induction bs as [|b bs IH]; intros n; simpl; [done|]. repeat case_match; try done. apply IH. Qed.

(** What a framing makes of bytes, and the state it is left waiting in. *)
Definition read_all (fr : Framing.Framing) (d : bool) (bs : bytes) : list (FrameError.FrameError + bytes) * option (bool * bytes) :=
  reads (S (length bs)) fr d bs.

Definition after (out : list (FrameError.FrameError + bytes)) (r : list (FrameError.FrameError + bytes) * option (bool * bytes)) :=
  (out ++ r.1, r.2).

Context (Hmax : 0 <= max).

Lemma read_all_eq fr d bs :
  read_all fr d bs =
  match turn fr d bs with
  | Wait d bs => ([], Some (d, bs))
  | Go out d bs => after out (read_all fr d bs)
  | Stop e => ([inl e], None)
  end.
Proof using Hmax.
  unfold read_all at 1. cbn [reads]. destruct (turn fr d bs) as [| out d' bs' |] eqn:Ht; try done.
  apply turn_shrinks in Ht; [|done]. rewrite (reads_fuel fr Hmax (length bs')) by lia.
  unfold read_all, after. by destruct (reads _ fr d' bs').
Qed.

Lemma after_after a b r : after a (after b r) = after (a ++ b) r.
Proof using Type. unfold after. cbn [fst snd]. by rewrite app_assoc. Qed.

Lemma after_nil r : after [] r = r.
Proof using Type. by destruct r. Qed.

(** A framing that waits keeps its bytes, unless it is discarding them. *)
Lemma turn_wait_keeps fr d bs d' bs' :
  turn fr d bs = Wait d' bs' ->
  (d' = d /\ bs' = bs) \/ (fr = Framing.NonTransparent /\ d = true /\ d' = true /\ bs' = [] /\ position_lf bs = None).
Proof using Type.
  destruct fr; cbn [turn]; unfold octet_turn, line_turn, prefix_turn;
    [| |repeat case_match; try done; intros [= <- <-]; by left..].
  - destruct (count_digits bs 0) as [| |n]; [intros [= <- <-]; by left|done|].
    destruct ((n =? 0)%nat || _); [done|]. repeat case_match; try done; intros [= <- <-]; by left.
  - destruct (position_lf bs) as [i|] eqn:Hi; [repeat case_match; done|].
    destruct d; [intros [= <- <-]; by right|]. repeat case_match; try done; intros [= <- <-]; by left.
Qed.

(** Bytes that arrive while a framing waits are read as if they had been there. *)
Lemma turn_wait fr d bs c d' bs' : turn fr d bs = Wait d' bs' -> turn fr d (bs ++ c) = turn fr d' (bs' ++ c).
Proof using Type.
  intros [[-> ->]|(-> & -> & -> & -> & Hi)]%turn_wait_keeps; [done|]. cbn [turn app]. unfold line_turn.
  rewrite position_lf_app, Hi. destruct (position_lf c) as [i|]; [|done]. cbn [fmap option_fmap option_map].
  rewrite drop_app_ge by lia. repeat f_equal. lia.
Qed.

(** An unfinished line over the bound, dropped before its end had arrived. *)
Definition early (fr : Framing.Framing) (d : bool) (bs : bytes) : Prop :=
  fr = Framing.NonTransparent /\ d = false /\ position_lf bs = None /\ max < blen bs /\ policy = Mode.DrainToNextLine.

Lemma prefix_turn_go read_len d bs c out d' bs' :
  prefix_turn read_len d bs = Go out d' bs' -> prefix_turn read_len d (bs ++ c) = Go out d' (bs' ++ c).
Proof using Type.
  unfold prefix_turn. destruct (Nat.ltb_spec (length bs) LENGTH_PREFIX_BYTES) as [|Hl]; [done|].
  rewrite take_app_le by done. destruct (max <? _); [done|]. rewrite drop_app_le by done.
  destruct (Z.ltb_spec (blen bs) (Z.of_nat LENGTH_PREFIX_BYTES + read_len (take LENGTH_PREFIX_BYTES bs))) as [|Hn]; [done|].
  intros [= <- <- <-]. destruct (Nat.ltb_spec (length (bs ++ c)) LENGTH_PREFIX_BYTES) as [Hc|_];
    [rewrite length_app in Hc; lia|].
  unfold blen in *. destruct (Z.ltb_spec (Z.of_nat (length (bs ++ c)))
    (Z.of_nat LENGTH_PREFIX_BYTES + read_len (take LENGTH_PREFIX_BYTES bs))) as [Hc|_]; [rewrite length_app in Hc; lia|].
  rewrite take_app_le, drop_app_le by (rewrite length_drop; lia). done.
Qed.

Lemma prefix_turn_stop read_len d bs c e : prefix_turn read_len d bs = Stop e -> prefix_turn read_len d (bs ++ c) = Stop e.
Proof using Type.
  unfold prefix_turn. destruct (Nat.ltb_spec (length bs) LENGTH_PREFIX_BYTES) as [|Hl]; [done|].
  rewrite take_app_le by done. destruct (max <? _); [|case_match; done].
  destruct (Nat.ltb_spec (length (bs ++ c)) LENGTH_PREFIX_BYTES) as [Hc|_]; [rewrite length_app in Hc; lia|done].
Qed.

(** Once an octet count is complete, what follows the bytes does not change what it says. *)
Lemma octet_turn_app d bs c :
  match octet_turn d bs with
  | Wait _ _ => True
  | Go out d' bs' => octet_turn d (bs ++ c) = Go out d' (bs' ++ c)
  | Stop e => octet_turn d (bs ++ c) = Stop e
  end.
Proof using Type.
  unfold octet_turn. destruct (count_digits bs 0) as [| |n] eqn:Hn; [done|by rewrite count_digits_app, Hn by congruence|].
  rewrite count_digits_app, Hn by congruence. apply count_digits_bound in Hn as [_ Hn]. cbn [Nat.add] in Hn.
  destruct bs as [|b bs]; [cbn in Hn; lia|]. cbn [app]. rewrite (app_comm_cons bs c b).
  destruct ((n =? 0)%nat || (b2z b =? 48)); [done|]. rewrite take_app_le by lia. destruct (max <? _); [done|].
  destruct (Z.ltb_spec (blen (b :: bs)) (Z.of_nat (n + 1) + decimal (take n (b :: bs)))) as [|Hl]; [done|].
  rewrite blen_app. pose proof (blen_nonneg c). destruct (Z.ltb_spec (blen (b :: bs) + blen c)
    (Z.of_nat (n + 1) + decimal (take n (b :: bs)))) as [Hc|_]; [lia|].
  unfold blen in Hl. rewrite drop_app_le, take_app_le, drop_app_le by (rewrite ?length_drop; lia). done.
Qed.

Lemma turn_go fr d bs c out d' bs' :
  turn fr d bs = Go out d' bs' -> turn fr d (bs ++ c) = Go out d' (bs' ++ c) \/ early fr d bs.
Proof using Type.
  destruct fr; cbn [turn]; [| |intros H; left; by apply prefix_turn_go..].
  - intros H. left. pose proof (octet_turn_app d bs c) as Ha. by rewrite H in Ha.
  - unfold line_turn. rewrite position_lf_app. destruct (position_lf bs) as [i|] eqn:Hi.
    + apply position_lf_lt in Hi. rewrite take_app_le, drop_app_le by lia.
      intros H. left. repeat case_match; try done; by injection H as <- <- <-.
    + destruct d; [done|]. destruct (Z.ltb_spec max (blen bs)); [|done]. destruct policy eqn:Hp; [done|]. intros _. by right.
Qed.

Lemma turn_stop fr d bs c e : turn fr d bs = Stop e -> turn fr d (bs ++ c) = Stop e.
Proof using Type.
  destruct fr; cbn [turn].
  - intros H. pose proof (octet_turn_app d bs c) as Ha. by rewrite H in Ha.
  - unfold line_turn. rewrite position_lf_app. destruct (position_lf bs) as [i|] eqn:Hi; [repeat case_match; done|].
    destruct d; [done|]. destruct (Z.ltb_spec max (blen bs)) as [Hb|]; [|done]. destruct policy; [|done].
    intros <-. rewrite blen_app. pose proof (blen_nonneg c). unfold blen in *.
    destruct (position_lf c); cbn [fmap option_fmap option_map];
      (destruct (max <? _) eqn:Hc; [done|apply Z.ltb_ge in Hc; lia]).
  - apply prefix_turn_stop.
  - apply prefix_turn_stop.
Qed.

(** What an unfinished line over the bound does with more bytes. *)
Lemma early_app fr d bs c :
  early fr d bs -> read_all fr d (bs ++ c) = after [inl FrameError.OversizeSkipped] (read_all fr true c).
Proof using Hmax.
  intros (-> & -> & Hi & Hb & Hp). rewrite read_all_eq, (read_all_eq _ true c). cbn [turn]. unfold line_turn.
  rewrite position_lf_app, Hi, Hp. pose proof (blen_nonneg c). unfold blen in *. destruct (position_lf c) as [i|];
    cbn [fmap option_fmap option_map]; rewrite ?length_app; (destruct (max <? _) eqn:Hc; [|apply Z.ltb_ge in Hc; lia]).
  - rewrite after_nil, drop_app_ge by lia. repeat f_equal. lia.
  - rewrite read_all_eq. done.
Qed.

(** Reading is incremental: bytes read in two parts are read as if they had come together. *)
Lemma read_all_app fr d bs c :
  read_all fr d (bs ++ c) =
  match read_all fr d bs with
  | (out, Some (d', bs')) => after out (read_all fr d' (bs' ++ c))
  | (out, None) => (out, None)
  end.
Proof using Hmax.
  remember (length bs) as n eqn:Hn. revert d bs Hn. induction n as [n IH] using lt_wf_ind. intros d bs ->.
  rewrite (read_all_eq fr d bs). destruct (turn fr d bs) as [d' bs'|out d' bs'|e] eqn:Ht.
  - rewrite after_nil, read_all_eq, (turn_wait _ _ _ c _ _ Ht). by rewrite <- read_all_eq.
  - pose proof (turn_shrinks _ _ _ _ _ _ Hmax Ht) as Hl. destruct (turn_go _ _ _ c _ _ _ Ht) as [Hc|He].
    + rewrite read_all_eq, Hc, (IH _ Hl d' bs' eq_refl). destruct (read_all fr d' bs') as [o [[d1 b1]|]]; [|done].
      cbn [after fst snd]. by rewrite after_after.
    + rewrite (early_app _ _ _ c He). destruct He as (-> & -> & Hi & Hb & Hp). cbn [turn] in Ht. unfold line_turn in Ht.
      rewrite Hi, Hp in Ht. destruct (Z.ltb_spec max (blen bs)); [|lia]. injection Ht as <- <- <-.
      rewrite (read_all_eq _ true []). done.
  - by rewrite read_all_eq, (turn_stop _ _ _ c _ Ht).
Qed.
End Reference.

(** ** The framer reads what the reference reads *)

(** The bytes searched already hold no [LF], only lines are drained or searched, and nothing is held
    before the framing is known. *)
Record framer_ok (f : Framer) : Prop := mkFramerOk {
  ok_max : 0 <= max_frame_bytes f;
  ok_scanned : (scanned f <= length (buf f))%nat;
  ok_searched : position_lf (take (scanned f) (buf f)) = None;
  ok_draining : draining f = true -> framing f = Some Framing.NonTransparent;
  ok_unsearched : framing f <> Some Framing.NonTransparent -> scanned f = 0%nat;
  ok_unknown : framing f = None -> buf f = [] /\ mode f = Mode.Rfc6587Auto
}.

(** What [fr] makes of the bytes a framer holds. *)
Definition held (fr : Framing.Framing) (f : Framer) : list (FrameError.FrameError + bytes) * option (bool * bytes) :=
  read_all (mode f) (max_frame_bytes f) fr (draining f) (buf f).

Definition same_config (f g : Framer) : Prop := exists bs n d, g = with_buf bs n d f.

Definition shorter (g f : Framer) : Prop := (length (buf g) < length (buf f))%nat.

Lemma same_config_refl f : same_config f f.
Proof. exists (buf f), (scanned f), (draining f). by destruct f. Qed.

Lemma same_config_trans f g h : same_config f g -> same_config g h -> same_config f h.
Proof. intros (? & ? & ? & ->) (bs & n & d & ->). by exists bs, n, d. Qed.

Lemma framer_ok_dropped bs d f :
  framer_ok f -> framing f = Some Framing.NonTransparent \/ (d = draining f /\ framing f <> None) -> framer_ok (with_buf bs 0 d f).
Proof.
  intros [Hm _ _ Hd _ _] Hf. split; cbn [with_buf max_frame_bytes scanned buf draining framing mode]; try done; [lia| |].
  - intros ->. destruct Hf as [|[Hd' _]]; [done|by apply Hd].
  - intros Hn. rewrite Hn in Hf. destruct Hf as [|[_ []]]; done.
Qed.

Lemma finish_drain_held f :
  framer_ok f -> framing f = Some Framing.NonTransparent ->
  match finish_drain f with
  | None => draining f = true /\ position_lf (buf f) = None
  | Some g =>
      same_config f g /\ framer_ok g /\ draining g = false /\
      held Framing.NonTransparent f = held Framing.NonTransparent g /\ (length (buf g) <= length (buf f))%nat
  end.
Proof.
  intros Hok Hf. unfold finish_drain. destruct (draining f) eqn:Hd; [|by eauto using same_config_refl].
  destruct (position_lf (buf f)) as [i|] eqn:Hi; [|done].
  split; [by eexists _, _, _|split; [by apply framer_ok_dropped; eauto|split; [done|split]]].
  - unfold held at 1. rewrite (read_all_eq _ _ (ok_max _ Hok)). cbn [turn]. unfold line_turn. by rewrite Hi, Hd, after_nil.
  - cbn [with_buf buf]. rewrite length_drop. lia.
Qed.

(** Nothing more can be taken until more bytes arrive. *)
Definition at_rest (fr : Framing.Framing) (f : Framer) : Prop :=
  turn (mode f) (max_frame_bytes f) fr (draining f) (buf f) = Wait (draining f) (buf f) /\
  (fr = Framing.NonTransparent -> scanned f = length (buf f)).

(** What one answer says of the bytes held before it; [frames] is what a frame taken amounts to. *)
Definition accounts (fr : Framing.Framing) (frames : bytes -> list (FrameError.FrameError + bytes)) (f : Framer)
  (r : FrameError.FrameError + option bytes) (g : Framer) : Prop :=
  match r with
  | inr None => held fr f = ([], Some (draining g, buf g)) /\ at_rest fr g
  | inr (Some frame) => held fr f = after (frames frame) (held fr g) /\ shorter g f
  | inl e =>
      if is_fatal e then held fr f = ([inl e], None)
      else held fr f = after [outcome (inl e)] (held fr g) /\ shorter g f
  end.

Definition answers (fr : Framing.Framing) (frames : bytes -> list (FrameError.FrameError + bytes)) (f : Framer)
  (answer : (FrameError.FrameError + option bytes) * Framer) : Prop :=
  same_config f answer.2 /\ framer_ok answer.2 /\ accounts fr frames f answer.1 answer.2.

Definition one_frame (frame : bytes) : list (FrameError.FrameError + bytes) := [inr frame].
Definition one_line (line : bytes) : list (FrameError.FrameError + bytes) := match line with [] => [] | _ => [inr line] end.

Lemma line_out_one_line line : line_out line = one_line (strip_cr line).
Proof. unfold line_out. by destruct (strip_cr line). Qed.

Lemma framer_ok_searched f :
  framer_ok f -> framing f = Some Framing.NonTransparent -> position_lf (buf f) = None ->
  framer_ok (with_buf (buf f) (length (buf f)) (draining f) f).
Proof.
  intros [Hm _ _ Hd _ Hu] Hf Hn. split; cbn [with_buf max_frame_bytes scanned buf draining framing mode]; try done.
  by rewrite take_ge.
Qed.

(** A line framer not draining. *)
Lemma next_line_answers f :
  framer_ok f -> framing f = Some Framing.NonTransparent -> draining f = false ->
  answers Framing.NonTransparent one_line f (next_line f).
Proof.
  intros Hok Hf Hd. unfold next_line, finish_drain. rewrite Hd.
  assert (Hh : held Framing.NonTransparent f = _) by (unfold held; rewrite (read_all_eq _ _ (ok_max _ Hok)); reflexivity).
  cbn [turn] in Hh. unfold line_turn in Hh. rewrite Hd in Hh.
  rewrite (position_lf_scanned _ _ (ok_searched _ Hok) (ok_scanned _ Hok)) in Hh.
  change (policy (mode f)) with (oversize_policy f) in Hh.
  destruct (position_lf (drop (scanned f) (buf f))) as [i|] eqn:Hi; cbn [fmap option_fmap option_map] in Hh.
  - apply position_lf_lt in Hi. rewrite length_drop in Hi.
    assert (Hs : forall d, shorter (with_buf (drop (S (scanned f + i)) (buf f)) 0 d f) f)
      by (intros d; unfold shorter; cbn [with_buf buf]; rewrite length_drop; lia).
    destruct (max_frame_bytes f <? Z.of_nat (scanned f + i)); [destruct (oversize_policy f)|];
      (split; [cbn [snd]; first [apply same_config_refl|by eexists _, _, _]|split]); cbn [snd fst]; try done;
      [by apply framer_ok_dropped; eauto| |by apply framer_ok_dropped; eauto|]; split; try done;
      rewrite Hh, ?line_out_one_line; unfold held; cbn [with_buf mode max_frame_bytes draining buf]; by rewrite Hd.
  - assert (Hn : position_lf (buf f) = None)
      by (by rewrite (position_lf_scanned _ _ (ok_searched _ Hok) (ok_scanned _ Hok)), Hi).
    destruct (max_frame_bytes f <? blen (buf f)) eqn:Hb; [destruct (oversize_policy f) eqn:Hp|];
      (split; [by eexists _, _, _|split]); cbn [snd fst].
    + by apply framer_ok_searched.
    + done.
    + by apply framer_ok_dropped; eauto.
    + split; [done|]. apply Z.ltb_lt in Hb. pose proof (ok_max _ Hok). unfold blen in Hb. unfold shorter.
      cbn [with_buf buf length]. lia.
    + by apply framer_ok_searched.
    + split; [by cbn [with_buf buf draining]; rewrite Hd|]. split; [|done].
      cbn [with_buf mode max_frame_bytes draining buf turn]. unfold line_turn. by rewrite Hn, Hd, Hb.
Qed.

Lemma next_line_drained f :
  framer_ok f -> framing f = Some Framing.NonTransparent -> draining f = true -> position_lf (buf f) = None ->
  answers Framing.NonTransparent one_line f (inr None, with_buf [] 0 true f).
Proof.
  intros Hok Hf Hd Hn. split; [by eexists _, _, _|split; [by apply framer_ok_dropped; eauto|]]. cbn [snd fst].
  split; [|done]. unfold held. rewrite (read_all_eq _ _ (ok_max _ Hok)). cbn [turn]. unfold line_turn. by rewrite Hn, Hd.
Qed.

Lemma answers_from fr frames f g r h :
  same_config f g -> held fr f = held fr g -> (length (buf g) <= length (buf f))%nat ->
  answers fr frames g (r, h) -> answers fr frames f (r, h).
Proof.
  intros Hc Hh Hl (Hc' & Hok & Ha). split; [by eapply same_config_trans|split; [done|]]. cbn [fst snd] in *.
  revert Ha. unfold accounts, shorter. rewrite Hh. destruct r as [e|[frame|]]; [destruct (is_fatal e)|..]; try done;
    intros [? ?]; (split; [done|lia]).
Qed.

Lemma next_line_any f :
  framer_ok f -> framing f = Some Framing.NonTransparent -> answers Framing.NonTransparent one_line f (next_line f).
Proof.
  intros Hok Hf. pose proof (finish_drain_held f Hok Hf) as Hd. unfold next_line at 1.
  destruct (finish_drain f) as [g|] eqn:Hg; [|destruct Hd; by apply next_line_drained].
  destruct Hd as (Hc & Hokg & Hdg & Hh & Hl).
  assert (Hfg : framing g = Some Framing.NonTransparent) by (destruct Hc as (? & ? & ? & ->); done).
  pose proof (next_line_answers g Hokg Hfg Hdg) as Ha. unfold next_line, finish_drain in Ha. rewrite Hdg in Ha.
  destruct (match position_lf (drop (scanned g) (buf g)) with Some _ => _ | None => _ end) as [r h].
  by eapply answers_from.
Qed.

(** The two framings by length share their last two answers. *)
Lemma counted_answers fr (frame rest : bytes) f :
  framer_ok f -> framing f = Some fr -> fr <> Framing.NonTransparent ->
  turn (mode f) (max_frame_bytes f) fr (draining f) (buf f) = Go [inr frame] (draining f) rest ->
  answers fr one_frame f (inr (Some frame), with_buf rest 0 (draining f) f).
Proof.
  intros Hok Hf Hn Ht. split; [by eexists _, _, _|split]; cbn [fst snd].
  - apply framer_ok_dropped; [done|right; split; [done|congruence]].
  - split; [unfold held at 1; by rewrite (read_all_eq _ _ (ok_max _ Hok)), Ht|].
    by apply turn_shrinks in Ht; [|apply Hok].
Qed.

Lemma counted_waits fr f :
  framer_ok f -> fr <> Framing.NonTransparent ->
  turn (mode f) (max_frame_bytes f) fr (draining f) (buf f) = Wait (draining f) (buf f) ->
  answers fr one_frame f (inr None, f).
Proof.
  intros Hok Hn Ht. split; [apply same_config_refl|split; [done|]]. cbn [fst snd].
  split; [unfold held; by rewrite (read_all_eq _ _ (ok_max _ Hok)), Ht|]. split; [done|congruence].
Qed.

Lemma counted_stops fr e f :
  framer_ok f -> turn (mode f) (max_frame_bytes f) fr (draining f) (buf f) = Stop e -> is_fatal e = true ->
  answers fr one_frame f (inl e, f).
Proof.
  intros Hok Ht He. split; [apply same_config_refl|split; [done|]]. cbn [fst snd]. unfold accounts. rewrite He.
  unfold held. by rewrite (read_all_eq _ _ (ok_max _ Hok)), Ht.
Qed.

Lemma next_octet_counted_answers f :
  framer_ok f -> framing f = Some Framing.OctetCounting ->
  answers Framing.OctetCounting one_frame f (next_octet_counted f).
Proof.
  intros Hok Hf. destruct (turn (mode f) (max_frame_bytes f) Framing.OctetCounting (draining f) (buf f)) eqn:Ht;
    pose proof Ht as Ht'; cbn [turn] in Ht'; unfold octet_turn in Ht'; unfold next_octet_counted; revert Ht';
    destruct (count_digits (buf f) 0); try done;
    try (destruct (_ || _); [try done|destruct (_ <? _); [try done|destruct (_ <? _); try done]]);
    intros [=]; subst; eauto using counted_answers, counted_waits, counted_stops.
Qed.

Lemma next_length_prefixed_answers fr read_len f :
  (forall d bs, turn (mode f) (max_frame_bytes f) fr d bs = prefix_turn (max_frame_bytes f) read_len d bs) ->
  fr <> Framing.NonTransparent -> framer_ok f -> framing f = Some fr ->
  answers fr one_frame f (next_length_prefixed read_len f).
Proof.
  intros Hr Hn Hok Hf. destruct (turn (mode f) (max_frame_bytes f) fr (draining f) (buf f)) eqn:Ht;
    pose proof Ht as Ht'; rewrite Hr in Ht'; unfold prefix_turn in Ht'; unfold next_length_prefixed; revert Ht';
    (destruct (_ <? _)%nat; [|destruct (_ <? _); [|destruct (_ <? _)]]); try done;
    intros [=]; subst; eauto using counted_answers, counted_waits, counted_stops.
Qed.

(** [next_frame] returns, and its answer accounts for what it took. *)
Lemma next_frame_loop_answers fr fuel f :
  framer_ok f -> framing f = Some fr -> (length (buf f) < fuel)%nat ->
  exists answer, next_frame_loop fuel f = Some answer /\ answers fr one_frame f answer.
Proof.
  revert f. induction fuel as [|fuel IH]; intros f Hok Hf Hl; [lia|]. cbn [next_frame_loop]. rewrite Hf. destruct fr.
  - eexists. split; [done|]. by apply next_octet_counted_answers.
  - pose proof (next_line_any f Hok Hf) as Ha. destruct (next_line f) as [[e|[[|b line]|]] g]; [by eexists| |by eexists..].
    destruct Ha as (Hc & Hokg & Ha). cbn [fst snd accounts one_line] in *. rewrite after_nil in Ha. destruct Ha as [Hh Hs].
    unfold shorter in Hs. destruct (IH g Hokg ltac:(by destruct Hc as (? & ? & ? & ->)) ltac:(lia)) as ([r h] & Hr & Hans).
    exists (r, h). split; [done|]. apply (answers_from _ _ f g); [done..|lia|done].
  - eexists. split; [done|]. by apply next_length_prefixed_answers.
  - eexists. split; [done|]. by apply next_length_prefixed_answers.
Qed.

Lemma next_frame_answers fr f : framer_ok f -> framing f = Some fr -> answers fr one_frame f (next_frame f).
Proof.
  intros Hok Hf. destruct (next_frame_loop_answers fr (S (length (buf f))) f Hok Hf) as (answer & Hn & Ha); [lia|].
  unfold next_frame. by rewrite Hn.
Qed.

(** A listener that takes frames until there are none reads what the reference reads. *)
Lemma read_frames_held fr fuel f :
  framer_ok f -> framing f = Some fr -> (length (buf f) < fuel)%nat ->
  let '(events, closed, g) := read_frames fuel f in
  same_config f g /\ framer_ok g /\ (closed = false -> at_rest fr g) /\
  held fr f = (outcome <$> events, if closed then None else Some (draining g, buf g)).
Proof.
  revert f. induction fuel as [|fuel IH]; intros f Hok Hf Hl; [lia|]. cbn [read_frames].
  pose proof (next_frame_answers fr f Hok Hf) as (Hc & Hokg & Ha). destruct (next_frame f) as [r g]. cbn [fst snd] in *.
  assert (Hg : framing g = Some fr) by (by destruct Hc as (? & ? & ? & ->)). unfold shorter in *.
  destruct r as [e|[frame|]]; cbn [accounts] in Ha; [destruct (is_fatal e) eqn:He; [|destruct Ha as [Hh Hs]]|destruct Ha as [Hh Hs]..].
  - rewrite Ha. by destruct e.
  - specialize (IH g Hokg Hg ltac:(unfold shorter in Hs; lia)). destruct (read_frames fuel g) as [[events closed] h].
    destruct IH as (? & ? & ? & Hr). rewrite Hh, Hr. eauto using same_config_trans.
  - specialize (IH g Hokg Hg ltac:(unfold shorter in Hs; lia)). destruct (read_frames fuel g) as [[events closed] h].
    destruct IH as (? & ? & ? & Hr). rewrite Hh, Hr. eauto using same_config_trans.
  - by rewrite Hh.
Qed.

(** ** Reads *)

(** What a connection's framer is after some bytes, up to where it has searched. *)
Definition follows (f : Framer) (bs : bytes) (g : Framer) : Prop :=
  mode g = mode f /\ max_frame_bytes g = max_frame_bytes f /\ framing g = framing f /\
  seen_bytes g = seen_bytes f || negb (bool_decide (bs = [])).

(** A framer between two reads. *)
Record idle (fr : Framing.Framing) (f : Framer) : Prop := mkIdle {
  idle_ok : framer_ok f;
  idle_framing : framing f = Some fr;
  idle_rest : at_rest fr f
}.

Lemma push_known bs f fr :
  framing f = Some fr ->
  push bs f = mkFramer (mode f) (max_frame_bytes f) (Some fr) (buf f ++ bs) (scanned f) (draining f)
                (seen_bytes f || negb (bool_decide (bs = []))).
Proof. intros Hf. unfold push. rewrite Hf. by destruct (mode f). Qed.

Lemma push_ok bs f fr : framer_ok f -> framing f = Some fr -> framer_ok (push bs f).
Proof.
  intros [Hm Hs Hn Hd Hu _] Hf. rewrite (push_known _ _ _ Hf), Hf in *.
  split; cbn [max_frame_bytes scanned buf draining framing mode]; try done.
  - rewrite length_app. lia.
  - by rewrite take_app_le.
Qed.

Lemma feed_known fr bs f :
  framer_ok f -> framing f = Some fr ->
  let '(events, closed, g) := feed bs f in
  follows f bs g /\ (closed = false -> idle fr g) /\
  read_all (mode f) (max_frame_bytes f) fr (draining f) (buf f ++ bs) =
    (outcome <$> events, if closed then None else Some (draining g, buf g)).
Proof.
  intros Hok Hf. unfold feed. pose proof (read_frames_held fr (S (length (buf (push bs f)))) (push bs f)
    (push_ok bs f fr Hok Hf)) as Hr. rewrite (push_known bs f fr Hf) in *. specialize (Hr eq_refl ltac:(lia)).
  destruct (read_frames _ _) as [[events closed] g]. destruct Hr as (Hc & Hokg & Hrest & Hh).
  split; [by destruct Hc as (? & ? & ? & ->); split_and!|split; [|done]].
  intros ->. split; [done| |by apply Hrest]. by destruct Hc as (? & ? & ? & ->).
Qed.

Lemma idle_reads fr f : idle fr f -> read_all (mode f) (max_frame_bytes f) fr (draining f) (buf f) = ([], Some (draining f, buf f)).
Proof. intros [Hok _ [Ht _]]. by rewrite (read_all_eq _ _ (ok_max _ Hok)), Ht. Qed.

Lemma follows_trans f a g b h : follows f a g -> follows g b h -> follows f (a ++ b) h.
Proof.
  intros (? & ? & ? & Hs) (? & ? & ? & Hs'). unfold follows. split_and!; try congruence. rewrite Hs', Hs, <- orb_assoc.
  f_equal. by destruct a, b.
Qed.

(** Any number of reads: what they deliver is what their bytes together read as. *)
Lemma feed_all_known fr chunks f :
  idle fr f ->
  let '(events, closed, g) := feed_all chunks f in
  (closed = false -> follows f (concat chunks) g /\ idle fr g) /\
  read_all (mode f) (max_frame_bytes f) fr (draining f) (buf f ++ concat chunks) =
    (outcome <$> events, if closed then None else Some (draining g, buf g)).
Proof.
  revert f. induction chunks as [|bs chunks IH]; intros f Hi; cbn [feed_all concat].
  - rewrite app_nil_r, (idle_reads fr f Hi). split; [|done]. intros _. split; [|done]. unfold follows. by rewrite orb_false_r.
  - pose proof (feed_known fr bs f (idle_ok _ _ Hi) (idle_framing _ _ Hi)) as Hb. destruct (feed bs f) as [[events closed] g].
    destruct Hb as (Hfg & Hig & Hb). rewrite app_assoc, read_all_app, Hb by apply Hi. destruct closed; [done|].
    specialize (Hig eq_refl). specialize (IH g Hig). destruct (feed_all chunks g) as [[more closed] h].
    destruct Hfg as (Hm & Hx & Hrest). rewrite Hm, Hx in IH. destruct IH as [Hh ->]. rewrite fmap_app.
    split; [|done]. intros Hc. destruct (Hh Hc). split; [|done]. by eapply follows_trans.
Qed.
