(* ===== verification/FramingProperties.v ===== *)
(** * What a stream's framer promises

    How a connection's bytes are cut into reads does not matter, what it buffers is bounded, its two
    endings agree, and the frames a sender wrote come back, for the framer of StreamFraming. *)

From S2P Require Import Prelude StreamFraming.

(** Two idle framers that hold the same are the same. *)
Lemma idle_unique fr f bs g h :
  idle fr g -> idle fr h -> follows f bs g -> follows f bs h -> draining g = draining h -> buf g = buf h -> g = h.
Proof.
  intros [Hg Hfg [_ Hrg]] [Hh Hfh [_ Hrh]] (Hm & Hx & Hf & Hs) (Hm' & Hx' & Hf' & Hs') Hd Hb.
  assert (scanned g = scanned h) as Hsc.
  { destruct (decide (fr = Framing.NonTransparent)) as [->|Hn]; [by rewrite Hrg, Hrh, Hb|].
    rewrite (ok_unsearched _ Hg), (ok_unsearched _ Hh); congruence. }
  destruct g, h; cbn in *. congruence.
Qed.

(** A new connection, its framing told by its first byte where the mode leaves that open. *)
Definition start (m : Mode.FramingMode) (max : Z) (first : byte) : Framer :=
  mkFramer m max
    (match m with
     | Mode.Rfc6587Auto => Some (if is_ascii_digit first then Framing.OctetCounting else Framing.NonTransparent)
     | _ => framing (framer_new m max)
     end) [] 0 false false.

Definition start_framing (m : Mode.FramingMode) (first : byte) : Framing.Framing :=
  match m with
  | Mode.Rfc6587Auto => if is_ascii_digit first then Framing.OctetCounting else Framing.NonTransparent
  | Mode.Lines _ => Framing.NonTransparent
  | Mode.LengthPrefixed => Framing.LengthPrefixed
  | Mode.LengthPrefixedLe => Framing.LengthPrefixedLe
  end.

Lemma start_idle m max first : 0 <= max -> idle (start_framing m first) (start m max first).
Proof.
  intros Hm. split; [split; try done|by destruct m|].
  - by destruct m.
  - split; [|done]. cbn [mode max_frame_bytes draining buf start]. destruct (start_framing m first); cbn [turn]; try done.
    unfold line_turn. cbn [position_lf]. destruct (Z.ltb_spec max (blen [])) as [Hb|]; [change (blen []) with 0 in Hb; lia|done].
Qed.

(** The first byte settles the framing wherever it comes. *)
Lemma feed_new m max first bs : feed (first :: bs) (framer_new m max) = feed (first :: bs) (start m max first).
Proof. by destruct m. Qed.

Lemma feed_new_empty m max : 0 <= max -> feed [] (framer_new m max) = ([], false, framer_new m max).
Proof.
  intros Hm. destruct m; [reflexivity| |reflexivity..]. unfold feed, framer_new, push.
  cbn -[Z.ltb]. unfold next_frame. cbn -[Z.ltb]. unfold next_line, finish_drain. cbn -[Z.ltb].
  destruct (Z.ltb_spec max (blen [])) as [Hb|]; [change (blen []) with 0 in Hb; lia|]. reflexivity.
Qed.

(** What the reads of a connection come to: the reference's reading of all their bytes. *)
Lemma feed_all_start m max first chunks :
  0 <= max ->
  let '(events, closed, g) := feed_all chunks (start m max first) in
  (closed = false -> follows (start m max first) (concat chunks) g /\ idle (start_framing m first) g) /\
  read_all m max (start_framing m first) false (concat chunks) =
    (outcome <$> events, if closed then None else Some (draining g, buf g)).
Proof. intros Hm. apply (feed_all_known _ chunks _ (start_idle m max first Hm)). Qed.

Lemma feed_all_one m max first bs :
  let '(events, closed, g) := feed bs (start m max first) in
  feed_all [bs] (start m max first) = (events, closed, g).
Proof. cbn [feed_all]. destruct (feed bs _) as [[events []] g]; [done|]. by rewrite app_nil_r. Qed.

(** Empty reads before the first byte change nothing; from then on the framing is known. *)
Lemma feed_all_new m max chunks :
  0 <= max ->
  match concat chunks with
  | [] => feed_all chunks (framer_new m max) = ([], false, framer_new m max)
  | first :: bs =>
      exists chunks', concat chunks' = first :: bs /\ feed_all chunks (framer_new m max) = feed_all chunks' (start m max first)
  end.
Proof.
  intros Hm. induction chunks as [|[|first bs] chunks IH]; cbn [concat feed_all]; [done| |].
  - rewrite (feed_new_empty m max Hm). cbn [app]. destruct (concat chunks) as [|first bs]; [by rewrite IH|].
    destruct IH as (chunks' & Hc & ->). exists chunks'. split; [done|]. by destruct (feed_all _ _) as [[? ?] ?].
  - exists ((first :: bs) :: chunks). split; [done|]. cbn [feed_all]. by rewrite feed_new.
Qed.

Lemma read_all_nil m max fr d : 0 <= max -> read_all m max fr d [] = ([], Some (d, [])).
Proof.
  intros Hmax. rewrite (read_all_eq _ _ Hmax). destruct fr; cbn [turn]; try done. unfold line_turn. cbn [position_lf].
  destruct d; [done|]. destruct (Z.ltb_spec max (blen [])) as [Hb|]; [change (blen []) with 0 in Hb; lia|done].
Qed.

(** C13: how a connection's bytes are cut into reads does not matter: every framing
    delivers the same frames and fails the same way, up to when a skipped line is noticed, and an open
    framer is left exactly as if the bytes had come in one read. *)
Theorem framing_ignores_chunks m max chunks :
  0 <= max ->
  let '(events, closed, f) := feed_all chunks (framer_new m max) in
  let '(events', closed', f') := feed (concat chunks) (framer_new m max) in
  outcome <$> events = outcome <$> events' /\ closed = closed' /\ (closed = false -> f = f').
Proof.
  intros Hm. pose proof (feed_all_new m max chunks Hm) as Hn. destruct (concat chunks) as [|first bs] eqn:Hc.
  - by rewrite Hn, feed_new_empty.
  - destruct Hn as (chunks' & Hc' & ->). rewrite feed_new.
    pose proof (feed_all_start m max first chunks' Hm) as Ha.
    pose proof (feed_all_start m max first [first :: bs] Hm) as Hb.
    pose proof (feed_all_one m max first (first :: bs)) as Ho.
    destruct (feed_all chunks' _) as [[events closed] f], (feed _ _) as [[events' closed'] f'].
    rewrite Ho in Hb. cbn [concat] in Hb. rewrite app_nil_r in Hb. rewrite Hc' in Ha.
    destruct Ha as [Hi Ha], Hb as [Hi' Hb]. rewrite Ha in Hb. injection Hb as He Hcl.
    destruct closed, closed'; try done. injection Hcl as Hd Hbu. split; [done|split; [done|intros _]].
    destruct (Hi eq_refl), (Hi' eq_refl). by eapply idle_unique.
Qed.

(** The framer's events are the reference's reading, under the framing the first byte settles. *)
Lemma feed_all_reads m max fr chunks :
  0 <= max -> (forall first bs, concat chunks = first :: bs -> start_framing m first = fr) ->
  let '(events, closed, f) := feed_all chunks (framer_new m max) in
  read_all m max fr false (concat chunks) = (outcome <$> events, if closed then None else Some (draining f, buf f)).
Proof.
  intros Hm Hfr. pose proof (feed_all_new m max chunks Hm) as Hn. destruct (concat chunks) as [|first bs].
  - rewrite Hn. by rewrite read_all_nil.
  - destruct Hn as (chunks' & Hc & ->). pose proof (feed_all_start m max first chunks' Hm) as Ha.
    rewrite (Hfr first bs eq_refl), Hc in Ha. by destruct (feed_all _ _) as [[events closed] f], Ha as [_ Ha].
Qed.

Lemma outcome_frames (events : list (FrameError.FrameError + bytes)) (frames : list bytes) : outcome <$> events = inr <$> frames -> events = inr <$> frames.
Proof.
  revert frames. induction events as [|e events IH]; intros [|frame frames]; cbn; try done.
  intros [= He Hr]. rewrite (IH frames Hr). f_equal. by destruct e as [[]|].
Qed.

(** ** What is held *)

Lemma count_digits_incomplete bs : forall n, (n <= MAX_COUNT_DIGITS)%nat ->
  match count_digits bs n with
  | Incomplete => (n + length bs <= MAX_COUNT_DIGITS)%nat
  | Digits k => (k <= MAX_COUNT_DIGITS)%nat
  | NotACount => True
  end.
Proof.
  induction bs as [|b bs IH]; intros n Hn; simpl; [lia|]. destruct (is_ascii_digit b); [|by destruct (b2z b =? 32)].
  destruct (Nat.eqb_spec n MAX_COUNT_DIGITS); [done|]. specialize (IH (S n) ltac:(lia)).
  destruct (count_digits bs (S n)); try done. lia.
Qed.

(** The most a framing leaves unread beyond the bound on a frame: its header. *)
Definition header_room (fr : option Framing.Framing) : Z :=
  match fr with
  | Some Framing.OctetCounting => Z.of_nat MAX_COUNT_DIGITS
  | Some Framing.LengthPrefixed | Some Framing.LengthPrefixedLe => Z.of_nat LENGTH_PREFIX_BYTES - 1
  | _ => 0
  end.

Lemma prefix_wait_bound max read_len d bs d' bs' :
  prefix_turn max read_len d bs = Wait d' bs' -> 0 <= max -> blen bs <= max + (Z.of_nat LENGTH_PREFIX_BYTES - 1).
Proof.
  unfold prefix_turn. destruct (Nat.ltb_spec (length bs) LENGTH_PREFIX_BYTES); [unfold blen; lia|].
  destruct (Z.ltb_spec max (read_len (take LENGTH_PREFIX_BYTES bs))); [done|].
  destruct (Z.ltb_spec (blen bs) (Z.of_nat LENGTH_PREFIX_BYTES + read_len (take LENGTH_PREFIX_BYTES bs))); [lia|done].
Qed.

Lemma idle_bound fr f : idle fr f -> blen (buf f) <= max_frame_bytes f + header_room (Some fr).
Proof.
  intros [Hok _ [Ht _]]. pose proof (ok_max _ Hok) as Hm. revert Ht. destruct fr; cbn [turn header_room].
  - unfold octet_turn. pose proof (count_digits_incomplete (buf f) 0 ltac:(unfold MAX_COUNT_DIGITS; lia)) as Hd.
    destruct (count_digits (buf f) 0) as [| |n]; [intros _; unfold blen; lia|done|].
    destruct (_ || _); [done|]. destruct (Z.ltb_spec (max_frame_bytes f) (decimal (take n (buf f)))); [done|].
    destruct (Z.ltb_spec (blen (buf f)) (Z.of_nat (n + 1) + decimal (take n (buf f)))); [|done]. intros _. lia.
  - unfold line_turn. destruct (position_lf (buf f)); [repeat case_match; done|]. destruct (draining f).
    + intros [= Hb]. rewrite <- Hb. change (blen []) with 0. lia.
    + destruct (Z.ltb_spec (max_frame_bytes f) (blen (buf f))); [by destruct (policy _)|]. intros _. lia.
  - intros Ht. apply prefix_wait_bound in Ht; [|done]. lia.
  - intros Ht. apply prefix_wait_bound in Ht; [|done]. lia.
Qed.

Lemma idle_draining fr f : idle fr f -> draining f = true -> buf f = [].
Proof.
  intros [Hok Hfr [Ht _]] Hd. rewrite (ok_draining _ Hok Hd) in Hfr. injection Hfr as <-. revert Ht. cbn [turn]. unfold line_turn.
  rewrite Hd. destruct (position_lf (buf f)); [done|]. by intros [= <-].
Qed.

(** What [finish] makes of bytes it holds and is not discarding. *)
Lemma finish_held fr f :
  framing f = Some fr -> buf f <> [] -> draining f = false ->
  finish f =
  let cleared := with_buf [] 0 (draining f) f in
  match fr with
  | Framing.NonTransparent =>
      if max_frame_bytes f <? blen (buf f) then
        (inl match oversize_policy f with Mode.Fatal => FrameError.Oversize | Mode.DrainToNextLine => FrameError.OversizeSkipped end,
         cleared)
      else if remainder_is_blank f then (inr None, cleared)
      else match mode f with Mode.Lines _ => (inl FrameError.Truncated, cleared) | _ => (inr (Some (strip_cr (buf f))), cleared) end
  | _ => (inl FrameError.Truncated, cleared)
  end.
Proof. intros Hf Hb Hd. unfold finish. rewrite Hf, Hd. destruct (buf f); [done|]. by destruct fr. Qed.

Lemma strip_cr_nonempty line : line <> [] -> line <> [CR] -> strip_cr line <> [].
Proof.
  intros Hn Hc. unfold strip_cr. destruct (last line) as [b|] eqn:Hl; [|done]. case_bool_decide as Hb; [|done].
  apply last_Some in Hl as [pre ->]. rewrite length_app. cbn [length]. rewrite take_app_le by lia. rewrite take_ge by lia.
  intros ->. by subst.
Qed.

(** A connection still open is either new or idle under the framing of its first byte. *)
Lemma feed_all_open m max chunks events f :
  0 <= max -> feed_all chunks (framer_new m max) = (events, false, f) ->
  f = framer_new m max \/
  exists first, idle (start_framing m first) f /\ mode f = m /\ max_frame_bytes f = max.
Proof.
  intros Hm Hf. pose proof (feed_all_new m max chunks Hm) as Hn. destruct (concat chunks) as [|first bs].
  - left. congruence.
  - destruct Hn as (chunks' & _ & Hn). right. exists first. pose proof (feed_all_start m max first chunks' Hm) as Ha.
    rewrite <- Hn, Hf in Ha. destruct (proj1 Ha eq_refl) as [(? & ? & _) ?]. done.
Qed.

(** C30: between two reads an open connection's framer holds no more than one frame
    of the bound and its header, and nothing while it discards a line. *)
Theorem framer_buffer_bounded m max chunks events f :
  0 <= max -> feed_all chunks (framer_new m max) = (events, false, f) ->
  buffered f <= max + header_room (framing f) /\ (draining f = true -> buffered f = 0).
Proof.
  intros Hm Hf. unfold buffered. destruct (feed_all_open m max chunks events f Hm Hf) as [->|(first & Hi & <- & <-)].
  - split; [|done]. change (blen (buf (framer_new m max))) with 0. destruct m; cbn [framing framer_new header_room]; unfold LENGTH_PREFIX_BYTES; lia.
  - pose proof (idle_bound _ _ Hi). rewrite (idle_framing _ _ Hi). split; [done|]. intros Hd.
    by rewrite (idle_draining _ _ Hi Hd).
Qed.

(** C31: a connection's two endings agree: with a FIN the framer reports bytes lost
    exactly when without one it does, except that a syslog line without its [LF] is delivered; both
    leave the framer empty. *)
Theorem stream_endings_agree m max chunks events f :
  0 <= max -> feed_all chunks (framer_new m max) = (events, false, f) ->
  buf (finish f).2 = [] /\ buf (abandon f).2 = [] /\
  match (finish f).1 with
  | inr None => (abandon f).1 = None
  | inr (Some frame) => m = Mode.Rfc6587Auto /\ frame = strip_cr (buf f) /\ frame <> [] /\ (abandon f).1 = Some FrameError.Truncated
  | inl e => e = FrameError.Truncated /\ (abandon f).1 = Some FrameError.Truncated
  end.
Proof.
  intros Hm Hf. destruct (feed_all_open m max chunks events f Hm Hf) as [->|(first & Hi & <- & <-)]; [done|].
  destruct (decide (buf f = [])) as [Hb|Hb].
  { unfold finish, abandon. rewrite Hb. split; [done|split; [done|]]. by rewrite bool_decide_true. }
  assert (Hd : draining f = false) by (destruct (draining f) eqn:Hd; [by apply (idle_draining _ _ Hi) in Hd|done]).
  pose proof (idle_bound _ _ Hi) as Hx. rewrite (finish_held _ _ (idle_framing _ _ Hi) Hb Hd).
  unfold abandon. rewrite (bool_decide_false _ Hb), Hd. unfold remainder_is_blank. rewrite (idle_framing _ _ Hi) in *.
  destruct (start_framing (mode f) first) eqn:Hs; cbn [header_room] in Hx;
    try (rewrite (bool_decide_false _ Hb); by split_and!).
  destruct (Z.ltb_spec (max_frame_bytes f) (blen (buf f))) as [|_]; [lia|]. split; [by repeat case_match|split; [done|]].
  destruct (mode f); try done; cbn [fst].
  - destruct (_ || _) eqn:Hl; [done|]. apply orb_false_iff in Hl as [_ Hl%bool_decide_eq_false].
    split_and!; try done. by apply strip_cr_nonempty.
  - by destruct (forallb _ _).
Qed.

(** ** Samples *)

(** Two lines, the second over a bound of four bytes, in reads cut inside each. *)
Definition sample_reads : list bytes := [[z2b 97]; []; [z2b 98; CR; LF; z2b 99; z2b 100]; [z2b 101; z2b 102; z2b 103]; [LF; z2b 104]].

Lemma framing_ignores_chunks_witness :
  let '(events, closed, f) := feed_all sample_reads (framer_new (Mode.Lines Mode.DrainToNextLine) 4) in
  let '(events', closed', f') := feed (concat sample_reads) (framer_new (Mode.Lines Mode.DrainToNextLine) 4) in
  outcome <$> events = outcome <$> events' /\ closed = closed' /\ (closed = false -> f = f').
Proof. apply (framing_ignores_chunks (Mode.Lines Mode.DrainToNextLine) 4 sample_reads). lia. Defined.

Lemma framer_buffer_bounded_witness :
  let f := (feed_all sample_reads (framer_new (Mode.Lines Mode.DrainToNextLine) 4)).2 in
  buffered f <= 4 + header_room (framing f) /\ (draining f = true -> buffered f = 0).
Proof.
  apply (framer_buffer_bounded (Mode.Lines Mode.DrainToNextLine) 4 sample_reads
    (feed_all sample_reads (framer_new (Mode.Lines Mode.DrainToNextLine) 4)).1.1); [lia|vm_compute; reflexivity].
Defined.

(** A syslog line cut before its [LF]. *)
Lemma stream_endings_agree_witness :
  let f := (feed_all sample_reads (framer_new Mode.Rfc6587Auto 8)).2 in
  buf (finish f).2 = [] /\ buf (abandon f).2 = [] /\
  match (finish f).1 with
  | inr None => (abandon f).1 = None
  | inr (Some frame) =>
      Mode.Rfc6587Auto = Mode.Rfc6587Auto /\ frame = strip_cr (buf f) /\ frame <> [] /\ (abandon f).1 = Some FrameError.Truncated
  | inl e => e = FrameError.Truncated /\ (abandon f).1 = Some FrameError.Truncated
  end.
Proof.
  apply (stream_endings_agree Mode.Rfc6587Auto 8 sample_reads (feed_all sample_reads (framer_new Mode.Rfc6587Auto 8)).1.1);
    [lia|vm_compute; reflexivity].
Defined.
