(* ===== verification/StreamSenders.v ===== *)
(** * The frames the stream sinks write

    [MessageBuf] of crates/logit-proto/src/msgbuf.rs, which holds a batch's encoded messages, and
    what syslog_out, statsd_out and graphite_out make of it for a stream: octet counts, lines, and
    packets behind a length (crates/logit-outputs/src/syslog.rs, statsd.rs and graphite.rs). Each is
    read back by the listener's framer, however the stream is cut into reads. *)

From S2P Require Import Prelude StreamFraming FramingProperties.

(** ** The messages of a batch *)

Record MessageBuf (M : Type) := mkMessageBuf {
  mb_bytes : bytes;
  ranges : list (nat * nat);
  meta : list M
}.
Arguments mkMessageBuf {M} _ _ _.
Arguments mb_bytes {M} _.
Arguments ranges {M} _.
Arguments meta {M} _.

Definition message_buf_default {M} : MessageBuf M := mkMessageBuf [] [] [].

(** Its allocations aside, a cleared buffer is a new one. *)
Definition message_buf_clear {M} (b : MessageBuf M) : MessageBuf M := message_buf_default.

Definition push_with {M} (msg : bytes) (m : M) (b : MessageBuf M) : MessageBuf M :=
  let start := length (mb_bytes b) in
  let all := mb_bytes b ++ msg in
  mkMessageBuf all (ranges b ++ [(start, length all)]) (meta b ++ [m]).

Definition slice (bs : bytes) (r : nat * nat) : bytes := take (r.2 - r.1) (drop r.1 bs).

Definition iter {M} (b : MessageBuf M) : list bytes := slice (mb_bytes b) <$> ranges b.
Definition iter_with {M} (b : MessageBuf M) : list (bytes * M) := zip (iter b) (meta b).

(** What an encoder leaves after pushing [msgs]. *)
Definition filled {M} (msgs : list (bytes * M)) : MessageBuf M :=
  foldl (fun b p => push_with p.1 p.2 b) message_buf_default msgs.

(** ** Framings *)

(** [usize::to_string]: digits, the first of them not a zero unless it is alone. *)
Fixpoint digits_of (fuel : nat) (n : Z) (acc : bytes) : bytes :=
  match fuel with
  | O => acc
  | S fuel =>
      let acc := z2b (48 + n mod 10) :: acc in
      if n <? 10 then acc else digits_of fuel (n / 10) acc
  end.

Definition to_string (n : Z) : bytes := digits_of 20 n [].

Definition SP : byte := z2b 32.

Definition frame_octet_counting (messages : MessageBuf unit) : bytes :=
  foldl (fun out msg => out ++ to_string (blen msg) ++ [SP] ++ msg) [] (iter messages).

Definition build_lf_frame (lines : MessageBuf unit) : bytes :=
  foldl (fun frame msg => (frame ++ msg) ++ [LF]) [] (iter lines).

Inductive Protocol := Plaintext | Pickle.

(** graphite_out's frame and its datapoint count. *)
Definition build_tcp_frame (protocol : Protocol) (b : MessageBuf Z) : bytes * Z :=
  foldl (fun '(frame, datapoints) '(msg, m) =>
      (match protocol with Plaintext => (frame ++ msg) ++ [LF] | Pickle => frame ++ msg end, datapoints + m))
    ([], 0) (iter_with b).

Definition PREFIX : nat := 4.

(** The length of the packet that starts at [start], written over its placeholder. *)
Definition close_packet (start : nat) (frame : bytes) : bytes :=
  let body := Z.of_nat (length frame - start - PREFIX) in
  take start frame ++ to_le_bytes PREFIX body ++ drop (start + PREFIX) frame.

Definition packet_step (max_packet_bytes : Z) (st : bytes * option nat) (msg : bytes) : bytes * option nat :=
  let fresh frame := (frame ++ replicate PREFIX (z2b 0) ++ msg, Some (length frame)) in
  match st with
  | (frame, Some start) =>
      let body := Z.of_nat (length frame - start - PREFIX) in
      if body + 1 + blen msg <=? max_packet_bytes then (frame ++ [LF] ++ msg, Some start)
      else fresh (close_packet start frame)
  | (frame, None) => fresh frame
  end.

Definition build_length_prefixed_frame (max_packet_bytes : Z) (lines : MessageBuf unit) : bytes :=
  match foldl (packet_step max_packet_bytes) ([], None) (iter lines) with
  | (frame, Some start) => close_packet start frame
  | (frame, None) => frame
  end.

(** ** The buffer keeps its messages *)

Definition buf_ok {M} (b : MessageBuf M) : Prop :=
  length (ranges b) = length (meta b) /\ Forall (fun r => (r.1 <= r.2 <= length (mb_bytes b))%nat) (ranges b).

Lemma slice_app bs c r : (r.1 <= r.2 <= length bs)%nat -> slice (bs ++ c) r = slice bs r.
Proof. intros H. unfold slice. rewrite drop_app_le, take_app_le by (rewrite ?length_drop; lia). done. Qed.

Lemma push_with_ok {M} msg (m : M) b : buf_ok b -> buf_ok (push_with msg m b).
Proof.
  intros [Hl Hr]. unfold push_with. split; cbn [ranges meta mb_bytes]; [by rewrite !length_app, Hl|].
  apply Forall_app. rewrite length_app. split; [|repeat constructor; cbn [fst snd]; lia].
  eapply Forall_impl; [done|]. cbn. lia.
Qed.

Lemma iter_with_push {M} msg (m : M) b : buf_ok b -> iter_with (push_with msg m b) = iter_with b ++ [(msg, m)].
Proof.
  intros [Hl Hr]. unfold iter_with, iter, push_with. cbn [ranges meta mb_bytes]. rewrite fmap_app, zip_with_app
    by (by rewrite !length_fmap). f_equal.
  - f_equal. apply list_fmap_ext. intros i r Hi. rewrite Forall_lookup in Hr. apply slice_app. by apply (Hr i).
  - cbn [fmap list_fmap zip_with]. unfold slice. cbn [fst snd]. rewrite drop_app_ge, length_app by lia.
    rewrite Nat.sub_diag, drop_0, take_ge by lia. done.
Qed.

Lemma filled_ok {M} (msgs : list (bytes * M)) : buf_ok (filled msgs) /\ iter_with (filled msgs) = msgs.
Proof.
  unfold filled. induction msgs as [|[msg m] msgs [IH IHi]] using rev_ind; [by split|].
  rewrite foldl_app. cbn [foldl fst snd]. split; [by apply push_with_ok|]. by rewrite iter_with_push, IHi.
Qed.

Lemma iter_filled {M} (msgs : list (bytes * M)) : iter (filled msgs) = msgs.*1.
Proof.
  destruct (filled_ok msgs) as [[Hl _] Hi]. rewrite <- Hi at 2. unfold iter_with. rewrite fst_zip; [done|].
  unfold iter. rewrite length_fmap. lia.
Qed.

Lemma foldl_concat (g : bytes -> bytes) (step : bytes -> bytes -> bytes) msgs out :
  (forall out msg, step out msg = out ++ g msg) -> foldl step out msgs = out ++ concat (g <$> msgs).
Proof.
  intros Hs. revert out. induction msgs as [|msg msgs IH]; intros out; cbn [foldl fmap list_fmap concat]; [by rewrite app_nil_r|].
  by rewrite IH, Hs, <- app_assoc.
Qed.

(** One message under each framing. *)
Definition octets (msg : bytes) : bytes := to_string (blen msg) ++ SP :: msg.
Definition line (msg : bytes) : bytes := msg ++ [LF].
Definition packet (p : bytes) : bytes := to_le_bytes PREFIX (blen p) ++ p.

Lemma frame_octet_counting_concat b : frame_octet_counting b = concat (octets <$> iter b).
Proof. unfold frame_octet_counting. by rewrite (foldl_concat octets). Qed.

(** graphite_out's plaintext is lines, and it counts every datapoint of them. *)
Lemma build_tcp_frame_concat protocol msgs :
  build_tcp_frame protocol (filled msgs) =
  (concat ((match protocol with Plaintext => line | Pickle => id end) <$> msgs.*1), foldl Z.add 0 msgs.*2).
Proof.
  unfold build_tcp_frame. destruct (filled_ok msgs) as [_ ->]. set (enc := match protocol with Plaintext => line | Pickle => id end).
  enough (forall frame n, foldl _ (frame, n) msgs = (frame ++ concat (enc <$> msgs.*1), foldl Z.add n msgs.*2)) as H by apply H.
  induction msgs as [|[msg m] msgs IH]; intros frame n; cbn [foldl fmap list_fmap concat fst snd]; [by rewrite app_nil_r|].
  rewrite IH. subst enc. unfold line. destruct protocol; cbn [id]; by rewrite <- !app_assoc.
Qed.

Lemma build_lf_frame_concat b : build_lf_frame b = concat (line <$> iter b).
Proof. unfold build_lf_frame. rewrite (foldl_concat line); [done|]. intros. unfold line. by rewrite app_assoc. Qed.

(** ** Numbers in decimal *)

Lemma decimal_snoc ds b : decimal (ds ++ [b]) = 10 * decimal ds + (b2z b - 48).
Proof. unfold decimal. by rewrite foldl_app. Qed.

Definition leading_zero (ds : bytes) : bool := match ds with b :: _ => b2z b =? 48 | [] => false end.

Lemma digit_byte d : 0 <= d < 10 -> b2z (z2b (48 + d)) = 48 + d.
Proof. intros Hd. rewrite b2z_z2b. apply Z.mod_small. lia. Qed.

Lemma digit_is_digit d : 0 <= d < 10 -> is_ascii_digit (z2b (48 + d)) = true.
Proof. intros Hd. unfold is_ascii_digit. rewrite (digit_byte d Hd). lia. Qed.

(** The digits of a number below [10 ^ (k + 1)]. *)
Lemma digits_of_spec k : forall fuel n acc,
  (k < fuel)%nat -> 0 <= n < 10 ^ Z.of_nat (S k) ->
  exists b ds, digits_of fuel n acc = b :: ds ++ acc /\ (length ds <= k)%nat /\ Forall is_ascii_digit (b :: ds) /\
             decimal (b :: ds) = n /\ (1 <= n -> b2z b =? 48 = false).
Proof.
  induction k as [|k IH]; intros [|fuel] n acc Hk Hn; try lia; cbn [digits_of]; pose proof (Z.mod_pos_bound n 10 ltac:(lia)) as Hd;
    pose proof (Z.div_mod n 10 ltac:(lia)) as Hdm; destruct (Z.ltb_spec n 10) as [Hlt|Hge]; try (change (10 ^ Z.of_nat 1) with 10 in Hn; lia).
  1,2: (rewrite (Z.mod_small n 10) by lia; exists (z2b (48 + n)), []; rewrite digit_byte by lia;
    split_and!; [done|cbn; lia|repeat constructor; by rewrite digit_is_digit by lia|unfold decimal; cbn [foldl]; rewrite digit_byte by lia; lia|lia]).
  destruct (IH fuel (n / 10) (z2b (48 + n mod 10) :: acc)) as (b & ds & -> & Hl & Hf & Hv & Hz); [lia| |].
  - rewrite (Nat2Z.inj_succ (S k)), Z.pow_succ_r in Hn by lia. split; [apply Z.div_pos; lia|apply Z.div_lt_upper_bound; lia].
  - exists b, (ds ++ [z2b (48 + n mod 10)]). rewrite <- app_assoc. split_and!; [done|rewrite length_app; cbn; lia| | |].
    + rewrite app_comm_cons. apply Forall_app. split; [done|]. repeat constructor. by rewrite digit_is_digit.
    + rewrite app_comm_cons, decimal_snoc, Hv, digit_byte by done. lia.
    + intros _. apply Hz. apply Z.div_le_lower_bound; lia.
Qed.

(** A count as a sender writes it is a count as the framer reads it. *)
Lemma count_digits_digits ds rest : forall n,
  Forall is_ascii_digit ds -> (n + length ds <= MAX_COUNT_DIGITS)%nat ->
  count_digits (ds ++ SP :: rest) n = Digits (n + length ds).
Proof.
  induction ds as [|b ds IH]; intros n Hf Hl; cbn [app count_digits length] in *; [by rewrite Nat.add_0_r|].
  apply Forall_cons in Hf as [Hb Hf]. destruct (is_ascii_digit b); [|done].
  destruct (Nat.eqb_spec n MAX_COUNT_DIGITS); [lia|]. rewrite IH by (done || lia). f_equal. lia.
Qed.

Lemma to_nat_blen bs : Z.to_nat (blen bs) = length bs.
Proof. unfold blen. lia. Qed.

Section ReadBack.
Context (m : Mode.FramingMode) (max : Z) (Hmax : 0 <= max).

(** A message an octet count can announce: RFC 6587 has no empty one, and nine digits bound it. *)
Definition countable (msg : bytes) : Prop := 1 <= blen msg <= max /\ blen msg < 10 ^ 9.

(** A framing under which a message read on its own is taken whole and at once. *)
Definition takes_whole (fr : Framing.Framing) (enc : bytes -> bytes) (ok : bytes -> Prop) : Prop :=
  forall msg, ok msg ->
    turn m max fr false (enc msg) = Go [inr msg] false [] /\ forall p, p `prefix_of` enc msg -> ~ early m max fr false p.

Lemma octets_whole : takes_whole Framing.OctetCounting octets countable.
Proof using Type.
  intros msg [Hb Hn]. split; [|by intros p _ [? _]]. cbn [turn]. unfold octets, to_string.
  destruct (digits_of_spec 8 20 (blen msg) []) as (b & ds & -> & Hl & Hf & Hv & Hz); [lia|cbn; lia|].
  rewrite app_nil_r. unfold octet_turn. rewrite count_digits_digits by (done || (cbn; unfold MAX_COUNT_DIGITS; lia)).
  cbn [Nat.add app]. rewrite (Hz ltac:(lia)). cbn [length Nat.eqb orb]. rewrite app_comm_cons.
  rewrite (take_app_length' (b :: ds)) by done. rewrite Hv. destruct (Z.ltb_spec max (blen msg)); [lia|].
  destruct (Z.ltb_spec (blen ((b :: ds) ++ SP :: msg)) (Z.of_nat (S (length ds) + 1) + blen msg)) as [Hs|_].
  { unfold blen in Hs. rewrite length_app in Hs. cbn [length] in Hs. lia. }
  rewrite (cons_middle SP (b :: ds)), (app_assoc (b :: ds)), (drop_app_length' _ msg) by (rewrite length_app; done).
  by rewrite to_nat_blen, firstn_all, drop_all.
Qed.

(** A packet whose length fits its prefix and the bound. *)
Definition fits_prefix (p : bytes) : Prop := blen p <= max /\ blen p < 2 ^ 32.

Lemma packet_whole : takes_whole Framing.LengthPrefixedLe packet fits_prefix.
Proof using Type.
  intros p [Hb Hn]. split; [|by intros ? _ [? _]]. cbn [turn]. unfold packet, prefix_turn.
  assert (Hl : length (to_le_bytes PREFIX (blen p)) = LENGTH_PREFIX_BYTES) by apply length_to_le_bytes.
  rewrite (take_app_length' _ p), (drop_app_length' _ p) by done.
  destruct (Nat.ltb_spec (length (to_le_bytes PREFIX (blen p) ++ p)) LENGTH_PREFIX_BYTES) as [Hs|_];
    [rewrite length_app in Hs; lia|].
  rewrite from_to_le_bytes. rewrite Z.mod_small by (pose proof (blen_nonneg p); change (8 * Z.of_nat PREFIX) with 32; lia).
  destruct (Z.ltb_spec max (blen p)); [lia|].
  destruct (Z.ltb_spec (blen (to_le_bytes PREFIX (blen p) ++ p)) (Z.of_nat LENGTH_PREFIX_BYTES + blen p)) as [Hs|_].
  { rewrite !blen_app in Hs. unfold blen in Hs at 1. lia. }
  by rewrite to_nat_blen, firstn_all, drop_all.
Qed.

(** What a line comes to: skipped over the bound, and its one trailing [CR] removed otherwise. *)
Definition line_result (msg : bytes) : list (FrameError.FrameError + bytes) :=
  if max <? blen msg then [inl FrameError.OversizeSkipped] else one_line (strip_cr msg).

Lemma position_lf_line msg rest : position_lf msg = None -> position_lf (msg ++ LF :: rest) = Some (length msg).
Proof using Type. intros H. rewrite position_lf_app, H. cbn [position_lf]. rewrite bool_decide_true by done. cbn. f_equal. lia. Qed.

Lemma line_read msg rest :
  position_lf msg = None -> policy m = Mode.DrainToNextLine \/ blen msg <= max ->
  read_all m max Framing.NonTransparent false (line msg ++ rest) =
  after (line_result msg) (read_all m max Framing.NonTransparent false rest).
Proof using Hmax.
  intros Hp Hb. rewrite (read_all_eq _ _ Hmax). cbn [turn]. unfold line, line_turn, line_result. rewrite <- app_assoc.
  cbn [app]. rewrite (position_lf_line _ _ Hp). change (Z.of_nat (length msg)) with (blen msg).
  rewrite take_app_length, (cons_middle LF msg rest), app_assoc, (drop_app_length' (msg ++ [LF])) by (rewrite length_app; cbn; lia).
  destruct (Z.ltb_spec max (blen msg)); [destruct Hb as [->|]; [done|lia]|].
  by rewrite line_out_one_line.
Qed.

Lemma read_lines lines rest :
  Forall (fun l => position_lf l = None) lines -> policy m = Mode.DrainToNextLine ->
  read_all m max Framing.NonTransparent false (concat (line <$> lines) ++ rest) =
  after (concat (line_result <$> lines)) (read_all m max Framing.NonTransparent false rest).
Proof using Hmax.
  intros Hl Hp. induction Hl as [|l lines Hl _ IH]; cbn [fmap list_fmap concat app]; [by rewrite after_nil|].
  rewrite <- app_assoc, line_read, IH, after_after by (done || by left). done.
Qed.

(** An unfinished line within the bound is held. *)
Lemma rest_read rest :
  position_lf rest = None -> blen rest <= max -> read_all m max Framing.NonTransparent false rest = ([], Some (false, rest)).
Proof using Hmax.
  intros Hr Hb. rewrite (read_all_eq _ _ Hmax). cbn [turn]. unfold line_turn. rewrite Hr.
  destruct (Z.ltb_spec max (blen rest)); [lia|done].
Qed.

(** A line that needs no repair: not empty, within the bound, with no [LF] and no trailing [CR]. *)
Definition plain_line (msg : bytes) : Prop :=
  msg <> [] /\ position_lf msg = None /\ strip_cr msg = msg /\ blen msg <= max.

Lemma line_whole : takes_whole Framing.NonTransparent line plain_line.
Proof using Type.
  intros msg (Hne & Hp & Hs & Hb). unfold line. split.
  - cbn [turn]. unfold line_turn. rewrite (position_lf_line msg [] Hp), take_app_length, drop_ge by (rewrite length_app; cbn; lia).
    destruct (Z.ltb_spec max (Z.of_nat (length msg))); [unfold blen in Hb; lia|]. unfold line_out. rewrite Hs. by destruct msg.
  - intros p [c Hc] (_ & _ & Hn & Hl & _). assert (blen p <= blen msg); [|lia]. unfold blen.
    assert (Hlen : length (msg ++ [LF]) = length (p ++ c)) by (by rewrite Hc). rewrite !length_app in Hlen. cbn in Hlen.
    destruct c as [|b c]; cbn in Hlen; [|lia]. exfalso. rewrite app_nil_r in Hc. by rewrite <- Hc, (position_lf_line msg [] Hp) in Hn.
Qed.

Lemma whole_read fr enc ok msg rest :
  takes_whole fr enc ok -> ok msg ->
  read_all m max fr false (enc msg ++ rest) = after [inr msg] (read_all m max fr false rest).
Proof using Hmax.
  intros Ht Hm. destruct (Ht msg Hm) as [Hg Hn]. rewrite (read_all_eq _ _ Hmax).
  destruct (turn_go _ _ _ _ _ rest _ _ _ Hg) as [->|He]; [done|]. by apply Hn in He.
Qed.

(** Part of a message is waited on. *)
Lemma part_waits fr enc ok msg p c :
  takes_whole fr enc ok -> ok msg -> enc msg = p ++ c -> c <> [] ->
  read_all m max fr false p = ([], Some (false, p)).
Proof using Hmax.
  intros Ht Hm He Hc. destruct (Ht msg Hm) as [Hg Hn]. rewrite He in Hg. specialize (Hn p ltac:(rewrite He; by apply prefix_app_r)).
  rewrite (read_all_eq _ _ Hmax). destruct (turn m max fr false p) as [d' p'|o d' p'|e] eqn:Hp.
  - pose proof Hp as Hk. apply turn_wait_keeps in Hk as [[-> ->]|(_ & ? & _)]; done.
  - destruct (turn_go _ _ _ _ _ c _ _ _ Hp) as [Hg'|]; [|done]. rewrite Hg in Hg'. injection Hg' as _ _ Hb.
    symmetry in Hb. by apply app_eq_nil in Hb as [_ ?].
  - by rewrite (turn_stop _ _ _ _ _ c _ Hp) in Hg.
Qed.

(** A stream cut anywhere is read as the messages before the cut, and what follows them is held. *)
Lemma read_cut fr enc ok msgs wire :
  takes_whole fr enc ok ->
  Forall ok msgs -> wire `prefix_of` concat (enc <$> msgs) ->
  exists k p, wire = concat (enc <$> take k msgs) ++ p /\
    (forall msg, msgs !! k = Some msg -> exists c, enc msg = p ++ c /\ c <> []) /\
    read_all m max fr false wire = (inr <$> take k msgs, Some (false, p)).
Proof using Hmax.
  intros Ht Hok. revert wire. induction Hok as [|msg msgs Hm Hms IH]; intros wire; cbn [fmap list_fmap concat].
  - intros ->%prefix_nil_inv. exists 0%nat, []. split; [done|split; [done|]]. by apply read_all_nil.
  - intros [c Hc].
    assert ((exists k, wire = enc msg ++ k /\ k `prefix_of` concat (enc <$> msgs)) \/ exists k, enc msg = wire ++ k /\ k <> [])
      as [(k & -> & Hk)|(k & Hk & Hne)].
    { apply app_eq_inv in Hc as [(k & Hw & Hk)|(k & -> & Hk)]; [|left; exists k; split; [done|by exists c]].
      destruct k as [|b k]; [|right; by exists (b :: k)]. left. exists []. rewrite !app_nil_r in *. split; [done|apply prefix_nil]. }
    + destruct (IH k Hk) as (i & p & -> & Hp & Hr). exists (S i), p. cbn [take fmap list_fmap concat].
      rewrite (whole_read _ _ _ _ _ Ht Hm), Hr, <- app_assoc. done.
    + exists 0%nat, wire. split; [done|split]; [intros ? [= <-]; by exists k|]. by eapply part_waits.
Qed.
End ReadBack.

(** A listener reads a stream cut anywhere as the messages that are whole, and holds part of the next. *)
Lemma stream_cut_read m max fr enc ok msgs chunks :
  0 <= max -> takes_whole m max fr enc ok -> Forall ok msgs -> concat chunks `prefix_of` concat (enc <$> msgs) ->
  (forall first bs, concat chunks = first :: bs -> start_framing m first = fr) ->
  exists k f, feed_all chunks (framer_new m max) = (inr <$> take k msgs, false, f) /\
    concat chunks = concat (enc <$> take k msgs) ++ buf f /\
    (forall msg, msgs !! k = Some msg -> exists c, enc msg = buf f ++ c /\ c <> []).
Proof.
  intros Hm Ht Hok Hp Hfr. destruct (read_cut m max Hm fr enc ok msgs _ Ht Hok Hp) as (k & p & Hw & Hn & Hr).
  pose proof (feed_all_reads m max fr chunks Hm Hfr) as Ha. destruct (feed_all chunks _) as [[events closed] f].
  rewrite Hr in Ha. destruct closed; [done|]. injection Ha as He _ ->. symmetry in He. apply outcome_frames in He as ->.
  by exists k, f.
Qed.

(** What is held after a whole stream is nothing. *)
Lemma whole_cut (enc : bytes -> bytes) (msgs : list bytes) k p :
  concat (enc <$> msgs) = concat (enc <$> take k msgs) ++ p ->
  (forall msg, msgs !! k = Some msg -> exists c, enc msg = p ++ c /\ c <> []) ->
  take k msgs = msgs /\ p = [].
Proof.
  intros Hc Hn. rewrite <- (take_drop k msgs) in Hc at 1. rewrite fmap_app, concat_app in Hc. apply app_inv_head in Hc.
  destruct (msgs !! k) as [msg|] eqn:Hk.
  - destruct (Hn msg eq_refl) as (c & He & Hne). rewrite (drop_S msgs msg k Hk) in Hc. cbn [fmap list_fmap concat] in Hc.
    rewrite He in Hc. apply (f_equal length) in Hc. rewrite !length_app in Hc. destruct c; [done|]. cbn in Hc. lia.
  - apply lookup_ge_None in Hk. rewrite drop_ge in Hc by done. cbn in Hc. by rewrite take_ge.
Qed.

Lemma concat_frames {M} (frame : MessageBuf M -> bytes) enc bufs :
  (forall b, frame b = concat (enc <$> iter b)) -> concat (frame <$> bufs) = concat (enc <$> concat (iter <$> bufs)).
Proof.
  intros Hf. induction bufs as [|b bufs IH]; [done|]. cbn [fmap list_fmap concat]. by rewrite fmap_app, concat_app, IH, Hf.
Qed.

Lemma octets_first msg first bs : octets msg = first :: bs -> countable (blen msg) msg -> is_ascii_digit first = true.
Proof.
  unfold octets, to_string. intros Ho [Hb Hn].
  destruct (digits_of_spec 8 20 (blen msg) []) as (b & ds & Hd & _ & Hf & _); [lia|cbn; lia|]. rewrite Hd in Ho.
  injection Ho as <- _. apply Forall_cons in Hf as [Hf _]. by destruct (is_ascii_digit b).
Qed.

(** A syslog_out stream, cut anywhere, under a listener that tells its framing from its first byte. *)
Lemma octet_counted_stream_read max bufs chunks :
  let msgs := concat (iter <$> bufs) in
  0 <= max -> Forall (countable max) msgs -> concat chunks `prefix_of` concat (frame_octet_counting <$> bufs) ->
  exists k f, feed_all chunks (framer_new Mode.Rfc6587Auto max) = (inr <$> take k msgs, false, f) /\
    concat chunks = concat (octets <$> take k msgs) ++ buf f /\
    (forall msg, msgs !! k = Some msg -> exists c, octets msg = buf f ++ c /\ c <> []).
Proof.
  intros msgs Hm Hok Hp. rewrite (concat_frames _ octets) in Hp by apply frame_octet_counting_concat. fold msgs in Hp.
  eapply stream_cut_read; [done|apply octets_whole|done|done|]. intros first bs Hc. rewrite Hc in Hp. cbn [start_framing].
  destruct Hok as [|msg msgs' [Hb Hn] _]; [by apply prefix_nil_inv in Hp|]. cbn [fmap list_fmap concat] in Hp.
  destruct Hp as [c Hp]. destruct (octets msg) as [|b o] eqn:Ho.
  { by destruct (digits_of 20 (blen msg) []) eqn:Hd; unfold octets, to_string in Ho; rewrite Hd in Ho. }
  injection Hp as <- _. rewrite (octets_first _ _ _ Ho); [done|]. split; [lia|done].
Qed.

(** A statsd_out stream, cut anywhere, under a listener of lines. *)
Lemma line_stream_read oversize max bufs chunks :
  let msgs := concat (iter <$> bufs) in
  0 <= max -> Forall (plain_line max) msgs -> concat chunks `prefix_of` concat (build_lf_frame <$> bufs) ->
  exists k f, feed_all chunks (framer_new (Mode.Lines oversize) max) = (inr <$> take k msgs, false, f) /\
    concat chunks = concat (line <$> take k msgs) ++ buf f /\
    (forall msg, msgs !! k = Some msg -> exists c, line msg = buf f ++ c /\ c <> []).
Proof.
  intros msgs Hm Hok Hp. rewrite (concat_frames _ line) in Hp by apply build_lf_frame_concat.
  by eapply stream_cut_read; [|apply line_whole|..].
Qed.

(** C28: under [Lines] with over-long lines drained, whatever reads a stream comes in,
    each line within the bound is delivered without its one trailing [CR] unless that leaves nothing,
    each over it is reported skipped once, in order, and the unfinished line is held. *)
Theorem lines_framed max lines rest chunks :
  0 <= max -> Forall (fun l => position_lf l = None) lines -> position_lf rest = None -> blen rest <= max ->
  concat chunks = concat (line <$> lines) ++ rest ->
  exists events f, feed_all chunks (framer_new (Mode.Lines Mode.DrainToNextLine) max) = (events, false, f) /\
    outcome <$> events = concat (line_result max <$> lines) /\ buf f = rest /\ draining f = false.
Proof.
  intros Hm Hl Hr Hb Hc. pose proof (feed_all_reads (Mode.Lines Mode.DrainToNextLine) max Framing.NonTransparent chunks Hm
    ltac:(done)) as Ha. destruct (feed_all chunks _) as [[events closed] f]. rewrite Hc in Ha.
  rewrite (read_lines _ _ Hm), (rest_read _ _ Hm) in Ha by (done || by left). unfold after in Ha. cbn [fst snd] in Ha.
  rewrite app_nil_r in Ha. destruct closed; [done|]. injection Ha as He Hd Hbf. by exists events, f.
Qed.

(** ** Packets *)

(** What [lines] are packed into: [open] is the packet still open. *)
Fixpoint packets (max_packet_bytes : Z) (open : option bytes) (lines : list bytes) : list bytes :=
  match lines with
  | [] => option_list open
  | msg :: lines =>
      match open with
      | Some p =>
          if blen p + 1 + blen msg <=? max_packet_bytes then packets max_packet_bytes (Some (p ++ [LF] ++ msg)) lines
          else p :: packets max_packet_bytes (Some msg) lines
      | None => packets max_packet_bytes (Some msg) lines
      end
  end.

(** A frame in the making: the packets closed, and the one open behind its placeholder. *)
Definition in_making (closed : bytes) (open : option bytes) : bytes * option nat :=
  match open with
  | Some p => (closed ++ replicate PREFIX (z2b 0) ++ p, Some (length closed))
  | None => (closed, None)
  end.

Lemma close_packet_making closed p : close_packet (length closed) (closed ++ replicate PREFIX (z2b 0) ++ p) = closed ++ packet p.
Proof.
  unfold close_packet. rewrite take_app_length, (app_assoc closed (replicate _ _)), (drop_app_length' (closed ++ _)) by
    (by rewrite length_app, length_replicate).
  rewrite !length_app, length_replicate. unfold packet, blen. repeat f_equal. lia.
Qed.

Lemma packet_step_making cap closed open msg :
  packet_step cap (in_making closed open) msg =
  match open with
  | Some p =>
      if blen p + 1 + blen msg <=? cap then in_making closed (Some (p ++ [LF] ++ msg))
      else in_making (closed ++ packet p) (Some msg)
  | None => in_making closed (Some msg)
  end.
Proof.
  destruct open as [p|]; [|done]. unfold packet_step, in_making. rewrite !length_app, length_replicate.
  replace (Z.of_nat (length closed + (PREFIX + length p) - length closed - PREFIX)) with (blen p) by (unfold blen; lia).
  destruct (blen p + 1 + blen msg <=? cap); [by rewrite <- !app_assoc|]. by rewrite close_packet_making, length_app.
Qed.

Definition finished (st : bytes * option nat) : bytes :=
  match st with (frame, Some start) => close_packet start frame | (frame, None) => frame end.

Lemma packets_built cap lines : forall closed open,
  finished (foldl (packet_step cap) (in_making closed open) lines) = closed ++ concat (packet <$> packets cap open lines).
Proof.
  induction lines as [|msg lines IH]; intros closed open; cbn [foldl packets].
  - destruct open as [p|]; cbn [in_making finished option_list fmap list_fmap concat]; [|by rewrite app_nil_r].
    rewrite close_packet_making. cbn. by rewrite app_nil_r.
  - rewrite packet_step_making. destruct open as [p|]; [|apply IH]. destruct (_ <=? cap); [apply IH|].
    cbn [fmap list_fmap concat]. by rewrite IH, <- app_assoc.
Qed.

Lemma build_length_prefixed_concat cap b :
  build_length_prefixed_frame cap b = concat (packet <$> packets cap None (iter b)).
Proof. apply (packets_built cap (iter b) [] None). Qed.

(** Lines joined by [LF]s, none after the last. *)
Definition joined (group : list bytes) : bytes :=
  match group with [] => [] | msg :: msgs => foldl (fun p x => p ++ [LF] ++ x) msg msgs end.

Lemma joined_snoc group msg : group <> [] -> joined (group ++ [msg]) = joined group ++ [LF] ++ msg.
Proof. destruct group as [|g group]; [done|]. intros _. cbn [app joined]. by rewrite foldl_app. Qed.

(** A packet is whole lines: none is cut or out of place, and none is over the cap. *)
Lemma packets_groups cap lines : forall open,
  Forall (fun l => blen l <= cap) lines -> (open <> [] -> blen (joined open) <= cap) ->
  exists groups, concat groups = open ++ lines /\
    packets cap (match open with [] => None | _ => Some (joined open) end) lines = joined <$> groups /\
    Forall (fun g => g <> [] /\ blen (joined g) <= cap) groups.
Proof.
  induction lines as [|msg lines IH]; intros open Hl Ho; cbn [packets].
  - rewrite app_nil_r. destruct open as [|g open]; [by exists []|]. exists [g :: open]. cbn [concat]. rewrite app_nil_r.
    split; [done|split; [done|]]. repeat constructor; [done|by apply Ho].
  - apply Forall_cons in Hl as [Hm Hl]. destruct open as [|g open]; [by apply (IH [msg])|].
    destruct (Z.leb_spec (blen (joined (g :: open)) + 1 + blen msg) cap) as [Hc|Hc].
    + destruct (IH ((g :: open) ++ [msg]) Hl) as (groups & Hg & Hp & Hf).
      { intros _. rewrite joined_snoc, !blen_app by done. change (blen [LF]) with 1. lia. }
      exists groups. rewrite joined_snoc in Hp by done. split; [by rewrite Hg, <- app_assoc|done].
    + destruct (IH [msg] Hl ltac:(done)) as (groups & Hg & Hp & Hf). exists ((g :: open) :: groups).
      cbn [concat fmap list_fmap]. rewrite Hg, <- Hp. split; [done|split; [done|]]. constructor; [split; [done|by apply Ho]|done].
Qed.

(** C29: what statsd_out writes to a Unix stream comes back: any part of the stream,
    in any reads, is delivered as the packets whole in it and the rest is held; the packets are the
    batches' lines in order, none cut, joined by [LF] and within the cap. *)
Theorem packed_stream_read cap max bufs chunks :
  0 <= cap <= max -> cap < 2 ^ 32 -> Forall (fun b => Forall (fun msg => blen msg <= cap) (iter b)) bufs ->
  concat chunks `prefix_of` concat (build_length_prefixed_frame cap <$> bufs) ->
  exists groups k f,
    concat groups = concat (iter <$> bufs) /\ Forall (fun g => g <> [] /\ blen (joined g) <= cap) groups /\
    feed_all chunks (framer_new Mode.LengthPrefixedLe max) = (inr <$> (joined <$> take k groups), false, f) /\
    concat chunks = concat (packet <$> (joined <$> take k groups)) ++ buf f /\
    (forall g, groups !! k = Some g -> exists c, packet (joined g) = buf f ++ c /\ c <> []).
Proof.
  intros Hc Hw Hl Hp.
  assert (exists groups, concat groups = concat (iter <$> bufs) /\ Forall (fun g => g <> [] /\ blen (joined g) <= cap) groups /\
    concat (build_length_prefixed_frame cap <$> bufs) = concat (packet <$> (joined <$> groups))) as (groups & Hg & Hf & He).
  { clear Hp. induction Hl as [|b bufs Hb _ IH]; [by exists []|]. destruct IH as (gs & Hg & Hf & He).
    destruct (packets_groups cap (iter b) [] Hb ltac:(done)) as (g & Hgb & Hpb & Hfb). exists (g ++ gs).
    cbn [fmap list_fmap concat]. rewrite He, build_length_prefixed_concat, Hpb, !fmap_app, !concat_app, Hgb, Hg.
    split; [done|split; [by apply Forall_app|done]]. }
  rewrite He in Hp. destruct (stream_cut_read Mode.LengthPrefixedLe max Framing.LengthPrefixedLe packet (fits_prefix max)
    (joined <$> groups) chunks) as (k & f & Hr & Hw' & Hn); [lia|apply packet_whole| |done|done|].
  { apply Forall_fmap. eapply Forall_impl; [done|]. cbn. intros g [_ Hg']. split; lia. }
  exists groups, k, f. rewrite <- !fmap_take in *. split_and!; try done. intros g Hgk. apply Hn. by rewrite list_lookup_fmap, Hgk.
Qed.

(** ** Samples *)

Definition msg_a : bytes := [z2b 97; z2b 98].
Definition msg_b : bytes := [z2b 99].
Definition sample_buf : MessageBuf unit := filled [(msg_a, tt); (msg_b, tt)].

Lemma lines_framed_witness : exists events f,
  feed_all [[z2b 97]; z2b 98 :: LF :: [z2b 99; CR; LF]] (framer_new (Mode.Lines Mode.DrainToNextLine) 2) = (events, false, f) /\
  outcome <$> events = concat (line_result 2 <$> [msg_a; msg_b ++ [CR]]) /\ buf f = [] /\ draining f = false.
Proof.
  apply (lines_framed 2 [msg_a; msg_b ++ [CR]] []); [lia|repeat constructor; vm_compute; reflexivity|reflexivity|done|reflexivity].
Defined.

Lemma packed_stream_read_witness : exists groups k f,
  concat groups = concat (iter <$> [sample_buf]) /\ Forall (fun g => g <> [] /\ blen (joined g) <= 3) groups /\
  feed_all [take 7 (build_length_prefixed_frame 3 sample_buf)] (framer_new Mode.LengthPrefixedLe 16)
    = (inr <$> (joined <$> take k groups), false, f) /\
  concat [take 7 (build_length_prefixed_frame 3 sample_buf)] = concat (packet <$> (joined <$> take k groups)) ++ buf f /\
  (forall g, groups !! k = Some g -> exists c, packet (joined g) = buf f ++ c /\ c <> []).
Proof.
  apply (packed_stream_read 3 16 [sample_buf]); [lia|lia|repeat constructor; vm_compute; discriminate|].
  cbn [fmap list_fmap concat]. rewrite !app_nil_r. apply prefix_take.
Defined.
