(* ===== verification/PooledStream.v ===== *)
(** * The pooled stream of the stream sinks

    crates/logit-outputs/src/stream.rs, which syslog_out, statsd_out and graphite_out send their
    frames through: one connection kept between batches, the probe of a reused one, the tail of a
    frame a stall cut, the one retry, the fault each outcome is given, and the count of the bytes an
    abandoned connection lost. What the peer, the kernel and the clock decide is an argument ([Env]);
    the bytes each connection accepted are kept in [wires]. A [None] result is a future dropped at
    one of its awaits. *)

From S2P Require Import Prelude Output.

(** ** What the surroundings answer *)

(** A reused connection's probe; [AlertRead] is the probe's error, a TLS alert. *)
Inductive PendingClose := Open | Eof | Bytes | AlertRead.

Inductive ReadAnswer := Elapsed | ReadEof | ReadData | ReadError.

(** A fresh connection: the connect, the socket option, whether the socket has a descriptor, and with
    TLS the handshake (whether it is TLS 1.3 and the server asked for a certificate). *)
Record TlsAnswer := mkTlsAnswer { tls13 : bool; cert_requested : bool }.
Record DialAnswer := mkDialAnswer { connected : bool; nodelay_set : bool; descriptor : bool; handshaken : option TlsAnswer }.

(** A [write] that failed may under TLS have put part of what it was given on the wire. *)
Inductive WriteAnswer := Accepted (n : nat) | WriteError (left_anyway : nat) | WriteElapsed.
Inductive FlushAnswer := Flushed | FlushError | FlushElapsed.

(** The answer to each step, by its number, and whether the call's future is dropped there. *)
Record Env := mkEnv {
  probe_at : nat -> PendingClose;
  dial_at : nat -> DialAnswer;
  read_at : nat -> ReadAnswer;
  write_at : nat -> bytes -> WriteAnswer;
  flush_at : nat -> FlushAnswer;
  send_queue_at : nat -> option Z;
  tcp_peer_answering_at : nat -> option bool;
  dropped_at : nat -> bool
}.

(** ** State *)

(** A stream's accepted bytes and the offsets of frames answered [Ambiguous]. *)
Record Sent := mkSent { total : Z; ambiguous : list (Z * Z) }.

Record Conn := mkConn { stream : nat; tcp_fd : bool; pending : option bytes; sent : Sent }.

Record PooledStream := mkPooledStream { conn : option Conn; has_connected_once : bool; kernel_reads_reported : bool }.

Inductive Target := Tcp (tls : bool) | Unix.
Record Dial := mkDial { target : Target; has_accept_timeout : bool; nodelay : bool }.

(** The sink with what it counted and what its connections carried. *)
Record World := mkWorld {
  clock : nat;
  pool : PooledStream;
  asks_for_client_cert : bool;
  wires : list bytes;
  reconnects : Z;
  bytes_dropped : Z
}.

Definition is_tls (d : Dial) : bool := match target d with Tcp tls => tls | Unix => false end.

(** ** A call: state, and [None] when its future was dropped *)

Definition act (A : Type) : Type := World -> option A * World.
Definition ret {A} (x : A) : act A := fun w => (Some x, w).
Definition bind {A B} (m : act A) (k : A -> act B) : act B :=
  fun w => match m w with (Some x, w) => k x w | (None, w) => (None, w) end.

Declare Scope act_scope.
Delimit Scope act_scope with act.
Notation "'let*' x := m 'in' k" := (bind m (fun x => k))
  (at level 200, x pattern, m at level 100, k at level 200, right associativity) : act_scope.
Open Scope act_scope.

Definition put_conn (c : option Conn) : act unit := fun w =>
  (Some tt, mkWorld (clock w) (mkPooledStream c (has_connected_once (pool w)) (kernel_reads_reported (pool w)))
    (asks_for_client_cert w) (wires w) (reconnects w) (bytes_dropped w)).

(** [self.conn.take()]. *)
Definition take_conn : act (option Conn) := fun w => let c := conn (pool w) in let '(_, w) := put_conn None w in (Some c, w).

Definition tick (w : World) : World :=
  mkWorld (S (clock w)) (pool w) (asks_for_client_cert w) (wires w) (reconnects w) (bytes_dropped w).

Definition report_unavailable : act unit := fun w =>
  (Some tt, mkWorld (clock w) (mkPooledStream (conn (pool w)) (has_connected_once (pool w)) true) (asks_for_client_cert w)
    (wires w) (reconnects w) (bytes_dropped w)).

Definition count_lost (n : Z) : act unit := fun w =>
  (Some tt, mkWorld (clock w) (pool w) (asks_for_client_cert w) (wires w) (reconnects w) (bytes_dropped w + n)).

Definition on_wire (id : nat) (bs : bytes) (w : World) : World :=
  mkWorld (clock w) (pool w) (asks_for_client_cert w) (alter (fun wire => wire ++ bs) id (wires w)) (reconnects w) (bytes_dropped w).

(** ** What a connection sent *)

Abbreviation WRITE_CHUNK := (64 * 1024)%Z.
Abbreviation TLS_RECORD_OVERHEAD := (29)%Z.
Abbreviation TLS_MAX_FRAGMENT := (16384)%Z.
Abbreviation TLS_SESSION_BUFFER := (64 * 1024)%Z.

Definition div_ceil (a b : Z) : Z := (a + b - 1) / b.

Definition wrote (n : nat) (s : Sent) : Sent := mkSent (total s + Z.of_nat n) (ambiguous s).

Fixpoint set_last_end (e : Z) (rs : list (Z * Z)) : list (Z * Z) :=
  match rs with [] => [] | [(start, _)] => [(start, e)] | r :: rs => r :: set_last_end e rs end.

Definition wrote_tail (n : nat) (s : Sent) : Sent :=
  let s := wrote n s in mkSent (total s) (set_last_end (total s) (ambiguous s)).

Definition in_queue (total : Z) (range : Z * Z) (queued : Z) (tls : bool) : bool :=
  saturating_sub total range.2 <? queued + (if tls then TLS_SESSION_BUFFER else 0).

Definition add_ambiguous (range : Z * Z) (queued : option Z) (tls : bool) (s : Sent) : Sent :=
  mkSent (total s)
    (match queued with
     | Some queued => List.filter (fun range => in_queue (total s) range queued tls) (ambiguous s)
     | None => []
     end ++ [range]).

Definition overlap (total queued : Z) (tls : bool) (range : Z * Z) : Z :=
  if tls then
    let len := range.2 - range.1 in
    let records := div_ceil len TLS_MAX_FRAGMENT + div_ceil len WRITE_CHUNK + 1 in
    len + records * TLS_RECORD_OVERHEAD
  else saturating_sub range.2 (Z.max range.1 (saturating_sub total queued)).

Definition zsum_with {A} (f : A -> Z) (l : list A) : Z := foldr (fun x n => f x + n) 0 l.

Definition unaccounted (queued : Z) (tls : bool) (s : Sent) : Z :=
  saturating_sub queued
    (zsum_with (overlap (total s) queued tls) (List.filter (fun range => in_queue (total s) range queued tls) (ambiguous s))).

Definition with_pending (p : option bytes) (c : Conn) : Conn := mkConn (stream c) (tcp_fd c) p (sent c).
Definition with_sent (s : Sent) (c : Conn) : Conn := mkConn (stream c) (tcp_fd c) (pending c) s.

(** ** Dialing *)

Definition await_acceptance (read : ReadAnswer) : option Fault.Fault :=
  match read with
  | Elapsed => None
  | ReadData => Some Fault.Clean
  | ReadEof | ReadError => Some Fault.Refused
  end.

(** Whether the server has ever asked for a client certificate, this handshake included. *)
Definition record_cert_request (requested : bool) : act bool := fun w =>
  (Some (asks_for_client_cert w || requested), mkWorld (clock w) (pool w) (asks_for_client_cert w || requested) (wires w) (reconnects w) (bytes_dropped w)).

(** A new connection's place in [wires]. *)
Definition opened (fd : bool) : act Conn := fun w =>
  (Some (mkConn (length (wires w)) fd None (mkSent 0 [])),
   mkWorld (clock w) (mkPooledStream (conn (pool w)) true (kernel_reads_reported (pool w))) (asks_for_client_cert w)
     (wires w ++ [[]]) (if has_connected_once (pool w) then reconnects w + 1 else reconnects w) (bytes_dropped w)).

Section Driver.
Context (env : Env).

(** An await. *)
Definition asks {A} (answer : nat -> A) : act A := fun w =>
  (if dropped_at env (clock w) then None else Some (answer (clock w)), tick w).

(** The connection's descriptor, or the fault of a dial that failed. *)
Definition connect_tcp_fd (d : Dial) (a : DialAnswer) : act (Fault.Fault + bool) :=
  if negb (connected a) then ret (inl Fault.Clean)
  else
    match target d with
    | Unix => ret (inr false)
    | Tcp tls =>
        if nodelay d && negb (nodelay_set a) then ret (inl Fault.Clean)
        else if negb tls then ret (inr (descriptor a))
        else
          match handshaken a with
          | None => ret (inl Fault.Clean)
          | Some t =>
              let* asked := record_cert_request (cert_requested t) in
              if tls13 t && asked && has_accept_timeout d then
                let* read := asks (read_at env) in
                ret match await_acceptance read with Some fault => inl fault | None => inr (descriptor a) end
              else ret (inr (descriptor a))
          end
    end.

Definition dial (d : Dial) : act (Fault.Fault + Conn) :=
  let* a := asks (dial_at env) in
  let* fd := connect_tcp_fd d a in
  match fd with
  | inl fault => ret (inl fault)
  | inr fd => let* c := opened fd in ret (inr c)
  end.

(** ** Writing *)

Definition write (id : nat) (chunk : bytes) : act WriteAnswer := fun w =>
  if dropped_at env (clock w) then (None, tick w)
  else
    let answer := write_at env (clock w) chunk in
    (Some answer, match answer with
                  | Accepted n => on_wire id (take n chunk) (tick w)
                  | WriteError n => on_wire id (take n chunk) (tick w)
                  | WriteElapsed => tick w
                  end).

Inductive Written := Complete | Stalled | Failed.

(** [write_counting]: the result, and the bytes accepted. *)
Fixpoint write_chunks (fuel : nat) (id : nat) (bs : bytes) (done : nat) : act (Written * nat) :=
  match fuel with
  | O => ret (Failed, done)
  | S fuel =>
      if (done <? length bs)%nat then
        let* a := write id (take (Z.to_nat WRITE_CHUNK) (drop done bs)) in
        match a with
        | WriteElapsed => ret (Stalled, done)
        | WriteError _ | Accepted O => ret (Failed, done)
        | Accepted n => write_chunks fuel id bs (done + n)
        end
      else
        let* f := asks (flush_at env) in
        ret (match f with Flushed => Complete | FlushError => Failed | FlushElapsed => Stalled end, done)
  end.

Definition write_counting (id : nat) (bs : bytes) : act (Written * nat) := write_chunks (S (length bs)) id bs 0.

(** ** Ending a connection *)

Definition queued (c : Conn) : act (option Z) := fun w => if tcp_fd c then (Some (send_queue_at env (clock w)), tick w) else (Some None, w).

Definition abandon (c : Conn) (tls : bool) : act unit :=
  if tcp_fd c then
    let* q := queued c in
    match q with
    | Some q => let lost := unaccounted q tls (sent c) in if 0 <? lost then count_lost lost else ret tt
    | None => report_unavailable
    end
  else ret tt.

(** The connection is pooled unless its TCP peer has stopped answering. *)
Definition keep_stalled (c : Conn) (fault : Fault.Fault) : act (option Fault.Fault) :=
  let* answering :=
    if tcp_fd c then
      let* a := (fun w => (Some (tcp_peer_answering_at env (clock w)), tick w)) in
      match a with Some b => ret b | None => let* _ := report_unavailable in ret true end
    else ret true in
  let* _ := if answering then put_conn (Some c) else ret tt in
  ret (Some fault).

(** ** One attempt *)

(** The pooled connection, if its probe finds it open, or a fresh one. *)
Definition acquire (d : Dial) : act (Fault.Fault + Conn) :=
  let* c := take_conn in
  match c with
  | None => dial d
  | Some c =>
      let* probed := (fun w => (Some (probe_at env (clock w)), tick w)) in
      match probed with
      | Open => ret (inr c)
      | Eof | Bytes => let* _ := abandon c (is_tls d) in dial d
      | AlertRead => let* _ := abandon c (is_tls d) in ret (inl Fault.Refused)
      end
  end.

(** The tail an earlier attempt left goes first; [inl] is the attempt's result. *)
Definition finish_pending (d : Dial) (c : Conn) : act (option Fault.Fault + Conn) :=
  match pending c with
  | None => ret (inr c)
  | Some tail =>
      let c := with_pending None c in
      let* outcome := write_counting (stream c) tail in
      let '(result, written) := outcome in
      let c := with_sent (wrote_tail written (sent c)) c in
      match result with
      | Complete => ret (inr c)
      | Stalled => let* r := keep_stalled (with_pending (Some (drop written tail)) c) Fault.Clean in ret (inl r)
      | Failed =>
          let* _ := abandon c (is_tls d) in
          let* fresh := dial d in
          match fresh with inl fault => ret (inl (Some fault)) | inr c => ret (inr c) end
      end
  end.

(** The frame itself; [retry] is the loop's next turn, absent once [retried]. *)
Definition write_own_frame (d : Dial) (frame : bytes) (retry : option (act (option Fault.Fault))) (c : Conn) : act (option Fault.Fault) :=
  let tls := is_tls d in
  let start := total (sent c) in
  let* outcome := write_counting (stream c) frame in
  let '(result, written) := outcome in
  let c := with_sent (wrote written (sent c)) c in
  match result with
  | Complete => let* _ := put_conn (Some c) in ret None
  | Stalled =>
      if (written =? 0)%nat then keep_stalled c Fault.Clean
      else
        let* q := queued c in
        let c := with_sent (add_ambiguous (start, total (sent c)) q tls (sent c)) c in
        keep_stalled (with_pending (Some (drop written frame)) c) Fault.Ambiguous
  | Failed =>
      let accepted_nothing := (written =? 0)%nat && negb tls in
      let reached := if tls then Z.min (Z.of_nat written + WRITE_CHUNK) (blen frame) else Z.of_nat written in
      let s := sent c in
      let* _ := abandon (with_sent (mkSent (total s) (ambiguous s ++ [(start, start + reached)])) c) tls in
      match accepted_nothing, retry with
      | true, Some next => next
      | true, None => ret (Some Fault.Clean)
      | false, _ => ret (Some Fault.Ambiguous)
      end
  end.

Definition attempt_once (d : Dial) (frame : bytes) (retry : option (act (option Fault.Fault))) : act (option Fault.Fault) :=
  let* c := acquire d in
  match c with
  | inl fault => ret (Some fault)
  | inr c =>
      let* ready := finish_pending d c in
      match ready with inl result => ret result | inr c => write_own_frame d frame retry c end
  end.

(** The loop runs at most twice: its one [continue] sets [retried]. *)
Definition attempt (d : Dial) (frame : bytes) : act (option Fault.Fault) :=
  attempt_once d frame (Some (attempt_once d frame None)).

(** The shutdown flush; [false] is an error. *)
Definition pool_flush : act bool := fun w =>
  match conn (pool w) with
  | None => (Some true, w)
  | Some c =>
      match write_counting (stream c) (default [] (pending c)) (put_conn (Some (with_pending None c)) w).2 with
      | (None, w) => (None, w)
      | (Some (Complete, _), w) => (Some true, w)
      | (Some (_, _), w) => (Some false, (put_conn None w).2)
      end
  end.
End Driver.

(** ** What a write leaves behind *)

(** What the surroundings are known to do: a write accepts no more than it is given, and a plaintext
    write that failed accepted nothing. *)
Class EnvOk (env : Env) (tls : bool) := {
  accepts_within t bs n : write_at env t bs = Accepted n -> (n <= length bs)%nat;
  error_accepts_nothing t bs n : tls = false -> write_at env t bs = WriteError n -> n = 0%nat
}.

Definition grow (id : nat) (bs : bytes) (ws : list bytes) : list bytes := alter (fun wire => wire ++ bs) id ws.

Lemma grow_nil id ws : grow id [] ws = ws.
Proof.
  unfold grow. apply list_eq. intros i. destruct (decide (i = id)) as [->|Hi]; [|by rewrite list_lookup_alter_ne].
  rewrite list_lookup_alter_eq. destruct (ws !! id); [|done]. cbn. by rewrite app_nil_r.
Qed.

Lemma grow_grow id a b ws : grow id b (grow id a ws) = grow id (a ++ b) ws.
Proof.
  unfold grow. apply list_eq. intros i. destruct (decide (i = id)) as [->|Hi]; [|by rewrite !list_lookup_alter_ne].
  rewrite !list_lookup_alter_eq. destruct (ws !! id); [|done]. cbn. by rewrite app_assoc.
Qed.

Lemma length_grow id bs ws : length (grow id bs ws) = length ws.
Proof. apply length_alter. Qed.

Section Writes.
Context (env : Env) (tls : bool) `{!EnvOk env tls}.

(** The pool is as it was and [p] went to connection [id]. *)
Definition went_to (id : nat) (p : bytes) (w w' : World) : Prop := pool w' = pool w /\ wires w' = grow id p (wires w).

Lemma went_to_trans id p q w w1 w2 : went_to id p w w1 -> went_to id q w1 w2 -> went_to id (p ++ q) w w2.
Proof using Type. intros [Hp Hw] [Hp' Hw']. split; [congruence|]. by rewrite Hw', Hw, grow_grow. Qed.

Lemma went_to_tick id w : went_to id [] w (tick w).
Proof using Type. split; [done|]. by rewrite grow_nil. Qed.

(** How far a write got with [bs], [p] of which is on the wire. *)
Definition wrote_part (bs p : bytes) (result : option (Written * nat)) : Prop :=
  match result with
  | None => True
  | Some (Complete, n) => n = length bs /\ p = bs
  | Some (Stalled, n) => (n <= length bs)%nat /\ p = take n bs
  | Some (Failed, n) => (n <= length bs)%nat /\ take n bs `prefix_of` p /\ (tls = false -> p = take n bs)
  end.

Lemma write_chunks_spec id bs : forall fuel done w,
  (done <= length bs)%nat -> (length bs - done < fuel)%nat ->
  let '(r, w') := write_chunks env fuel id bs done w in
  exists p, went_to id p w w' /\ take done bs ++ p `prefix_of` bs /\ wrote_part bs (take done bs ++ p) r.
Proof using Type*.
  induction fuel as [|fuel IH]; intros done w Hd Hf; [lia|]. cbn [write_chunks].
  destruct (Nat.ltb_spec done (length bs)) as [Hlt|Hge].
  - unfold bind, write. set (chunk := take _ (drop done bs)).
    assert (Hchunk : chunk `prefix_of` drop done bs) by apply prefix_take.
    assert (Htake : forall n, (n <= length chunk)%nat -> take done bs ++ take n chunk = take (done + n) bs).
    { intros n Hn. destruct Hchunk as [c Hc]. rewrite <- (take_app_le chunk c) by done.
      rewrite <- Hc. apply take_take_drop. }
    assert (Hpre : forall n, take done bs ++ take n chunk `prefix_of` bs).
    { intros n. rewrite <- (take_drop done bs) at 2. apply prefix_app. by etrans; [apply prefix_take|]. }
    destruct (dropped_at env (clock w)).
    { exists []. rewrite app_nil_r. split; [apply went_to_tick|]. split; [apply prefix_take|done]. }
    destruct (write_at env (clock w) chunk) as [n|n|] eqn:Ha.
    + pose proof (accepts_within _ _ _ Ha) as Hn. assert (Hl : (length chunk <= length bs - done)%nat)
        by (apply prefix_length in Hchunk; by rewrite length_drop in Hchunk).
      destruct n as [|n].
      * exists []. rewrite app_nil_r. split; [by split|]. split; [apply prefix_take|]. split; [done|]. by split.
      * specialize (IH (done + S n)%nat (on_wire id (take (S n) chunk) (tick w)) ltac:(lia) ltac:(lia)).
        destruct (write_chunks _ _ _ _ _ _) as [r w']. destruct IH as (p & Hp & Hpp & Hr).
        exists (take (S n) chunk ++ p). rewrite app_assoc, Htake by done. split; [|done].
        eapply went_to_trans; [|done]. by split.
    + exists (take n chunk). split; [by split|]. split; [done|]. split; [done|]. split; [by apply prefix_app_r|].
      intros Ht. rewrite (error_accepts_nothing _ _ _ Ht Ha). by rewrite take_0, app_nil_r.
    + exists []. rewrite app_nil_r. split; [apply went_to_tick|]. split; [apply prefix_take|done].
  - unfold bind, asks. destruct (dropped_at env (clock w)); [|destruct (flush_at env (clock w))]; exists []; rewrite app_nil_r, ?take_ge by lia;
      (split; [apply went_to_tick|split; [done|]]); cbn; rewrite ?take_ge by lia; repeat split; try done; lia.
Qed.
End Writes.

(** ** What the other steps leave alone *)

(** Neither the pooled connection nor any connection's bytes. *)
Definition quiet (w w' : World) : Prop := conn (pool w') = conn (pool w) /\ wires w' = wires w.

(** A fault given before any byte of the frame left. *)
Definition nothing_left (f : Fault.Fault) : Prop := f = Fault.Clean \/ f = Fault.Refused.

Section Steps.
Context (env : Env) (d : Dial).

Lemma connect_quiet a w :
  quiet w (connect_tcp_fd env d a w).2 /\
  match (connect_tcp_fd env d a w).1 with Some (inl f) => nothing_left f | _ => True end.
Proof using Type.
  unfold connect_tcp_fd, nothing_left, bind, record_cert_request, asks, ret.
  destruct (connected a); cbn [negb]; [|split; [done|by left]]. destruct (target d) as [t|]; [|done].
  destruct (nodelay d && negb (nodelay_set a)); [split; [done|by left]|]. destruct t; [|done]. cbn [negb].
  destruct (handshaken a) as [t|]; [|split; [done|by left]].
  destruct (tls13 t && _ && has_accept_timeout d); [|done]. cbn [clock]. destruct (dropped_at env (clock w)); [done|].
  destruct (read_at env (clock w)); cbn; split; eauto; done.
Qed.

(** A dial opens a connection of its own, or fails with nothing sent. *)
Lemma dial_spec w :
  let '(r, w') := dial env d w in
  conn (pool w') = conn (pool w) /\
  match r with
  | Some (inr c) => wires w' = wires w ++ [[]] /\ stream c = length (wires w) /\ pending c = None
  | Some (inl f) => wires w' = wires w /\ nothing_left f
  | None => wires w' = wires w
  end.
Proof using Type.
  unfold dial, bind at 1, asks. destruct (dropped_at env (clock w)); [done|]. set (a := dial_at env (clock w)).
  pose proof (connect_quiet a (tick w)) as [[Hc Hw] Hf]. unfold bind at 1.
  destruct (connect_tcp_fd env d a (tick w)) as [[[f|fd]|] w1]; cbn [fst snd] in *; [done| |done].
  unfold bind, opened, ret. cbn [conn pool wires stream pending]. by rewrite Hc, Hw.
Qed.

Lemma queued_spec c w : exists q w', queued env c w = (Some q, w') /\ quiet w w'.
Proof using Type. unfold queued. destruct (tcp_fd c); by eexists _, _. Qed.

Lemma abandon_spec c tls w : exists w', abandon env c tls w = (Some tt, w') /\ quiet w w'.
Proof using Type.
  unfold abandon. destruct (tcp_fd c); [|by eexists]. unfold bind. destruct (queued_spec c w) as (q & w' & -> & Hq).
  destruct q as [q|]; [destruct (0 <? _)|]; by eexists.
Qed.

Lemma keep_stalled_spec c f w :
  conn (pool w) = None ->
  exists w', keep_stalled env c f w = (Some (Some f), w') /\ wires w' = wires w /\
    (conn (pool w') = None \/ conn (pool w') = Some c).
Proof using Type.
  intros Hn. unfold keep_stalled, bind, ret, report_unavailable, put_conn. destruct (tcp_fd c); [|by eexists; eauto].
  destruct (tcp_peer_answering_at env (clock w)) as [[]|]; eexists; (split; [reflexivity|]); eauto.
Qed.
End Steps.

(** ** What an attempt leaves behind *)

Definition rest (c : Conn) : bytes := default [] (pending c).
Definition tail (w : World) : bytes := match conn (pool w) with Some c => rest c | None => [] end.
Definition pooled_id (w : World) : nat := match conn (pool w) with Some c => stream c | None => 0 end.

(** What an attempt did to the connections: part of the pooled one's tail, the connections it dialed,
    and part of its own frame on one of them. *)
Record Move := mkMove { tail_part : bytes; dials : nat; at_id : nat; part : bytes }.

Definition moved_wires (w : World) (mv : Move) : list bytes :=
  grow (at_id mv) (part mv) (grow (pooled_id w) (tail_part mv) (wires w) ++ replicate (dials mv) []).

(** Where a frame may go: the pooled connection once its tail is written, or one dialed now. *)
Definition place (w : World) (mv : Move) (id : nat) : Prop :=
  (is_Some (conn (pool w)) /\ id = pooled_id w /\ tail_part mv = tail w) \/
  (length (wires w) <= id < length (wires w) + dials mv)%nat.

(** The connection pooled afterwards owes the rest of the frame, or of the tail, that it began. *)
Definition kept (w : World) (frame : bytes) (mv : Move) (c : Conn) : Prop :=
  (place w mv (stream c) /\ stream c = at_id mv /\ ((part mv = [] /\ rest c = []) \/ part mv ++ rest c = frame)) \/
  (part mv = [] /\ is_Some (conn (pool w)) /\ stream c = pooled_id w /\ tail_part mv ++ rest c = tail w).

Definition moved (w : World) (frame : bytes) (mv : Move) (w' : World) : Prop :=
  wires w' = moved_wires w mv /\ tail_part mv `prefix_of` tail w /\ part mv `prefix_of` frame /\
  (part mv <> [] -> place w mv (at_id mv)) /\
  match conn (pool w') with None => True | Some c => kept w frame mv c end.

(** What a result says of the part of the frame that left. *)
Definition verdict (tls : bool) (frame : bytes) (mv : Move) (result : option (option Fault.Fault)) (w' : World) : Prop :=
  match result with
  | None => conn (pool w') = None
  | Some None => part mv = frame /\ exists c, conn (pool w') = Some c /\ stream c = at_id mv /\ pending c = None
  | Some (Some Fault.Ambiguous) => tls = false -> part mv <> []
  | Some (Some f) => nothing_left f /\ part mv = []
  end.

Section Attempt.
Context (env : Env) (d : Dial) `{!EnvOk env (is_tls d)}.

Lemma acquire_spec w :
  let '(r, w') := acquire env d w in
  conn (pool w') = None /\
  match r with
  | Some (inr c) =>
      (conn (pool w) = Some c /\ wires w' = wires w) \/
      (wires w' = wires w ++ [[]] /\ stream c = length (wires w) /\ pending c = None)
  | Some (inl f) => wires w' = wires w /\ nothing_left f
  | None => wires w' = wires w
  end.
Proof using Type.
  unfold acquire, bind at 1, take_conn, put_conn. set (w0 := mkWorld _ _ _ _ _ _).
  assert (Hdial : forall w1, quiet w0 w1 ->
    let '(r, w') := dial env d w1 in conn (pool w') = None /\
    match r with
    | Some (inr c) => (conn (pool w) = Some c /\ wires w' = wires w) \/ (wires w' = wires w ++ [[]] /\ stream c = length (wires w) /\ pending c = None)
    | Some (inl f) => wires w' = wires w /\ nothing_left f
    | None => wires w' = wires w
    end).
  { intros w1 [Hc Hw]. pose proof (dial_spec env d w1) as Hd. destruct (dial env d w1) as [r w']. destruct Hd as [Hcd Hd].
    rewrite Hc in Hcd. rewrite Hw in Hd. split; [done|]. destruct r as [[f|c]|]; [done|by right|done]. }
  destruct (conn (pool w)) as [c|] eqn:Hp; [|by apply Hdial].
  unfold bind at 1. destruct (probe_at env (clock w0)).
  - split; [done|]. by left.
  - unfold bind. destruct (abandon_spec env c (is_tls d) (tick w0)) as (w1 & -> & Hq). by apply Hdial.
  - unfold bind. destruct (abandon_spec env c (is_tls d) (tick w0)) as (w1 & -> & Hq). by apply Hdial.
  - unfold bind. destruct (abandon_spec env c (is_tls d) (tick w0)) as (w1 & -> & [Hc Hw]). unfold ret.
    split; [done|]. split; [done|by right].
Qed.

(** The attempt up to its own frame: a connection whose tail is written, or a result. *)
Definition prepare : act (option Fault.Fault + Conn) :=
  let* c := acquire env d in
  match c with inl fault => ret (inl (Some fault)) | inr c => finish_pending env d c end.

Lemma attempt_once_prepare frame retry w :
  attempt_once env d frame retry w =
  bind prepare (fun ready => match ready with inl result => ret result | inr c => write_own_frame env d frame retry c end) w.
Proof using Type. unfold attempt_once, prepare, bind. by destruct (acquire env d w) as [[[f|c]|] w']. Qed.

(** After [prepare]: [p] of the tail is written and [n] connections were dialed. *)
Definition prepared (w : World) (p : bytes) (n : nat) (r : option (option Fault.Fault + Conn)) (w' : World) : Prop :=
  p `prefix_of` tail w /\ wires w' = grow (pooled_id w) p (wires w) ++ replicate n [] /\
  match r with
  | None => conn (pool w') = None
  | Some (inl result) =>
      (exists f, result = Some f /\ nothing_left f) /\
      forall c, conn (pool w') = Some c -> is_Some (conn (pool w)) /\ stream c = pooled_id w /\ p ++ rest c = tail w
  | Some (inr c) =>
      conn (pool w') = None /\ pending c = None /\
      ((is_Some (conn (pool w)) /\ stream c = pooled_id w /\ p = tail w /\ n = 0%nat) \/ (stream c = length (wires w) /\ n = 1%nat))
  end.

Lemma write_counting_spec id bs w :
  let '(r, w') := write_counting env id bs w in
  exists p, went_to id p w w' /\ p `prefix_of` bs /\ wrote_part (is_tls d) bs p r.
Proof using Type*.
  pose proof (write_chunks_spec env (is_tls d) id bs (S (length bs)) 0 w ltac:(lia) ltac:(lia)) as H.
  unfold write_counting. destruct (write_chunks _ _ _ _ _ _) as [r w']. by rewrite take_0 in H.
Qed.

(** The pooled connection in hand, its tail still owed. *)
Lemma finish_pending_spec w c w1 :
  conn (pool w) = Some c -> conn (pool w1) = None -> wires w1 = wires w ->
  let '(r, w') := finish_pending env d c w1 in exists p n, (n <= 1)%nat /\ prepared w p n r w'.
Proof using Type*.
  intros Hc Hn Hw. assert (Htail : tail w = rest c) by (unfold tail; by rewrite Hc).
  assert (Hid : pooled_id w = stream c) by (unfold pooled_id; by rewrite Hc).
  unfold finish_pending, rest in *. unfold prepared. rewrite Hid, Htail, Hc. destruct (pending c) as [t|] eqn:Hp.
  - unfold bind at 1. pose proof (write_counting_spec (stream c) t w1) as Hwr. cbn [stream with_pending].
    destruct (write_counting env (stream c) t w1) as [[[res n]|] w2]; destruct Hwr as (p & [Hpool Hwires] & Hpre & Hpart);
      rewrite Hw in Hwires; rewrite <- Hpool in Hn; [|exists p, 0%nat; split; [lia|]; cbn; by rewrite app_nil_r].
    destruct res; cbn [wrote_part] in Hpart.
    + destruct Hpart as [_ ->]. exists t, 0%nat. split; [lia|]. cbn. rewrite app_nil_r. split_and!; try done. left. by split_and!.
    + destruct Hpart as [_ ->]. unfold bind.
      match goal with |- context [keep_stalled env ?c' ?f w2] => destruct (keep_stalled_spec env c' f w2 Hn) as (w3 & -> & Hw3 & Hk) end.
      exists (take n t), 0%nat. split; [lia|]. cbn. rewrite app_nil_r, Hw3. split_and!; try done.
      * eexists. split; [done|by left].
      * intros c' Hc'. destruct Hk as [Hk|Hk]; rewrite Hk in Hc'; [done|]. injection Hc' as <-. cbn. split_and!; try done.
        apply take_drop.
    + unfold bind at 1. match goal with |- context [abandon env ?c' ?b w2] => destruct (abandon_spec env c' b w2) as (w3 & -> & [Hn3 Hw3]) end.
      unfold bind. pose proof (dial_spec env d w3) as Hd. destruct (dial env d w3) as [r w4]. destruct Hd as [Hc4 Hd].
      rewrite Hn3, Hn in Hc4. rewrite Hw3, Hwires in Hd. destruct r as [[f|c']|].
      * exists p, 0%nat. split; [lia|]. cbn. destruct Hd as [-> Hf]. rewrite app_nil_r, Hc4. split_and!; eauto. done.
      * exists p, 1%nat. split; [lia|]. cbn. destruct Hd as (-> & Hs & Hpn). rewrite Hc4. split_and!; try done. right. by rewrite Hs, length_grow.
      * exists p, 0%nat. split; [lia|]. cbn. by rewrite app_nil_r.
  - exists [], 0%nat. split; [lia|]. cbn. rewrite app_nil_r, grow_nil. split; [done|split; [done|split; [done|split; [done|]]]]. left. by split_and!.
Qed.

Lemma prepare_spec w : let '(r, w') := prepare w in exists p n, (n <= 1)%nat /\ prepared w p n r w'.
Proof using Type*.
  unfold prepare, bind. pose proof (acquire_spec w) as Ha. destruct (acquire env d w) as [[[f|c]|] w1]; destruct Ha as [Hn Ha].
  - exists [], 0%nat. split; [lia|]. destruct Ha as [Hw Hf]. unfold prepared. cbn. rewrite grow_nil, app_nil_r, Hn. split_and!; eauto; [apply prefix_nil|done].
  - destruct Ha as [[Hc Hw]|(Hw & Hs & Hp)]; [by apply finish_pending_spec|]. unfold finish_pending. rewrite Hp.
    exists [], 1%nat. split; [lia|]. unfold prepared. cbn. rewrite grow_nil. split_and!; try done; [apply prefix_nil|by right].
  - exists [], 0%nat. split; [lia|]. unfold prepared. cbn. rewrite grow_nil, app_nil_r. split_and!; try done. apply prefix_nil.
Qed.

Lemma prepared_place w p n c w1 q :
  prepared w p n (Some (inr c)) w1 -> place w (mkMove p n (stream c) q) (stream c).
Proof using Type.
  intros (_ & _ & _ & _ & [(Hs & Hid & Hp & _)|[-> ->]]); [by left|]. right. cbn. lia.
Qed.

(** The frame's own write: a verdict, or the one retry with nothing left anywhere. *)
Lemma write_own_frame_spec w p n c w1 frame retry :
  frame <> [] -> prepared w p n (Some (inr c)) w1 ->
  (exists next w2, retry = Some next /\ write_own_frame env d frame retry c w1 = next w2 /\
     conn (pool w2) = None /\ wires w2 = wires w1) \/
  let '(r, w') := write_own_frame env d frame retry c w1 in
  exists q, moved w frame (mkMove p n (stream c) q) w' /\ verdict (is_tls d) frame (mkMove p n (stream c) q) r w'.
Proof using Type*.
  intros Hne Hprep. pose proof (fun q => prepared_place _ _ _ _ _ q Hprep) as Hpl.
  destruct Hprep as (Htp & Hw1 & Hn & Hpc & _). destruct (write_own_frame env d frame retry c w1) as [r w'] eqn:Hout.
  unfold write_own_frame, bind at 1 in Hout. pose proof (write_counting_spec (stream c) frame w1) as Hwr.
  destruct (write_counting env (stream c) frame w1) as [[[res k]|] w2]; destruct Hwr as (q & [Hpool Hwires] & Hpre & Hpart);
    rewrite <- Hpool in Hn; rewrite Hw1 in Hwires.
  2:{ right. injection Hout as <- <-. exists q. unfold moved, verdict. by rewrite Hn. }
  destruct res; cbn [wrote_part] in Hpart.
  - right. destruct Hpart as [_ ->]. injection Hout as <- <-. exists frame. unfold moved, verdict. cbn.
    split_and!; try done; [|by eexists]. left. split_and!; try done. right. unfold rest. cbn. by rewrite Hpc, app_nil_r.
  - right. destruct Hpart as [Hk ->]. destruct (k =? 0)%nat eqn:Hk0; [apply Nat.eqb_eq in Hk0 as Hk0'; subst k|apply Nat.eqb_neq in Hk0].
    + match type of Hout with context [keep_stalled env ?c' ?f w2] => destruct (keep_stalled_spec env c' f w2 Hn) as (w3 & Hks & Hw3 & Hkp) end.
      rewrite Hks in Hout. injection Hout as <- <-.
      exists []. unfold moved, verdict. cbn [part]. rewrite Hw3. split; [|split; [by left|done]].
      split; [done|split; [done|split; [apply prefix_nil|split; [done|]]]].
      destruct Hkp as [->| ->]; [done|]. left. split_and!; try done. left. split; [done|]. unfold rest. cbn. by rewrite Hpc.
    + unfold bind in Hout. match type of Hout with context [queued env ?c' w2] => destruct (queued_spec env c' w2) as (q & w3 & Hq & [Hn3 Hw3]) end.
      rewrite Hq in Hout. rewrite <- Hn3 in Hn. match type of Hout with context [keep_stalled env ?c' ?f w3] => destruct (keep_stalled_spec env c' f w3 Hn) as (w4 & Hks & Hw4 & Hkp) end.
      rewrite Hks in Hout. injection Hout as <- <-. exists (take k frame). unfold moved, verdict. cbn [part]. rewrite Hw4, Hw3.
      split; [split; [done|split; [done|split; [done|split; [done|]]]]|].
      * destruct Hkp as [->| ->]; [done|]. left. split_and!; try done. right. apply take_drop.
      * intros _ Ht. destruct frame; [done|]. destruct k; [done|]. done.
  - unfold bind in Hout. match type of Hout with context [abandon env ?c' ?b w2] => destruct (abandon_spec env c' b w2) as (w3 & Hab & [Hn3 Hw3]) end.
    rewrite Hab in Hout. rewrite <- Hn3 in Hn. destruct Hpart as (Hk & Hkp & Hpl'). 
    assert (Hmoved : moved w frame (mkMove p n (stream c) q) w3) by (unfold moved; rewrite Hn, Hw3; done).
    destruct ((k =? 0)%nat && negb (is_tls d)) eqn:Hacc.
    + apply andb_true_iff in Hacc as [->%Nat.eqb_eq Ht%negb_true_iff]. rewrite (Hpl' Ht), take_0 in *.
      destruct retry as [next|]; [left; exists next, w3|right; injection Hout as <- <-; exists []; split; [done|by split; [left|]]].
      split_and!; try done. by rewrite Hw3, Hwires, Hw1, grow_nil.
    + right. injection Hout as <- <-. exists q. split; [done|]. cbn. intros Ht. rewrite Ht, andb_true_r in Hacc.
      apply Nat.eqb_neq in Hacc. rewrite (Hpl' Ht). destruct frame; [done|]. by destruct k.
Qed.

(** One turn of the loop: a verdict, or the retry from a world that only differs by the tail and a dial. *)
Lemma attempt_once_spec frame retry w :
  frame <> [] ->
  (exists p n next w2, retry = Some next /\ attempt_once env d frame retry w = next w2 /\ conn (pool w2) = None /\
     p `prefix_of` tail w /\ wires w2 = grow (pooled_id w) p (wires w) ++ replicate n [] /\ (n <= 1)%nat) \/
  let '(r, w') := attempt_once env d frame retry w in
  exists mv, moved w frame mv w' /\ verdict (is_tls d) frame mv r w' /\ (dials mv <= 1)%nat.
Proof using Type*.
  intros Hne. rewrite attempt_once_prepare. unfold bind. pose proof (prepare_spec w) as Hp.
  destruct (prepare w) as [[[res|c]|] w1]; destruct Hp as (p & n & Hn & Hp).
  - right. unfold ret. destruct Hp as (Htp & Hw & [(f & -> & Hf) Hk]). exists (mkMove p n 0 []).
    split; [|split; [by destruct Hf as [->| ->]; (split; [first [by left|by right]|])|done]]. unfold moved, moved_wires. cbn [at_id part tail_part dials]. rewrite grow_nil.
    split; [done|split; [done|split; [apply prefix_nil|split; [done|]]]]. destruct (conn (pool w1)) as [c|]; [|done].
    destruct (Hk c eq_refl) as (Hs & Hid & Ht). right. by split_and!.
  - destruct (write_own_frame_spec w p n c w1 frame retry Hne Hp) as [(next & w2 & Hr & Ho & Hc & Hw)|Hq].
    + left. exists p, n, next, w2. destruct Hp as (Htp & Hw1 & _). by rewrite Hw.
    + right. destruct (write_own_frame _ _ _ _ _ _) as [r w']. destruct Hq as (q & Hm & Hv). by exists (mkMove p n (stream c) q).
  - right. destruct Hp as (Htp & Hw & Hc). exists (mkMove p n 0 []). unfold moved, moved_wires. cbn [at_id part tail_part dials]. rewrite grow_nil, Hc.
    split_and!; try done. apply prefix_nil.
Qed.

(** A second turn after a first that left nothing is one attempt. *)
Lemma moved_after w p n w2 frame mv w' :
  conn (pool w2) = None -> p `prefix_of` tail w -> wires w2 = grow (pooled_id w) p (wires w) ++ replicate n [] ->
  moved w2 frame mv w' -> moved w frame (mkMove p (n + dials mv) (at_id mv) (part mv)) w'.
Proof using Type.
  intros Hc Hp Hw (Hm & Ht & Hq & Hpl & Hk).
  assert (Htail : tail_part mv = []) by (unfold tail in Ht; rewrite Hc in Ht; by apply prefix_nil_inv in Ht).
  assert (Hplace : forall id, place w2 mv id -> place w (mkMove p (n + dials mv) (at_id mv) (part mv)) id).
  { intros id [[Hs _]|Hid]; [by rewrite Hc in Hs; destruct Hs|]. right. rewrite Hw in Hid. cbn.
    rewrite length_app, length_grow, length_replicate in Hid. lia. }
  split; [|split; [done|split; [done|split; [by intros H; apply Hplace, Hpl|]]]].
  - unfold moved_wires in *. cbn [at_id part tail_part dials]. rewrite Hm, Htail, grow_nil, Hw, <- app_assoc. by rewrite replicate_add.
  - destruct (conn (pool w')) as [c|]; [|done]. destruct Hk as [(H1 & H2 & H3)|(_ & Hs & _)].
    + left. split_and!; [by apply Hplace|done..].
    + by rewrite Hc in Hs; destruct Hs.
Qed.

Lemma attempt_spec frame w :
  frame <> [] ->
  let '(r, w') := attempt env d frame w in
  exists mv, moved w frame mv w' /\ verdict (is_tls d) frame mv r w' /\ (dials mv <= 2)%nat.
Proof using Type*.
  intros Hne. unfold attempt. set (again := attempt_once env d frame None).
  destruct (attempt_once_spec frame (Some again) w Hne) as [(p & n & next & w2 & [= <-] & -> & Hc & Hp & Hw & Hn)|H].
  - destruct (attempt_once_spec frame None w2 Hne) as [(? & ? & ? & ? & ? & _)|H]; [done|]. subst again.
    destruct (attempt_once _ _ _ _ w2) as [r w']. destruct H as (mv & Hm & Hv & Hd).
    exists (mkMove p (n + dials mv) (at_id mv) (part mv)). split; [by eapply moved_after|]. split; [done|]. cbn. lia.
  - destruct (attempt_once _ _ _ _ w) as [r w']. destruct H as (mv & Hm & Hv & Hd). exists mv. split_and!; try done. lia.
Qed.
End Attempt.
