(* ===== verification/StreamDelivery.v ===== *)
(** * From a stream sink to its receiver

    What a pooled stream's connections carry over any run of attempts, and what a listener reads off
    each: frames go out whole and in order, each cut only where its connection ended, and the
    messages of syslog_out and statsd_out come back as they were written. *)

From S2P Require Import Prelude Output StreamFraming FramingProperties StreamSenders PooledStream.

(** ** What connections carry *)

(** Each connection carries some of the frames sent, in order, the last perhaps cut; the pooled one
    owes exactly what its last frame lacks. *)
Record carried (frames : list bytes) (w : World) : Prop := mkCarried {
  carried_wires id wire : wires w !! id = Some wire -> exists fs, fs `sublist_of` frames /\ wire `prefix_of` concat fs;
  carried_pool c : conn (pool w) = Some c ->
    exists wire fs, wires w !! stream c = Some wire /\ fs `sublist_of` frames /\ wire ++ rest c = concat fs
}.

(** The connections before the attempt's own frame. *)
Definition before (w : World) (mv : Move) : list bytes :=
  grow (pooled_id w) (tail_part mv) (wires w) ++ replicate (dials mv) [].

Lemma grow_lookup id p ws i : grow id p ws !! i = if decide (i = id) then (.++ p) <$> ws !! i else ws !! i.
Proof.
  unfold grow. destruct (decide (i = id)) as [->|Hi]; [by rewrite list_lookup_alter_eq|by rewrite list_lookup_alter_ne].
Qed.

Lemma before_lookup frames w mv id b :
  carried frames w -> tail_part mv `prefix_of` tail w -> before w mv !! id = Some b ->
  exists fs, fs `sublist_of` frames /\ b `prefix_of` concat fs /\ (place w mv id -> b = concat fs).
Proof.
  intros [Hw Hp] Ht Hb. unfold before in Hb. apply lookup_app_Some in Hb as [Hb|[Hl Hb]].
  - assert (Hid : (id < length (wires w))%nat) by (apply lookup_lt_Some in Hb; by rewrite length_grow in Hb).
    rewrite grow_lookup in Hb. unfold place, tail, pooled_id in *. destruct (conn (pool w)) as [c|].
    + destruct (Hp c eq_refl) as (wire & fs & Hwire & Hfs & Hc). destruct (decide (id = stream c)) as [->|Hne].
      * rewrite Hwire in Hb. injection Hb as <-. exists fs. rewrite <- Hc. split_and!; [done|by apply prefix_app|].
        intros [(_ & _ & ->)|]; [done|lia].
      * destruct (Hw id b Hb) as (fs' & ? & ?). exists fs'. split_and!; try done. intros [(_ & ? & _)|]; [done|lia].
    + apply prefix_nil_inv in Ht. rewrite Ht in Hb.
      assert (Hb' : wires w !! id = Some b)
        by (revert Hb; case_decide; [|done]; destruct (wires w !! id); [|done]; cbn; by rewrite app_nil_r).
      destruct (Hw id b Hb') as (fs' & ? & ?). exists fs'. split_and!; try done. intros [(Hs & _)|]; [by destruct Hs|lia].
  - apply lookup_replicate in Hb as [-> _]. exists []. split_and!; [apply sublist_nil_l|done|done].
Qed.

Lemma before_place frames w mv id : carried frames w -> place w mv id -> is_Some (before w mv !! id).
Proof.
  intros [_ Hp] Hpl. apply lookup_lt_is_Some. unfold before. rewrite length_app, length_grow, length_replicate.
  destruct Hpl as [([c Hc] & -> & _)|]; [|lia]. destruct (Hp c Hc) as (wire & _ & Hw & _). unfold pooled_id. rewrite Hc.
  apply lookup_lt_Some in Hw. lia.
Qed.

(** The attempt's own frame, on a connection that carries whole frames so far. *)
Lemma own_frame frames w frame mv :
  carried frames w -> tail_part mv `prefix_of` tail w -> place w mv (at_id mv) -> 
  exists fs, fs `sublist_of` frames /\ moved_wires w mv !! at_id mv = Some (concat fs ++ part mv) /\
    concat (fs ++ [frame]) = concat fs ++ frame.
Proof.
  intros Hc Ht Hpl. destruct (before_place _ _ _ _ Hc Hpl) as [b Hb].
  destruct (before_lookup _ _ _ _ _ Hc Ht Hb) as (fs & Hfs & _ & Hwhole). exists fs. split; [done|].
  unfold moved_wires. fold (before w mv). rewrite grow_lookup, decide_True, Hb by done. cbn. rewrite (Hwhole Hpl).
  split; [done|]. rewrite concat_app. cbn [concat]. by rewrite app_nil_r.
Qed.

(** An attempt keeps to it. *)
Lemma carried_moved frames w frame mv w' :
  carried frames w -> moved w frame mv w' -> carried (frames ++ [frame]) w'.
Proof.
  intros Hc (Hw & Ht & Hq & Hpl & Hk).
  assert (Hsnoc : forall fs, fs `sublist_of` frames -> fs ++ [frame] `sublist_of` frames ++ [frame]) by (intros; by apply sublist_app).
  assert (Hold : forall fs, fs `sublist_of` frames -> fs `sublist_of` frames ++ [frame]) by (intros; by apply sublist_inserts_r).
  split.
  - intros id wire Hwire. rewrite Hw in Hwire. unfold moved_wires in Hwire. fold (before w mv) in Hwire.
    destruct (decide (part mv = [])) as [He|He].
    + rewrite He, grow_nil in Hwire. destruct (before_lookup _ _ _ _ _ Hc Ht Hwire) as (fs & ? & ? & _). eauto.
    + rewrite grow_lookup in Hwire. case_decide as Hid; [|destruct (before_lookup _ _ _ _ _ Hc Ht Hwire) as (fs & ? & ? & _); by eauto].
      subst id. destruct (own_frame frames w frame mv Hc Ht (Hpl He)) as (fs & Hfs & Hl & Hcat).
      unfold moved_wires in Hl. fold (before w mv) in Hl. rewrite grow_lookup, decide_True, Hwire in Hl by done. injection Hl as ->.
      exists (fs ++ [frame]). split; [by apply Hsnoc|]. rewrite Hcat. by apply prefix_app.
  - intros c Hcp. rewrite Hcp in Hk. rewrite Hw. destruct Hk as [(Hp & Hid & Hr)|(He & [c0 Hs] & Hid & Hr)].
    + rewrite Hid in *. destruct (own_frame frames w frame mv Hc Ht Hp) as (fs & Hfs & -> & Hcat).
      destruct Hr as [[He Hr]|Hr]; [exists (concat fs ++ part mv), fs|exists (concat fs ++ part mv), (fs ++ [frame])].
      * rewrite He, Hr, !app_nil_r. eauto.
      * rewrite <- app_assoc, Hr, Hcat. eauto.
    + destruct (carried_pool _ _ Hc c0 Hs) as (wire & fs & Hwire & Hfs & Hcat). exists (wire ++ tail_part mv), fs.
      unfold moved_wires. rewrite He, grow_nil, Hid. unfold pooled_id, tail in *. rewrite Hs in *.
      rewrite lookup_app_l by (rewrite length_grow; by eapply lookup_lt_Some). rewrite grow_lookup, decide_True, Hwire by done.
      split; [done|split; [by apply Hold|]]. by rewrite <- app_assoc, Hr.
Qed.

(** ** A run of attempts *)

Definition world_new : World := mkWorld 0 (mkPooledStream None false false) false [] 0 0.

(** The frames of a sink's batches, each attempted once; a batch tried again is there again. *)
Fixpoint attempts (env : Env) (d : Dial) (frames : list bytes) (w : World) : list (option (option Fault.Fault)) * World :=
  match frames with
  | [] => ([], w)
  | frame :: frames =>
      let '(r, w) := attempt env d frame w in
      let '(rs, w) := attempts env d frames w in (r :: rs, w)
  end.

Lemma attempts_app env d a b w :
  attempts env d (a ++ b) w =
  let '(rs, w1) := attempts env d a w in let '(rs', w2) := attempts env d b w1 in (rs ++ rs', w2).
Proof.
  revert w. induction a as [|frame a IH]; intros w; cbn [app attempts]; [by destruct (attempts env d b w)|].
  destruct (attempt env d frame w) as [r w1]. rewrite IH. destruct (attempts env d a w1) as [rs w2].
  by destruct (attempts env d b w2) as [rs' w3].
Qed.

Section Runs.
Context (env : Env) (d : Dial) `{!EnvOk env (is_tls d)}.

Lemma carried_attempts frames : forall past w,
  carried past w -> Forall (.≠ []) frames -> carried (past ++ frames) (attempts env d frames w).2.
Proof using Type*.
  induction frames as [|frame frames IH]; intros past w Hc Hf; cbn [attempts]; [by rewrite app_nil_r|].
  apply Forall_cons in Hf as [Hne Hf]. pose proof (attempt_spec env d frame w Hne) as Ha.
  destruct (attempt env d frame w) as [r w1]. destruct Ha as (mv & Hm & _). specialize (IH (past ++ [frame]) w1).
  destruct (attempts env d frames w1) as [rs w2]. rewrite <- app_assoc in IH. apply IH; [by eapply carried_moved|done].
Qed.

Lemma carried_new : carried [] world_new.
Proof using Type. by split. Qed.

Lemma carried_run frames : Forall (.≠ []) frames -> carried frames (attempts env d frames world_new).2.
Proof using Type*. apply (carried_attempts frames [] world_new carried_new). Qed.

(** An attempt answered [Ok] leaves its frame whole at the end of the pooled connection. *)
Lemma answered_ok past w frame w' :
  carried past w -> frame <> [] -> attempt env d frame w = (Some None, w') ->
  exists c fs, conn (pool w') = Some c /\ fs `sublist_of` past /\ wires w' !! stream c = Some (concat (fs ++ [frame])).
Proof using Type*.
  intros Hc Hne Ha. pose proof (attempt_spec env d frame w Hne) as Hs. rewrite Ha in Hs.
  destruct Hs as (mv & (Hw & Ht & _ & Hpl & _) & [Hq (c & Hcp & Hid & _)] & _). exists c.
  destruct (own_frame past w frame mv Hc Ht) as (fs & Hfs & Hl & Hcat); [apply Hpl; congruence|]. exists fs.
  split; [done|split; [done|]]. by rewrite Hid, Hw, Hl, Hq, Hcat.
Qed.
(** C11: an attempt's answer says what left: [Ok] is the whole frame on one connection,
    [Clean] and [Refused] are no byte of it anywhere, [Ambiguous] on plaintext some of it, a dropped
    future an empty pool; a frame starts only on a connection whose earlier frame is whole, or on a
    fresh one, and at most two are dialed. *)
Theorem stream_fault_is_true frame w r w' :
  frame <> [] -> attempt env d frame w = (r, w') ->
  exists mv, moved w frame mv w' /\ (dials mv <= 2)%nat /\
    match r with
    | Some None => part mv = frame
    | Some (Some Fault.Ambiguous) => is_tls d = false -> part mv <> []
    | Some (Some f) => (f = Fault.Clean \/ f = Fault.Refused) /\ part mv = []
    | None => conn (pool w') = None
    end.
Proof using Type*.
  intros Hne Ha. pose proof (attempt_spec env d frame w Hne) as Hs. rewrite Ha in Hs. destruct Hs as (mv & Hm & Hv & Hd).
  exists mv. split; [done|split; [done|]]. destruct r as [[[]|]|]; try done. by destruct Hv.
Qed.

(** The shutdown flush writes no more than the tail it owes. *)
Lemma flush_spec w :
  let '(r, w') := pool_flush env w in
  match conn (pool w) with
  | None => r = Some true /\ w' = w
  | Some c =>
      exists p, p `prefix_of` rest c /\ wires w' = grow (stream c) p (wires w) /\
        (r = Some true -> p = rest c /\ conn (pool w') = Some (with_pending None c))
  end.
Proof using Type*.
  unfold pool_flush. destruct (conn (pool w)) as [c|]; [|done].
  pose proof (write_counting_spec env d (stream c) (rest c) (put_conn (Some (with_pending None c)) w).2) as Hw. unfold rest in *.
  destruct (write_counting _ _ _ _) as [[[[] n]|] w']; destruct Hw as (p & [Hp Hw] & Hpre & Hpart); exists p;
    (split; [done|split; [done|]]); try done. intros _. destruct Hpart as [_ ->]. split; [done|]. by rewrite Hp.
Qed.

(** C12: over any run of attempts, faults, stalls and dropped futures, and a shutdown
    flush, each connection carries some of the frames in order and nothing else, cut at most where it
    ended; a flush that succeeds leaves the pooled one whole. *)
Theorem stream_carries_whole_frames frames :
  Forall (.≠ []) frames ->
  let w := (attempts env d frames world_new).2 in
  let '(r, w') := pool_flush env w in
  (forall id wire, wires w' !! id = Some wire -> exists fs, fs `sublist_of` frames /\ wire `prefix_of` concat fs) /\
  (forall c, r = Some true -> conn (pool w') = Some c ->
     exists fs, fs `sublist_of` frames /\ wires w' !! stream c = Some (concat fs) /\ pending c = None).
Proof using Type*.
  intros Hf w. pose proof (carried_run frames Hf) as Hc. fold w in Hc. pose proof (flush_spec w) as Hs.
  destruct (pool_flush env w) as [r w']. destruct (conn (pool w)) as [c|] eqn:Hp; [|destruct Hs as [-> ->]; split; [apply Hc|congruence]].
  destruct (carried_pool _ _ Hc c Hp) as (wire & fs & Hw & Hfs & Hcat). destruct Hs as (p & Hpre & Hg & Hr). split.
  - intros id wire'. rewrite Hg, grow_lookup. case_decide as Hid; [subst id; rewrite Hw|apply Hc].
    intros [= <-]. exists fs. split; [done|]. rewrite <- Hcat. by apply prefix_app.
  - intros c' Hrt Hc'. destruct (Hr Hrt) as [-> Hw']. rewrite Hw' in Hc'. injection Hc' as <-. exists fs. split; [done|].
    cbn [stream with_pending pending]. rewrite Hg, grow_lookup, decide_True, Hw by done. cbn. by rewrite Hcat.
Qed.
End Runs.

(** ** What a receiver reads *)

Lemma sublist_fmap_inv {A B} (g : A -> B) (l : list A) (k : list B) :
  k `sublist_of` g <$> l -> exists l', l' `sublist_of` l /\ k = g <$> l'.
Proof.
  revert k. induction l as [|x l IH]; intros k; cbn [fmap list_fmap].
  - intros ->%sublist_nil_r. by exists [].
  - intros H. apply sublist_cons_r in H as [Hk|(k' & -> & Hk)]; destruct (IH _ Hk) as (l' & Hl & ->);
      [exists l'|exists (x :: l')]; (split; [by constructor|done]).
Qed.

Lemma frames_nonempty (enc : bytes -> bytes) msgs : (forall msg, enc msg <> []) -> msgs <> [] -> concat (enc <$> msgs) <> [].
Proof. intros He Hm. destruct msgs as [|msg msgs]; [done|]. cbn. specialize (He msg). by destruct (enc msg). Qed.

Lemma octets_nonempty msg : octets msg <> [].
Proof. unfold octets. by destruct (to_string (blen msg)). Qed.

Lemma line_nonempty msg : line msg <> [].
Proof. unfold line. by destruct msg. Qed.

Section Received.
Context (env : Env) (d : Dial) `{!EnvOk env (is_tls d)} (max : Z) (Hmax : 0 <= max).

(** C9: whatever part of a syslog_out connection a listener has read, in whatever
    reads, it delivers the messages whole in it, in order and as they were encoded, holds part of the
    next, and never closes for a framing error. *)
Theorem syslog_stream_delivers bufs id wire chunks :
  Forall (fun b => iter b <> [] /\ Forall (countable max) (iter b)) bufs ->
  wires (attempts env d (frame_octet_counting <$> bufs) world_new).2 !! id = Some wire ->
  concat chunks `prefix_of` wire ->
  exists bs k f,
    bs `sublist_of` bufs /\
    feed_all chunks (framer_new Mode.Rfc6587Auto max) = (inr <$> take k (concat (iter <$> bs)), false, f) /\
    concat chunks = concat (octets <$> take k (concat (iter <$> bs))) ++ buf f /\
    (forall msg, concat (iter <$> bs) !! k = Some msg -> exists c, octets msg = buf f ++ c /\ c <> []).
Proof using Type*.
  intros Hb Hw Hp. assert (Hne : Forall (.≠ []) (frame_octet_counting <$> bufs)).
  { apply Forall_fmap. eapply Forall_impl; [done|]. intros b [Hb' _]. cbn. rewrite frame_octet_counting_concat.
    by apply frames_nonempty; [apply octets_nonempty|]. }
  destruct (carried_wires _ _ (carried_run env d _ Hne) id wire Hw) as (fs & Hfs & Hpre).
  apply sublist_fmap_inv in Hfs as (bs & Hbs & ->). exists bs.
  destruct (octet_counted_stream_read max bs chunks Hmax) as (k & f & H); [|by etrans|by exists k, f].
  apply Forall_concat, Forall_fmap, Forall_forall. intros b Hin. rewrite Forall_forall in Hb.
  apply (Hb b). by eapply elem_of_sublist.
Qed.

(** C10: when statsd_out's attempt answers [Ok], whatever attempts failed before it, a
    line listener that has read the pooled connection to its end has delivered every line of that batch
    last, after those of whole earlier batches, and holds nothing. *)
Theorem statsd_sent_is_received oversize bufs b w w' :
  Forall (fun b => iter b <> [] /\ Forall (plain_line max) (iter b)) (bufs ++ [b]) ->
  (attempts env d (build_lf_frame <$> bufs) world_new).2 = w ->
  attempt env d (build_lf_frame b) w = (Some None, w') ->
  exists c wire bs,
    conn (pool w') = Some c /\ wires w' !! stream c = Some wire /\ bs `sublist_of` bufs /\
    forall chunks, concat chunks = wire ->
      exists f, feed_all chunks (framer_new (Mode.Lines oversize) max) = (inr <$> concat (iter <$> bs ++ [b]), false, f) /\
        buf f = [].
Proof using Type*.
  intros Hb <- Ha. assert (Hne : Forall (fun b => build_lf_frame b <> []) (bufs ++ [b])).
  { eapply Forall_impl; [done|]. intros b' [Hb' _]. rewrite build_lf_frame_concat. by apply frames_nonempty; [apply line_nonempty|]. }
  apply Forall_app in Hne as [Hne [Hneb _]%Forall_cons].
  assert (Hne' : Forall (.≠ []) (build_lf_frame <$> bufs)) by (by apply Forall_fmap).
  destruct (answered_ok env d _ _ _ _ (carried_run env d _ Hne') Hneb Ha) as (c & fs & Hc & Hfs & Hw).
  apply sublist_fmap_inv in Hfs as (bs & Hbs & ->). change [build_lf_frame b] with (build_lf_frame <$> [b]) in Hw.
  rewrite <- fmap_app in Hw.
  exists c, (concat (build_lf_frame <$> bs ++ [b])), bs. split_and!; try done. intros chunks Hch.
  destruct (line_stream_read oversize max (bs ++ [b]) chunks Hmax) as (k & f & Hf & Hcut & Hn).
  - apply Forall_concat, Forall_fmap, Forall_forall. intros b' Hin. rewrite Forall_forall in Hb. apply (Hb b').
    eapply elem_of_sublist; [done|]. by apply sublist_app.
  - by rewrite Hch.
  - rewrite Hch, (concat_frames _ line) in Hcut by apply build_lf_frame_concat.
    destruct (whole_cut line _ k _ Hcut Hn) as [Hk Hbuf]. exists f. by rewrite Hf, Hk.
Qed.
End Received.

(** ** What an abandoned connection lost *)

(** Ranges in stream order, each after the one before, none past [last]. *)
Fixpoint ordered (from : Z) (rs : list (Z * Z)) (last : Z) : Prop :=
  match rs with [] => from <= last | (a, b) :: rs => from <= a <= b /\ ordered b rs last end.

Definition sent_ok (s : Sent) : Prop := ordered 0 (ambiguous s) (total s).

Definition within (o : Z) (r : Z * Z) : bool := (r.1 <=? o) && (o <? r.2).

(** The offsets of [lo, hi) in no range. *)
Definition unowned (lo hi : Z) (rs : list (Z * Z)) : Z :=
  Z.of_nat (length (List.filter (fun o => negb (existsb (within o) rs)) (seqZ lo (hi - lo)))).

Lemma owned_cons o a b rs :
  existsb (within o) ((a, b) :: rs) = if decide (a <= o < b) then true else existsb (within o) rs.
Proof.
  cbn [existsb]. unfold within at 1. cbn [fst snd]. destruct (Z.leb_spec a o), (Z.ltb_spec o b); cbn [andb orb]; case_decide; done || lia.
Qed.

Lemma ordered_le rs : forall from last, ordered from rs last -> from <= last.
Proof. induction rs as [|[a b] rs IH]; intros from last; cbn [ordered]; [done|]. intros [? H]. apply IH in H. lia. Qed.

Lemma ordered_starts rs : forall from last r, ordered from rs last -> r ∈ rs -> from <= r.1 <= r.2 /\ r.2 <= last.
Proof.
  induction rs as [|[a b] rs IH]; intros from last r; cbn [ordered]; [by intros _ ?%elem_of_nil|].
  intros [Hab Ho] [->|Hr]%elem_of_cons; [apply ordered_le in Ho; cbn; lia|]. specialize (IH b last r Ho Hr). lia.
Qed.

Lemma not_owned from last rs o : ordered from rs last -> o < from -> existsb (within o) rs = false.
Proof.
  intros Ho Hlt. apply not_true_is_false. intros (r & Hr & Hw)%existsb_exists. apply list_elem_of_In in Hr.
  pose proof (ordered_starts _ _ _ _ Ho Hr). unfold within in Hw. lia.
Qed.

Lemma filter_length_ext {A} (P Q : A -> bool) l : (forall x, x ∈ l -> P x = Q x) -> length (List.filter P l) = length (List.filter Q l).
Proof.
  induction l as [|x l IH]; intros H; [done|]. cbn. rewrite (H x) by constructor.
  assert (length (List.filter P l) = length (List.filter Q l)) by (apply IH; intros; apply H; by constructor).
  destruct (Q x); cbn; congruence.
Qed.

Lemma unowned_split lo mid hi rs : lo <= mid <= hi -> unowned lo hi rs = unowned lo mid rs + unowned mid hi rs.
Proof.
  intros H. unfold unowned. replace (hi - lo) with ((mid - lo) + (hi - mid)) by lia. rewrite seqZ_app by lia.
  rewrite List.filter_app, length_app. replace (lo + (mid - lo)) with mid by lia. lia.
Qed.

Lemma unowned_ext lo hi rs rs' :
  (forall o, lo <= o < hi -> existsb (within o) rs = existsb (within o) rs') -> unowned lo hi rs = unowned lo hi rs'.
Proof.
  intros H. unfold unowned. f_equal. apply filter_length_ext. intros o Ho%elem_of_seqZ. by rewrite H by lia.
Qed.

Lemma unowned_all lo hi rs : lo <= hi -> (forall o, lo <= o < hi -> existsb (within o) rs = false) -> unowned lo hi rs = hi - lo.
Proof.
  intros Hl H. rewrite (unowned_ext lo hi rs []) by done. unfold unowned. cbn [existsb negb].
  rewrite List.forallb_filter_id by (by apply forallb_forall). rewrite length_seqZ. lia.
Qed.

Lemma unowned_none lo hi rs : lo <= hi -> (forall o, lo <= o < hi -> existsb (within o) rs = true) -> unowned lo hi rs = 0.
Proof.
  intros Hl H. unfold unowned. rewrite (filter_length_ext _ (fun _ => false)).
  - by induction (seqZ lo (hi - lo)).
  - intros o Ho%elem_of_seqZ. by rewrite H by lia.
Qed.

Lemma zsum_with_cons {A} (f : A -> Z) x l : zsum_with f (x :: l) = f x + zsum_with f l.
Proof. done. Qed.

Lemma zsum_with_ext {A} (f g : A -> Z) l : (forall x, x ∈ l -> f x = g x) -> zsum_with f l = zsum_with g l.
Proof.
  induction l as [|x l IH]; intros H; [done|]. unfold zsum_with in *. cbn [foldr].
  rewrite (H x) by constructor. rewrite IH; [done|]. intros; apply H; by constructor.
Qed.

(** A range that has left the queue has no overlap with it. *)
Lemma zsum_with_filter {A} (f : A -> Z) (P : A -> bool) l :
  (forall x, x ∈ l -> P x = false -> f x = 0) -> zsum_with f (List.filter P l) = zsum_with f l.
Proof.
  induction l as [|x l IH]; intros H; [done|]. unfold zsum_with in *. cbn [List.filter foldr]. destruct (P x) eqn:Hp; cbn [foldr].
  - rewrite IH; [done|]. intros; apply H; [by constructor|done].
  - rewrite IH, (H x); [done|constructor|done|]. intros; apply H; [by constructor|done].
Qed.

(** The bytes of [lo, hi) in no range are those left once each range's overlap is taken out. *)
Lemma unowned_overlaps hi rs : forall from lo,
  ordered from rs hi -> lo <= hi -> unowned lo hi rs = hi - lo - zsum_with (fun r => saturating_sub r.2 (Z.max r.1 lo)) rs.
Proof.
  induction rs as [|[a b] rs IH]; intros from lo Ho Hl.
  - rewrite unowned_all by done. cbn. lia.
  - rewrite zsum_with_cons. cbn [fst snd]. destruct Ho as [Hab Ho]. pose proof (ordered_le _ _ _ Ho) as Hb. unfold saturating_sub at 1.
    destruct (Z.le_gt_cases b lo) as [Hbl|Hbl].
    + rewrite (unowned_ext lo hi _ rs) by (intros o Hr; rewrite owned_cons, decide_False by lia; done).
      rewrite (IH b lo Ho Hl). lia.
    + rewrite (unowned_split lo (Z.max a lo)), (unowned_split (Z.max a lo) b) by lia.
      rewrite (unowned_all lo (Z.max a lo)), (unowned_none (Z.max a lo) b); try lia.
      * rewrite (unowned_ext b hi _ rs) by (intros o Hr; rewrite owned_cons, decide_False by lia; done). rewrite (IH b b Ho Hb).
        assert (zsum_with (fun r => saturating_sub r.2 (Z.max r.1 b)) rs = zsum_with (fun r => saturating_sub r.2 (Z.max r.1 lo)) rs) as ->; [|lia].
        apply zsum_with_ext. intros r Hr. pose proof (ordered_starts _ _ _ _ Ho Hr). f_equal. lia.
      * intros o Hr. by rewrite owned_cons, decide_True by lia.
      * intros o Hr. rewrite owned_cons, decide_False by lia. by apply (not_owned b hi); [|lia].
Qed.

(** On plaintext the count is exact. *)
Lemma unaccounted_unowned s queued :
  sent_ok s -> 0 <= queued <= total s ->
  unaccounted queued false s = unowned (total s - queued) (total s) (ambiguous s).
Proof.
  intros Hs Hq. unfold unaccounted, overlap. rewrite zsum_with_filter.
  - rewrite (unowned_overlaps _ _ 0) by (done || lia). assert (saturating_sub (total s) queued = total s - queued) as ->
      by (unfold saturating_sub; lia).
    pose proof (unowned_overlaps (total s) (ambiguous s) 0 (total s - queued) Hs ltac:(lia)) as Hu. unfold unowned in Hu.
    unfold saturating_sub at 1. lia.
  - intros r Hr. pose proof (ordered_starts _ _ _ _ Hs Hr). unfold in_queue, saturating_sub. rewrite Z.ltb_ge. lia.
Qed.

(** The ranges a connection keeps stay in order. *)

Lemma ordered_grow rs from last last' : ordered from rs last -> last <= last' -> ordered from rs last'.
Proof. revert from. induction rs as [|[a b] rs IH]; intros from; cbn [ordered]; [lia|]. intros [? ?] ?. eauto. Qed.

Lemma ordered_snoc rs from last a b : ordered from rs last -> last <= a <= b -> ordered from (rs ++ [(a, b)]) b.
Proof.
  revert from. induction rs as [|[a' b'] rs IH]; intros from; cbn [ordered app]; [intros; cbn; lia|]. intros [? ?] ?. eauto.
Qed.

Lemma ordered_weaken rs from from' last : ordered from rs last -> from' <= from -> ordered from' rs last.
Proof. destruct rs as [|[a b] rs]; cbn [ordered]; [lia|]. intros [? ?] ?. split; [lia|done]. Qed.

Lemma ordered_filter P rs from last : ordered from rs last -> ordered from (List.filter P rs) last.
Proof.
  revert from. induction rs as [|[a b] rs IH]; intros from; cbn [ordered List.filter]; [done|]. intros [? ?].
  destruct (P (a, b)); cbn [ordered]; [by eauto|]. apply (ordered_weaken _ b); [by apply IH|lia].
Qed.

Lemma ordered_set_last rs from last last' : ordered from rs last -> last <= last' -> ordered from (set_last_end last' rs) last'.
Proof.
  revert from. induction rs as [|[a b] rs IH]; intros from; cbn [ordered set_last_end]; [lia|]. intros [? Ho] ?.
  pose proof (ordered_le _ _ _ Ho). destruct rs as [|r rs]; cbn [ordered]; [lia|]. split; [done|]. by apply IH.
Qed.

Lemma wrote_ok n s : sent_ok s -> sent_ok (wrote n s).
Proof. intros H. eapply ordered_grow; [done|]. cbn. lia. Qed.

Lemma wrote_tail_ok n s : sent_ok s -> sent_ok (wrote_tail n s).
Proof. intros H. eapply ordered_set_last; [done|]. cbn. lia. Qed.

Lemma add_ambiguous_ok q tls n s : sent_ok s -> sent_ok (add_ambiguous (total s, total s + Z.of_nat n) q tls (wrote n s)).
Proof.
  intros H. unfold sent_ok, add_ambiguous. cbn [total ambiguous wrote].
  apply (ordered_snoc _ _ (total s)); [|lia]. destruct q; [by apply ordered_filter|]. by apply ordered_le in H.
Qed.

(** A step that keeps the pooled connection's ranges in order and whose result has [Q]. *)
Definition pool_ok (w : World) : Prop := forall c, conn (pool w) = Some c -> sent_ok (sent c).
Definition keeps {A} (m : act A) (Q : A -> Prop) : Prop :=
  forall w, pool_ok w -> pool_ok (m w).2 /\ forall x, (m w).1 = Some x -> Q x.

Lemma keeps_bind {A B} (m : act A) (k : A -> act B) P Q : keeps m P -> (forall x, P x -> keeps (k x) Q) -> keeps (bind m k) Q.
Proof.
  intros Hm Hk w Hw. unfold bind. destruct (Hm w Hw) as [Hw1 Hx]. destruct (m w) as [[x|] w1]; cbn [fst snd] in *; [|done].
  by apply Hk; [apply Hx|].
Qed.

Lemma keeps_ret {A} (x : A) (Q : A -> Prop) : Q x -> keeps (ret x) Q.
Proof. intros H w Hw. split; [done|]. by intros ? [= <-]. Qed.

(** A step that leaves the pooled connection alone. *)
Lemma keeps_alone {A} (m : act A) : (forall w, conn (pool (m w).2) = conn (pool w)) -> keeps m (fun _ => True).
Proof. intros H w Hw. split; [|done]. intros c. rewrite H. apply Hw. Qed.

Lemma keeps_put c : sent_ok (sent c) -> keeps (put_conn (Some c)) (fun _ => True).
Proof. intros H w Hw. split; [|done]. intros c' [= <-]. done. Qed.

Section Ranges.
Context (env : Env) (d : Dial) `{!EnvOk env (is_tls d)}.

Definition conn_ok {A} (r : A + Conn) : Prop := match r with inr c => sent_ok (sent c) | inl _ => True end.

Lemma keeps_dial : keeps (dial env d) conn_ok.
Proof using Type.
  unfold dial. eapply keeps_bind; [by apply keeps_alone|]. intros a _. eapply keeps_bind.
  { apply keeps_alone. intros w. by destruct (connect_quiet env d a w) as [[-> _] _]. }
  intros [f|fd] _; [by apply keeps_ret|]. eapply (keeps_bind _ _ (fun c => sent_ok (sent c))); [|intros c Hc; by apply keeps_ret].
  intros w Hw. split; [apply Hw|]. intros c [= <-]. done.
Qed.

Lemma keeps_abandon c tls : keeps (PooledStream.abandon env c tls) (fun _ => True).
Proof using Type. apply keeps_alone. intros w. destruct (abandon_spec env c tls w) as (w' & -> & [Hq _]). exact Hq. Qed.

Lemma keeps_write id bs : keeps (write_counting env id bs) (fun _ => True).
Proof using Type*.
  apply keeps_alone. intros w. pose proof (write_counting_spec env d id bs w) as H.
  destruct (write_counting env id bs w) as [r w']. destruct H as (p & [Hp _] & _). cbn. by rewrite Hp.
Qed.

Lemma keeps_stalled c f : sent_ok (sent c) -> keeps (keep_stalled env c f) (fun _ => True).
Proof using Type.
  intros Hc. unfold keep_stalled. eapply keeps_bind.
  { apply keeps_alone. intros w. unfold bind. destruct (tcp_fd c); [|done]. by destruct (tcp_peer_answering_at env (clock w)). }
  intros b _. eapply (keeps_bind _ _ (fun _ => True)); [|intros; by apply keeps_ret].
  destruct b; [by apply keeps_put|by apply keeps_ret].
Qed.

Lemma keeps_acquire : keeps (acquire env d) conn_ok.
Proof using Type.
  unfold acquire. eapply (keeps_bind _ _ (fun c => match c with Some c => sent_ok (sent c) | None => True end)).
  { intros w Hw. split; [done|]. intros c [= <-]. destruct (conn (pool w)) eqn:Hc; [by apply Hw|done]. }
  intros [c|] Hc; [|apply keeps_dial]. eapply keeps_bind; [by apply keeps_alone|]. intros probed _.
  destruct probed; [by apply keeps_ret|..]; (eapply keeps_bind; [apply keeps_abandon|]); intros _ _; [apply keeps_dial..|by apply keeps_ret].
Qed.

Lemma keeps_finish c : sent_ok (sent c) -> keeps (finish_pending env d c) conn_ok.
Proof using Type*.
  intros Hc. unfold finish_pending. destruct (pending c) as [t|]; [|by apply keeps_ret].
  eapply keeps_bind; [apply keeps_write|]. intros [[] n] _.
  - apply keeps_ret. by apply wrote_tail_ok.
  - eapply (keeps_bind _ _ (fun _ => True)); [|intros; by apply keeps_ret]. apply keeps_stalled. by apply wrote_tail_ok.
  - eapply keeps_bind; [apply keeps_abandon|]. intros _ _. eapply keeps_bind; [apply keeps_dial|].
    intros [f|c'] Hc'; by apply keeps_ret.
Qed.

Lemma keeps_frame frame retry c :
  sent_ok (sent c) -> (forall next, retry = Some next -> keeps next (fun _ => True)) ->
  keeps (write_own_frame env d frame retry c) (fun _ => True).
Proof using Type*.
  intros Hc Hr. unfold write_own_frame. eapply keeps_bind; [apply keeps_write|]. intros [[] n] _.
  - eapply keeps_bind; [|intros; by apply keeps_ret]. apply keeps_put. by apply wrote_ok.
  - destruct (n =? 0)%nat; [apply keeps_stalled; by apply wrote_ok|].
    eapply (keeps_bind _ _ (fun _ => True)); [apply keeps_alone; intros w; destruct (queued_spec env (with_sent (wrote n (sent c)) c) w) as (q & w' & -> & [Hq _]); exact Hq|].
    intros q _. apply keeps_stalled. by apply add_ambiguous_ok.
  - eapply keeps_bind; [apply keeps_abandon|]. intros _ _. destruct (_ && _); [|by apply keeps_ret].
    destruct retry; [by apply Hr|by apply keeps_ret].
Qed.

Lemma keeps_once frame retry :
  (forall next, retry = Some next -> keeps next (fun _ => True)) -> keeps (attempt_once env d frame retry) (fun _ => True).
Proof using Type*.
  intros Hr. unfold attempt_once. eapply keeps_bind; [apply keeps_acquire|]. intros [f|c] Hc; [by apply keeps_ret|].
  eapply keeps_bind; [by apply keeps_finish|]. intros [r|c'] Hc'; [by apply keeps_ret|by apply keeps_frame].
Qed.

Lemma keeps_attempts frames w : pool_ok w -> pool_ok (attempts env d frames w).2.
Proof using Type*.
  revert w. induction frames as [|frame frames IH]; intros w Hw; [done|]. cbn [attempts].
  assert (Hk : keeps (attempt env d frame) (fun _ => True)).
  { apply keeps_once. intros next [= <-]. by apply keeps_once. }
  destruct (Hk w Hw) as [Hw1 _]. destruct (attempt env d frame w) as [r w1]. specialize (IH w1 Hw1).
  by destruct (attempts env d frames w1).
Qed.

End Ranges.

(** ** Samples *)

(** A peer that takes three bytes at a time and stops reading for a while in the second frame. *)
Definition sample_env : Env :=
  mkEnv (fun _ => Open) (fun _ => mkDialAnswer true true true None) (fun _ => Elapsed)
    (fun t bs => if (t =? 7)%nat then WriteElapsed else Accepted (length bs `min` 3))
    (fun _ => Flushed) (fun _ => Some 5) (fun _ => Some true) (fun _ => false).

Definition sample_dial : Dial := mkDial (Tcp false) false false.

#[global] Instance sample_env_ok : EnvOk sample_env (is_tls sample_dial).
Proof.
  split.
  - intros t bs n. cbn. destruct (t =? 7)%nat; [done|]. intros [= <-]. lia.
  - intros t bs n _. cbn. by destruct (t =? 7)%nat.
Defined.

Definition sample_frames : list bytes := frame_octet_counting <$> [sample_buf; sample_buf; sample_buf].
Definition sample_run : World := (attempts sample_env sample_dial sample_frames world_new).2.

Lemma stream_fault_is_true_witness : exists mv,
  moved world_new (frame_octet_counting sample_buf) mv (attempt sample_env sample_dial (frame_octet_counting sample_buf) world_new).2 /\
  (dials mv <= 2)%nat /\ part mv = frame_octet_counting sample_buf.
Proof.
  apply (stream_fault_is_true sample_env sample_dial (frame_octet_counting sample_buf) world_new (Some None));
    [by vm_compute|by vm_compute].
Defined.

Lemma stream_carries_whole_frames_witness :
  let '(r, w') := pool_flush sample_env sample_run in
  (forall id wire, wires w' !! id = Some wire -> exists fs, fs `sublist_of` sample_frames /\ wire `prefix_of` concat fs) /\
  (forall c, r = Some true -> conn (pool w') = Some c ->
     exists fs, fs `sublist_of` sample_frames /\ wires w' !! stream c = Some (concat fs) /\ pending c = None).
Proof.
  apply (stream_carries_whole_frames sample_env sample_dial sample_frames). repeat constructor; by vm_compute.
Defined.

Lemma syslog_stream_delivers_witness :
  let wire := nth 0 (wires sample_run) [] in
  exists bs k f,
    bs `sublist_of` [sample_buf; sample_buf; sample_buf] /\
    feed_all [take 3 wire; drop 3 (take 9 wire)] (framer_new Mode.Rfc6587Auto 64) = (inr <$> take k (concat (iter <$> bs)), false, f) /\
    concat [take 3 wire; drop 3 (take 9 wire)] = concat (octets <$> take k (concat (iter <$> bs))) ++ buf f /\
    (forall msg, concat (iter <$> bs) !! k = Some msg -> exists c, octets msg = buf f ++ c /\ c <> []).
Proof.
  apply (syslog_stream_delivers sample_env sample_dial 64 ltac:(lia) [sample_buf; sample_buf; sample_buf] 0 (nth 0 (wires sample_run) [])).
  - repeat constructor; by vm_compute.
  - vm_compute. reflexivity.
  - by apply (bool_decide_unpack _); vm_compute.
Defined.

Definition sample_lines : list (MessageBuf unit) := [sample_buf; sample_buf].
Definition sample_before : World := (attempts sample_env sample_dial (build_lf_frame <$> sample_lines) world_new).2.

Lemma statsd_sent_is_received_witness :
  let w' := (attempt sample_env sample_dial (build_lf_frame sample_buf) sample_before).2 in
  exists c wire bs,
    conn (pool w') = Some c /\ wires w' !! stream c = Some wire /\ bs `sublist_of` sample_lines /\
    forall chunks, concat chunks = wire ->
      exists f, feed_all chunks (framer_new (Mode.Lines Mode.Fatal) 64) = (inr <$> concat (iter <$> bs ++ [sample_buf]), false, f) /\
        buf f = [].
Proof.
  apply (statsd_sent_is_received sample_env sample_dial 64 ltac:(lia) Mode.Fatal sample_lines sample_buf sample_before).
  - repeat constructor; by vm_compute.
  - vm_compute. reflexivity.
  - vm_compute. reflexivity.
Defined.

Definition sample_conn : Conn := default (mkConn 0 false None (mkSent 0 [])) (conn (pool sample_run)).

