(* ===== verification/StreamSink.v ===== *)
(** * A stream sink under the delivery loop

    syslog_out over TCP (crates/logit-outputs/src/syslog.rs) as a sink of [Output]: one attempt of
    [PooledStream] per call, on the messages its encoder left, with the trait's own [submit] and
    [await_ack]. It keeps the contract, so the loop's theorems hold over it; and what the loop commits
    as delivered, a syslog listener that reads the connection delivers. *)

From S2P Require Import Prelude Batch Buffer Queue SinkQueue Control Output WriteLoop LoopInvariant LoopProperties.
From S2P Require Import StreamFraming FramingProperties StreamSenders PooledStream StreamDelivery.

(** The surroundings of a call whose future is not dropped. *)
Definition undropped (env : Env) : Env :=
  mkEnv (probe_at env) (dial_at env) (read_at env) (write_at env) (flush_at env) (send_queue_at env) (tcp_peer_answering_at env)
    (fun _ => false).

Definition completes {A} (m : act A) : Prop := forall w, is_Some (m w).1.

Lemma completes_bind {A B} (m : act A) (k : A -> act B) : completes m -> (forall x, completes (k x)) -> completes (bind m k).
Proof. intros Hm Hk w. unfold bind. destruct (Hm w) as [x Hx]. destruct (m w) as [o w1]. cbn in Hx. subst o. apply Hk. Qed.

Section Completes.
Context (env : Env) (d : Dial).

Lemma asks_completes {A} (answer : nat -> A) : completes (asks (undropped env) answer).
Proof using Type. intros w. by eexists. Qed.

Lemma write_completes id bs : completes (write_counting (undropped env) id bs).
Proof using Type.
  unfold write_counting. generalize (S (length bs)), 0%nat. intros fuel. induction fuel as [|fuel IH]; intros done w; [by eexists|].
  cbn [write_chunks]. destruct (done <? length bs)%nat; [|by eexists]. unfold bind, write. cbn [dropped_at undropped].
  destruct (write_at _ _ _) as [[]| |]; try by eexists. apply IH.
Qed.

Lemma dial_completes : completes (dial (undropped env) d).
Proof using Type.
  unfold dial. apply completes_bind; [apply asks_completes|]. intros a. apply completes_bind.
  - intros w. unfold connect_tcp_fd, bind, record_cert_request, asks, ret. cbn. repeat case_match; by eexists.
  - intros []; intros w; by eexists.
Qed.

Lemma abandon_completes c tls : completes (PooledStream.abandon (undropped env) c tls).
Proof using Type. intros w. destruct (abandon_spec (undropped env) c tls w) as (w' & -> & _). by eexists. Qed.

Lemma stalled_completes c f : completes (keep_stalled (undropped env) c f).
Proof using Type.
  intros w. unfold keep_stalled, bind, ret. destruct (tcp_fd c); [|by eexists]. destruct (tcp_peer_answering_at _ _) as [[]|]; by eexists.
Qed.

Lemma ret_completes {A} (x : A) : completes (ret x).
Proof using Type. intros w. by eexists. Qed.

Lemma once_completes frame retry :
  (forall next, retry = Some next -> completes next) -> completes (attempt_once (undropped env) d frame retry).
Proof using Type.
  intros Hr. unfold attempt_once. apply completes_bind.
  { unfold acquire. apply completes_bind; [intros w; by eexists|]. intros [c|]; [|apply dial_completes].
    apply completes_bind; [intros w; by eexists|]. intros []; [apply ret_completes|..];
      (apply completes_bind; [apply abandon_completes|intros _]); [apply dial_completes..|apply ret_completes]. }
  intros [f|c]; [apply ret_completes|]. apply completes_bind.
  { unfold finish_pending. destruct (pending c); [|apply ret_completes]. apply completes_bind; [apply write_completes|].
    intros [[] n]; [apply ret_completes|apply completes_bind; [apply stalled_completes|intros r; apply ret_completes]|].
    apply completes_bind; [apply abandon_completes|intros _]. apply completes_bind; [apply dial_completes|].
    intros []; apply ret_completes. }
  intros [r|c']; [apply ret_completes|]. unfold write_own_frame. apply completes_bind; [apply write_completes|].
  intros [[] n]; [apply completes_bind; [intros w; by eexists|intros _; apply ret_completes]| |].
  - destruct (n =? 0)%nat; [apply stalled_completes|]. apply completes_bind; [|intros q; apply stalled_completes].
    intros w. unfold queued. destruct (tcp_fd _); by eexists.
  - apply completes_bind; [apply abandon_completes|intros _]. destruct (_ && _); [|apply ret_completes].
    destruct retry as [next|]; [by apply Hr|apply ret_completes].
Qed.

(** A call that is not dropped returns. *)
Lemma attempt_completes frame : completes (attempt (undropped env) d frame).
Proof using Type. apply once_completes. intros next [= <-]. by apply once_completes. Qed.
End Completes.

(** ** The sink *)

Section Sink.
Context (d : Dial) (max : Z).

(** A batch as the encoder leaves it: messages an octet count can carry. *)
Record Encoded := mkEncoded { messages : MessageBuf unit; messages_ok : Forall (countable max) (iter messages) }.

(** What the surroundings do during a call, within what a socket may do. *)
Record Surroundings := mkSurroundings { call_env : Env; call_ok : EnvOk call_env (is_tls d) }.

(** The sink's connections; beside them, ledgers: the batches submitted, those answered [Ok], and the
    batches attempted. *)
Record SyslogOutput := mkSyslogOutput {
  conn_world : World;
  submitted : list SeqId;
  last_observed : option SeqId;
  answered : list SeqId;
  tried : list (MessageBuf unit)
}.

(** [SyslogOutput::attempt] over TCP, after its encoder: nothing to write is [Ok]. *)
Definition syslog_attempt (env : Env) (b : Encoded) (o : SyslogOutput) : option (option Fault.Fault) * SyslogOutput :=
  match iter (messages b) with
  | [] => (Some None, o)
  | _ =>
      let '(r, w) := attempt env d (frame_octet_counting (messages b)) (conn_world o) in
      (r, mkSyslogOutput w (submitted o) (last_observed o) (answered o) (tried o ++ [messages b]))
  end.

Definition with_answers (sub ans : list SeqId) (o : SyslogOutput) : SyslogOutput :=
  mkSyslogOutput (conn_world o) sub (last_observed o) ans (tried o).

(** An answer as the loop classifies it; a call that is not dropped has one ([attempt_completes]). *)
Definition syslog_error (r : option (option Fault.Fault)) : option SendError :=
  match r with Some None => None | Some (Some f) => Some (mkSendError (Some f) false) | None => Some (mkSendError None false) end.

(** [send] of a call that is not dropped; the accounting it returns through passes the result on. *)
Definition syslog_send (n : Surroundings) (b : Encoded) (o : SyslogOutput) : option SendError * SyslogOutput :=
  let '(r, o) := syslog_attempt (undropped (call_env n)) b o in
  (syslog_error r,
   match r, last_observed o with
   | Some None, Some s => with_answers (submitted o) (answered o ++ [s]) o
   | _, _ => o
   end).

(** The trait's own: a submission is a send, and it has been delivered when it is waited for, so the
    ledger counts it answered only then. *)
Definition syslog_submit (n : Surroundings) (b : Encoded) (s : SeqId) (o : SyslogOutput) : option SendError * SyslogOutput :=
  let '(r, o) := syslog_attempt (undropped (call_env n)) b o in
  (syslog_error r,
   match r with Some None => with_answers (submitted o ++ [s]) (answered o) o | _ => o end).

Definition syslog_await_ack (o : SyslogOutput) : SyslogOutput :=
  match submitted o with s :: rest => with_answers rest (answered o ++ [s]) o | [] => o end.

(** A call dropped at one of its awaits, or before its first. *)
Definition syslog_cut (n : Surroundings) (b : Encoded) (o : SyslogOutput) : SyslogOutput :=
  match syslog_attempt (call_env n) b o with (None, o') => o' | (Some _, _) => o end.

Definition forget (o : SyslogOutput) : SyslogOutput := with_answers [] (answered o) o.

#[global] Instance syslog_output : Output Encoded SyslogOutput Surroundings := {|
  window := fun _ => 1;
  collecting := fun _ => None;
  reached_destination := fun _ n => n;
  default_posture := fun _ => AtLeastOnce;
  observe_posture := fun _ o => o;
  observe_batch := fun _ s o => mkSyslogOutput (conn_world o) (submitted o) (Some s) (answered o) (tried o);
  send := syslog_send;
  submit := syslog_submit;
  await_ack := fun _ o => (None, syslog_await_ack o);
  cut_send := syslog_cut;
  cut_submit := fun n b _ o => forget (syslog_cut n b o);
  cut_await_ack := forget
|}.

Lemma syslog_attempt_ledgers env b o :
  let '(r, o') := syslog_attempt env b o in
  submitted o' = submitted o /\ last_observed o' = last_observed o /\ answered o' = answered o.
Proof using Type. unfold syslog_attempt. destruct (iter (messages b)); [done|]. by destruct (attempt _ _ _ _). Qed.

#[global] Instance syslog_output_ok : OutputOk syslog_output.
Proof using Type.
  refine {| outstanding := submitted; handed_back := fun _ => None; told := last_observed; took := answered; given_now := fun _ => [] |};
    try done.
  - intros n b o s Ho Ht. cbn [send syslog_output]. unfold syslog_send.
    pose proof (syslog_attempt_ledgers (undropped (call_env n)) b o) as H. destruct (syslog_attempt _ b o) as [r o'].
    destruct H as (Hs & Hl & Ha). rewrite Hl, Ht. destruct r as [[f|]|]; cbn; rewrite ?Hs, ?Ha, ?Hl;
      split_and!; try done; try (by left); set_solver.
  - intros n b s o. cbn [submit syslog_output]. unfold syslog_submit.
    pose proof (syslog_attempt_ledgers (undropped (call_env n)) b o) as H. destruct (syslog_attempt _ b o) as [r o'].
    destruct H as (Hs & Hl & Ha). destruct r as [[f|]|]; cbn; rewrite ?Hs, ?Ha; split_and!; try done; set_solver.
  - intros n o s rest Ho. cbn. unfold syslog_await_ack. rewrite Ho. cbn. by split_and!.
  - intros n b o Ho. cbn. unfold syslog_cut. pose proof (syslog_attempt_ledgers (call_env n) b o) as H.
    destruct (syslog_attempt _ b o) as [[r|] o']; [done|]. by destruct H as (-> & _ & ->).
  - intros n b s o. cbn. unfold syslog_cut. pose proof (syslog_attempt_ledgers (call_env n) b o) as H.
    destruct (syslog_attempt _ b o) as [[r|] o']; [done|]. by destruct H as (_ & _ & ->).
Defined.

(** ** What its answers mean *)

Definition sendable (m : MessageBuf unit) : Prop := iter m <> [] /\ Forall (countable max) (iter m).

(** [m] is whole on a connection, behind the frames of whole batches. *)
Definition whole_on (w : World) (m : MessageBuf unit) : Prop :=
  exists id wire ms, wires w !! id = Some wire /\ Forall sendable ms /\ concat (frame_octet_counting <$> ms ++ [m]) `prefix_of` wire.

(** A batch answered for: the caller gave it under that number, and it is whole on a connection. *)
Definition answered_for (given : Encoded -> SeqId -> Prop) (w : World) (s : SeqId) : Prop :=
  exists b, given b s /\ (iter (messages b) = [] \/ whole_on w (messages b)).

Record sink_ok (given : Encoded -> SeqId -> Prop) (o : SyslogOutput) : Prop := mkSinkOk {
  so_tried : Forall sendable (tried o);
  so_carried : carried (frame_octet_counting <$> tried o) (conn_world o);
  so_answered s : s ∈ answered o ++ submitted o -> answered_for given (conn_world o) s
}.

(** An attempt adds to connections and takes nothing from them. *)
Lemma moved_grows w frame mv w' id wire :
  moved w frame mv w' -> wires w !! id = Some wire -> exists wire', wires w' !! id = Some wire' /\ wire `prefix_of` wire'.
Proof using Type.
  intros (-> & _) Hw. unfold moved_wires. rewrite grow_lookup, lookup_app_l by (rewrite length_grow; by eapply lookup_lt_Some).
  rewrite grow_lookup, Hw. repeat case_decide; cbn; eexists; (split; [done|]); rewrite <- ?app_assoc; by first [done|apply prefix_app_r].
Qed.

Lemma whole_on_moved w frame mv w' m : moved w frame mv w' -> whole_on w m -> whole_on w' m.
Proof using Type.
  intros Hm (id & wire & ms & Hw & Hg & Hp). destruct (moved_grows _ _ _ _ _ _ Hm Hw) as (wire' & Hw' & Hp').
  exists id, wire', ms. split_and!; try done. by etrans.
Qed.

Lemma frame_nonempty m : iter m <> [] -> frame_octet_counting m <> [].
Proof using Type. intros H. rewrite frame_octet_counting_concat. by apply frames_nonempty; [apply octets_nonempty|]. Qed.

Section Given.
Context (given : Encoded -> SeqId -> Prop).

Lemma syslog_attempt_ok env (E : EnvOk env (is_tls d)) b o :
  sink_ok given o ->
  let '(r, o') := syslog_attempt env b o in
  sink_ok given o' /\ (r = Some None -> iter (messages b) = [] \/ whole_on (conn_world o') (messages b)).
Proof using Type.
  intros H. unfold syslog_attempt. destruct (iter (messages b)) as [|msg msgs] eqn:Hi; [by split; [|left]|].
  assert (Hg : sendable (messages b)) by (split; [by rewrite Hi|apply messages_ok]).
  pose proof (frame_nonempty _ (proj1 Hg)) as Hne. pose proof (attempt_spec env d _ (conn_world o) Hne) as Hs.
  destruct (attempt env d _ (conn_world o)) as [r w] eqn:Ha. destruct Hs as (mv & Hm & _). destruct H as [Ht Hc Hans]. split.
  - split; cbn [tried conn_world answered submitted]; [by apply Forall_app; split; [|apply Forall_cons; split]| |].
    + rewrite fmap_app. by eapply carried_moved.
    + intros s Hin. destruct (Hans s Hin) as (b' & Hb & [?|?]); exists b'; eauto using whole_on_moved.
  - intros ->. right. cbn [conn_world]. destruct (answered_ok env d _ _ _ _ Hc Hne Ha) as (c & fs & _ & Hfs & Hl).
    apply sublist_fmap_inv in Hfs as (ms & Hms & ->). eexists (stream c), _, ms. split; [exact Hl|]. rewrite fmap_app.
    split; [|done]. apply Forall_forall. intros m Hin. rewrite Forall_forall in Ht. apply Ht. by eapply elem_of_sublist.
Qed.

Lemma sink_ok_ledgers o sub ans told :
  sink_ok given o -> (forall s, s ∈ ans ++ sub -> s ∈ answered o ++ submitted o \/ answered_for given (conn_world o) s) ->
  sink_ok given (mkSyslogOutput (conn_world o) sub told ans (tried o)).
Proof using Type. intros [Ht Hc Ha] H. split; cbn; [done..|]. intros s Hs. by destruct (H s Hs) as [?%Ha|]. Qed.

Lemma undropped_ok n : EnvOk (undropped (call_env n)) (is_tls d).
Proof using Type. destruct n as [env [H1 H2]]. by split. Qed.

Lemma syslog_cut_ok n b o : sink_ok given o -> sink_ok given (syslog_cut n b o).
Proof using Type.
  intros H. unfold syslog_cut. pose proof (syslog_attempt_ok (call_env n) (call_ok n) b o H) as Ha.
  destruct (syslog_attempt _ b o) as [[r|] o']; [done|apply Ha].
Qed.

Lemma send_ok n b s o : sink_ok given o -> last_observed o = Some s -> given b s -> sink_ok given (syslog_send n b o).2.
Proof using Type.
  intros H Ht Hg. unfold syslog_send. pose proof (syslog_attempt_ok _ (undropped_ok n) b o H) as Ha.
  pose proof (syslog_attempt_ledgers (undropped (call_env n)) b o) as Hl. destruct (syslog_attempt _ b o) as [r o'].
  destruct Ha as [Ho' Hr], Hl as (_ & Hl & _). rewrite Hl, Ht. destruct r as [[f|]|]; try done. cbn.
  apply sink_ok_ledgers; [done|]. intros s' [[?| ->%list_elem_of_singleton]%elem_of_app|?]%elem_of_app; [left; set_solver| |left; set_solver].
  right. exists b. by split; [|apply Hr].
Qed.

Lemma submit_ok n b s o : sink_ok given o -> given b s -> sink_ok given (syslog_submit n b s o).2.
Proof using Type.
  intros H Hg. unfold syslog_submit. pose proof (syslog_attempt_ok _ (undropped_ok n) b o H) as Ha.
  destruct (syslog_attempt _ b o) as [r o']. destruct Ha as [Ho' Hr]. destruct r as [[f|]|]; try done. cbn.
  apply sink_ok_ledgers; [done|]. intros s' [?|[?| ->%list_elem_of_singleton]%elem_of_app]%elem_of_app; [left; set_solver..|].
  right. exists b. by split; [|apply Hr].
Qed.

Definition syslog_new (o : SyslogOutput) : Prop := o = mkSyslogOutput world_new [] None [] [].

Lemma used_sink_ok o : used (S := syslog_output) given syslog_new o -> sink_ok given o.
Proof using Type.
  induction 1 as [o ->|p o _ IH|b s o _ IH|n b s o _ IH _ Ht _ _ Hg|n b s o _ IH _ _ _ _ _|n b s o _ IH _ _ Hg|n b s o _ IH Hh _
    |n b s o _ IH _ _ _|n b s o _ IH Hh _|n o _ IH|o _ IH]; cbn; try done.
  - split; cbn; [done|apply carried_new|set_solver].
  - by apply sink_ok_ledgers; [|left].
  - by apply (send_ok n b s).
  - by apply syslog_cut_ok.
  - by apply submit_ok.
  - apply sink_ok_ledgers; [by apply syslog_cut_ok|]. left. set_solver.
  - unfold syslog_await_ack. destruct (submitted o) as [|s rest] eqn:Hs; [done|]. apply sink_ok_ledgers; [done|].
    rewrite Hs. left. set_solver.
  - apply sink_ok_ledgers; [done|]. left. set_solver.
Qed.
End Given.

(** ** What the listener reads *)

(** Reads of the same bytes that close nothing deliver the same frames. *)
Lemma same_bytes_same_frames chunks chunks' (ms ms' : list bytes) f f' :
  0 <= max -> concat chunks = concat chunks' ->
  feed_all chunks (framer_new Mode.Rfc6587Auto max) = (inr <$> ms, false, f) ->
  feed_all chunks' (framer_new Mode.Rfc6587Auto max) = (inr <$> ms', false, f') -> ms = ms'.
Proof using Type.
  intros Hmax Hc H H'. set (fr := start_framing Mode.Rfc6587Auto (default LF (head (concat chunks)))).
  pose proof (feed_all_reads Mode.Rfc6587Auto max fr chunks Hmax) as R.
  pose proof (feed_all_reads Mode.Rfc6587Auto max fr chunks' Hmax) as R'. rewrite H in R. rewrite H' in R'.
  rewrite <- Hc in R'. unfold fr in R, R'. rewrite R in R' by (by intros first bs ->).
  specialize (R' ltac:(by intros first bs ->)). injection R' as E _ _. rewrite <- !list_fmap_compose in E.
  by apply (list_fmap_eq_inj (fun m : bytes => inr m : FrameError.FrameError + bytes)) in E; [|intros ? ? [= ->]].
Qed.

Lemma sendable_messages ms : Forall sendable ms -> Forall (countable max) (concat (iter <$> ms)).
Proof using Type. intros H. apply Forall_concat, Forall_fmap. eapply Forall_impl; [done|]. by intros m [_ ?]. Qed.

(** A listener that reads a connection delivers the batches whole on it, and what it delivers
    behind them are messages. *)
Lemma whole_batches_read wire ms fs chunks :
  0 <= max -> Forall sendable ms -> Forall sendable fs ->
  concat (frame_octet_counting <$> ms) `prefix_of` wire -> wire `prefix_of` concat (frame_octet_counting <$> fs) ->
  concat chunks = wire ->
  exists post f, feed_all chunks (framer_new Mode.Rfc6587Auto max) = (inr <$> (concat (iter <$> ms) ++ post), false, f).
Proof using Type.
  intros Hmax Hms Hfs [more ->] Hw Hch. set (whole := concat (frame_octet_counting <$> ms)) in *.
  destruct (octet_counted_stream_read max fs chunks Hmax (sendable_messages _ Hfs)) as (k & f & Hf & _); [by rewrite Hch|].
  destruct (octet_counted_stream_read max fs [whole; more] Hmax (sendable_messages _ Hfs)) as (k' & f' & Hf' & _).
  { cbn. by rewrite app_nil_r. }
  destruct (octet_counted_stream_read max ms [whole] Hmax (sendable_messages _ Hms)) as (j & g & Hg & Hcut & Hn).
  { cbn. by rewrite app_nil_r. }
  cbn [concat] in Hcut. rewrite app_nil_r in Hcut. unfold whole in Hcut.
  rewrite (concat_frames _ octets) in Hcut by apply frame_octet_counting_concat.
  destruct (whole_cut octets _ j _ Hcut Hn) as [Hj _]. rewrite Hj in Hg. cbn [feed_all] in Hg, Hf'.
  destruct (feed whole _) as [[ev []] g'] eqn:Hfd; [done|]. rewrite app_nil_r in Hg. injection Hg as -> ->.
  destruct (feed more g) as [[ev' []] g''] eqn:Hfd'; [done|]. injection Hf' as He _.
  assert (exists post, take k' (concat (iter <$> fs)) = concat (iter <$> ms) ++ post) as [post Hpost].
  { symmetry in He. apply fmap_app_inv in He as (l1 & l2 & E1 & E2 & ->). exists l2. f_equal.
    symmetry. by apply (list_fmap_eq_inj (fun m : bytes => inr m : FrameError.FrameError + bytes)) in E1; [|intros ? ? [= ->]]. }
  exists post, f. rewrite Hf. do 3 f_equal. rewrite <- Hpost.
  eapply (same_bytes_same_frames chunks [whole; more]); [done|cbn; by rewrite app_nil_r|exact Hf|].
  cbn [feed_all]. rewrite Hfd, Hfd'. rewrite <- He. reflexivity.
Qed.

(** C8: what the loop commits as delivered over syslog_out is what its listener delivers:
    whatever the sockets do, whichever calls fail, are dropped or are tried again, a batch of messages
    committed as delivered is on a connection, and a listener that reads that connection, in whatever
    reads, delivers those messages whole and one behind the other, with other batches' messages around
    them, and never closes for a framing error. *)
Theorem syslog_delivered_is_received {QE : Queued Encoded} {QO : QueuedOk Encoded} (posture : DeliveryPosture) (id : bytes)
    (l : @Loop Encoded SyslogOutput) (Hran : ran (S := syslog_output) posture id syslog_new l) (Hmax : 0 <= max)
    (n : nat) (x : Encoded * SeqId) (Hx : delivered (ledger l) !! n = Some x) (Ho : outcomes l !! n = Some Delivered) :
  iter (messages x.1) = [] \/
  exists cid wire, wires (conn_world (sink l)) !! cid = Some wire /\
    forall chunks, concat chunks = wire ->
      exists pre post f, feed_all chunks (framer_new Mode.Rfc6587Auto max) = (inr <$> (pre ++ iter (messages x.1) ++ post), false, f).
Proof using Type.
  destruct (ran_core _ _ _ _ Hran) as [k H]. pose proof (used_sink_ok _ _ (core_used _ _ _ _ _ _ _ H)) as [Ht Hc Ha].
  pose proof (core_took _ _ _ _ _ _ _ H) as Htook. rewrite app_nil_r in Htook.
  destruct (Ha x.2) as (b & Hb & Hw); [apply elem_of_app; left; change (answered (sink l)) with (took (sink l)); rewrite Htook; by eapply taken_delivered|].
  rewrite (core_came_unique _ _ _ _ _ _ _ x b H (list_elem_of_lookup_2 _ _ _ Hx) Hb) in Hw.
  destruct (decide (iter (messages x.1) = [])) as [He|Hne]; [by left|right].
  destruct Hw as [?|(cid & wire & ms & Hl & Hms & Hp)]; [done|]. exists cid, wire. split; [done|]. intros chunks Hch.
  destruct (carried_wires _ _ Hc cid wire Hl) as (fs & Hfs & Hpre). apply sublist_fmap_inv in Hfs as (ts & Hts & ->).
  assert (Forall sendable ts) as Hts' by (rewrite Forall_forall in *; intros m Hm; apply Ht; by eapply elem_of_sublist).
  destruct (whole_batches_read wire (ms ++ [messages x.1]) ts chunks) as (post & f & Hf); try done.
  { apply Forall_app. split; [done|]. apply Forall_cons. split; [|done]. split; [done|apply messages_ok]. }
  exists (concat (iter <$> ms)), post, f. rewrite Hf, (fmap_app iter ms), concat_app. cbn [fmap list_fmap concat].
  by rewrite app_nil_r, <- app_assoc.
Qed.
End Sink.

(** ** Samples *)

#[local] Abbreviation sample_output := (syslog_output sample_dial 64).
#[local] Abbreviation sample_encoded := (Encoded 64).

#[local] Instance encoded_queued : Queued sample_encoded := {| queued_weight _ := 1; queued_units _ := 1 |}.

#[local] Instance encoded_queued_ok : QueuedOk sample_encoded.
Proof. by split. Qed.

Lemma sample_buf_ok : Forall (countable 64) (iter sample_buf).
Proof. repeat constructor; by vm_compute. Qed.

Definition encoded_sample : sample_encoded := mkEncoded 64 sample_buf sample_buf_ok.
Definition sample_call : Surroundings sample_dial := mkSurroundings sample_dial sample_env sample_env_ok.
Definition syslog_idle : SyslogOutput := mkSyslogOutput world_new [] None [] [].

(** Two batches: the first is written, the second stalls and is tried again. *)
#[local] Abbreviation syslog_events :=
  [Arrive encoded_sample; Arrive encoded_sample; Peek; Call sample_call due; Peek; Call sample_call due; Call sample_call due].
#[local] Abbreviation syslog_run :=
  (run_events (S := sample_output) AtLeastOnce 100 syslog_events (loop_new (S := sample_output) AtLeastOnce sample_id 4 100 DropOldest syslog_idle)).

Lemma syslog_delivered_is_received_witness :
  exists l, syslog_run = Some l /\ length (tried (sink l)) = 3%nat /\
  exists cid wire, wires (conn_world (sink l)) !! cid = Some wire /\
    forall chunks, concat chunks = wire ->
      exists pre post f, feed_all chunks (framer_new Mode.Rfc6587Auto 64) = (inr <$> (pre ++ iter sample_buf ++ post), false, f).
Proof.
  assert (match syslog_run with
    | Some l => bool_decide (map (fun x => iter (messages 64 x.1)) (delivered (ledger l)) = [iter sample_buf; iter sample_buf]) &&
        (length (tried (sink l)) =? 3)%nat && match outcomes l with [Delivered; Delivered] => true | _ => false end
    | None => false end = true) as Hc by by vm_compute.
  destruct syslog_run as [l|] eqn:Hr; [|discriminate Hc]. exists l. split; [reflexivity|].
  assert (ran (S := sample_output) AtLeastOnce sample_id syslog_new l) as Hran.
  { exists 100, 4, 100, DropOldest, syslog_idle, syslog_events.
    split; [reflexivity|]. split; [reflexivity|]. split; [repeat split|]. split; [reflexivity|exact Hr]. }
  clear Hr. apply andb_true_iff in Hc as [[Hd%bool_decide_eq_true Ht%Nat.eqb_eq]%andb_true_iff Ho]. split; [exact Ht|].
  destruct (delivered (ledger l)) as [|y [|x [|]]] eqn:Hl; try discriminate Hd. injection Hd as _ Hx.
  destruct (outcomes l) as [|[] [|[] [|]]] eqn:Hout; try discriminate Ho.
  pose proof (syslog_delivered_is_received sample_dial 64 AtLeastOnce sample_id l Hran ltac:(lia) 1 x) as H.
  rewrite Hl, Hout, Hx in H. destruct (H eq_refl eq_refl) as [He|H']; [discriminate He|exact H'].
Defined.
